(* ===== verification/_CoqProject ===== *)
-Q . S2P
Prelude.v
GoString.v
Jitter.v
Seconds.v
Metrics.v
Attributes.v
Matcher.v
StaticRule.v
DynamicRule.v
Instantiation.v
Expand.v
Essential.v
Representation.v
RuleManager.v
Lock.v
LockCalls.v
Session.v
Etcd.v
Collector.v
Mocks.v
KeyProcessor.v
KeyChannel.v
Sampler.v
Crawler.v
Worker.v
Json.v
Listener.v
Shutdown.v
Options.v
LogObject.v
Engine.v
Running.v
Wiring.v
EndToEnd.v
IntegrationTest.v
IntegrationRun.v
Examples.v
