(* ===== verification/Prelude.v ===== *)
(** * go-etcd-rules: a verification development *)
(** go-etcd-rules (src/rules) is a rules engine over etcd.  An application
    registers rules, boolean expressions over key patterns such as
    "/user/:name/state", with callbacks.  When keys change, the engine
    instantiates the rules the keys trigger, evaluates them on the store and
    runs the callbacks of those that hold, under a lock.

    ** The program

    - A pattern is compiled to a regular expression with a group per parameter;
      matching a key yields attributes, and attributes format patterns to keys
      (matcher.go, task.go, constraint.go).
    - A dynamic rule (dynamic_rule.go) is a tree of leaves over patterns; a key
      that matches turns it into a static rule (static_rule.go) over keys, which
      is evaluated against a read API.
    - The rule manager (rule_manager.go) keeps the rules by the number of slashes
      of their patterns and the reduced set of prefixes the engine watches.
    - Watchers (watcher.go, etcd.go) and the crawler (int_crawler.go) feed keys
      to the key processor (key_processor.go), which sends the work of satisfied
      rules to the workers (worker.go); a worker takes a lock (lock/,
      concurrency/), checks the rule again and runs the callback.
    - The engine (engine.go, options.go) wires these together and stops them.
    - Metrics go to Prometheus (metrics/) and to a collector of the application
      (metrics_collector.go); mocks of the collector, the lockers and the
      watchers serve tests, such as the program v3enginetest/main.go.

    ** The files

    - Prelude.v: this documentation, Go maps and their iteration order
      ([GoRange]), results with errors, generic lemmas.
    - GoString.v: the functions of packages strings and unicode/utf8 the engine
      uses, with their laws.
    - Jitter.v: jittered durations (internal/jitter), with float64 arithmetic.
    - Seconds.v: the whole seconds of a duration.
    - Metrics.v: the collectors of package metrics, what is recorded and exposed.
    - Attributes.v: [extendedAttributes] and its implementations, [formatPath];
      patterns as lists of segments and [render], the meaning of formatting.
    - Matcher.v: the class [Regexp] with the law the engine relies on
      ([RegexpLaws]), [parsePath], matchers, prefixes and constraints;
      [segment_regexp] is an executable instance of the class.
    - StaticRule.v: static rules, [satisfied], the two rule filters
      ([satisfiable], [qSatisfiable]); [holds] is the truth of a rule in a store.
    - DynamicRule.v: dynamic rules, their constructors (with fmt.Sprintf as the
      class [Fmt]) and [makeStaticRule], [RuleSatisfied]; [wf_rule] is what the
      constructors establish.
    - Instantiation.v: [rule_holds], the meaning of a dynamic rule under an
      assignment of its parameters, and what triggering a rule yields.
    - Expand.v: key expansion; [instance_of] is a rule with values in the place
      of parameters.
    - Essential.v: [getEssentialRepresentations].
    - Representation.v: the texts of rules, [FormatRuleString] and
      [getCrawlerPatterns].
    - RuleManager.v: the rule manager; [managed] are the managers that result
      from adding rules.
    - Lock.v: the class [RuleLocker], its instances for every locker of lock/,
      whose methods are calls from start to end, and [ExclusiveLocker], the
      promise of mutual exclusion for calls one after the other.
    - LockCalls.v: the class [LockerCalls], lock and unlock calls as sequences of
      steps between which other goroutines and processes act ([client_step]);
      [CallsRun], that undisturbed calls are the methods of Lock.v, and
      [CallsExclusive], the promise of mutual exclusion between interleaved
      calls.
    - Session.v: the session manager with its goroutines as a step relation.
    - Etcd.v: batch reads on a snapshot, the key watcher and the watcher loop
      with its stop flag and delays.
    - Collector.v: the collector interfaces as classes, the no-op collector, the
      adaptor and the recording mock as instances, and what the watcher and the
      crawler report.
    - Mocks.v: the mock lockers, the watcher wrapper with its goroutine as a step
      relation, the store of the tests.
    - KeyProcessor.v: [processKey] and [isWork] over the rule manager.
    - KeyChannel.v: the key channel, the key workers and the work channel as the
      step relation [channel_step].
    - Sampler.v: the buffer sampler of the key processor.
    - Crawler.v: the crawler's runs and its mutex.
    - Worker.v: [doWork] and [singleRun] as programs over their interactions, and
      [sys_step], the interleaving of any number of workers and of the steps of
      their lock calls.
    - Json.v: the parts of encoding/json the callback listener uses, on bytes:
      encoding strings and maps (with UTF-8 repaired and characters escaped as
      the encoder does), and the decoder of a value.
    - Listener.v: the reports of the callback listener, their JSON bodies, the
      handler that decodes them and the channel tests wait on.
    - Shutdown.v: [engine_stop] against the loops of the components; [Stop],
      [IsStopped] and the polls of [Shutdown].
    - Options.v: rule options and engine options.
    - LogObject.v: the [MarshalLogObject] methods against the class
      [ObjectEncoder].
    - Engine.v: adding rules to an engine whose rule manager exists twice.
    - Running.v: the lockers of an engine, rules with key expansion, polling
      rules, and what [Run] starts.
    - Wiring.v: the whole of [newV3Engine], the wrappers of the client, [AddRule]
      with the engine's own key expansion, and what [Run] hands to the watchers
      and workers.
    - EndToEnd.v: the components composed, from a watch event or a key the
      crawler finds to the callback.
    - IntegrationTest.v: the program v3enginetest/main.go, its engine built with
      the operations above, its webhook, and its goroutines from the start of
      the engine to the end of the shutdown as the step relation [test_step].
    - IntegrationRun.v: invariant, termination and progress of that program.
    - Examples.v: each theorem applied to concrete inputs.

    ** How the code is modelled

    A Go computation that may panic is in the option monad, [None] being the
    panic; a result with an error is in [result]; nilable pointers are options.
    Maps are [gmap]; wherever the code ranges over a map the definition takes
    the order from [GoRange], and the theorems hold for every order.  Strings
    are lists of bytes.  Rule objects that Go compares by pointer carry a
    pointer ([ruleRef]).  The state of a locker is passed explicitly; the
    methods of the map locker and of the cool-off locker run under a mutex and
    are one step, those of the other lockers are several.  Where goroutines
    interleave, the model is a step relation.  Code that is not part of the repository is an argument: regular
    expressions ([Regexp]), fmt.Sprintf ([Fmt]), etcd transactions and gets
    ([KV]), etcd watchers ([Watcher]), etcd sessions and mutexes
    ([EtcdConcurrency]), durations as text ([DurationFmt]), the encoder of log
    objects ([ObjectEncoder]), the clock, the watch channel, callbacks.  A method
    with several implementations has a definition per implementation, given the
    results of the nested objects, and a fixpoint that puts them together.

    Fuel occurs in [formatPath_loop] (one more than the number of slashes, the
    number of iterations of the loop; [formatPath_loop_fold]),
    [buildPrefixesFromConstraint] (the number of character sets, the depth of
    the recursion; [build_words]), [Expand] (more than the depth of the rule plus
    the number of its parameters that have values, the depth of the nested
    calls; [Expand_exact]; running out is [NoFuel], which is not a panic),
    [parse_value] of the JSON decoder (twice the length of the text and one;
    [parse_fuel]; [pieces_loop] and [unquote] take a byte of the text in every
    round and have its length) and [watcher_loop] (the iterations of a loop
    whose end is a stop flag that others set; [watcher_delivers_events] gives the
    bound that uses up the events while the flag is not seen).

    ** What the theorems show

    - Patterns: formatting and matching are inverse on plain patterns
      ([match_of_format], [format_of_match]).
    - Rules: [satisfied] computes the truth value ([satisfied_denotes],
      [satisfied_error]); instances mean what the dynamic rule means
      ([makeStaticRule_correct], [compound_fully_resolved],
      [RuleSatisfied_correct], [trigger_complete]); the enhanced filter compared
      with the plain one ([enhanced_filter_refines], [enhanced_filter_complete],
      [enhanced_filter_incomplete]); essential leaves ([essential_exact]) and the
      patterns a crawl can leave out ([getCrawlerPatterns_exact]); the text of an
      instance ([String_of_instance]).
    - Key expansion: it terminates with exactly the instances for all choices of
      values ([Expand_exact]), which are well-formed ([Expand_wf]) and together
      mean what the rule means ([Expand_meaning]); [AddRule] registers them
      ([AddRule_expands]); options combine ([KeyExpansion_combines]).
    - Manager: its invariant ([manager_invariant]), watching
      ([watch_covers_keys], [reducePrefixes_minimal],
      [sortPrefixesByLength_sorted]) and instantiation ([getStaticRules_exact]).
    - From an event to the callback, through all components:
      [event_runs_callback]; the same from a key the watchers missed
      ([crawl_runs_callback]); what a worker reports is what a test waits for
      ([reports_received]); the runs of the integration test end, and its only
      failures are a check of the watch responses and a timeout
      ([integration_test_passes]).
    - The parts of that path: snapshots ([cached_evaluation]), events
      ([watcher_delivers_events]), dispatch ([engine_dispatches],
      [change_is_dispatched], [engine_consistent], [isWork_exact]), channels
      ([channels_bounded], [engine_keys_delivered]), the crawler
      ([crawl_finds_work]), polling ([polling_waits]), workers
      ([doWork_runs_callback], [callback_guarded], [callbacks_exclusive]).
    - Locks and sessions: [no_key_held_twice], [nested_lock_balanced],
      [cooloff_window], [v3_Unlock_retries], [session_singleton].
    - Stopping: [Shutdown_sound], [stop_completes].
    - Durations and sampling: [Generate_bounds], [near_capacity_default],
      [crawler_pause_bounds].
    - Wiring and mocks: [NewV3EngineWithClient_panics], [run_parts_wired],
      [AddRule_registers], [mock_records], [mock_locker_not_exclusive], [wrapper_same_changes].
    - Where the code does not do what it means to: [worker_stop_hangs],
      [watcher_stop_hangs], [enhanced_filter_incomplete],
      [equals_rule_not_triggered], [RuleSatisfied_unresolved],
      [same_rule_twice], [refused_lock_leaks_session],
      [unlock_errors_not_counted], [unlock_errors_not_exposed],
      [Expand_diverges], [Expand_uncompilable], [FormatRuleString_panics],
      [Generate_NaN], [watch_events_overcounted], [wrapper_after_close],
      [nil_attributes_never_found].

    ** What is not modelled

    Writing to the log, HTTP (which only carries the body of a report), the
    error texts of the JSON decoder, connecting the etcd client.  The times that
    goroutines sleep are values of the model (the crawler's pause, the delays of
    the watcher loop), but time does not order the steps of different goroutines.
    Reading the stop flags and sending on channels is modelled where goroutines
    interleave (KeyChannel.v, Worker.v, Shutdown.v); in Etcd.v the stop flag is
    what each look at it finds.  In IntegrationTest.v the operations of the
    client and of the HTTP server succeed, the watch responses that are checked
    are arbitrary, the ten seconds may end at any time, a worker that finds a
    rule true has the lock of the ID, and [Shutdown] returns when its polls see
    the engine stopped or its context done. *)

From Stdlib Require Export Ascii.
From stdpp Require Export base gmap strings list fin_maps sorting relations.

Create HintDb gostr.
Create Rewrite HintDb gostr_rw.

#[global] Arguments String.append s1 s2 : simpl nomatch.

(** The type of Go's [(T, error)] results: [inl] carries the error message. *)
Abbreviation result A := (sum string A).

(** ** Iteration over Go maps *)
(** Go iterates over a map in an unspecified order.  An instance of [GoRange]
    is one such choice of order; definitions that range over a map take it as
    an argument and the theorems hold for every instance. *)
Class GoRange := {
  range : forall {K} `{Countable K} {A}, gmap K A -> list (K * A);
  range_perm : forall {K} `{Countable K} {A} (m : gmap K A), range m ≡ₚ map_to_list m
}.

Definition canonical_range : GoRange.
Proof. refine {| range := fun K _ _ A m => map_to_list m |}. done. Defined.

Definition range_keys `{GoRange} {K} `{Countable K} {A} (m : gmap K A) : list K :=
  (range m).*1.

Lemma elem_of_range_keys `{GoRange} {K} `{Countable K} {A} (m : gmap K A) k :
  k ∈ range_keys m <-> is_Some (m !! k).
Proof.
  unfold range_keys. rewrite list_elem_of_fmap. split.
  - intros [[k' v] [-> Hin]]. rewrite range_perm in Hin.
    apply elem_of_map_to_list in Hin. by eexists.
  - intros [v Hv]. exists (k, v). split; [done|].
    rewrite range_perm. by apply elem_of_map_to_list.
Qed.

Lemma NoDup_range_keys `{GoRange} {K} `{Countable K} {A} (m : gmap K A) :
  NoDup (range_keys m).
Proof. unfold range_keys. rewrite range_perm. apply NoDup_fst_map_to_list. Qed.

Lemma elem_of_range `{GoRange} {K} `{Countable K} {A} (m : gmap K A) k x :
  (k, x) ∈ range m <-> m !! k = Some x.
Proof. rewrite range_perm. apply elem_of_map_to_list. Qed.

(** ** Lists *)
Lemma elem_of_flat_map {A B} (f : A -> list B) l y :
  y ∈ flat_map f l <-> exists x, x ∈ l /\ y ∈ f x.
Proof.
  rewrite list_elem_of_In, in_flat_map. split; intros (x & ? & ?); exists x;
    rewrite ?list_elem_of_In in *; done.
Qed.

Lemma list_elem_of_concat {A} (ls : list (list A)) x : x ∈ concat ls <-> exists l, l ∈ ls /\ x ∈ l.
Proof.
  induction ls as [|l ls IH]; simpl; [set_solver|]. rewrite elem_of_app, IH. set_solver.
Qed.

(** ** Propositions *)
Lemma and_iff_compat_l_of (P Q Q' : Prop) : (P -> Q <-> Q') -> P /\ Q <-> P /\ Q'.
Proof. tauto. Qed.

(** ** The error monad *)
#[export] Instance result_ret : MRet (sum string) := fun A => @inr string A.
#[export] Instance result_bind : MBind (sum string) := fun A B f r =>
  match r with inl err => inl err | inr x => f x end.

(** A loop whose steps cannot fail. *)
Lemma mapM_result {A B} (f : A -> sum string B) (g : A -> B) (l : list A) :
  (forall x, f x = inr (g x)) -> mapM f l = inr (g <$> l).
Proof. intros Hf. induction l as [|x l IH]; [done|]. simpl. by rewrite Hf, IH. Qed.

(** ** Reachability *)
(** What every step preserves holds of all reachable states. *)
Lemma rtc_invariant {A} (R : relation A) (P : A -> Prop) x y :
  (forall a b, R a b -> P a -> P b) -> rtc R x y -> P x -> P y.
Proof. intros Hs. induction 1; eauto. Qed.
