(* ===== verification/GoString.v ===== *)
(** * Go strings and the functions of package [strings] the rules engine uses *)
(** A Go string is a sequence of bytes, which is what [string] is here.
    A slice expression [s[:n]] is [str_take n s], [s[n:]] is [str_drop n s];
    the engine only slices at positions it got from [Index] or [len], which
    are in range.  The separators the engine searches for are the single
    bytes '/' and ':', so [Index], [Cut], [Split] and [Count] take a byte.
    [Index] returns [None] where Go returns -1. *)
From S2P Require Import Prelude.

Definition slash : ascii := "/"%char.
Definition colon : ascii := ":"%char.
Definition slash_str : string := String slash EmptyString.
Definition colon_str : string := String colon EmptyString.

(** ** The functions *)
Definition chars (s : string) : list ascii := String.list_ascii_of_string s.

Fixpoint str_take (n : nat) (s : string) : string :=
  match n, s with
  | S n', String c s' => String c (str_take n' s')
  | _, _ => EmptyString
  end.

Fixpoint str_drop (n : nat) (s : string) : string :=
  match n, s with
  | 0, _ => s
  | S n', String _ s' => str_drop n' s'
  | _, EmptyString => EmptyString
  end.

Definition HasPrefix (s p : string) : bool := String.prefix p s.
#[global] Arguments HasPrefix : simpl never.

Definition HasSuffix (s suffix : string) : bool :=
  (String.length suffix <=? String.length s)%nat &&
  bool_decide (str_drop (String.length s - String.length suffix) s = suffix).

Fixpoint Index (s : string) (sep : ascii) : option nat :=
  match s with
  | EmptyString => None
  | String c s' => if decide (c = sep) then Some 0 else S <$> Index s' sep
  end.

Fixpoint Contains (s substr : string) : bool :=
  HasPrefix s substr || match s with EmptyString => false | String _ s' => Contains s' substr end.

Fixpoint Count (s : string) (sep : ascii) : nat :=
  match s with
  | EmptyString => 0
  | String c s' => (if decide (c = sep) then 1 else 0) + Count s' sep
  end.

(** [strings.Cut]: the text before and after the first separator, and whether
    there is one. *)
Fixpoint Cut (s : string) (sep : ascii) : string * string * bool :=
  match s with
  | EmptyString => (EmptyString, EmptyString, false)
  | String c s' =>
    if decide (c = sep) then (EmptyString, s', true)
    else let '(before, after, found) := Cut s' sep in (String c before, after, found)
  end.

(** [strings.Split]: never empty for a non-empty separator. *)
Fixpoint Split (s : string) (sep : ascii) : list string :=
  match s with
  | EmptyString => [EmptyString]
  | String c s' =>
    if decide (c = sep) then EmptyString :: Split s' sep
    else match Split s' sep with
         | x :: xs => String c x :: xs
         | [] => [String c EmptyString]
         end
  end.

Fixpoint Join (l : list string) (sep : string) : string :=
  match l with
  | [] => EmptyString
  | [x] => x
  | x :: l' => x +:+ sep +:+ Join l' sep
  end.

(** [strings.Replace(s, old, new, -1)] for a non-empty [old]: each step
    consumes at least one byte of [s], so [length s] steps are enough. *)
Fixpoint replace_loop (fuel : nat) (s old new : string) : string :=
  match fuel with
  | 0 => s
  | S fuel' =>
    if HasPrefix s old then new +:+ replace_loop fuel' (str_drop (String.length old) s) old new
    else match s with
         | EmptyString => EmptyString
         | String c s' => String c (replace_loop fuel' s' old new)
         end
  end.

Definition ReplaceAll (s old new : string) : string :=
  replace_loop (String.length s) s old new.

(** [string(r)] for a rune [r]: its UTF-8 encoding, that of U+FFFD when [r] is
    not a code point. *)
Definition byte_of (z : Z) : ascii := Ascii.ascii_of_N (Z.to_N z).

Definition rune_to_string (r : Z) : string :=
  let r := if bool_decide (r < 0 \/ 1114111 < r \/ 55296 <= r <= 57343)%Z then 65533%Z else r in
  let cont k := byte_of (Z.lor 128 (Z.land (Z.shiftr r k) 63)) in
  if bool_decide (r < 128)%Z then String (byte_of r) EmptyString
  else if bool_decide (r < 2048)%Z then
    String (byte_of (Z.lor 192 (Z.shiftr r 6))) (String (cont 0%Z) EmptyString)
  else if bool_decide (r < 65536)%Z then
    String (byte_of (Z.lor 224 (Z.shiftr r 12))) (String (cont 6%Z) (String (cont 0%Z) EmptyString))
  else
    String (byte_of (Z.lor 240 (Z.shiftr r 18)))
      (String (cont 12%Z) (String (cont 6%Z) (String (cont 0%Z) EmptyString))).

(** ** Lemmas: concatenation and characters *)
Lemma app_str_nil_r (s : string) : s +:+ EmptyString = s.
Proof. induction s as [|c s IH]; simpl; [done|]. by rewrite IH. Qed.

Lemma app_str_assoc (s t u : string) : (s +:+ t) +:+ u = s +:+ t +:+ u.
Proof. induction s as [|c s IH]; simpl; [done|]. by rewrite IH. Qed.

Lemma app_str_inv_l (s t u : string) : s +:+ t = s +:+ u -> t = u.
Proof. induction s as [|c s IH]; simpl; [done|]. intros [= H]. auto. Qed.

Lemma length_app_str (s t : string) :
  String.length (s +:+ t) = String.length s + String.length t.
Proof. induction s as [|c s IH]; simpl; [done|]. by rewrite IH. Qed.

Lemma chars_app (s t : string) : chars (s +:+ t) = chars s ++ chars t.
Proof. unfold chars. induction s as [|c s IH]; simpl; [done|]. by rewrite IH. Qed.

Lemma chars_length (s : string) : List.length (chars s) = String.length s.
Proof. unfold chars. induction s as [|c s IH]; simpl; [done|]. by rewrite IH. Qed.

Lemma str_take_app (s t : string) : str_take (String.length s) (s +:+ t) = s.
Proof. induction s as [|c s IH]; simpl; [by destruct t|]. by rewrite IH. Qed.

Lemma str_drop_app (s t : string) : str_drop (String.length s) (s +:+ t) = t.
Proof. induction s as [|c s IH]; simpl; [by destruct t|]. done. Qed.

Lemma str_take_drop (n : nat) (s : string) : str_take n s +:+ str_drop n s = s.
Proof.
  revert n. induction s as [|c s IH]; intros [|n]; simpl; try done. by rewrite IH.
Qed.

Lemma length_str_take (n : nat) (s : string) :
  n <= String.length s -> String.length (str_take n s) = n.
Proof.
  revert n. induction s as [|c s IH]; intros [|n]; simpl; try lia.
  intros. rewrite IH; lia.
Qed.

Lemma length_str_drop (n : nat) (s : string) :
  String.length (str_drop n s) = String.length s - n.
Proof.
  revert n. induction s as [|c s IH]; intros [|n]; simpl; try lia. apply IH.
Qed.

#[export] Hint Rewrite app_str_nil_r app_str_assoc length_app_str chars_app : gostr_rw.

(** ** Prefixes and suffixes *)
Lemma HasPrefix_iff (s p : string) : HasPrefix s p = true <-> exists t, s = p +:+ t.
Proof.
  unfold HasPrefix. revert s. induction p as [|c p IH]; intros s; simpl.
  - split; [intros _; by exists s | by destruct s].
  - destruct s as [|d s]; simpl.
    + split; [done | intros [t [=]]].
    + destruct (ascii_dec c d) as [->|Hne].
      * rewrite IH. split; [intros [t ->]; by exists t | intros [t [= ->]]; by exists t].
      * split; [done | intros [t [= -> _]]; done].
Qed.

Lemma HasPrefix_refl (s : string) : HasPrefix s s = true.
Proof. apply HasPrefix_iff. exists EmptyString. by rewrite app_str_nil_r. Qed.

Lemma HasPrefix_app (s t : string) : HasPrefix (s +:+ t) s = true.
Proof. apply HasPrefix_iff. by exists t. Qed.

Lemma HasPrefix_trans (s t u : string) :
  HasPrefix s t = true -> HasPrefix t u = true -> HasPrefix s u = true.
Proof.
  rewrite !HasPrefix_iff. intros [x ->] [y ->]. exists (y +:+ x). by rewrite app_str_assoc.
Qed.

Lemma HasPrefix_length (s p : string) :
  HasPrefix s p = true -> String.length p <= String.length s.
Proof. rewrite HasPrefix_iff. intros [t ->]. rewrite length_app_str. lia. Qed.

Lemma HasPrefix_antisym (s t : string) :
  HasPrefix s t = true -> String.length s <= String.length t -> s = t.
Proof.
  rewrite HasPrefix_iff. intros [x ->]. rewrite length_app_str.
  destruct x; simpl; [by rewrite app_str_nil_r | lia].
Qed.

Lemma HasSuffix_iff (s u : string) : HasSuffix s u = true <-> exists t, s = t +:+ u.
Proof.
  unfold HasSuffix. rewrite andb_true_iff, Nat.leb_le, bool_decide_eq_true. split.
  - intros [Hl Hd]. exists (str_take (String.length s - String.length u) s).
    rewrite <- Hd at 2. by rewrite str_take_drop.
  - intros [t ->]. rewrite length_app_str.
    replace (String.length t + String.length u - String.length u) with (String.length t) by lia.
    rewrite str_drop_app. split; [lia | done].
Qed.

#[export] Hint Resolve HasPrefix_refl HasPrefix_app HasPrefix_trans : gostr.

(** ** Cut, Split, Count, Index *)
Lemma Cut_spec (s : string) (sep : ascii) :
  let '(before, after, found) := Cut s sep in
  (sep ∉ chars before) /\
  (if found then s = before +:+ String sep after /\ Split s sep = before :: Split after sep
   else s = before /\ after = EmptyString /\ Split s sep = [before]).
Proof.
  induction s as [|c s IH]; simpl.
  { split; [by apply not_elem_of_nil | done]. }
  case_decide as Hc.
  - subst. simpl. split; [by apply not_elem_of_nil | done].
  - destruct (Cut s sep) as [[b a] f]. destruct IH as [Hb IH].
    split.
    { unfold chars in *. simpl. rewrite not_elem_of_cons. split; [congruence | done]. }
    destruct f.
    + destruct IH as [-> ->]. done.
    + destruct IH as (-> & -> & ->). done.
Qed.

Lemma Split_not_nil (s : string) (sep : ascii) : Split s sep <> [].
Proof.
  destruct s as [|c s]; simpl; [done|]. case_decide; [done|]. by destruct (Split s sep).
Qed.

Lemma Split_app (s t : string) (sep : ascii) :
  sep ∉ chars s -> Split (s +:+ String sep t) sep = s :: Split t sep.
Proof.
  unfold chars. induction s as [|c s IH]; simpl.
  - intros _. by rewrite decide_True.
  - rewrite not_elem_of_cons. intros [Hne Hs]. rewrite decide_False by congruence.
    by rewrite IH.
Qed.

Lemma Split_single (s : string) (sep : ascii) : sep ∉ chars s -> Split s sep = [s].
Proof.
  unfold chars. induction s as [|c s IH]; simpl; [done|].
  rewrite not_elem_of_cons. intros [Hne Hs]. rewrite decide_False by congruence. by rewrite IH.
Qed.

Lemma Split_no_sep (s : string) (sep : ascii) : Forall (fun x => sep ∉ chars x) (Split s sep).
Proof.
  unfold chars. induction s as [|c s IH]; simpl.
  - repeat constructor. by apply not_elem_of_nil.
  - case_decide.
    + constructor; [by apply not_elem_of_nil | done].
    + destruct (Split s sep) as [|x xs]; inversion IH; subst.
      * repeat constructor. simpl. rewrite not_elem_of_cons. split; [congruence | by apply not_elem_of_nil].
      * constructor; [|done]. simpl. rewrite not_elem_of_cons. split; [congruence | done].
Qed.

(** [Split] is inverse to [Join]. *)
Lemma Join_Split (s : string) (sep : ascii) : Join (Split s sep) (String sep EmptyString) = s.
Proof.
  induction s as [|c s IH]; simpl; [done|].
  pose proof (Split_not_nil s sep) as Hnn.
  case_decide as Hc.
  - subst. destruct (Split s sep) as [|x xs]; [done|]. simpl in *. by rewrite IH.
  - destruct (Split s sep) as [|x [|y ys]]; [done| |]; simpl in *; by rewrite IH.
Qed.

Lemma Count_app (s t : string) (sep : ascii) :
  Count (s +:+ t) sep = Count s sep + Count t sep.
Proof. induction s as [|c s IH]; simpl; [done|]. rewrite IH. lia. Qed.

Lemma Count_zero (s : string) (sep : ascii) : Count s sep = 0 <-> sep ∉ chars s.
Proof.
  unfold chars. induction s as [|c s IH]; simpl.
  - split; [intros _; by apply not_elem_of_nil | done].
  - rewrite not_elem_of_cons, <- IH. case_decide; split; [lia | naive_solver | intros; split; [congruence|lia] | lia].
Qed.

Lemma length_Split (s : string) (sep : ascii) : List.length (Split s sep) = S (Count s sep).
Proof.
  induction s as [|c s IH]; simpl; [done|].
  case_decide; simpl; [by rewrite IH|].
  destruct (Split s sep); simpl in *; lia.
Qed.

Lemma Index_Some (s : string) (sep : ascii) (i : nat) :
  Index s sep = Some i <->
  exists before after, s = before +:+ String sep after /\ (sep ∉ chars before) /\ String.length before = i.
Proof.
  unfold chars. revert i. induction s as [|c s IH]; intros i; simpl.
  - split; [done|]. intros ([|] & after & [=] & _).
  - case_decide as Hc.
    + subst. split.
      * intros [= <-]. exists EmptyString, s. split_and!; [done | by apply not_elem_of_nil | done].
      * intros ([|d b] & after & He & Hn & Hl); simpl in *; simplify_eq; [done|].
        rewrite not_elem_of_cons in Hn. naive_solver.
    + rewrite fmap_Some. setoid_rewrite IH. split.
      * intros (j & (b & a & -> & Hn & Hl) & ->). exists (String c b), a. simpl.
        rewrite not_elem_of_cons. naive_solver.
      * intros ([|d b] & a & He & Hn & Hl); simpl in *; simplify_eq.
        rewrite not_elem_of_cons in Hn. exists (String.length b). naive_solver.
Qed.

Lemma Index_None (s : string) (sep : ascii) : Index s sep = None <-> sep ∉ chars s.
Proof.
  unfold chars. induction s as [|c s IH]; simpl.
  - split; [intros _; by apply not_elem_of_nil | done].
  - rewrite not_elem_of_cons. case_decide; [naive_solver|]. rewrite fmap_None, IH. naive_solver.
Qed.

Lemma Index_app (s t : string) (sep : ascii) :
  sep ∉ chars s -> Index (s +:+ String sep t) sep = Some (String.length s).
Proof. intros Hs. apply Index_Some. by exists s, t. Qed.

(** The text before the first separator, all of it when there is none. *)
Definition before_sep (s : string) (sep : ascii) : string := fst (fst (Cut s sep)).

Lemma before_sep_app_in (s t : string) (sep : ascii) :
  sep ∈ chars s -> before_sep (s +:+ t) sep = before_sep s sep.
Proof.
  unfold before_sep, chars. induction s as [|c s IH]; simpl; [by rewrite elem_of_nil|].
  rewrite elem_of_cons. case_decide as Hc; [done|]. intros [->|Hs]; [done|].
  specialize (IH Hs). destruct (Cut (s +:+ t) sep) as [[b a] f], (Cut s sep) as [[b' a'] f'].
  simpl in *. by rewrite IH.
Qed.

Lemma before_sep_app_notin (s t : string) (sep : ascii) :
  sep ∉ chars s -> before_sep (s +:+ t) sep = s +:+ before_sep t sep.
Proof.
  unfold before_sep, chars. induction s as [|c s IH]; simpl; [done|].
  rewrite not_elem_of_cons. intros [Hne Hs]. rewrite decide_False by congruence.
  specialize (IH Hs). destruct (Cut (s +:+ t) sep) as [[b a] f]. simpl in *. by rewrite IH.
Qed.

Lemma before_sep_prefix (s : string) (sep : ascii) : HasPrefix s (before_sep s sep) = true.
Proof.
  unfold before_sep. pose proof (Cut_spec s sep) as Hc.
  destruct (Cut s sep) as [[b a] f]. destruct Hc as [_ Hc]. destruct f; destruct Hc as [-> ?]; simpl;
    auto with gostr.
Qed.

Lemma HasPrefix_app_mono (s t u : string) :
  HasPrefix t u = true -> HasPrefix (s +:+ t) (s +:+ u) = true.
Proof. rewrite !HasPrefix_iff. intros [x ->]. exists x. by rewrite app_str_assoc. Qed.
