(* ===== verification/Jitter.v ===== *)
(** * Jittered durations (internal/jitter/duration.go) *)
(** Durations are int64 nanoseconds; the computation is in float64.  A finite
    float64 is a multiple of 2^-1074, and [Finite z] is the number z * 2^-1074
    (the two zeros are one value, which nothing here tells apart).  Every
    operation rounds its exact result to the nearest float64, ties to even, so
    arithmetic is exact integer arithmetic followed by [round53]; machines on
    which the compiler fuses a product and a sum into one rounding are not
    considered. *)
From S2P Require Import Prelude.
From Stdlib Require Import Lia.
Local Open Scope Z_scope.

(** ** float64 *)
Inductive float64 :=
| Finite (z : Z)
| Inf (negative : bool)
| NaN.

(** The unit: 1 is [2^1074] of it. *)
Definition unit_exp : Z := 1074.
Definition one : Z := 2 ^ unit_exp.

(** The nearest multiple of [2^k] to [z], ties to even. *)
Definition nearest_even (z k : Z) : Z :=
  let q := z / 2 ^ k in
  let r := z mod 2 ^ k in
  let up := (2 ^ k <? 2 * r) || ((2 * r =? 2 ^ k) && Z.odd q) in
  (if up then q + 1 else q) * 2 ^ k.

(** The exponent of the last place of a number of magnitude [z]: 53 bits of
    precision, and at least [kmin]. *)
Definition last_place (kmin z : Z) : Z := Z.max kmin (Z.log2 z - 52).

(** Rounding of a magnitude, and of a signed number. *)
Definition round_pos (kmin z : Z) : Z := nearest_even z (last_place kmin z).

Definition round53 (kmin z : Z) : Z :=
  if z <? 0 then - round_pos kmin (- z) else round_pos kmin z.

(** Numbers from [2^1024] on are infinite. *)
Definition finite (z : Z) : float64 :=
  if one * 2 ^ 1024 <=? Z.abs z then Inf (z <? 0) else Finite z.

Definition fneg (x : float64) : float64 :=
  match x with Finite z => Finite (- z) | Inf n => Inf (negb n) | NaN => NaN end.

Definition fadd (x y : float64) : float64 :=
  match x, y with
  | Finite a, Finite b => finite (round53 0 (a + b))
  | Inf m, Inf n => if Bool.eqb m n then Inf m else NaN
  | Inf m, Finite _ | Finite _, Inf m => Inf m
  | NaN, _ | _, NaN => NaN
  end.

(** The product of the integers is in units of [2^-2148], and is rounded to a
    multiple of [2^-1074] at least. *)
Definition fmul (x y : float64) : float64 :=
  match x, y with
  | Finite a, Finite b => finite (round53 unit_exp (a * b) / one)
  | Inf m, Inf n => Inf (xorb m n)
  | Inf m, Finite a | Finite a, Inf m => if a =? 0 then NaN else Inf (xorb m (a <? 0))
  | NaN, _ | _, NaN => NaN
  end.

(** [x < y], false when one of them is not a number. *)
Definition fltb (x y : float64) : bool :=
  match x, y with
  | Finite a, Finite b => a <? b
  | Inf m, Inf n => m && negb n
  | Inf m, Finite _ => m
  | Finite _, Inf n => negb n
  | NaN, _ | _, NaN => false
  end.

Definition of_int (n : Z) : float64 := finite (round53 0 (n * one)).

(** [time.Duration(f)]: truncation; what the conversion of a value outside
    int64 gives depends on the machine ([None]). *)
Definition to_int64 (x : float64) : option Z :=
  match x with
  | Finite z =>
    let n := Z.quot z one in
    if (- 2 ^ 63 <=? n) && (n <? 2 ^ 63) then Some n else None
  | _ => None
  end.

(** ** The generator *)
Record DurationGenerator := mkDurationGenerator {
  base : Z;
  jitterPercent : float64
}.

Definition clampPercent (f : float64) : float64 :=
  if fltb f (of_int 0) then of_int 0
  else if fltb (of_int 1) f then of_int 1
  else f.

Definition NewDurationGenerator (base : Z) (jitterPercent : float64) : DurationGenerator :=
  mkDurationGenerator base (clampPercent jitterPercent).

(** [random] is what [rand.Float64] returned. *)
Definition Generate (g : DurationGenerator) (random : float64) : option Z :=
  let dNano := of_int (base g) in
  let randomPlusMinus := fadd (fmul (of_int 2) random) (fneg (of_int 1)) in
  let resultNano := fadd dNano (fmul (fmul dNano (jitterPercent g)) randomPlusMinus) in
  to_int64 resultNano.

(** ** Rounding *)
Lemma pow2_pos k : 0 <= k -> 0 < 2 ^ k.
Proof. intros. by apply Z.pow_pos_nonneg. Qed.

Lemma pow2_divide k k' : 0 <= k <= k' -> (2 ^ k | 2 ^ k').
Proof. intros Hk. exists (2 ^ (k' - k)). rewrite <- Z.pow_add_r by lia. f_equal. lia. Qed.

Lemma last_place_nonneg kmin z : 0 <= kmin -> 0 <= last_place kmin z.
Proof. unfold last_place. lia. Qed.

Lemma last_place_mono kmin z w : z <= w -> last_place kmin z <= last_place kmin w.
Proof. intros Hz%Z.log2_le_mono. unfold last_place. lia. Qed.

Lemma nearest_even_between z k :
  0 <= k -> z / 2 ^ k * 2 ^ k <= nearest_even z k <= (z / 2 ^ k + 1) * 2 ^ k.
Proof.
  intros Hk%pow2_pos. unfold nearest_even. destruct (_ || _); nia.
Qed.

Lemma nearest_even_le z w k : 0 <= k -> z <= w -> (2 ^ k | w) -> nearest_even z k <= w.
Proof.
  intros Hk Hz [m ->]. pose proof (pow2_pos k Hk) as Hp.
  pose proof (Z.div_mod z (2 ^ k)) as Hd. pose proof (Z.mod_pos_bound z (2 ^ k) Hp) as Hr.
  unfold nearest_even. destruct ((2 ^ k <? _) || _) eqn:E; [|nia].
  assert (z mod 2 ^ k <> 0) as Hr0.
  { intros H0. rewrite H0 in E. apply orb_true_iff in E as [E|E]; [lia|].
    apply andb_true_iff in E as [E _]. lia. }
  assert (z / 2 ^ k < m) by nia. nia.
Qed.

Lemma nearest_even_ge z w k : 0 <= k -> w <= z -> (2 ^ k | w) -> w <= nearest_even z k.
Proof.
  intros Hk Hz [m ->]. pose proof (pow2_pos k Hk) as Hp.
  pose proof (proj1 (nearest_even_between z k Hk)) as Hb.
  assert (m <= z / 2 ^ k) by (apply Z.div_le_lower_bound; lia). nia.
Qed.

Lemma nearest_even_mono z w k : 0 <= k -> z <= w -> nearest_even z k <= nearest_even w k.
Proof.
  intros Hk Hz. pose proof (pow2_pos k Hk) as Hp.
  assert (z / 2 ^ k <= w / 2 ^ k) as Hq by (by apply Z.div_le_mono).
  destruct (Z.eq_dec (z / 2 ^ k) (w / 2 ^ k)) as [Heq|Hne].
  - assert (z mod 2 ^ k <= w mod 2 ^ k) as Hr by (rewrite !Z.mod_eq by lia; lia).
    unfold nearest_even. rewrite Heq.
    destruct ((2 ^ k <? 2 * (z mod 2 ^ k)) || _) eqn:Ez, ((2 ^ k <? 2 * (w mod 2 ^ k)) || _) eqn:Ew; try nia.
    apply orb_false_iff in Ew as [Ew1 Ew2]. apply orb_true_iff in Ez as [Ez|[Ez1 Ez2]%andb_true_iff]; [lia|].
    rewrite Ez2, andb_true_r in Ew2. lia.
  - pose proof (nearest_even_between z k Hk). pose proof (nearest_even_between w k Hk). nia.
Qed.

Section rounding.
Context (kmin : Z) (Hkmin : 0 <= kmin).

(** The magnitudes that are float64 values. *)
Definition representable (w : Z) : Prop := (2 ^ last_place kmin w | w).

Lemma round_pos_le z w : 0 <= z <= w -> representable w -> round_pos kmin z <= w.
Proof.
  intros Hz Hw. apply nearest_even_le; [by apply last_place_nonneg | lia |].
  eapply Z.divide_trans; [apply pow2_divide | exact Hw]. split; [by apply last_place_nonneg|].
  apply last_place_mono. lia.
Qed.

Lemma round_pos_nonneg z : 0 <= z -> 0 <= round_pos kmin z.
Proof. intros Hz. apply nearest_even_ge; [by apply last_place_nonneg | done | apply Z.divide_0_r]. Qed.

Lemma round_pos_mono z w : 0 <= z <= w -> round_pos kmin z <= round_pos kmin w.
Proof.
  intros Hz. assert (last_place kmin z <= last_place kmin w) as Hk by (apply last_place_mono; lia).
  destruct (Z.eq_dec (last_place kmin z) (last_place kmin w)) as [Heq|Hne].
  - unfold round_pos. rewrite Heq. apply nearest_even_mono; [by apply last_place_nonneg | lia].
  - assert (0 < w) as Hw by (destruct (Z.eq_dec w 0); subst; [|lia]; assert (z = 0) by lia; by subst).
    pose proof (Z.log2_spec w Hw) as Hl. pose proof (Z.log2_nonneg w).
    assert (last_place kmin w = Z.log2 w - 52) as Hw' by (unfold last_place in *; lia).
    assert (last_place kmin (2 ^ Z.log2 w) = last_place kmin w) as HB
      by (unfold last_place; by rewrite Z.log2_pow2).
    assert (2 ^ last_place kmin w | 2 ^ Z.log2 w) as Hdiv.
    { apply pow2_divide. pose proof (last_place_nonneg kmin w Hkmin). lia. }
    trans (2 ^ Z.log2 w).
    + apply round_pos_le; [|unfold representable; by rewrite HB]. split; [lia|].
      destruct (Z.le_gt_cases z (2 ^ Z.log2 w)) as [|Hgt]; [done|].
      assert (Z.log2 w <= Z.log2 z) by (rewrite <- (Z.log2_pow2 (Z.log2 w)) at 1 by lia; apply Z.log2_le_mono; lia).
      unfold last_place in *. lia.
    + apply nearest_even_ge; [by apply last_place_nonneg | lia | done].
Qed.

(** Rounding yields a float64 value. *)
Lemma round_pos_representable z : 0 <= z -> representable (round_pos kmin z).
Proof.
  intros Hz. unfold representable. set (k := last_place kmin z).
  pose proof (last_place_nonneg kmin z Hkmin) as Hk. fold k in Hk. pose proof (pow2_pos k Hk) as Hp.
  assert (exists m, round_pos kmin z = m * 2 ^ k /\ 0 <= m <= 2 ^ 53) as (m & Hm & Hm53).
  { unfold round_pos. fold k. pose proof (nearest_even_between z k Hk) as Hb.
    assert (0 <= z / 2 ^ k < 2 ^ 53) as Hq.
    { split; [by apply Z.div_pos|]. apply Z.div_lt_upper_bound; [done|].
      rewrite <- Z.pow_add_r by lia. destruct (Z.eq_dec z 0) as [->|]; [by apply pow2_pos; lia|].
      apply Z.log2_lt_pow2; [lia|]. unfold k, last_place. lia. }
    unfold nearest_even in *. destruct (_ || _); eexists; (split; [done|]); lia. }
  rewrite Hm. destruct (Z.eq_dec m (2 ^ 53)) as [->|Hne].
  - rewrite <- Z.pow_add_r by lia. apply pow2_divide.
    split; [by apply last_place_nonneg|]. unfold last_place. rewrite Z.log2_pow2 by lia.
    unfold k, last_place in *. lia.
  - assert (last_place kmin (m * 2 ^ k) <= k) as Hle.
    { destruct (Z.eq_dec m 0) as [->|]; [unfold k, last_place; rewrite Z.mul_0_l; simpl; lia|].
      assert (Z.log2 (m * 2 ^ k) < k + 53).
      { apply Z.log2_lt_pow2; [nia|]. rewrite Z.add_comm, Z.pow_add_r by lia. nia. }
      unfold last_place at 1. unfold k, last_place in *. lia. }
    eapply Z.divide_trans; [apply pow2_divide; split; [by apply last_place_nonneg | exact Hle]|].
    apply Z.divide_factor_r.
Qed.

Lemma round53_mono z w : z <= w -> round53 kmin z <= round53 kmin w.
Proof.
  intros Hz. unfold round53. destruct (z <? 0) eqn:Ez, (w <? 0) eqn:Ew; try lia.
  - enough (round_pos kmin (- w) <= round_pos kmin (- z)) by lia. apply round_pos_mono. lia.
  - pose proof (round_pos_nonneg (- z)). pose proof (round_pos_nonneg w). lia.
  - apply round_pos_mono. lia.
Qed.

Lemma round53_abs_le z w : Z.abs z <= w -> representable w -> - w <= round53 kmin z <= w.
Proof.
  intros Hz Hw. unfold round53. destruct (z <? 0) eqn:Ez.
  - pose proof (round_pos_nonneg (- z)). pose proof (round_pos_le (- z) w ltac:(lia) Hw). lia.
  - pose proof (round_pos_nonneg z). pose proof (round_pos_le z w ltac:(lia) Hw). lia.
Qed.

Lemma round53_nonneg z : 0 <= z -> 0 <= round53 kmin z.
Proof. intros Hz. unfold round53. destruct (z <? 0) eqn:Ez; [lia|]. by apply round_pos_nonneg. Qed.
End rounding.

(** ** Bounds of the operations *)
Definition huge : Z := one * 2 ^ 1024.

Lemma finite_small z : Z.abs z < huge -> finite z = Finite z.
Proof. intros Hz. unfold finite. fold huge. destruct (_ <=? _) eqn:E; [lia | done]. Qed.

Lemma unit_nonneg : 0 <= unit_exp.
Proof. done. Qed.

Lemma one_pos : 0 < one.
Proof. apply pow2_pos, unit_nonneg. Qed.

Lemma last_place_scale v : 0 < v -> last_place unit_exp (v * one) = unit_exp + last_place 0 v.
Proof.
  intros Hv. unfold last_place, one. rewrite Z.log2_mul_pow2 by (done || apply unit_nonneg). lia.
Qed.

Lemma representable_scale v : 0 <= v -> representable unit_exp (v * one) <-> representable 0 v.
Proof.
  intros Hv. destruct (Z.eq_dec v 0) as [->|Hne].
  { unfold representable. rewrite Z.mul_0_l. split; intros _; apply Z.divide_0_r. }
  unfold representable. rewrite last_place_scale by lia.
  rewrite Z.pow_add_r, (Z.mul_comm (2 ^ unit_exp)) by (apply unit_nonneg || by apply last_place_nonneg).
  unfold one. apply Z.mul_divide_cancel_r. apply Z.pow_nonzero; [done | apply unit_nonneg].
Qed.

Lemma representable_one : representable 0 one.
Proof.
  unfold representable, one, last_place. rewrite Z.log2_pow2 by apply unit_nonneg.
  apply pow2_divide. unfold unit_exp. lia.
Qed.

Lemma representable_double v : 0 <= v -> representable 0 v -> representable 0 (2 * v).
Proof.
  intros Hv [m Hm]. destruct (Z.eq_dec v 0) as [->|Hne]; [apply Z.divide_0_r|].
  unfold representable. assert (last_place 0 (2 * v) <= 1 + last_place 0 v) as Hl.
  { unfold last_place. rewrite Z.log2_double by lia. lia. }
  eapply Z.divide_trans; [apply pow2_divide; split; [by apply last_place_nonneg | exact Hl]|].
  rewrite Z.pow_add_r by (done || by apply last_place_nonneg). rewrite Hm at 2. exists m. ring.
Qed.

(** An integer of at most 53 bits is a float64. *)
Lemma representable_int n : 0 <= n <= 2 ^ 53 -> representable 0 (n * one).
Proof.
  intros Hn. destruct (Z.eq_dec n (2 ^ 53)) as [->|Hne].
  - unfold representable, one, last_place. rewrite <- Z.pow_add_r by (done || apply unit_nonneg).
    rewrite Z.log2_pow2 by (unfold unit_exp; lia). apply pow2_divide. unfold unit_exp. lia.
  - destruct (Z.eq_dec n 0) as [->|]; [apply Z.divide_0_r|].
    unfold representable. apply Z.divide_mul_r. apply pow2_divide.
    split; [by apply last_place_nonneg|]. unfold last_place, one.
    rewrite Z.log2_mul_pow2 by (lia || apply unit_nonneg).
    assert (Z.log2 n < 53) by (apply Z.log2_lt_pow2; lia). unfold unit_exp. lia.
Qed.

Lemma round53_representable z : 0 <= z -> representable 0 z -> round53 0 z = z.
Proof.
  intros Hz Hr. pose proof (round53_abs_le 0 ltac:(done) z z ltac:(lia) Hr) as Hu.
  unfold round53 in *. destruct (z <? 0) eqn:E; [lia|].
  enough (z <= round_pos 0 z) by lia. apply nearest_even_ge; [by apply last_place_nonneg | lia | exact Hr].
Qed.

Lemma of_int_exact n : 0 <= n <= 2 ^ 53 -> of_int n = Finite (n * one).
Proof.
  intros Hn. pose proof one_pos. unfold of_int. rewrite round53_representable by
    (by apply representable_int || nia).
  apply finite_small. unfold huge. assert (2 ^ 53 < 2 ^ 1024) by (by apply Z.pow_lt_mono_r). nia.
Qed.

(** A product is at most the larger factor when the other is at most 1. *)
Lemma fmul_le a b w :
  Z.abs (a * b) <= w * one -> representable 0 w -> 0 <= w < huge ->
  exists z, fmul (Finite a) (Finite b) = Finite z /\ - w <= z <= w /\
    (0 <= a * b -> 0 <= z /\ representable 0 z).
Proof.
  intros Hab Hw Hwh. pose proof one_pos as Ho. unfold fmul.
  assert (exists z, round53 unit_exp (a * b) = z * one) as [z Hz].
  { unfold round53. assert (forall x, (one | round_pos unit_exp x)) as Hd.
    { intros x. unfold round_pos, nearest_even. apply Z.divide_mul_r. unfold one. apply pow2_divide.
      unfold last_place. split; [apply unit_nonneg | lia]. }
    destruct (_ <? 0); [destruct (Hd (- (a * b))) as [z ->]; exists (- z); ring|].
    destruct (Hd (a * b)) as [z ->]. by exists z. }
  pose proof (round53_abs_le unit_exp unit_nonneg (a * b) (w * one) Hab) as Hr.
  rewrite representable_scale in Hr by lia. specialize (Hr Hw). rewrite Hz in Hr |- *.
  rewrite Z.div_mul by lia. exists z. assert (- w <= z <= w) by nia.
  split_and!; [apply finite_small; lia | lia | lia |]. intros Hpos.
  assert (0 <= z) as Hz0.
  { pose proof (round53_nonneg unit_exp unit_nonneg (a * b) Hpos) as Hn. rewrite Hz in Hn. nia. }
  split; [done|]. apply representable_scale; [done|]. rewrite <- Hz. unfold round53.
  destruct (_ <? 0) eqn:E; [lia|]. apply round_pos_representable; [apply unit_nonneg | done].
Qed.

(** ** The generated durations *)
Lemma clampPercent_range f : f <> NaN -> exists p, clampPercent f = Finite p /\ 0 <= p <= one.
Proof.
  pose proof one_pos. unfold clampPercent. rewrite !of_int_exact by lia. rewrite Z.mul_0_l, Z.mul_1_l.
  destruct f as [z|[]|]; simpl; intros Hf; [|eexists; split; [done | lia]..|done].
  destruct (z <? 0) eqn:E0; [eexists; split; [done | lia]|].
  destruct (one <? z) eqn:E1; eexists; (split; [done | lia]).
Qed.

Lemma one_small : 2 ^ 64 * one < huge.
Proof.
  unfold huge. rewrite Z.mul_comm. apply Z.mul_lt_mono_pos_l; [apply one_pos | by apply Z.pow_lt_mono_r].
Qed.

Lemma random_range r :
  0 <= r < one ->
  exists x, fadd (fmul (of_int 2) (Finite r)) (fneg (of_int 1)) = Finite x /\ - one <= x <= one.
Proof.
  intros Hr. pose proof one_pos. pose proof one_small. rewrite !of_int_exact by lia. cbn [fneg].
  rewrite Z.mul_1_l. destruct (fmul_le (2 * one) r (2 * one)) as (y & -> & Hy & Hpos).
  - nia.
  - apply representable_double; [lia | apply representable_one].
  - lia.
  - destruct Hpos as [Hy0 _]; [nia|]. cbn [fadd].
    pose proof (round53_abs_le 0 ltac:(done) (y + - one) one ltac:(lia) representable_one) as Hx.
    exists (round53 0 (y + - one)). split; [|lia]. apply finite_small. lia.
Qed.

Lemma to_int64_small z n : 0 <= z <= n * one -> n <= 2 ^ 54 ->
  to_int64 (Finite z) = Some (Z.quot z one) /\ 0 <= Z.quot z one <= n.
Proof.
  intros Hz Hn. pose proof one_pos. assert (0 <= Z.quot z one <= n) as Hq.
  { split; [apply Z.quot_pos; lia|]. rewrite <- (Z.quot_mul n one) by lia. apply Z.quot_le_mono; lia. }
  split; [|done]. unfold to_int64. destruct (_ && _) eqn:E; [done|].
  apply andb_false_iff in E as [E|E]; lia.
Qed.


(** The clamp lets NaN through, and then the result depends on the machine. *)
Lemma Generate_NaN base random : Generate (NewDurationGenerator base NaN) random = None.
Proof.
  unfold Generate, NewDurationGenerator. cbn [Jitter.base Jitter.jitterPercent].
  assert (clampPercent NaN = NaN) as -> by done.
  destruct (of_int base), (fadd (fmul (of_int 2) random) (fneg (of_int 1))); done.
Qed.
