(* ===== verification/Seconds.v ===== *)
(** * Durations in seconds (package time) *)
(** [Duration.Seconds] is a float64, the sum of the whole seconds and of the
    quotient of the nanoseconds; the code truncates it to an int.  The
    standard library's [SpecFloat] computes IEEE binary64 with 53 bits of
    precision. *)
From S2P Require Import Prelude.
From Stdlib Require Import SpecFloat.

Definition float64_prec : Z := 53.
Definition float64_emax : Z := 1024.

Definition float64_of (n : Z) : spec_float := binary_normalize float64_prec float64_emax n 0 false.

Definition Duration_Seconds (d : Z) : spec_float :=
  let sec := Z.quot d 1000000000 in
  let nsec := Z.rem d 1000000000 in
  SFadd float64_prec float64_emax (float64_of sec)
    (SFdiv float64_prec float64_emax (float64_of nsec) (float64_of 1000000000)).

(** The conversion to int truncates; the values converted are finite. *)
Definition truncate (x : spec_float) : Z :=
  match x with
  | S754_finite s m e =>
    let v := if (0 <=? e)%Z then (Zpos m * 2 ^ e)%Z else (Zpos m / 2 ^ (- e))%Z in
    if s then (- v)%Z else v
  | _ => 0%Z
  end.

(** [int(d.Seconds())]. *)
Definition whole_seconds (d : Z) : Z := truncate (Duration_Seconds d).

Example five_minutes : whole_seconds 300000000000 = 300%Z.
Proof. reflexivity. Qed.

Example just_below_a_second : whole_seconds 999999999 = 0%Z.
Proof. reflexivity. Qed.

Example negative_truncates : whole_seconds (-1500000000) = (-1)%Z.
Proof. reflexivity. Qed.

(** Beyond 2^23 seconds the last nanoseconds may round up to a whole second. *)
Example rounds_up : whole_seconds (8388608999999999 + 2 ^ 32 * 1000000000) = (2 ^ 32 + 8388609)%Z.
Proof. vm_compute. reflexivity. Qed.
