(* ===== verification/Metrics.v ===== *)
(** * Metrics (metrics/prometheus.go, rules/metrics.go, rules/metrics_collector.go) *)
(** The engine counts through package [metrics], which keeps Prometheus
    collectors: counters, gauges and histograms with labels.  Only collectors
    that [init] registers are exposed to a scrape.  The method label comes from
    the context of the call. *)
From S2P Require Import Prelude GoString.

(** ** The collectors *)
Inductive metric :=
| rulesEngineLockCount
| rulesEngineUnlockErrorCount
| rulesEngineSatisfiedThenNot
| rulesEngineEvaluations
| rulesEngineWorkerQueueWait
| rulesEngineWorkBufferWaitTime
| rulesEngineCallbackWaitTime
| rulesEngineKeyProcessBufferCap
| rulesEngineWatcherErrors
| rulesEngineCrawlerQueryTime
| rulesEngineCrawlerEvalTime
| rulesEngineCrawlerValues
| rulesEngineWorkerCount.

#[export] Instance metric_eq_dec : EqDecision metric.
Proof. solve_decision. Defined.

Inductive metricKind := counterVec | gaugeVec | histogramVec.

(** Name, kind and label names. *)
Definition metric_desc (m : metric) : string * metricKind * list string :=
  match m with
  | rulesEngineLockCount => ("lock_count", counterVec, ["locker"; "method"; "pattern"; "success"])
  | rulesEngineUnlockErrorCount => ("unlock_error_count", counterVec, ["locker"; "method"; "pattern"])
  | rulesEngineSatisfiedThenNot => ("rule_satisfied_then_not", counterVec, ["method"; "pattern"; "phase"])
  | rulesEngineEvaluations => ("evaluations", gaugeVec, ["method"; "rule"])
  | rulesEngineWorkerQueueWait => ("worker_queue_wait_ms", histogramVec, ["method"])
  | rulesEngineWorkBufferWaitTime => ("work_buffer_wait_ms", histogramVec, ["method"; "pattern"])
  | rulesEngineCallbackWaitTime => ("callback_duration_ms", histogramVec, ["pattern"; "rule"; "source"])
  | rulesEngineKeyProcessBufferCap => ("key_process_buffer_cap", gaugeVec, [])
  | rulesEngineWatcherErrors => ("watcher_errors", counterVec, ["error"; "prefix"])
  | rulesEngineCrawlerQueryTime => ("crawler_query_seconds", histogramVec, ["name"])
  | rulesEngineCrawlerEvalTime => ("crawler_eval_seconds", histogramVec, ["name"])
  | rulesEngineCrawlerValues => ("crawler_values_count", gaugeVec, ["name"])
  | rulesEngineWorkerCount => ("worker_count", gaugeVec, [])
  end.

(** The collectors [init] passes to [prometheus.MustRegister]. *)
Definition registered : list metric :=
  [rulesEngineLockCount; rulesEngineSatisfiedThenNot; rulesEngineEvaluations;
   rulesEngineWorkerQueueWait; rulesEngineWorkBufferWaitTime; rulesEngineCallbackWaitTime;
   rulesEngineKeyProcessBufferCap; rulesEngineWatcherErrors; rulesEngineCrawlerQueryTime;
   rulesEngineCrawlerEvalTime; rulesEngineCrawlerValues; rulesEngineWorkerCount].

(** ** Recording *)
(** [ObserveSeconds] observes the [Seconds] of a duration in nanoseconds. *)
Inductive operation :=
| Inc
| SetValue (z : Z)
| Observe (z : Z)
| ObserveSeconds (elapsed : Z).

Record sample := mkSample {
  smp_metric : metric;
  smp_labels : list string;
  smp_op : operation
}.

(** The samples recorded so far. *)
Abbreviation record := (list sample).

Definition emit (m : metric) (labels : list string) (op : operation) (rec : record) : record :=
  rec ++ [mkSample m labels op].

Definition FormatBool (b : bool) : string := if b then "true" else "false".

(** [time.Since(start).Nanoseconds() / 1e6], which truncates. *)
Definition millis (elapsed : Z) : Z := Z.quot elapsed 1000000.

Definition IncLockMetric (locker methodName pattern : string) (lockSucceeded : bool) : record -> record :=
  emit rulesEngineLockCount [locker; methodName; pattern; FormatBool lockSucceeded] Inc.
Definition IncUnlockErrorMetric (locker methodName pattern : string) : record -> record :=
  emit rulesEngineUnlockErrorCount [locker; methodName; pattern] Inc.
Definition IncSatisfiedThenNot (methodName pattern phaseName : string) : record -> record :=
  emit rulesEngineSatisfiedThenNot [methodName; pattern; phaseName] Inc.
Definition TimesEvaluated (methodName ruleID : string) (count : Z) : record -> record :=
  emit rulesEngineEvaluations [methodName; ruleID] (SetValue count).
Definition WorkerQueueWaitTime (methodName : string) (elapsed : Z) : record -> record :=
  emit rulesEngineWorkerQueueWait [methodName] (Observe (millis elapsed)).
Definition WorkBufferWaitTime (methodName pattern : string) (elapsed : Z) : record -> record :=
  emit rulesEngineWorkBufferWaitTime [methodName; pattern] (Observe (millis elapsed)).
Definition CallbackWaitTime (pattern ruleID source : string) (elapsed : Z) : record -> record :=
  emit rulesEngineCallbackWaitTime [pattern; ruleID; source] (Observe (millis elapsed)).
Definition KeyProcessBufferCap (count : Z) : record -> record :=
  emit rulesEngineKeyProcessBufferCap [] (SetValue count).
Definition IncWatcherErrMetric (err prefix : string) : record -> record :=
  emit rulesEngineWatcherErrors [err; prefix] Inc.
Definition CrawlerQueryTime (name : string) (elapsed : Z) : record -> record :=
  emit rulesEngineCrawlerQueryTime [name] (ObserveSeconds elapsed).
Definition CrawlerEvalTime (name : string) (elapsed : Z) : record -> record :=
  emit rulesEngineCrawlerEvalTime [name] (ObserveSeconds elapsed).
Definition CrawlerValuesCount (name : string) (count : Z) : record -> record :=
  emit rulesEngineCrawlerValues [name] (SetValue count).
Definition WorkersCount (count : Z) : record -> record :=
  emit rulesEngineWorkerCount [] (SetValue count).

(** What a scrape sees. *)
Definition exposed (rec : record) : record := filter (fun s => smp_metric s ∈ registered) rec.

(** ** The method of a call *)
(** The values a context carries, innermost first; the key of the metadata is
    private to the package, so no other value has it. *)
Record EtcdMetricsMetadata := mkMetadata {
  Method : string;
  Duration : Z;
  Error : option string
}.
Definition context := list EtcdMetricsMetadata.

Definition SetMethod (ctx : context) (method : string) : context := mkMetadata method 0 None :: ctx.

Definition GetMetricsMetadata (ctx : context) : option EtcdMetricsMetadata := head ctx.

Definition notSetMethodName : string := "notSet".

Definition getMethodNameFromContext (ctx : context) : string :=
  match GetMetricsMetadata ctx with Some data => Method data | None => notSetMethodName end.

(** A context provider returns a context (and a function that cancels it). *)
Definition getMethodNameFromProvider (cp : unit -> context) : string := getMethodNameFromContext (cp tt).

Record metricsInfo := mkMetricsInfo {
  keyPattern : string;
  mi_method : string;
  startTime : Z
}.

Definition newMetricsInfo (ctx : context) (keyPattern : string) (startTime : Z) : metricsInfo :=
  mkMetricsInfo keyPattern (getMethodNameFromContext ctx) startTime.

Lemma method_round_trip ctx m : getMethodNameFromContext (SetMethod ctx m) = m.
Proof. done. Qed.

(** ** Properties *)
(** Every recording has as many label values as its collector has labels;
    [WithLabelValues] panics otherwise. *)
Definition labelled (s : sample) : Prop := length (smp_labels s) = length (metric_desc (smp_metric s)).2.

(** A sample that one of the functions above records. *)
Inductive records : record -> Prop :=
| records_nil : records []
| records_lock l m p b rec : records rec -> records (IncLockMetric l m p b rec)
| records_unlock l m p rec : records rec -> records (IncUnlockErrorMetric l m p rec)
| records_not m p ph rec : records rec -> records (IncSatisfiedThenNot m p ph rec)
| records_times m r n rec : records rec -> records (TimesEvaluated m r n rec)
| records_queue m e rec : records rec -> records (WorkerQueueWaitTime m e rec)
| records_buffer m p e rec : records rec -> records (WorkBufferWaitTime m p e rec)
| records_callback p r s e rec : records rec -> records (CallbackWaitTime p r s e rec)
| records_cap n rec : records rec -> records (KeyProcessBufferCap n rec)
| records_watcher e p rec : records rec -> records (IncWatcherErrMetric e p rec)
| records_query n e rec : records rec -> records (CrawlerQueryTime n e rec)
| records_eval n e rec : records rec -> records (CrawlerEvalTime n e rec)
| records_values n c rec : records rec -> records (CrawlerValuesCount n c rec)
| records_workers n rec : records rec -> records (WorkersCount n rec).

Lemma records_labelled rec : records rec -> Forall labelled rec.
Proof.
  induction 1; [constructor|..]; apply Forall_app; (split; [done | by apply Forall_singleton]).
Qed.

Lemma registered_iff m : m ∈ registered <-> m <> rulesEngineUnlockErrorCount.
Proof.
  split.
  - intros Hm ->. revert Hm. apply (bool_decide_unpack (rulesEngineUnlockErrorCount ∉ registered)). done.
  - intros Hm. apply (bool_decide_unpack (m ∈ registered)). by destruct m.
Qed.

(** The metrics are well labelled, so recording never panics, and a scrape
    sees every sample except those of unlock errors, whose collector [init]
    does not register: recording an unlock error changes nothing that is
    exposed. *)
Theorem unlock_errors_not_exposed (rec : record) (Hrec : records rec) :
  Forall labelled rec /\
  (forall s, s ∈ exposed rec <-> s ∈ rec /\ smp_metric s <> rulesEngineUnlockErrorCount) /\
  forall locker methodName pattern, exposed (IncUnlockErrorMetric locker methodName pattern rec) = exposed rec.
Proof.
  split_and!; [by apply records_labelled | |].
  - intros s. unfold exposed. rewrite list_elem_of_filter, registered_iff. tauto.
  - intros l m p. unfold exposed, IncUnlockErrorMetric, emit. rewrite filter_app, filter_cons_False, filter_nil.
    + apply app_nil_r.
    + simpl. rewrite registered_iff. tauto.
Qed.
