(* ===== verification/Attributes.v ===== *)
(** * Attributes and path formatting (rules/task.go, rules/matcher.go, rules/dynamic_rule.go) *)
(** The implementations of [extendedAttributes] and [formatPath].  A Go
    computation that may panic is in the option monad, [None] being the
    panic; Go's [(string, bool)] and nilable [*string] results are options, so
    [FindAttribute a name : option (option string)]. *)
From S2P Require Import Prelude GoString.

(** ** The data *)
Record attributeInstance := mkAttributeInstance {
  ai_key : string;
  ai_value : option string
}.

Record regexKeyMatch := mkRegexKeyMatch {
  matchStrings : list string;
  km_fieldMap : gmap string nat
}.

Inductive extendedAttributes :=
| regexKeyMatchAttrs (m : regexKeyMatch)
| mapAttributes (values : gmap string string)
| nestingAttributes (nested : extendedAttributes) (attrs : list attributeInstance).

(** A value of the public interface [Attributes]: one of the engine's own
    implementations, which also implement [AttributeFinder], or a foreign one
    that only has [GetAttribute]. *)
Inductive Attributes :=
| finderAttributes (a : extendedAttributes)
| plainAttributes (get : string -> option (option string)).

(** ** Lookups *)
Definition km_lookup (m : regexKeyMatch) (name : string) : option (option string) :=
  match km_fieldMap m !! name with
  | None => Some None
  | Some index => Some <$> matchStrings m !! index
  end.

Fixpoint find_instance (attrs : list attributeInstance) (key : string) : option attributeInstance :=
  match attrs with
  | [] => None
  | a :: attrs' => if decide (ai_key a = key) then Some a else find_instance attrs' key
  end.

Definition mapAttributes_GetAttribute (values : gmap string string) (key : string) : option (option string) :=
  Some (values !! key).

(** The instances come before the nested attributes. *)
Definition nestingAttributes_GetAttribute (nested : string -> option (option string))
    (attrs : list attributeInstance) (key : string) : option (option string) :=
  match find_instance attrs key with
  | Some ai => Some (ai_value ai)
  | None => nested key
  end.

(** [*attribute.value] dereferences the pointer, so a nil value panics. *)
Definition nestingAttributes_FindAttribute (nested : string -> option (option string))
    (attrs : list attributeInstance) (key : string) : option (option string) :=
  match find_instance attrs key with
  | Some ai => Some <$> ai_value ai
  | None => nested key
  end.
Arguments mapAttributes_GetAttribute _ _ /.
Arguments nestingAttributes_GetAttribute _ _ _ /.
Arguments nestingAttributes_FindAttribute _ _ _ /.

Fixpoint GetAttribute (a : extendedAttributes) (key : string) : option (option string) :=
  match a with
  | regexKeyMatchAttrs m => km_lookup m key
  | mapAttributes values => mapAttributes_GetAttribute values key
  | nestingAttributes nested attrs => nestingAttributes_GetAttribute (GetAttribute nested) attrs key
  end.

Fixpoint FindAttribute (a : extendedAttributes) (key : string) : option (option string) :=
  match a with
  | regexKeyMatchAttrs m => km_lookup m key
  | mapAttributes values => mapAttributes_GetAttribute values key
  | nestingAttributes nested attrs => nestingAttributes_FindAttribute (FindAttribute nested) attrs key
  end.

Section names.
Context `{GoRange}.

Definition regexKeyMatch_names (m : regexKeyMatch) : list string := range_keys (km_fieldMap m).

Definition mapAttributes_names (values : gmap string string) : list string := range_keys values.

Definition nestingAttributes_names (nested : list string) (attrs : list attributeInstance) : list string :=
  (ai_key <$> attrs) ++ nested.

Fixpoint names (a : extendedAttributes) : list string :=
  match a with
  | regexKeyMatchAttrs m => regexKeyMatch_names m
  | mapAttributes values => mapAttributes_names values
  | nestingAttributes nested attrs => nestingAttributes_names (names nested) attrs
  end.
End names.
Arguments regexKeyMatch_names _ _ /.
Arguments mapAttributes_names _ _ /.
Arguments nestingAttributes_names _ _ /.

(** The attributes an application makes from a map, for its tests. *)
Definition NewAttributes (values : gmap string string) : Attributes :=
  finderAttributes (mapAttributes values).

(** [finderWrapper.FindAttribute]: dereference unless nil. *)
Definition finderWrapper (get : string -> option (option string)) (s : string) :
    option (option string) :=
  ptr ← get s;
  match ptr with
  | Some v => Some (Some v)
  | None => Some None
  end.

Definition finder (m : Attributes) : string -> option (option string) :=
  match m with
  | finderAttributes a => FindAttribute a
  | plainAttributes get => finderWrapper get
  end.

(** ** formatPath *)
(** One iteration of the loop: the string builder and [allFound] are the
    state. *)
Definition formatPath_step (find : string -> option (option string))
    (st : string * bool) (segment : string) : option (string * bool) :=
  let '(sb, allFound) := st in
  if decide (segment = EmptyString) then Some (sb, allFound)
  else if HasPrefix segment colon_str then
    attr ← find (str_drop 1 segment);
    match attr with
    | Some v => Some (sb +:+ slash_str +:+ v, allFound)
    | None => Some (sb +:+ slash_str +:+ segment, false)
    end
  else Some (sb +:+ slash_str +:+ segment, allFound).

(** The loop cuts one segment per iteration and stops when [Cut] finds no
    separator, so it runs once more than there are slashes. *)
Fixpoint formatPath_loop (fuel : nat) (find : string -> option (option string))
    (pattern : string) (st : string * bool) : option (string * bool) :=
  match fuel with
  | 0 => None
  | S fuel' =>
    let '(segment, rest, found) := Cut pattern slash in
    st' ← formatPath_step find st segment;
    if found : bool then formatPath_loop fuel' find rest st' else Some st'
  end.

Definition formatPath (pattern : string) (m : Attributes) : option (string * bool) :=
  formatPath_loop (S (Count pattern slash)) (finder m) pattern (EmptyString, true).

Definition FormatWithAttributes (pattern : string) (m : Attributes) : option string :=
  fst <$> formatPath pattern m.

(** [Format] of every implementation of [extendedAttributes]. *)
Definition Format (a : extendedAttributes) (pattern : string) : option string :=
  FormatWithAttributes pattern (finderAttributes a).

(** ** Patterns as lists of segments *)
Inductive segment :=
| Lit (s : string)
| Param (name : string).

#[export] Instance segment_eq_dec : EqDecision segment.
Proof. solve_decision. Defined.

Definition parse_segment (s : string) : segment :=
  if HasPrefix s colon_str then Param (str_drop 1 s) else Lit s.

Definition nonempty_parts (pattern : string) : list string :=
  filter (fun s => s <> EmptyString) (Split pattern slash).

Definition pattern_segments (pattern : string) : list segment :=
  parse_segment <$> nonempty_parts pattern.

Definition seg_param (seg : segment) : option string :=
  match seg with Lit _ => None | Param n => Some n end.

(** The parameter names of a pattern, in order. *)
Definition params (segs : list segment) : list string := omap seg_param segs.

(** What a segment renders to in an environment: an unknown parameter stays. *)
Definition render_segment (env : string -> option string) (seg : segment) : string :=
  match seg with
  | Lit s => s
  | Param n => default (String colon n) (env n)
  end.

Fixpoint render (env : string -> option string) (segs : list segment) : string :=
  match segs with
  | [] => EmptyString
  | seg :: segs' => String slash (render_segment env seg +:+ render env segs')
  end.

Definition all_found (env : string -> option string) (segs : list segment) : bool :=
  forallb (fun n => bool_decide (is_Some (env n))) (params segs).

(** [find] answers like [env] on the given names, without panicking. *)
Definition finds (find : string -> option (option string)) (env : string -> option string)
    (ns : list string) : Prop :=
  forall n, n ∈ ns -> find n = Some (env n).

(** A pattern is canonical when every segment is preceded by one slash and
    none is empty, such as "/a/:b"; not "a/:b" or "/a//:b" or "/a/". *)
Definition canonical (pattern : string) : bool :=
  bool_decide (render (fun _ => None) (pattern_segments pattern) = pattern).

(** ** Lemmas *)
Lemma HasPrefix_colon (s : string) :
  HasPrefix s colon_str = true <-> exists n, s = String colon n.
Proof.
  rewrite HasPrefix_iff. split; intros [t ->]; by exists t.
Qed.

Lemma parse_segment_param (n : string) : parse_segment (String colon n) = Param n.
Proof. unfold parse_segment. by rewrite (proj2 (HasPrefix_colon _)) by eauto. Qed.

Lemma parse_segment_spec (s : string) :
  (exists n, s = String colon n /\ parse_segment s = Param n) \/
  (HasPrefix s colon_str = false /\ parse_segment s = Lit s).
Proof.
  destruct (HasPrefix s colon_str) eqn:E.
  - left. apply HasPrefix_colon in E as [n ->]. exists n. by rewrite parse_segment_param.
  - right. unfold parse_segment. by rewrite E.
Qed.

Lemma render_parse_segment (s : string) : render_segment (fun _ => None) (parse_segment s) = s.
Proof. destruct (parse_segment_spec s) as [(n & -> & ->)|[_ ->]]; done. Qed.

Lemma render_app env (l k : list segment) : render env (l ++ k) = render env l +:+ render env k.
Proof. induction l as [|x l IH]; simpl; [done|]. by rewrite IH, app_str_assoc. Qed.

Lemma render_ext env1 env2 (segs : list segment) :
  (forall n, n ∈ params segs -> env1 n = env2 n) -> render env1 segs = render env2 segs.
Proof.
  induction segs as [|[s|n] segs IH]; simpl; intros H; [done| |].
  - by rewrite IH.
  - rewrite (H n) by set_solver. f_equal. f_equal. apply IH. set_solver.
Qed.

(** The loop of [formatPath] is a monadic fold over the split pattern. *)
Fixpoint formatPath_fold (find : string -> option (option string))
    (parts : list string) (st : string * bool) : option (string * bool) :=
  match parts with
  | [] => Some st
  | p :: parts' => st' ← formatPath_step find st p; formatPath_fold find parts' st'
  end.

Lemma formatPath_loop_fold fuel find pattern st :
  Count pattern slash < fuel ->
  formatPath_loop fuel find pattern st = formatPath_fold find (Split pattern slash) st.
Proof.
  revert pattern st. induction fuel as [|fuel IH]; intros pattern st Hf; [lia|].
  simpl. pose proof (Cut_spec pattern slash) as Hcut.
  destruct (Cut pattern slash) as [[seg rest] found]. destruct Hcut as [Hseg Hcut].
  destruct found.
  - destruct Hcut as [-> ->]. rewrite Count_app in Hf. simpl in *.
    destruct (formatPath_step find st seg) as [st'|]; simpl; [|done].
    apply IH. lia.
  - destruct Hcut as (-> & -> & ->). simpl.
    by destruct (formatPath_step find st seg).
Qed.

Lemma formatPath_fold_eq find env parts sb b :
  finds find env (params (parse_segment <$> filter (fun s => s <> EmptyString) parts)) ->
  formatPath_fold find parts (sb, b) =
  Some (sb +:+ render env (parse_segment <$> filter (fun s => s <> EmptyString) parts),
        b && all_found env (parse_segment <$> filter (fun s => s <> EmptyString) parts)).
Proof.
  revert sb b. induction parts as [|p parts IH]; intros sb b Hf.
  { simpl. by rewrite app_str_nil_r, andb_true_r. }
  rewrite filter_cons in *. simpl formatPath_fold. unfold formatPath_step.
  destruct (decide (p = EmptyString)) as [->|Hp].
  { rewrite decide_False in * by tauto. simpl. by apply IH. }
  rewrite decide_True in * by done. rewrite fmap_cons in *.
  destruct (parse_segment_spec p) as [(n & -> & Hps)|[Hnp Hps]]; rewrite Hps in *.
  - rewrite (proj2 (HasPrefix_colon _)) by eauto. simpl str_drop.
    rewrite (Hf n) by (simpl; set_solver). simpl.
    assert (finds find env (params (parse_segment <$> filter (fun s => s <> EmptyString) parts)))
      as Hf' by (intros k Hk; apply Hf; simpl; set_solver).
    unfold all_found. simpl.
    destruct (env n) as [v|]; simpl; rewrite IH by done; f_equal; f_equal.
    + by rewrite !app_str_assoc.
    + by rewrite !app_str_assoc.
    + by rewrite andb_false_r.
  - rewrite Hnp. simpl. rewrite IH by done. by rewrite !app_str_assoc.
Qed.

Lemma formatPath_eq pattern m env :
  finds (finder m) env (params (pattern_segments pattern)) ->
  formatPath pattern m =
  Some (render env (pattern_segments pattern), all_found env (pattern_segments pattern)).
Proof.
  intros Hf. unfold formatPath. rewrite formatPath_loop_fold by lia.
  by rewrite (formatPath_fold_eq _ env).
Qed.

Lemma all_found_true env segs :
  all_found env segs = true <-> forall n, n ∈ params segs -> is_Some (env n).
Proof.
  unfold all_found. rewrite <- Is_true_true, forallb_True, Forall_forall.
  split; intros H n Hn.
  - specialize (H n Hn). by apply bool_decide_unpack in H.
  - apply bool_decide_pack. auto.
Qed.

(** When formatting does not panic, every lookup it made succeeded. *)
Lemma formatPath_fold_finds find parts st r :
  formatPath_fold find parts st = Some r ->
  finds find (fun n => default None (find n))
    (params (parse_segment <$> filter (fun s => s <> EmptyString) parts)).
Proof.
  revert st. induction parts as [|p parts IH]; intros st; [intros _ n; simpl; set_solver|].
  simpl formatPath_fold. rewrite bind_Some. intros (st' & Hst & Hr%IH). rewrite filter_cons.
  unfold formatPath_step in Hst. destruct st as [sb b].
  destruct (decide (p = EmptyString)) as [->|Hp]; [by rewrite decide_False by tauto|].
  rewrite decide_True by done. rewrite fmap_cons.
  destruct (parse_segment_spec p) as [(n & -> & ->)|[Hnp ->]]; [|done].
  rewrite (proj2 (HasPrefix_colon _)) in Hst by eauto. simpl str_drop in Hst.
  apply bind_Some in Hst as (attr & Hattr & _).
  intros k. simpl. rewrite elem_of_cons. intros [->|Hk]; [by rewrite Hattr | by apply Hr].
Qed.

Lemma formatPath_Some pattern m t b :
  formatPath pattern m = Some (t, b) ->
  let env := fun n => default None (finder m n) in
  finds (finder m) env (params (pattern_segments pattern)) /\
  t = render env (pattern_segments pattern) /\ b = all_found env (pattern_segments pattern).
Proof.
  intros Hf env. assert (finds (finder m) env (params (pattern_segments pattern))) as Hfinds.
  { unfold formatPath in Hf. rewrite formatPath_loop_fold in Hf by lia.
    by eapply formatPath_fold_finds. }
  rewrite (formatPath_eq _ _ env) in Hf by done. by injection Hf as <- <-.
Qed.

Lemma Format_Some a pattern key :
  Format a pattern = Some key ->
  let env := fun n => default None (FindAttribute a n) in
  finds (FindAttribute a) env (params (pattern_segments pattern)) /\
  key = render env (pattern_segments pattern).
Proof.
  unfold Format, FormatWithAttributes. rewrite fmap_Some.
  intros ([t b] & Hf & ->). apply formatPath_Some in Hf as (? & ? & _). done.
Qed.

(** Formatting with the attributes of a map never panics. *)
Lemma NewAttributes_formats values pattern :
  FormatWithAttributes pattern (NewAttributes values) =
  Some (render (fun n => values !! n) (pattern_segments pattern)).
Proof. unfold FormatWithAttributes. by rewrite (formatPath_eq _ _ (fun n => values !! n)). Qed.
