(* ===== verification/Matcher.v ===== *)
(** * Key matchers (rules/matcher.go, rules/constraint.go) *)
(** A key pattern such as "/user/:name/state" is compiled to a regular
    expression in which each [:name] is a capture group; matching a key
    against it yields the attributes.  Package [regexp] is an interface here
    ([Regexp]) with the one law the engine relies on ([RegexpLaws]): the
    meaning of the expressions [parsePath] builds from patterns whose literal
    segments contain no regular-expression metacharacter.  [segment_regexp]
    is an executable instance of the interface for those expressions. *)
From S2P Require Import Prelude GoString Attributes.

(** ** The regexp interface *)
Class Regexp := {
  regexp : Type;
  Compile : string -> result regexp;
  (* FindStringSubmatch returns the text of the match and of its groups *)
  FindStringSubmatch : regexp -> string -> option (list string)
}.

(** The capture group of a parameter. *)
Definition group_regex : string := "([^\/:]+)".

(** The characters that stand for themselves in a regular expression. *)
Definition metachars : list ascii := chars "\.+*?()|[]{}^$".

Definition plain_char (c : ascii) : bool :=
  (N_of_ascii c <? 128)%N && bool_decide (c ∉ metachars).

Definition plain_segment (seg : segment) : bool :=
  match seg with
  | Lit s => forallb plain_char (chars s) && bool_decide (slash ∉ chars s)
  | Param _ => true
  end.

Fixpoint segments_regex (segs : list segment) : string :=
  match segs with
  | [] => EmptyString
  | Lit s :: segs' => String slash (s +:+ segments_regex segs')
  | Param _ :: segs' => String slash (group_regex +:+ segments_regex segs')
  end.

(** *** The meaning of those expressions *)
(** A group takes the longest run of characters other than '/' and ':'. *)
Fixpoint take_group (s : string) : string * string :=
  match s with
  | EmptyString => (EmptyString, EmptyString)
  | String c s' =>
    if decide (c = slash \/ c = colon) then (EmptyString, s)
    else let '(g, rest) := take_group s' in (String c g, rest)
  end.

(** The match that starts at the first character of [s]: the captured texts
    and what follows the match.  A group is followed by '/' or by the end of
    the expression, so the longest run is the only choice that can succeed. *)
Fixpoint match_segments (segs : list segment) (s : string) : option (list string * string) :=
  match segs with
  | [] => Some ([], s)
  | seg :: segs' =>
    match s with
    | EmptyString => None
    | String c s' =>
      if decide (c = slash) then
        match seg with
        | Lit l =>
          if HasPrefix s' l then match_segments segs' (str_drop (String.length l) s') else None
        | Param _ =>
          let '(g, rest) := take_group s' in
          if decide (g = EmptyString) then None
          else '(caps, r) ← match_segments segs' rest; Some (g :: caps, r)
        end
      else None
    end
  end.

(** The search is not anchored: the leftmost position that matches wins. *)
Fixpoint search_segments (segs : list segment) (s : string) : option (list string) :=
  match match_segments segs s with
  | Some (caps, rest) => Some (str_take (String.length s - String.length rest) s :: caps)
  | None => match s with EmptyString => None | String _ s' => search_segments segs s' end
  end.

Class RegexpLaws (R : Regexp) :=
  regexp_segments : forall segs,
    Forall (fun seg => plain_segment seg = true) segs ->
    exists re, Compile (segments_regex segs) = inr re /\
      forall s, FindStringSubmatch re s = search_segments segs s.

(** ** parsePath *)
Definition parsePath_step (st : gmap string nat * string * nat) (path : string) :
    gmap string nat * string * nat :=
  let '(fields, regex, fieldIndex) := st in
  if decide (String.length path = 0) then (fields, regex, fieldIndex)
  else
    let regex := regex +:+ slash_str in
    if HasPrefix path colon_str then
      (<[str_drop 1 path := fieldIndex]> fields, regex +:+ group_regex, S fieldIndex)
    else (fields, regex +:+ path, fieldIndex).

Definition parsePath (pattern : string) : gmap string nat * string :=
  let '(fields, regex, _) :=
    fold_left parsePath_step (Split pattern slash) (∅, EmptyString, 1) in
  (fields, regex).

(** ** Constraints *)
Record constraint := mkConstraint {
  constr_prefix : string;
  constr_chars : list (list Z)
}.

(** [constr.chars[index]] panics when [index] is out of range, which only
    happens for a constraint without any character set.  [fuel] bounds the
    depth of the recursion, which is at most the number of sets. *)
Fixpoint buildPrefixesFromConstraint (fuel : nat) (base : string) (index : nat)
    (constr : constraint) (prefixes : list string) : option (list string) :=
  match fuel with
  | 0 => None
  | S fuel' =>
    myChars ← constr_chars constr !! index;
    if decide (index + 1 = length (constr_chars constr)) then
      Some (fold_left (fun ps char => ps ++ [base +:+ rune_to_string char]) myChars prefixes)
    else
      fold_left (fun ps char =>
                   ps' ← ps;
                   buildPrefixesFromConstraint fuel' (base +:+ rune_to_string char) (index + 1)
                     constr ps')
        myChars (Some prefixes)
  end.

(** ** regexKeyMatcher *)
Record regexKeyMatcher `{Regexp} := mkRegexKeyMatcher {
  rkm_regex : regexp;
  rkm_fieldMap : gmap string nat;
  rkm_pattern : string
}.

Section matcher.
Context `{Regexp}.

Definition newRegexKeyMatcher (pattern : string) : result regexKeyMatcher :=
  let '(fields, regexString) := parsePath pattern in
  match Compile regexString with
  | inl err => inl err
  | inr regex => inr (mkRegexKeyMatcher _ regex fields pattern)
  end.

Definition getPrefix (rkm : regexKeyMatcher) : string :=
  let end_ := match Index (rkm_pattern rkm) colon with
              | None => String.length (rkm_pattern rkm)
              | Some i => i
              end in
  str_take end_ (rkm_pattern rkm).

Definition getPrefixesWithConstraints (rkm : regexKeyMatcher)
    (constraints : gmap string constraint) : option (list string) :=
  match Index (rkm_pattern rkm) colon with
  | None => Some [getPrefix rkm]
  | Some firstColon =>
    let end_ := match Index (str_drop firstColon (rkm_pattern rkm)) slash with
                | None => String.length (rkm_pattern rkm)
                | Some e => firstColon + e
                end in
    let attrName := str_take (end_ - (firstColon + 1)) (str_drop (firstColon + 1) (rkm_pattern rkm)) in
    match constraints !! attrName with
    | None => Some [getPrefix rkm]
    | Some constr =>
      buildPrefixesFromConstraint (length (constr_chars constr))
        (str_take firstColon (rkm_pattern rkm) +:+ constr_prefix constr) 0 constr []
    end
  end.

Definition getPattern (rkm : regexKeyMatcher) : string := rkm_pattern rkm.

Definition newKeyMatch (path : string) (kmr : regexKeyMatcher) : option regexKeyMatch :=
  match FindStringSubmatch (rkm_regex kmr) path with
  | None => None
  | Some results => Some (mkRegexKeyMatch results (rkm_fieldMap kmr))
  end.

(** The method [match]; [Some m] is [(m, true)]. *)
Definition match_ (rkm : regexKeyMatcher) (path : string) : option extendedAttributes :=
  match newKeyMatch path rkm with
  | None => None
  | Some m => Some (regexKeyMatchAttrs m)
  end.

End matcher.

(** ** parsePath: the expression and the field numbering *)
(** The numbering [parsePath] gives to the parameters: positions count from
    [start], and a repeated name keeps its last position. *)
Fixpoint number_params (ns : list string) (start : nat) (m : gmap string nat) : gmap string nat :=
  match ns with
  | [] => m
  | n :: ns' => number_params ns' (S start) (<[n := start]> m)
  end.

Lemma length_zero_str (s : string) : String.length s = 0 <-> s = EmptyString.
Proof. by destruct s. Qed.

Lemma parsePath_fold (parts : list string) fields regex i :
  let segs := parse_segment <$> filter (fun s => s <> EmptyString) parts in
  fold_left parsePath_step parts (fields, regex, i) =
  (number_params (params segs) i fields, regex +:+ segments_regex segs,
   i + length (params segs)).
Proof.
  revert fields regex i. induction parts as [|p parts IH]; intros fields regex i.
  { simpl. by rewrite app_str_nil_r, Nat.add_0_r. }
  rewrite filter_cons. cbn [fold_left parsePath_step].
  rewrite (decide_ext _ _ _ _ (length_zero_str p)).
  destruct (decide (p = EmptyString)) as [->|Hp].
  { rewrite decide_False by tauto. apply IH. }
  rewrite decide_True by done. rewrite fmap_cons.
  destruct (parse_segment_spec p) as [(n & -> & ->)|[Hnp ->]].
  - rewrite (proj2 (HasPrefix_colon _)) by eauto. rewrite IH. simpl.
    rewrite !app_str_assoc. f_equal. lia.
  - rewrite Hnp, IH. simpl. by rewrite !app_str_assoc.
Qed.

Lemma parsePath_eq (pattern : string) :
  parsePath pattern =
  (number_params (params (pattern_segments pattern)) 1 ∅, segments_regex (pattern_segments pattern)).
Proof. unfold parsePath. by rewrite parsePath_fold. Qed.

Lemma number_params_notin ns start m n :
  n ∉ ns -> number_params ns start m !! n = m !! n.
Proof.
  revert start m. induction ns as [|n' ns IH]; intros start m Hn; simpl; [done|].
  apply not_elem_of_cons in Hn as [Hne Hn]. rewrite IH by done. by rewrite lookup_insert_ne.
Qed.

Lemma number_params_in ns start m n :
  n ∈ ns -> exists j, number_params ns start m !! n = Some (start + j) /\ ns !! j = Some n.
Proof.
  revert start m. induction ns as [|n' ns IH]; intros start m Hn; simpl; [by apply elem_of_nil in Hn|].
  destruct (decide (n ∈ ns)) as [Hin|Hnin].
  - destruct (IH (S start) (<[n':=start]> m) Hin) as (j & Hj & Hl).
    exists (S j). split; [|done]. rewrite Hj. f_equal. lia.
  - apply elem_of_cons in Hn as [->|]; [|done]. exists 0. rewrite number_params_notin by done.
    rewrite lookup_insert_eq. split; [f_equal; lia | done].
Qed.

(** ** Matching a rendered pattern, and rendering a match *)
(** A value that a parameter can capture. *)
Definition valid_value (v : string) : bool :=
  bool_decide (v <> EmptyString) && bool_decide (slash ∉ chars v) && bool_decide (colon ∉ chars v).

Lemma valid_value_iff v :
  valid_value v = true <-> v <> EmptyString /\ (slash ∉ chars v) /\ (colon ∉ chars v).
Proof. unfold valid_value. rewrite !andb_true_iff, !bool_decide_eq_true. tauto. Qed.

(** The end of a capture: the text stops, or a '/' or ':' follows. *)
Definition stops (s : string) : Prop :=
  match s with EmptyString => True | String c _ => c = slash \/ c = colon end.

Lemma take_group_app (v s : string) :
  slash ∉ chars v -> colon ∉ chars v -> stops s -> take_group (v +:+ s) = (v, s).
Proof.
  unfold chars. induction v as [|c v IH]; simpl.
  - intros _ _ Hs. destruct s as [|c s]; simpl; [done|]. by rewrite decide_True.
  - rewrite !not_elem_of_cons. intros [? ?] [? ?] Hs. rewrite decide_False by naive_solver.
    by rewrite IH.
Qed.

Lemma take_group_spec (s : string) :
  let '(g, rest) := take_group s in
  s = g +:+ rest /\ (slash ∉ chars g) /\ (colon ∉ chars g) /\ stops rest.
Proof.
  unfold chars. induction s as [|c s IH]; simpl.
  - split_and!; try done; apply not_elem_of_nil.
  - case_decide as Hc; [split_and!; try done; apply not_elem_of_nil|].
    destruct (take_group s) as [g rest]. destruct IH as (-> & ? & ? & ?). simpl.
    rewrite !not_elem_of_cons. naive_solver.
Qed.

Lemma render_stops env segs : stops (render env segs).
Proof. destruct segs; simpl; auto. Qed.

Lemma match_segments_render env (segs : list segment) :
  (forall n, n ∈ params segs -> exists v, env n = Some v /\ valid_value v = true) ->
  exists caps, match_segments segs (render env segs) = Some (caps, EmptyString) /\
    Forall2 (fun n v => env n = Some v) (params segs) caps.
Proof.
  induction segs as [|[l|n] segs IH]; intros Henv; simpl.
  - exists []. split; [done | constructor].
  - rewrite HasPrefix_app, str_drop_app. apply IH, Henv.
  - destruct (Henv n) as (v & Hv & Hval); [simpl; set_solver|].
    apply valid_value_iff in Hval as (Hne & Hs & Hc).
    rewrite Hv. simpl.
    rewrite take_group_app by eauto using render_stops. rewrite decide_False by done.
    destruct IH as (caps & -> & Hf); [intros; apply Henv; simpl; set_solver|].
    exists (v :: caps). simpl. split; [done | by constructor].
Qed.

Lemma match_segments_sound (segs : list segment) s caps rest :
  match_segments segs s = Some (caps, rest) ->
  Forall (fun v => valid_value v = true) caps /\
  length caps = length (params segs) /\
  forall env, Forall2 (fun n v => env n = Some v) (params segs) caps -> s = render env segs +:+ rest.
Proof.
  revert s caps. induction segs as [|seg segs IH]; intros s caps; simpl.
  { intros [= <- <-]. split_and!; [constructor | done | done]. }
  destruct s as [|c s]; [done|]. case_decide as Hc; [subst|done].
  destruct seg as [l|n].
  - destruct (HasPrefix s l) eqn:Hp; [|done]. apply HasPrefix_iff in Hp as [t ->].
    rewrite str_drop_app. intros (Hv & Hl & Hr)%IH. split_and!; [done | done |].
    intros env He. simpl. by rewrite app_str_assoc, (Hr env He).
  - pose proof (take_group_spec s) as Hg. destruct (take_group s) as [g t].
    destruct Hg as (-> & Hgs & Hgc & _). case_decide as Hne; [done|].
    rewrite bind_Some. intros ([caps' r] & Hm & [= <- <-]).
    apply IH in Hm as (Hv & Hl & Hr). split_and!.
    + constructor; [by apply valid_value_iff | done].
    + simpl. by rewrite Hl.
    + simpl. intros env He. inversion He as [|? ? ? ? Hn He']; subst.
      rewrite Hn. simpl. by rewrite app_str_assoc, (Hr env He').
Qed.

Lemma search_segments_Some segs s l :
  search_segments segs s = Some l ->
  exists before s' caps rest,
    s = before +:+ s' /\ match_segments segs s' = Some (caps, rest) /\
    l = str_take (String.length s' - String.length rest) s' :: caps.
Proof.
  induction s as [|c s IH]; simpl; destruct (match_segments segs _) as [[caps rest]|] eqn:E.
  - intros [= <-]. exists EmptyString, EmptyString, caps, rest. by split_and!.
  - done.
  - intros [= <-]. exists EmptyString, (String c s), caps, rest. by split_and!.
  - intros (b & s' & caps & rest & -> & Hm & Hl)%IH.
    exists (String c b), s', caps, rest. by split_and!.
Qed.

Lemma search_segments_here segs s caps rest :
  match_segments segs s = Some (caps, rest) ->
  search_segments segs s = Some (str_take (String.length s - String.length rest) s :: caps).
Proof. intros Hm. destruct s; simpl in *; by rewrite Hm. Qed.

(** ** An executable instance of the regexp interface *)
(** It compiles exactly the expressions built from plain segments and rejects
    every other one. *)
Fixpoint parse_regex (fuel : nat) (s : string) : option (list segment) :=
  match s, fuel with
  | EmptyString, _ => Some []
  | _, 0 => None
  | String c s', S fuel' =>
    if decide (c = slash) then
      if HasPrefix s' group_regex then
        (Param EmptyString ::.) <$> parse_regex fuel' (str_drop (String.length group_regex) s')
      else
        let '(lit, _, _) := Cut s' slash in
        if plain_segment (Lit lit) then
          (Lit lit ::.) <$> parse_regex fuel' (str_drop (String.length lit) s')
        else None
    else None
  end.

Definition segment_regexp : Regexp := {|
  regexp := list segment;
  Compile s := match parse_regex (String.length s) s with
               | Some segs => inr segs
               | None => inl "error parsing regexp"
               end;
  FindStringSubmatch := search_segments
|}.

Definition anon (seg : segment) : segment :=
  match seg with Lit s => Lit s | Param _ => Param EmptyString end.

Lemma match_segments_anon segs s : match_segments (anon <$> segs) s = match_segments segs s.
Proof.
  revert s. induction segs as [|[l|n] segs IH]; intros [|c s]; simpl; try done;
    case_decide; try done.
  - by rewrite IH.
  - destruct (take_group s) as [g t]. by rewrite IH.
Qed.

Lemma search_segments_anon segs s : search_segments (anon <$> segs) s = search_segments segs s.
Proof. induction s as [|c s IH]; simpl; rewrite match_segments_anon; [done|]. by rewrite IH. Qed.

Lemma segments_regex_head segs :
  segments_regex segs = EmptyString \/ exists t, segments_regex segs = String slash t.
Proof. destruct segs as [|[l|n] segs]; simpl; eauto. Qed.

Lemma Cut_before (s t : string) :
  slash ∉ chars s -> t = EmptyString \/ (exists u, t = String slash u) ->
  fst (fst (Cut (s +:+ t) slash)) = s.
Proof.
  unfold chars. intros Hs Ht. induction s as [|c s IH]; simpl in *.
  - destruct Ht as [->|[u ->]]; done.
  - apply not_elem_of_cons in Hs as [Hne Hs]. rewrite decide_False by congruence.
    specialize (IH Hs). destruct (Cut (s +:+ t) slash) as [[b a] f]. simpl in *. by rewrite IH.
Qed.

Lemma plain_char_not_meta c : plain_char c = true -> c ∉ metachars.
Proof. unfold plain_char. rewrite andb_true_iff, bool_decide_eq_true. tauto. Qed.

Lemma plain_no_group l segs :
  plain_segment (Lit l) = true -> HasPrefix (l +:+ segments_regex segs) group_regex = false.
Proof.
  intros Hp. destruct (HasPrefix _ _) eqn:E; [|done].
  apply HasPrefix_iff in E as [t Ht]. destruct l as [|c l]; simpl in *.
  - destruct (segments_regex_head segs) as [Hh|[u Hh]]; by rewrite Hh in Ht.
  - injection Ht as -> _. rewrite !andb_true_iff in Hp. destruct Hp as [[Hc _] _].
    apply plain_char_not_meta in Hc. unfold metachars, chars in Hc. simpl in Hc. set_solver.
Qed.

Lemma parse_regex_segments segs fuel :
  Forall (fun seg => plain_segment seg = true) segs -> length segs <= fuel ->
  parse_regex fuel (segments_regex segs) = Some (anon <$> segs).
Proof.
  revert fuel. induction segs as [|seg segs IH]; intros fuel Hp Hf; [by destruct fuel|].
  rewrite fmap_cons. cbn [length] in Hf.
  inversion Hp as [|? ? Hseg Hp']; subst. destruct fuel as [|fuel]; [lia|].
  destruct seg as [l|n]; cbn [parse_regex segments_regex]; rewrite decide_True by done.
  - rewrite plain_no_group by done.
    pose proof (Cut_before l (segments_regex segs)) as Hcut.
    destruct (Cut _ _) as [[b a] f]. simpl in Hcut.
    assert (b = l) as ->.
    { apply Hcut; [|apply segments_regex_head]. simpl in Hseg.
      rewrite andb_true_iff, bool_decide_eq_true in Hseg. tauto. }
    rewrite Hseg, str_drop_app. rewrite IH by (done || lia). done.
  - rewrite HasPrefix_app, str_drop_app. rewrite IH by (done || lia). done.
Qed.

Lemma length_segments_regex segs : length segs <= String.length (segments_regex segs).
Proof.
  induction segs as [|[l|n] segs IH]; simpl; autorewrite with gostr_rw; lia.
Qed.

#[export] Instance segment_regexp_laws : RegexpLaws segment_regexp.
Proof.
  intros segs Hp. exists (anon <$> segs). split.
  - simpl. by rewrite parse_regex_segments by eauto using length_segments_regex.
  - intros s. apply search_segments_anon.
Qed.

(** ** Matchers of plain patterns *)
Definition plain_pattern (pattern : string) : bool :=
  forallb plain_segment (pattern_segments pattern).

Section matchers.
Context {R : Regexp} {RL : RegexpLaws R}.

(** [rkm] is the matcher of [pattern]. *)
Record matcher_of (pattern : string) (rkm : regexKeyMatcher) : Prop := {
  mo_pattern : rkm_pattern rkm = pattern;
  mo_fields : rkm_fieldMap rkm = number_params (params (pattern_segments pattern)) 1 ∅;
  mo_search : forall s, FindStringSubmatch (rkm_regex rkm) s = search_segments (pattern_segments pattern) s
}.

Lemma newRegexKeyMatcher_plain pattern :
  plain_pattern pattern = true ->
  exists rkm, newRegexKeyMatcher pattern = inr rkm /\ matcher_of pattern rkm.
Proof.
  intros Hp. unfold newRegexKeyMatcher. rewrite parsePath_eq.
  destruct (regexp_segments (pattern_segments pattern)) as (re & -> & Hre).
  { apply Forall_forall. intros seg Hseg. apply Is_true_true.
    pose proof (proj2 (Is_true_true _) Hp) as Hp'. unfold plain_pattern in Hp'.
    rewrite forallb_True, Forall_forall in Hp'. auto. }
  eexists. split; [done|]. by split.
Qed.

Lemma newRegexKeyMatcher_pattern pattern rkm :
  newRegexKeyMatcher pattern = inr rkm -> rkm_pattern rkm = pattern.
Proof.
  unfold newRegexKeyMatcher. destruct (parsePath pattern). destruct (Compile _); [done|].
  by intros [= <-].
Qed.

Lemma newRegexKeyMatcher_matcher_of pattern rkm :
  plain_pattern pattern = true -> newRegexKeyMatcher pattern = inr rkm -> matcher_of pattern rkm.
Proof. intros (rkm' & -> & Hm)%newRegexKeyMatcher_plain [= <-]. done. Qed.

(** The attributes of a match, when the groups captured [caps]. *)
Lemma km_lookup_in pattern whole caps n :
  length caps = length (params (pattern_segments pattern)) ->
  n ∈ params (pattern_segments pattern) ->
  exists j v, params (pattern_segments pattern) !! j = Some n /\ caps !! j = Some v /\
    km_lookup (mkRegexKeyMatch (whole :: caps)
                 (number_params (params (pattern_segments pattern)) 1 ∅)) n = Some (Some v).
Proof.
  intros Hl Hn. unfold km_lookup. simpl.
  destruct (number_params_in _ 1 ∅ n Hn) as (j & -> & Hj).
  destruct (lookup_lt_is_Some_2 caps j) as [v Hv].
  { rewrite Hl. by eapply lookup_lt_Some. }
  exists j, v. simpl. by rewrite Hv.
Qed.

Lemma match_render pattern key rkm a :
  plain_pattern pattern = true -> newRegexKeyMatcher pattern = inr rkm ->
  Format a pattern = Some key ->
  (forall n, n ∈ params (pattern_segments pattern) ->
     exists v, FindAttribute a n = Some (Some v) /\ valid_value v = true) ->
  exists m, match_ rkm key = Some m /\
    forall n, n ∈ params (pattern_segments pattern) -> FindAttribute m n = FindAttribute a n.
Proof.
  intros Hplain Hnew Hfmt Hval.
  pose proof (newRegexKeyMatcher_matcher_of _ _ Hplain Hnew) as [_ Hfm Hre].
  set (env := fun n => default None (FindAttribute a n)).
  assert (finds (FindAttribute a) env (params (pattern_segments pattern))) as Hfinds.
  { intros n Hn. destruct (Hval n Hn) as (v & Hv & _). unfold env. by rewrite Hv. }
  unfold Format, FormatWithAttributes in Hfmt. rewrite (formatPath_eq _ _ env) in Hfmt by done.
  injection Hfmt as <-.
  destruct (match_segments_render env (pattern_segments pattern)) as (caps & Hm & Hcaps).
  { intros n Hn. destruct (Hval n Hn) as (v & Hv & Hvv). exists v.
    unfold env. by rewrite Hv. }
  unfold match_, newKeyMatch. rewrite Hre, (search_segments_here _ _ _ _ Hm).
  eexists. split; [done|]. intros n Hn. simpl. rewrite Hfm.
  edestruct km_lookup_in as (j & v & Hj & Hv & ->); [|exact Hn|].
  { symmetry. by eapply Forall2_length. }
  rewrite (Hfinds n Hn). f_equal. symmetry. by eapply (Forall2_lookup_lr _ _ _ _ _ _ Hcaps).
Qed.

(** C20: Formatting then matching is a round trip: if a pattern without regular
    expression metacharacters is formatted with attributes that have a valid
    value (non-empty, no '/' and no ':') for each of its parameters, its
    matcher matches the resulting key and the match gives back those values. *)
Theorem match_of_format (pattern key : string) (rkm : regexKeyMatcher) (a : extendedAttributes)
    (Hplain : plain_pattern pattern = true)
    (Hnew : newRegexKeyMatcher pattern = inr rkm)
    (Hfmt : Format a pattern = Some key)
    (Hval : forall n, n ∈ params (pattern_segments pattern) ->
              exists v, FindAttribute a n = Some (Some v) /\ valid_value v = true) :
  exists m, match_ rkm key = Some m /\
    forall n, n ∈ params (pattern_segments pattern) -> FindAttribute m n = FindAttribute a n.
Proof. by eapply match_render. Qed.

(** The environment a match defines. *)
Lemma match_inv pattern rkm key m :
  matcher_of pattern rkm -> match_ rkm key = Some m -> NoDup (params (pattern_segments pattern)) ->
  exists env before rest,
    key = before +:+ render env (pattern_segments pattern) +:+ rest /\
    finds (FindAttribute m) env (params (pattern_segments pattern)) /\
    forall n, n ∈ params (pattern_segments pattern) -> exists v, env n = Some v /\ valid_value v = true.
Proof.
  intros [_ Hfm Hre] Hm Hnd. unfold match_, newKeyMatch in Hm. rewrite Hre in Hm.
  destruct (search_segments _ key) as [l|] eqn:Hs; [|done]. injection Hm as <-.
  apply search_segments_Some in Hs as (before & s' & caps & rest & -> & Hms & ->).
  apply match_segments_sound in Hms as (Hvals & Hlen & Hrend).
  set (km := mkRegexKeyMatch _ _).
  set (env := fun n => default None (km_lookup km n)).
  assert (forall j n v, params (pattern_segments pattern) !! j = Some n -> caps !! j = Some v ->
            km_lookup km n = Some (Some v)) as Hlk.
  { intros j n v Hj Hv. unfold km. rewrite Hfm.
    edestruct km_lookup_in as (j' & v' & Hj' & Hv' & ->); [done|by eapply list_elem_of_lookup_2|].
    assert (j = j') as <- by (eapply NoDup_lookup; eauto). by simplify_eq. }
  exists env, before, rest. split_and!.
  - rewrite <- Hrend; [done|]. apply Forall2_same_length_lookup. split; [done|].
    intros j n v Hj Hv. unfold env. by rewrite (Hlk j n v).
  - intros n Hn. simpl. apply list_elem_of_lookup in Hn as [j Hj].
    destruct (lookup_lt_is_Some_2 caps j) as [v Hv]; [rewrite Hlen; by eapply lookup_lt_Some|].
    unfold env. by rewrite (Hlk j n v).
  - intros n Hn. apply list_elem_of_lookup in Hn as [j Hj].
    destruct (lookup_lt_is_Some_2 caps j) as [v Hv]; [rewrite Hlen; by eapply lookup_lt_Some|].
    exists v. unfold env. rewrite (Hlk j n v) by done. split; [done|].
    eapply Forall_forall in Hvals; [done|]. by eapply list_elem_of_lookup_2.
Qed.

(** C21: Matching then formatting is a round trip up to context, for a pattern
    without regular expression metacharacters in which no parameter occurs twice:
    the search is not anchored, so the matched key is the pattern formatted with
    the attributes of the match, possibly surrounded by other text, and every
    parameter has a valid value. *)
Theorem format_of_match (pattern key : string) (rkm : regexKeyMatcher) (m : extendedAttributes)
    (Hplain : plain_pattern pattern = true)
    (Hnew : newRegexKeyMatcher pattern = inr rkm)
    (Hnd : NoDup (params (pattern_segments pattern)))
    (Hmatch : match_ rkm key = Some m) :
  exists before t rest,
    formatPath pattern (finderAttributes m) = Some (t, true) /\ key = before +:+ t +:+ rest /\
    forall n, n ∈ params (pattern_segments pattern) ->
      exists v, FindAttribute m n = Some (Some v) /\ valid_value v = true.
Proof.
  pose proof (newRegexKeyMatcher_matcher_of _ _ Hplain Hnew) as Hmo.
  destruct (match_inv _ _ _ _ Hmo Hmatch Hnd) as (env & before & rest & -> & Hf & Hv).
  exists before, (render env (pattern_segments pattern)), rest. split_and!; [|done|].
  - rewrite (formatPath_eq _ _ env) by done. f_equal. f_equal. apply all_found_true.
    intros n (v & -> & _)%Hv. done.
  - intros n Hn. destruct (Hv n Hn) as (v & Hv1 & Hv2). exists v.
    rewrite (Hf n Hn). by rewrite Hv1.
Qed.

End matchers.

(** ** Prefixes *)
Lemma getPrefix_before `{Regexp} (rkm : regexKeyMatcher) :
  getPrefix rkm = before_sep (rkm_pattern rkm) colon.
Proof.
  unfold getPrefix, before_sep. pose proof (Cut_spec (rkm_pattern rkm) colon) as Hc.
  destruct (Cut (rkm_pattern rkm) colon) as [[b a] f]. destruct Hc as [Hb Hc]. simpl.
  destruct f.
  - destruct Hc as [-> _]. rewrite Index_app by done. by rewrite str_take_app.
  - destruct Hc as (-> & _ & _). rewrite (proj2 (Index_None b colon)) by done.
    rewrite <- (app_str_nil_r b) at 2. apply str_take_app.
Qed.

Lemma render_before_colon env segs :
  HasPrefix (render env segs) (before_sep (render (fun _ => None) segs) colon) = true.
Proof.
  induction segs as [|[l|n] segs IH]; simpl; [done| |].
  - change (String slash (l +:+ ?x)) with ((slash_str +:+ l) +:+ x).
    destruct (decide (colon ∈ chars (slash_str +:+ l))) as [Hin|Hnin].
    + rewrite before_sep_app_in by done.
      eapply HasPrefix_trans; [apply HasPrefix_app | apply before_sep_prefix].
    + rewrite before_sep_app_notin by done. by apply HasPrefix_app_mono.
  - change (before_sep _ _) with slash_str. apply HasPrefix_iff. by eexists.
Qed.

Section prefixes.
Context {R : Regexp} {RL : RegexpLaws R}.

Lemma canonical_eq pattern :
  canonical pattern = true -> render (fun _ => None) (pattern_segments pattern) = pattern.
Proof. unfold canonical. by rewrite bool_decide_eq_true. Qed.

Lemma Format_getPrefix pattern key rkm a :
  canonical pattern = true -> newRegexKeyMatcher pattern = inr rkm ->
  Format a pattern = Some key -> HasPrefix key (getPrefix rkm) = true.
Proof.
  intros Hc Hnew [_ ->]%Format_Some.
  rewrite getPrefix_before, (newRegexKeyMatcher_pattern _ _ Hnew).
  rewrite <- (canonical_eq pattern) at 2 by done. apply render_before_colon.
Qed.

End prefixes.

(** ** Constraint prefixes *)
(** The texts a list of character sets generates, in order. *)
Fixpoint words (sets : list (list Z)) : list string :=
  match sets with
  | [] => [EmptyString]
  | cs :: sets' => c ← cs; (fun w => rune_to_string c +:+ w) <$> words sets'
  end.

(** The constraint admits a value that begins with its prefix and one of its
    words. *)
Definition admits (constr : constraint) (v : string) : Prop :=
  exists w, w ∈ words (constr_chars constr) /\ HasPrefix v (constr_prefix constr +:+ w) = true.

Lemma fold_left_snoc {A B} (f : A -> B) (l : list A) (acc : list B) :
  fold_left (fun ps x => ps ++ [f x]) l acc = acc ++ (f <$> l).
Proof.
  revert acc. induction l as [|x l IH]; intros acc; simpl; [by rewrite app_nil_r|].
  rewrite IH, <- app_assoc. done.
Qed.

Lemma build_words fuel base index constr ps :
  index < length (constr_chars constr) -> length (constr_chars constr) <= index + fuel ->
  buildPrefixesFromConstraint fuel base index constr ps =
  Some (ps ++ ((fun w => base +:+ w) <$> words (drop index (constr_chars constr)))).
Proof.
  revert base index ps. induction fuel as [|fuel IH]; intros base index ps Hi Hf; [lia|].
  simpl. destruct (lookup_lt_is_Some_2 _ _ Hi) as [cs Hcs]. rewrite Hcs. simpl.
  rewrite (drop_S _ _ _ Hcs). cbn [words].
  case_decide as Hlast.
  - rewrite fold_left_snoc, drop_ge by lia. f_equal. f_equal. clear Hcs.
    induction cs as [|c cs IHc]; [done|]. rewrite fmap_cons, IHc. simpl. by rewrite app_str_nil_r.
  - clear Hcs. replace (index + 1) with (S index) in * by lia.
    revert ps. induction cs as [|c cs IHc]; intros ps; simpl; [by rewrite app_nil_r|].
    rewrite IH by lia. rewrite IHc. f_equal. rewrite fmap_app, <- app_assoc. f_equal. f_equal.
    rewrite <- list_fmap_compose. apply list_fmap_ext. intros i w _. simpl. by rewrite app_str_assoc.
Qed.

(** No literal segment contains a ':'. *)
Definition colon_free (segs : list segment) : bool :=
  forallb (fun seg => match seg with Lit l => bool_decide (colon ∉ chars l) | Param _ => true end) segs.

Lemma first_param segs :
  colon_free segs = true ->
  (params segs = [] /\ (colon ∉ chars (render (fun _ => None) segs))) \/
  exists lits n segs', segs = lits ++ Param n :: segs' /\ params lits = [] /\
    (colon ∉ chars (render (fun _ => None) lits)).
Proof.
  induction segs as [|[l|n] segs IH]; simpl.
  - left. split; [done|]. apply not_elem_of_nil.
  - rewrite andb_true_iff, bool_decide_eq_true. intros [Hl Hs]. specialize (IH Hs).
    assert (forall s, colon ∉ chars s -> colon ∉ chars (String slash (l +:+ s))) as Hcons.
    { intros s Hs'. change (chars (String slash ?x)) with (slash :: chars x).
      rewrite chars_app. set_unfold. naive_solver. }
    destruct IH as [[Hp Hc]|(lits & n & segs' & -> & Hp & Hc)].
    + left. split; [done|]. by apply Hcons.
    + right. exists (Lit l :: lits), n, segs'. split_and!; [done | done |]. by apply Hcons.
  - intros _. right. exists [], n, segs. split_and!; [done | done | apply not_elem_of_nil].
Qed.

Lemma pattern_segments_no_slash pattern n :
  Param n ∈ pattern_segments pattern -> slash ∉ chars n.
Proof.
  unfold pattern_segments, nonempty_parts. rewrite list_elem_of_fmap.
  intros (p & Hp & Hin%list_elem_of_filter). destruct Hin as [_ Hin].
  pose proof (Split_no_sep pattern slash) as Hns. rewrite Forall_forall in Hns.
  specialize (Hns p Hin). destruct (parse_segment_spec p) as [(n' & -> & Hps)|[_ Hps]];
    rewrite Hps in Hp; simplify_eq.
  unfold chars in *. simpl in Hns. by apply not_elem_of_cons in Hns as [_ ?].
Qed.

(** The name [getPrefixesWithConstraints] cuts out of the pattern. *)
Lemma attrName_eq H n T :
  slash ∉ chars n -> T = EmptyString \/ (exists u, T = String slash u) ->
  let pattern := H +:+ String colon (n +:+ T) in
  let firstColon := String.length H in
  let end_ := match Index (str_drop firstColon pattern) slash with
              | None => String.length pattern
              | Some e => firstColon + e
              end in
  str_take (end_ - (firstColon + 1)) (str_drop (firstColon + 1) pattern) = n.
Proof.
  intros Hn HT pattern firstColon.
  assert (str_drop (firstColon + 1) pattern = n +:+ T) as ->.
  { unfold pattern, firstColon. change (String colon ?x) with (colon_str +:+ x).
    rewrite <- app_str_assoc.
    replace (String.length H + 1) with (String.length (H +:+ colon_str))
      by (rewrite length_app_str; done). apply str_drop_app. }
  unfold pattern, firstColon. rewrite str_drop_app.
  assert (slash ∉ chars (String colon n)) as Hcn.
  { unfold chars in *. simpl. rewrite not_elem_of_cons. done. }
  destruct HT as [->|[u ->]]; simpl.
  - rewrite app_str_nil_r. rewrite (proj2 (Index_None n slash)) by done. simpl.
    rewrite length_app_str. simpl. rewrite <- (app_str_nil_r n) at 2.
    replace (String.length H + S (String.length n) - (String.length H + 1))
      with (String.length n) by lia. apply str_take_app.
  - rewrite Index_app by done. simpl.
    replace (String.length H + S (String.length n) - (String.length H + 1))
      with (String.length n) by lia. apply str_take_app.
Qed.

Lemma render_head env segs :
  render env segs = EmptyString \/ exists u, render env segs = String slash u.
Proof. destruct segs; simpl; eauto. Qed.

Section constraints.
Context {R : Regexp} {RL : RegexpLaws R}.

Lemma getPrefixesWithConstraints_none rkm constraints :
  (colon ∉ chars (rkm_pattern rkm)) ->
  getPrefixesWithConstraints rkm constraints = Some [getPrefix rkm].
Proof.
  intros Hc. unfold getPrefixesWithConstraints. by rewrite (proj2 (Index_None _ _) Hc).
Qed.

Lemma getPrefixesWithConstraints_param rkm constraints lits n segs' :
  rkm_pattern rkm = render (fun _ => None) (lits ++ Param n :: segs') ->
  (colon ∉ chars (render (fun _ => None) lits)) -> (slash ∉ chars n) ->
  getPrefixesWithConstraints rkm constraints =
  match constraints !! n with
  | None => Some [getPrefix rkm]
  | Some constr =>
    buildPrefixesFromConstraint (length (constr_chars constr))
      ((render (fun _ => None) lits +:+ slash_str) +:+ constr_prefix constr) 0 constr []
  end.
Proof.
  intros Hp Hc Hn. set (H := render (fun _ => None) lits +:+ slash_str).
  assert (rkm_pattern rkm = H +:+ String colon (n +:+ render (fun _ => None) segs')) as HH.
  { rewrite Hp, render_app. simpl. unfold H. by rewrite app_str_assoc. }
  assert (colon ∉ chars H) as HcH.
  { unfold H. rewrite chars_app. unfold slash_str, chars at 2. simpl. set_unfold. naive_solver. }
  unfold getPrefixesWithConstraints. rewrite HH, Index_app by done.
  rewrite attrName_eq by eauto using render_head. by rewrite str_take_app.
Qed.

(** The value of the first parameter, if that is constrained, is one the
    constraint admits. *)
Definition constraint_ok (constraints : gmap string constraint) (pattern : string)
    (a : extendedAttributes) : Prop :=
  forall n constr, head (params (pattern_segments pattern)) = Some n ->
    constraints !! n = Some constr -> exists v, FindAttribute a n = Some (Some v) /\ admits constr v.

Lemma prefixes_cover pattern key rkm a constraints ps :
  canonical pattern = true -> colon_free (pattern_segments pattern) = true ->
  newRegexKeyMatcher pattern = inr rkm -> getPrefixesWithConstraints rkm constraints = Some ps ->
  constraint_ok constraints pattern a -> Format a pattern = Some key ->
  exists p, p ∈ ps /\ HasPrefix key p = true.
Proof.
  intros Hcan Hcf Hnew Hps Hadm Hfmt.
  pose proof (Format_getPrefix _ _ _ _ Hcan Hnew Hfmt) as Hpre.
  apply Format_Some in Hfmt as [Hfinds Hkey]. pose proof (canonical_eq _ Hcan) as Heq.
  pose proof (newRegexKeyMatcher_pattern _ _ Hnew) as Hpat.
  destruct (first_param _ Hcf) as [[Hnil Hc]|(lits & n & segs' & Hsegs & Hlits & Hc)].
  - rewrite getPrefixesWithConstraints_none in Hps by congruence. simplify_eq.
    exists (getPrefix rkm). set_solver.
  - assert (slash ∉ chars n) as Hn.
    { apply (pattern_segments_no_slash pattern). rewrite Hsegs. set_solver. }
    rewrite (getPrefixesWithConstraints_param _ _ lits n segs') in Hps by congruence.
    assert (params (pattern_segments pattern) = n :: params segs') as Hpar.
    { rewrite Hsegs. unfold params in *. by rewrite omap_app, Hlits. }
    destruct (constraints !! n) as [constr|] eqn:Hconstr; [|simplify_eq; exists (getPrefix rkm); set_solver].
    destruct (Hadm n constr) as (v & Hv & w & Hw & Hvw); [by rewrite Hpar | done |].
    destruct (constr_chars constr) as [|cs css] eqn:Hcs; [done|].
    rewrite build_words in Hps by (rewrite Hcs; simpl; lia). injection Hps as <-.
    eexists. split; [simpl; apply list_elem_of_fmap; exists w; rewrite drop_0, Hcs; done|].
    rewrite Hkey, Hsegs, render_app. simpl. rewrite Hv. simpl.
    rewrite (render_ext _ (fun _ => None) lits) by (rewrite Hlits; set_solver).
    rewrite !app_str_assoc. apply HasPrefix_app_mono. simpl.
    apply (HasPrefix_app_mono slash_str).
    eapply HasPrefix_trans; [apply HasPrefix_app|]. done.
Qed.

End constraints.
