(* ===== verification/StaticRule.v ===== *)
(** * Static rules (rules/static_rule.go) *)
(** A static rule is a boolean expression over concrete etcd keys.  It is
    evaluated against a [readAPI] ([satisfied]) and asked whether a changed
    key/value pair can matter to it ([keyMatch], [satisfiable],
    [qSatisfiable]). *)
From S2P Require Import Prelude GoString Attributes.

(** ** The data *)
Inductive quadState := qTrue | qFalse | qMaybe | qNone.

#[export] Instance quadState_eq_dec : EqDecision quadState.
Proof. solve_decision. Defined.

(** [get] of the interface [readAPI]: a value, nil for a missing key, or an
    error.  Rules are only ever evaluated against an API that reads from a
    map, so [get] is a function. *)
Definition readAPI := string -> result (option string).

Inductive staticRule :=
| compareLiteralRule (attr : extendedAttributes) (key : string)
    (comparator : option string -> bool) (stringTemplate : string)
| andStaticRule (nestedRules : list staticRule)
| orStaticRule (nestedRules : list staticRule)
| notStaticRule (rule : staticRule)
| equalsRule (attr : extendedAttributes) (keys : list string).

Inductive ruleFactory :=
| compareLiteralRuleFactory (comparator : option string -> bool) (stringTemplate : string)
| equalsRuleFactory.

(** ** Constructors *)
Definition newEqualsComparator (value comparedValue : option string) : bool :=
  match value with
  | None => bool_decide (comparedValue = None)
  | Some v => match comparedValue with Some c => bool_decide (c = v) | None => false end
  end.

(** [keys[0]] panics on an empty slice. *)
Definition compareLiteralRule_newRule (comparator : option string -> bool) (stringTemplate : string)
    (keys : list string) (attr : extendedAttributes) : option staticRule :=
  key ← head keys; Some (compareLiteralRule attr key comparator stringTemplate).
#[global] Arguments compareLiteralRule_newRule _ _ _ _ /.

Definition equalsRule_newRule (keys : list string) (attr : extendedAttributes) : option staticRule :=
  Some (equalsRule attr keys).
#[global] Arguments equalsRule_newRule _ _ /.

Definition newRule (f : ruleFactory) (keys : list string) (attr : extendedAttributes) :
    option staticRule :=
  match f with
  | compareLiteralRuleFactory comparator stringTemplate =>
    compareLiteralRule_newRule comparator stringTemplate keys attr
  | equalsRuleFactory => equalsRule_newRule keys attr
  end.

(** ** Loops over nested rules *)
Section loops.
Context {A : Type}.

Section satisfied_loops.
Variable satisfied : A -> result bool.

Fixpoint and_loop (rules : list A) : result bool :=
  match rules with
  | [] => inr true
  | rule :: rules' =>
    match satisfied rule with
    | inl err => inl err
    | inr false => inr false
    | inr true => and_loop rules'
    end
  end.

Fixpoint or_loop (rules : list A) : result bool :=
  match rules with
  | [] => inr false
  | rule :: rules' =>
    match satisfied rule with
    | inl err => inl err
    | inr true => inr true
    | inr false => or_loop rules'
    end
  end.
End satisfied_loops.

(** The flags [anyTrue], [anyMaybe] and [anyFalse] the loops of the two
    [qSatisfiable] methods compute. *)
Section quad_loop.
Variable qSatisfiable : A -> quadState.

Fixpoint quad_loop (anyTrue anyMaybe anyFalse : bool) (rules : list A) : bool * bool * bool :=
  match rules with
  | [] => (anyTrue, anyMaybe, anyFalse)
  | rule :: rules' =>
    match qSatisfiable rule with
    | qTrue => quad_loop true anyMaybe anyFalse rules'
    | qMaybe => quad_loop anyTrue true anyFalse rules'
    | qFalse => quad_loop anyTrue anyMaybe true rules'
    | qNone => quad_loop anyTrue anyMaybe anyFalse rules'
    end
  end.
End quad_loop.
End loops.

(** ** The methods of leaves and negations *)
(** [elr_key] is the field [key] of the rule, the other key the changed one. *)
Definition compareLiteralRule_keyMatch (elr_key key : string) : bool := bool_decide (elr_key = key).

Definition compareLiteralRule_satisfiable (elr_key key : string) : bool := bool_decide (key = elr_key).

Definition compareLiteralRule_qSatisfiable (elr_key : string) (comparator : option string -> bool)
    (key : string) (value : option string) : quadState :=
  if decide (key <> elr_key) then qNone
  else if comparator value then qTrue
  else qFalse.

Definition compareLiteralRule_satisfied (elr_key : string) (comparator : option string -> bool)
    (api : readAPI) : result bool :=
  match api elr_key with
  | inl err => inl err
  | inr value => inr (comparator value)
  end.

Definition equalsRule_keyMatch (keys : list string) (key : string) : bool :=
  if decide (length keys = 0) then true
  else existsb (fun ruleKey => bool_decide (key = ruleKey)) keys.

Definition equalsRule_qSatisfiable (keys : list string) (key : string) : quadState :=
  if equalsRule_keyMatch keys key then qMaybe else qNone.

(** The loop of [equalsRule.satisfied] over the keys after the first. *)
Fixpoint equals_loop (api : readAPI) (ref : option string) (keys : list string) : result bool :=
  match keys with
  | [] => inr true
  | key :: keys' =>
    match api key with
    | inl err2 => inl err2
    | inr None => match ref with
                  | Some _ => inr false
                  | None => equals_loop api ref keys'
                  end
    | inr (Some value) =>
      match ref with
      | None => inr false
      | Some r => if decide (r <> value) then inr false else equals_loop api ref keys'
      end
    end
  end.

Definition equalsRule_satisfied (keys : list string) (api : readAPI) : result bool :=
  match keys with
  | [] => inr true
  | key :: keys' =>
    match api key with
    | inl err1 => inl err1
    | inr ref => equals_loop api ref keys'
    end
  end.

Definition notStaticRule_qSatisfiable (nqs : quadState) : quadState :=
  match nqs with
  | qMaybe => qMaybe
  | qTrue => qFalse
  | qFalse => qTrue
  | qNone => qNone
  end.

(** The results of the two [qSatisfiable] methods from their flags. *)
Definition andStaticRule_result (flags : bool * bool * bool) : quadState :=
  let '(anyTrue, anyMaybe, anyFalse) := flags in
  if anyFalse then qFalse else if anyTrue then qTrue else if anyMaybe then qMaybe else qNone.

Definition orStaticRule_result (flags : bool * bool * bool) : quadState :=
  let '(anyTrue, anyMaybe, anyFalse) := flags in
  if anyTrue then qTrue else if anyMaybe then qMaybe else if anyFalse then qFalse else qNone.

#[global] Arguments compareLiteralRule_keyMatch _ _ /.
#[global] Arguments compareLiteralRule_satisfiable _ _ /.
#[global] Arguments compareLiteralRule_qSatisfiable _ _ _ _ /.
#[global] Arguments compareLiteralRule_satisfied _ _ _ /.
#[global] Arguments equalsRule_keyMatch _ _ /.
#[global] Arguments equalsRule_qSatisfiable _ _ /.
#[global] Arguments equalsRule_satisfied _ _ /.
#[global] Arguments notStaticRule_qSatisfiable _ /.
#[global] Arguments andStaticRule_result _ /.
#[global] Arguments orStaticRule_result _ /.

(** ** The methods *)
Fixpoint getAttributes (r : staticRule) : option extendedAttributes :=
  match r with
  | compareLiteralRule attr _ _ _ => Some attr
  | andStaticRule nestedRules | orStaticRule nestedRules =>
    match nestedRules with
    | rule :: _ => getAttributes rule
    | [] => None
    end
  | notStaticRule rule => getAttributes rule
  | equalsRule attr _ => Some attr
  end.

Fixpoint getKeys (r : staticRule) : list string :=
  match r with
  | compareLiteralRule _ key _ _ => [key]
  | andStaticRule nestedRules | orStaticRule nestedRules => flat_map getKeys nestedRules
  | notStaticRule rule => getKeys rule
  | equalsRule _ keys => keys
  end.

Fixpoint keyMatch (r : staticRule) (key : string) : bool :=
  match r with
  | compareLiteralRule _ k _ _ => compareLiteralRule_keyMatch k key
  | andStaticRule nestedRules | orStaticRule nestedRules =>
    existsb (fun rule => keyMatch rule key) nestedRules
  | notStaticRule rule => keyMatch rule key
  | equalsRule _ keys => equalsRule_keyMatch keys key
  end.

Fixpoint satisfiable (r : staticRule) (key : string) (value : option string) : bool :=
  match r with
  | compareLiteralRule _ k _ _ => compareLiteralRule_satisfiable k key
  | andStaticRule nestedRules | orStaticRule nestedRules =>
    existsb (fun rule => satisfiable rule key value) nestedRules
  | notStaticRule rule => keyMatch rule key
  | equalsRule _ keys => equalsRule_keyMatch keys key
  end.

Fixpoint qSatisfiable (r : staticRule) (key : string) (value : option string) : quadState :=
  match r with
  | compareLiteralRule _ k comparator _ => compareLiteralRule_qSatisfiable k comparator key value
  | andStaticRule nestedRules =>
    andStaticRule_result (quad_loop (fun rule => qSatisfiable rule key value) false false false nestedRules)
  | orStaticRule nestedRules =>
    orStaticRule_result (quad_loop (fun rule => qSatisfiable rule key value) false false false nestedRules)
  | notStaticRule rule => notStaticRule_qSatisfiable (qSatisfiable rule key value)
  | equalsRule _ keys => equalsRule_qSatisfiable keys key
  end.

Fixpoint satisfied (r : staticRule) (api : readAPI) : result bool :=
  match r with
  | compareLiteralRule _ key comparator _ => compareLiteralRule_satisfied key comparator api
  | andStaticRule nestedRules => and_loop (fun rule => satisfied rule api) nestedRules
  | orStaticRule nestedRules => or_loop (fun rule => satisfied rule api) nestedRules
  | notStaticRule rule =>
    match satisfied rule api with
    | inl err => inl err
    | inr sat => inr (negb sat)
    end
  | equalsRule _ keys => equalsRule_satisfied keys api
  end.

(** ** Induction on rules *)
Section staticRule_ind.
Variable P : staticRule -> Prop.
Hypothesis Hcompare : forall attr key cmp tmpl, P (compareLiteralRule attr key cmp tmpl).
Hypothesis Hand : forall rs, Forall P rs -> P (andStaticRule rs).
Hypothesis Hor : forall rs, Forall P rs -> P (orStaticRule rs).
Hypothesis Hnot : forall r, P r -> P (notStaticRule r).
Hypothesis Hequals : forall attr keys, P (equalsRule attr keys).

Fixpoint staticRule_nested_ind (r : staticRule) : P r :=
  let fix go (rs : list staticRule) : Forall P rs :=
    match rs with
    | [] => Forall_nil_2 P
    | r' :: rs' => Forall_cons_2 P r' rs' (staticRule_nested_ind r') (go rs')
    end in
  match r with
  | compareLiteralRule attr key cmp tmpl => Hcompare attr key cmp tmpl
  | andStaticRule rs => Hand rs (go rs)
  | orStaticRule rs => Hor rs (go rs)
  | notStaticRule r' => Hnot r' (staticRule_nested_ind r')
  | equalsRule attr keys => Hequals attr keys
  end.
End staticRule_ind.

(** ** What a rule means *)
(** The truth of a rule in a store, without errors or evaluation order. *)
Fixpoint holds (store : string -> option string) (r : staticRule) : bool :=
  match r with
  | compareLiteralRule _ key cmp _ => cmp (store key)
  | andStaticRule rs => forallb (holds store) rs
  | orStaticRule rs => existsb (holds store) rs
  | notStaticRule r' => negb (holds store r')
  | equalsRule _ keys =>
    match keys with
    | [] => true
    | k :: keys' => forallb (fun k' => bool_decide (store k' = store k)) keys'
    end
  end.

(** The keys on which two APIs must agree for a rule not to tell them apart. *)
Definition api_agree (api1 api2 : readAPI) (ks : list string) : Prop :=
  forall k, k ∈ ks -> api1 k = api2 k.

Lemma api_agree_app api1 api2 ks1 ks2 :
  api_agree api1 api2 (ks1 ++ ks2) <-> api_agree api1 api2 ks1 /\ api_agree api1 api2 ks2.
Proof. unfold api_agree. set_solver. Qed.

Lemma api_agree_cons api1 api2 k ks :
  api_agree api1 api2 (k :: ks) <-> api1 k = api2 k /\ api_agree api1 api2 ks.
Proof. unfold api_agree. set_solver. Qed.

Lemma equals_loop_agree api1 api2 ref ks :
  api_agree api1 api2 ks -> equals_loop api1 ref ks = equals_loop api2 ref ks.
Proof.
  induction ks as [|k ks IH]; simpl; [done|]. rewrite api_agree_cons. intros [-> Hks].
  by rewrite (IH Hks).
Qed.

Lemma loops_agree (f g : staticRule -> result bool) rs :
  Forall (fun r => f r = g r) rs -> and_loop f rs = and_loop g rs /\ or_loop f rs = or_loop g rs.
Proof.
  induction 1 as [|r rs Hr _ [IHa IHo]]; simpl; [done|]. by rewrite Hr, IHa, IHo.
Qed.

Lemma nested_agree api1 api2 rs (P : staticRule -> Prop) :
  Forall (fun r => api_agree api1 api2 (getKeys r) -> P r) rs ->
  api_agree api1 api2 (flat_map getKeys rs) -> Forall P rs.
Proof.
  induction 1 as [|r rs Hr _ IH]; simpl; [done|]. rewrite api_agree_app. intros [H1 H2].
  constructor; auto.
Qed.

Lemma satisfied_agree (r : staticRule) (api1 api2 : readAPI) :
  api_agree api1 api2 (getKeys r) -> satisfied r api1 = satisfied r api2.
Proof.
  induction r as [attr key cmp tmpl|rs IH|rs IH|r IH|attr keys] using staticRule_nested_ind;
    simpl; intros Hag.
  - by rewrite (Hag key) by set_solver.
  - eapply loops_agree, nested_agree; [exact IH | done].
  - eapply loops_agree, nested_agree; [exact IH | done].
  - by rewrite IH.
  - destruct keys as [|k keys]; [done|]. apply api_agree_cons in Hag as [-> Hag].
    destruct (api2 k); [done|]. by apply equals_loop_agree.
Qed.

Lemma equals_loop_store store ref ks :
  equals_loop (fun k => inr (store k)) ref ks =
  inr (forallb (fun k => bool_decide (store k = ref)) ks).
Proof.
  induction ks as [|k ks IH]; simpl; [done|].
  destruct (store k) as [v|] eqn:Hk, ref as [r|]; simpl; try case_decide;
    repeat case_bool_decide; simplify_eq; simpl; auto.
Qed.

Lemma loops_store (f : staticRule -> result bool) (g : staticRule -> bool) rs :
  Forall (fun r => f r = inr (g r)) rs ->
  and_loop f rs = inr (forallb g rs) /\ or_loop f rs = inr (existsb g rs).
Proof.
  induction 1 as [|r rs Hr _ [IHa IHo]]; simpl; [done|]. rewrite Hr, IHa, IHo.
  by destruct (g r).
Qed.

Lemma satisfied_store (r : staticRule) (store : string -> option string) :
  satisfied r (fun k => inr (store k)) = inr (holds store r).
Proof.
  induction r as [attr key cmp tmpl|rs IH|rs IH|r IH|attr keys] using staticRule_nested_ind; simpl.
  - done.
  - by apply loops_store.
  - by apply loops_store.
  - by rewrite IH.
  - destruct keys as [|k keys]; [done|]. apply equals_loop_store.
Qed.

(** C22: Evaluating a rule computes its truth in the store: when the API answers
    every key the rule mentions with the value in a store, [satisfied] returns
    no error and exactly the boolean the rule denotes there. *)
Theorem satisfied_denotes (r : staticRule) (api : readAPI) (store : string -> option string)
    (Hapi : forall k, k ∈ getKeys r -> api k = inr (store k)) :
  satisfied r api = inr (holds store r).
Proof. rewrite <- satisfied_store. by apply satisfied_agree. Qed.

(** ** Errors *)
Lemma equals_loop_err api ref ks e :
  equals_loop api ref ks = inl e -> exists k, k ∈ ks /\ api k = inl e.
Proof.
  induction ks as [|k ks IH]; simpl; [done|].
  destruct (api k) as [e'|[v|]] eqn:Hk.
  - intros [= ->]. exists k. set_solver.
  - destruct ref; [|done]. case_decide; [done|]. intros (k' & ? & ?)%IH. exists k'. set_solver.
  - destruct ref; [done|]. intros (k' & ? & ?)%IH. exists k'. set_solver.
Qed.

Lemma loops_err (f : staticRule -> result bool) rs e :
  and_loop f rs = inl e \/ or_loop f rs = inl e -> exists r, r ∈ rs /\ f r = inl e.
Proof.
  induction rs as [|r rs IH]; simpl; [naive_solver|].
  destruct (f r) as [e'|[|]] eqn:Hr.
  - intros [[= ->]|[= ->]]; exists r; set_solver.
  - intros [H|H]; [|done]. destruct IH as (r' & ? & ?); [auto|]. exists r'. set_solver.
  - intros [H|H]; [done|]. destruct IH as (r' & ? & ?); [auto|]. exists r'. set_solver.
Qed.

Lemma nested_err rs (Q : string -> Prop) r :
  r ∈ rs -> (exists k, k ∈ getKeys r /\ Q k) -> exists k, k ∈ flat_map getKeys rs /\ Q k.
Proof.
  intros Hr (k & Hk & HQ). exists k. split; [|done]. apply list_elem_of_In, in_flat_map.
  exists r. split; by apply list_elem_of_In.
Qed.

(** An error of [satisfied] is the API's own error for a key of the rule. *)
Theorem satisfied_error (r : staticRule) (api : readAPI) (e : string)
    (Herr : satisfied r api = inl e) :
  exists k, k ∈ getKeys r /\ api k = inl e.
Proof.
  revert Herr.
  induction r as [attr key cmp tmpl|rs IH|rs IH|r IH|attr keys] using staticRule_nested_ind; simpl.
  - destruct (api key) eqn:Hk; [|done]. intros [= ->]. exists key. set_solver.
  - intros Hl. destruct (loops_err (fun r => satisfied r api) rs e) as (r & Hr & He); [auto|].
    rewrite Forall_forall in IH. eapply nested_err; eauto.
  - intros Hl. destruct (loops_err (fun r => satisfied r api) rs e) as (r & Hr & He); [auto|].
    rewrite Forall_forall in IH. eapply nested_err; eauto.
  - destruct (satisfied r api); [|done]. intros [= ->]. auto.
  - destruct keys as [|k keys]; [done|]. destruct (api k) eqn:Hk.
    + intros [= ->]. exists k. set_solver.
    + intros (k' & ? & ?)%equals_loop_err. exists k'. set_solver.
Qed.

(** ** Which keys matter to a rule *)
(** No [equals] rule without keys (the constructors of dynamic rules make
    none from non-empty pattern lists). *)
Fixpoint has_keys (r : staticRule) : bool :=
  match r with
  | compareLiteralRule _ _ _ _ => true
  | andStaticRule rs | orStaticRule rs => forallb has_keys rs
  | notStaticRule r' => has_keys r'
  | equalsRule _ keys => bool_decide (keys <> [])
  end.

Lemma existsb_bool_decide_eq (k : string) ks :
  existsb (fun k' => bool_decide (k = k')) ks = bool_decide (k ∈ ks).
Proof.
  induction ks as [|k' ks IH]; simpl; [done|]. rewrite IH.
  repeat case_bool_decide; simpl; set_solver.
Qed.

Lemma keyMatch_getKeys (r : staticRule) (key : string) :
  has_keys r = true -> keyMatch r key = bool_decide (key ∈ getKeys r).
Proof.
  assert (forall rs, Forall (fun r => has_keys r = true -> keyMatch r key = bool_decide (key ∈ getKeys r)) rs ->
            forallb has_keys rs = true ->
            existsb (fun r => keyMatch r key) rs = bool_decide (key ∈ flat_map getKeys rs)) as Hnested.
  { induction 1 as [|r' rs Hr _ IH]; simpl; [done|].
    rewrite andb_true_iff. intros [H1 H2]. rewrite Hr, IH by done.
    repeat case_bool_decide; simpl; set_solver. }
  induction r as [attr k cmp tmpl|rs IH|rs IH|r IH|attr keys] using staticRule_nested_ind; simpl.
  - intros _. repeat case_bool_decide; set_solver.
  - by apply Hnested.
  - by apply Hnested.
  - done.
  - rewrite bool_decide_eq_true. intros Hk. destruct keys as [|k keys]; [done|].
    rewrite decide_False by done. apply existsb_bool_decide_eq.
Qed.

Lemma satisfiable_keyMatch (r : staticRule) key value : satisfiable r key value = keyMatch r key.
Proof.
  assert (forall rs, Forall (fun r => satisfiable r key value = keyMatch r key) rs ->
            existsb (fun r => satisfiable r key value) rs = existsb (fun r => keyMatch r key) rs) as Hnested.
  { induction 1 as [|r' rs Hr _ IH]; simpl; [done|]. by rewrite Hr, IH. }
  induction r as [attr k cmp tmpl|rs IH|rs IH|r IH|attr keys] using staticRule_nested_ind; simpl; auto.
  repeat case_bool_decide; congruence.
Qed.

(** ** The four-valued filter *)
Definition q_is (q x : quadState) : bool := bool_decide (q = x).

Lemma quad_loop_eq {A} (q : A -> quadState) t m f rs :
  quad_loop q t m f rs =
  (t || existsb (fun r => q_is (q r) qTrue) rs,
   m || existsb (fun r => q_is (q r) qMaybe) rs,
   f || existsb (fun r => q_is (q r) qFalse) rs).
Proof.
  revert t m f. induction rs as [|r rs IH]; intros t m f; simpl; [by rewrite !orb_false_r|].
  destruct (q r) eqn:E; rewrite IH; unfold q_is; simpl; by rewrite ?orb_true_l, ?orb_true_r, ?orb_assoc.
Qed.

(** The filter lets a rule through. *)
Definition q_pass (q : quadState) : bool := q_is q qTrue || q_is q qMaybe.

Lemma existsb_false_Forall {A} (f : A -> bool) l :
  existsb f l = false <-> Forall (fun x => f x = false) l.
Proof.
  induction l as [|x l IH]; simpl; [done|]. rewrite orb_false_iff, IH, Forall_cons. done.
Qed.

Lemma quad_all_none (rs : list staticRule) (q : staticRule -> quadState) :
  existsb (fun r => q_is (q r) qTrue) rs = false ->
  existsb (fun r => q_is (q r) qMaybe) rs = false ->
  existsb (fun r => q_is (q r) qFalse) rs = false -> Forall (fun r => q r = qNone) rs.
Proof.
  rewrite !existsb_false_Forall, !Forall_forall. intros Ht Hm Hf r Hr.
  specialize (Ht r Hr). specialize (Hm r Hr). specialize (Hf r Hr). by destruct (q r).
Qed.

Lemma quad_some_not_none (rs : list staticRule) (q : staticRule -> quadState) x :
  existsb (fun r => q_is (q r) x) rs = true -> x <> qNone -> ~ Forall (fun r => q r = qNone) rs.
Proof.
  intros Hex Hx Hall. apply existsb_exists in Hex as (r & Hr%list_elem_of_In & He).
  rewrite Forall_forall in Hall. unfold q_is in He. rewrite bool_decide_eq_true in He.
  rewrite Hall in He by done. congruence.
Qed.

(** Both compound forms answer [qNone] exactly when every nested rule does. *)
Lemma quad_compound_none (rs : list staticRule) (q : staticRule -> quadState) :
  (let '(anyTrue, anyMaybe, anyFalse) := quad_loop q false false false rs in
   (if anyFalse then qFalse else if anyTrue then qTrue else if anyMaybe then qMaybe else qNone) = qNone)
  <-> Forall (fun r => q r = qNone) rs.
Proof.
  rewrite quad_loop_eq. simpl.
  destruct (existsb (fun r => q_is (q r) qFalse) rs) eqn:Hf.
  { apply quad_some_not_none in Hf; [|done]. naive_solver. }
  destruct (existsb (fun r => q_is (q r) qTrue) rs) eqn:Ht.
  { apply quad_some_not_none in Ht; [|done]. naive_solver. }
  destruct (existsb (fun r => q_is (q r) qMaybe) rs) eqn:Hm.
  { apply quad_some_not_none in Hm; [|done]. naive_solver. }
  split; [|done]. intros _. by apply quad_all_none.
Qed.

Lemma quad_or_and_none (anyTrue anyMaybe anyFalse : bool) :
  ((if anyTrue then qTrue else if anyMaybe then qMaybe else if anyFalse then qFalse else qNone) = qNone)
  <-> ((if anyFalse then qFalse else if anyTrue then qTrue else if anyMaybe then qMaybe else qNone) = qNone).
Proof. by destruct anyTrue, anyMaybe, anyFalse. Qed.

Lemma qSatisfiable_none (r : staticRule) key value :
  qSatisfiable r key value = qNone <-> keyMatch r key = false.
Proof.
  assert (forall rs, Forall (fun r => qSatisfiable r key value = qNone <-> keyMatch r key = false) rs ->
            Forall (fun r => qSatisfiable r key value = qNone) rs <->
            existsb (fun r => keyMatch r key) rs = false) as Hnested.
  { intros rs. rewrite existsb_false_Forall, !Forall_forall. naive_solver. }
  induction r as [attr k cmp tmpl|rs IH|rs IH|r IH|attr keys] using staticRule_nested_ind.
  - simpl. case_decide as Hk; [by rewrite bool_decide_eq_false_2 by congruence|].
    subst. rewrite bool_decide_eq_true_2 by done. by destruct (cmp value).
  - simpl. rewrite <- Hnested by done. rewrite <- quad_compound_none.
    by destruct (quad_loop _ _ _ _ _) as [[? ?] ?].
  - simpl. rewrite <- Hnested by done. rewrite <- quad_compound_none.
    destruct (quad_loop _ _ _ _ _) as [[? ?] ?]. apply quad_or_and_none.
  - simpl. rewrite <- IH. by destruct (qSatisfiable r key value).
  - simpl. case_decide; [done|]. by destruct (existsb _ keys).
Qed.

(** The enhanced filter only drops rules: whatever passes [qSatisfiable]
    also passes the plain filter [satisfiable], and it answers [qNone] exactly
    for the keys the plain filter rejects. *)
Theorem enhanced_filter_refines (r : staticRule) (key : string) (value : option string) :
  (q_pass (qSatisfiable r key value) = true -> satisfiable r key value = true) /\
  (qSatisfiable r key value = qNone <-> satisfiable r key value = false).
Proof.
  rewrite satisfiable_keyMatch, qSatisfiable_none. split; [|done].
  intros Hp. destruct (keyMatch r key) eqn:E; [done|].
  apply (qSatisfiable_none r key value) in E. by rewrite E in Hp.
Qed.

(** *** When the enhanced filter misses nothing *)
(** With [pos = true], conjunctions of literals; with [pos = false],
    disjunctions of literals.  A negation switches between the two. *)
Fixpoint junction (pos : bool) (r : staticRule) : bool :=
  match r with
  | compareLiteralRule _ _ _ _ | equalsRule _ _ => true
  | andStaticRule rs => pos && forallb (junction pos) rs
  | orStaticRule rs => negb pos && forallb (junction pos) rs
  | notStaticRule r' => junction (negb pos) r'
  end.

(** Disjunctions of conjunctions that mention a key. *)
Fixpoint dnf (r : staticRule) : bool :=
  match r with
  | orStaticRule rs => forallb dnf rs
  | _ => junction true r && bool_decide (getKeys r <> []) && has_keys r
  end.

(** The answers that do not contradict [pos]. *)
Definition q_agrees (pos : bool) (q : quadState) : Prop :=
  q = qNone \/ q = qMaybe \/ q = (if pos then qTrue else qFalse).

Lemma q_agrees_forall pos x (q : staticRule -> quadState) rs :
  Forall (fun r => q_agrees pos (q r)) rs ->
  x <> qNone -> x <> qMaybe -> x <> (if pos then qTrue else qFalse) ->
  existsb (fun r => q_is (q r) x) rs = false.
Proof.
  intros Hall ? ? ?. apply existsb_false_Forall. eapply Forall_impl; [exact Hall|].
  unfold q_agrees, q_is. intros r [->|[->| ->]]; by apply bool_decide_eq_false_2.
Qed.

Lemma Forall_forallb_impl {A} (P : A -> Prop) (f g : A -> bool) b l :
  Forall (fun x => f x = true -> g x = b -> P x) l ->
  forallb f l = true -> Forall (fun x => g x = b) l -> Forall P l.
Proof.
  induction 1 as [|x l Hx _ IH]; simpl; [by constructor|].
  rewrite andb_true_iff, Forall_cons. intros [??] [??]. constructor; auto.
Qed.

Lemma junction_agrees (r : staticRule) store key pos :
  junction pos r = true -> holds store r = pos -> q_agrees pos (qSatisfiable r key (store key)).
Proof.
  revert pos.
  induction r as [attr k cmp tmpl|rs IH|rs IH|r IH|attr keys] using staticRule_nested_ind; intros pos.
  - simpl. intros _ <-. unfold q_agrees. case_decide; subst; [by auto|].
    destruct (cmp (store k)); auto.
  - simpl. rewrite andb_true_iff. intros [-> Hj] Hh. rewrite quad_loop_eq. simpl.
    assert (Forall (fun r => q_agrees true (qSatisfiable r key (store key))) rs) as Hall.
    { eapply (Forall_forallb_impl _ (junction true) (holds store) true); [|done|].
      - eapply Forall_impl; [exact IH|]. simpl. eauto.
      - apply Forall_forall. intros r Hr. rewrite forallb_forall in Hh.
        apply Hh. by apply list_elem_of_In. }
    rewrite (q_agrees_forall true qFalse) by done.
    unfold q_agrees. repeat case_match; auto.
  - simpl. rewrite andb_true_iff. intros [Hpos Hj] Hh. apply negb_true_iff in Hpos as ->.
    rewrite quad_loop_eq. simpl.
    assert (Forall (fun r => q_agrees false (qSatisfiable r key (store key))) rs) as Hall.
    { eapply (Forall_forallb_impl _ (junction false) (holds store) false); [|done|].
      - eapply Forall_impl; [exact IH|]. simpl. eauto.
      - by apply existsb_false_Forall. }
    rewrite (q_agrees_forall false qTrue) by done.
    unfold q_agrees. repeat case_match; auto.
  - simpl. intros Hj Hh.
    destruct (IH (negb pos) Hj) as [->|[->| ->]]; [by destruct (holds store r), pos | | |];
      unfold q_agrees; destruct pos; auto.
  - simpl. unfold q_agrees. intros _ _. case_decide; [auto|]. case_match; auto.
Qed.

(** In a satisfied conjunction every key it mentions passes the filter. *)
Lemma conjunction_pass (r : staticRule) store key :
  junction true r = true -> has_keys r = true -> holds store r = true -> key ∈ getKeys r ->
  q_pass (qSatisfiable r key (store key)) = true.
Proof.
  intros Hj Hk Hh Hin. destruct (junction_agrees r store key true Hj Hh) as [Hn|[->| ->]]; [|done..].
  apply qSatisfiable_none in Hn. rewrite keyMatch_getKeys in Hn by done.
  by rewrite bool_decide_eq_true_2 in Hn.
Qed.

Lemma or_pass rs key value :
  q_pass (qSatisfiable (orStaticRule rs) key value) =
  existsb (fun r => q_pass (qSatisfiable r key value)) rs.
Proof.
  simpl. rewrite quad_loop_eq. simpl.
  assert (existsb (fun r => q_pass (qSatisfiable r key value)) rs =
          existsb (fun r => q_is (qSatisfiable r key value) qTrue) rs ||
          existsb (fun r => q_is (qSatisfiable r key value) qMaybe) rs) as ->.
  { induction rs as [|r rs IH]; simpl; [done|]. rewrite IH. unfold q_pass.
    destruct (q_is _ qTrue), (q_is _ qMaybe); simpl; by rewrite ?orb_true_r. }
  by repeat case_match.
Qed.

(** C33: The enhanced filter is complete for rules in disjunctive normal form:
    if such a rule is true in the store, some key it mentions passes the
    filter with its current value, so the rule is not missed by the crawler. *)
Theorem enhanced_filter_complete (r : staticRule) (store : string -> option string)
    (Hdnf : dnf r = true) (Hholds : holds store r = true) :
  exists key, key ∈ getKeys r /\ q_pass (qSatisfiable r key (store key)) = true.
Proof.
  revert Hdnf Hholds.
  assert (forall r, junction true r && bool_decide (getKeys r <> []) && has_keys r = true ->
            holds store r = true ->
            exists key, key ∈ getKeys r /\ q_pass (qSatisfiable r key (store key)) = true) as Hconj.
  { clear r. intros r. rewrite !andb_true_iff, bool_decide_eq_true. intros [[Hj Hne] Hk] Hh.
    destruct (getKeys r) as [|k ks] eqn:E; [done|]. exists k. split; [set_solver|].
    apply conjunction_pass; [done..|]. rewrite E. set_solver. }
  induction r as [attr k cmp tmpl|rs IH|rs IH|r IH|attr keys] using staticRule_nested_ind;
    [by apply Hconj..| | |].
  - intros Hd Hh. simpl in Hd, Hh. apply existsb_exists in Hh as (r & Hr & Hh).
    rewrite forallb_forall in Hd. specialize (Hd r Hr). rewrite Forall_forall in IH.
    destruct (IH r) as (key & Hk & Hp); [by apply list_elem_of_In|done..|].
    exists key. split.
    + simpl. apply list_elem_of_In, in_flat_map. exists r. split; [done|]. by apply list_elem_of_In.
    + rewrite or_pass. apply existsb_exists. eauto.
  - apply Hconj.
  - apply Hconj.
Qed.

(** *** A rule the enhanced filter misses *)
Definition lit_rule (key value : string) : staticRule :=
  compareLiteralRule (mapAttributes ∅) key (newEqualsComparator (Some value)) EmptyString.

(** ((k = v OR j = w') AND (k = v' OR j = w)) *)
Definition crossed_rule (k j v v' w w' : string) : staticRule :=
  andStaticRule [orStaticRule [lit_rule k v; lit_rule j w']; orStaticRule [lit_rule k v'; lit_rule j w]].

Lemma lit_qSatisfiable k v key value :
  qSatisfiable (lit_rule k v) key value =
  if decide (key = k) then (if decide (value = Some v) then qTrue else qFalse) else qNone.
Proof.
  unfold lit_rule. cbn [qSatisfiable]. unfold compareLiteralRule_qSatisfiable, newEqualsComparator.
  destruct (decide (key = k)) as [->|Hne]; [rewrite decide_False by tauto | by rewrite decide_True].
  destruct value as [t|]; [|done]. destruct (decide (t = v)) as [->|Ht].
  - by rewrite bool_decide_true, decide_True.
  - by rewrite bool_decide_false, decide_False by congruence.
Qed.

(** C32: Outside that class the enhanced filter loses rules: let k and j be
    different keys with values v and w in the store, and let v' and w' be other
    values.  The conjunction of (k = v OR j = w') and (k = v' OR j = w) is true
    in the store, yet the filter rejects it for every key with its current
    value, so that neither a change of a key nor a crawl evaluates the rule,
    while the plain filter accepts it for both of its keys. *)
Theorem enhanced_filter_incomplete (k j v v' w w' : string) (store : string -> option string)
    (Hkj : k <> j) (Hv : v <> v') (Hw : w <> w') (Hk : store k = Some v) (Hj : store j = Some w) :
  let r := crossed_rule k j v v' w w' in
  holds store r = true /\
  (forall key, q_pass (qSatisfiable r key (store key)) = false) /\
  (forall key, key ∈ getKeys r -> satisfiable r key (store key) = true).
Proof.
  intros r. split_and!.
  - simpl. rewrite Hk, Hj. simpl. rewrite (bool_decide_true (v = v)), (bool_decide_true (w = w)) by done.
    simpl. by rewrite orb_true_r.
  - intros key. unfold r, crossed_rule. cbn [qSatisfiable quad_loop].
    rewrite !lit_qSatisfiable.
    destruct (decide (key = k)) as [->|Hnk]; [rewrite Hk; repeat case_decide; simplify_eq; done|].
    destruct (decide (key = j)) as [->|Hnj]; [rewrite Hj; repeat case_decide; simplify_eq; done | done].
  - intros key Hin. unfold r. simpl.
    assert (key = k \/ key = j) as [-> | ->] by set_solver.
    + by rewrite bool_decide_true.
    + by rewrite (bool_decide_true (j = j)), !orb_true_r.
Qed.
