(* ===== verification/DynamicRule.v ===== *)
(** * Dynamic rules (rules/dynamic_rule.go) *)
(** A dynamic rule is a boolean expression over key patterns.  When a key
    changes, [makeStaticRule] matches it against the patterns and, with the
    attributes of the match, instantiates the whole rule. *)
From S2P Require Import Prelude GoString Attributes Matcher StaticRule.

(** ** Package fmt *)
(** [fmt.Sprintf] with string arguments. *)
Class Fmt := { Sprintf : string -> list string -> string }.

Fixpoint interleave (pieces args : list string) : string :=
  match pieces, args with
  | p :: pieces', a :: args' => p +:+ a +:+ interleave pieces' args'
  | p :: _, [] => p
  | [], _ => EmptyString
  end.

(** The documented behaviour of the verb %s: in a format without any other
    '%', the i-th occurrence is replaced by the i-th argument. *)
Class FmtLaws (F : Fmt) :=
  sprintf_s : forall pieces args,
    Forall (fun p => "%"%char ∉ chars p) pieces -> length pieces = S (length args) ->
    Sprintf (Join pieces "%s") args = interleave pieces args.

(** ** The data *)
Section data.
Context `{Regexp}.

Record dynamicRule := mkDynamicRule {
  factory : ruleFactory;
  matchers : list regexKeyMatcher;
  patterns : list string;
  prefixes : list string;
  attributes : list attributeInstance;
  rep : string
}.

(** The implementations of the interface [DynamicRule].  The last two
    arguments of the compound rules are the fields [patterns] and [prefixes]
    of the embedded [compoundDynamicRule].  A negation always has exactly one
    nested rule: [NewNotRule] makes it from one, and [Expand] rebuilds it from
    as many rules as it had. *)
Inductive DynamicRule :=
| leafRule (krp : dynamicRule)
| andDynamicRule (nestedDynamicRules : list DynamicRule) (cdr_patterns cdr_prefixes : list string)
| orDynamicRule (nestedDynamicRules : list DynamicRule) (cdr_patterns cdr_prefixes : list string)
| notDynamicRule (nestedDynamicRule : DynamicRule) (cdr_patterns cdr_prefixes : list string).
End data.

(** ** Construction *)
Section construction.
Context `{Regexp} `{Fmt} `{GoRange}.

Fixpoint newMatchers (patterns : list string) : result (list regexKeyMatcher * list string) :=
  match patterns with
  | [] => inr ([], [])
  | v :: patterns' =>
    match newRegexKeyMatcher v with
    | inl err => inl err
    | inr matcher =>
      match newMatchers patterns' with
      | inl err => inl err
      | inr (matchers, prefixes) => inr (matcher :: matchers, getPrefix matcher :: prefixes)
      end
    end
  end.

Definition newDynamicRule (factory : ruleFactory) (patterns : list string) (rep : string)
    (attributes : list attributeInstance) : result DynamicRule :=
  match newMatchers patterns with
  | inl err => inl err
  | inr (matchers, prefixes) =>
    inr (leafRule (mkDynamicRule factory matchers patterns prefixes attributes rep))
  end.

Definition removeDuplicates (in_ : list string) : list string :=
  let unique := fold_left (fun (m : gmap string bool) value => <[value := true]> m) in_ ∅ in
  range_keys unique.

Fixpoint getPatterns (rule : DynamicRule) : list string :=
  match rule with
  | leafRule krp => patterns krp
  | andDynamicRule _ ps _ | orDynamicRule _ ps _ => ps
  | notDynamicRule nested _ _ => getPatterns nested
  end.

Fixpoint getPrefixes (rule : DynamicRule) : list string :=
  match rule with
  | leafRule krp => prefixes krp
  | andDynamicRule _ _ ps | orDynamicRule _ _ ps => ps
  | notDynamicRule nested _ _ => getPrefixes nested
  end.

(** The fields [patterns] and [prefixes] of [newCompoundDynamicRule]. *)
Definition newCompoundDynamicRule (rules : list DynamicRule) : list string * list string :=
  (removeDuplicates (flat_map getPatterns rules), removeDuplicates (flat_map getPrefixes rules)).

Definition NewAndRule (rules : list DynamicRule) : DynamicRule :=
  let '(ps, qs) := newCompoundDynamicRule rules in andDynamicRule rules ps qs.

Definition NewOrRule (rules : list DynamicRule) : DynamicRule :=
  let '(ps, qs) := newCompoundDynamicRule rules in orDynamicRule rules ps qs.

Definition NewNotRule (nestedRule : DynamicRule) : DynamicRule :=
  let '(ps, qs) := newCompoundDynamicRule [nestedRule] in notDynamicRule nestedRule ps qs.

(** A nil comparator is an error. *)
Definition NewCompareLiteralRule (pattern : string) (comparator : option (option string -> bool))
    (renderTemplate : string) : result DynamicRule :=
  match comparator with
  | None => inl "Comparator cannot be nil"
  | Some cmp =>
    newDynamicRule (compareLiteralRuleFactory cmp renderTemplate) [pattern]
      (Sprintf renderTemplate [pattern]) []
  end.

Definition dquote : string := String "034"%char EmptyString.

Definition NewEqualsLiteralRule (pattern : string) (value : option string) : result DynamicRule :=
  let valString := match value with None => "<nil>" | Some v => dquote +:+ v +:+ dquote end in
  NewCompareLiteralRule pattern (Some (newEqualsComparator value))
    (Sprintf "%s %s %s" ["%s"; "="; valString]).

Definition NewEqualsRule (pattern : list string) : result DynamicRule :=
  newDynamicRule equalsRuleFactory pattern (Join pattern " = ") [].

End construction.

(** ** Watch prefixes *)
Section watch_prefixes.
Context `{Regexp}.

Definition concat_mapM {A B} (f : A -> option (list B)) (l : list A) : option (list B) :=
  (@concat B) <$> mapM f l.

Definition leaf_prefixesWithConstraints (constraints : gmap string constraint) (krp : dynamicRule) :
    option (list string) :=
  concat_mapM (fun km => getPrefixesWithConstraints km constraints) (matchers krp).
Arguments leaf_prefixesWithConstraints _ _ /.

Fixpoint rule_prefixesWithConstraints (constraints : gmap string constraint) (rule : DynamicRule) :
    option (list string) :=
  match rule with
  | leafRule krp => leaf_prefixesWithConstraints constraints krp
  | andDynamicRule nested _ _ | orDynamicRule nested _ _ =>
    concat_mapM (rule_prefixesWithConstraints constraints) nested
  | notDynamicRule nested _ _ => concat_mapM (rule_prefixesWithConstraints constraints) [nested]
  end.
End watch_prefixes.

(** ** Instantiation *)
Section instantiation.
Context `{Regexp}.

(** The loops of [compoundDynamicRule.makeStaticRule] and
    [compoundDynamicRule.staticRuleFromAttributes] over the nested rules. *)
Section loops.
Context {A : Type}.
Variable make : A -> option (option (staticRule * extendedAttributes)).
Variable from : A -> option (option staticRule).

Fixpoint first_satisfiable (key : string) (value : option string) (rules : list A) :
    option (option extendedAttributes) :=
  match rules with
  | [] => Some None
  | nestedRule :: rules' =>
    r ← make nestedRule;
    match r with
    | None => first_satisfiable key value rules'
    | Some (rule, attr) =>
      if satisfiable rule key value then Some (Some attr) else first_satisfiable key value rules'
    end
  end.

Fixpoint from_loop (rules : list A) : option (option (list staticRule)) :=
  match rules with
  | [] => Some (Some [])
  | nestedRule :: rules' =>
    r ← from nestedRule;
    match r with
    | None => Some None
    | Some rule => rs ← from_loop rules'; Some (fmap (M:=option) (cons rule) rs)
    end
  end.
End loops.

(** The loop of [dynamicRule.staticRuleFromAttributes]. *)
Fixpoint format_keys (attr : extendedAttributes) (ms : list regexKeyMatcher) :
    option (option (list string)) :=
  match ms with
  | [] => Some (Some [])
  | matcher :: ms' =>
    '(key, ok) ← formatPath (getPattern matcher) (finderAttributes attr);
    if ok : bool then keys ← format_keys attr ms'; Some (fmap (M:=option) (cons key) keys)
    else Some None
  end.

Definition leaf_staticRuleFromAttributes (krp : dynamicRule) (attr : extendedAttributes) :
    option (option staticRule) :=
  ks ← format_keys attr (matchers krp);
  match ks with
  | None => Some None
  | Some keys => Some <$> newRule (factory krp) keys attr
  end.

(** The methods of the compound rules, given the result of the embedded
    [compoundDynamicRule] or of the nested rule. *)
Definition and_staticRuleFromAttributes (cdr : option (option (list staticRule))) : option (option staticRule) :=
  rs ← cdr; Some (fmap (M:=option) andStaticRule rs).

Definition or_staticRuleFromAttributes (cdr : option (option (list staticRule))) : option (option staticRule) :=
  rs ← cdr; Some (fmap (M:=option) orStaticRule rs).

Definition not_staticRuleFromAttributes (nested : option (option staticRule)) : option (option staticRule) :=
  r ← nested; Some (fmap (M:=option) notStaticRule r).
Arguments and_staticRuleFromAttributes _ /.
Arguments or_staticRuleFromAttributes _ /.
Arguments not_staticRuleFromAttributes _ /.

Fixpoint staticRuleFromAttributes (rule : DynamicRule) (attr : extendedAttributes) :
    option (option staticRule) :=
  match rule with
  | leafRule krp => leaf_staticRuleFromAttributes krp attr
  | andDynamicRule nested _ _ =>
    and_staticRuleFromAttributes (from_loop (fun r => staticRuleFromAttributes r attr) nested)
  | orDynamicRule nested _ _ =>
    or_staticRuleFromAttributes (from_loop (fun r => staticRuleFromAttributes r attr) nested)
  | notDynamicRule nested _ _ => not_staticRuleFromAttributes (staticRuleFromAttributes nested attr)
  end.

(** The first matcher that matches the key. *)
Fixpoint first_match (ms : list regexKeyMatcher) (key : string) : option extendedAttributes :=
  match ms with
  | [] => None
  | matcher :: ms' =>
    match match_ matcher key with
    | Some m => Some m
    | None => first_match ms' key
    end
  end.

Definition leaf_makeStaticRule (krp : dynamicRule) (key : string) :
    option (option (staticRule * extendedAttributes)) :=
  match first_match (matchers krp) key with
  | None => Some None
  | Some m =>
    keys ← mapM (fun matcher => Format m (getPattern matcher)) (matchers krp);
    let attr := nestingAttributes m (attributes krp) in
    sr ← newRule (factory krp) keys attr;
    Some (Some (sr, attr))
  end.

(** [compoundDynamicRule.makeStaticRule], given what instantiates the
    compound rule from attributes. *)
Definition compound_makeStaticRule {A} (make : A -> option (option (staticRule * extendedAttributes)))
    (from : extendedAttributes -> option (option staticRule))
    (key : string) (value : option string) (rules : list A) :
    option (option (staticRule * extendedAttributes)) :=
  validAttr ← first_satisfiable make key value rules;
  match validAttr with
  | None => Some None
  | Some attr =>
    r ← from attr;
    match r with
    | None => Some None
    | Some rule => Some (Some (rule, attr))
    end
  end.

Definition not_makeStaticRule (nested : option (option (staticRule * extendedAttributes))) :
    option (option (staticRule * extendedAttributes)) :=
  r ← nested;
  match r with
  | None => Some None
  | Some (ns, attr) => Some (Some (notStaticRule ns, attr))
  end.
Arguments not_makeStaticRule _ /.

Fixpoint makeStaticRule (rule : DynamicRule) (key : string) (value : option string) :
    option (option (staticRule * extendedAttributes)) :=
  match rule with
  | leafRule krp => leaf_makeStaticRule krp key
  | andDynamicRule nested _ _ | orDynamicRule nested _ _ =>
    compound_makeStaticRule (fun r => makeStaticRule r key value) (staticRuleFromAttributes rule)
      key value nested
  | notDynamicRule nested _ _ => not_makeStaticRule (makeStaticRule nested key value)
  end.

(** *** Evaluating a rule against a map *)
Definition errorValue : string := "<ERROR>".

Definition mapReadAPI_get (values : gmap string string) : readAPI := fun key =>
  match values !! key with
  | None => inr None
  | Some value => if decide (value = errorValue) then inl "Error" else inr (Some value)
  end.

Definition newMapReadAPI : gmap string string := ∅.

Definition mapReadAPI_put (values : gmap string string) (key value : string) : gmap string string :=
  <[key := value]> values.

(** The map is its own cache. *)
Definition mapReadAPI_getCachedAPI (values : gmap string string) (keys : list string) : result readAPI :=
  inr (mapReadAPI_get values).

Definition RuleSatisfied (rule : DynamicRule) (triggerKey : string) (triggerValue : option string)
    (kvs : gmap string string) : option (result bool) :=
  r ← makeStaticRule rule triggerKey triggerValue;
  match r with
  | None => Some (inl "Rule could not be triggered")
  | Some (sRule, _) => Some (satisfied sRule (mapReadAPI_get kvs))
  end.
End instantiation.

(** A value that is put is read back, unless it is the one that stands for an
    error; the other keys stay as they are. *)
Lemma mapReadAPI_put_get values key value key' :
  mapReadAPI_get (mapReadAPI_put values key value) key' =
  if decide (key' = key) then (if decide (value = errorValue) then inl "Error" else inr (Some value))
  else mapReadAPI_get values key'.
Proof.
  unfold mapReadAPI_get, mapReadAPI_put. destruct (decide (key' = key)) as [->|Hne].
  - by rewrite lookup_insert_eq.
  - by rewrite lookup_insert_ne.
Qed.

Create HintDb rule_methods.
#[export] Hint Unfold and_staticRuleFromAttributes or_staticRuleFromAttributes not_staticRuleFromAttributes
  not_makeStaticRule : rule_methods.

(** Unfolds the instantiation of a rule to that of its nested rules. *)
Ltac from_methods := cbn [staticRuleFromAttributes]; autounfold with rule_methods.
Ltac make_methods := cbn [makeStaticRule]; autounfold with rule_methods.

(** ** Induction on rules *)
Section DynamicRule_ind.
Context `{Regexp}.
Variable P : DynamicRule -> Prop.
Hypothesis Hleaf : forall krp, P (leafRule krp).
Hypothesis Hand : forall rs ps qs, Forall P rs -> P (andDynamicRule rs ps qs).
Hypothesis Hor : forall rs ps qs, Forall P rs -> P (orDynamicRule rs ps qs).
Hypothesis Hnot : forall r ps qs, P r -> P (notDynamicRule r ps qs).

Fixpoint DynamicRule_nested_ind (r : DynamicRule) : P r :=
  let fix go (rs : list DynamicRule) : Forall P rs :=
    match rs with
    | [] => Forall_nil_2 P
    | r' :: rs' => Forall_cons_2 P r' rs' (DynamicRule_nested_ind r') (go rs')
    end in
  match r with
  | leafRule krp => Hleaf krp
  | andDynamicRule rs ps qs => Hand rs ps qs (go rs)
  | orDynamicRule rs ps qs => Hor rs ps qs (go rs)
  | notDynamicRule r' ps qs => Hnot r' ps qs (DynamicRule_nested_ind r')
  end.
End DynamicRule_ind.

(** ** removeDuplicates *)
Lemma unique_lookup (in_ : list string) (m : gmap string bool) x :
  is_Some (fold_left (fun m value => <[value := true]> m) in_ m !! x) <-> x ∈ in_ \/ is_Some (m !! x).
Proof.
  revert m. induction in_ as [|y in_ IH]; intros m; simpl; [set_solver|].
  rewrite IH, elem_of_cons. destruct (decide (x = y)) as [->|Hne].
  - rewrite lookup_insert_eq. naive_solver.
  - rewrite lookup_insert_ne by done. naive_solver.
Qed.

Lemma elem_of_removeDuplicates `{GoRange} (l : list string) x : x ∈ removeDuplicates l <-> x ∈ l.
Proof.
  unfold removeDuplicates. rewrite elem_of_range_keys, unique_lookup, lookup_empty.
  split; [intros [?|[? [=]]]; done | auto].
Qed.

Lemma NoDup_removeDuplicates `{GoRange} (l : list string) : NoDup (removeDuplicates l).
Proof. apply NoDup_range_keys. Qed.

(** ** Well-formed rules *)
(** What the constructors establish. *)
Section wf.
Context {R : Regexp}.

Definition Forall_fix {A} (P : A -> Prop) : list A -> Prop :=
  fix go l := match l with [] => True | x :: l' => P x /\ go l' end.

Lemma Forall_fix_Forall {A} (P : A -> Prop) l : Forall_fix P l <-> Forall P l.
Proof. induction l as [|x l IH]; simpl; [done|]. by rewrite IH, Forall_cons. Qed.

Record wf_leaf (krp : dynamicRule) : Prop := {
  wf_matchers : newMatchers (patterns krp) = inr (matchers krp, prefixes krp);
  wf_nonempty : patterns krp <> [];
  wf_single : match factory krp with
              | compareLiteralRuleFactory _ _ => length (patterns krp) = 1
              | equalsRuleFactory => True
              end;
  wf_attributes : Forall (fun ai => is_Some (ai_value ai)) (attributes krp)
}.

Definition same_elems {A} (l k : list A) : Prop := forall x, x ∈ l <-> x ∈ k.

Fixpoint wf_rule (r : DynamicRule) : Prop :=
  match r with
  | leafRule krp => wf_leaf krp
  | andDynamicRule rs ps qs | orDynamicRule rs ps qs =>
    Forall_fix wf_rule rs /\ same_elems ps (flat_map getPatterns rs) /\
    same_elems qs (flat_map getPrefixes rs)
  | notDynamicRule r' ps qs => wf_rule r'
  end.

Lemma wf_rule_and rs ps qs : wf_rule (andDynamicRule rs ps qs) -> Forall wf_rule rs.
Proof. simpl. intros [Hw _]. by apply Forall_fix_Forall. Qed.

Lemma wf_rule_or rs ps qs : wf_rule (orDynamicRule rs ps qs) -> Forall wf_rule rs.
Proof. simpl. intros [Hw _]. by apply Forall_fix_Forall. Qed.

Lemma newDynamicRule_wf f ps rp attrs r :
  newDynamicRule f ps rp attrs = inr r -> ps <> [] ->
  match f with compareLiteralRuleFactory _ _ => length ps = 1 | equalsRuleFactory => True end ->
  Forall (fun ai => is_Some (ai_value ai)) attrs -> wf_rule r.
Proof.
  unfold newDynamicRule. destruct (newMatchers ps) as [|[ms qs]] eqn:E; [done|].
  intros [= <-] ???. by split.
Qed.

Section with_range.
Context `{GoRange} `{Fmt}.

Lemma NewAndRule_wf rs : Forall wf_rule rs -> wf_rule (NewAndRule rs).
Proof.
  intros Hrs. simpl. split_and!; [by apply Forall_fix_Forall | |]; intros x; apply elem_of_removeDuplicates.
Qed.

Lemma NewOrRule_wf rs : Forall wf_rule rs -> wf_rule (NewOrRule rs).
Proof.
  intros Hrs. simpl. split_and!; [by apply Forall_fix_Forall | |]; intros x; apply elem_of_removeDuplicates.
Qed.

Lemma NewNotRule_wf r : wf_rule r -> wf_rule (NewNotRule r).
Proof. done. Qed.

Lemma NewEqualsLiteralRule_wf p v r : NewEqualsLiteralRule p v = inr r -> wf_rule r.
Proof. intros Hn. by eapply newDynamicRule_wf; [exact Hn | | | constructor]. Qed.

Lemma NewEqualsRule_wf ps r : ps <> [] -> NewEqualsRule ps = inr r -> wf_rule r.
Proof. intros Hps Hn. by eapply newDynamicRule_wf; [exact Hn | | | constructor]. Qed.
End with_range.

(** The patterns of the leaves, in order. *)
Fixpoint pattern_list (r : DynamicRule) : list string :=
  match r with
  | leafRule krp => patterns krp
  | andDynamicRule rs _ _ | orDynamicRule rs _ _ => flat_map pattern_list rs
  | notDynamicRule r' _ _ => pattern_list r'
  end.

Lemma elem_of_flat_map_ext {A B} (f g : A -> list B) l y :
  Forall (fun x => forall y, y ∈ f x <-> y ∈ g x) l -> y ∈ flat_map f l <-> y ∈ flat_map g l.
Proof.
  rewrite Forall_forall, !elem_of_flat_map. intros Hfg.
  split; intros (x & Hx & Hy); exists x; (split; [done|]); by apply (Hfg x Hx).
Qed.

Lemma elem_of_getPatterns r p : wf_rule r -> p ∈ getPatterns r <-> p ∈ pattern_list r.
Proof.
  revert p. induction r as [krp|rs ps qs IH|rs ps qs IH|r ps qs IH] using DynamicRule_nested_ind;
    intros p Hwf; simpl; [done| | |by apply IH].
  - destruct Hwf as (Hrs & Hps & _). rewrite (Hps p). apply elem_of_flat_map_ext.
    apply Forall_fix_Forall in Hrs. rewrite Forall_forall in *. eauto.
  - destruct Hwf as (Hrs & Hps & _). rewrite (Hps p). apply elem_of_flat_map_ext.
    apply Forall_fix_Forall in Hrs. rewrite Forall_forall in *. eauto.
Qed.

Lemma newMatchers_Forall2 ps ms qs :
  newMatchers ps = inr (ms, qs) ->
  Forall2 (fun p m => newRegexKeyMatcher p = inr m) ps ms /\ qs = getPrefix <$> ms.
Proof.
  revert ms qs. induction ps as [|p ps IH]; intros ms qs; simpl.
  - intros [= <- <-]. split; [constructor | done].
  - destruct (newRegexKeyMatcher p) as [|m] eqn:Hm; [done|].
    destruct (newMatchers ps) as [|[ms' qs']]; [done|]. intros [= <- <-].
    destruct (IH ms' qs' eq_refl) as [H1 ->]. split; [by constructor | done].
Qed.

Lemma newMatchers_patterns ps ms qs : newMatchers ps = inr (ms, qs) -> getPattern <$> ms = ps.
Proof.
  intros [Hf _]%newMatchers_Forall2. induction Hf as [|p m ps ms Hm _ IH]; [done|].
  rewrite fmap_cons. unfold getPattern at 1. by rewrite (newRegexKeyMatcher_pattern _ _ Hm), IH.
Qed.
End wf.
