(* ===== verification/Instantiation.v ===== *)
(** * Instantiating dynamic rules: correctness (rules/dynamic_rule.go) *)
(** What [makeStaticRule], [staticRuleFromAttributes] and [RuleSatisfied]
    compute: the keys of the static rule are the formatted patterns, its truth
    is that of the dynamic rule in the environment of the trigger, and
    instantiation does not panic. *)
From S2P Require Import Prelude GoString Attributes Matcher StaticRule DynamicRule.

(** The environment attributes define for formatting. *)
Definition attr_env (a : extendedAttributes) (n : string) : option string :=
  default None (FindAttribute a n).

(** The key a pattern denotes in an environment. *)
Definition pattern_key (env : string -> option string) (pattern : string) : string :=
  render env (pattern_segments pattern).

Lemma Format_pattern_key a p k : Format a p = Some k -> k = pattern_key (attr_env a) p.
Proof. intros [_ ->]%Format_Some. done. Qed.

Lemma formatPath_Format a p k b :
  formatPath p (finderAttributes a) = Some (k, b) -> Format a p = Some k.
Proof. intros Hf. unfold Format, FormatWithAttributes. by rewrite Hf. Qed.

Section instantiation.
Context {R : Regexp}.

(** ** The truth of a dynamic rule in an environment *)
Definition leaf_holds (store : string -> option string) (env : string -> option string)
    (krp : dynamicRule) : bool :=
  match factory krp with
  | compareLiteralRuleFactory cmp _ =>
    match patterns krp with
    | p :: _ => cmp (store (pattern_key env p))
    | [] => false
    end
  | equalsRuleFactory =>
    match patterns krp with
    | [] => true
    | p :: ps =>
      forallb (fun q => bool_decide (store (pattern_key env q) = store (pattern_key env p))) ps
    end
  end.

Fixpoint rule_holds (store : string -> option string) (env : string -> option string)
    (r : DynamicRule) : bool :=
  match r with
  | leafRule krp => leaf_holds store env krp
  | andDynamicRule rs _ _ => forallb (rule_holds store env) rs
  | orDynamicRule rs _ _ => existsb (rule_holds store env) rs
  | notDynamicRule r' _ _ => negb (rule_holds store env r')
  end.

(** ** Leaves *)
Lemma format_keys_Some attr ms keys :
  format_keys attr ms = Some (Some keys) ->
  Forall2 (fun m key => formatPath (getPattern m) (finderAttributes attr) = Some (key, true)) ms keys.
Proof.
  revert keys. induction ms as [|m ms IH]; intros keys; simpl.
  - intros [= <-]. constructor.
  - rewrite bind_Some. intros ([key ok] & Hf & Hrest). destruct ok; [|done].
    apply bind_Some in Hrest as ([ks|] & Hks & Heq); simplify_eq/=.
    constructor; auto.
Qed.

Lemma newRule_keys f keys attr sr :
  newRule f keys attr = Some sr ->
  match f with compareLiteralRuleFactory _ _ => length keys = 1 | equalsRuleFactory => True end ->
  getKeys sr = keys.
Proof.
  destruct f; simpl.
  - destruct keys as [|k [|]]; simpl; [done | by intros [= <-] | done].
  - by intros [= <-].
Qed.

Lemma newRule_has_keys f keys attr sr :
  newRule f keys attr = Some sr -> keys <> [] -> has_keys sr = true.
Proof.
  destruct f; simpl; [destruct keys; simpl; by intros [= <-]|].
  intros [= <-] Hk. simpl. by apply bool_decide_eq_true_2.
Qed.

Lemma newRule_holds krp keys attr sr store env :
  newRule (factory krp) keys attr = Some sr -> keys = pattern_key env <$> patterns krp ->
  holds store sr = leaf_holds store env krp.
Proof.
  unfold leaf_holds. intros Hn ->. destruct (factory krp); simpl in *.
  - destruct (patterns krp) as [|p ps]; simpl in *; by simplify_eq.
  - simplify_eq. simpl. destruct (patterns krp) as [|p ps]; simpl; [done|].
    induction ps as [|q ps IH]; simpl; [done|]. by rewrite IH.
Qed.

Lemma Forall2_keys_fmap env (ps keys : list string) :
  Forall2 (fun p k => k = pattern_key env p) ps keys -> keys = pattern_key env <$> ps.
Proof. induction 1 as [|p k ps ks Hk _ IH]; [done|]. by rewrite fmap_cons, <- IH, Hk. Qed.

Lemma Forall2_patterns (Q : string -> string -> Prop) (ms : list regexKeyMatcher) ps keys :
  getPattern <$> ms = ps -> Forall2 (fun m k => Q (getPattern m) k) ms keys -> Forall2 Q ps keys.
Proof. intros <- Hf. by apply Forall2_fmap_l. Qed.

Lemma leaf_from_spec krp attr sr :
  wf_leaf krp -> leaf_staticRuleFromAttributes krp attr = Some (Some sr) ->
  Forall2 (fun p k => formatPath p (finderAttributes attr) = Some (k, true)) (patterns krp) (getKeys sr) /\
  forall store, holds store sr = leaf_holds store (attr_env attr) krp.
Proof.
  intros Hwf. unfold leaf_staticRuleFromAttributes. rewrite bind_Some.
  intros ([keys|] & Hk & Hsr); [|done]. apply fmap_Some in Hsr as (sr' & Hnew & [= ->]).
  apply format_keys_Some in Hk. eapply (Forall2_patterns
    (fun p k => formatPath p (finderAttributes attr) = Some (k, true))) in Hk;
    [|by eapply newMatchers_patterns, wf_matchers].
  assert (getKeys sr' = keys) as Hkeys.
  { eapply newRule_keys; [done|]. pose proof (wf_single _ Hwf) as Hs. destruct (factory krp); [|done].
    by rewrite <- (Forall2_length _ _ _ Hk). }
  rewrite Hkeys. split; [done|]. intros store. eapply newRule_holds; [done|].
  apply Forall2_keys_fmap. eapply Forall2_impl; [exact Hk|]. simpl.
  intros p k Hpk. by eapply Format_pattern_key, formatPath_Format.
Qed.

Lemma mapM_Format m ms keys :
  mapM (fun matcher => Format m (getPattern matcher)) ms = Some keys ->
  Forall2 (fun matcher k => Format m (getPattern matcher) = Some k) ms keys.
Proof. apply mapM_Some_1. Qed.

Lemma leaf_make_spec krp key sr attr :
  wf_leaf krp -> leaf_makeStaticRule krp key = Some (Some (sr, attr)) ->
  exists m, attr = nestingAttributes m (attributes krp) /\
    first_match (matchers krp) key = Some m /\
    Forall2 (fun p k => Format m p = Some k) (patterns krp) (getKeys sr) /\
    has_keys sr = true /\
    forall store, holds store sr = leaf_holds store (attr_env m) krp.
Proof.
  intros Hwf. unfold leaf_makeStaticRule. destruct (first_match _ key) as [m|]; [|done].
  rewrite bind_Some. intros (keys & Hk%mapM_Format & Hsr).
  apply bind_Some in Hsr as (sr' & Hnew & [= -> <-]). exists m.
  eapply (Forall2_patterns (fun p k => Format m p = Some k)) in Hk;
    [|by eapply newMatchers_patterns, wf_matchers].
  assert (getKeys sr = keys) as Hkeys.
  { eapply newRule_keys; [done|]. pose proof (wf_single _ Hwf) as Hs. destruct (factory krp); [|done].
    by rewrite <- (Forall2_length _ _ _ Hk). }
  rewrite Hkeys. split_and!; [done | done | done | |].
  { eapply newRule_has_keys; [done|]. intros ->. apply Forall2_nil_inv_r in Hk.
    by apply (wf_nonempty _ Hwf). }
  intros store. eapply newRule_holds; [done|].
  apply Forall2_keys_fmap. eapply Forall2_impl; [exact Hk|]. simpl.
  intros p k. apply Format_pattern_key.
Qed.

(** ** Compound rules *)
Lemma from_loop_Some {A} (from : A -> option (option staticRule)) rs srs :
  from_loop from rs = Some (Some srs) <-> Forall2 (fun r sr => from r = Some (Some sr)) rs srs.
Proof.
  revert srs. induction rs as [|r rs IH]; intros srs; simpl.
  - split; [intros [= <-]; constructor | by inversion 1].
  - rewrite bind_Some. split.
    + intros ([sr|] & Hr & Hrest); [|done].
      apply bind_Some in Hrest as ([l|] & Hl & Heq); simplify_eq/=.
      constructor; [done|]. by apply IH.
    + inversion 1 as [|? sr ? l Hr Hl]; subst. exists (Some sr). split; [done|].
      apply IH in Hl. by rewrite Hl.
Qed.

Lemma nested_keys (Q : string -> string -> Prop) rs srs :
  Forall2 (fun r sr => Forall2 Q (pattern_list r) (getKeys sr)) rs srs ->
  Forall2 Q (flat_map pattern_list rs) (flat_map getKeys srs).
Proof. induction 1 as [|r sr rs srs Hr _ IH]; simpl; [constructor|]. by apply Forall2_app. Qed.

Lemma nested_holds store env rs srs :
  Forall2 (fun r sr => holds store sr = rule_holds store env r) rs srs ->
  forallb (holds store) srs = forallb (rule_holds store env) rs /\
  existsb (holds store) srs = existsb (rule_holds store env) rs.
Proof. induction 1 as [|r sr rs srs Hr _ [IHa IHo]]; simpl; [done|]. by rewrite Hr, IHa, IHo. Qed.

Lemma Forall2_Forall_impl {A B} (P : A -> Prop) (Q Q' : A -> B -> Prop) l k :
  Forall P l -> (forall x y, P x -> Q x y -> Q' x y) -> Forall2 Q l k -> Forall2 Q' l k.
Proof. intros HP HQ Hf. induction Hf; inversion HP; constructor; auto. Qed.

Definition from_spec (attr : extendedAttributes) (r : DynamicRule) (sr : staticRule) : Prop :=
  Forall2 (fun p k => formatPath p (finderAttributes attr) = Some (k, true)) (pattern_list r) (getKeys sr) /\
  forall store, holds store sr = rule_holds store (attr_env attr) r.

Lemma from_spec_nested attr rs srs :
  Forall2 (from_spec attr) rs srs ->
  Forall2 (fun p k => formatPath p (finderAttributes attr) = Some (k, true))
    (flat_map pattern_list rs) (flat_map getKeys srs) /\
  forall store, forallb (holds store) srs = forallb (rule_holds store (attr_env attr)) rs /\
    existsb (holds store) srs = existsb (rule_holds store (attr_env attr)) rs.
Proof.
  intros Hf. split; [|intros store].
  - apply nested_keys. eapply Forall2_impl; [exact Hf|]. by intros r sr [? _].
  - apply nested_holds. eapply Forall2_impl; [exact Hf|]. by intros r sr [_ ?].
Qed.

Lemma from_loop_spec attr rs srs :
  Forall (fun r => forall sr, wf_rule r -> staticRuleFromAttributes r attr = Some (Some sr) ->
            from_spec attr r sr) rs ->
  Forall wf_rule rs ->
  from_loop (fun r => staticRuleFromAttributes r attr) rs = Some (Some srs) ->
  Forall2 (from_spec attr) rs srs.
Proof.
  intros IH Hwf Hl%from_loop_Some. eapply Forall2_Forall_impl; [|clear Hl|exact Hl].
  - apply Forall_and. exact (conj IH Hwf).
  - intros r sr [H1 H2]. by apply H1.
Qed.

Lemma staticRuleFromAttributes_spec r attr sr :
  wf_rule r -> staticRuleFromAttributes r attr = Some (Some sr) -> from_spec attr r sr.
Proof.
  revert sr. induction r as [krp|rs ps qs IH|rs ps qs IH|r ps qs IH] using DynamicRule_nested_ind;
    intros sr Hwf; from_methods.
  - apply leaf_from_spec, Hwf.
  - rewrite bind_Some. intros ([srs|] & Hl & Heq); simplify_eq/=.
    apply from_loop_spec, from_spec_nested in Hl as [Hk Hh]; [|done|by eapply wf_rule_and].
    split; [done | intros store; apply (Hh store)].
  - rewrite bind_Some. intros ([srs|] & Hl & Heq); simplify_eq/=.
    apply from_loop_spec, from_spec_nested in Hl as [Hk Hh]; [|done|by eapply wf_rule_or].
    split; [done | intros store; apply (Hh store)].
  - rewrite bind_Some. intros ([sr'|] & Hr & Heq); simplify_eq/=.
    destruct (IH sr' Hwf Hr) as [Hk Hh]. split; [done|]. intros store. simpl. by rewrite Hh.
Qed.

(** ** makeStaticRule *)
(** [a] is what the patterns are formatted with when the trigger yields
    [attr]: the attributes themselves or, for a leaf, those of the match. *)
Definition trigger_attrs (attr a : extendedAttributes) : Prop :=
  a = attr \/ exists attrs, attr = nestingAttributes a attrs.

Definition make_spec (r : DynamicRule) (sr : staticRule) (attr : extendedAttributes) : Prop :=
  exists a, trigger_attrs attr a /\
    Forall2 (fun p k => Format a p = Some k) (pattern_list r) (getKeys sr) /\
    forall store, holds store sr = rule_holds store (attr_env a) r.

Lemma from_make_spec r sr attr : from_spec attr r sr -> make_spec r sr attr.
Proof.
  intros [Hk Hh]. exists attr. split_and!; [by left | | done].
  eapply Forall2_impl; [exact Hk|]. simpl. eauto using formatPath_Format.
Qed.

Lemma compound_make_from {A} make from key value (rules : list A) sr attr :
  compound_makeStaticRule make from key value rules = Some (Some (sr, attr)) ->
  from attr = Some (Some sr).
Proof.
  unfold compound_makeStaticRule. rewrite bind_Some. intros ([a|] & _ & Hr); [|done].
  apply bind_Some in Hr as ([sr'|] & Hf & Heq); simplify_eq/=. done.
Qed.

Lemma makeStaticRule_spec r key value sr attr :
  wf_rule r -> makeStaticRule r key value = Some (Some (sr, attr)) -> make_spec r sr attr.
Proof.
  revert sr. induction r as [krp|rs ps qs IH|rs ps qs IH|r ps qs IH] using DynamicRule_nested_ind;
    intros sr Hwf; make_methods.
  - intros Hm. destruct (leaf_make_spec krp key sr attr Hwf Hm) as (m & -> & _ & Hk & _ & Hh).
    exists m. split_and!; [right; eauto | done | done].
  - intros Hm%compound_make_from. by apply from_make_spec, staticRuleFromAttributes_spec.
  - intros Hm%compound_make_from. by apply from_make_spec, staticRuleFromAttributes_spec.
  - rewrite bind_Some. intros ([[ns a']|] & Hm & Heq); simplify_eq/=.
    destruct (IH ns Hwf Hm) as (a & Ha & Hk & Hh). exists a. split_and!; [done | done |].
    intros store. simpl. by rewrite Hh.
Qed.

(** C12: The keys of an instantiated rule are its patterns formatted with one
    set of attributes, those of the trigger, and the static rule is true in a
    store exactly when the dynamic rule is true there under these attributes. *)
Theorem makeStaticRule_correct (r : DynamicRule) (key : string) (value : option string)
    (sr : staticRule) (attr : extendedAttributes)
    (Hwf : wf_rule r) (Hmake : makeStaticRule r key value = Some (Some (sr, attr))) :
  exists a, trigger_attrs attr a /\
    Forall2 (fun p k => Format a p = Some k) (pattern_list r) (getKeys sr) /\
    forall store, holds store sr = rule_holds store (attr_env a) r.
Proof. exact (makeStaticRule_spec _ _ _ _ _ Hwf Hmake). Qed.

(** A compound rule is only instantiated with attributes that resolve every
    parameter of every pattern in it: no key of it keeps a placeholder. *)
Theorem compound_fully_resolved (rs : list DynamicRule) (ps qs : list string) (key : string)
    (value : option string) (sr : staticRule) (attr : extendedAttributes)
    (Hwf : wf_rule (andDynamicRule rs ps qs))
    (Hmake : makeStaticRule (andDynamicRule rs ps qs) key value = Some (Some (sr, attr))) :
  forall p n, p ∈ pattern_list (andDynamicRule rs ps qs) -> n ∈ params (pattern_segments p) ->
    is_Some (attr_env attr n).
Proof.
  intros p n Hp Hn. cbn [makeStaticRule] in Hmake. apply compound_make_from in Hmake.
  apply staticRuleFromAttributes_spec in Hmake as [Hk _]; [|done].
  apply list_elem_of_lookup in Hp as [i Hi].
  destruct (Forall2_lookup_l _ _ _ _ _ Hk Hi) as (k & _ & Hf).
  apply formatPath_Some in Hf as (_ & _ & Hall). symmetry in Hall.
  rewrite all_found_true in Hall. by apply (Hall n).
Qed.
End instantiation.

(** ** No panics *)
(** Attributes whose lookups never panic. *)
Definition attr_total (a : extendedAttributes) : Prop := forall n, is_Some (FindAttribute a n).

Lemma attr_total_finds a ns : attr_total a -> finds (FindAttribute a) (attr_env a) ns.
Proof. intros Ha n _. unfold attr_env. destruct (Ha n) as [o Ho]. by rewrite Ho. Qed.

Lemma attr_total_formatPath a p :
  attr_total a ->
  formatPath p (finderAttributes a) =
  Some (pattern_key (attr_env a) p, all_found (attr_env a) (pattern_segments p)).
Proof. intros Ha. by apply formatPath_eq, attr_total_finds. Qed.

Lemma attr_total_Format a p : attr_total a -> Format a p = Some (pattern_key (attr_env a) p).
Proof. intros Ha. unfold Format, FormatWithAttributes. by rewrite attr_total_formatPath. Qed.

Lemma attr_total_nesting a attrs :
  attr_total a -> Forall (fun ai => is_Some (ai_value ai)) attrs -> attr_total (nestingAttributes a attrs).
Proof.
  intros Ha Hattrs n. simpl. induction Hattrs as [|ai attrs [v Hv] _ IH]; simpl; [apply Ha|].
  case_decide; [rewrite Hv; by eexists | done].
Qed.

Section no_panic.
Context {R : Regexp} {RL : RegexpLaws R}.

Lemma match_total p rkm key m :
  matcher_of p rkm -> match_ rkm key = Some m -> attr_total m.
Proof.
  intros [_ Hf Hs]. unfold match_, newKeyMatch. rewrite Hs.
  destruct (search_segments _ key) as [l|] eqn:E; [|done]. intros [= <-] n. simpl. rewrite Hf.
  apply search_segments_Some in E as (b & s' & caps & rest & _ & Hm & ->).
  apply match_segments_sound in Hm as (_ & Hl & _).
  destruct (decide (n ∈ params (pattern_segments p))) as [Hn|Hn].
  - by destruct (km_lookup_in p (str_take (String.length s' - String.length rest) s') caps n Hl Hn)
      as (j & v & _ & _ & ->).
  - unfold km_lookup. simpl. rewrite number_params_notin by done. by rewrite lookup_empty.
Qed.

(** Every pattern of the rule is free of regular expression metacharacters. *)
Definition plain_rule (r : DynamicRule) : Prop :=
  forall p, p ∈ pattern_list r -> plain_pattern p = true.

Lemma plain_rule_nested rs :
  (forall p, p ∈ flat_map pattern_list rs -> plain_pattern p = true) -> Forall plain_rule rs.
Proof.
  intros Hp. apply Forall_forall. intros r Hr p Hpr. apply Hp, elem_of_flat_map. eauto.
Qed.

Lemma leaf_matchers krp m :
  wf_leaf krp -> m ∈ matchers krp ->
  exists p, p ∈ patterns krp /\ newRegexKeyMatcher p = inr m.
Proof.
  intros [[Hf _]%newMatchers_Forall2 _ _ _] Hm. apply list_elem_of_lookup in Hm as [i Hi].
  destruct (Forall2_lookup_r _ _ _ _ _ Hf Hi) as (p & Hp & Hn).
  exists p. split; [by eapply list_elem_of_lookup_2 | done].
Qed.

Lemma first_match_inv ms key a :
  first_match ms key = Some a -> exists m, m ∈ ms /\ match_ m key = Some a.
Proof.
  induction ms as [|m ms IH]; simpl; [done|]. destruct (match_ m key) eqn:E.
  - intros [= <-]. exists m. set_solver.
  - intros (m' & ? & ?)%IH. exists m'. set_solver.
Qed.

Lemma leaf_match_total krp key a :
  wf_leaf krp -> plain_rule (leafRule krp) -> first_match (matchers krp) key = Some a -> attr_total a.
Proof.
  intros Hwf Hp (m & Hm & Hmatch)%first_match_inv.
  destruct (leaf_matchers krp m Hwf Hm) as (p & Hin & Hnew).
  eapply match_total; [|exact Hmatch]. eapply newRegexKeyMatcher_matcher_of; [|done]. by apply Hp.
Qed.

Lemma newRule_total f keys attr : keys <> [] -> is_Some (newRule f keys attr).
Proof. by destruct f, keys. Qed.

Lemma format_keys_total a ms :
  attr_total a ->
  exists o, format_keys a ms = Some o /\ forall ks, o = Some ks -> length ks = length ms.
Proof.
  intros Ha. induction ms as [|m ms (o & Ho & Hl)]; simpl; [by eexists; split; [done | intros ? [= <-]]|].
  rewrite attr_total_formatPath by done. simpl. case_match; [|by eexists].
  rewrite Ho. simpl. eexists. split; [done|]. destruct o; simpl; [|done].
  intros ks [= <-]. simpl. by rewrite (Hl _ eq_refl).
Qed.

Lemma wf_leaf_matchers_length krp : wf_leaf krp -> length (matchers krp) <> 0.
Proof.
  intros [Hm Hne _ _]. apply newMatchers_Forall2 in Hm as [Hf _].
  rewrite <- (Forall2_length _ _ _ Hf). by destruct (patterns krp).
Qed.

Lemma staticRuleFromAttributes_total r a :
  wf_rule r -> attr_total a -> is_Some (staticRuleFromAttributes r a).
Proof.
  intros Hwf Ha. revert Hwf.
  assert (forall rs, Forall (fun r => wf_rule r -> is_Some (staticRuleFromAttributes r a)) rs ->
            Forall wf_rule rs -> is_Some (from_loop (fun r => staticRuleFromAttributes r a) rs)) as Hloop.
  { induction 1 as [|r' rs Hr _ IH]; simpl; [done|]. rewrite Forall_cons. intros [Hw Hws].
    destruct (Hr Hw) as [o ->]. simpl. destruct o; [|done]. destruct (IH Hws) as [l ->]. done. }
  induction r as [krp|rs ps qs IH|rs ps qs IH|r ps qs IH] using DynamicRule_nested_ind;
    intros Hwf; from_methods.
  - unfold leaf_staticRuleFromAttributes.
    destruct (format_keys_total a (matchers krp) Ha) as ([ks|] & -> & Hl); simpl; [|done].
    destruct (newRule_total (factory krp) ks a) as [sr ->]; [|done].
    pose proof (wf_leaf_matchers_length krp Hwf). specialize (Hl ks eq_refl). by destruct ks.
  - destruct (Hloop rs IH (wf_rule_and _ _ _ Hwf)) as [o ->]. done.
  - destruct (Hloop rs IH (wf_rule_or _ _ _ Hwf)) as [o ->]. done.
  - destruct (IH Hwf) as [o ->]. done.
Qed.

Lemma first_satisfiable_total {A} (make : A -> option (option (staticRule * extendedAttributes)))
    key value (rs : list A) :
  Forall (fun r => exists o, make r = Some o /\ forall sr attr, o = Some (sr, attr) -> attr_total attr) rs ->
  exists o, first_satisfiable make key value rs = Some o /\ forall attr, o = Some attr -> attr_total attr.
Proof.
  induction 1 as [|r rs (o & Ho & Hat) _ IH]; simpl; [by exists None|].
  rewrite Ho. simpl. destruct o as [[sr attr]|]; [|done].
  destruct (satisfiable sr key value); [|done]. exists (Some attr). split; [done|].
  intros attr' [= <-]. by eapply Hat.
Qed.

Lemma compound_make_total {A} make from key value (rs : list A) :
  Forall (fun r => exists o, make r = Some o /\ forall sr attr, o = Some (sr, attr) -> attr_total attr) rs ->
  (forall attr, attr_total attr -> is_Some (from attr)) ->
  exists o, compound_makeStaticRule make from key value rs = Some o /\
    forall sr attr, o = Some (sr, attr) -> attr_total attr.
Proof.
  intros Hrs Hfrom. unfold compound_makeStaticRule.
  destruct (first_satisfiable_total make key value rs Hrs) as ([attr|] & -> & Hat); simpl; [|by exists None].
  specialize (Hat attr eq_refl). destruct (Hfrom attr Hat) as [[sr|] ->]; simpl; [|by exists None].
  eexists. split; [done|]. by intros ? ? [= <- <-].
Qed.

Lemma makeStaticRule_total r key value :
  wf_rule r -> plain_rule r ->
  exists o, makeStaticRule r key value = Some o /\ forall sr attr, o = Some (sr, attr) -> attr_total attr.
Proof.
  induction r as [krp|rs ps qs IH|rs ps qs IH|r ps qs IH] using DynamicRule_nested_ind;
    intros Hwf Hp; make_methods.
  - unfold leaf_makeStaticRule. destruct (first_match (matchers krp) key) as [m|] eqn:Hm; [|by exists None].
    pose proof (leaf_match_total krp key m Hwf Hp Hm) as Hat.
    destruct (mapM _ (matchers krp)) as [keys|] eqn:Hk; simpl.
    + destruct (newRule_total (factory krp) keys (nestingAttributes m (attributes krp))) as [sr ->].
      { apply mapM_Format, Forall2_length in Hk. pose proof (wf_leaf_matchers_length krp Hwf).
        by destruct keys. }
      eexists. split; [done|]. intros ? ? [= <- <-]. apply attr_total_nesting; [done|]. apply Hwf.
    + apply mapM_None, Exists_exists in Hk as (m' & _ & Hk). by rewrite attr_total_Format in Hk.
  - pose proof (wf_rule_and _ _ _ Hwf) as Hws. apply compound_make_total.
    + pose proof (plain_rule_nested _ Hp). rewrite !Forall_forall in *. auto.
    + intros attr Hat. by apply staticRuleFromAttributes_total.
  - pose proof (wf_rule_or _ _ _ Hwf) as Hws. apply compound_make_total.
    + pose proof (plain_rule_nested _ Hp). rewrite !Forall_forall in *. auto.
    + intros attr Hat. by apply staticRuleFromAttributes_total.
  - destruct (IH Hwf Hp) as ([[sr attr]|] & -> & Hat); simpl; [|by exists None].
    eexists. split; [done|]. intros ? ? [= <- <-]. by eapply Hat.
Qed.

(** The kvs hold no value that stands for an error. *)
Definition no_errors (kvs : gmap string string) : Prop :=
  forall k v, kvs !! k = Some v -> v <> errorValue.

Lemma mapReadAPI_store kvs k : no_errors kvs -> mapReadAPI_get kvs k = inr (kvs !! k).
Proof.
  intros Hne. unfold mapReadAPI_get. destruct (kvs !! k) as [v|] eqn:E; [|done].
  by rewrite decide_False by eauto.
Qed.

End no_panic.

(** ** Completeness of triggering *)
(** Every parameter in [N] has a value. *)
Definition covers (N : list string) (a : extendedAttributes) : Prop :=
  forall n, n ∈ N -> exists v, FindAttribute a n = Some (Some v).

Section triggering.
Context {R : Regexp} {RL : RegexpLaws R}.

(** Every pattern of the rule has exactly the parameters [N], and no leaf
    carries attributes (of a key expansion) with those names. *)
Fixpoint uniform (N : list string) (r : DynamicRule) : Prop :=
  match r with
  | leafRule krp =>
    (forall p, p ∈ patterns krp -> plain_pattern p = true /\ same_elems (params (pattern_segments p)) N) /\
    Forall (fun ai => ai_key ai ∉ N) (attributes krp)
  | andDynamicRule rs _ _ | orDynamicRule rs _ _ => Forall_fix (uniform N) rs
  | notDynamicRule r' _ _ => uniform N r'
  end.

(** [p] is a pattern of a leaf of [r] and no earlier pattern of that leaf
    matches [key]. *)
Fixpoint triggers (key p : string) (r : DynamicRule) : Prop :=
  match r with
  | leafRule krp =>
    exists i, patterns krp !! i = Some p /\
      forall j m, j < i -> matchers krp !! j = Some m -> match_ m key = None
  | andDynamicRule rs _ _ | orDynamicRule rs _ _ =>
    (fix go l := match l with [] => False | r' :: l' => triggers key p r' \/ go l' end) rs
  | notDynamicRule r' _ _ => triggers key p r'
  end.

Lemma triggers_nested key p rs :
  (fix go l := match l with [] => False | r' :: l' => triggers key p r' \/ go l' end) rs ->
  Exists (triggers key p) rs.
Proof. induction rs as [|r rs IH]; [done|]. intros [?|?]; [by left | right; auto]. Qed.

Lemma triggers_pattern key p r : triggers key p r -> p ∈ pattern_list r.
Proof.
  assert (forall rs, Forall (fun r => triggers key p r -> p ∈ pattern_list r) rs ->
    Exists (triggers key p) rs -> p ∈ flat_map pattern_list rs) as Hex.
  { intros rs IH (r' & Hr' & Ht)%Exists_exists. rewrite Forall_forall in IH. apply elem_of_flat_map. eauto. }
  induction r as [krp|rs ps qs IH|rs ps qs IH|r ps qs IH] using DynamicRule_nested_ind; simpl;
    [intros (i & Hi%list_elem_of_lookup_2 & _); done | intros Ht%triggers_nested; auto.. | done].
Qed.

Lemma uniform_plain N r p : uniform N r -> p ∈ pattern_list r ->
  plain_pattern p = true /\ same_elems (params (pattern_segments p)) N.
Proof.
  assert (forall rs, Forall (fun r => uniform N r -> p ∈ pattern_list r ->
              plain_pattern p = true /\ same_elems (params (pattern_segments p)) N) rs ->
            Forall_fix (uniform N) rs -> p ∈ flat_map pattern_list rs ->
            plain_pattern p = true /\ same_elems (params (pattern_segments p)) N) as Hnested.
  { intros rs IH Hu (r' & Hr & Hp)%elem_of_flat_map. apply Forall_fix_Forall in Hu.
    rewrite Forall_forall in Hu, IH. by apply (IH r' Hr (Hu r' Hr)). }
  induction r as [krp|rs ps qs IH|rs ps qs IH|r ps qs IH] using DynamicRule_nested_ind; simpl;
    [intros [Hu _]; apply Hu | by apply Hnested.. | done].
Qed.

Lemma match_covers p rkm key m :
  matcher_of p rkm -> match_ rkm key = Some m -> covers (params (pattern_segments p)) m.
Proof.
  intros [_ Hf Hs]. unfold match_, newKeyMatch. rewrite Hs.
  destruct (search_segments _ key) as [l|] eqn:E; [|done]. intros [= <-] n Hn. simpl. rewrite Hf.
  apply search_segments_Some in E as (b & s' & caps & rest & _ & Hm & ->).
  apply match_segments_sound in Hm as (_ & Hl & _).
  destruct (km_lookup_in p (str_take (String.length s' - String.length rest) s') caps n Hl Hn)
    as (j & v & _ & _ & ->). eauto.
Qed.

Lemma find_instance_notin attrs n :
  Forall (fun ai => ai_key ai <> n) attrs -> find_instance attrs n = None.
Proof. induction 1 as [|ai attrs Hne _ IH]; simpl; [done|]. by rewrite decide_False. Qed.

Lemma nesting_find (N : list string) m attrs n :
  Forall (fun ai => ai_key ai ∉ N) attrs -> n ∈ N ->
  FindAttribute (nestingAttributes m attrs) n = FindAttribute m n.
Proof.
  intros Ha Hn. simpl. rewrite find_instance_notin; [done|].
  eapply Forall_impl; [exact Ha|]. simpl. intros ai Hai Heq. by rewrite Heq in Hai.
Qed.

Lemma covers_all_found N a segs :
  covers N a -> (forall n, n ∈ params segs -> n ∈ N) -> all_found (attr_env a) segs = true.
Proof.
  intros Hc Hn. apply all_found_true. intros n Hin. destruct (Hc n (Hn n Hin)) as [v Hv].
  unfold attr_env. rewrite Hv. by eexists.
Qed.

Lemma format_keys_covers N a ms :
  attr_total a -> covers N a ->
  Forall (fun m => forall n, n ∈ params (pattern_segments (getPattern m)) -> n ∈ N) ms ->
  format_keys a ms = Some (Some ((fun m => pattern_key (attr_env a) (getPattern m)) <$> ms)).
Proof.
  intros Ha Hc. induction 1 as [|m ms Hm _ IH]; simpl; [done|].
  rewrite attr_total_formatPath by done. simpl. rewrite (covers_all_found N) by done.
  rewrite IH. done.
Qed.

(** Instantiating a uniform rule from covering attributes succeeds. *)
Lemma staticRuleFromAttributes_covers N r a :
  wf_rule r -> uniform N r -> attr_total a -> covers N a ->
  exists sr, staticRuleFromAttributes r a = Some (Some sr) /\ has_keys sr = true.
Proof.
  intros Hwf Hu Ha Hc. revert Hwf Hu.
  assert (forall rs, Forall (fun r => wf_rule r -> uniform N r ->
              exists sr, staticRuleFromAttributes r a = Some (Some sr) /\ has_keys sr = true) rs ->
            Forall wf_rule rs -> Forall_fix (uniform N) rs ->
            exists srs, from_loop (fun r => staticRuleFromAttributes r a) rs = Some (Some srs) /\
              forallb has_keys srs = true) as Hloop.
  { induction 1 as [|r' rs Hr _ IH]; simpl; [by exists []|].
    rewrite Forall_cons. intros [Hw Hws] [Hu Hus].
    destruct (Hr Hw Hu) as (sr & -> & Hk). simpl. destruct (IH Hws Hus) as (srs & -> & Hks).
    exists (sr :: srs). simpl. by rewrite Hk. }
  induction r as [krp|rs ps qs IH|rs ps qs IH|r ps qs IH] using DynamicRule_nested_ind;
    intros Hwf Hu; from_methods.
  - destruct Hu as [Hps _]. unfold leaf_staticRuleFromAttributes.
    rewrite (format_keys_covers N a) by (done || (apply Forall_forall; intros m Hm;
      destruct (leaf_matchers krp m Hwf Hm) as (p & Hp & Hn%newRegexKeyMatcher_pattern);
      unfold getPattern; rewrite Hn; intros n; by apply (Hps p Hp))).
    simpl. pose proof (wf_leaf_matchers_length krp Hwf) as Hlen.
    assert ((fun m => pattern_key (attr_env a) (getPattern m)) <$> matchers krp <> []) as Hne
      by (by destruct (matchers krp)).
    destruct (newRule_total (factory krp) _ a Hne) as [sr Hsr]. rewrite Hsr. exists sr.
    split; [done|]. by eapply newRule_has_keys.
  - destruct (Hloop rs IH (wf_rule_and _ _ _ Hwf) Hu) as (srs & -> & Hk). by eexists.
  - destruct (Hloop rs IH (wf_rule_or _ _ _ Hwf) Hu) as (srs & -> & Hk). by eexists.
  - destruct (IH Hwf Hu) as (sr & -> & Hk). by eexists.
Qed.

Lemma from_keys r a sr :
  wf_rule r -> staticRuleFromAttributes r a = Some (Some sr) ->
  getKeys sr = pattern_key (attr_env a) <$> pattern_list r.
Proof.
  intros Hwf Hs. apply staticRuleFromAttributes_spec in Hs as [Hk _]; [|done].
  apply Forall2_keys_fmap. eapply Forall2_impl; [exact Hk|]. simpl.
  intros p k Hf. by eapply Format_pattern_key, formatPath_Format.
Qed.

(** What a trigger of a uniform rule yields. *)
Definition made (N : list string) (r : DynamicRule) (sr : staticRule) (attr : extendedAttributes) : Prop :=
  attr_total attr /\ covers N attr /\ has_keys sr = true /\
  getKeys sr = pattern_key (attr_env attr) <$> pattern_list r.

Lemma pattern_key_ext env1 env2 (N : list string) p :
  (forall n, n ∈ params (pattern_segments p) -> n ∈ N) -> (forall n, n ∈ N -> env1 n = env2 n) ->
  pattern_key env1 p = pattern_key env2 p.
Proof. intros Hp He. apply render_ext. auto. Qed.

Lemma leaf_made N krp key sr attr :
  wf_leaf krp -> uniform N (leafRule krp) -> leaf_makeStaticRule krp key = Some (Some (sr, attr)) ->
  made N (leafRule krp) sr attr.
Proof.
  intros Hwf Hu Hm. assert (plain_rule (leafRule krp)) as Hplain.
  { intros p Hp. by apply (uniform_plain N _ p Hu Hp). }
  destruct (leaf_make_spec krp key sr attr Hwf Hm) as (m & -> & Hfm & Hk & Hhk & _).
  destruct Hu as [Hps Hattrs].
  assert (forall n, n ∈ N -> FindAttribute (nestingAttributes m (attributes krp)) n = FindAttribute m n)
    as Hfind by (intros; by eapply nesting_find).
  split_and!; [| |done|].
  - apply attr_total_nesting; [by eapply leaf_match_total | apply Hwf].
  - apply first_match_inv in Hfm as (rkm & Hin & Hmatch).
    destruct (leaf_matchers krp rkm Hwf Hin) as (p & Hp & Hnew).
    destruct (Hps p Hp) as [Hpl Hsame]. intros n Hn. rewrite Hfind by done.
    eapply match_covers; [by eapply newRegexKeyMatcher_matcher_of | done | by apply Hsame].
  - apply Forall2_keys_fmap. eapply (Forall2_Forall_impl (fun p => p ∈ patterns krp)); [| |exact Hk].
    + by apply Forall_forall.
    + simpl. intros p k Hp ->%Format_pattern_key. apply (pattern_key_ext _ _ N).
      * intros n. by apply (Hps p Hp).
      * intros n Hn. unfold attr_env. by rewrite Hfind.
Qed.

Lemma first_satisfiable_inv {A} (make : A -> option (option (staticRule * extendedAttributes)))
    key value (rs : list A) attr :
  first_satisfiable make key value rs = Some (Some attr) ->
  exists r sr, r ∈ rs /\ make r = Some (Some (sr, attr)) /\ satisfiable sr key value = true.
Proof.
  induction rs as [|r rs IH]; simpl; [done|]. rewrite bind_Some.
  intros ([[sr a]|] & Hr & Hrest).
  - destruct (satisfiable sr key value) eqn:Hs.
    + injection Hrest as ->. exists r, sr. set_solver.
    + apply IH in Hrest as (r' & sr' & ? & ? & ?). exists r', sr'. set_solver.
  - apply IH in Hrest as (r' & sr' & ? & ? & ?). exists r', sr'. set_solver.
Qed.

Lemma first_satisfiable_finds {A} (make : A -> option (option (staticRule * extendedAttributes)))
    key value (rs : list A) :
  Forall (fun r => is_Some (make r)) rs ->
  Exists (fun r => exists sr attr, make r = Some (Some (sr, attr)) /\ satisfiable sr key value = true) rs ->
  exists attr, first_satisfiable make key value rs = Some (Some attr).
Proof.
  intros Htot Hex. induction Hex as [r rs (sr & attr & Hm & Hs)|r rs Hex IH]; simpl.
  - rewrite Hm. simpl. rewrite Hs. eauto.
  - apply Forall_cons in Htot as [[o Ho] Htot]. rewrite Ho. simpl.
    destruct o as [[sr attr]|]; [|by apply IH].
    destruct (satisfiable sr key value); [eauto | by apply IH].
Qed.

Lemma made_satisfiable N r sr attr key value :
  made N r sr attr -> satisfiable sr key value = true <-> key ∈ getKeys sr.
Proof.
  intros (_ & _ & Hk & _). rewrite satisfiable_keyMatch, keyMatch_getKeys by done.
  by rewrite bool_decide_eq_true.
Qed.

(** A compound rule triggered by one of its nested rules. *)
Lemma compound_made N r key value (rs : list DynamicRule) sr attr :
  wf_rule r -> uniform N r -> (forall r', r' ∈ rs -> forall sr attr,
    makeStaticRule r' key value = Some (Some (sr, attr)) -> made N r' sr attr) ->
  compound_makeStaticRule (fun r => makeStaticRule r key value) (staticRuleFromAttributes r)
    key value rs = Some (Some (sr, attr)) ->
  made N r sr attr.
Proof.
  intros Hwf Hu IH Hm. pose proof (compound_make_from _ _ _ _ _ _ _ Hm) as Hfrom.
  unfold compound_makeStaticRule in Hm. apply bind_Some in Hm as ([a|] & Hfs & Hr); [|done].
  rewrite bind_Some in Hr. destruct Hr as ([sr'|] & _ & [= <- <-]).
  apply first_satisfiable_inv in Hfs as (r' & sr0 & Hr' & Hmake & _).
  destruct (IH r' Hr' _ _ Hmake) as (Hat & Hc & _ & _).
  destruct (staticRuleFromAttributes_covers N r a Hwf Hu Hat Hc) as (sr1 & Hs1 & Hk1).
  rewrite Hfrom in Hs1. simplify_eq. split_and!; [done | done | done |]. by apply from_keys.
Qed.

Lemma makeStaticRule_made N r key value sr attr :
  wf_rule r -> uniform N r -> makeStaticRule r key value = Some (Some (sr, attr)) -> made N r sr attr.
Proof.
  revert sr attr. induction r as [krp|rs ps qs IH|rs ps qs IH|r ps qs IH] using DynamicRule_nested_ind;
    intros sr attr Hwf Hu; make_methods.
  - by apply leaf_made.
  - apply compound_made; [done..|]. intros r' Hr' sr' attr' Hm. rewrite Forall_forall in IH.
    pose proof (wf_rule_and _ _ _ Hwf) as Hw. pose proof (proj1 (Forall_fix_Forall (uniform N) rs) Hu) as Hus.
    rewrite Forall_forall in Hw, Hus. apply (IH r' Hr'); [exact (Hw r' Hr') | exact (Hus r' Hr') | done].
  - apply compound_made; [done..|]. intros r' Hr' sr' attr' Hm. rewrite Forall_forall in IH.
    pose proof (wf_rule_or _ _ _ Hwf) as Hw. pose proof (proj1 (Forall_fix_Forall (uniform N) rs) Hu) as Hus.
    rewrite Forall_forall in Hw, Hus. apply (IH r' Hr'); [exact (Hw r' Hr') | exact (Hus r' Hr') | done].
  - rewrite bind_Some. intros ([[ns a']|] & Hm & Heq); simplify_eq/=.
    exact (IH ns attr Hwf Hu Hm).
Qed.

(** The attributes give every parameter in [N] a value that can be captured. *)
Definition valid_attrs (N : list string) (a : extendedAttributes) : Prop :=
  forall n, n ∈ N -> exists v, FindAttribute a n = Some (Some v) /\ valid_value v = true.

Lemma first_match_at ms i m key a :
  ms !! i = Some m -> match_ m key = Some a ->
  (forall j m', j < i -> ms !! j = Some m' -> match_ m' key = None) ->
  first_match ms key = Some a.
Proof.
  revert i. induction ms as [|m0 ms IH]; intros [|i]; simpl; try done.
  - intros [= ->] Hm _. by rewrite Hm.
  - intros Hi Hm Hno. rewrite (Hno 0 m0) by (done || lia). apply (IH i); [done..|].
    intros j m' Hj. apply (Hno (S j)). lia.
Qed.

Lemma leaf_trigger N krp key p a :
  wf_leaf krp -> uniform N (leafRule krp) -> valid_attrs N a -> Format a p = Some key ->
  triggers key p (leafRule krp) ->
  exists sr attr, leaf_makeStaticRule krp key = Some (Some (sr, attr)) /\ key ∈ getKeys sr.
Proof.
  intros Hwf Hu Hval Hfmt (i & Hi & Hno). assert (plain_rule (leafRule krp)) as Hplain.
  { intros p' Hp. by apply (uniform_plain N _ p' Hu Hp). }
  pose proof (list_elem_of_lookup_2 _ _ _ Hi) as Hp. destruct Hu as [Hps Hattrs].
  destruct (Hps p Hp) as [Hpl Hsame].
  destruct (newMatchers_Forall2 _ _ _ (wf_matchers _ Hwf)) as [Hf _].
  destruct (Forall2_lookup_l _ _ _ _ _ Hf Hi) as (rkm & Hrkm & Hnew).
  destruct (match_render p key rkm a Hpl Hnew Hfmt) as (m & Hm & Hag).
  { intros n Hn. apply Hval. by apply Hsame. }
  pose proof (first_match_at _ _ _ _ _ Hrkm Hm Hno) as Hfm.
  destruct (makeStaticRule_total (leafRule krp) key None Hwf Hplain) as (o & Ho & _).
  cbn [makeStaticRule] in Ho; autounfold with rule_methods in Ho. destruct o as [[sr attr]|].
  - exists sr, attr. split; [done|].
    destruct (leaf_make_spec krp key sr attr Hwf Ho) as (m' & _ & Hfm' & Hk & _).
    rewrite Hfm in Hfm'. injection Hfm' as <-.
    destruct (Forall2_lookup_l _ _ _ _ _ Hk Hi) as (k & Hki & Hfk).
    assert (k = key) as ->; [|by eapply list_elem_of_lookup_2].
    rewrite (Format_pattern_key _ _ _ Hfk), (Format_pattern_key _ _ _ Hfmt).
    apply render_ext. intros n Hn. unfold attr_env. by rewrite Hag.
  - unfold leaf_makeStaticRule in Ho. rewrite Hfm in Ho.
    apply bind_Some in Ho as (? & _ & Ho). by apply bind_Some in Ho as (? & _ & ?).
Qed.

Lemma compound_trigger N r key value (rs : list DynamicRule) :
  wf_rule r -> uniform N r -> pattern_list r = flat_map pattern_list rs ->
  Forall wf_rule rs -> Forall (uniform N) rs ->
  Exists (fun r' => exists sr attr,
    makeStaticRule r' key value = Some (Some (sr, attr)) /\ key ∈ getKeys sr) rs ->
  exists sr attr,
    compound_makeStaticRule (fun r => makeStaticRule r key value) (staticRuleFromAttributes r)
      key value rs = Some (Some (sr, attr)) /\ key ∈ getKeys sr.
Proof.
  intros Hwf Hu Hpl Hws Hus Hex. rewrite Forall_forall in Hws, Hus.
  destruct (first_satisfiable_finds (fun r => makeStaticRule r key value) key value rs) as [attr Hfs].
  { apply Forall_forall. intros r' Hr'.
    destruct (makeStaticRule_total r' key value (Hws r' Hr')) as (o & -> & _); [|done].
    intros p Hp. by apply (uniform_plain N _ p (Hus r' Hr') Hp). }
  { apply Exists_exists in Hex as (r' & Hr' & sr & attr & Hm & Hk). apply Exists_exists.
    exists r'. split; [done|]. exists sr, attr. split; [done|].
    apply (made_satisfiable N r' sr attr); [|done]. by eapply makeStaticRule_made; eauto. }
  pose proof (first_satisfiable_inv _ _ _ _ _ Hfs) as (r' & sr' & Hr' & Hm' & Hs').
  pose proof (makeStaticRule_made N r' key value sr' attr (Hws r' Hr') (Hus r' Hr') Hm') as Hmade.
  rewrite (made_satisfiable N r' sr' attr) in Hs' by done.
  destruct Hmade as (Hat & Hc & _ & Hks).
  destruct (staticRuleFromAttributes_covers N r attr Hwf Hu Hat Hc) as (sr & Hs & _).
  exists sr, attr. unfold compound_makeStaticRule. rewrite Hfs. simpl. rewrite Hs. split; [done|].
  rewrite (from_keys r attr sr Hwf Hs), Hpl. rewrite Hks in Hs'.
  apply list_elem_of_fmap in Hs' as (p & -> & Hp). apply list_elem_of_fmap. exists p. split; [done|].
  apply elem_of_flat_map. eauto.
Qed.

Lemma trigger_made N r key value p a :
  wf_rule r -> uniform N r -> valid_attrs N a -> Format a p = Some key -> triggers key p r ->
  exists sr attr, makeStaticRule r key value = Some (Some (sr, attr)) /\ key ∈ getKeys sr.
Proof.
  intros Hwf Hu Hval Hfmt Htr. revert Hwf Hu Htr.
  assert (forall rs, Forall (fun r => wf_rule r -> uniform N r -> triggers key p r -> exists sr attr,
              makeStaticRule r key value = Some (Some (sr, attr)) /\ key ∈ getKeys sr) rs ->
            Forall wf_rule rs -> Forall (uniform N) rs -> Exists (triggers key p) rs ->
            Exists (fun r' => exists sr attr,
              makeStaticRule r' key value = Some (Some (sr, attr)) /\ key ∈ getKeys sr) rs) as Hex.
  { intros rs IH Hws Hus (r' & Hr' & Ht)%Exists_exists. rewrite Forall_forall in IH, Hws, Hus.
    apply Exists_exists. exists r'. split; [done|].
    exact (IH r' Hr' (Hws r' Hr') (Hus r' Hr') Ht). }
  induction r as [krp|rs ps qs IH|rs ps qs IH|r ps qs IH] using DynamicRule_nested_ind;
    intros Hwf Hu Htr; make_methods.
  - by eapply leaf_trigger.
  - pose proof (wf_rule_and _ _ _ Hwf) as Hws.
    pose proof (proj1 (Forall_fix_Forall (uniform N) rs) Hu) as Hus.
    apply triggers_nested in Htr. apply (compound_trigger N); auto.
  - pose proof (wf_rule_or _ _ _ Hwf) as Hws.
    pose proof (proj1 (Forall_fix_Forall (uniform N) rs) Hu) as Hus.
    apply triggers_nested in Htr. apply (compound_trigger N); auto.
  - destruct (IH Hwf Hu Htr) as (sr & attr & -> & Hk). simpl. eauto.
Qed.

(** C19: A well-formed rule whose patterns are plain and all have the same
    parameters is triggered by its keys, if the matchers do not mistake them: let
    a key be one of the patterns formatted with a valid value (non-empty, no '/'
    and no ':') for each parameter, and let no earlier pattern of the same leaf
    match it (the matchers are not anchored, so an equals rule may have such a
    pattern, see [equals_rule_not_triggered]).  Then the rule is instantiated and
    the key is one of the keys of the instance. *)
Theorem trigger_complete (N : list string) (r : DynamicRule) (key p : string)
    (value : option string) (a : extendedAttributes)
    (Hwf : wf_rule r) (Huniform : uniform N r) (Hvalid : valid_attrs N a)
    (Hfmt : Format a p = Some key) (Htr : triggers key p r) :
  exists sr attr, makeStaticRule r key value = Some (Some (sr, attr)) /\ key ∈ getKeys sr.
Proof. by eapply trigger_made. Qed.

End triggering.

(** ** Where triggering surprises *)
(** The keys of the rule a trigger instantiates, and whether the plain filter
    keeps it. *)
Definition triggered `{Regexp} (rule : result DynamicRule) (key : string) (value : option string) :
    option (list string * bool) :=
  match rule with
  | inl _ => None
  | inr r =>
    match makeStaticRule r key value with
    | Some (Some (sr, _)) => Some (getKeys sr, satisfiable sr key value)
    | _ => None
    end
  end.

(** A key of an equals rule does not always trigger it: the matchers are
    not anchored, so the first pattern "/:a/:b" already matches a part of the
    key "/k/1/2" of the second pattern; the attributes are then wrong, the key
    is none of the keys of the instantiated rule and the filter drops it. *)
Theorem equals_rule_not_triggered :
  Format (mapAttributes (<["a" := "1"]> (<["b" := "2"]> ∅))) "/k/:a/:b" = Some "/k/1/2" /\
  triggered (H := segment_regexp) (NewEqualsRule ["/:a/:b"; "/k/:a/:b"]) "/k/1/2" (Some "v") =
    Some (["/k/1"; "/k/k/1"], false).
Proof. split; vm_compute; reflexivity. Qed.

Definition satisfied_with `{Regexp} (rule : result DynamicRule) (key : string) (value : option string)
    (kvs : gmap string string) : option (result bool) :=
  match rule with
  | inl _ => None
  | inr r => RuleSatisfied r key value kvs
  end.

(** [RuleSatisfied] does not report a trigger key that lacks a path
    variable of an equals rule: the unresolved placeholder is taken as part of
    a literal key "/b/:y" and the rule is evaluated with it. *)
Theorem RuleSatisfied_unresolved :
  satisfied_with (H := segment_regexp) (NewEqualsRule ["/a/:x"; "/b/:y"]) "/a/1" (Some "v")
    (<["/a/1" := "v"]> (<["/b/:y" := "v"]> ∅)) = Some (inr true) /\
  satisfied_with (H := segment_regexp) (NewEqualsRule ["/a/:x"; "/b/:y"]) "/a/1" (Some "v")
    (<["/a/1" := "v"]> (<["/b/2" := "v"]> ∅)) = Some (inr false).
Proof. split; vm_compute; reflexivity. Qed.
