(* ===== verification/Expand.v ===== *)
(** * Key expansion (rules/dynamic_rule.go) *)
(** [Expand] replaces parameters of a rule by the values the option
    [KeyExpansion] gives for them: one rule per choice of values.  The calls
    of [Expand] on rules it has just built are not structural, so the model
    takes fuel; running out of it ([NoFuel]) is kept apart from a panic. *)
From S2P Require Import Prelude GoString Attributes Matcher StaticRule DynamicRule Instantiation.

(** ** Outcomes *)
Inductive outcome (A : Type) :=
| Done (a : A)
| Panicked
| NoFuel.
Arguments Done {A} a.
Arguments Panicked {A}.
Arguments NoFuel {A}.

#[export] Instance outcome_ret : MRet outcome := fun A a => Done a.
#[export] Instance outcome_bind : MBind outcome := fun A B f o =>
  match o with
  | Done a => f a
  | Panicked => Panicked
  | NoFuel => NoFuel
  end.

Definition of_option {A} (o : option A) : outcome A :=
  match o with Some a => Done a | None => Panicked end.

(** A loop that appends to [out] what each element contributes. *)
Fixpoint concat_loop {A B} (f : A -> outcome (list B)) (l : list A) : outcome (list B) :=
  match l with
  | [] => Done []
  | x :: l' => ys ← f x; zs ← concat_loop f l'; Done (ys ++ zs)
  end.

(** A loop that appends one element each time and collects a flag. *)
Fixpoint flag_loop {A B} (f : A -> outcome (B * bool)) (l : list A) : outcome (list B * bool) :=
  match l with
  | [] => Done ([], false)
  | x :: l' =>
    '(y, b) ← f x; '(ys, bs) ← flag_loop f l'; Done (y :: ys, b || bs)
  end.

(** ** The operations *)
Section expand.
Context `{Regexp} `{GoRange}.

Abbreviation values_map := (gmap string (list string)).
Abbreviation expander := (DynamicRule -> values_map -> outcome (list DynamicRule * bool)).

(** [newNotRule] is only called with the rules of a negation, of which there
    is one. *)
Definition newNotRule (rules : list DynamicRule) : option DynamicRule :=
  match rules with
  | [r] => Some (NewNotRule r)
  | _ => None
  end.

(** The map [params] of the parameters in the patterns of a leaf. *)
Definition leaf_params (ps : list string) : gmap string string :=
  fold_left
    (fun m pattern =>
       fold_left (fun m' param => <[param := EmptyString]> m') (range_keys (fst (parsePath pattern))) m)
    ps ∅.

(** The first parameter the loop meets that has values. *)
Fixpoint first_valued (valueMap : values_map) (ps : list string) : option (string * list string) :=
  match ps with
  | [] => None
  | param :: ps' =>
    match valueMap !! param with
    | Some values => Some (param, values)
    | None => first_valued valueMap ps'
    end
  end.

(** The rules one value of a parameter contributes: a rule that does not
    compile is dropped. *)
Definition expand_value (Expand : expander) (krp : dynamicRule) (valueMap : values_map)
    (param value : string) : outcome (list DynamicRule) :=
  let attrs := finderAttributes (mapAttributes {[param := value]}) in
  newPatterns ← of_option (mapM (fun pattern => FormatWithAttributes pattern attrs) (patterns krp));
  let newAttributes := attributes krp ++ [mkAttributeInstance param (Some value)] in
  let rep' := ReplaceAll (rep krp) ("/:" +:+ param +:+ "/") ("/" +:+ value +:+ "/") in
  match newDynamicRule (factory krp) newPatterns rep' newAttributes with
  | inl _ => Done []
  | inr rule => '(exp, _) ← Expand rule valueMap; Done exp
  end.

Definition leaf_Expand (Expand : expander) (krp : dynamicRule) (valueMap : values_map) :
    outcome (list DynamicRule * bool) :=
  match first_valued valueMap (range_keys (leaf_params (patterns krp))) with
  | None => Done ([leafRule krp], false)
  | Some (param, values) =>
    out ← concat_loop (expand_value Expand krp valueMap param) values; Done (out, true)
  end.

(** One nested rule of a compound rule for one key and value; [expandedRule[0]]
    panics when the nested rule expanded to nothing. *)
Definition expand_nested (Expand : expander) (attr : values_map) (nested : DynamicRule) :
    outcome (DynamicRule * bool) :=
  '(expandedRule, gotExpanded) ← Expand nested attr;
  r ← of_option (head expandedRule);
  Done (r, gotExpanded).

(** The rule made for one value of a key, and whether anything expanded. *)
Definition expand_key_value (Expand : expander) (constructor : list DynamicRule -> option DynamicRule)
    (nestedDynamicRules : list DynamicRule) (key value : string) : outcome (DynamicRule * bool) :=
  '(newNested, keyExpansion) ←
    flag_loop (expand_nested Expand {[key := [value]]}) nestedDynamicRules;
  r ← of_option (constructor newNested);
  Done (r, keyExpansion).

(** The loop of [compoundDynamicRule.expand] over the map of values: it ends
    at the first key that expands a nested rule. *)
Fixpoint expand_keys (Expand : expander) (constructor : list DynamicRule -> option DynamicRule)
    (nestedDynamicRules : list DynamicRule) (valueMap : values_map)
    (entries : list (string * list string)) : outcome (option (list DynamicRule)) :=
  match entries with
  | [] => Done None
  | (key, values) :: entries' =>
    '(newRules, keyExpansion) ←
      flag_loop (expand_key_value Expand constructor nestedDynamicRules key) values;
    if keyExpansion : bool then
      out ← concat_loop (fun rule => '(expandedRules, _) ← Expand rule valueMap; Done expandedRules)
              newRules;
      Done (Some out)
    else expand_keys Expand constructor nestedDynamicRules valueMap entries'
  end.

Definition compound_expand (Expand : expander) (nestedDynamicRules : list DynamicRule)
    (valueMap : values_map) (constructor : list DynamicRule -> option DynamicRule)
    (dr : DynamicRule) : outcome (list DynamicRule * bool) :=
  r ← expand_keys Expand constructor nestedDynamicRules valueMap (range valueMap);
  match r with
  | Some out => Done (out, true)
  | None => Done ([dr], false)
  end.

Fixpoint Expand (fuel : nat) (rule : DynamicRule) (valueMap : values_map) :
    outcome (list DynamicRule * bool) :=
  match fuel with
  | 0 => NoFuel
  | S fuel' =>
    match rule with
    | leafRule krp => leaf_Expand (Expand fuel') krp valueMap
    | andDynamicRule nested _ _ =>
      compound_expand (Expand fuel') nested valueMap (fun rs => Some (NewAndRule rs)) rule
    | orDynamicRule nested _ _ =>
      compound_expand (Expand fuel') nested valueMap (fun rs => Some (NewOrRule rs)) rule
    | notDynamicRule nested _ _ =>
      compound_expand (Expand fuel') [nested] valueMap newNotRule rule
    end
  end.
End expand.

(** ** Substituting values for parameters *)
Definition assignment : Type := string -> option string.

Definition override (s env : assignment) : assignment := fun n =>
  match s n with Some v => Some v | None => env n end.

Definition single (key value : string) : assignment := fun n =>
  if decide (n = key) then Some value else None.

Definition subst_segment (s : assignment) (seg : segment) : segment :=
  match seg with
  | Lit l => Lit l
  | Param n => match s n with Some v => Lit v | None => Param n end
  end.

(** The values [Expand] can substitute: one plain segment of a path. *)
Definition expandable (v : string) : bool :=
  bool_decide (v <> EmptyString) && bool_decide (slash ∉ chars v) &&
  negb (HasPrefix v colon_str) && forallb plain_char (chars v).

Lemma expandable_spec v :
  expandable v = true ->
  v <> EmptyString /\ (slash ∉ chars v) /\ parse_segment v = Lit v /\ plain_segment (Lit v) = true.
Proof.
  unfold expandable. rewrite !andb_true_iff, !bool_decide_eq_true, negb_true_iff.
  intros [[[Hne Hs] Hc] Hp]. split_and!; [done | done | |].
  - unfold parse_segment. by rewrite Hc.
  - simpl. by rewrite Hp, bool_decide_eq_true_2.
Qed.

(** A segment as [pattern_segments] yields it. *)
Definition proper_segment (seg : segment) : Prop :=
  exists s, seg = parse_segment s /\ s <> EmptyString /\ slash ∉ chars s.

Lemma pattern_segments_proper p : Forall proper_segment (pattern_segments p).
Proof.
  unfold pattern_segments, nonempty_parts. apply Forall_forall. intros seg.
  rewrite list_elem_of_fmap. intros (s & -> & [Hne Hin]%list_elem_of_filter). exists s.
  split_and!; [done | done |]. pose proof (Split_no_sep p slash) as Hns.
  rewrite Forall_forall in Hns. auto.
Qed.

Lemma render_segment_proper s seg :
  proper_segment seg -> (forall n v, s n = Some v -> expandable v = true) ->
  let t := render_segment s seg in
  t <> EmptyString /\ (slash ∉ chars t) /\ parse_segment t = subst_segment s seg.
Proof.
  intros (t & -> & Hne & Hs) Hval.
  destruct (parse_segment_spec t) as [(n & -> & Hps)|[Hnp Hps]]; rewrite Hps; simpl.
  - destruct (s n) as [v|] eqn:Hv; simpl.
    + destruct (expandable_spec v (Hval _ _ Hv)) as (? & ? & ? & _). done.
    + split_and!; [done | done | apply parse_segment_param].
  - done.
Qed.

Lemma Split_render s segs :
  Forall (fun seg => slash ∉ chars (render_segment s seg)) segs ->
  Split (render s segs) slash = EmptyString :: (render_segment s <$> segs).
Proof.
  induction 1 as [|seg segs Hseg _ IH]; [done|].
  rewrite fmap_cons. simpl render. cbn [Split]. rewrite decide_True by done. f_equal.
  destruct segs as [|seg' segs]; [by simpl; rewrite app_str_nil_r, Split_single|].
  simpl render in *. cbn [Split] in IH. rewrite decide_True in IH by done.
  rewrite Split_app by done. f_equal. by injection IH.
Qed.

(** Formatting a pattern with values substitutes them in its segments. *)
Lemma pattern_segments_render s segs :
  Forall proper_segment segs -> (forall n v, s n = Some v -> expandable v = true) ->
  pattern_segments (render s segs) = subst_segment s <$> segs.
Proof.
  intros Hproper Hval. unfold pattern_segments, nonempty_parts.
  rewrite Split_render by
    (eapply Forall_impl; [exact Hproper|]; intros seg Hseg; by apply render_segment_proper).
  rewrite filter_cons_False by tauto.
  induction Hproper as [|seg segs Hseg _ IH]; [done|].
  destruct (render_segment_proper s seg Hseg Hval) as (Hne & _ & Hps).
  rewrite !fmap_cons, filter_cons_True by done. by rewrite fmap_cons, IH, Hps.
Qed.

Lemma subst_override s1 s2 (segs : list segment) :
  subst_segment s2 <$> (subst_segment s1 <$> segs) = subst_segment (override s1 s2) <$> segs.
Proof.
  rewrite <- list_fmap_compose. apply list_fmap_ext. intros _ [l|n] _; simpl; [done|].
  unfold override. by destruct (s1 n).
Qed.

Lemma subst_ext s1 s2 (segs : list segment) :
  (forall n, n ∈ params segs -> s1 n = s2 n) -> subst_segment s1 <$> segs = subst_segment s2 <$> segs.
Proof.
  induction segs as [|[l|n] segs IH]; intros Hs; [done| |]; rewrite !fmap_cons; simpl in *.
  - by rewrite IH.
  - rewrite (Hs n) by set_solver. f_equal. apply IH. set_solver.
Qed.

Lemma subst_none s (segs : list segment) :
  (forall n, n ∈ params segs -> s n = None) -> subst_segment s <$> segs = segs.
Proof.
  intros Hs. rewrite (subst_ext s (fun _ => None)) by done.
  induction segs as [|[l|n] segs IH]; [done| |]; rewrite fmap_cons; simpl in *; rewrite IH; set_solver.
Qed.

Lemma params_subst s (segs : list segment) n :
  n ∈ params (subst_segment s <$> segs) <-> n ∈ params segs /\ s n = None.
Proof.
  induction segs as [|[l|k] segs IH]; [set_solver| |]; rewrite fmap_cons; simpl; [done|].
  destruct (s k) eqn:Hk; simpl; rewrite ?elem_of_cons, IH; naive_solver.
Qed.

Lemma render_subst s env (segs : list segment) :
  render env (subst_segment s <$> segs) = render (override s env) segs.
Proof.
  induction segs as [|[l|n] segs IH]; [done| |]; rewrite fmap_cons; simpl; rewrite IH; [done|].
  unfold override. by destruct (s n).
Qed.

(** ** Instances of a rule under an assignment *)
Section instances.
Context {R : Regexp}.

Definition pattern_params (ps : list string) : list string :=
  flat_map (fun p => params (pattern_segments p)) ps.

Definition rule_params (r : DynamicRule) : list string := pattern_params (pattern_list r).

Definition subst_pattern (s : assignment) (p p' : string) : Prop :=
  pattern_segments p' = subst_segment s <$> pattern_segments p.

(** The leaf [krp'] is [krp] with the values of [s] in its patterns, and its
    attributes resolve the parameters that were replaced. *)
Record leaf_instance (s : assignment) (krp krp' : dynamicRule) : Prop := {
  li_factory : factory krp' = factory krp;
  li_patterns : Forall2 (subst_pattern s) (patterns krp) (patterns krp');
  li_attributes : forall n, find_instance (attributes krp') n =
    match find_instance (attributes krp) n with
    | Some ai => Some ai
    | None =>
      if decide (n ∈ pattern_params (patterns krp))
      then (fun v => mkAttributeInstance n (Some v)) <$> s n else None
    end
}.

Inductive instance_of (s : assignment) : DynamicRule -> DynamicRule -> Prop :=
| inst_leaf krp krp' :
    leaf_instance s krp krp' -> instance_of s (leafRule krp) (leafRule krp')
| inst_and rs ps qs rs' ps' qs' :
    Forall2 (instance_of s) rs rs' ->
    instance_of s (andDynamicRule rs ps qs) (andDynamicRule rs' ps' qs')
| inst_or rs ps qs rs' ps' qs' :
    Forall2 (instance_of s) rs rs' ->
    instance_of s (orDynamicRule rs ps qs) (orDynamicRule rs' ps' qs')
| inst_not r ps qs r' ps' qs' :
    instance_of s r r' -> instance_of s (notDynamicRule r ps qs) (notDynamicRule r' ps' qs').

(** How deeply compound rules are nested. *)
Fixpoint depth (r : DynamicRule) : nat :=
  match r with
  | leafRule _ => 0
  | andDynamicRule rs _ _ | orDynamicRule rs _ _ => S (foldr (fun r' d => max (depth r') d) 0 rs)
  | notDynamicRule r' _ _ => S (depth r')
  end.

Lemma elem_of_pattern_params ps n :
  n ∈ pattern_params ps <-> exists p, p ∈ ps /\ n ∈ params (pattern_segments p).
Proof. apply elem_of_flat_map. Qed.

Lemma elem_of_rule_params_nested rs n :
  n ∈ pattern_params (flat_map pattern_list rs) <-> exists r, r ∈ rs /\ n ∈ rule_params r.
Proof.
  unfold rule_params. setoid_rewrite elem_of_pattern_params. setoid_rewrite elem_of_flat_map.
  naive_solver.
Qed.

Lemma nested_depth rs r : r ∈ rs -> depth r <= foldr (fun r' d => max (depth r') d) 0 rs.
Proof. induction rs as [|r' rs IH]; simpl; [by rewrite elem_of_nil|]. rewrite elem_of_cons.
  intros [->|Hr%IH]; lia. Qed.

(** The instance at the leaves; the rest of the tree is unchanged. *)
Lemma instance_of_ind_leaf s (P : DynamicRule -> DynamicRule -> Prop) :
  (forall krp krp', leaf_instance s krp krp' -> P (leafRule krp) (leafRule krp')) ->
  (forall rs ps qs rs' ps' qs', Forall2 (instance_of s) rs rs' -> Forall2 P rs rs' ->
     P (andDynamicRule rs ps qs) (andDynamicRule rs' ps' qs') /\
     P (orDynamicRule rs ps qs) (orDynamicRule rs' ps' qs')) ->
  (forall r ps qs r' ps' qs', P r r' -> P (notDynamicRule r ps qs) (notDynamicRule r' ps' qs')) ->
  forall r r', instance_of s r r' -> P r r'.
Proof.
  intros Hl Hc Hn r. induction r as [krp|rs ps qs IH|rs ps qs IH|r ps qs IH] using DynamicRule_nested_ind;
    intros r' Hi; inversion Hi as [? ? Hli|? ? ? ? ? ? Hf|? ? ? ? ? ? Hf|]; subst; auto;
    apply Hc; auto; clear Hi; induction Hf; inversion IH; subst; constructor; auto.
Qed.

Lemma pattern_params_ext s s' ps ps' :
  Forall2 (subst_pattern s) ps ps' -> (forall n, n ∈ pattern_params ps -> s n = s' n) ->
  Forall2 (subst_pattern s') ps ps'.
Proof.
  induction 1 as [|p p' ps ps' Hp _ IH]; intros Hs; constructor.
  - unfold subst_pattern in *. rewrite Hp. apply subst_ext. intros n Hn. apply Hs. simpl. set_solver.
  - apply IH. intros n Hn. apply Hs. simpl. set_solver.
Qed.

Lemma Forall2_nested_params (s s' : assignment) (P : DynamicRule -> DynamicRule -> Prop) rs rs' :
  Forall2 (fun r r' => (forall n, n ∈ rule_params r -> s n = s' n) -> P r r') rs rs' ->
  (forall n, n ∈ pattern_params (flat_map pattern_list rs) -> s n = s' n) -> Forall2 P rs rs'.
Proof.
  intros Hf Hs. setoid_rewrite elem_of_rule_params_nested in Hs.
  induction Hf as [|r r' rs rs' Hr _ IH]; constructor; [apply Hr | apply IH]; set_solver.
Qed.

Lemma instance_ext s s' r r' :
  instance_of s r r' -> (forall n, n ∈ rule_params r -> s n = s' n) -> instance_of s' r r'.
Proof.
  intros Hi. revert r r' Hi. apply (instance_of_ind_leaf s (fun r r' =>
    (forall n, n ∈ rule_params r -> s n = s' n) -> instance_of s' r r')).
  - intros krp krp' [Hf Hp Ha] Hs. constructor. split; [done | by eapply pattern_params_ext|].
    intros n. rewrite Ha. destruct (find_instance _ n); [done|]. case_decide as Hn; [|done].
    by rewrite (Hs n).
  - intros rs ps qs rs' ps' qs' _ IH.
    split; intros Hs; constructor; by eapply Forall2_nested_params.
  - intros r ps qs r' ps' qs' IH Hs. constructor. by apply IH.
Qed.

(** Instances of instances. *)
Lemma Forall2_trans {A B C} (P : A -> B -> Prop) (Q : B -> C -> Prop) (S : A -> C -> Prop) l1 l2 l3 :
  (forall x y z, P x y -> Q y z -> S x z) -> Forall2 P l1 l2 -> Forall2 Q l2 l3 -> Forall2 S l1 l3.
Proof.
  intros HS HP. revert l3. induction HP; intros l3 HQ; inversion HQ; subst; constructor; eauto.
Qed.

Lemma pattern_params_subst s ps ps' n :
  Forall2 (subst_pattern s) ps ps' ->
  n ∈ pattern_params ps' <-> n ∈ pattern_params ps /\ s n = None.
Proof.
  induction 1 as [|p p' ps ps' Hp _ IH]; simpl; [set_solver|].
  rewrite !elem_of_app, IH. unfold subst_pattern in Hp. rewrite Hp, params_subst. tauto.
Qed.

Lemma leaf_instance_trans s1 s2 k1 k2 k3 :
  leaf_instance s1 k1 k2 -> leaf_instance s2 k2 k3 -> leaf_instance (override s1 s2) k1 k3.
Proof.
  intros [Hf1 Hp1 Ha1] [Hf2 Hp2 Ha2]. split; [congruence | |].
  - eapply Forall2_trans; [|exact Hp1 | exact Hp2]. unfold subst_pattern. intros p q t -> ->.
    apply subst_override.
  - intros n. rewrite Ha2, Ha1. destruct (find_instance (attributes k1) n); [done|].
    rewrite (decide_ext _ _ _ _ (pattern_params_subst s1 _ _ n Hp1)). unfold override.
    repeat case_decide; destruct (s1 n) eqn:E; naive_solver.
Qed.

Lemma instance_trans s1 s2 r1 r2 r3 :
  instance_of s1 r1 r2 -> instance_of s2 r2 r3 -> instance_of (override s1 s2) r1 r3.
Proof.
  intros Hi. revert r3. revert r1 r2 Hi. apply (instance_of_ind_leaf s1 (fun r1 r2 => forall r3,
    instance_of s2 r2 r3 -> instance_of (override s1 s2) r1 r3)).
  - intros k1 k2 H1 r3 H2. inversion H2; subst. constructor. by eapply leaf_instance_trans.
  - intros rs ps qs rs' ps' qs' _ IH. split; intros r3 H2; inversion H2; subst; constructor;
      (eapply Forall2_trans; [|exact IH | done]; auto).
  - intros r ps qs r' ps' qs' IH r3 H2. inversion H2; subst. constructor. auto.
Qed.

Lemma Forall2_diag {A} (P : A -> A -> Prop) l : Forall (fun x => P x x) l -> Forall2 P l l.
Proof. induction 1; constructor; auto. Qed.

Lemma instance_refl s r : (forall n, n ∈ rule_params r -> s n = None) -> instance_of s r r.
Proof.
  induction r as [krp|rs ps qs IH|rs ps qs IH|r ps qs IH] using DynamicRule_nested_ind; intros Hs.
  - constructor. split; [done| |].
    + apply Forall2_diag, Forall_forall. intros p Hp. unfold subst_pattern. symmetry.
      apply subst_none. intros n Hn. apply Hs, elem_of_pattern_params. eauto.
    + intros n. destruct (find_instance _ n); [done|]. case_decide as Hn; [|done]. by rewrite Hs.
  - constructor. apply Forall2_diag, Forall_forall. intros r Hr. rewrite Forall_forall in IH.
    apply IH; [done|]. intros n Hn. apply Hs, elem_of_rule_params_nested. eauto.
  - constructor. apply Forall2_diag, Forall_forall. intros r Hr. rewrite Forall_forall in IH.
    apply IH; [done|]. intros n Hn. apply Hs, elem_of_rule_params_nested. eauto.
  - constructor. by apply IH.
Qed.

(** What an instance keeps. *)
Lemma instance_patterns s r r' :
  instance_of s r r' -> Forall2 (subst_pattern s) (pattern_list r) (pattern_list r').
Proof.
  revert r r'. apply instance_of_ind_leaf; simpl; [by intros ?? [] | | done].
  intros rs _ _ rs' _ _ _ IH. split; induction IH; simpl; auto using Forall2_app.
Qed.

Lemma instance_params s r r' n :
  instance_of s r r' -> n ∈ rule_params r' <-> n ∈ rule_params r /\ s n = None.
Proof. intros Hi. by apply pattern_params_subst, instance_patterns. Qed.

Lemma instance_depth s r r' : instance_of s r r' -> depth r' = depth r.
Proof.
  revert r r'. apply instance_of_ind_leaf; simpl; [done | | by intros; f_equal].
  intros rs _ _ rs' _ _ _ IH. split; f_equal; induction IH; simpl; congruence.
Qed.

Lemma pattern_key_subst s env p p' :
  subst_pattern s p p' -> pattern_key env p' = pattern_key (override s env) p.
Proof. unfold subst_pattern, pattern_key. intros ->. apply render_subst. Qed.

Lemma leaf_instance_holds s krp krp' store env :
  leaf_instance s krp krp' -> leaf_holds store env krp' = leaf_holds store (override s env) krp.
Proof.
  intros [Hf Hp _]. unfold leaf_holds. rewrite Hf. destruct (factory krp).
  - destruct Hp as [|p p' ps ps' Hp _]; [done|]. by rewrite (pattern_key_subst _ _ _ _ Hp).
  - destruct Hp as [|p p' ps ps' Hp Hps]; [done|]. rewrite (pattern_key_subst _ _ _ _ Hp).
    induction Hps as [|q q' ps ps' Hq _ IH]; simpl; [done|].
    by rewrite (pattern_key_subst _ _ _ _ Hq), IH.
Qed.

(** Truth depends on the environment pointwise. *)
Lemma rule_holds_ext store env1 env2 r :
  (forall n, env1 n = env2 n) -> rule_holds store env1 r = rule_holds store env2 r.
Proof.
  intros Henv. assert (forall p, pattern_key env1 p = pattern_key env2 p) as Hk.
  { intros p. by apply render_ext. }
  induction r as [krp|rs ps qs IH|rs ps qs IH|r ps qs IH] using DynamicRule_nested_ind; simpl.
  - unfold leaf_holds. destruct (factory krp), (patterns krp) as [|p ps]; try done; [by rewrite Hk|].
    induction ps as [|q ps IH]; simpl; [done|]. by rewrite IH, !Hk.
  - induction IH; simpl; congruence.
  - induction IH; simpl; congruence.
  - by rewrite IH.
Qed.

(** An instance is true in an environment when the rule is true in that
    environment changed by the assignment. *)
Lemma instance_holds s r r' store env :
  instance_of s r r' -> rule_holds store env r' = rule_holds store (override s env) r.
Proof.
  revert r r'. apply instance_of_ind_leaf; simpl.
  - intros. by apply leaf_instance_holds.
  - intros rs _ _ rs' _ _ _ IH. split; induction IH; simpl; congruence.
  - intros r _ _ r' _ _ IH. by rewrite IH.
Qed.

Lemma instance_plain s r r' :
  instance_of s r r' -> (forall n v, s n = Some v -> expandable v = true) ->
  plain_rule r -> plain_rule r'.
Proof.
  intros Hi%instance_patterns Hval Hp p' Hp'. apply list_elem_of_lookup in Hp' as [i Hi'].
  destruct (Forall2_lookup_r _ _ _ _ _ Hi Hi') as (p & Hlp & Hs). unfold subst_pattern in Hs.
  specialize (Hp p (list_elem_of_lookup_2 _ _ _ Hlp)). unfold plain_pattern in *. rewrite Hs.
  clear -Hp Hval. induction (pattern_segments p) as [|[l|n] segs IH]; [done| |];
    rewrite fmap_cons; simpl in *.
  - apply andb_true_iff in Hp as [-> Hp]. by apply IH.
  - rewrite IH by done. destruct (s n) as [v|] eqn:Hv; [|done].
    by destruct (expandable_spec v (Hval n v Hv)) as (_ & _ & _ & ->).
Qed.
End instances.

(** ** The parameters of a leaf *)
Section leaf_parameters.
Context {R : Regexp} {G : GoRange}.

Abbreviation values_map := (gmap string (list string)).

Lemma leaf_params_lookup ps n :
  is_Some (leaf_params ps !! n) <-> n ∈ pattern_params ps.
Proof.
  unfold leaf_params.
  enough (forall m : gmap string string, is_Some (fold_left (fun m pattern =>
    fold_left (fun m' param => <[param := EmptyString]> m') (range_keys (fst (parsePath pattern))) m)
    ps m !! n) <-> n ∈ pattern_params ps \/ is_Some (m !! n)) as ->.
  { rewrite lookup_empty. split; [intros [|[? [=]]]; done | auto]. }
  induction ps as [|p ps IH]; intros m; simpl; [set_solver|]. rewrite IH, elem_of_app.
  enough (forall l (m : gmap string string),
    is_Some (fold_left (fun m' param => <[param := EmptyString]> m') l m !! n) <->
    n ∈ l \/ is_Some (m !! n)) as ->.
  { rewrite elem_of_range_keys, parsePath_eq. simpl.
    enough (is_Some (number_params (params (pattern_segments p)) 1 ∅ !! n) <->
            n ∈ params (pattern_segments p)) as -> by tauto.
    destruct (decide (n ∈ params (pattern_segments p))) as [Hn|Hn].
    - destruct (number_params_in _ 1 ∅ n Hn) as (j & -> & _). naive_solver.
    - rewrite number_params_notin, lookup_empty by done. split; [intros [? [=]] | done]. }
  induction l as [|k l IHl]; intros m'; simpl; [set_solver|]. rewrite IHl, elem_of_cons.
  destruct (decide (k = n)) as [->|Hne]; [rewrite lookup_insert_eq; naive_solver|].
  rewrite lookup_insert_ne by done. naive_solver.
Qed.

Lemma first_valued_spec (vm : values_map) ps :
  match first_valued vm ps with
  | Some (param, values) => param ∈ ps /\ vm !! param = Some values
  | None => forall n, n ∈ ps -> vm !! n = None
  end.
Proof.
  induction ps as [|p ps IH]; simpl; [set_solver|]. destruct (vm !! p) as [values|] eqn:E; [set_solver|].
  destruct (first_valued vm ps) as [[q values]|]; [set_solver|].
  intros n [->|Hn]%elem_of_cons; auto.
Qed.

Lemma first_valued_leaf (vm : values_map) ps :
  match first_valued vm (range_keys (leaf_params ps)) with
  | Some (param, values) => param ∈ pattern_params ps /\ vm !! param = Some values
  | None => forall n, n ∈ pattern_params ps -> vm !! n = None
  end.
Proof.
  pose proof (first_valued_spec vm (range_keys (leaf_params ps))) as Hfv.
  destruct (first_valued _ _) as [[key values]|].
  - by rewrite elem_of_range_keys, leaf_params_lookup in Hfv.
  - intros n Hn. by apply Hfv, elem_of_range_keys, leaf_params_lookup.
Qed.

Lemma format_patterns key value ps :
  mapM (fun p => FormatWithAttributes p (finderAttributes (mapAttributes {[key := value]}))) ps =
  Some ((fun p => render (single key value) (pattern_segments p)) <$> ps).
Proof.
  induction ps as [|p ps IH]; [done|]. simpl.
  unfold FormatWithAttributes. rewrite (formatPath_eq _ _ (single key value)).
  - simpl. unfold FormatWithAttributes in IH. by rewrite IH.
  - intros n _. simpl. unfold single. case_decide; subst;
      [by rewrite lookup_singleton_eq | by rewrite lookup_singleton_ne].
Qed.

End leaf_parameters.

(** ** What [Expand] returns *)
Section exact.
Context {R : Regexp} {RL : RegexpLaws R} {G : GoRange}.

Abbreviation values_map := (gmap string (list string)).

(** Each key has at least one value, and the values can be substituted. *)
Definition good_values (vm : values_map) : Prop :=
  forall key values, vm !! key = Some values ->
    values <> [] /\ Forall (fun v => expandable v = true) values.

(** [s] picks a value for each parameter of the rule that the map has. *)
Definition chosen (vm : values_map) (r : DynamicRule) (s : assignment) : Prop :=
  forall n, n ∈ rule_params r ->
    match vm !! n with
    | Some values => exists v, v ∈ values /\ s n = Some v
    | None => s n = None
    end.

(** [out] has the instances of [r] for all choices of values, and only them. *)
Definition all_instances (vm : values_map) (r : DynamicRule) (out : list DynamicRule) : Prop :=
  (forall r', r' ∈ out -> exists s, chosen vm r s /\ instance_of s r r') /\
  (forall s, chosen vm r s -> exists r', r' ∈ out /\ instance_of s r r').

Definition expansion (vm : values_map) (r : DynamicRule) (res : list DynamicRule * bool) : Prop :=
  all_instances vm r res.1 /\
  (res.2 = true <-> exists n, n ∈ rule_params r /\ is_Some (vm !! n)).

(** The parameters of the rule that have values. *)
Definition live (vm : values_map) (r : DynamicRule) : nat :=
  size (dom vm ∩ (list_to_set (rule_params r) : gset string)).

(** *** Loops *)
Lemma concat_loop_Done {A B} (f : A -> outcome (list B)) (P : A -> list B -> Prop) l :
  (forall x, x ∈ l -> exists ys, f x = Done ys /\ P x ys) ->
  exists yss, concat_loop f l = Done (concat yss) /\ Forall2 P l yss.
Proof.
  induction l as [|x l IH]; intros Hf; simpl; [by exists []|].
  destruct (Hf x) as (ys & -> & HP); [set_solver|].
  destruct IH as (yss & Hl & Hyss); [set_solver|]. exists (ys :: yss).
  split; [|by constructor]. simpl. by rewrite Hl.
Qed.

Lemma flag_loop_Done {A B} (f : A -> outcome (B * bool)) (P : A -> B * bool -> Prop) l :
  (forall x, x ∈ l -> exists yb, f x = Done yb /\ P x yb) ->
  exists ybs, flag_loop f l = Done (ybs.*1, existsb snd ybs) /\ Forall2 P l ybs.
Proof.
  induction l as [|x l IH]; intros Hf; simpl; [by exists []|].
  destruct (Hf x) as ([y b] & -> & HP); [set_solver|].
  destruct IH as (ybs & Hl & Hybs); [set_solver|]. exists ((y, b) :: ybs).
  split; [|by constructor]. simpl. by rewrite Hl.
Qed.

Lemma Forall2_exists {A B C} (P : A -> C -> Prop) (Q : C -> B -> Prop) l k :
  Forall2 (fun x y => exists z, P x z /\ Q z y) l k ->
  exists zs, Forall2 P l zs /\ Forall2 Q zs k.
Proof.
  induction 1 as [|x y l k (z & HP & HQ) _ (zs & Hl & Hk)]; [by exists []|].
  exists (z :: zs). split; by constructor.
Qed.

(** *** One key at a time *)
Lemma all_instances_step vm r key values rs outs :
  vm !! key = Some values -> key ∈ rule_params r ->
  Forall2 (fun v rv => instance_of (single key v) r rv) values rs ->
  Forall2 (fun rv out => all_instances vm rv out) rs outs ->
  all_instances vm r (concat outs).
Proof.
  intros Hkey Hin Hrs Houts. split.
  - intros r' (out & Hout & Hr')%list_elem_of_concat. apply list_elem_of_lookup in Hout as [i Hi].
    destruct (Forall2_lookup_r _ _ _ _ _ Houts Hi) as (rv & Hrv & [Hsound _]).
    destruct (Forall2_lookup_r _ _ _ _ _ Hrs Hrv) as (v & Hv & Hinst).
    destruct (Hsound r' Hr') as (s & Hs & Hi'). exists (override (single key v) s).
    split; [|by eapply instance_trans]. intros n Hn. unfold override, single.
    case_decide as Hnk; [subst; rewrite Hkey; eauto using list_elem_of_lookup_2|].
    apply Hs, (instance_params _ _ _ n Hinst). unfold single. by rewrite decide_False.
  - intros s Hs. pose proof (Hs key Hin) as Hk. rewrite Hkey in Hk. destruct Hk as (v & Hv & Hsv).
    apply list_elem_of_lookup in Hv as [i Hi].
    destruct (Forall2_lookup_l _ _ _ _ _ Hrs Hi) as (rv & Hrv & Hinst).
    destruct (Forall2_lookup_l _ _ _ _ _ Houts Hrv) as (out & Hout & [_ Hcomplete]).
    destruct (Hcomplete s) as (r' & Hr' & Hi').
    { intros n [Hn _]%(instance_params _ _ _ n Hinst). by apply Hs. }
    exists r'. split; [apply list_elem_of_concat; eauto using list_elem_of_lookup_2|].
    eapply instance_ext; [by eapply instance_trans|]. intros n Hn. unfold override, single.
    case_decide; by subst.
Qed.

Lemma all_instances_none vm r :
  (forall n, n ∈ rule_params r -> vm !! n = None) -> all_instances vm r [r].
Proof.
  intros Hno. split.
  - intros r' ->%list_elem_of_singleton. exists (fun _ => None). split; [|by apply instance_refl].
    intros n Hn. by rewrite Hno.
  - intros s Hs. exists r. split; [by apply list_elem_of_singleton|]. apply instance_refl.
    intros n Hn. specialize (Hs n Hn). by rewrite Hno in Hs.
Qed.

Lemma all_instances_nonempty vm r out : good_values vm -> all_instances vm r out -> out <> [].
Proof.
  intros Hgood [_ Hc] ->. destruct (Hc (fun n => vm !! n ≫= head)) as (r' & Hr' & _); [|set_solver].
  intros n Hn. destruct (vm !! n) as [values|] eqn:E; [|done].
  destruct (Hgood n values E) as [Hne _]. destruct values as [|v values]; [done|].
  exists v. split; [set_solver | done].
Qed.

(** *** Fuel *)
Lemma live_instance vm r r' key v :
  instance_of (single key v) r r' -> key ∈ rule_params r -> is_Some (vm !! key) ->
  live vm r' < live vm r.
Proof.
  intros Hi Hin Hkey. unfold live. apply subset_size.
  apply elem_of_dom in Hkey. split.
  - intros n. rewrite !elem_of_intersection, !elem_of_list_to_set, (instance_params _ _ _ n Hi).
    tauto.
  - intros Hsub. specialize (Hsub key). rewrite !elem_of_intersection, !elem_of_list_to_set in Hsub.
    destruct Hsub as [_ Hp]; [done|]. apply (instance_params _ _ _ key Hi) in Hp as [_ Hs].
    unfold single in Hs. by rewrite decide_True in Hs.
Qed.

Lemma live_nested vm r nested key values v :
  vm !! key = Some values -> (forall n, n ∈ rule_params nested -> n ∈ rule_params r) ->
  live {[key := [v]]} nested <= live vm r.
Proof.
  intros Hkey Hsub. unfold live. apply subseteq_size. intros n.
  rewrite !elem_of_intersection, !elem_of_list_to_set, dom_singleton, elem_of_singleton.
  intros [-> Hn]. split; [by apply elem_of_dom | auto].
Qed.

(** *** Leaves *)
Lemma newDynamicRule_plain f ps rp attrs :
  Forall (fun p => plain_pattern p = true) ps ->
  exists ms qs, newDynamicRule f ps rp attrs = inr (leafRule (mkDynamicRule f ms ps qs attrs rp)).
Proof.
  intros Hp. unfold newDynamicRule.
  enough (exists ms qs, newMatchers ps = inr (ms, qs)) as (ms & qs & ->) by eauto.
  induction Hp as [|p ps (rkm & Hm & _)%newRegexKeyMatcher_plain _ (ms & qs & IH)]; simpl; [eauto|].
  rewrite Hm, IH. eauto.
Qed.

Lemma single_expandable key value n v :
  expandable value = true -> single key value n = Some v -> expandable v = true.
Proof. unfold single. case_decide; naive_solver. Qed.

Lemma find_instance_app attrs key value n :
  find_instance (attrs ++ [mkAttributeInstance key (Some value)]) n =
  match find_instance attrs n with
  | Some ai => Some ai
  | None => if decide (key = n) then Some (mkAttributeInstance key (Some value)) else None
  end.
Proof. induction attrs as [|a attrs IH]; simpl; [done|]. by destruct (decide (ai_key a = n)). Qed.

(** The rule made from a leaf for one value is its instance. *)
Lemma expand_value_rule krp key value :
  plain_rule (leafRule krp) -> key ∈ rule_params (leafRule krp) -> expandable value = true ->
  exists krp', instance_of (single key value) (leafRule krp) (leafRule krp') /\
    forall Exp vm, expand_value Exp krp vm key value =
      ('(exp, _) ← Exp (leafRule krp') vm; Done exp).
Proof.
  intros Hplain Hin Hv.
  assert (Forall2 (subst_pattern (single key value)) (patterns krp)
            ((fun p => render (single key value) (pattern_segments p)) <$> patterns krp)) as Hps.
  { apply Forall2_fmap_r, Forall2_diag, Forall_forall. intros p _.
    apply pattern_segments_render; [apply pattern_segments_proper|].
    intros n v. by apply single_expandable. }
  assert (forall ms qs rp, leaf_instance (single key value) krp
    (mkDynamicRule (factory krp) ms
       ((fun p => render (single key value) (pattern_segments p)) <$> patterns krp) qs
       (attributes krp ++ [mkAttributeInstance key (Some value)]) rp)) as Hinst.
  { intros ms qs rp. split; [done | done |]. intros n. simpl. rewrite find_instance_app.
    destruct (find_instance _ n); [done|]. unfold single.
    destruct (decide (key = n)) as [->|Hne].
    - by rewrite decide_True, decide_True.
    - rewrite (decide_False (P := n = key)) by done. by case_decide. }
  edestruct (newDynamicRule_plain (factory krp)
    ((fun p => render (single key value) (pattern_segments p)) <$> patterns krp)) as (ms & qs & Hn).
  { apply Forall_forall. intros p Hp.
    eapply (instance_plain _ _ (leafRule _) (inst_leaf _ _ _ (Hinst [] [] EmptyString))); [|done|exact Hp].
    intros n v. by apply single_expandable. }
  eexists. split; [constructor; apply (Hinst ms qs)|].
  intros Exp vm. unfold expand_value. rewrite format_patterns. simpl. by rewrite Hn.
Qed.

Lemma leaf_expansion (Exp : DynamicRule -> values_map -> outcome (list DynamicRule * bool)) krp vm :
  good_values vm -> plain_rule (leafRule krp) ->
  (forall r', plain_rule r' -> depth r' = 0 -> live vm r' < live vm (leafRule krp) ->
     exists res, Exp r' vm = Done res /\ expansion vm r' res) ->
  exists res, leaf_Expand Exp krp vm = Done res /\ expansion vm (leafRule krp) res.
Proof.
  intros Hgood Hplain IH. unfold leaf_Expand.
  pose proof (first_valued_leaf vm (patterns krp)) as Hfv.
  destruct (first_valued _ _) as [[key values]|].
  - destruct Hfv as [Hin Hkey]. destruct (Hgood key values Hkey) as [_ Hvalues].
    rewrite Forall_forall in Hvalues.
    destruct (concat_loop_Done (expand_value Exp krp vm key)
      (fun v out => exists r', instance_of (single key v) (leafRule krp) r' /\ all_instances vm r' out)
      values) as (outs & -> & Houts).
    { intros v Hv. destruct (expand_value_rule krp key v Hplain Hin (Hvalues v Hv)) as (krp' & Hi & ->).
      destruct (IH (leafRule krp')) as ([out b] & -> & [Hall _]); [| done | | by eauto].
      - eapply instance_plain; [exact Hi | | done]. intros n v'. apply single_expandable. auto.
      - eapply live_instance; eauto. }
    eexists. split; [done|]. split; [|simpl; split; eauto].
    apply Forall2_exists in Houts as (rs & Hrs & Hall). by eapply all_instances_step.
  - eexists. split; [done|]. split; [by apply all_instances_none|]. simpl.
    split; [done|]. intros (n & Hn & [? Hs]). by rewrite (Hfv n Hn) in Hs.
Qed.

(** *** Compound rules *)
Lemma good_single key v : expandable v = true -> good_values {[key := [v]]}.
Proof.
  intros Hv k values [<- <-]%lookup_singleton_Some. split; [done|]. by repeat constructor.
Qed.

Lemma chosen_single key v r s n :
  chosen {[key := [v]]} r s -> n ∈ rule_params r -> s n = single key v n.
Proof.
  intros Hs Hn. specialize (Hs n Hn). unfold single. case_decide as Hk.
  - subst. rewrite lookup_singleton_eq in Hs. destruct Hs as (v' & ->%list_elem_of_singleton & ->). done.
  - by rewrite lookup_singleton_ne in Hs by done.
Qed.

(** A rule for one value of a key, and whether the key occurs. *)
Definition one_value (key v : string) (r : DynamicRule) (rb : DynamicRule * bool) : Prop :=
  instance_of (single key v) r rb.1 /\ (rb.2 = true <-> key ∈ rule_params r).

Lemma expand_nested_spec (Exp : DynamicRule -> values_map -> outcome (list DynamicRule * bool)) key v nested :
  expandable v = true ->
  (exists res, Exp nested {[key := [v]]} = Done res /\ expansion {[key := [v]]} nested res) ->
  exists rb, expand_nested Exp {[key := [v]]} nested = Done rb /\
    one_value key v nested rb.
Proof.
  intros Hv ([out b] & HE & [Hall Hb]). unfold expand_nested. rewrite HE. simpl in *.
  pose proof (all_instances_nonempty _ _ _ (good_single key v Hv) Hall) as Hne.
  destruct out as [|r' out]; [done|]. eexists. split; [done|]. split; simpl.
  - destruct Hall as [Hsound _]. destruct (Hsound r') as (s & Hs & Hi); [set_solver|].
    eapply instance_ext; [done|]. intros n Hn. by eapply chosen_single.
  - rewrite Hb. split.
    + intros (n & Hn & [? [<- _]%lookup_singleton_Some]). done.
    + intros Hn. exists key. rewrite lookup_singleton_eq. eauto.
Qed.

(** [r] is the compound rule over [rs] that [constructor] makes. *)
Record compound_of (r : DynamicRule) (rs : list DynamicRule)
    (constructor : list DynamicRule -> option DynamicRule) : Prop := {
  co_params : rule_params r = pattern_params (flat_map pattern_list rs);
  co_make : forall s rs', Forall2 (instance_of s) rs rs' ->
    exists r', constructor rs' = Some r' /\ instance_of s r r';
  co_depth : forall nested, nested ∈ rs -> depth nested < depth r
}.

Lemma existsb_Forall2 {A B} (P : Prop) (l : list A) (ybs : list (B * bool)) :
  l <> [] -> Forall2 (fun _ yb => yb.2 = true <-> P) l ybs -> existsb snd ybs = true <-> P.
Proof.
  intros Hne Hf. rewrite existsb_exists. split.
  - intros (yb & Hyb%list_elem_of_In & Hs). apply list_elem_of_lookup in Hyb as [i Hi].
    destruct (Forall2_lookup_r _ _ _ _ _ Hf Hi) as (_ & _ & Hp). by apply Hp.
  - intros HP. destruct Hf as [|x yb l ybs Hp _]; [done|]. exists yb. split; [by left | by apply Hp].
Qed.

Lemma expand_key_value_spec Exp constructor r rs key v :
  compound_of r rs constructor -> expandable v = true ->
  (forall nested, nested ∈ rs -> exists res, Exp nested {[key := [v]]} = Done res /\
     expansion {[key := [v]]} nested res) ->
  exists rb, expand_key_value Exp constructor rs key v = Done rb /\
    one_value key v r rb.
Proof.
  intros Hco Hv HE. unfold expand_key_value.
  destruct (flag_loop_Done (expand_nested Exp {[key := [v]]}) (one_value key v) rs)
    as (ybs & -> & Hybs).
  { intros nested Hn. by apply expand_nested_spec, HE. }
  destruct (co_make _ _ _ Hco (single key v) ybs.*1) as (r' & Hmake & Hi).
  { apply Forall2_fmap_r. eapply Forall2_impl; [exact Hybs|]. by intros ?? []. }
  simpl. rewrite Hmake. eexists. split; [done|]. split; [done|]. simpl.
  rewrite (co_params _ _ _ Hco), elem_of_rule_params_nested, existsb_exists. clear -Hybs.
  setoid_rewrite <- list_elem_of_In. split.
  - intros (yb & Hyb & Hs). apply list_elem_of_lookup in Hyb as [i Hi].
    destruct (Forall2_lookup_r _ _ _ _ _ Hybs Hi) as (nested & Hn & _ & Hp).
    exists nested. split; [by eapply list_elem_of_lookup_2 | by apply Hp].
  - intros (nested & Hn & Hk). apply list_elem_of_lookup in Hn as [i Hi].
    destruct (Forall2_lookup_l _ _ _ _ _ Hybs Hi) as (yb & Hyb & _ & Hp).
    exists yb. split; [by eapply list_elem_of_lookup_2 | by apply Hp].
Qed.

(** What the recursive calls return, for rules of smaller measure. *)
Definition expands_below (Exp : DynamicRule -> values_map -> outcome (list DynamicRule * bool))
    (bound : nat) : Prop :=
  forall r vm, plain_rule r -> good_values vm -> depth r + live vm r < bound ->
    exists res, Exp r vm = Done res /\ expansion vm r res.

Lemma expand_keys_spec Exp constructor r rs vm entries :
  compound_of r rs constructor -> good_values vm -> plain_rule r -> Forall plain_rule rs ->
  expands_below Exp (depth r + live vm r) ->
  (forall key values, (key, values) ∈ entries -> vm !! key = Some values) ->
  exists res, expand_keys Exp constructor rs vm entries = Done res /\
    match res with
    | Some out => all_instances vm r out /\ exists n, n ∈ rule_params r /\ is_Some (vm !! n)
    | None => forall key values, (key, values) ∈ entries -> key ∉ rule_params r
    end.
Proof.
  intros Hco Hgood Hplain Hplains HE. rewrite Forall_forall in Hplains. induction entries as [|[key values] entries IH]; intros Hent.
  { exists None. split; [done|]. set_solver. }
  assert (vm !! key = Some values) as Hkey by (apply Hent; set_solver).
  destruct (Hgood key values Hkey) as [Hne Hvalues]. rewrite Forall_forall in Hvalues.
  simpl. destruct (flag_loop_Done (expand_key_value Exp constructor rs key)
    (fun v => one_value key v r) values) as (rbs & -> & Hrbs).
  { intros v Hv. apply expand_key_value_spec; [done | by apply Hvalues|]. intros nested Hn.
    apply HE; [by apply Hplains | by apply good_single, Hvalues|].
    apply Nat.add_lt_le_mono; [by eapply co_depth|]. eapply live_nested; [done|].
    intros n Hn'. rewrite (co_params _ _ _ Hco). apply elem_of_rule_params_nested. eauto. }
  simpl. assert (existsb snd rbs = true <-> key ∈ rule_params r) as Hflag.
  { eapply existsb_Forall2; [done|]. eapply Forall2_impl; [exact Hrbs|]. by intros ?? []. }
  destruct (existsb snd rbs).
  - pose proof (proj1 Hflag eq_refl) as Hin.
    assert (Forall2 (fun v rv => instance_of (single key v) r rv) values rbs.*1) as Hrs.
    { apply Forall2_fmap_r. eapply Forall2_impl; [exact Hrbs|]. by intros ?? []. }
    edestruct (concat_loop_Done (fun rule => '(out, _) ← Exp rule vm; Done out)
      (all_instances vm) rbs.*1) as (outs & -> & Houts).
    { intros rv Hrv. apply list_elem_of_lookup in Hrv as [i Hi].
      destruct (Forall2_lookup_r _ _ _ _ _ Hrs Hi) as (v & Hv & Hinst).
      apply list_elem_of_lookup_2 in Hv.
      destruct (HE rv vm) as ([out b] & -> & [Hall _]); [| done | | by eauto].
      - eapply instance_plain; [done | | done]. intros n v'. by apply single_expandable, Hvalues.
      - rewrite (instance_depth _ _ _ Hinst). apply Nat.add_lt_mono_l. eapply live_instance; eauto. }
    eexists. split; [done|]. simpl. split; [by eapply all_instances_step | eauto].
  - destruct IH as (res & -> & Hres); [intros; apply Hent; set_solver|]. exists res. split; [done|].
    destruct res as [out|]; [done|]. intros k vs [[= -> ->]|Hin]%elem_of_cons; [|by eapply Hres].
    intros Hk. by apply Hflag in Hk.
Qed.

Lemma compound_expansion Exp constructor r rs vm :
  compound_of r rs constructor -> good_values vm -> plain_rule r -> Forall plain_rule rs ->
  expands_below Exp (depth r + live vm r) ->
  exists res, compound_expand Exp rs vm constructor r = Done res /\ expansion vm r res.
Proof.
  intros Hco Hgood Hp Hps HE. unfold compound_expand.
  assert (forall key values, (key, values) ∈ range vm <-> vm !! key = Some values) as Hrange.
  { intros key values. by rewrite range_perm, elem_of_map_to_list. }
  edestruct (expand_keys_spec Exp constructor r rs vm (range vm)) as (res & -> & Hres); eauto.
  { intros. by apply Hrange. }
  simpl. destruct res as [out|]; (eexists; split; [done|]; split; simpl).
  - by destruct Hres.
  - naive_solver.
  - apply all_instances_none. intros n Hn. apply eq_None_not_Some. intros [values Hv].
    eapply Hres; [by apply Hrange | done].
  - split; [done|]. intros (n & Hn & [values Hv]). exfalso. eapply Hres; [by apply Hrange | done].
Qed.

Lemma compound_of_and rs ps qs :
  compound_of (andDynamicRule rs ps qs) rs (fun rs' => Some (NewAndRule rs')).
Proof.
  split; [done | |].
  - intros s rs' Hf. eexists. split; [done|]. by constructor.
  - intros nested Hn%nested_depth. simpl. lia.
Qed.

Lemma compound_of_or rs ps qs :
  compound_of (orDynamicRule rs ps qs) rs (fun rs' => Some (NewOrRule rs')).
Proof.
  split; [done | |].
  - intros s rs' Hf. eexists. split; [done|]. by constructor.
  - intros nested Hn%nested_depth. simpl. lia.
Qed.

Lemma compound_of_not r ps qs : compound_of (notDynamicRule r ps qs) [r] newNotRule.
Proof.
  split.
  - unfold rule_params. simpl. by rewrite app_nil_r.
  - intros s rs' Hf. inversion Hf as [|? r' ? ? Hi Hnil]; subst. inversion Hnil; subst.
    eexists. split; [done|]. by constructor.
  - intros nested ->%list_elem_of_singleton. simpl. lia.
Qed.

Lemma Expand_expands fuel : expands_below (Expand fuel) fuel.
Proof.
  induction fuel as [|fuel IH]; intros r vm Hp Hgood Hf; [lia|].
  assert (expands_below (Expand fuel) (depth r + live vm r)) as HE.
  { intros r' vm' ???. apply IH; [done | done | lia]. }
  destruct r as [krp|rs ps qs|rs ps qs|r ps qs]; simpl Expand.
  - apply leaf_expansion; [done | done |]. intros r' Hp' Hd Hl. apply HE; [done | done |]. simpl. lia.
  - apply compound_expansion; auto using compound_of_and, plain_rule_nested.
  - apply compound_expansion; auto using compound_of_or, plain_rule_nested.
  - apply compound_expansion; auto using compound_of_not.
Qed.
End exact.

(** ** Well-formed results *)
Section well_formed.
Context {R : Regexp} {G : GoRange}.

Lemma outcome_bind_Done {A B} (f : A -> outcome B) (o : outcome A) b :
  (x ← o; f x) = Done b <-> exists a, o = Done a /\ f a = Done b.
Proof. destruct o; simpl; naive_solver. Qed.

Lemma of_option_Done {A} (o : option A) a : of_option o = Done a <-> o = Some a.
Proof. destruct o; simpl; naive_solver. Qed.

Lemma concat_loop_Forall {A B} (f : A -> outcome (list B)) (P : B -> Prop) l out :
  concat_loop f l = Done out ->
  (forall x ys, x ∈ l -> f x = Done ys -> Forall P ys) -> Forall P out.
Proof.
  revert out. induction l as [|x l IH]; intros out; simpl; [by intros [= <-]|].
  rewrite outcome_bind_Done. intros (ys & Hys & Hzs).
  apply outcome_bind_Done in Hzs as (zs & Hzs & [= <-]). intros HP.
  apply Forall_app. split; [apply (HP x); [set_solver | done]|].
  apply IH; [done|]. intros; eapply HP; [by right | done].
Qed.

Lemma flag_loop_Forall {A B} (f : A -> outcome (B * bool)) (P : B -> Prop) l ys b :
  flag_loop f l = Done (ys, b) ->
  (forall x y b', x ∈ l -> f x = Done (y, b') -> P y) -> Forall P ys /\ length ys = length l.
Proof.
  revert ys b. induction l as [|x l IH]; intros ys b; simpl; [by intros [= <- <-]|].
  rewrite outcome_bind_Done. intros ([y b1] & Hy & Hys).
  apply outcome_bind_Done in Hys as ([ys' b2] & Hys & [= <- <-]). intros HP.
  destruct (IH _ _ Hys) as [Hf Hl]; [intros; eapply HP; [by right | done]|].
  split; [|simpl; lia]. constructor; [|done]. eapply HP; [by left | done].
Qed.

Definition keeps_wf (Exp : DynamicRule -> gmap string (list string) -> outcome (list DynamicRule * bool)) :
    Prop :=
  forall r vm out b, wf_rule r -> Exp r vm = Done (out, b) -> Forall wf_rule out.

Lemma leaf_Expand_wf Exp krp vm out b :
  keeps_wf Exp -> wf_leaf krp -> leaf_Expand Exp krp vm = Done (out, b) -> Forall wf_rule out.
Proof.
  intros HE Hwf. unfold leaf_Expand. destruct (first_valued _ _) as [[key values]|];
    [|intros [= <- <-]; by apply Forall_singleton].
  rewrite outcome_bind_Done. intros (out' & Hout & [= <- <-]).
  eapply concat_loop_Forall; [exact Hout|]. intros v ys _. unfold expand_value.
  rewrite outcome_bind_Done. intros (ps & Hps%of_option_Done & Hn).
  destruct (newDynamicRule _ _ _ _) as [|rule] eqn:Hnew; [by injection Hn as <-|].
  apply outcome_bind_Done in Hn as ([out1 b1] & Hexp & [= <-]). eapply HE; [|exact Hexp].
  apply mapM_Some, Forall2_length in Hps.
  eapply newDynamicRule_wf; [exact Hnew | | |].
  - intros ->. destruct (wf_nonempty _ Hwf). by apply length_zero_iff_nil.
  - pose proof (wf_single _ Hwf). by destruct (factory krp); [rewrite <- Hps|].
  - apply Forall_app. split; [apply (wf_attributes _ Hwf)|]. repeat constructor. by eexists.
Qed.

Lemma expand_keys_wf Exp constructor rs vm entries out :
  keeps_wf Exp -> Forall wf_rule rs ->
  (forall rs' r', Forall wf_rule rs' -> constructor rs' = Some r' -> wf_rule r') ->
  expand_keys Exp constructor rs vm entries = Done (Some out) -> Forall wf_rule out.
Proof.
  intros HE Hrs Hcon. rewrite Forall_forall in Hrs.
  induction entries as [|[key values] entries IH]; simpl; [done|].
  rewrite outcome_bind_Done. intros ([newRules b] & Hnew & Hrest). destruct b; [|by apply IH].
  apply outcome_bind_Done in Hrest as (out' & Hout & [= <-]).
  assert (Forall wf_rule newRules) as Hwf.
  { eapply flag_loop_Forall; [exact Hnew|]. intros v y b _. unfold expand_key_value.
    rewrite outcome_bind_Done. intros ([newNested kb] & Hnested & Hy).
    apply outcome_bind_Done in Hy as (r' & Hr'%of_option_Done & [= <- <-]).
    eapply Hcon; [|done]. eapply flag_loop_Forall; [exact Hnested|].
    intros nested y b' Hn. unfold expand_nested. rewrite outcome_bind_Done.
    intros ([ers g] & Hers & Hh). apply outcome_bind_Done in Hh as (r1 & Hr1%of_option_Done & [= <- <-]).
    apply head_Some_elem_of in Hr1. pose proof (HE _ _ _ _ (Hrs _ Hn) Hers) as Hf.
    rewrite Forall_forall in Hf. auto. }
  eapply concat_loop_Forall; [exact Hout|]. intros rule ys Hrule. simpl.
  rewrite outcome_bind_Done. intros ([ers g] & Hers & [= <-]). eapply HE; [|exact Hers].
  rewrite Forall_forall in Hwf. auto.
Qed.

Lemma compound_expand_wf Exp constructor rs vm dr out b :
  keeps_wf Exp -> wf_rule dr -> Forall wf_rule rs ->
  (forall rs' r', Forall wf_rule rs' -> constructor rs' = Some r' -> wf_rule r') ->
  compound_expand Exp rs vm constructor dr = Done (out, b) -> Forall wf_rule out.
Proof.
  intros HE Hdr Hrs Hcon. unfold compound_expand. rewrite outcome_bind_Done.
  intros ([out'|] & Hk & [= <- <-]); [by eapply expand_keys_wf | by apply Forall_singleton].
Qed.

Lemma Expand_keeps_wf fuel : keeps_wf (Expand fuel).
Proof.
  induction fuel as [|fuel IH]; intros r vm out b Hwf; [done|].
  destruct r as [krp|rs ps qs|rs ps qs|r ps qs]; simpl Expand.
  - by apply leaf_Expand_wf.
  - apply compound_expand_wf; eauto using wf_rule_and. intros rs' r' Hrs [= <-]. by apply NewAndRule_wf.
  - apply compound_expand_wf; eauto using wf_rule_or. intros rs' r' Hrs [= <-]. by apply NewOrRule_wf.
  - apply compound_expand_wf; eauto. intros [|r' [|]] r1 Hrs [= <-]. by inversion Hrs.
Qed.

(** Without an expansion the rule itself is returned. *)
Lemma Expand_unexpanded fuel r vm out : Expand fuel r vm = Done (out, false) -> out = [r].
Proof.
  assert (forall Exp rs vm' con dr, compound_expand Exp rs vm' con dr = Done (out, false) -> out = [dr]) as Hc.
  { intros Exp rs vm' con dr. unfold compound_expand. rewrite outcome_bind_Done.
    by intros ([out'|] & _ & [= <-]). }
  destruct fuel as [|fuel]; [done|]. destruct r as [krp|rs ps qs|rs ps qs|r ps qs]; simpl Expand; try apply Hc.
  unfold leaf_Expand. destruct (first_valued _ _) as [[key values]|]; [|by intros [= <-]].
  rewrite outcome_bind_Done. by intros (? & _ & [=]).
Qed.

(** C29: Expanding a well-formed rule only yields well-formed rules, whatever the
    values are: the matchers and prefixes of every new leaf are those of its
    patterns, a literal comparison keeps one pattern, every attribute has a
    value and every compound rule has the patterns and prefixes of its parts. *)
Theorem Expand_wf (fuel : nat) (r : DynamicRule) (valueMap : gmap string (list string))
    (out : list DynamicRule) (expanded : bool)
    (Hwf : wf_rule r) (Hexp : Expand fuel r valueMap = Done (out, expanded)) :
  Forall wf_rule out.
Proof. by eapply Expand_keeps_wf. Qed.
End well_formed.

(** ** Theorems *)
Section theorems.
Context {R : Regexp} {RL : RegexpLaws R} {G : GoRange}.

(** C14: [Expand] terminates and does not panic on a rule with plain patterns
    when every key has at least one value and each value is one plain path
    segment: as many nested calls as the rule is deep and has parameters to
    replace, and one more, are enough.  The rules it returns are exactly the
    instances of the rule for the choices of a value for every parameter in
    the map; their attributes resolve the replaced parameters; and it reports
    an expansion when the rule has such a parameter. *)
Theorem Expand_exact (fuel : nat) (r : DynamicRule) (valueMap : gmap string (list string))
    (Hplain : plain_rule r) (Hvalues : good_values valueMap)
    (Hfuel : depth r + live valueMap r < fuel) :
  exists out expanded, Expand fuel r valueMap = Done (out, expanded) /\
    (expanded = true <-> exists n, n ∈ rule_params r /\ is_Some (valueMap !! n)) /\
    (forall r', r' ∈ out -> exists s, chosen valueMap r s /\ instance_of s r r') /\
    (forall s, chosen valueMap r s -> exists r', r' ∈ out /\ instance_of s r r').
Proof.
  destruct (Expand_expands fuel r valueMap Hplain Hvalues Hfuel) as ([out b] & HE & [[Hs Hc] Hb]).
  by exists out, b.
Qed.

(** C15: Expansion preserves meaning.  Take an environment that gives every
    parameter with values one of them.  Whenever the original rule is true
    there, so is some rule of the expansion; and a rule of the expansion is
    true in an environment exactly when the original is true in that
    environment with the chosen values. *)
Theorem Expand_meaning (fuel : nat) (r : DynamicRule) (valueMap : gmap string (list string))
    (out : list DynamicRule) (expanded : bool)
    (Hplain : plain_rule r) (Hvalues : good_values valueMap)
    (Hfuel : depth r + live valueMap r < fuel)
    (Hexp : Expand fuel r valueMap = Done (out, expanded)) :
  (forall store env,
     (forall n values, n ∈ rule_params r -> valueMap !! n = Some values ->
        exists v, v ∈ values /\ env n = Some v) ->
     rule_holds store env r = true -> exists r', r' ∈ out /\ rule_holds store env r' = true) /\
  (forall r', r' ∈ out -> exists s, chosen valueMap r s /\
     forall store env, rule_holds store env r' = rule_holds store (override s env) r).
Proof.
  destruct (Expand_expands fuel r valueMap Hplain Hvalues Hfuel) as (res & HE & [[Hs Hc] _]).
  rewrite Hexp in HE. injection HE as <-. split.
  - intros store env Henv Hr.
    destruct (Hc (fun n => if decide (is_Some (valueMap !! n)) then env n else None)) as (r' & Hr' & Hi).
    { intros n Hn. destruct (valueMap !! n) as [values|] eqn:E; [|by rewrite decide_False by (intros [? [=]])].
      rewrite decide_True by eauto. eauto. }
    exists r'. split; [done|]. rewrite (instance_holds _ _ _ _ _ Hi), <- Hr. apply rule_holds_ext.
    intros n. unfold override. case_decide as Hd; [by destruct (env n) | done].
  - intros r' Hr'. destruct (Hs r' Hr') as (s & Hch & Hi). exists s. split; [done|].
    intros store env. by apply instance_holds.
Qed.
End theorems.

(** ** Values that cannot be substituted *)
Section bad_values.
Context {R : Regexp} {G : GoRange}.

Lemma range_singleton {A} (key : string) (x : A) :
  range ({[key := x]} : gmap string A) = [(key, x)].
Proof.
  pose proof (range_perm ({[key := x]} : gmap string A)) as Hp.
  rewrite map_to_list_singleton in Hp. by apply Permutation_singleton_r.
Qed.

Lemma Expand_and fuel rs ps qs vm :
  Expand (S fuel) (andDynamicRule rs ps qs) vm =
  compound_expand (Expand fuel) rs vm (fun rs' => Some (NewAndRule rs')) (andDynamicRule rs ps qs).
Proof. done. Qed.

Lemma leaf_Expand_single Exp krp key values :
  key ∈ rule_params (leafRule krp) ->
  leaf_Expand Exp krp {[key := values]} =
    (out ← concat_loop (expand_value Exp krp {[key := values]} key) values; Done (out, true)).
Proof.
  intros Hin. unfold leaf_Expand.
  pose proof (first_valued_leaf {[key := values]} (patterns krp)) as Hfv.
  destruct (first_valued _ _) as [[k vs]|].
  - destruct Hfv as [_ [<- <-]%lookup_singleton_Some]. done.
  - specialize (Hfv key Hin). by rewrite lookup_singleton_eq in Hfv.
Qed.

Lemma render_own_placeholder key (segs : list segment) :
  render (single key (String colon key)) segs = render (fun _ => None) segs.
Proof.
  induction segs as [|[l|n] segs IH]; simpl; rewrite ?IH; [done | done |].
  f_equal. f_equal. unfold single. by case_decide; subst.
Qed.

Lemma placeholder_segments key p :
  pattern_segments (render (single key (String colon key)) (pattern_segments p)) = pattern_segments p.
Proof.
  rewrite render_own_placeholder, pattern_segments_render; [|apply pattern_segments_proper | done].
  by apply subst_none.
Qed.

(** C36: Expanding a leaf with plain patterns for one parameter whose only value
    is its own placeholder, such as ":x" for x, makes [Expand] recurse without
    end: no amount of fuel is enough. *)
Theorem Expand_diverges {RL : RegexpLaws R} (fuel : nat) (krp : dynamicRule) (key : string)
    (Hplain : plain_rule (leafRule krp)) (Hin : key ∈ rule_params (leafRule krp)) :
  Expand fuel (leafRule krp) {[key := [String colon key]]} = NoFuel.
Proof.
  revert krp Hplain Hin. induction fuel as [|fuel IH]; intros krp Hplain Hin; [done|].
  simpl. rewrite leaf_Expand_single by done. simpl. unfold expand_value at 1.
  rewrite format_patterns. simpl.
  set (ps := (fun p => render (single key (String colon key)) (pattern_segments p)) <$> patterns krp).
  assert (forall p, p ∈ ps -> plain_pattern p = true) as Hps.
  { intros p (q & -> & Hq)%list_elem_of_fmap. unfold plain_pattern. rewrite placeholder_segments.
    by apply Hplain. }
  edestruct (newDynamicRule_plain (factory krp) ps) as (ms & qs & ->); [by apply Forall_forall|].
  rewrite IH; [done | exact Hps |]. apply elem_of_pattern_params in Hin as (p & Hp & Hkey).
  apply elem_of_pattern_params. simpl. exists (render (single key (String colon key)) (pattern_segments p)).
  split; [by apply (list_elem_of_fmap_2' _ _ p) | by rewrite placeholder_segments].
Qed.

(** A value that makes the pattern an invalid regular expression drops the
    rule without an error when the rule is a leaf, and panics (index out of
    range) when the leaf is nested in a compound rule. *)
Theorem Expand_uncompilable (fuel : nat) (krp : dynamicRule) (p key value err : string)
    (Hpatterns : patterns krp = [p]) (Hin : key ∈ params (pattern_segments p))
    (Herr : newRegexKeyMatcher (pattern_key (single key value) p) = inl err) :
  Expand (S fuel) (leafRule krp) {[key := [value]]} = Done ([], true) /\
  Expand (S (S fuel)) (NewAndRule [leafRule krp]) {[key := [value]]} = Panicked.
Proof.
  assert (key ∈ rule_params (leafRule krp)) as Hkey.
  { unfold rule_params. simpl. rewrite Hpatterns. simpl. by rewrite app_nil_r. }
  assert (forall f, Expand (S f) (leafRule krp) {[key := [value]]} = Done ([], true)) as Hleaf.
  { intros f. simpl. rewrite leaf_Expand_single by done. simpl. unfold expand_value.
    rewrite format_patterns, Hpatterns. simpl. unfold newDynamicRule. simpl.
    unfold pattern_key in Herr. by rewrite Herr. }
  split; [apply Hleaf|]. unfold NewAndRule.
  destruct (newCompoundDynamicRule _) as [ps qs]. rewrite Expand_and.
  unfold compound_expand. rewrite range_singleton. cbn [expand_keys].
  unfold expand_key_value. cbn [flag_loop]. unfold expand_nested. by rewrite Hleaf.
Qed.

(** With no values at all a leaf disappears, but a compound rule stays. *)
Lemma Expand_no_values fuel krp key :
  key ∈ rule_params (leafRule krp) ->
  Expand (S fuel) (leafRule krp) {[key := []]} = Done ([], true) /\
  Expand (S (S fuel)) (NewAndRule [leafRule krp]) {[key := []]} = Done ([NewAndRule [leafRule krp]], false).
Proof.
  intros Hkey. split; [simpl; by rewrite leaf_Expand_single|].
  unfold NewAndRule. destruct (newCompoundDynamicRule _) as [ps qs]. rewrite Expand_and.
  unfold compound_expand. by rewrite range_singleton.
Qed.
End bad_values.
