(* ===== verification/Essential.v ===== *)
(** * Essential conditions of a rule (rules/dynamic_rule.go) *)
(** [getEssentialRepresentations] tries every assignment of truth values to the
    leaves of a rule, named by their textual representation, to find those that
    are true whenever the rule is. *)
From S2P Require Import Prelude GoString Attributes Matcher StaticRule DynamicRule.

Abbreviation map_values := (gmap string bool).

Section essential.
Context `{Regexp}.

(** A missing key of a map of booleans reads as false. *)
Definition value_of (values : map_values) (rep : string) : bool := default false (values !! rep).

Definition leaf_evaluate (krp : dynamicRule) (values : map_values) : bool := value_of values (rep krp).

Definition and_evaluate {A} (evaluate : A -> bool) (nested : list A) : bool :=
  fold_left (fun result r => result && evaluate r) nested true.

Definition or_evaluate {A} (evaluate : A -> bool) (nested : list A) : bool :=
  fold_left (fun result r => result || evaluate r) nested false.
Arguments leaf_evaluate _ _ /.

Fixpoint rule_evaluate (rule : DynamicRule) (values : map_values) : bool :=
  match rule with
  | leafRule krp => leaf_evaluate krp values
  | andDynamicRule nested _ _ => and_evaluate (fun r => rule_evaluate r values) nested
  | orDynamicRule nested _ _ => or_evaluate (fun r => rule_evaluate r values) nested
  | notDynamicRule nested _ _ => negb (rule_evaluate nested values)
  end.

Definition leaf_getLeafRepresentations (krp : dynamicRule) : list string := [rep krp].
Arguments leaf_getLeafRepresentations _ /.

Fixpoint getLeafRepresentations `{GoRange} (rule : DynamicRule) : list string :=
  match rule with
  | leafRule krp => leaf_getLeafRepresentations krp
  | andDynamicRule nested _ _ | orDynamicRule nested _ _ =>
    removeDuplicates (flat_map getLeafRepresentations nested)
  | notDynamicRule nested _ _ => removeDuplicates (flat_map getLeafRepresentations [nested])
  end.

(** [proc] updates a state [A], the variables its closure captures. *)
Fixpoint processBooleanMap {A} (keys : list string) (parent : map_values) (value : bool)
    (proc : map_values -> A -> A) (st : A) : A :=
  match keys with
  | [] => st
  | key :: keys' =>
    let child := <[key := value]> parent in
    match keys' with
    | [] => proc child st
    | _ :: _ =>
      fold_left (fun st val => processBooleanMap keys' child val proc st) [false; true] st
    end
  end.

(** The closure of [getEssentialRepresentations]. *)
Definition essential_proc (rule : DynamicRule) (reps : list string) (values : map_values)
    (mustAlwaysBeTrue : map_values) : map_values :=
  if rule_evaluate rule values then
    fold_left (fun m rep => if negb (value_of values rep) then <[rep := false]> m else m) reps
      mustAlwaysBeTrue
  else mustAlwaysBeTrue.

Definition getEssentialRepresentations `{GoRange} (rule : DynamicRule) : list string :=
  let reps := getLeafRepresentations rule in
  let mustAlwaysBeTrue := fold_left (fun (m : map_values) rep => <[rep := true]> m) reps ∅ in
  let mustAlwaysBeTrue :=
    fold_left (fun m val => processBooleanMap reps ∅ val (essential_proc rule reps) m) [false; true]
      mustAlwaysBeTrue in
  filter (fun rep => value_of mustAlwaysBeTrue rep = true) reps.
End essential.

(** ** Specification *)
(** The truth value of a rule when [v] gives the truth values of the leaves. *)
Section spec.
Context {R : Regexp}.

Fixpoint rule_truth (v : string -> bool) (rule : DynamicRule) : bool :=
  match rule with
  | leafRule krp => v (rep krp)
  | andDynamicRule nested _ _ => forallb (rule_truth v) nested
  | orDynamicRule nested _ _ => existsb (rule_truth v) nested
  | notDynamicRule nested _ _ => negb (rule_truth v nested)
  end.

Fixpoint leaf_reps (rule : DynamicRule) : list string :=
  match rule with
  | leafRule krp => [rep krp]
  | andDynamicRule nested _ _ | orDynamicRule nested _ _ => flat_map leaf_reps nested
  | notDynamicRule nested _ _ => leaf_reps nested
  end.

Lemma fold_and {A} (f : A -> bool) l b : fold_left (fun r x => r && f x) l b = b && forallb f l.
Proof.
  revert b. induction l as [|x l IH]; intros b; simpl; [by rewrite andb_true_r|].
  by rewrite IH, andb_assoc.
Qed.

Lemma fold_or {A} (f : A -> bool) l b : fold_left (fun r x => r || f x) l b = b || existsb f l.
Proof.
  revert b. induction l as [|x l IH]; intros b; simpl; [by rewrite orb_false_r|].
  by rewrite IH, orb_assoc.
Qed.

Lemma forallb_ext_Forall {A} (f g : A -> bool) l : Forall (fun x => f x = g x) l -> forallb f l = forallb g l.
Proof. induction 1 as [|x l Hx _ IH]; simpl; [done|]. by rewrite Hx, IH. Qed.

Lemma existsb_ext_Forall {A} (f g : A -> bool) l : Forall (fun x => f x = g x) l -> existsb f l = existsb g l.
Proof. induction 1 as [|x l Hx _ IH]; simpl; [done|]. by rewrite Hx, IH. Qed.

Lemma Forall_nested (P : DynamicRule -> Prop) (v : string -> Prop) nested :
  Forall (fun r => (forall rep, rep ∈ leaf_reps r -> v rep) -> P r) nested ->
  (forall rep, rep ∈ flat_map leaf_reps nested -> v rep) -> Forall P nested.
Proof.
  intros IH Hv. rewrite Forall_forall in *. intros r Hr. apply (IH r Hr). intros rep Hrep.
  apply Hv, elem_of_flat_map. eauto.
Qed.

Lemma rule_evaluate_truth rule values (v : string -> bool) :
  (forall rep, rep ∈ leaf_reps rule -> value_of values rep = v rep) ->
  rule_evaluate rule values = rule_truth v rule.
Proof.
  induction rule as [krp|rs ps qs IH|rs ps qs IH|r ps qs IH] using DynamicRule_nested_ind;
    intros Hv; simpl in *.
  - apply Hv. by left.
  - unfold and_evaluate. rewrite fold_and. simpl. apply forallb_ext_Forall. by apply (Forall_nested _ (fun rep => value_of values rep = v rep)).
  - unfold or_evaluate. rewrite fold_or. simpl. apply existsb_ext_Forall. by apply (Forall_nested _ (fun rep => value_of values rep = v rep)).
  - by rewrite IH.
Qed.

Context `{GoRange}.

Lemma elem_of_getLeafRepresentations rule rep : rep ∈ getLeafRepresentations rule <-> rep ∈ leaf_reps rule.
Proof.
  revert rep. induction rule as [krp|rs ps qs IH|rs ps qs IH|r ps qs IH] using DynamicRule_nested_ind;
    intros rep; cbn [getLeafRepresentations leaf_reps]; [done| | |];
    rewrite elem_of_removeDuplicates; [by apply elem_of_flat_map_ext.. |].
  simpl. by rewrite app_nil_r, IH.
Qed.

Lemma NoDup_getLeafRepresentations rule : NoDup (getLeafRepresentations rule).
Proof. destruct rule; simpl; apply NoDup_singleton || apply NoDup_removeDuplicates. Qed.

(** *** The enumeration *)
(** The assignments [processBooleanMap] passes to [proc], in order. *)
Fixpoint assignments (keys : list string) (parent : map_values) : list map_values :=
  match keys with
  | [] => [parent]
  | key :: keys' =>
    assignments keys' (<[key := false]> parent) ++ assignments keys' (<[key := true]> parent)
  end.

Lemma processBooleanMap_fold {A} key keys parent value (proc : map_values -> A -> A) st :
  processBooleanMap (key :: keys) parent value proc st =
  fold_left (fun st values => proc values st) (assignments keys (<[key := value]> parent)) st.
Proof.
  revert key parent value st. induction keys as [|key' keys IH]; intros key parent value st; [done|].
  change (processBooleanMap (key :: key' :: keys) parent value proc st)
    with (processBooleanMap (key' :: keys) (<[key := value]> parent) true proc
            (processBooleanMap (key' :: keys) (<[key := value]> parent) false proc st)).
  rewrite !IH. cbn [assignments]. by rewrite fold_left_app.
Qed.

(** Every assignment of the keys is tried. *)
Lemma assignments_complete keys parent (v : string -> bool) :
  NoDup keys -> exists values, values ∈ assignments keys parent /\
    (forall k, k ∈ keys -> values !! k = Some (v k)) /\
    (forall k, k ∉ keys -> values !! k = parent !! k).
Proof.
  revert parent. induction keys as [|key keys IH]; intros parent Hnd; simpl.
  { exists parent. split_and!; [by left | intros k Hk; by apply elem_of_nil in Hk | done]. }
  apply NoDup_cons in Hnd as [Hnin Hnd].
  destruct (IH (<[key := v key]> parent) Hnd) as (values & Hin & Hk & Ho). exists values. split_and!.
  - apply elem_of_app. destruct (v key); auto.
  - intros k [->|Hk']%elem_of_cons; [|auto]. rewrite Ho by done. by rewrite lookup_insert_eq.
  - intros k [Hne Hk']%not_elem_of_cons. rewrite Ho by done. by rewrite lookup_insert_ne.
Qed.

(** *** What the closure records *)
Definition refutes (rule : DynamicRule) (values : map_values) (rep : string) : Prop :=
  rule_evaluate rule values = true /\ value_of values rep = false.

Lemma essential_proc_lookup rule reps values m rep :
  rep ∈ reps -> value_of (essential_proc rule reps values m) rep = true <->
  value_of m rep = true /\ ~ refutes rule values rep.
Proof.
  intros Hrep. unfold essential_proc, refutes. destruct (rule_evaluate rule values) eqn:He; [|naive_solver].
  assert (forall l m, value_of (fold_left (fun m rep => if negb (value_of values rep) then <[rep := false]> m
            else m) l m) rep = true <->
            value_of m rep = true /\ ~ (rep ∈ l /\ value_of values rep = false)) as Hfold.
  { clear m. induction l as [|x l IH]; intros m; simpl; [set_solver|]. rewrite IH, elem_of_cons.
    destruct (value_of values x) eqn:Hx; simpl.
    - split; [|naive_solver]. intros [Hm Hn]. split; [done|].
      intros [[->|?] ?]; [congruence | by apply Hn].
    - unfold value_of at 1. destruct (decide (x = rep)) as [->|Hne].
      + rewrite lookup_insert_eq. simpl. naive_solver.
      + rewrite lookup_insert_ne by done. unfold value_of. naive_solver. }
  rewrite Hfold. naive_solver.
Qed.

Lemma essential_fold rule reps (l : list map_values) m rep :
  rep ∈ reps ->
  value_of (fold_left (fun st values => essential_proc rule reps values st) l m) rep = true <->
  value_of m rep = true /\ Forall (fun values => ~ refutes rule values rep) l.
Proof.
  intros Hrep. revert m. induction l as [|values l IH]; intros m; simpl.
  { split; [by split; [|constructor] | by intros [? _]]. }
  rewrite IH, essential_proc_lookup, Forall_cons by done. tauto.
Qed.

Lemma initial_true (reps : list string) rep :
  rep ∈ reps -> value_of (fold_left (fun (m : map_values) rep => <[rep := true]> m) reps ∅) rep = true.
Proof.
  assert (forall l (m : map_values), value_of m rep = true \/ rep ∈ l ->
            value_of (fold_left (fun m rep => <[rep := true]> m) l m) rep = true) as Hf.
  { induction l as [|x l IH]; intros m; simpl; [intros [?|Hn]; [done | by apply elem_of_nil in Hn]|].
    rewrite elem_of_cons. intros Hor. apply IH. unfold value_of in *.
    destruct (decide (x = rep)) as [->|Hne]; [left; by rewrite lookup_insert_eq|].
    rewrite lookup_insert_ne by done. naive_solver. }
  intros Hrep. apply Hf. by right.
Qed.

Lemma essential_elem (rule : DynamicRule) (r : string) :
  r ∈ getEssentialRepresentations rule <->
  r ∈ leaf_reps rule /\ forall v : string -> bool, rule_truth v rule = true -> v r = true.
Proof.
  unfold getEssentialRepresentations. rewrite list_elem_of_filter, elem_of_getLeafRepresentations.
  rewrite (and_comm (_ = true)). apply and_iff_compat_l_of. intros Hr.
  pose proof (proj2 (elem_of_getLeafRepresentations rule r) Hr) as Hrep.
  pose proof (NoDup_getLeafRepresentations rule) as Hnd.
  pose proof (initial_true (getLeafRepresentations rule) r Hrep) as Hinit.
  assert (forall rep, rep ∈ leaf_reps rule -> rep ∈ getLeafRepresentations rule) as Hall
    by (intros; by apply elem_of_getLeafRepresentations).
  destruct (getLeafRepresentations rule) as [|key keys] eqn:Ek; [by apply elem_of_nil in Hrep|].
  cbn [fold_left]. rewrite !processBooleanMap_fold, <- fold_left_app.
  change (assignments keys (<[key := false]> ∅) ++ assignments keys (<[key := true]> ∅))
    with (assignments (key :: keys) ∅).
  rewrite essential_fold by done. rewrite Forall_forall. split.
  - intros [_ Hno] v Hv. destruct (assignments_complete (key :: keys) ∅ v Hnd) as (values & Hin & Hk & _).
    assert (forall rep, rep ∈ leaf_reps rule -> value_of values rep = v rep) as Hval
      by (intros rep Hrp; unfold value_of; by rewrite Hk by auto).
    apply not_false_iff_true. intros Hf. apply (Hno values Hin). split.
    + by rewrite (rule_evaluate_truth rule values v).
    + by rewrite Hval.
  - intros Hv. split; [exact Hinit|]. intros values _ [He Hf].
    rewrite (rule_evaluate_truth rule values (value_of values)) in He by done.
    by rewrite (Hv _ He) in Hf.
Qed.

(** C38: The essential representations are exactly the leaves that are true
    whenever the rule is: a representation is returned if and only if it is one
    of a leaf of the rule and is true under every assignment of truth values to
    the representations that makes the rule true. *)
Theorem essential_exact (rule : DynamicRule) (r : string) :
  r ∈ getEssentialRepresentations rule <->
  r ∈ leaf_reps rule /\ forall v : string -> bool, rule_truth v rule = true -> v r = true.
Proof. apply essential_elem. Qed.
End spec.
