(* ===== verification/Representation.v ===== *)
(** * Representations of rules (rules/dynamic_rule.go, rules/static_rule.go) *)
(** The [String] methods, the layout of [FormatRuleString], and the use of
    representations to leave out of a crawl the patterns of keys that must not
    exist ([getCrawlerPatterns]). *)
From S2P Require Import Prelude GoString Attributes Matcher StaticRule DynamicRule Instantiation Essential.

(** ** Strings *)
Section strings.
Context `{Regexp} `{Fmt}.

(** [compoundDynamicRule.delimitedString]: the loop over the nested rules
    writes the delimiter before every rule but the first. *)
Fixpoint delimited_loop (first : bool) (del : string) (nested : list string) : string :=
  match nested with
  | [] => EmptyString
  | s :: nested' =>
    (if first then EmptyString else " " +:+ del +:+ " ") +:+ Sprintf "%s" [s] +:+
    delimited_loop false del nested'
  end.

Definition delimitedString (del : string) (nested : list string) : string :=
  "(" +:+ delimited_loop true del nested +:+ ")".

Definition and_String (nested : list string) : string := delimitedString "AND" nested.
Definition or_String (nested : list string) : string := delimitedString "OR" nested.
Definition not_String (nested : string) : string := "NOT (" +:+ Sprintf "%s" [nested] +:+ ")".
Arguments and_String _ /.
Arguments or_String _ /.
Arguments not_String _ /.

Fixpoint DynamicRule_String (rule : DynamicRule) : string :=
  match rule with
  | leafRule krp => rep krp
  | andDynamicRule nested _ _ => and_String (DynamicRule_String <$> nested)
  | orDynamicRule nested _ _ => or_String (DynamicRule_String <$> nested)
  | notDynamicRule nested _ _ => not_String (DynamicRule_String nested)
  end.

Definition compareLiteralRule_String (key stringTemplate : string) : string := Sprintf stringTemplate [key].
Definition andStaticRule_String (nestedRules : list string) : string :=
  Sprintf "(%s)" [Join nestedRules " AND "].
Definition orStaticRule_String (nestedRules : list string) : string :=
  Sprintf "(%s)" [Join nestedRules " OR "].
Definition notStaticRule_String (nested : string) : string := Sprintf "NOT (%s)" [nested].
Definition equalsRule_String (keys : list string) : string := Join keys " = ".

Fixpoint staticRule_String (rule : staticRule) : string :=
  match rule with
  | compareLiteralRule _ key _ stringTemplate => compareLiteralRule_String key stringTemplate
  | equalsRule _ keys => equalsRule_String keys
  | andStaticRule nested => andStaticRule_String (staticRule_String <$> nested)
  | orStaticRule nested => orStaticRule_String (staticRule_String <$> nested)
  | notStaticRule nested => notStaticRule_String (staticRule_String nested)
  end.
End strings.

(** ** Layout *)
(** [strings.Repeat] panics on a negative count. *)
Definition Repeat (s : string) (count : Z) : option string :=
  if (count <? 0)%Z then None
  else Some (Nat.iter (Z.to_nat count) (fun t => s +:+ t) EmptyString).

Definition newline_str : string := String "010"%char EmptyString.

(** One iteration of the loop of [FormatRuleString] over the characters; a
    text in valid UTF-8 has no byte equal to a parenthesis inside a longer
    character, so going byte by byte gives the same. *)
Definition format_step (st : string * Z) (char : ascii) : option (string * Z) :=
  let '(out, indent) := st in
  '(out, indent) ←
    (if decide (char = ")"%char) then
       let indent := (indent - 1)%Z in
       pad ← Repeat " " (indent * 4)%Z; Some (out +:+ newline_str +:+ pad, indent)
     else Some (out, indent));
  let out := out +:+ String char EmptyString in
  if decide (char = "("%char) then
    let indent := (indent + 1)%Z in
    pad ← Repeat " " (indent * 4)%Z; Some (out +:+ newline_str +:+ pad, indent)
  else Some (out, indent).

Fixpoint format_loop (in_ : list ascii) (st : string * Z) : option (string * Z) :=
  match in_ with
  | [] => Some st
  | char :: in' => st' ← format_step st char; format_loop in' st'
  end.

Definition FormatRuleString (in_ : string) : option string :=
  fst <$> format_loop (chars in_) (EmptyString, 0%Z).

(** ** Patterns for the crawler *)
Section crawler_patterns.
Context `{Regexp} `{GoRange}.

Abbreviation pattern_map := (gmap string (list string)).

(** Appending the patterns of a nested rule, representation by representation. *)
Definition merge_patterns (out nested : pattern_map) : pattern_map :=
  fold_left (fun (m : pattern_map) '(k, v) => <[k := default [] (m !! k) ++ v]> m) (range nested) out.

Definition leaf_getLeafRepresentationPatternMap (krp : dynamicRule) : pattern_map := {[rep krp := patterns krp]}.
Arguments leaf_getLeafRepresentationPatternMap _ /.

Fixpoint getLeafRepresentationPatternMap (rule : DynamicRule) : pattern_map :=
  match rule with
  | leafRule krp => leaf_getLeafRepresentationPatternMap krp
  | andDynamicRule nested _ _ | orDynamicRule nested _ _ =>
    removeDuplicates <$> fold_left merge_patterns (getLeafRepresentationPatternMap <$> nested) ∅
  | notDynamicRule nested _ _ =>
    removeDuplicates <$> fold_left merge_patterns [getLeafRepresentationPatternMap nested] ∅
  end.

Definition getCrawlerPatterns (rule : DynamicRule) : list string :=
  let patterns := fold_left (fun (m : gmap string bool) p => <[p := true]> m) (getPatterns rule) ∅ in
  let eReps := getEssentialRepresentations rule in
  let mappings := getLeafRepresentationPatternMap rule in
  let patterns :=
    fold_left (fun m rep =>
      if HasSuffix rep "<nil>" then
        fold_left (fun m' pattern => delete pattern m') (default [] (mappings !! rep)) m
      else m) eReps patterns in
  range_keys patterns.
End crawler_patterns.

(** ** Properties of the layout *)
(** How much deeper a text ends than it starts. *)
Definition nesting (l : list ascii) : Z :=
  Z.of_nat (length (filter (fun c => c = "("%char) l)) - Z.of_nat (length (filter (fun c => c = ")"%char) l)).

Lemma nesting_cons c l :
  nesting (c :: l) =
  ((if decide (c = "("%char) then 1 else 0) - (if decide (c = ")"%char) then 1 else 0) + nesting l)%Z.
Proof. unfold nesting. rewrite !filter_cons. repeat case_decide; simpl; lia. Qed.

Lemma Repeat_Some s n : (0 <= n)%Z -> exists t, Repeat s n = Some t.
Proof. intros Hn. unfold Repeat. destruct (n <? 0)%Z eqn:E; [lia | eauto]. Qed.

Lemma format_step_spec out indent c :
  (0 <= indent)%Z ->
  if decide (indent + nesting [c] < 0)%Z then format_step (out, indent) c = None
  else exists out', format_step (out, indent) c = Some (out', indent + nesting [c])%Z.
Proof.
  intros Hi. rewrite nesting_cons. change (nesting []) with 0%Z. unfold format_step.
  destruct (decide (c = ")"%char)) as [->|Hc].
  - rewrite (decide_False (P := ")"%char = "("%char)) by done. case_decide as Hd.
    + unfold Repeat. destruct (_ <? 0)%Z eqn:E; [done | lia].
    + destruct (Repeat_Some " " ((indent - 1) * 4)) as [t ->]; [lia|]. simpl. eexists; do 2 f_equal; lia.
  - simpl. destruct (decide (c = "("%char)) as [->|Ho].
    + rewrite decide_False by lia. destruct (Repeat_Some " " ((indent + 1) * 4)) as [t ->]; [lia|]. simpl.
      eexists; do 2 f_equal; lia.
    + rewrite decide_False by lia. eexists; do 2 f_equal; lia.
Qed.

Lemma format_loop_None l out indent :
  (0 <= indent)%Z ->
  format_loop l (out, indent) = None <-> exists n, (indent + nesting (take n l) < 0)%Z.
Proof.
  revert out indent. induction l as [|c l IH]; intros out indent Hi.
  { split; [done|]. intros [n Hn]. rewrite take_nil in Hn. unfold nesting in Hn. simpl in Hn. lia. }
  pose proof (format_step_spec out indent c Hi) as Hs. cbn [format_loop]. case_decide as Hd.
  - rewrite Hs. split; [|done]. intros _. exists 1. done.
  - destruct Hs as [out' ->]. simpl. rewrite IH by lia. split.
    + intros [n Hn]. exists (S n). simpl. rewrite nesting_cons in Hn |- *. change (nesting []) with 0%Z in Hn. lia.
    + intros [[|n] Hn]; [unfold nesting in Hn; simpl in Hn; lia|]. exists n. simpl in Hn.
      rewrite nesting_cons in Hn |- *. change (nesting []) with 0%Z. lia.
Qed.

(** [FormatRuleString] panics exactly on texts in which, at some point, more
    parentheses have been closed than opened (the indentation would become
    negative); a rule with an unmatched ')' in a pattern or value is such a
    text. *)
Theorem FormatRuleString_panics (in_ : string) :
  FormatRuleString in_ = None <-> exists n, (nesting (take n (chars in_)) < 0)%Z.
Proof.
  unfold FormatRuleString. rewrite fmap_None, format_loop_None by lia. done.
Qed.

(** ** Properties of the crawler's patterns *)
Section crawler_pattern_properties.
Context {R : Regexp} {G : GoRange}.

(** The patterns of the leaves with a representation. *)
Fixpoint leaf_patterns (rule : DynamicRule) (r : string) : list string :=
  match rule with
  | leafRule krp => if decide (rep krp = r) then patterns krp else []
  | andDynamicRule nested _ _ | orDynamicRule nested _ _ => flat_map (fun n => leaf_patterns n r) nested
  | notDynamicRule nested _ _ => leaf_patterns nested r
  end.

Lemma merge_patterns_elem (out nested : gmap string (list string)) r p :
  p ∈ default [] (merge_patterns out nested !! r) <->
  p ∈ default [] (out !! r) \/ p ∈ default [] (nested !! r).
Proof.
  unfold merge_patterns.
  enough (forall l, NoDup l.*1 -> forall m : gmap string (list string),
    p ∈ default [] (fold_left (fun m '(k, v) => <[k := default [] (m !! k) ++ v]> m) l m !! r) <->
    p ∈ default [] (m !! r) \/ exists v, (r, v) ∈ l /\ p ∈ v) as Hl.
  { rewrite Hl by apply NoDup_range_keys. apply or_iff_compat_l.
    setoid_rewrite elem_of_range. destruct (nested !! r) as [v|] eqn:E; simpl.
    - split; [by intros (v' & [= ->] & Hp) | intros Hp; by exists v].
    - split; [by intros (v' & [=] & _) | intros Hn; by apply elem_of_nil in Hn]. }
  clear out nested. induction l as [|[k v] l IH]; intros Hnd m; cbn [fold_left].
  { set_solver. }
  rewrite fmap_cons in Hnd. apply NoDup_cons in Hnd as [_ Hnd]. rewrite IH by done.
  destruct (decide (k = r)) as [->|Hne].
  - rewrite lookup_insert_eq. simpl. rewrite elem_of_app. split.
    + intros [[?|?]|(v' & ? & ?)]; [by left | right; exists v; by split; [left|] | right; exists v'; by split; [right|]].
    + intros [?|(v' & [[= ->]|?]%elem_of_cons & ?)]; [by left; left | by left; right | right; eauto].
  - rewrite lookup_insert_ne by done. apply or_iff_compat_l. split; intros (v' & Hin & ?); exists v'.
    + by split; [right|].
    + apply elem_of_cons in Hin as [[= -> _]|?]; done.
Qed.

Lemma merge_all_elem maps (m : gmap string (list string)) r p :
  p ∈ default [] ((removeDuplicates <$> fold_left merge_patterns maps m) !! r) <->
  p ∈ default [] (m !! r) \/ exists m', m' ∈ maps /\ p ∈ default [] (m' !! r).
Proof.
  rewrite lookup_fmap. transitivity (p ∈ default [] (fold_left merge_patterns maps m !! r)).
  { destruct (fold_left _ _ _ !! r); simpl; [apply elem_of_removeDuplicates | done]. }
  revert m. induction maps as [|m1 maps IH]; intros m; cbn [fold_left]; [set_solver|].
  rewrite IH, merge_patterns_elem. set_solver.
Qed.

Lemma patternMap_elem rule r p :
  p ∈ default [] (getLeafRepresentationPatternMap rule !! r) <-> p ∈ leaf_patterns rule r.
Proof.
  induction rule as [krp|rs ps qs IH|rs ps qs IH|rule ps qs IH] using DynamicRule_nested_ind;
    cbn [getLeafRepresentationPatternMap leaf_patterns].
  - unfold leaf_getLeafRepresentationPatternMap.
    case_decide; subst; [by rewrite lookup_singleton_eq | by rewrite lookup_singleton_ne].
  - rewrite merge_all_elem, lookup_empty, elem_of_flat_map. rewrite Forall_forall in IH.
    setoid_rewrite list_elem_of_fmap. simpl. split; [|set_solver].
    intros [Hn|(m' & (r' & -> & Hr') & Hp)]; [by apply elem_of_nil in Hn|]. exists r'. by rewrite <- IH.
  - rewrite merge_all_elem, lookup_empty, elem_of_flat_map. rewrite Forall_forall in IH.
    setoid_rewrite list_elem_of_fmap. simpl. split; [|set_solver].
    intros [Hn|(m' & (r' & -> & Hr') & Hp)]; [by apply elem_of_nil in Hn|]. exists r'. by rewrite <- IH.
  - rewrite merge_all_elem, lookup_empty, <- IH. simpl. set_solver.
Qed.

Lemma fold_delete_lookup (ps : list string) (m : gmap string bool) p :
  is_Some (fold_left (fun m' pattern => delete pattern m') ps m !! p) <-> is_Some (m !! p) /\ p ∉ ps.
Proof.
  revert m. induction ps as [|q ps IH]; intros m; cbn [fold_left]; [set_solver|].
  rewrite IH, lookup_delete_is_Some. set_solver.
Qed.

Lemma fold_nil_reps_lookup (mappings : gmap string (list string)) reps (m : gmap string bool) p :
  is_Some (fold_left (fun m rep => if HasSuffix rep "<nil>" then
     fold_left (fun m' pattern => delete pattern m') (default [] (mappings !! rep)) m else m) reps m !! p) <->
  is_Some (m !! p) /\ forall r, r ∈ reps -> HasSuffix r "<nil>" = true -> p ∉ default [] (mappings !! r).
Proof.
  revert m. induction reps as [|r reps IH]; intros m; cbn [fold_left]; [set_solver|].
  rewrite IH. destruct (HasSuffix r "<nil>") eqn:E.
  - rewrite fold_delete_lookup. split.
    + intros [[Hm Hr] Hno]. split; [done|]. intros r' [->|Hin]%elem_of_cons; eauto.
    + intros [Hm Hno]. split_and!; [done | |]; intros; apply Hno; try done; [by left | by right].
  - split; intros [Hm Hno]; (split; [done|]).
    + intros r' [->|Hin]%elem_of_cons; [congruence | eauto].
    + intros; apply Hno; [by right | done].
Qed.

(** The crawler can skip exactly the patterns of keys that must be absent.
    [getCrawlerPatterns] leaves out a pattern of the rule if and only if it is
    a pattern of a leaf whose representation ends in "<nil>" and which is true
    under every assignment of truth values that makes the rule true; so the
    existence of a key with such a pattern alone cannot make the rule true. *)
Theorem getCrawlerPatterns_exact (rule : DynamicRule) (p : string) :
  p ∈ getCrawlerPatterns rule <->
  p ∈ getPatterns rule /\
  ~ exists r, p ∈ leaf_patterns rule r /\ HasSuffix r "<nil>" = true /\ r ∈ leaf_reps rule /\
      forall v : string -> bool, rule_truth v rule = true -> v r = true.
Proof.
  unfold getCrawlerPatterns. rewrite elem_of_range_keys, fold_nil_reps_lookup, unique_lookup, lookup_empty.
  setoid_rewrite patternMap_elem. setoid_rewrite essential_elem. split.
  - intros [[Hp|[? [=]]] Hno]. split; [done|]. intros (r & Hr & Hs & Hl & Hv). by eapply Hno.
  - intros [Hp Hno]. split; [by left|]. intros r [Hl Hv] Hs Hr. apply Hno. by exists r.
Qed.
End crawler_pattern_properties.

(** ** The text of an instance *)
Section instance_text.
Context {R : Regexp} {F : Fmt}.

(** The static rule has the shape of the dynamic rule, and the keys of its
    leaves are their patterns under [f]. *)
Inductive shaped (f : string -> string) : DynamicRule -> staticRule -> Prop :=
| shaped_leaf krp attr sr :
    newRule (factory krp) (f <$> patterns krp) attr = Some sr -> shaped f (leafRule krp) sr
| shaped_and rs ps qs srs : Forall2 (shaped f) rs srs -> shaped f (andDynamicRule rs ps qs) (andStaticRule srs)
| shaped_or rs ps qs srs : Forall2 (shaped f) rs srs -> shaped f (orDynamicRule rs ps qs) (orStaticRule srs)
| shaped_not r ps qs sr : shaped f r sr -> shaped f (notDynamicRule r ps qs) (notStaticRule sr).

Lemma shaped_from r attr sr :
  wf_rule r -> staticRuleFromAttributes r attr = Some (Some sr) -> shaped (pattern_key (attr_env attr)) r sr.
Proof.
  assert (forall rs srs, Forall (fun r => forall sr, wf_rule r ->
      staticRuleFromAttributes r attr = Some (Some sr) -> shaped (pattern_key (attr_env attr)) r sr) rs ->
    Forall wf_rule rs -> from_loop (fun r => staticRuleFromAttributes r attr) rs = Some (Some srs) ->
    Forall2 (shaped (pattern_key (attr_env attr))) rs srs) as Hnested.
  { intros rs srs IH Hwf Hl%from_loop_Some. eapply Forall2_Forall_impl; [|clear Hl|exact Hl].
    - apply Forall_and. exact (conj IH Hwf).
    - intros r' sr' [H1 H2]. by apply H1. }
  revert sr. induction r as [krp|rs ps qs IH|rs ps qs IH|r ps qs IH] using DynamicRule_nested_ind;
    intros sr Hwf; from_methods.
  - unfold leaf_staticRuleFromAttributes. rewrite bind_Some.
    intros ([keys|] & Hk & Hsr); [|done]. apply fmap_Some in Hsr as (sr' & Hnew & [= ->]).
    apply format_keys_Some in Hk. eapply (Forall2_patterns
      (fun p k => formatPath p (finderAttributes attr) = Some (k, true))) in Hk;
      [|by eapply newMatchers_patterns, wf_matchers].
    apply (shaped_leaf _ _ attr). rewrite <- Hnew. f_equal. symmetry. apply Forall2_keys_fmap.
    eapply Forall2_impl; [exact Hk|]. simpl. intros p k Hpk. by eapply Format_pattern_key, formatPath_Format.
  - rewrite bind_Some. intros ([srs|] & Hl & Heq); simplify_eq/=. constructor.
    apply Hnested; [done | by eapply wf_rule_and | done].
  - rewrite bind_Some. intros ([srs|] & Hl & Heq); simplify_eq/=. constructor.
    apply Hnested; [done | by eapply wf_rule_or | done].
  - rewrite bind_Some. intros ([sr'|] & Hr & Heq); simplify_eq/=. constructor. by apply IH.
Qed.

Lemma shaped_make r key value sr attr :
  wf_rule r -> makeStaticRule r key value = Some (Some (sr, attr)) ->
  exists a, trigger_attrs attr a /\ shaped (pattern_key (attr_env a)) r sr.
Proof.
  revert sr. induction r as [krp|rs ps qs IH|rs ps qs IH|r ps qs IH] using DynamicRule_nested_ind;
    intros sr Hwf; make_methods.
  - unfold leaf_makeStaticRule. destruct (first_match _ key) as [m|]; [|done].
    rewrite bind_Some. intros (keys & Hk%mapM_Format & Hsr).
    apply bind_Some in Hsr as (sr' & Hnew & [= -> <-]). exists m. split; [right; eauto|].
    eapply (Forall2_patterns (fun p k => Format m p = Some k)) in Hk;
      [|by eapply newMatchers_patterns, wf_matchers].
    apply (shaped_leaf _ _ (nestingAttributes m (attributes krp))). rewrite <- Hnew. f_equal. symmetry.
    apply Forall2_keys_fmap. eapply Forall2_impl; [exact Hk|]. simpl. intros p k. apply Format_pattern_key.
  - intros Hm%compound_make_from. exists attr. split; [by left | by apply shaped_from].
  - intros Hm%compound_make_from. exists attr. split; [by left | by apply shaped_from].
  - rewrite bind_Some. intros ([[ns a']|] & Hm & Heq); simplify_eq/=.
    destruct (IH ns Hwf Hm) as (a & Ha & Hs). exists a. split; [done | by constructor].
Qed.

(** The text of a rule with its patterns replaced by [f]. *)
Fixpoint text_with (f : string -> string) (r : DynamicRule) : string :=
  match r with
  | leafRule krp =>
    match factory krp with
    | compareLiteralRuleFactory _ template => Sprintf template (f <$> take 1 (patterns krp))
    | equalsRuleFactory => Join (f <$> patterns krp) " = "
    end
  | andDynamicRule nested _ _ => "(" +:+ Join (text_with f <$> nested) " AND " +:+ ")"
  | orDynamicRule nested _ _ => "(" +:+ Join (text_with f <$> nested) " OR " +:+ ")"
  | notDynamicRule nested _ _ => "NOT (" +:+ text_with f nested +:+ ")"
  end.

(** The representation of every leaf is the one its constructor gives it. *)
Fixpoint represented (r : DynamicRule) : Prop :=
  match r with
  | leafRule krp => rep krp = text_with (fun p => p) (leafRule krp)
  | andDynamicRule nested _ _ | orDynamicRule nested _ _ => Forall_fix represented nested
  | notDynamicRule nested _ _ => represented nested
  end.

Context {FL : FmtLaws F}.

Lemma Sprintf_around before after s :
  "%"%char ∉ chars before -> "%"%char ∉ chars after ->
  Sprintf (before +:+ "%s" +:+ after) [s] = before +:+ s +:+ after.
Proof. intros Hb Ha. apply (sprintf_s [before; after] [s]); [by repeat constructor | done]. Qed.

Lemma Sprintf_s s : Sprintf "%s" [s] = s.
Proof.
  pose proof (Sprintf_around EmptyString EmptyString s) as Hs. simpl in Hs.
  rewrite Hs by apply not_elem_of_nil. apply app_str_nil_r.
Qed.

Lemma Sprintf_paren s : Sprintf "(%s)" [s] = "(" +:+ s +:+ ")".
Proof. apply (Sprintf_around "(" ")"); by apply (bool_decide_unpack _). Qed.

Lemma Sprintf_not s : Sprintf "NOT (%s)" [s] = "NOT (" +:+ s +:+ ")".
Proof. apply (Sprintf_around "NOT (" ")"); by apply (bool_decide_unpack _). Qed.

Lemma delimited_Join del l : delimited_loop true del l = Join l (" " +:+ del +:+ " ").
Proof.
  assert (forall l s, s +:+ delimited_loop false del l = Join (s :: l) (" " +:+ del +:+ " ")) as Hl.
  { clear l. induction l as [|t l IH]; intros s; [apply app_str_nil_r|].
    cbn [delimited_loop]. rewrite Sprintf_s.
    change (Join (s :: t :: l) ?sep) with (s +:+ sep +:+ Join (t :: l) sep). by rewrite <- IH. }
  destruct l as [|s l]; [done|]. cbn [delimited_loop]. rewrite Sprintf_s. apply Hl.
Qed.

Lemma String_text r : represented r -> DynamicRule_String r = text_with (fun p => p) r.
Proof.
  assert (forall rs, Forall (fun r => represented r -> DynamicRule_String r = text_with (fun p => p) r) rs ->
    Forall_fix represented rs -> DynamicRule_String <$> rs = text_with (fun p => p) <$> rs) as Hnested.
  { intros rs IH Hr%Forall_fix_Forall. induction IH as [|r0 rs Hr' _ IH]; [done|].
    apply Forall_cons in Hr as [H1 H2]. by rewrite !fmap_cons, IH, Hr'. }
  induction r as [krp|rs ps qs IH|rs ps qs IH|r ps qs IH] using DynamicRule_nested_ind; intros Hr.
  - done.
  - cbn [DynamicRule_String text_with]. unfold and_String, or_String, delimitedString. by rewrite delimited_Join, Hnested.
  - cbn [DynamicRule_String text_with]. unfold and_String, or_String, delimitedString. by rewrite delimited_Join, Hnested.
  - cbn [DynamicRule_String text_with]. unfold not_String. by rewrite Sprintf_s, IH.
Qed.

Lemma String_shaped f r sr : wf_rule r -> shaped f r sr -> staticRule_String sr = text_with f r.
Proof.
  assert (forall rs srs, Forall (fun r => forall sr, wf_rule r -> shaped f r sr ->
      staticRule_String sr = text_with f r) rs -> Forall wf_rule rs -> Forall2 (shaped f) rs srs ->
    staticRule_String <$> srs = text_with f <$> rs) as Hnested.
  { intros rs srs IH Hwf Hf. induction Hf as [|r1 sr1 rs srs Hr _ IHf]; [done|].
    apply Forall_cons in IH as [H1 H2]. apply Forall_cons in Hwf as [W1 W2].
    by rewrite !fmap_cons, IHf, (H1 sr1). }
  revert sr. induction r as [krp|rs ps qs IH|rs ps qs IH|r ps qs IH] using DynamicRule_nested_ind;
    intros sr Hwf Hs; inversion Hs as [? attr ? Hnew|? ? ? srs Hf|? ? ? srs Hf|]; subst.
  - simpl. destruct (factory krp), (patterns krp) as [|p ps]; simpl in *; by simplify_eq/=.
  - cbn [staticRule_String text_with]. unfold andStaticRule_String, orStaticRule_String. rewrite Sprintf_paren, (Hnested rs); [done | done | by eapply wf_rule_and | done].
  - cbn [staticRule_String text_with]. unfold andStaticRule_String, orStaticRule_String. rewrite Sprintf_paren, (Hnested rs); [done | done | by eapply wf_rule_or | done].
  - cbn [staticRule_String text_with]. unfold notStaticRule_String. by rewrite Sprintf_not, (IH sr0).
Qed.

(** The text of a rule that was instantiated is the text of the dynamic
    rule with every pattern replaced by the key it stands for: both have the
    same connectives and parentheses around the same leaves, and [String] of
    the dynamic rule is that text with the patterns themselves. *)
Theorem String_of_instance (r : DynamicRule) (key : string) (value : option string)
    (sr : staticRule) (attr : extendedAttributes)
    (Hwf : wf_rule r) (Hrep : represented r)
    (Hmake : makeStaticRule r key value = Some (Some (sr, attr))) :
  exists a, trigger_attrs attr a /\
    DynamicRule_String r = text_with (fun p => p) r /\
    staticRule_String sr = text_with (pattern_key (attr_env a)) r.
Proof.
  destruct (shaped_make _ _ _ _ _ Hwf Hmake) as (a & Ha & Hs). exists a.
  split_and!; [done | by apply String_text | by apply String_shaped].
Qed.
End instance_text.
