(* ===== verification/RuleManager.v ===== *)
(** * The rule manager (rules/rule_manager.go) *)
(** It keeps the dynamic rules by the number of slashes in their patterns and
    the reduced set of key prefixes the engine watches. *)
From S2P Require Import Prelude GoString Attributes Matcher StaticRule DynamicRule Instantiation.

(** ** Sorting and reducing prefixes *)
(** The inner loop of [sortPrefixesByLength]: [p] is the source's [j + 1], so
    [p = 0] is [j = -1].  The index [j] is always in range. *)
Fixpoint shift_loop (p : nat) (x : string) (out : list string) : list string * nat :=
  match p with
  | 0 => (out, 0)
  | S j =>
    match out !! j with
    | Some y =>
      if (String.length x <? String.length y)%nat then shift_loop j x (<[S j := y]> out)
      else (out, p)
    | None => (out, p)
    end
  end.

Definition sort_step (out : list string) (i : nat) : list string :=
  match out !! i with
  | Some x => let '(out', p) := shift_loop i x out in <[p := x]> out'
  | None => out
  end.

Section prefixes.
Context `{GoRange}.

Definition sortPrefixesByLength (prefixes : gmap string string) : list string :=
  let out := range_keys prefixes in
  fold_left sort_step (seq 1 (length out - 1)) out.

Definition reduce_step (out : gmap string string) (prefix : string) : gmap string string :=
  let add := forallb (fun addedPrefix => negb (HasPrefix prefix addedPrefix)) (range_keys out) in
  if add then <[prefix := EmptyString]> out else out.

Definition reducePrefixes (prefixes : gmap string string) : gmap string string :=
  fold_left reduce_step (sortPrefixesByLength prefixes) ∅.

End prefixes.

(** *** The sort *)
Definition shorter (x y : string) : Prop := String.length x <= String.length y.

Lemma shift_loop_spec x (A : list string) g B :
  let '(out, q) := shift_loop (length A) x (A ++ g :: B) in
  exists A1 A2, A = A1 ++ A2 /\ <[q := x]> out = A1 ++ x :: A2 ++ B /\
    Forall (fun y => String.length x < String.length y) A2 /\
    (forall y, last A1 = Some y -> shorter y x).
Proof.
  revert g B. induction A as [|y A IH] using rev_ind; intros g B.
  { simpl. exists [], []. split_and!; [done | done | constructor | done]. }
  rewrite length_app. replace (length A + length [y]) with (S (length A)) by (simpl; lia).
  cbn [shift_loop]. rewrite <- app_assoc. simpl.
  rewrite list_lookup_middle by done.
  destruct (Nat.ltb_spec (String.length x) (String.length y)) as [Hlt|Hge].
  - assert (<[S (length A) := y]> (A ++ y :: g :: B) = A ++ y :: y :: B) as ->.
    { rewrite insert_app_r_alt by lia. by replace (S (length A) - length A) with 1 by lia. }
    specialize (IH y (y :: B)). destruct (shift_loop (length A) x (A ++ y :: y :: B)) as [out q].
    destruct IH as (A1 & A2 & -> & Hout & HA2 & Hlast). exists A1, (A2 ++ [y]).
    split_and!; [by rewrite app_assoc | by rewrite Hout, <- app_assoc | | done].
    apply Forall_app. split; [done|]. by constructor.
  - exists (A ++ [y]), []. split_and!; [by rewrite app_nil_r | | constructor |].
    + rewrite insert_app_r_alt by lia. replace (S (length A) - length A) with 1 by lia.
      by rewrite <- app_assoc.
    + intros y'. rewrite last_snoc. intros [= <-]. done.
Qed.

Lemma sorted_last A x :
  StronglySorted shorter A -> (forall y, last A = Some y -> shorter y x) ->
  forall z, z ∈ A -> shorter z x.
Proof.
  intros HA Hlast z Hz. destruct (last A) as [y|] eqn:E.
  - apply last_Some in E as [A' ->]. specialize (Hlast y eq_refl).
    apply elem_of_app in Hz as [Hz|Hz]; [|set_solver].
    assert (shorter z y); [|unfold shorter in *; lia].
    apply (StronglySorted_app_1_elem_of shorter A' [y]); [done..|set_solver].
  - apply last_None in E as ->. by apply elem_of_nil in Hz.
Qed.

Lemma sort_step_spec (A : list string) x B :
  StronglySorted shorter A ->
  exists A', sort_step (A ++ x :: B) (length A) = A' ++ B /\ A' ≡ₚ A ++ [x] /\ StronglySorted shorter A'.
Proof.
  intros HA. unfold sort_step. rewrite list_lookup_middle by done.
  pose proof (shift_loop_spec x A x B) as Hs. destruct (shift_loop _ _ _) as [out q].
  destruct Hs as (A1 & A2 & -> & -> & HA2 & Hlast). exists (A1 ++ x :: A2).
  apply StronglySorted_app in HA as (H12 & H1 & H2).
  split_and!; [by rewrite <- app_assoc | by rewrite <- app_assoc, <- Permutation_cons_append |].
  apply StronglySorted_app_2; [|done|].
  - intros y z Hy. rewrite elem_of_cons. intros [->|Hz]; [exact (sorted_last A1 x H1 Hlast y Hy) | auto].
  - constructor; [done|]. eapply Forall_impl; [exact HA2|]. unfold shorter. simpl. lia.
Qed.

Lemma sort_fold (A B : list string) :
  StronglySorted shorter A ->
  exists C, fold_left sort_step (seq (length A) (length B)) (A ++ B) = C /\
    C ≡ₚ A ++ B /\ StronglySorted shorter C.
Proof.
  revert A. induction B as [|x B IH]; intros A HA; simpl.
  { rewrite app_nil_r. eauto. }
  destruct (sort_step_spec A x B HA) as (A' & -> & Hperm & HA').
  assert (S (length A) = length A') as ->.
  { rewrite Hperm, length_app. simpl. lia. }
  destruct (IH A' HA') as (C & -> & HC & HsC). exists C. split_and!; [done | | done].
  rewrite HC, Hperm, <- app_assoc. done.
Qed.

Section reduce.
Context `{GoRange}.

Lemma sortPrefixes_spec prefixes :
  sortPrefixesByLength prefixes ≡ₚ range_keys prefixes /\
  StronglySorted shorter (sortPrefixesByLength prefixes).
Proof.
  unfold sortPrefixesByLength. destruct (range_keys prefixes) as [|x l]; simpl.
  { split; [done | constructor]. }
  rewrite Nat.sub_0_r. destruct (sort_fold [x] l) as (C & HC & Hp & Hs); [repeat constructor|].
  simpl in HC. by rewrite HC.
Qed.

(** [sortPrefixesByLength] returns every prefix exactly once, shortest
    first, whatever order the map is iterated in. *)
Theorem sortPrefixesByLength_sorted (prefixes : gmap string string) :
  sortPrefixesByLength prefixes ≡ₚ (map_to_list prefixes).*1 /\
  StronglySorted shorter (sortPrefixesByLength prefixes).
Proof.
  destruct (sortPrefixes_spec prefixes) as [Hp Hs]. split; [|done].
  rewrite Hp. unfold range_keys. by rewrite range_perm.
Qed.

(** *** The reduction *)
(** The state of the loop after the prefixes in [l]: a subset of them, no
    element of which is a prefix of another, that covers them all. *)
Record reduced (l : list string) (out : gmap string string) : Prop := {
  red_sub : forall p, is_Some (out !! p) -> p ∈ l;
  red_cover : forall p, p ∈ l -> exists q, is_Some (out !! q) /\ HasPrefix p q = true;
  red_anti : forall p q, is_Some (out !! p) -> is_Some (out !! q) -> HasPrefix p q = true -> p = q
}.

Lemma reduce_step_reduced l out p :
  reduced l out -> (forall q, q ∈ l -> shorter q p) -> reduced (l ++ [p]) (reduce_step out p).
Proof.
  intros [Hsub Hcov Hanti] Hlen. unfold reduce_step.
  destruct (forallb _ _) eqn:Hadd.
  - assert (forall q, is_Some (out !! q) -> HasPrefix p q = false) as Hno.
    { intros q Hq%elem_of_range_keys. rewrite forallb_forall in Hadd.
      specialize (Hadd q (proj1 (list_elem_of_In _ _) Hq)). by apply negb_true_iff in Hadd. }
    split.
    + intros q. rewrite lookup_insert_is_Some, elem_of_app, list_elem_of_singleton.
      intros [<-|[_ Hq]]; [by right | left; auto].
    + intros q [Hq|Hq]%elem_of_app.
      * destruct (Hcov q Hq) as (q' & Hq' & Hpre). exists q'. split; [|done].
        rewrite lookup_insert_is_Some. destruct (decide (p = q')); [by left | by right].
      * apply list_elem_of_singleton in Hq as ->. exists p. rewrite lookup_insert_eq. eauto with gostr.
    + intros q q'. rewrite !lookup_insert_is_Some.
      intros [<-|[_ Hq]] [<-|[_ Hq']] Hpre; [done| | |by apply Hanti].
      * by rewrite Hno in Hpre.
      * apply HasPrefix_antisym; [done|]. apply Hlen. auto.
  - assert (exists q, is_Some (out !! q) /\ HasPrefix p q = true) as Hex.
    { apply not_true_iff_false in Hadd. rewrite forallb_forall in Hadd.
      destruct (decide (Exists (fun q => HasPrefix p q = true) (range_keys out))) as [Hex|Hnex].
      - apply Exists_exists in Hex as (q & Hq%elem_of_range_keys & Hp). eauto.
      - destruct Hadd. intros q Hq. apply negb_true_iff, not_true_iff_false. intros Hp.
        apply Hnex, Exists_exists. exists q. split; [by apply list_elem_of_In | done]. }
    split; [intros q Hq; apply elem_of_app; auto | | done].
    intros q [Hq|Hq]%elem_of_app; [auto|]. apply list_elem_of_singleton in Hq as ->. done.
Qed.

Lemma reduce_fold l k out :
  reduced l out -> StronglySorted shorter (l ++ k) -> reduced (l ++ k) (fold_left reduce_step k out).
Proof.
  revert l out. induction k as [|p k IH]; intros l out Hr Hs; simpl; [by rewrite app_nil_r|].
  replace (l ++ p :: k) with ((l ++ [p]) ++ k) in * by (by rewrite <- app_assoc).
  apply IH; [|done]. apply reduce_step_reduced; [done|]. intros q Hq.
  apply StronglySorted_app_1_l in Hs.
  apply (StronglySorted_app_1_elem_of shorter l [p]); [done..|set_solver].
Qed.

Lemma reducePrefixes_reduced prefixes :
  reduced (sortPrefixesByLength prefixes) (reducePrefixes prefixes).
Proof.
  apply (reduce_fold [] (sortPrefixesByLength prefixes) ∅); [|apply sortPrefixes_spec].
  split; intros p; rewrite ?lookup_empty; [by intros [? [=]] | by intros ?%elem_of_nil |].
  intros q [? [=]].
Qed.

Lemma elem_of_sortPrefixes prefixes p :
  p ∈ sortPrefixesByLength prefixes <-> is_Some (prefixes !! p).
Proof. rewrite (proj1 (sortPrefixes_spec prefixes)). apply elem_of_range_keys. Qed.

Lemma reducePrefixes_cover prefixes p :
  is_Some (prefixes !! p) -> exists q, is_Some (reducePrefixes prefixes !! q) /\ HasPrefix p q = true.
Proof. rewrite <- (elem_of_sortPrefixes prefixes). apply reducePrefixes_reduced. Qed.

(** [reducePrefixes] keeps exactly the minimal prefixes, those no other
    given prefix is a prefix of; so its result does not depend on the order in
    which Go iterates over the maps. *)
Theorem reducePrefixes_minimal (prefixes : gmap string string) (p : string) :
  is_Some (reducePrefixes prefixes !! p) <->
  is_Some (prefixes !! p) /\
  forall q, is_Some (prefixes !! q) -> HasPrefix p q = true -> q = p.
Proof.
  destruct (reducePrefixes_reduced prefixes) as [Hsub Hcov Hanti].
  setoid_rewrite <- (elem_of_sortPrefixes prefixes). split.
  - intros Hp. split; [auto|]. intros q Hq Hpq. destruct (Hcov q Hq) as (q' & Hq' & Hqq').
    assert (p = q') as <- by (eapply Hanti; eauto with gostr).
    apply HasPrefix_antisym; [done|]. by apply HasPrefix_length.
  - intros [Hp Hmin]. destruct (Hcov p Hp) as (q & Hq & Hpq).
    by rewrite <- (Hmin q (Hsub q Hq) Hpq).
Qed.
End reduce.

(** ** The manager *)
(** A value of the interface type [DynamicRule] is a pointer to a rule; Go
    compares the keys of [map[DynamicRule]int] by that pointer. *)
Record ruleRef `{Regexp} := mkRuleRef {
  ref_ptr : nat;
  ref_rule : DynamicRule
}.

Record ruleManager `{Regexp} := mkRuleManager {
  rm_constraints : gmap string constraint;
  currentIndex : nat;
  rulesBySlashCount : gmap nat (gmap nat (DynamicRule * nat));
  rm_prefixes : gmap string string;
  rm_rules : list DynamicRule;
  enhancedRuleFilter : bool
}.

Section manager.
Context `{Regexp}.

Definition newRuleManager (constraints : gmap string constraint) (enhancedRuleFilter : bool) :
    ruleManager :=
  mkRuleManager _ constraints 0 ∅ ∅ [] enhancedRuleFilter.

(** One iteration of the loop of [addRule] over the patterns: the bucket is
    created when missing and the rule, keyed by its pointer, gets the index. *)
Definition add_to_bucket (index : nat) (rule : ruleRef)
    (m : gmap nat (gmap nat (DynamicRule * nat))) (pattern : string) :
    gmap nat (gmap nat (DynamicRule * nat)) :=
  let slashCount := Count pattern slash in
  let rules := default ∅ (m !! slashCount) in
  <[slashCount := <[ref_ptr rule := (ref_rule rule, index)]> rules]> m.

(** [None] is the panic of [getPrefixesWithConstraints] on a constraint
    without character sets. *)
Definition addRule `{GoRange} (rm : ruleManager) (rule : ruleRef) : option (ruleManager * nat) :=
  let buckets := fold_left (add_to_bucket (currentIndex rm) rule) (getPatterns (ref_rule rule))
                   (rulesBySlashCount rm) in
  newPrefixes ← rule_prefixesWithConstraints (rm_constraints rm) (ref_rule rule);
  let allPrefixes :=
    fold_left (fun (m : gmap string string) prefix => <[prefix := EmptyString]> m) newPrefixes
      (rm_prefixes rm) in
  let lastIndex := currentIndex rm in
  Some (mkRuleManager _ (rm_constraints rm) (currentIndex rm + 1) buckets
          (reducePrefixes allPrefixes) (rm_rules rm ++ [ref_rule rule]) (enhancedRuleFilter rm),
        lastIndex).

(** The rule filter of [getStaticRules]. *)
Definition rule_filter (enhanced : bool) (sRule : staticRule) (key : string) (value : option string) :
    bool :=
  if enhanced then
    let qSat := qSatisfiable sRule key value in
    bool_decide (qSat = qTrue) || bool_decide (qSat = qMaybe)
  else satisfiable sRule key value.

Fixpoint static_rules_loop (enhanced : bool) (key : string) (value : option string)
    (rules : list (nat * (DynamicRule * nat))) : option (list (staticRule * nat)) :=
  match rules with
  | [] => Some []
  | (_, (rule, index)) :: rules' =>
    r ← makeStaticRule rule key value;
    out ← static_rules_loop enhanced key value rules';
    match r with
    | Some (sRule, _) =>
      if rule_filter enhanced sRule key value then Some ((sRule, index) :: out) else Some out
    | None => Some out
    end
  end.

(** The result is keyed by freshly allocated static rules, so its entries are
    distinct; they are listed in the order of the iteration. *)
Definition getStaticRules `{GoRange} (rm : ruleManager) (key : string) (value : option string) :
    option (list (staticRule * nat)) :=
  let slashCount := Count key slash in
  match rulesBySlashCount rm !! slashCount with
  | Some rules => static_rules_loop (enhancedRuleFilter rm) key value (range rules)
  | None => Some []
  end.

Definition combineRuleData `{GoRange} (rules : list DynamicRule) (source : DynamicRule -> list string) :
    list string :=
  removeDuplicates (flat_map source rules).

End manager.

(** ** Reachable managers *)
(** The managers an engine can have after adding the given rules, each in its
    own iteration order. *)
Inductive managed `{Regexp} (constraints : gmap string constraint) (enhanced : bool) :
    list ruleRef -> ruleManager -> Prop :=
| managed_new : managed constraints enhanced [] (newRuleManager constraints enhanced)
| managed_add (G : GoRange) refs rm ref rm' index :
    managed constraints enhanced refs rm -> addRule rm ref = Some (rm', index) ->
    managed constraints enhanced (refs ++ [ref]) rm'.

Section reachable.
Context {R : Regexp}.

Definition bucket_lookup (m : gmap nat (gmap nat (DynamicRule * nat))) (slashes ptr : nat) :
    option (DynamicRule * nat) :=
  b ← m !! slashes; b !! ptr.

Lemma add_to_bucket_lookup index ref m pattern slashes ptr :
  bucket_lookup (add_to_bucket index ref m pattern) slashes ptr =
  if decide (slashes = Count pattern slash /\ ptr = ref_ptr ref) then Some (ref_rule ref, index)
  else bucket_lookup m slashes ptr.
Proof.
  unfold bucket_lookup, add_to_bucket.
  destruct (decide (slashes = Count pattern slash)) as [->|Hs].
  - rewrite lookup_insert_eq. simpl. destruct (decide (ptr = ref_ptr ref)) as [->|Hp].
    + rewrite lookup_insert_eq. by rewrite decide_True.
    + rewrite lookup_insert_ne by done. rewrite decide_False by tauto.
      by destruct (m !! Count pattern slash).
  - rewrite lookup_insert_ne by done. by rewrite decide_False by tauto.
Qed.

Lemma add_buckets_lookup index ref ps m slashes ptr :
  bucket_lookup (fold_left (add_to_bucket index ref) ps m) slashes ptr =
  if decide (Exists (fun p => slashes = Count p slash) ps /\ ptr = ref_ptr ref)
  then Some (ref_rule ref, index) else bucket_lookup m slashes ptr.
Proof.
  revert m. induction ps as [|p ps IH]; intros m; cbn [fold_left].
  { rewrite decide_False; [done|]. intros [Hex _]. inversion Hex. }
  rewrite IH, add_to_bucket_lookup.
  repeat destruct (decide _); try done; rewrite ?Exists_cons in *; naive_solver.
Qed.

(** What the manager knows after adding [refs], whatever the iteration orders. *)
Record manager_inv (constraints : gmap string constraint) (enhanced : bool) (refs : list ruleRef)
    (rm : ruleManager) : Prop := {
  inv_constraints : rm_constraints rm = constraints;
  inv_enhanced : enhancedRuleFilter rm = enhanced;
  inv_index : currentIndex rm = length refs;
  inv_rules : rm_rules rm = ref_rule <$> refs;
  (* a bucket holds, for each pointer, the last rule added with a pattern of
     that many slashes *)
  inv_bucket : forall slashes ptr rule index,
    bucket_lookup (rulesBySlashCount rm) slashes ptr = Some (rule, index) <->
    exists ref, refs !! index = Some ref /\ ref_ptr ref = ptr /\ ref_rule ref = rule /\
      Exists (fun p => slashes = Count p slash) (getPatterns rule) /\
      forall j ref', index < j -> refs !! j = Some ref' -> ref_ptr ref' = ptr ->
        ~ Exists (fun p => slashes = Count p slash) (getPatterns (ref_rule ref'));
  inv_prefix_sound : forall q, is_Some (rm_prefixes rm !! q) ->
    exists ref ps, ref ∈ refs /\ rule_prefixesWithConstraints constraints (ref_rule ref) = Some ps /\ q ∈ ps;
  inv_prefix_cover : forall ref, ref ∈ refs ->
    exists ps, rule_prefixesWithConstraints constraints (ref_rule ref) = Some ps /\
      forall p, p ∈ ps -> exists q, is_Some (rm_prefixes rm !! q) /\ HasPrefix p q = true;
  inv_prefix_minimal : forall p q, is_Some (rm_prefixes rm !! p) -> is_Some (rm_prefixes rm !! q) ->
    HasPrefix p q = true -> p = q
}.

Lemma new_manager_inv constraints enhanced :
  manager_inv constraints enhanced [] (newRuleManager constraints enhanced).
Proof.
  split; simpl; try done.
  - intros slashes ptr rule index. unfold bucket_lookup. rewrite lookup_empty. simpl. naive_solver.
  - intros q. rewrite lookup_empty. by intros [? [=]].
  - intros ref Hr. by apply elem_of_nil in Hr.
  - intros p q. rewrite lookup_empty. by intros [? [=]].
Qed.

Lemma insert_prefixes_lookup (new : list string) (m : gmap string string) q :
  is_Some (fold_left (fun (m : gmap string string) prefix => <[prefix := EmptyString]> m) new m !! q) <->
  q ∈ new \/ is_Some (m !! q).
Proof.
  revert m. induction new as [|p new IH]; intros m; simpl; [set_solver|].
  rewrite IH, lookup_insert_is_Some', elem_of_cons. naive_solver.
Qed.

Lemma add_manager_bucket constraints enhanced refs rm ref slashes ptr rule index :
  manager_inv constraints enhanced refs rm ->
  bucket_lookup (fold_left (add_to_bucket (currentIndex rm) ref) (getPatterns (ref_rule ref))
    (rulesBySlashCount rm)) slashes ptr = Some (rule, index) <->
  exists r, (refs ++ [ref]) !! index = Some r /\ ref_ptr r = ptr /\ ref_rule r = rule /\
    Exists (fun p => slashes = Count p slash) (getPatterns rule) /\
    forall j ref', index < j -> (refs ++ [ref]) !! j = Some ref' -> ref_ptr ref' = ptr ->
      ~ Exists (fun p => slashes = Count p slash) (getPatterns (ref_rule ref')).
Proof.
  intros I. rewrite add_buckets_lookup, (inv_index _ _ _ _ I). case_decide as Hd.
  - destruct Hd as [Hex ->]. split.
    + intros [= <- <-]. exists ref. rewrite list_lookup_middle by done. split_and!; [done..|].
      intros j ref' Hj Hl. apply lookup_lt_Some in Hl. rewrite length_app in Hl. simpl in Hl. lia.
    + intros (r & Hl & Hp & <- & Hex' & Hlast).
      destruct (decide (index = length refs)) as [->|Hne].
      { rewrite list_lookup_middle in Hl by done. by simplify_eq. }
      exfalso. apply (Hlast (length refs) ref); [|by rewrite list_lookup_middle|done|done].
      apply lookup_lt_Some in Hl. rewrite length_app in Hl. simpl in Hl. lia.
  - rewrite (inv_bucket _ _ _ _ I). split.
    + intros (r & Hl & <- & <- & Hex & Hlast). exists r. split_and!; [by apply lookup_app_l_Some|done..|].
      intros j ref' Hj Hl' Hp Hex'.
      apply lookup_app_Some in Hl' as [Hl'|[Hj' Hl']]; [by eapply (Hlast j ref')|].
      apply list_lookup_singleton_Some in Hl' as [_ <-]. by apply Hd.
    + intros (r & Hl & <- & <- & Hex & Hlast).
      apply lookup_app_Some in Hl as [Hl|[Hi Hl]].
      * exists r. split_and!; [done..|]. intros j ref' Hj Hl'. apply (Hlast j ref' Hj).
        by apply lookup_app_l_Some.
      * apply list_lookup_singleton_Some in Hl as [_ <-]. by destruct Hd.
Qed.

Lemma add_manager_inv `{GoRange} constraints enhanced refs rm ref rm' index :
  manager_inv constraints enhanced refs rm -> addRule rm ref = Some (rm', index) ->
  manager_inv constraints enhanced (refs ++ [ref]) rm' /\ index = length refs.
Proof.
  intros I. unfold addRule. rewrite bind_Some. intros (new & Hnew & [= <- <-]).
  set (all := fold_left _ new (rm_prefixes rm)).
  pose proof (reducePrefixes_reduced all) as [Hsub Hcov Hanti].
  rewrite (inv_constraints _ _ _ _ I) in Hnew.
  split; [split; simpl|apply I].
  - apply I.
  - apply I.
  - rewrite length_app, (inv_index _ _ _ _ I). done.
  - by rewrite fmap_app, (inv_rules _ _ _ _ I).
  - intros. by apply (add_manager_bucket constraints enhanced).
  - intros q Hq%Hsub. apply elem_of_sortPrefixes, insert_prefixes_lookup in Hq as [Hq|Hq].
    + exists ref, new. set_solver.
    + destruct (inv_prefix_sound _ _ _ _ I q Hq) as (r & ps & ? & ? & ?). exists r, ps. set_solver.
  - intros r [Hr|Hr]%elem_of_app.
    + destruct (inv_prefix_cover _ _ _ _ I r Hr) as (ps & Hps & Hc). exists ps. split; [done|].
      intros p (q & Hq & Hpq)%Hc.
      destruct (reducePrefixes_cover all q) as (q' & Hq' & Hqq'); [by apply insert_prefixes_lookup; right|].
      exists q'. eauto with gostr.
    + apply list_elem_of_singleton in Hr as ->. exists new. split; [done|].
      intros p Hp. apply reducePrefixes_cover, insert_prefixes_lookup. by left.
  - apply Hanti.
Qed.

Lemma managed_inv constraints enhanced refs rm :
  managed constraints enhanced refs rm -> manager_inv constraints enhanced refs rm.
Proof.
  induction 1 as [|G refs rm ref rm' index _ IH Hadd]; [apply new_manager_inv|].
  by eapply add_manager_inv.
Qed.

(** C17: The invariant of the rule manager holds whatever rules are added in
    whatever order and however Go iterates over its maps: indices count the
    rules added, every bucket maps a rule to the index it was last added with,
    exactly for the slash counts of its patterns, and the watched prefixes are
    prefixes of the rules, cover all of them and are free of redundancy. *)
Theorem manager_invariant (constraints : gmap string constraint) (enhanced : bool)
    (refs : list ruleRef) (rm : ruleManager) (Hm : managed constraints enhanced refs rm) :
  manager_inv constraints enhanced refs rm.
Proof. by apply managed_inv. Qed.
End reachable.

(** ** Watching *)
Section watching.
Context {R : Regexp} {RL : RegexpLaws R}.

Lemma concat_mapM_elem {A B} (f : A -> option (list B)) (l : list A) out x ys :
  concat_mapM f l = Some out -> x ∈ l -> f x = Some ys -> forall y, y ∈ ys -> y ∈ out.
Proof.
  unfold concat_mapM. rewrite fmap_Some. intros (yss & Hm%mapM_Some & ->) Hx Hf y Hy.
  apply list_elem_of_lookup in Hx as [i Hi].
  destruct (Forall2_lookup_l _ _ _ _ _ Hm Hi) as (zs & Hzs & Heq). rewrite Hf in Heq. simplify_eq.
  apply list_elem_of_In, in_concat. exists zs. rewrite <- !list_elem_of_In.
  split; [|done]. by eapply list_elem_of_lookup_2.
Qed.

Lemma concat_mapM_total {A B} (f : A -> option (list B)) (l : list A) out x :
  concat_mapM f l = Some out -> x ∈ l -> is_Some (f x).
Proof.
  unfold concat_mapM. rewrite fmap_Some. intros (yss & Hm%mapM_Some & _) [i Hi]%list_elem_of_lookup.
  destruct (Forall2_lookup_l _ _ _ _ _ Hm Hi) as (zs & _ & Heq). by eexists.
Qed.

Lemma rule_prefixes_cover constraints r ps p key a :
  wf_rule r -> rule_prefixesWithConstraints constraints r = Some ps -> p ∈ pattern_list r ->
  canonical p = true -> colon_free (pattern_segments p) = true ->
  constraint_ok constraints p a -> Format a p = Some key ->
  exists q, q ∈ ps /\ HasPrefix key q = true.
Proof.
  intros Hwf Hps Hp Hcan Hcf Hok Hfmt. revert ps Hwf Hps Hp.
  assert (forall rs, Forall (fun r => forall ps, wf_rule r ->
              rule_prefixesWithConstraints constraints r = Some ps -> p ∈ pattern_list r ->
              exists q, q ∈ ps /\ HasPrefix key q = true) rs ->
            forall ps, Forall wf_rule rs ->
            concat_mapM (rule_prefixesWithConstraints constraints) rs = Some ps ->
            p ∈ flat_map pattern_list rs -> exists q, q ∈ ps /\ HasPrefix key q = true) as Hnested.
  { intros rs IH ps Hws Hc (r' & Hr' & Hp')%elem_of_flat_map. rewrite Forall_forall in IH, Hws.
    destruct (concat_mapM_total _ _ _ _ Hc Hr') as [ps' Hps'].
    destruct (IH r' Hr' ps' (Hws r' Hr') Hps' Hp') as (q & Hq & Hk). exists q.
    split; [|done]. by eapply concat_mapM_elem. }
  induction r as [krp|rs ps' qs IH|rs ps' qs IH|r ps' qs IH] using DynamicRule_nested_ind;
    intros ps Hwf Hps Hp; cbn [rule_prefixesWithConstraints pattern_list] in *.
  - destruct (newMatchers_Forall2 _ _ _ (wf_matchers _ Hwf)) as [Hf _].
    apply list_elem_of_lookup in Hp as [i Hi].
    destruct (Forall2_lookup_l _ _ _ _ _ Hf Hi) as (rkm & Hrkm%list_elem_of_lookup_2 & Hnew).
    destruct (concat_mapM_total _ _ _ _ Hps Hrkm) as [qs Hqs].
    destruct (prefixes_cover p key rkm a constraints qs) as (q & Hq & Hk); [done..|].
    exists q. split; [|done]. by eapply concat_mapM_elem.
  - apply (Hnested rs); [done| |done|done]. by eapply wf_rule_and.
  - apply (Hnested rs); [done| |done|done]. by eapply wf_rule_or.
  - apply (Hnested [r]); [by apply Forall_singleton..|done|]. simpl. by rewrite app_nil_r.
Qed.

Lemma managed_covers constraints enhanced refs rm ref p key a :
  managed constraints enhanced refs rm -> ref ∈ refs -> wf_rule (ref_rule ref) ->
  p ∈ pattern_list (ref_rule ref) -> canonical p = true -> colon_free (pattern_segments p) = true ->
  constraint_ok constraints p a -> Format a p = Some key ->
  exists q, is_Some (rm_prefixes rm !! q) /\ HasPrefix key q = true.
Proof.
  intros Hm Href Hwf Hp Hcan Hcf Hok Hfmt.
  destruct (inv_prefix_cover _ _ _ _ (managed_inv _ _ _ _ Hm) ref Href) as (ps & Hps & Hcov).
  destruct (rule_prefixes_cover _ _ _ _ _ _ Hwf Hps Hp Hcan Hcf Hok Hfmt) as (q & Hq & Hk).
  destruct (Hcov q Hq) as (q' & Hq' & Hqq'). exists q'. eauto with gostr.
Qed.

(** C11: The engine watches every key its rules can depend on: after adding
    rules, every key formatted from a canonical pattern of one of them (with a
    value its constraint admits) begins with a prefix that the manager keeps. *)
Theorem watch_covers_keys (constraints : gmap string constraint) (enhanced : bool)
    (refs : list ruleRef) (rm : ruleManager) (ref : ruleRef) (p key : string)
    (a : extendedAttributes) (Hm : managed constraints enhanced refs rm) (Href : ref ∈ refs)
    (Hwf : wf_rule (ref_rule ref)) (Hp : p ∈ getPatterns (ref_rule ref))
    (Hcan : canonical p = true) (Hcf : colon_free (pattern_segments p) = true)
    (Hok : constraint_ok constraints p a) (Hfmt : Format a p = Some key) :
  exists q, is_Some (rm_prefixes rm !! q) /\ HasPrefix key q = true.
Proof. apply elem_of_getPatterns in Hp; [|done]. by eapply managed_covers. Qed.
End watching.

(** ** Dispatching *)
Section dispatching.
Context {R : Regexp} {RL : RegexpLaws R}.

Lemma static_rules_loop_elem enhanced key value rules out sr i :
  static_rules_loop enhanced key value rules = Some out ->
  (sr, i) ∈ out <->
  exists ptr rule attr, (ptr, (rule, i)) ∈ rules /\ makeStaticRule rule key value = Some (Some (sr, attr)) /\
    rule_filter enhanced sr key value = true.
Proof.
  revert out. induction rules as [|[ptr [rule index]] rules IH]; intros out; simpl.
  { intros [= <-]. set_solver. }
  rewrite bind_Some. intros (r & Hr & Hout). rewrite bind_Some in Hout.
  destruct Hout as (out' & Hout' & Hout). specialize (IH out' Hout').
  transitivity ((i = index /\ (exists attr, r = Some (sr, attr)) /\
                  rule_filter enhanced sr key value = true) \/ (sr, i) ∈ out').
  - destruct r as [[sr' attr']|]; [destruct (rule_filter enhanced sr' key value) eqn:Hf|];
      injection Hout as <-; rewrite ?elem_of_cons.
    + split; [intros [Heq|?]; [simplify_eq; eauto|by right]|].
      intros [(-> & [attr [= -> ->]] & _)|?]; auto.
    + split; [by right|]. intros [(-> & [attr [= -> ->]] & Hf')|?]; [congruence|done].
    + split; [by right|]. by intros [(_ & [attr [=]] & _)|?].
  - rewrite IH. split.
    + intros [(-> & [attr ->] & Hf)|(p & rl & attr & Hin & Hmk & Hf)].
      * exists ptr, rule, attr. split_and!; [by left|done..].
      * exists p, rl, attr. split_and!; [by right|done..].
    + intros (p & rl & attr & [Heq|Hin]%elem_of_cons & Hmk & Hf); [left|right; eauto 10].
      simplify_eq. eauto.
Qed.

Lemma getStaticRules_elem `{GoRange} rm key value out sr i :
  getStaticRules rm key value = Some out ->
  (sr, i) ∈ out <->
  exists ptr rule attr, bucket_lookup (rulesBySlashCount rm) (Count key slash) ptr = Some (rule, i) /\
    makeStaticRule rule key value = Some (Some (sr, attr)) /\
    rule_filter (enhancedRuleFilter rm) sr key value = true.
Proof.
  unfold getStaticRules, bucket_lookup.
  destruct (rulesBySlashCount rm !! Count key slash) as [rules|]; simpl.
  - intros Hl. rewrite (static_rules_loop_elem _ _ _ _ _ _ _ Hl). by setoid_rewrite elem_of_range.
  - intros [= <-]. set_solver.
Qed.

Lemma getStaticRules_spec `{GoRange} constraints enhanced refs rm key value out sr i :
  managed constraints enhanced refs rm -> NoDup (ref_ptr <$> refs) ->
  getStaticRules rm key value = Some out ->
  (sr, i) ∈ out <->
  exists ref attr, refs !! i = Some ref /\
    Exists (fun p => Count key slash = Count p slash) (getPatterns (ref_rule ref)) /\
    makeStaticRule (ref_rule ref) key value = Some (Some (sr, attr)) /\
    rule_filter enhanced sr key value = true.
Proof.
  intros Hm Hdistinct Hout.
  pose proof (managed_inv _ _ _ _ Hm) as I.
  rewrite (getStaticRules_elem _ _ _ _ _ _ Hout), (inv_enhanced _ _ _ _ I).
  setoid_rewrite (inv_bucket _ _ _ _ I). split.
  - intros (ptr & rule & attr & (ref & Hi & <- & <- & Hex & _) & Hmk & Hf). eauto 10.
  - intros (ref & attr & Hi & Hex & Hmk & Hf).
    exists (ref_ptr ref), (ref_rule ref), attr. split_and!; [|done..].
    exists ref. split_and!; [done..|]. intros j ref' Hj Hl Hp _.
    assert (j = i); [|lia]. apply (NoDup_lookup _ _ _ (ref_ptr ref) Hdistinct); rewrite list_lookup_fmap.
    + by rewrite Hl, <- Hp.
    + by rewrite Hi.
Qed.

(** C18: [getStaticRules] returns exactly the instances the specification asks
    for: when the rules added are distinct objects, [(sr, i)] is in its result
    if and only if the [i]-th rule has a pattern with as many slashes as the
    key, is instantiated to [sr] by the key and passes the rule filter. *)
Theorem getStaticRules_exact `{GoRange} (constraints : gmap string constraint) (enhanced : bool)
    (refs : list ruleRef) (rm : ruleManager) (key : string) (value : option string)
    (out : list (staticRule * nat)) (sr : staticRule) (i : nat)
    (Hm : managed constraints enhanced refs rm) (Hdistinct : NoDup (ref_ptr <$> refs))
    (Hout : getStaticRules rm key value = Some out) :
  (sr, i) ∈ out <->
  exists ref attr, refs !! i = Some ref /\
    Exists (fun p => Count key slash = Count p slash) (getPatterns (ref_rule ref)) /\
    makeStaticRule (ref_rule ref) key value = Some (Some (sr, attr)) /\
    rule_filter enhanced sr key value = true.
Proof. by eapply getStaticRules_spec. Qed.

(** *** A changed key reaches its rules *)
Definition slash_free (seg : segment) : Prop :=
  match seg with Lit s => slash ∉ chars s | Param n => slash ∉ chars n end.

Lemma pattern_segments_slash_free pattern : Forall slash_free (pattern_segments pattern).
Proof.
  apply Forall_forall. intros seg. unfold pattern_segments, nonempty_parts.
  rewrite list_elem_of_fmap. intros (s & -> & [_ Hin]%list_elem_of_filter).
  pose proof (Split_no_sep pattern slash) as Hns. rewrite Forall_forall in Hns.
  specialize (Hns s Hin). destruct (parse_segment_spec s) as [(n & -> & ->)|[_ ->]]; [|done].
  unfold chars in *. simpl in *. by apply not_elem_of_cons in Hns as [_ ?].
Qed.

Lemma Count_render env segs :
  Forall slash_free segs -> (forall n v, n ∈ params segs -> env n = Some v -> slash ∉ chars v) ->
  Count (render env segs) slash = length segs.
Proof.
  induction segs as [|seg segs IH]; intros Hs He; [done|]. apply Forall_cons in Hs as [Hseg Hs].
  simpl. rewrite Count_app, IH; [|done|intros n v Hn; apply He; destruct seg; simpl; set_solver].
  rewrite (proj2 (Count_zero (render_segment env seg) slash)); [lia|].
  destruct seg as [l|n]; simpl; [done|]. destruct (env n) as [v|] eqn:Hv; simpl.
  - apply (He n v); [simpl; set_solver | done].
  - unfold chars in *. simpl. rewrite not_elem_of_cons. done.
Qed.

Lemma Count_formatted N p a key :
  canonical p = true -> same_elems (params (pattern_segments p)) N -> valid_attrs N a ->
  Format a p = Some key -> Count key slash = Count p slash.
Proof.
  intros Hcan Hsame Hval [_ ->]%Format_Some. rewrite Count_render.
  - rewrite <- (canonical_eq p) at 2 by done. by rewrite Count_render by (done || apply pattern_segments_slash_free).
  - apply pattern_segments_slash_free.
  - intros n v Hn%Hsame Hv. destruct (Hval n Hn) as (w & Hw & Hvw). rewrite Hw in Hv. simplify_eq/=.
    by apply valid_value_iff in Hvw as (_ & ? & _).
Qed.

Lemma static_rules_loop_total enhanced key value rules :
  (forall ptr rule i, (ptr, (rule, i)) ∈ rules -> is_Some (makeStaticRule rule key value)) ->
  is_Some (static_rules_loop enhanced key value rules).
Proof.
  induction rules as [|[ptr [rule i]] rules IH]; intros Ht; simpl; [done|].
  destruct (Ht ptr rule i) as [r ->]; [set_solver|]. simpl.
  destruct IH as [out ->]; [set_solver|]. simpl. destruct r as [[sr attr]|]; [|done].
  by destruct (rule_filter enhanced sr key value).
Qed.

Lemma getStaticRules_total `{GoRange} constraints enhanced refs rm key value :
  managed constraints enhanced refs rm ->
  Forall (fun ref => wf_rule (ref_rule ref) /\ plain_rule (ref_rule ref)) refs ->
  exists out, getStaticRules rm key value = Some out.
Proof.
  intros Hm Hwf. pose proof (managed_inv _ _ _ _ Hm) as I. unfold getStaticRules.
  destruct (rulesBySlashCount rm !! Count key slash) as [rules|] eqn:Hb; [|by eexists].
  apply static_rules_loop_total. intros ptr rule i Hin%elem_of_range.
  assert (bucket_lookup (rulesBySlashCount rm) (Count key slash) ptr = Some (rule, i)) as Hl
    by (unfold bucket_lookup; by rewrite Hb).
  apply (inv_bucket _ _ _ _ I) in Hl as (ref & Hi%list_elem_of_lookup_2 & _ & <- & _).
  rewrite Forall_forall in Hwf. destruct (Hwf ref Hi) as [Hw Hp].
  destruct (makeStaticRule_total _ key value Hw Hp) as (o & -> & _). done.
Qed.

Lemma getStaticRules_triggered `{GoRange} constraints refs rm N i ref key p value a :
  managed constraints false refs rm -> NoDup (ref_ptr <$> refs) ->
  Forall (fun ref => wf_rule (ref_rule ref) /\ plain_rule (ref_rule ref)) refs ->
  refs !! i = Some ref -> uniform N (ref_rule ref) -> valid_attrs N a ->
  canonical p = true -> Format a p = Some key -> triggers key p (ref_rule ref) ->
  exists out sr, getStaticRules rm key value = Some out /\ (sr, i) ∈ out /\ key ∈ getKeys sr.
Proof.
  intros Hm Hdistinct Hrules Hi Huniform Hvalid Hcan Hfmt Htr.
  pose proof (managed_inv _ _ _ _ Hm) as I.
  assert (wf_rule (ref_rule ref)) as Hwf.
  { rewrite Forall_forall in Hrules. apply Hrules. by eapply list_elem_of_lookup_2. }
  destruct (getStaticRules_total constraints false refs rm key value Hm Hrules) as [out Hout].
  destruct (trigger_made N _ key value p a Hwf Huniform Hvalid Hfmt Htr) as (sr & attr & Hmk & Hk).
  pose proof (makeStaticRule_made N _ _ _ _ _ Hwf Huniform Hmk) as Hmade.
  exists out, sr. split_and!; [done| |done].
  apply (getStaticRules_elem _ _ _ _ _ _ Hout). exists (ref_ptr ref), (ref_rule ref), attr.
  rewrite (inv_enhanced _ _ _ _ I). split_and!; [|done|by apply (made_satisfiable N _ _ _ _ _ Hmade)].
  apply (inv_bucket _ _ _ _ I). exists ref. split_and!; [done..| |].
  - apply Exists_exists. exists p. pose proof (triggers_pattern _ _ _ Htr) as Hp.
    split; [by apply elem_of_getPatterns|].
    apply (Count_formatted N p a key); [done| |done|done]. by apply (uniform_plain N _ p Huniform).
  - intros j ref' Hj Hl Hp _. assert (j = i); [|lia].
    apply (NoDup_lookup _ _ _ (ref_ptr ref) Hdistinct); rewrite list_lookup_fmap.
    + by rewrite Hl, <- Hp.
    + by rewrite Hi.
Qed.
End dispatching.

(** ** Adding the same rule twice *)
Fixpoint add_all `{Regexp} `{GoRange} (rm : ruleManager) (refs : list ruleRef) : option ruleManager :=
  match refs with
  | [] => Some rm
  | ref :: refs' => '(rm', _) ← addRule rm ref; add_all rm' refs'
  end.

(** The indices [getStaticRules] reports after adding rules. *)
Definition dispatched `{Regexp} `{GoRange} (refs : list ruleRef) (key : string) (value : option string) :
    option (list nat) :=
  rm ← add_all (newRuleManager ∅ false) refs;
  out ← getStaticRules rm key value;
  Some (fmap (M:=list) snd out).

Definition rule_or_default `{Regexp} (r : result DynamicRule) : DynamicRule :=
  match r with inl _ => andDynamicRule [] [] [] | inr r => r end.

(** Adding one rule object twice, with two callbacks, loses the first: the
    buckets are keyed by the rule, so the second index overwrites the first
    and only the second callback is dispatched; two objects made from the same
    pattern are both dispatched. *)
Theorem same_rule_twice :
  let _ := segment_regexp in
  let _ := canonical_range in
  let rule := rule_or_default (NewEqualsRule ["/a/:x"]) in
  dispatched [mkRuleRef _ 7 rule; mkRuleRef _ 7 rule] "/a/1" (Some "v") = Some [1] /\
  dispatched [mkRuleRef _ 7 rule; mkRuleRef _ 8 rule] "/a/1" (Some "v") = Some [1; 0].
Proof. split; vm_compute; reflexivity. Qed.
