(* ===== verification/Lock.v ===== *)
(** * Rule locks (rules/lock/) *)
(** The lockers a worker takes before it runs a callback: the in-memory map,
    the cool-off locker, the etcd locker, and the wrappers that nest two
    lockers or count their outcomes.  The interface [RuleLocker] is a class
    over the state of a locker, whose methods pass the state explicitly: they
    are calls that run to their end without interruption.  That is how the map
    locker and the cool-off locker work, whose methods run under a mutex; the
    calls of the other lockers consist of several steps, and LockCalls.v models
    them step by step and interleaved. *)
From S2P Require Import Prelude GoString.

(** ** Options (options.go) *)
Record options := mkOptions {
  opt_pattern : string;
  opt_method : string
}.

Definition Option : Type := options -> options.

Definition unknown : string := "unknown".

Definition buildOptions (opts : list Option) : options :=
  fold_left (fun os opt => opt os) opts (mkOptions unknown unknown).

Definition PatternForLock (pattern : string) : Option := fun lo => mkOptions pattern (opt_method lo).

Definition MethodForLock (method : string) : Option := fun lo => mkOptions (opt_pattern lo) method.

(** ** The interface (lock.go) *)
(** [S] is the state of the locker and [L] the type of its locks.  The first
    argument is the reading of the clock during the call.  [Unlock] returns
    the error, if any. *)
Class RuleLocker (S L : Type) := {
  Lock : Z -> S -> string -> list Option -> S * result L;
  Unlock : Z -> S -> L -> list Option -> S * option string
}.

(** What a locker that provides mutual exclusion promises: [busy s k] are the
    keys it refuses to lock, at least those that are held.  A successful [Lock]
    makes the key busy, and neither a failed [Lock] nor the release of another
    key makes a busy key free. *)
Class ExclusiveLocker (S L : Type) {RL : RuleLocker S L} := {
  lock_key : L -> string;
  busy : S -> string -> bool;
  Lock_ok : forall now s k o s' l, Lock now s k o = (s', inr l) ->
    lock_key l = k /\ busy s k = false /\ busy s' k = true /\
    forall k', busy s k' = true -> busy s' k' = true;
  Lock_err : forall now s k o s' e, Lock now s k o = (s', inl e) ->
    forall k', busy s k' = true -> busy s' k' = true;
  Unlock_other : forall now s l o s' e, Unlock now s l o = (s', e) ->
    forall k', k' <> lock_key l -> busy s k' = true -> busy s' k' = true
}.

(** ** The map locker (map_locker.go) *)
Record mapLocker := mkMapLocker { ml_m : gmap string bool }.

Definition newMapLocker : mapLocker := mkMapLocker ∅.

(** A missing key reads as [false]. *)
Definition toggle (ml : mapLocker) (key : string) (lock : bool) : mapLocker * bool :=
  if default false (ml_m ml !! key) then
    (if negb lock then mkMapLocker (delete key (ml_m ml)) else ml, negb lock)
  else (if lock then mkMapLocker (<[key := true]> (ml_m ml)) else ml, true).

Definition ErrLockedLocally : string := "locked locally".

Record toggleLock := mkToggleLock { tl_key : string }.

(** The methods of [toggleLockerAdapter] and [toggleLock], for the function
    [toggle] they are given. *)
Section toggleLockerAdapter.
Context {S : Type}.
Variable toggle : S -> string -> bool -> S * bool.
Variable errLocked : string.

Definition tla_Lock (s : S) (key : string) : S * result toggleLock :=
  let '(s', ok) := toggle s key true in
  if ok then (s', inr (mkToggleLock key)) else (s', inl errLocked).

Definition tl_Unlock (s : S) (tl : toggleLock) : S * option string :=
  let '(s', _) := toggle s (tl_key tl) false in (s', None).
End toggleLockerAdapter.

#[export] Instance NewMapLocker : RuleLocker mapLocker toggleLock := {|
  Lock := fun _ s key _ => tla_Lock toggle ErrLockedLocally s key;
  Unlock := fun _ s tl _ => tl_Unlock toggle s tl
|}.

(** ** The cool-off locker (cooloff_lock.go) *)
(** The text of a [time.Duration] in the error message. *)
Class DurationFmt := { duration_string : Z -> string }.

Record coolOffLocker := mkCoolOffLocker {
  locks : gmap string Z;
  coolOffDuration : Z
}.

Record coolOffLock := mkCoolOffLock {}.

Definition NewCoolOffLocker (expiration : Z) : coolOffLocker := mkCoolOffLocker ∅ expiration.

Section coolOff.
Context `{GoRange} `{DurationFmt}.

Definition toDelete (now : Z) (locks : gmap string Z) : list string :=
  fold_left (fun l '(k, v) => if (v <? now)%Z then l ++ [k] else l) (range locks) [].

Definition col_Lock (now : Z) (col : coolOffLocker) (key : string) : coolOffLocker * result coolOffLock :=
  let locks1 := fold_left (fun m k => delete k m) (toDelete now (locks col)) (locks col) in
  let err := match locks1 !! key with
             | Some _ => Some ("cooloff expires in " +:+ duration_string (coolOffDuration col))
             | None => None
             end in
  let col' := mkCoolOffLocker (<[key := (now + coolOffDuration col)%Z]> locks1) (coolOffDuration col) in
  match err with
  | Some e => (col', inl e)
  | None => (col', inr (mkCoolOffLock))
  end.

#[export] Instance coolOff_RuleLocker : RuleLocker coolOffLocker coolOffLock := {|
  Lock := fun now s key _ => col_Lock now s key;
  Unlock := fun _ s _ _ => (s, None)
|}.
End coolOff.

(** ** The nested locker (nested_lock.go) *)
(** The calls when nothing happens between their steps. *)
Record nestedLocker (S1 S2 : Type) := mkNestedLocker { nl_own : S1; nl_nested : S2 }.
Record nestedLock (L1 L2 : Type) := mkNestedLock { lock_own : L1; lock_nested : L2 }.
Arguments mkNestedLocker {S1 S2}.
Arguments nl_own {S1 S2}.
Arguments nl_nested {S1 S2}.
Arguments mkNestedLock {L1 L2}.
Arguments lock_own {L1 L2}.
Arguments lock_nested {L1 L2}.

Section nested.
Context {S1 L1 S2 L2 : Type} `{RuleLocker S1 L1} `{RuleLocker S2 L2}.

(** A call from its start to its end, with nobody else at the lockers meanwhile.
    [nl_lock_next] and [nl_unlock_next] in LockCalls.v are the steps of the calls,
    between which others act, and [nestedLocker_runs] there shows that undisturbed
    steps add up to these two functions. *)
Definition nl_Lock (now : Z) (nl : nestedLocker S1 S2) (key : string) (options : list Option) :
    nestedLocker S1 S2 * result (nestedLock L1 L2) :=
  let '(s1, r1) := Lock now (nl_own nl) key options in
  match r1 with
  | inl err => (mkNestedLocker s1 (nl_nested nl), inl err)
  | inr lock =>
    let '(s2, r2) := Lock now (nl_nested nl) key options in
    match r2 with
    | inl err =>
      let '(s1', _) := Unlock now s1 lock [] in
      (mkNestedLocker s1' s2, inl err)
    | inr nested => (mkNestedLocker s1 s2, inr (mkNestedLock lock nested))
    end
  end.

Definition nl_Unlock (now : Z) (nl : nestedLocker S1 S2) (l : nestedLock L1 L2) :
    nestedLocker S1 S2 * option string :=
  let '(s2, err) := Unlock now (nl_nested nl) (lock_nested l) [] in
  let '(s1, ownError) := Unlock now (nl_own nl) (lock_own l) [] in
  (mkNestedLocker s1 s2, match err with None => ownError | Some _ => err end).

#[export] Instance NewNestedLocker : RuleLocker (nestedLocker S1 S2) (nestedLock L1 L2) := {|
  Lock := nl_Lock;
  Unlock := fun now s l _ => nl_Unlock now s l
|}.
End nested.

(** ** The metrics wrapper (metrics.go) *)
Record lockObservation := mkLockObservation {
  ob_locker : string;
  ob_method : string;
  ob_pattern : string;
  ob_succeeded : bool
}.

(** The counters the observers increment are part of the state. *)
Record metricLocker (S : Type) := mkMetricLocker {
  mt_locker : S;
  lockerName : string;
  lockObservations : list lockObservation;
  unlockErrors : list (string * string * string)
}.
Arguments mkMetricLocker {S}.
Arguments mt_locker {S}.
Arguments lockerName {S}.
Arguments lockObservations {S}.
Arguments unlockErrors {S}.

Section metrics.
Context {S L : Type} `{RuleLocker S L}.

Definition mt_Lock (now : Z) (ml : metricLocker S) (key : string) (options : list Option) :
    metricLocker S * result L :=
  let opts := buildOptions options in
  let '(s, r) := Lock now (mt_locker ml) key options in
  let ok := match r with inl _ => false | inr _ => true end in
  (mkMetricLocker s (lockerName ml)
     (lockObservations ml ++ [mkLockObservation (lockerName ml) (opt_method opts) (opt_pattern opts) ok])
     (unlockErrors ml), r).

(** The method [metricLocker.Unlock], on the embedded [RuleLock]; the embedded
    interface of a value made by [withMetrics] is nil, and calling it panics. *)
Definition mt_Unlock (now : Z) (ml : metricLocker S) (embedded : option L) (options : list Option) :
    option (metricLocker S * option string) :=
  l ← embedded;
  let '(s, err) := Unlock now (mt_locker ml) l options in
  let ml' := mkMetricLocker s (lockerName ml) (lockObservations ml) (unlockErrors ml) in
  match err with
  | None => Some (ml', None)
  | Some e =>
    let opts := buildOptions options in
    Some (mkMetricLocker s (lockerName ml) (lockObservations ml)
            (unlockErrors ml ++ [(lockerName ml, opt_method opts, opt_pattern opts)]), Some e)
  end.

(** [Lock] assigns the embedded [RuleLock] of its own copy of the receiver and
    returns the inner lock, so unlocking runs the inner [Unlock]. *)
#[export] Instance WithMetrics : RuleLocker (metricLocker S) L := {|
  Lock := mt_Lock;
  Unlock := fun now ml l options =>
    let '(s, err) := Unlock now (mt_locker ml) l options in
    (mkMetricLocker s (lockerName ml) (lockObservations ml) (unlockErrors ml), err)
|}.
End metrics.

(** ** The etcd locker (lock.go) *)
(** The client packages of etcd: sessions and mutexes, over the state [E] of
    etcd and of this process's sessions.  Every operation returns the error,
    if any; the first argument of the lock operations is the timeout. *)
Class EtcdConcurrency (E : Type) := {
  session : Type;
  mutex : Type;
  NewMutex : session -> string -> mutex;
  mutex_TryLock : Z -> E -> mutex -> E * option string;
  mutex_Lock : Z -> E -> mutex -> E * option string;
  mutex_Unlock : E -> mutex -> E * option string;
  session_Close : E -> session -> E * option string
}.

Section v3Locker.
Context {E : Type} `{EtcdConcurrency E}.

Record v3Locker := mkV3Locker {
  lockTimeout : Z;
  newSession : E -> E * result session;
  closeSession : bool;
  useTryLock : bool;
  v3_etcd : E
}.

Record v3Lock := mkV3Lock {
  v3_mutex : option mutex;
  v3_session : option session
}.

Definition NewSessionLocker (getSession : E -> E * result session) (lockTimeout : Z)
    (closeSession useTryLock : bool) (e : E) : v3Locker :=
  mkV3Locker lockTimeout getSession closeSession useTryLock e.

Definition with_etcd (v3l : v3Locker) (e : E) : v3Locker :=
  mkV3Locker (lockTimeout v3l) (newSession v3l) (closeSession v3l) (useTryLock v3l) e.

Definition lockWithTimeout (v3l : v3Locker) (key : string) (timeout : Z) : v3Locker * result v3Lock :=
  let '(e1, r) := newSession v3l (v3_etcd v3l) in
  match r with
  | inl err => (with_etcd v3l e1, inl err)
  | inr s =>
    let m := NewMutex s key in
    let '(e2, err) := if useTryLock v3l then mutex_TryLock timeout e1 m else mutex_Lock timeout e1 m in
    match err with
    | Some err => (with_etcd v3l e2, inl err)
    | None =>
      (with_etcd v3l e2, inr (mkV3Lock (Some m) (if closeSession v3l then Some s else None)))
    end
  end.

Definition unlockMaxRetries : nat := 5.

(** The retry loop: [err] is the variable of the source. *)
Fixpoint unlock_loop (n : nat) (e : E) (m : mutex) (err : option string) : E * option string :=
  match n with
  | 0 => (e, err)
  | S n' =>
    let '(e', err') := mutex_Unlock e m in
    match err' with
    | Some _ => unlock_loop n' e' m err'
    | None => (e', None)
    end
  end.

(** The text of [errors.Join(errors.New(a), err)]. *)
Definition joined (a err : string) : string := a +:+ String "010"%char err.

Definition ErrNilMutex : string := "mutex is nil".

Definition v3_Unlock (v3l : v3Locker) (l : v3Lock) : v3Locker * option string :=
  match v3_mutex l with
  | None => (v3l, Some ErrNilMutex)
  | Some m =>
    let '(e1, err) := unlock_loop unlockMaxRetries (v3_etcd v3l) m None in
    let err1 := match err with Some e => Some (joined "Unlock:" e) | None => None end in
    match v3_session l with
    | None => (with_etcd v3l e1, err1)
    | Some s =>
      let '(e2, serr) := session_Close e1 s in
      let serr' := match serr with
                   | Some t => if Contains t "lease not found" then None else serr
                   | None => None
                   end in
      let err2 := match err1, serr' with
                  | None, Some t => Some (joined "Close:" t)
                  | _, _ => err1
                  end in
      (with_etcd v3l e2, err2)
    end
  end.

#[export] Instance v3_RuleLocker : RuleLocker v3Locker v3Lock := {|
  Lock := fun _ v3l key _ => lockWithTimeout v3l key (lockTimeout v3l);
  Unlock := fun _ v3l l _ => v3_Unlock v3l l
|}.
End v3Locker.
Arguments v3Locker E {_}.
Arguments v3Lock E {_}.

(** ** Mutual exclusion *)
(** *** The map locker *)
Lemma toggle_lock ml key :
  toggle ml key true =
  if default false (ml_m ml !! key) then (ml, false) else (mkMapLocker (<[key := true]> (ml_m ml)), true).
Proof. done. Qed.

Lemma toggle_unlock ml key :
  default false (ml_m (fst (toggle ml key false)) !! key) = false /\
  forall k, k <> key -> ml_m (fst (toggle ml key false)) !! k = ml_m ml !! k.
Proof.
  unfold toggle. destruct (default false (ml_m ml !! key)) eqn:E; simpl; [|done].
  rewrite lookup_delete_eq. split; [done|]. intros k Hk. by rewrite lookup_delete_ne.
Qed.

#[export] Program Instance mapLocker_exclusive : ExclusiveLocker mapLocker toggleLock := {|
  lock_key := tl_key;
  busy := fun ml k => default false (ml_m ml !! k)
|}.
Next Obligation.
  intros now s k o s' l. simpl. unfold tla_Lock. rewrite toggle_lock.
  destruct (default false (ml_m s !! k)) eqn:E; [done|]. intros [= <- <-]. simpl.
  rewrite lookup_insert_eq. split_and!; [done..|]. intros k' Hk'.
  destruct (decide (k = k')) as [->|Hne]; [by rewrite lookup_insert_eq | by rewrite lookup_insert_ne].
Qed.
Next Obligation.
  intros now s k o s' e. simpl. unfold tla_Lock. rewrite toggle_lock.
  destruct (default false (ml_m s !! k)); [|done]. by intros [= <- _].
Qed.
Next Obligation.
  intros now s [key] o s' e. simpl. unfold tl_Unlock. simpl.
  pose proof (toggle_unlock s key) as [_ Hother].
  destruct (toggle s key false) as [s1 b]. intros [= <- <-] k' Hk. simpl in *. by rewrite Hother.
Qed.

(** *** Wrappers keep mutual exclusion *)
#[export] Program Instance metricLocker_exclusive {S L} `{ExclusiveLocker S L} :
    ExclusiveLocker (metricLocker S) L := {|
  lock_key := lock_key;
  busy := fun ml => busy (mt_locker ml)
|}.
Next Obligation.
  intros S L ? ? now s k o s' l. simpl. unfold mt_Lock.
  destruct (Lock now (mt_locker s) k o) as [s1 r] eqn:E. intros [= <- ->]. by eapply Lock_ok.
Qed.
Next Obligation.
  intros S L ? ? now s k o s' e. simpl. unfold mt_Lock.
  destruct (Lock now (mt_locker s) k o) as [s1 r] eqn:E. intros [= <- ->]. by eapply Lock_err.
Qed.
Next Obligation.
  intros S L ? ? now s l o s' e. simpl.
  destruct (Unlock now (mt_locker s) l o) as [s1 err] eqn:E. intros [= <- ->]. by eapply Unlock_other.
Qed.

Section nested_exclusive.
Context {S1 L1 S2 L2 : Type} {RL1 : RuleLocker S1 L1} {RL2 : RuleLocker S2 L2}.

(** It is enough that the outer locker excludes... *)
#[export] Program Instance nested_own_exclusive `{!ExclusiveLocker S1 L1} :
    ExclusiveLocker (nestedLocker S1 S2) (nestedLock L1 L2) := {|
  lock_key := fun l => lock_key (lock_own l);
  busy := fun nl => busy (nl_own nl)
|}.
Next Obligation.
  intros ? now s k o s' l. simpl. unfold nl_Lock.
  destruct (Lock now (nl_own s) k o) as [s1 [e1|l1]] eqn:E1; [done|].
  destruct (Lock now (nl_nested s) k o) as [s2 [e2|l2]]; [by destruct (Unlock now s1 l1 [])|].
  intros [= <- <-]. by eapply Lock_ok.
Qed.
Next Obligation.
  intros ? now s k o s' e. simpl. unfold nl_Lock.
  destruct (Lock now (nl_own s) k o) as [s1 [e1|l1]] eqn:E1.
  { intros [= <- <-]. by eapply Lock_err. }
  destruct (Lock now (nl_nested s) k o) as [s2 [e2|l2]]; [|done].
  destruct (Unlock now s1 l1 []) as [s1' e1] eqn:E2. intros [= <- <-] k' Hk'. simpl.
  destruct (Lock_ok _ _ _ _ _ _ E1) as (Hkey & Hfree & _ & Hmono).
  eapply Unlock_other; [exact E2 | | by apply Hmono]. intros ->. congruence.
Qed.
Next Obligation.
  intros ? now s l o s' e. simpl. unfold nl_Unlock.
  destruct (Unlock now (nl_nested s) (lock_nested l) []) as [s2 e2].
  destruct (Unlock now (nl_own s) (lock_own l) []) as [s1 e1] eqn:E1.
  intros [= <- <-]. by eapply Unlock_other.
Qed.

(** ... or that the inner one does. *)
#[export] Program Instance nested_inner_exclusive `{!ExclusiveLocker S2 L2} :
    ExclusiveLocker (nestedLocker S1 S2) (nestedLock L1 L2) := {|
  lock_key := fun l => lock_key (lock_nested l);
  busy := fun nl => busy (nl_nested nl)
|}.
Next Obligation.
  intros ? now s k o s' l. simpl. unfold nl_Lock.
  destruct (Lock now (nl_own s) k o) as [s1 [e1|l1]]; [done|].
  destruct (Lock now (nl_nested s) k o) as [s2 [e2|l2]] eqn:E2; [by destruct (Unlock now s1 l1 [])|].
  intros [= <- <-]. by eapply Lock_ok.
Qed.
Next Obligation.
  intros ? now s k o s' e. simpl. unfold nl_Lock.
  destruct (Lock now (nl_own s) k o) as [s1 [e1|l1]]; [by intros [= <- <-]|].
  destruct (Lock now (nl_nested s) k o) as [s2 [e2|l2]] eqn:E2; [|done].
  destruct (Unlock now s1 l1 []) as [s1' e1]. intros [= <- <-]. by eapply Lock_err.
Qed.
Next Obligation.
  intros ? now s l o s' e. simpl. unfold nl_Unlock.
  destruct (Unlock now (nl_nested s) (lock_nested l) []) as [s2 e2] eqn:E2.
  destruct (Unlock now (nl_own s) (lock_own l) []) as [s1 e1].
  intros [= <- <-]. by eapply Unlock_other.
Qed.
End nested_exclusive.

(** *** Clients *)
(** Calls by any number of clients, one after the other: the state of the locker
    and the locks held. *)
Section clients.
Context {S L : Type} {RL : RuleLocker S L}.

Inductive lock_step : S * list (string * L) -> S * list (string * L) -> Prop :=
| step_lock now s k o s' l held :
    Lock now s k o = (s', inr l) -> lock_step (s, held) (s', (k, l) :: held)
| step_refused now s k o s' e held :
    Lock now s k o = (s', inl e) -> lock_step (s, held) (s', held)
| step_unlock now s k l o s' e held1 held2 :
    Unlock now s l o = (s', e) -> lock_step (s, held1 ++ (k, l) :: held2) (s', held1 ++ held2).
End clients.

(** The lockers [newV3Engine] builds when lock sessions are shared: by default
    the in-memory map around the etcd locker, and the cool-off locker around
    both when a cool-off is configured. *)
Definition sharedLocker (E : Type) `{EtcdConcurrency E} : Type :=
  nestedLocker (metricLocker mapLocker) (metricLocker (v3Locker E)).
Definition sharedLock (E : Type) `{EtcdConcurrency E} : Type := nestedLock toggleLock (v3Lock E).
Definition coolOffSharedLocker (E : Type) `{EtcdConcurrency E} : Type :=
  nestedLocker (metricLocker coolOffLocker) (sharedLocker E).
Definition coolOffSharedLock (E : Type) `{EtcdConcurrency E} : Type :=
  nestedLock coolOffLock (sharedLock E).

Section engine_lockers.
Context {E : Type} `{EtcdConcurrency E} `{GoRange} `{DurationFmt}.

#[export] Instance sharedLocker_RuleLocker : RuleLocker (sharedLocker E) (sharedLock E) :=
  NewNestedLocker.
#[export] Instance coolOffSharedLocker_RuleLocker :
    RuleLocker (coolOffSharedLocker E) (coolOffSharedLock E) := NewNestedLocker.

#[export] Instance sharedLocker_exclusive : ExclusiveLocker (sharedLocker E) (sharedLock E) :=
  nested_own_exclusive.
#[export] Instance coolOffSharedLocker_exclusive :
    ExclusiveLocker (coolOffSharedLocker E) (coolOffSharedLock E) := nested_inner_exclusive.

(** *** No lock is lost *)
Lemma map_lock_inv now (ml : metricLocker mapLocker) k o s r :
  Lock now ml k o = (s, r) ->
  match r with
  | inl _ => busy ml k = true /\ mt_locker s = mt_locker ml
  | inr l => tl_key l = k /\ busy ml k = false /\
             mt_locker s = mkMapLocker (<[k := true]> (ml_m (mt_locker ml)))
  end.
Proof.
  simpl. unfold mt_Lock. simpl. unfold tla_Lock. rewrite toggle_lock.
  destruct (default false (ml_m (mt_locker ml) !! k)) eqn:Eb; intros [= <- <-]; done.
Qed.

Lemma map_unlock_inv now (ml : metricLocker mapLocker) l o s e :
  Unlock now ml l o = (s, e) -> e = None /\
  forall k, busy s k = (if decide (k = tl_key l) then false else busy ml k).
Proof.
  simpl. unfold tl_Unlock. destruct (toggle_unlock (mt_locker ml) (tl_key l)) as [Hk Ho].
  destruct (toggle (mt_locker ml) (tl_key l) false) as [s1 b] eqn:Et. intros [= <- <-].
  split; [done|]. intros k. simpl in *. case_decide as Hd; [by subst|]. by rewrite Ho.
Qed.

(** C27: The default locker never loses a key: a refused [Lock] leaves exactly
    the same keys locked in memory, also when the etcd lock is refused after
    the in-memory one was obtained, and [Unlock] frees exactly its key, also
    when releasing the etcd lock fails. *)
Theorem nested_lock_balanced (now : Z) (s s' : sharedLocker E) (k : string) (o : list Option) :
  (forall e, Lock now s k o = (s', inl e) -> forall k', busy s' k' = busy s k') /\
  (forall l e, Unlock now s l o = (s', e) ->
     forall k', busy s' k' = (if decide (k' = lock_key l) then false else busy s k')).
Proof.
  split.
  - intros e. change (Lock now s k o) with (nl_Lock now s k o). unfold nl_Lock.
    destruct (Lock now (nl_own s) k o) as [s1 r1] eqn:E1. apply map_lock_inv in E1.
    destruct r1 as [e1|l1].
    { intros [= <- <-] k'. simpl. by destruct E1 as [_ ->]. }
    destruct E1 as (Hl & Hb & Hs1). destruct (Lock now (nl_nested s) k o) as [s2 [e2|l2]]; [|done].
    destruct (Unlock now s1 l1 []) as [s1' e1] eqn:E2.
    apply map_unlock_inv in E2 as [_ Hu]. intros [= <- <-] k'.
    change (busy s1' k' = busy (nl_own s) k'). rewrite Hu, Hl. case_decide as Hd; [by subst|].
    simpl. rewrite Hs1. simpl. by rewrite lookup_insert_ne.
  - intros l e. change (Unlock now s l o) with (nl_Unlock now s l). unfold nl_Unlock.
    destruct (Unlock now (nl_nested s) (lock_nested l) []) as [s2 e2].
    destruct (Unlock now (nl_own s) (lock_own l) []) as [s1 e1] eqn:E1.
    apply map_unlock_inv in E1 as [_ Hu]. intros [= <- <-] k'. apply Hu.
Qed.

(** ** The metrics wrapper never counts an unlock error *)
(** However the locks obtained from a [metricLocker] are locked and
    unlocked, and whatever errors their [Unlock] returns, the count of unlock
    errors stays as it is; only [metricLocker.Unlock], which no lock refers to,
    counts them. *)
Theorem unlock_errors_not_counted {S L} `{RuleLocker S L} (ml ml' : metricLocker S) (held : list (string * L))
    (Hsteps : rtc lock_step (ml, []) (ml', held)) :
  unlockErrors ml' = unlockErrors ml.
Proof.
  assert (forall c c' : metricLocker S * list (string * L), rtc lock_step c c' ->
            unlockErrors c'.1 = unlockErrors c.1) as Hall; [|exact (Hall _ _ Hsteps)].
  clear. induction 1 as [|c c1 c' Hs _ IH]; [done|]. rewrite IH. clear IH.
  destruct Hs as [now s k o s' l held E1|now s k o s' e held E1|now s k l o s' e h1 h2 E1]; simpl in *.
  - unfold mt_Lock in E1. destruct (Lock now (mt_locker s) k o) as [s1 r1]. by injection E1 as <- _.
  - unfold mt_Lock in E1. destruct (Lock now (mt_locker s) k o) as [s1 r1]. by injection E1 as <- _.
  - destruct (Unlock now (mt_locker s) l o) as [s1 r1]. by injection E1 as <- _.
Qed.
End engine_lockers.

(** ** The cool-off window *)
Section cooloff_window.
Context `{GoRange} `{DurationFmt}.

Definition attempt (col : coolOffLocker) (a : Z * string) : coolOffLocker := fst (col_Lock a.1 col a.2).

Lemma elem_of_toDelete now m k : k ∈ toDelete now m <-> exists v, m !! k = Some v /\ (v < now)%Z.
Proof.
  unfold toDelete.
  assert (forall l acc, k ∈ fold_left (fun l '(k, v) => if (v <? now)%Z then l ++ [k] else l) l acc <->
            k ∈ acc \/ exists v, (k, v) ∈ l /\ (v < now)%Z) as Hfold.
  { induction l as [|[k' v'] l IH]; intros acc; simpl; [set_solver|]. rewrite IH.
    destruct (Z.ltb_spec v' now) as [Hlt|Hge].
    - rewrite elem_of_app, list_elem_of_singleton. split.
      + intros [[? | -> ]|(v & ? & ?)]; [by left|right; exists v'|right; exists v]; set_solver.
      + intros [?|(v & [[= <- <-]|?]%elem_of_cons & ?)]; eauto.
    - split.
      + intros [?|(v & ? & ?)]; [by left|right; exists v; set_solver].
      + intros [?|(v & [[= <- <-]|?]%elem_of_cons & ?)]; eauto. lia. }
  rewrite Hfold. setoid_rewrite range_perm. setoid_rewrite elem_of_map_to_list. set_solver.
Qed.

Lemma delete_keys_lookup (ks : list string) (m : gmap string Z) k :
  fold_left (fun m k => delete k m) ks m !! k = if decide (k ∈ ks) then None else m !! k.
Proof.
  revert m. induction ks as [|k' ks IH]; intros m; cbn [fold_left].
  { by rewrite decide_False by set_solver. }
  rewrite IH. destruct (decide (k ∈ ks)) as [Hin|Hnin]; [by rewrite decide_True by set_solver|].
  destruct (decide (k = k')) as [->|Hne].
  - rewrite decide_True by set_solver. by rewrite lookup_delete_eq.
  - rewrite decide_False by set_solver. by rewrite lookup_delete_ne.
Qed.

(** The map after the expired keys are removed. *)
Lemma unexpired_lookup now m k v :
  fold_left (fun m k => delete k m) (toDelete now m) m !! k = Some v <-> m !! k = Some v /\ (now <= v)%Z.
Proof.
  rewrite delete_keys_lookup. case_decide as Hd; rewrite elem_of_toDelete in Hd.
  - destruct Hd as (v' & Hv' & Hlt). split; [done|]. intros [Hv Hle]. simplify_eq. lia.
  - split; [|by intros [? _]]. intros Hv. split; [done|].
    destruct (Z.le_gt_cases now v); [done|]. destruct Hd. eauto.
Qed.

Record window_inv (d T : Z) (h : list (Z * string)) (col : coolOffLocker) : Prop := {
  win_d : coolOffDuration col = d;
  win_past : forall t k, (t, k) ∈ h -> (t <= T)%Z;
  win_sound : forall k v, locks col !! k = Some v -> exists t, (t, k) ∈ h /\ v = (t + d)%Z;
  win_complete : forall t k, (t, k) ∈ h ->
    (exists v, locks col !! k = Some v /\ (t + d <= v)%Z) \/ (t + d < T)%Z
}.

Lemma window_step d T h col now k :
  window_inv d T h col -> (T <= now)%Z ->
  window_inv d now (h ++ [(now, k)]) (attempt col (now, k)) /\
  (is_Some (locks (attempt col (now, k)) !! k)) /\
  ((exists l, snd (col_Lock now col k) = inr l) <-> forall t, (t, k) ∈ h -> (t + d < now)%Z).
Proof.
  intros [Hd Hpast Hsound Hcomp] HT. unfold attempt, col_Lock. simpl.
  set (locks1 := fold_left _ (toDelete now (locks col)) (locks col)).
  assert (forall k v, locks1 !! k = Some v <-> locks col !! k = Some v /\ (now <= v)%Z) as Hl1
    by (intros; apply unexpired_lookup). clearbody locks1.
  assert (locks1 !! k = None <-> forall t, (t, k) ∈ h -> (t + d < now)%Z) as Hfree.
  { rewrite eq_None_not_Some. split.
    - intros Hn t Ht. destruct (Hcomp t k Ht) as [(v & Hv & Hle)|Hlt]; [|lia].
      destruct (Z.le_gt_cases now v); [|lia]. destruct Hn. exists v. by apply Hl1.
    - intros Hall [v [Hv Hle]%Hl1]. destruct (Hsound k v Hv) as (t & Ht & ->). specialize (Hall t Ht). lia. }
  split_and!.
  - assert (window_inv d now (h ++ [(now, k)])
              (mkCoolOffLocker (<[k := (now + coolOffDuration col)%Z]> locks1) (coolOffDuration col)))
      as Hinv; [|by destruct (locks1 !! k)].
    split; simpl; [done| | |].
    + intros t k' [Hin|Hin]%elem_of_app; [specialize (Hpast t k' Hin); lia|].
      apply list_elem_of_singleton in Hin as [= -> ->]. lia.
    + intros k' v. rewrite lookup_insert_Some. intros [[<- <-]|[Hne [Hv Hle]%Hl1]].
      * exists now. rewrite Hd. set_solver.
      * destruct (Hsound k' v Hv) as (t & Ht & ->). exists t. set_solver.
    + intros t k' Hin. destruct (decide (k = k')) as [<-|Hne].
      * left. rewrite lookup_insert_eq, Hd. eexists. split; [done|].
        apply elem_of_app in Hin as [Hin|Hin]; [specialize (Hpast t k Hin); lia|].
        apply list_elem_of_singleton in Hin as [= ->]. lia.
      * rewrite lookup_insert_ne by done. assert ((t, k') ∈ h) as Hin' by set_solver.
        destruct (Hcomp t k' Hin') as [(v & Hv & Hle)|Hlt]; [|right; lia].
        destruct (Z.le_gt_cases now v); [left; exists v; split; [by apply Hl1 | done] | right; lia].
  - destruct (locks1 !! k); simpl; rewrite lookup_insert_eq; eauto.
  - rewrite <- Hfree. destruct (locks1 !! k); simpl; split; try done; [by intros [l [=]]|].
    intros _. by eexists.
Qed.

Definition in_order (h : list (Z * string)) : Prop := StronglySorted (fun a b => (a.1 <= b.1)%Z) h.

Lemma in_order_last h now k t k' : in_order (h ++ [(now, k)]) -> (t, k') ∈ h -> (t <= now)%Z.
Proof.
  intros Hs Hin.
  apply (StronglySorted_app_1_elem_of (fun a b : Z * string => (a.1 <= b.1)%Z) h [(now, k)] (t, k') (now, k));
    [done..|set_solver].
Qed.

Lemma window_attempts d (h : list (Z * string)) T :
  in_order h -> (forall t k, (t, k) ∈ h -> (t <= T)%Z) ->
  window_inv d T h (fold_left attempt h (NewCoolOffLocker d)).
Proof.
  revert T. induction h as [|[now k] h IH] using rev_ind; intros T Hs HT.
  { split; simpl; try done; intros *; rewrite ?lookup_empty; set_solver. }
  assert (forall t k', (t, k') ∈ h -> (t <= now)%Z) as Hnow.
  { intros t k'. by apply (in_order_last h now k). }
  rewrite fold_left_app. simpl.
  destruct (window_step d now h _ now k (IH now (StronglySorted_app_1_l _ _ _ Hs) Hnow) ltac:(lia))
    as ([Hd Hpast Hsnd Hc] & _ & _). split; [done|done|done|].
  intros t k' Hin. destruct (Hc t k' Hin) as [?|Hlt]; [by left|right].
  specialize (HT now k ltac:(set_solver)). lia.
Qed.

(** C28: The cool-off locker grants a key exactly when every earlier attempt to
    lock it, successful or not, is more than the cool-off duration ago. *)
Theorem cooloff_window (d now : Z) (k : string) (h : list (Z * string))
    (Hin : in_order (h ++ [(now, k)])) :
  (exists l, snd (col_Lock now (fold_left attempt h (NewCoolOffLocker d)) k) = inr l) <->
  forall t, (t, k) ∈ h -> (t + d < now)%Z.
Proof.
  assert (forall t k', (t, k') ∈ h -> (t <= now)%Z) as Hnow.
  { intros t k'. by apply (in_order_last h now k). }
  apply (window_step d now h); [|lia]. apply window_attempts; [|done].
  by apply StronglySorted_app_1_l in Hin.
Qed.
End cooloff_window.

(** ** The etcd locker *)
Section v3_properties.
Context {E : Type} `{EtcdConcurrency E}.

(** The state after [n] attempts to unlock, and the result of the [i]-th. *)
Definition unlock_state (e : E) (m : mutex) (n : nat) : E :=
  Nat.iter n (fun e => fst (mutex_Unlock e m)) e.

Definition unlock_result (e : E) (m : mutex) (i : nat) : option string :=
  snd (mutex_Unlock (unlock_state e m i) m).

Lemma unlock_state_shift e m n :
  unlock_state (fst (mutex_Unlock e m)) m n = unlock_state e m (S n).
Proof. unfold unlock_state. induction n as [|n IH]; simpl in *; [done|]. by rewrite IH. Qed.

Lemma unlock_loop_spec k e m err :
  exists n, 1 <= n <= S k /\ (forall i, S i < n -> is_Some (unlock_result e m i)) /\
    (unlock_result e m (n - 1) = None \/ n = S k) /\
    unlock_loop (S k) e m err = (unlock_state e m n, unlock_result e m (n - 1)).
Proof.
  revert e err. induction k as [|k IH]; intros e err.
  { exists 1. split_and!; [lia | lia | intros; lia | by right|].
    unfold unlock_result, unlock_state. simpl. by destruct (mutex_Unlock e m) as [e' [t|]]. }
  cbn [unlock_loop]. destruct (mutex_Unlock e m) as [e' [t|]] eqn:Eu.
  - destruct (IH e' (Some t)) as (n & Hn & Hfail & Hlast & Heq).
    assert (forall i, unlock_result e' m i = unlock_result e m (S i)) as Hshift.
    { intros i. unfold unlock_result. by rewrite <- unlock_state_shift, Eu. }
    exists (S n). split_and!; [lia | lia | | |].
    + intros [|i] Hi; [by unfold unlock_result; simpl; rewrite Eu|].
      rewrite <- Hshift. apply Hfail. lia.
    + destruct Hlast as [Hlast| ->]; [left|by right]. rewrite Hshift in Hlast.
      by replace (S n - 1) with (S (n - 1)) by lia.
    + change (unlock_loop (S k) e' m (Some t) = (unlock_state e m (S n), unlock_result e m (S n - 1))).
      rewrite Heq, Hshift, <- unlock_state_shift, Eu. simpl.
      by replace (S (n - 1)) with (n - 0) by lia.
  - exists 1. split_and!; [lia | lia | intros; lia | |].
    + left. unfold unlock_result. simpl. by rewrite Eu.
    + unfold unlock_result, unlock_state. simpl. by rewrite Eu.
Qed.

(** C39: [v3Lock.Unlock] retries until an attempt succeeds, at most five times,
    and then closes the session it owns, also when every attempt failed; it
    reports no error only if an attempt succeeded. *)
Theorem v3_Unlock_retries (v3l : v3Locker E) (m : mutex) (sess : option session) :
  exists n, 1 <= n <= 5 /\
    (forall i, S i < n -> is_Some (unlock_result (v3_etcd v3l) m i)) /\
    (unlock_result (v3_etcd v3l) m (n - 1) = None \/ n = 5) /\
    v3_etcd (fst (v3_Unlock v3l (mkV3Lock (Some m) sess))) =
      match sess with
      | None => unlock_state (v3_etcd v3l) m n
      | Some s => fst (session_Close (unlock_state (v3_etcd v3l) m n) s)
      end /\
    (snd (v3_Unlock v3l (mkV3Lock (Some m) sess)) = None -> unlock_result (v3_etcd v3l) m (n - 1) = None).
Proof.
  destruct (unlock_loop_spec 4 (v3_etcd v3l) m None) as (n & Hn & Hfail & Hlast & Heq).
  exists n. split_and!; [lia | lia | done | done | |]; unfold v3_Unlock; simpl v3_mutex; cbv beta iota;
    unfold unlockMaxRetries; rewrite Heq; destruct sess as [s|]; simpl; try done.
  - by destruct (session_Close (unlock_state (v3_etcd v3l) m n) s).
  - destruct (session_Close (unlock_state (v3_etcd v3l) m n) s) as [e2 serr]. simpl.
    by destruct (unlock_result (v3_etcd v3l) m (n - 1)).
  - by destruct (unlock_result (v3_etcd v3l) m (n - 1)).
Qed.

(** Counting the sessions the process has open: a new session adds one, and
    the mutex operations open and close none. *)
Record session_count (newSession : E -> E * result session) (live : E -> nat) : Prop := {
  count_new : forall e e' s, newSession e = (e', inr s) -> live e' = S (live e);
  count_TryLock : forall t e m, live (fst (mutex_TryLock t e m)) = live e;
  count_Lock : forall t e m, live (fst (mutex_Lock t e m)) = live e
}.

(** A locker with its own sessions leaks one with every lock it is
    refused: after a failed [Lock] whose session was opened, one more session
    is open although no lock that could close it was returned. *)
Theorem refused_lock_leaks_session (v3l v3l' : v3Locker E) (live : E -> nat) (now : Z) (key : string)
    (o : list Option) (err : string) (e1 : E) (s : session)
    (Hcount : session_count (newSession v3l) live)
    (Hnew : newSession v3l (v3_etcd v3l) = (e1, inr s))
    (Hlock : Lock now v3l key o = (v3l', inl err)) :
  live (v3_etcd v3l') = S (live (v3_etcd v3l)).
Proof.
  simpl in Hlock. unfold lockWithTimeout in Hlock. rewrite Hnew in Hlock.
  rewrite <- (count_new _ _ Hcount _ _ _ Hnew).
  pose proof (count_TryLock _ _ Hcount (lockTimeout v3l) e1 (NewMutex s key)) as Ht.
  pose proof (count_Lock _ _ Hcount (lockTimeout v3l) e1 (NewMutex s key)) as Hl.
  destruct (useTryLock v3l).
  - destruct (mutex_TryLock (lockTimeout v3l) e1 (NewMutex s key)) as [e2 [r|]]; [|done].
    by injection Hlock as <- _.
  - destruct (mutex_Lock (lockTimeout v3l) e1 (NewMutex s key)) as [e2 [r|]]; [|done].
    by injection Hlock as <- _.
Qed.
End v3_properties.

(** *** A small etcd *)
(** An executable instance of the client: sessions are numbered, and a mutex
    key belongs to the session that locked it. *)
Record smallEtcd := mkSmallEtcd {
  next_session : nat;
  open_sessions : list nat;
  owners : gmap string nat
}.

Definition small_new (e : smallEtcd) : smallEtcd * result nat :=
  (mkSmallEtcd (S (next_session e)) (next_session e :: open_sessions e) (owners e),
   inr (next_session e)).

Definition small_lock (e : smallEtcd) (m : nat * string) : smallEtcd * option string :=
  match owners e !! m.2 with
  | Some s => if decide (s = m.1) then (e, None) else (e, Some "mutex: Locked by another session")
  | None => (mkSmallEtcd (next_session e) (open_sessions e) (<[m.2 := m.1]> (owners e)), None)
  end.

#[export] Instance small_etcd : EtcdConcurrency smallEtcd := {|
  session := nat;
  mutex := nat * string;
  NewMutex := fun s key => (s, key);
  mutex_TryLock := fun _ => small_lock;
  mutex_Lock := fun _ => small_lock;
  mutex_Unlock := fun e m =>
    (mkSmallEtcd (next_session e) (open_sessions e) (delete m.2 (owners e)), None);
  session_Close := fun e s =>
    (mkSmallEtcd (next_session e) (filter (fun s' => s' <> s) (open_sessions e))
       (filter (fun p => p.2 <> s) (owners e)), None)
|}.

Definition live_sessions (e : smallEtcd) : nat := length (open_sessions e).

Lemma small_session_count : session_count small_new live_sessions.
Proof.
  split.
  - intros e e' s [= <- <-]. done.
  - intros t e m. simpl. unfold small_lock. destruct (owners e !! m.2); [by case_decide|done].
  - intros t e m. simpl. unfold small_lock. destruct (owners e !! m.2); [by case_decide|done].
Qed.
