(* ===== verification/LockCalls.v ===== *)
(** * Lock calls in progress (rules/lock/) *)
(** Only the in-memory lockers run their methods under a mutex.  A call of the
    nested locker, of the etcd locker or of the metrics wrapper consists of
    several steps, and other goroutines, and other processes in the case of
    etcd, act in between.  [LockerCalls] is the interface of a locker whose
    calls are such sequences of steps; [client_step] interleaves the calls of
    any number of goroutines. *)
From S2P Require Import Prelude GoString Lock.

(** ** The interface *)
(** A call goes on or returns. *)
Inductive progress (C R : Type) :=
| Goes (c : C)
| Returns (r : R).
Arguments Goes {C R}.
Arguments Returns {C R}.

(** [lock_call] and [unlock_call] are the states of a call in progress;
    [interference] is what others do to the state between two steps. *)
Class LockerCalls (S L : Type) := {
  lock_call : Type;
  unlock_call : Type;
  lock_begin : string -> list Option -> lock_call;
  lock_next : Z -> S -> lock_call -> S * progress lock_call (result L);
  unlock_begin : L -> list Option -> unlock_call;
  unlock_next : Z -> S -> unlock_call -> S * progress unlock_call (option string);
  interference : S -> S -> Prop
}.

(** ** Lockers with a mutex *)
(** A method that runs under a mutex is one step. *)
Definition atomic_calls {S L} `{RuleLocker S L} : LockerCalls S L := {|
  lock_call := string * list Option;
  unlock_call := L * list Option;
  lock_begin := pair;
  lock_next := fun now s c => let '(s', r) := Lock now s c.1 c.2 in (s', Returns r);
  unlock_begin := pair;
  unlock_next := fun now s c => let '(s', r) := Unlock now s c.1 c.2 in (s', Returns r);
  interference := fun _ _ => False
|}.

#[export] Instance mapLocker_calls : LockerCalls mapLocker toggleLock := atomic_calls.
#[export] Instance coolOffLocker_calls `{GoRange} `{DurationFmt} : LockerCalls coolOffLocker coolOffLock :=
  atomic_calls.

(** ** The metrics wrapper (metrics.go) *)
Section metrics.
Context {S L : Type} {LC : LockerCalls S L}.

(** The inner lock is being obtained; its result is about to be observed. *)
Inductive mt_call :=
| MtLocking (opts : options) (c : lock_call)
| MtObserving (opts : options) (r : result L).

Definition set_locker (ml : metricLocker S) (s : S) : metricLocker S :=
  mkMetricLocker s (lockerName ml) (lockObservations ml) (unlockErrors ml).

Definition observeLock (ml : metricLocker S) (opts : options) (ok : bool) : metricLocker S :=
  mkMetricLocker (mt_locker ml) (lockerName ml)
    (lockObservations ml ++ [mkLockObservation (lockerName ml) (opt_method opts) (opt_pattern opts) ok])
    (unlockErrors ml).

Definition mt_lock_next (now : Z) (ml : metricLocker S) (c : mt_call) :
    metricLocker S * progress mt_call (result L) :=
  match c with
  | MtLocking opts c =>
    let '(s, p) := lock_next now (mt_locker ml) c in
    (set_locker ml s,
     match p with
     | Goes c' => Goes (MtLocking opts c')
     | Returns r => Goes (MtObserving opts r)
     end)
  | MtObserving opts r =>
    (observeLock ml opts (match r with inl _ => false | inr _ => true end), Returns r)
  end.

(** [Lock] returns the inner lock, so unlocking runs the inner [Unlock]. *)
Definition mt_unlock_next (now : Z) (ml : metricLocker S) (c : unlock_call) :
    metricLocker S * progress unlock_call (option string) :=
  let '(s, p) := unlock_next now (mt_locker ml) c in (set_locker ml s, p).

#[export] Instance metricLocker_calls : LockerCalls (metricLocker S) L := {|
  lock_call := mt_call;
  unlock_call := unlock_call;
  lock_begin := fun key options => MtLocking (buildOptions options) (lock_begin key options);
  lock_next := mt_lock_next;
  unlock_begin := unlock_begin;
  unlock_next := mt_unlock_next;
  interference := fun ml ml' => exists s, interference (mt_locker ml) s /\ ml' = set_locker ml s
|}.
End metrics.

(** ** The nested locker (nested_lock.go) *)
Section nested.
Context {S1 L1 S2 L2 : Type} {LC1 : LockerCalls S1 L1} {LC2 : LockerCalls S2 L2}.

(** [Lock] is in the call of its own locker, in that of the nested one, or
    unlocks its own lock because the nested one was refused. *)
Inductive nl_lock_call :=
| NlOwn (key : string) (options : list Option) (c : lock_call (S := S1) (L := L1))
| NlNested (lock : L1) (c : lock_call (S := S2) (L := L2))
| NlGiveUp (lock : L1) (err : string) (c : unlock_call (S := S1) (L := L1)).

(** [Unlock] unlocks the nested lock first and its own lock after that. *)
Inductive nl_unlock_call :=
| NuNested (nl : nestedLock L1 L2) (c : unlock_call (S := S2) (L := L2))
| NuOwn (nl : nestedLock L1 L2) (err : option string) (c : unlock_call (S := S1) (L := L1)).

Definition set_own (nl : nestedLocker S1 S2) (s : S1) : nestedLocker S1 S2 := mkNestedLocker s (nl_nested nl).
Definition set_nested (nl : nestedLocker S1 S2) (s : S2) : nestedLocker S1 S2 := mkNestedLocker (nl_own nl) s.

Definition nl_lock_next (now : Z) (nl : nestedLocker S1 S2) (c : nl_lock_call) :
    nestedLocker S1 S2 * progress nl_lock_call (result (nestedLock L1 L2)) :=
  match c with
  | NlOwn key options c =>
    let '(s, p) := lock_next now (nl_own nl) c in
    (set_own nl s,
     match p with
     | Goes c' => Goes (NlOwn key options c')
     | Returns (inl err) => Returns (inl err)
     | Returns (inr lock) => Goes (NlNested lock (lock_begin key options))
     end)
  | NlNested lock c =>
    let '(s, p) := lock_next now (nl_nested nl) c in
    (set_nested nl s,
     match p with
     | Goes c' => Goes (NlNested lock c')
     | Returns (inl err) => Goes (NlGiveUp lock err (unlock_begin lock []))
     | Returns (inr nested) => Returns (inr (mkNestedLock lock nested))
     end)
  | NlGiveUp lock err c =>
    let '(s, p) := unlock_next now (nl_own nl) c in
    (set_own nl s,
     match p with
     | Goes c' => Goes (NlGiveUp lock err c')
     | Returns _ => Returns (inl err)
     end)
  end.

Definition nl_unlock_next (now : Z) (nl : nestedLocker S1 S2) (c : nl_unlock_call) :
    nestedLocker S1 S2 * progress nl_unlock_call (option string) :=
  match c with
  | NuNested l c =>
    let '(s, p) := unlock_next now (nl_nested nl) c in
    (set_nested nl s,
     match p with
     | Goes c' => Goes (NuNested l c')
     | Returns err => Goes (NuOwn l err (unlock_begin (lock_own l) []))
     end)
  | NuOwn l err c =>
    let '(s, p) := unlock_next now (nl_own nl) c in
    (set_own nl s,
     match p with
     | Goes c' => Goes (NuOwn l err c')
     | Returns ownError => Returns (match err with None => ownError | Some _ => err end)
     end)
  end.

#[export] Instance nestedLocker_calls : LockerCalls (nestedLocker S1 S2) (nestedLock L1 L2) := {|
  lock_call := nl_lock_call;
  unlock_call := nl_unlock_call;
  lock_begin := fun key options => NlOwn key options (lock_begin key options);
  lock_next := nl_lock_next;
  unlock_begin := fun l _ => NuNested l (unlock_begin (lock_nested l) []);
  unlock_next := nl_unlock_next;
  interference := fun nl nl' =>
    (exists s, interference (nl_own nl) s /\ nl' = set_own nl s) \/
    (exists s, interference (nl_nested nl) s /\ nl' = set_nested nl s)
|}.
End nested.

(** ** The etcd locker (lock.go) *)
Section v3.
Context {E : Type} `{EtcdConcurrency E}.

Inductive v3_lock_call :=
| V3NewSession (key : string)
| V3Acquire (s : session) (key : string).

(** [Unlock] has [S n] attempts left, or closes the session it owns. *)
Inductive v3_unlock_call :=
| V3NilMutex
| V3Unlocking (m : mutex) (n : nat) (sess : option session)
| V3Closing (s : session) (err : option string).

Definition v3_lock_next (v3l : v3Locker E) (c : v3_lock_call) :
    v3Locker E * progress v3_lock_call (result (v3Lock E)) :=
  match c with
  | V3NewSession key =>
    let '(e, r) := newSession v3l (v3_etcd v3l) in
    (with_etcd v3l e, match r with inl err => Returns (inl err) | inr s => Goes (V3Acquire s key) end)
  | V3Acquire s key =>
    let m := NewMutex s key in
    let '(e, err) := if useTryLock v3l then mutex_TryLock (lockTimeout v3l) (v3_etcd v3l) m
                     else mutex_Lock (lockTimeout v3l) (v3_etcd v3l) m in
    (with_etcd v3l e,
     Returns (match err with
              | Some err => inl err
              | None => inr (mkV3Lock (Some m) (if closeSession v3l then Some s else None))
              end))
  end.

(** After the last attempt, which ended with [err]. *)
Definition v3_unlocked (sess : option session) (err : option string) :
    progress v3_unlock_call (option string) :=
  let err := match err with Some e => Some (joined "Unlock:" e) | None => None end in
  match sess with
  | None => Returns err
  | Some s => Goes (V3Closing s err)
  end.

Definition v3_unlock_next (v3l : v3Locker E) (c : v3_unlock_call) :
    v3Locker E * progress v3_unlock_call (option string) :=
  match c with
  | V3NilMutex => (v3l, Returns (Some ErrNilMutex))
  | V3Unlocking m n sess =>
    let '(e, err) := mutex_Unlock (v3_etcd v3l) m in
    (with_etcd v3l e,
     match err, n with
     | Some _, S n' => Goes (V3Unlocking m n' sess)
     | _, _ => v3_unlocked sess err
     end)
  | V3Closing s err =>
    let '(e, serr) := session_Close (v3_etcd v3l) s in
    let serr' := match serr with
                 | Some t => if Contains t "lease not found" then None else serr
                 | None => None
                 end in
    (with_etcd v3l e,
     Returns (match err, serr' with
              | None, Some t => Some (joined "Close:" t)
              | _, _ => err
              end))
  end.

(** Other processes may do anything to etcd. *)
#[export] Instance v3Locker_calls : LockerCalls (v3Locker E) (v3Lock E) := {|
  lock_call := v3_lock_call;
  unlock_call := v3_unlock_call;
  lock_begin := fun key _ => V3NewSession key;
  lock_next := fun _ => v3_lock_next;
  unlock_begin := fun l _ =>
    match v3_mutex l with
    | None => V3NilMutex
    | Some m => V3Unlocking m (Nat.pred unlockMaxRetries) (v3_session l)
    end;
  unlock_next := fun _ => v3_unlock_next;
  interference := fun v3l v3l' => exists e, v3l' = with_etcd v3l e
|}.
End v3.

#[export] Instance sharedLocker_calls `{EtcdConcurrency E} : LockerCalls (sharedLocker E) (sharedLock E) :=
  nestedLocker_calls.
#[export] Instance coolOffSharedLocker_calls `{EtcdConcurrency E} `{GoRange} `{DurationFmt} :
  LockerCalls (coolOffSharedLocker E) (coolOffSharedLock E) := nestedLocker_calls.

(** ** Calls that are not disturbed *)
Section alone.
Context {S L : Type} {LC : LockerCalls S L}.

Inductive lock_runs (now : Z) : S -> lock_call -> S -> result L -> Prop :=
| lock_runs_end s c s' r : lock_next now s c = (s', Returns r) -> lock_runs now s c s' r
| lock_runs_step s c s1 c1 s' r :
    lock_next now s c = (s1, Goes c1) -> lock_runs now s1 c1 s' r -> lock_runs now s c s' r.

Inductive unlock_runs (now : Z) : S -> unlock_call -> S -> option string -> Prop :=
| unlock_runs_end s c s' r : unlock_next now s c = (s', Returns r) -> unlock_runs now s c s' r
| unlock_runs_step s c s1 c1 s' r :
    unlock_next now s c = (s1, Goes c1) -> unlock_runs now s1 c1 s' r -> unlock_runs now s c s' r.
End alone.

(** The methods of [RuleLocker] are the calls that run without interruption. *)
Class CallsRun (S L : Type) {RL : RuleLocker S L} {LC : LockerCalls S L} : Prop := {
  lock_alone : forall now s k o s' r, Lock now s k o = (s', r) -> lock_runs now s (lock_begin k o) s' r;
  unlock_alone : forall now s l o s' r, Unlock now s l o = (s', r) -> unlock_runs now s (unlock_begin l o) s' r
}.

Lemma atomic_runs {S L} `{RuleLocker S L} : CallsRun S L (LC := atomic_calls).
Proof.
  split; intros now s x o s' r E.
  - apply (lock_runs_end (LC := atomic_calls)). simpl. by rewrite E.
  - apply (unlock_runs_end (LC := atomic_calls)). simpl. by rewrite E.
Qed.

#[export] Instance mapLocker_runs : CallsRun mapLocker toggleLock := atomic_runs.
#[export] Instance coolOffLocker_runs `{GoRange} `{DurationFmt} : CallsRun coolOffLocker coolOffLock := atomic_runs.

#[export] Instance metricLocker_runs {S L} `{CallsRun S L} : CallsRun (metricLocker S) L.
Proof.
  split.
  - intros now ml k o ml' r E. simpl in E. unfold mt_Lock in E.
    destruct (Lock now (mt_locker ml) k o) as [s1 r1] eqn:El. injection E as <- <-.
    apply lock_alone in El. simpl. generalize (buildOptions o). intros opts.
    remember (mt_locker ml) as s0 eqn:Hs0. revert ml Hs0.
    induction El as [s c s' r E|s c s1 c1 s' r E _ IH]; intros ml ->.
    + eapply lock_runs_step; [simpl; by rewrite E|]. by apply lock_runs_end.
    + eapply lock_runs_step; [simpl; by rewrite E|]. exact (IH (set_locker ml s1) eq_refl).
  - intros now ml l o ml' r E. simpl in E.
    destruct (Unlock now (mt_locker ml) l o) as [s1 r1] eqn:El. injection E as <- <-.
    apply unlock_alone in El. simpl. remember (mt_locker ml) as s0 eqn:Hs0. revert ml Hs0.
    induction El as [s c s' r E|s c s1 c1 s' r E _ IH]; intros ml ->.
    + apply unlock_runs_end. simpl. unfold mt_unlock_next. by rewrite E.
    + eapply unlock_runs_step; [simpl; unfold mt_unlock_next; by rewrite E|]. exact (IH (set_locker ml s1) eq_refl).
Qed.

Section nested_runs.
Context {S1 L1 S2 L2 : Type} {RL1 : RuleLocker S1 L1} {RL2 : RuleLocker S2 L2}.
Context {LC1 : LockerCalls S1 L1} {LC2 : LockerCalls S2 L2}.

(** The calls of the two lockers, as parts of a call of the nested locker. *)
Lemma own_runs now (s s' : S1) c (r : result L1) (nl fin : nestedLocker S1 S2) key o
    (res : result (nestedLock L1 L2)) :
  lock_runs now s c s' r -> nl_own nl = s ->
  match r with
  | inl err => fin = set_own nl s' /\ res = inl err
  | inr lock => lock_runs now (set_own nl s') (NlNested lock (lock_begin key o)) fin res
  end ->
  lock_runs now nl (NlOwn key o c) fin res.
Proof.
  intros Hr. revert nl. induction Hr as [s c s' [err|lock] E|s c s1 c1 s' r E _ IH]; intros nl <-.
  - intros [-> ->]. apply lock_runs_end. simpl. by rewrite E.
  - intros Hn. eapply lock_runs_step; [simpl; by rewrite E | exact Hn].
  - intros Hn. eapply lock_runs_step; [simpl; by rewrite E|]. by apply IH.
Qed.

Lemma nested_runs now (s s' : S2) c (r : result L2) (nl fin : nestedLocker S1 S2) (lock : L1)
    (res : result (nestedLock L1 L2)) :
  lock_runs now s c s' r -> nl_nested nl = s ->
  match r with
  | inl err => lock_runs now (set_nested nl s') (NlGiveUp lock err (unlock_begin lock [])) fin res
  | inr nested => fin = set_nested nl s' /\ res = inr (mkNestedLock lock nested)
  end ->
  lock_runs now nl (NlNested lock c) fin res.
Proof.
  intros Hr. revert nl. induction Hr as [s c s' [err|nested] E|s c s1 c1 s' r E _ IH]; intros nl <-.
  - intros Hn. eapply lock_runs_step; [simpl; by rewrite E | exact Hn].
  - intros [-> ->]. apply lock_runs_end. simpl. by rewrite E.
  - intros Hn. eapply lock_runs_step; [simpl; by rewrite E|]. by apply IH.
Qed.

Lemma give_up_runs now (s s' : S1) c r (nl : nestedLocker S1 S2) (lock : L1) err :
  unlock_runs now s c s' r -> nl_own nl = s ->
  lock_runs now nl (NlGiveUp lock err c) (set_own nl s') (inl err : result (nestedLock L1 L2)).
Proof.
  intros Hr. revert nl. induction Hr as [s c s' r E|s c s1 c1 s' r E _ IH]; intros nl <-.
  - apply lock_runs_end. simpl. by rewrite E.
  - eapply lock_runs_step; [simpl; by rewrite E|]. exact (IH (set_own nl s1) eq_refl).
Qed.

Lemma unlock_nested_runs now (s s' : S2) c err (nl fin : nestedLocker S1 S2) (l : nestedLock L1 L2) res :
  unlock_runs now s c s' err -> nl_nested nl = s ->
  unlock_runs now (set_nested nl s') (NuOwn l err (unlock_begin (lock_own l) [])) fin res ->
  unlock_runs now nl (NuNested l c) fin res.
Proof.
  intros Hr. revert nl. induction Hr as [s c s' err E|s c s1 c1 s' err E _ IH]; intros nl <- Hn.
  - eapply unlock_runs_step; [simpl; by rewrite E | exact Hn].
  - eapply unlock_runs_step; [simpl; by rewrite E|]. by apply IH.
Qed.

Lemma unlock_own_runs now (s s' : S1) c ownError (nl : nestedLocker S1 S2) (l : nestedLock L1 L2) err :
  unlock_runs now s c s' ownError -> nl_own nl = s ->
  unlock_runs now nl (NuOwn l err c) (set_own nl s') (match err with None => ownError | Some _ => err end).
Proof.
  intros Hr. revert nl. induction Hr as [s c s' r E|s c s1 c1 s' r E _ IH]; intros nl <-.
  - apply unlock_runs_end. simpl. by rewrite E.
  - eapply unlock_runs_step; [simpl; by rewrite E|]. exact (IH (set_own nl s1) eq_refl).
Qed.

#[export] Instance nestedLocker_runs `{!CallsRun S1 L1} `{!CallsRun S2 L2} :
  CallsRun (nestedLocker S1 S2) (nestedLock L1 L2).
Proof.
  split.
  - intros now nl k o nl' r E. simpl in E. unfold nl_Lock in E.
    destruct (Lock now (nl_own nl) k o) as [s1 [e1|l1]] eqn:E1; apply lock_alone in E1.
    { injection E as <- <-. by eapply own_runs. }
    eapply own_runs; [done..|]. cbn beta iota.
    destruct (Lock now (nl_nested nl) k o) as [s2 [e2|l2]] eqn:E2; apply lock_alone in E2.
    + destruct (Unlock now s1 l1 []) as [s1' u] eqn:E3. apply unlock_alone in E3. injection E as <- <-.
      eapply nested_runs; [done..|]. cbn beta iota. by eapply (give_up_runs _ _ _ _ _ (mkNestedLocker s1 s2)).
    + injection E as <- <-. by eapply nested_runs.
  - intros now nl l o nl' r E. simpl in E. unfold nl_Unlock in E.
    destruct (Unlock now (nl_nested nl) (lock_nested l) []) as [s2 e2] eqn:E2.
    destruct (Unlock now (nl_own nl) (lock_own l) []) as [s1 e1] eqn:E1. injection E as <- <-.
    apply unlock_alone in E1, E2. eapply unlock_nested_runs; [done..|].
    by eapply (unlock_own_runs _ _ _ _ _ (mkNestedLocker (nl_own nl) s2)).
Qed.
End nested_runs.

Section v3_runs.
Context {E : Type} `{EtcdConcurrency E}.

Lemma v3_unlocked_runs now v3l m sess n e err r fin res :
  unlock_loop (S n) (v3_etcd v3l) m err = (e, r) ->
  match v3_unlocked sess r with
  | Returns r' => fin = with_etcd v3l e /\ res = r'
  | Goes c => unlock_runs now (with_etcd v3l e) c fin res
  end -> unlock_runs now v3l (V3Unlocking m n sess) fin res.
Proof.
  revert v3l err. induction n as [|n IH]; intros v3l err Hl Hr; cbn [unlock_loop] in *;
    destruct (mutex_Unlock (v3_etcd v3l) m) as [e' [t|]] eqn:Eu.
  3: eapply unlock_runs_step; [simpl; by rewrite Eu | exact (IH (with_etcd v3l e') (Some t) Hl Hr)].
  all: injection Hl as <- <-; destruct sess; simpl in Hr;
    [eapply unlock_runs_step; [simpl; by rewrite Eu | exact Hr]|];
    destruct Hr as [-> ->]; apply unlock_runs_end; simpl; by rewrite Eu.
Qed.

#[export] Instance v3Locker_runs : CallsRun (v3Locker E) (v3Lock E).
Proof.
  split.
  - intros now v3l k o v3l' r El. simpl in El. unfold lockWithTimeout in El.
    destruct (newSession v3l (v3_etcd v3l)) as [e1 [err|s]] eqn:En.
    { injection El as <- <-. apply lock_runs_end. simpl. by rewrite En. }
    eapply lock_runs_step; [simpl; by rewrite En|]. apply lock_runs_end. simpl.
    destruct (useTryLock v3l).
    + destruct (mutex_TryLock _ e1 _) as [e2 [err|]]; by injection El as <- <-.
    + destruct (mutex_Lock _ e1 _) as [e2 [err|]]; by injection El as <- <-.
  - intros now v3l l o v3l' r El. change (v3_Unlock v3l l = (v3l', r)) in El. unfold v3_Unlock in El.
    destruct l as [[m|] sess]; cbn [v3_mutex v3_session] in El.
    + destruct (unlock_loop unlockMaxRetries (v3_etcd v3l) m None) as [e1 err] eqn:Eu.
      unfold unlockMaxRetries in Eu. cbv beta iota in El.
      apply (v3_unlocked_runs now v3l m sess 4 e1 None err); [exact Eu|].
      destruct sess as [s|]; [|by injection El as <- <-]. simpl.
      apply unlock_runs_end. simpl. destruct (session_Close e1 s) as [e2 serr]. by injection El as <- <-.
    + injection El as <- <-. by apply unlock_runs_end.
Qed.
End v3_runs.

(** ** Clients *)
Section clients.
Context {S L : Type} {LC : LockerCalls S L}.

(** What a goroutine does: nothing with the locker, a call of [Lock], its work
    while it holds the lock that [Lock] returned, or a call of [Unlock]. *)
Inductive client :=
| Idle
| Locking (k : string) (c : lock_call (S := S) (L := L))
| Holding (k : string) (l : L)
| Unlocking (k : string) (l : L) (c : unlock_call (S := S) (L := L)).

Inductive client_step : S * list client -> S * list client -> Prop :=
| begin_lock s cs i k o :
    cs !! i = Some Idle -> client_step (s, cs) (s, <[i := Locking k (lock_begin k o)]> cs)
| next_lock s cs i k c now s' c' :
    cs !! i = Some (Locking k c) -> lock_next now s c = (s', Goes c') ->
    client_step (s, cs) (s', <[i := Locking k c']> cs)
| lock_granted s cs i k c now s' l :
    cs !! i = Some (Locking k c) -> lock_next now s c = (s', Returns (inr l)) ->
    client_step (s, cs) (s', <[i := Holding k l]> cs)
| lock_refused s cs i k c now s' e :
    cs !! i = Some (Locking k c) -> lock_next now s c = (s', Returns (inl e)) ->
    client_step (s, cs) (s', <[i := Idle]> cs)
| begin_unlock s cs i k l o :
    cs !! i = Some (Holding k l) -> client_step (s, cs) (s, <[i := Unlocking k l (unlock_begin l o)]> cs)
| next_unlock s cs i k l c now s' c' :
    cs !! i = Some (Unlocking k l c) -> unlock_next now s c = (s', Goes c') ->
    client_step (s, cs) (s', <[i := Unlocking k l c']> cs)
| unlock_returned s cs i k l c now s' e :
    cs !! i = Some (Unlocking k l c) -> unlock_next now s c = (s', Returns e) ->
    client_step (s, cs) (s', <[i := Idle]> cs)
| others_act s cs s' : interference s s' -> client_step (s, cs) (s', cs).
End clients.
Arguments client S L {LC}.

(** What a locker promises whose calls interleave: no two clients hold the same
    key, from the return of [Lock] to the call of [Unlock]. *)
Class CallsExclusive (S L : Type) {LC : LockerCalls S L} : Prop :=
  holding_unique : forall n (s s' : S) cs i j k l l',
    rtc client_step (s, replicate n Idle) (s', cs) ->
    cs !! i = Some (Holding k l) -> cs !! j = Some (Holding k l') -> i = j.

(** *** Lockers with a mutex *)
Section atomic.
Context {S L : Type} {RL : RuleLocker S L} {EL : ExclusiveLocker S L}.

#[local] Existing Instance atomic_calls.

(** The key of a client that has not released it yet. *)
Definition owned (c : client S L) : option (string * L) :=
  match c with
  | Holding k l | Unlocking k l _ => Some (k, l)
  | _ => None
  end.

Definition call_inv (c : client S L) : Prop :=
  match c with
  | Locking k c => c.1 = k
  | Unlocking k l c => c.1 = l
  | _ => True
  end.

Record atomic_inv (c : S * list (client S L)) : Prop := {
  at_calls : Forall call_inv c.2;
  at_busy : forall i x k l, c.2 !! i = Some x -> owned x = Some (k, l) -> busy c.1 k = true /\ lock_key l = k;
  at_unique : forall i j x y k l l', c.2 !! i = Some x -> c.2 !! j = Some y ->
    owned x = Some (k, l) -> owned y = Some (k, l') -> i = j
}.

(** A client that comes to own nothing it did not own before. *)
Lemma atomic_keep s s' cs i x x' :
  atomic_inv (s, cs) -> cs !! i = Some x -> call_inv x' -> (owned x' = None \/ owned x' = owned x) ->
  (forall j y k l, j <> i \/ owned x' <> None -> cs !! j = Some y -> owned y = Some (k, l) ->
     busy s k = true -> busy s' k = true) ->
  atomic_inv (s', <[i := x']> cs).
Proof.
  intros [Hc Hb Hu] Hi Hx' Ho Hs. assert (i < length cs) as Hlen by (by eapply lookup_lt_Some).
  simpl in *. split; simpl; [by apply Forall_insert| |].
  - intros j y k l Hj Hy. destruct (decide (i = j)) as [<-|Hne].
    + rewrite list_lookup_insert_eq in Hj by done. injection Hj as <-.
      destruct Ho as [Ho|Ho]; [congruence|]. rewrite Ho in Hy. destruct (Hb i x k l Hi Hy).
      split; [|done]. eapply (Hs i x); [right; congruence | done..].
    + rewrite list_lookup_insert_ne in Hj by done. destruct (Hb j y k l Hj Hy). split; [|done].
      eapply (Hs j y); eauto.
  - intros j j' y y' k l l' Hj Hj' Hy Hy'.
    destruct (decide (i = j)) as [<-|Hne], (decide (i = j')) as [<-|Hne']; [done|..];
      rewrite ?list_lookup_insert_eq, ?list_lookup_insert_ne in Hj by done;
      rewrite ?list_lookup_insert_eq, ?list_lookup_insert_ne in Hj' by done; simplify_eq.
    + destruct Ho as [Ho|Ho]; [congruence|]. rewrite Ho in Hy. by eapply (Hu i j').
    + destruct Ho as [Ho|Ho]; [congruence|]. rewrite Ho in Hy'. by eapply (Hu j i).
    + by eapply (Hu j j').
Qed.

Lemma atomic_inv_step c c' : client_step c c' -> atomic_inv c -> atomic_inv c'.
Proof.
  intros Hs I. destruct Hs as [s cs i k o Hi|s cs i k c now s' c' Hi E|s cs i k c now s' l Hi E
    |s cs i k c now s' e Hi E|s cs i k l o Hi|s cs i k l c now s' c' Hi E|s cs i k l c now s' e Hi E|s cs s' Hx].
  8: by destruct Hx.
  all: pose proof (Forall_lookup_1 _ _ _ _ (at_calls _ I) Hi) as Hc; simpl in Hc; try simpl in E.
  - eapply atomic_keep; [done | done | done | by left | done].
  - destruct (Lock now s c.1 c.2). done.
  - destruct (Lock now s c.1 c.2) as [s1 r1] eqn:El. injection E as -> ->. rewrite Hc in El.
    destruct (Lock_ok _ _ _ _ _ _ El) as (Hk & Hfree & Hbusy & Hmono). destruct I as [Hcs Hb Hu]. simpl in *.
    assert (i < length cs) as Hlen by (by eapply lookup_lt_Some).
    assert (forall j y l', cs !! j = Some y -> owned y = Some (k, l') -> False) as Hno.
    { intros j y l' Hj Hy. destruct (Hb j y k l' Hj Hy). congruence. }
    split; simpl; [by apply Forall_insert| |].
    + intros j y k' l' Hj Hy. destruct (decide (i = j)) as [<-|Hne].
      * rewrite list_lookup_insert_eq in Hj by done. by simplify_eq/=.
      * rewrite list_lookup_insert_ne in Hj by done. destruct (Hb j y k' l' Hj Hy). auto.
    + intros j j' y y' k' l1 l2 Hj Hj' Hy Hy'.
      destruct (decide (i = j)) as [<-|Hne], (decide (i = j')) as [<-|Hne']; [done|..];
        rewrite ?list_lookup_insert_eq, ?list_lookup_insert_ne in Hj by done;
        rewrite ?list_lookup_insert_eq, ?list_lookup_insert_ne in Hj' by done; simplify_eq/=;
        [exfalso; by eapply (Hno j') | exfalso; by eapply (Hno j) | by eapply (Hu j j')].
  - destruct (Lock now s c.1 c.2) as [s1 r1] eqn:El. injection E as -> ->.
    eapply atomic_keep; [done | done | done | by left |]. intros j y k' l' _ _ _. by eapply Lock_err.
  - eapply atomic_keep; [done | done | done | by right | done].
  - destruct (Unlock now s c.1 c.2). done.
  - destruct (Unlock now s c.1 c.2) as [s1 r1] eqn:El. injection E as -> ->. rewrite Hc in El.
    eapply atomic_keep; [done | done | done | by left |].
    intros j y k' l' [Hne|[]] Hj Hy; [|done]. eapply Unlock_other; [done|].
    destruct (at_busy _ I i _ k l Hi eq_refl) as [_ ->]. intros ->. apply Hne. by eapply (at_unique _ I).
Qed.

Lemma atomic_exclusive : CallsExclusive S L.
Proof.
  intros n s s' cs i j k l l' Hr Hi Hj. assert (atomic_inv (s', cs)) as [_ _ Hu]; [|by eapply Hu].
  eapply (rtc_invariant _ _ _ _ atomic_inv_step Hr). split; simpl.
  - by apply Forall_replicate.
  - intros x y k' l1 [-> _]%lookup_replicate. done.
  - intros x y a b k' l1 l2 [-> _]%lookup_replicate. done.
Qed.
End atomic.

#[export] Instance mapLocker_calls_exclusive : CallsExclusive mapLocker toggleLock := atomic_exclusive.

(** *** Lockers that contain another locker *)
Lemma fmap_same {A B} (g : A -> B) (l : list A) (i : nat) x x' :
  l !! i = Some x -> g x' = g x -> g <$> <[i := x']> l = g <$> l.
Proof.
  intros Hi Hg. rewrite list_fmap_insert, Hg. apply list_insert_id. by rewrite list_lookup_fmap, Hi.
Qed.

(** If every step of the clients of a locker is a step, or none, of the clients
    of a locker inside it, the promise of the inner locker carries over. *)
Section simulation.
Context {S L S' L' : Type} {LC : LockerCalls S L} {LC' : LockerCalls S' L'}.
Context (f : S' -> S) (g : client S' L' -> client S L) (wf : client S' L' -> Prop).
Hypothesis (Hidle : g Idle = Idle) (Hwf : wf Idle).
Hypothesis (Hsim : forall s cs s' cs', client_step (s, cs) (s', cs') -> Forall wf cs ->
  Forall wf cs' /\ rtc client_step (f s, g <$> cs) (f s', g <$> cs')).

Lemma simulated n s s' cs :
  rtc client_step (s, replicate n Idle) (s', cs) -> rtc client_step (f s, replicate n Idle) (f s', g <$> cs).
Proof.
  intros Hr.
  assert (forall c c', rtc client_step c c' -> Forall wf c.2 ->
    rtc client_step (f c.1, g <$> c.2) (f c'.1, g <$> c'.2)) as Hgen.
  { intros c c' Hc. induction Hc as [|[s1 cs1] [s2 cs2] c3 Hs _ IH]; intros Hw; [done|].
    destruct (Hsim _ _ _ _ Hs Hw) as [Hw' Hr']. etrans; [exact Hr' | by apply IH]. }
  specialize (Hgen _ _ Hr (Forall_replicate _ _ _ Hwf)). simpl in Hgen.
  by rewrite fmap_replicate, Hidle in Hgen.
Qed.
End simulation.

(** The cases of a step: [Hi] is the client that acts, [E] its step. *)
Ltac invert_step Hs :=
  inversion Hs as [? ? i k o Hi|? ? i k c now ? c' Hi E|? ? i k c now ? l Hi E|? ? i k c now ? e Hi E
    |? ? i k l o Hi|? ? i k l c now ? c' Hi E|? ? i k l c now ? e Hi E|? ? ? Hx]; subst.

(** The client that acts, under the projection [g]. *)
Ltac client_image g :=
  match goal with Hi : ?cs !! ?i = Some ?x |- _ =>
    let Hg := fresh "Hg" in
    assert ((g <$> cs) !! i = Some (g x)) as Hg by (rewrite list_lookup_fmap, Hi; reflexivity); simpl in Hg
  end.

(** The step of the locker inside that a step consists of. *)
Ltac step_inner E :=
  simpl in E; unfold mt_unlock_next in E;
  match type of E with
  | context [lock_next ?now ?s ?c] => destruct (lock_next now s c) as [? [?|[?|?]]] eqn:?
  | context [unlock_next ?now ?s ?c] => destruct (unlock_next now s c) as [? [?|?]] eqn:?
  | _ => idtac
  end.

(** The projected system makes the same step, or none. *)
Ltac sim_case :=
  simplify_eq; try done;
  first [by erewrite fmap_same
        | rewrite list_fmap_insert; apply rtc_once;
          first [by apply begin_lock | by eapply next_lock | by eapply lock_granted | by eapply lock_refused
                | by apply begin_unlock | by eapply next_unlock | by eapply unlock_returned]].

Section wrapped.
Context {S L : Type} {LC : LockerCalls S L}.

(** A client of the metrics wrapper as a client of the locker inside. *)
Definition metric_inner (c : client (metricLocker S) L) : client S L :=
  match c with
  | Idle => Idle
  | Locking k (MtLocking _ c) => Locking k c
  | Locking k (MtObserving _ (inr l)) => Holding k l
  | Locking k (MtObserving _ (inl _)) => Idle
  | Holding k l => Holding k l
  | Unlocking k l c => Unlocking (LC := LC) k l c
  end.

Lemma metric_sim s cs s' cs' :
  client_step (s, cs) (s', cs') ->
  rtc client_step (mt_locker s, metric_inner <$> cs) (mt_locker s', metric_inner <$> cs').
Proof.
  intros Hs. invert_step Hs; try client_image metric_inner;
    try (destruct c as [opts c|opts r]; step_inner E; sim_case); try (step_inner E; sim_case); try sim_case.
  destruct Hx as (s1 & Hx & ->). apply rtc_once. by apply others_act.
Qed.

#[export] Instance metricLocker_calls_exclusive `{!CallsExclusive S L} : CallsExclusive (metricLocker S) L.
Proof.
  intros n s s' cs i j k l l' Hr Hi Hj.
  apply (simulated mt_locker metric_inner (fun _ => True)) in Hr; [|done..|].
  - eapply holding_unique; [exact Hr | by rewrite list_lookup_fmap, Hi | by rewrite list_lookup_fmap, Hj].
  - intros s1 cs1 s2 cs2 Hs _. split; [by apply Forall_true | by apply metric_sim].
Qed.
End wrapped.

Section nested_clients.
Context {S1 L1 S2 L2 : Type} {LC1 : LockerCalls S1 L1} {LC2 : LockerCalls S2 L2}.

(** A client of the nested locker as a client of its own locker: it holds the
    own lock while it locks, holds and unlocks the nested one... *)
Definition own_client (c : client (nestedLocker S1 S2) (nestedLock L1 L2)) : client S1 L1 :=
  match c with
  | Idle => Idle
  | Locking k (NlOwn _ _ c) => Locking k c
  | Locking k (NlNested lock _) => Holding k lock
  | Locking k (NlGiveUp lock _ c) => Unlocking k lock c
  | Holding k l => Holding k (lock_own l)
  | Unlocking k _ (NuNested l _) => Holding k (lock_own l)
  | Unlocking k _ (NuOwn l _ c) => Unlocking k (lock_own l) c
  end.

(** ... and as a client of the nested one. *)
Definition nested_client (c : client (nestedLocker S1 S2) (nestedLock L1 L2)) : client S2 L2 :=
  match c with
  | Locking k (NlNested _ c) => Locking k c
  | Holding k l => Holding k (lock_nested l)
  | Unlocking k _ (NuNested l c) => Unlocking k (lock_nested l) c
  | _ => Idle
  end.

Definition nested_wf (c : client (nestedLocker S1 S2) (nestedLock L1 L2)) : Prop :=
  match c with Locking k (NlOwn key _ _) => key = k | _ => True end.

Lemma nested_wf_step s cs s' cs' :
  client_step (s, cs) (s', cs') -> Forall nested_wf cs -> Forall nested_wf cs'.
Proof.
  intros Hs Hw. inversion Hs as [? ? i k o Hi|? ? i k c now ? c' Hi E|? ? i k c now ? l Hi E|? ? i k c now ? e Hi E
    |? ? i k l o Hi|? ? i k l c now ? c' Hi E|? ? i k l c now ? e Hi E|? ? ? Hx]; subst; [..|done];
    (apply Forall_insert; [done|]); try done.
  pose proof (Forall_lookup_1 _ _ _ _ Hw Hi) as Hk.
  destruct c as [key o c|lock c|lock err c]; simpl in E.
  - destruct (lock_next now (nl_own s) c) as [s1 [c1|[err|l]]]; by simplify_eq.
  - destruct (lock_next now (nl_nested s) c) as [s1 [c1|[err|l]]]; by simplify_eq.
  - destruct (unlock_next now (nl_own s) c) as [s1 [c1|r]]; by simplify_eq.
Qed.

Lemma own_sim s cs s' cs' :
  client_step (s, cs) (s', cs') ->
  rtc client_step (nl_own s, own_client <$> cs) (nl_own s', own_client <$> cs').
Proof.
  intros Hs. invert_step Hs; try client_image own_client;
    try (destruct c as [key o c|lock c|lock err c]; step_inner E; sim_case);
    try (destruct c as [l0 c|l0 err c]; step_inner E; sim_case); try sim_case.
  destruct Hx as [(s1 & Hx & ->)|(s1 & Hx & ->)]; [|done]. apply rtc_once. by apply others_act.
Qed.

Lemma nested_sim s cs s' cs' :
  client_step (s, cs) (s', cs') -> Forall nested_wf cs ->
  rtc client_step (nl_nested s, nested_client <$> cs) (nl_nested s', nested_client <$> cs').
Proof.
  intros Hs Hw. invert_step Hs;
    try (client_image nested_client; pose proof (Forall_lookup_1 _ _ _ _ Hw Hi) as Hk; simpl in Hk);
    try (destruct c as [key o c|lock c|lock err c]; step_inner E; sim_case);
    try (destruct c as [l0 c|l0 err c]; step_inner E; sim_case); try sim_case.
  destruct Hx as [(s1 & Hx & ->)|(s1 & Hx & ->)]; [done|]. apply rtc_once. by apply others_act.
Qed.

#[export] Instance nested_own_calls_exclusive `{!CallsExclusive S1 L1} :
  CallsExclusive (nestedLocker S1 S2) (nestedLock L1 L2).
Proof.
  intros n s s' cs i j k l l' Hr Hi Hj.
  apply (simulated nl_own own_client (fun _ => True)) in Hr; [|done..|].
  - eapply holding_unique; [exact Hr | by rewrite list_lookup_fmap, Hi | by rewrite list_lookup_fmap, Hj].
  - intros s1 cs1 s2 cs2 Hs _. split; [by apply Forall_true | by apply own_sim].
Qed.

(** The steps of the clients of the nested locker inside. *)
Lemma nested_simulated n (s s' : nestedLocker S1 S2) cs :
  rtc client_step (s, replicate n Idle) (s', cs) ->
  rtc client_step (nl_nested s, replicate n Idle) (nl_nested s', nested_client <$> cs).
Proof.
  apply (simulated nl_nested nested_client nested_wf); [done..|].
  intros s1 cs1 s2 cs2 Hs Hw. split; [by eapply nested_wf_step | by apply nested_sim].
Qed.

Lemma nested_inner_calls_exclusive `{!CallsExclusive S2 L2} :
  CallsExclusive (nestedLocker S1 S2) (nestedLock L1 L2).
Proof.
  intros n s s' cs i j k l l' Hr%nested_simulated Hi Hj.
  eapply holding_unique; [exact Hr | by rewrite list_lookup_fmap, Hi | by rewrite list_lookup_fmap, Hj].
Qed.

(** *** The inner locker is used by one client at a time *)
(** The client has called [Lock] of the nested locker for the key, and its
    [Unlock] has not returned yet. *)
Definition uses_nested (k : string) (c : client (nestedLocker S1 S2) (nestedLock L1 L2)) : Prop :=
  match c with
  | Locking k' (NlNested _ _) | Holding k' _ | Unlocking k' _ (NuNested _ _) => k' = k
  | _ => False
  end.

Lemma uses_nested_owns k c : uses_nested k c -> exists l, own_client c = Holding k l.
Proof. destruct c as [|? []| |? ? []]; simpl; try done; intros ->; by eexists. Qed.

Lemma uses_nested_unique `{!CallsExclusive S1 L1} n (s s' : nestedLocker S1 S2) cs i j k x y :
  rtc client_step (s, replicate n Idle) (s', cs) ->
  cs !! i = Some x -> cs !! j = Some y -> uses_nested k x -> uses_nested k y -> i = j.
Proof.
  intros Hr Hi Hj [l Hx]%uses_nested_owns [l' Hy]%uses_nested_owns.
  apply (simulated nl_own own_client (fun _ => True)) in Hr; [|done..|].
  - eapply holding_unique; [exact Hr | by rewrite list_lookup_fmap, Hi; simpl; rewrite Hx
      | by rewrite list_lookup_fmap, Hj; simpl; rewrite Hy].
  - intros s1 cs1 s2 cs2 Hs _. split; [by apply Forall_true | by apply own_sim].
Qed.
End nested_clients.

(** ** The lockers of an engine *)
Section engine_lockers.
Context {E : Type} `{EtcdConcurrency E} `{GoRange} `{DurationFmt}.

#[export] Instance sharedLocker_calls_exclusive : CallsExclusive (sharedLocker E) (sharedLock E) :=
  nested_own_calls_exclusive.
#[export] Instance coolOffSharedLocker_calls_exclusive :
  CallsExclusive (coolOffSharedLocker E) (coolOffSharedLock E) := nested_inner_calls_exclusive.

#[export] Instance sharedLocker_runs : CallsRun (sharedLocker E) (sharedLock E) := nestedLocker_runs.
#[export] Instance coolOffSharedLocker_runs : CallsRun (coolOffSharedLocker E) (coolOffSharedLock E) :=
  nestedLocker_runs.

(** C26: The lockers of an engine with a shared lock session exclude within the
    process, whatever etcd and other processes do.  However the steps of the
    calls of any number of goroutines interleave (those on the in-memory map,
    on etcd sessions and mutexes, and on the counters are separate steps), no
    two goroutines hold the same key, from the return of [Lock] to the call of
    [Unlock]; nor do two goroutines use the etcd locker, whose locks within a
    session are reentrant, for the same key, from the call of its [Lock] to the
    return of its [Unlock].  Both hold with and without the cool-off locker
    around. *)
Theorem no_key_held_twice :
  (forall n (s s' : sharedLocker E) cs i j k,
     rtc client_step (s, replicate n Idle) (s', cs) ->
     (forall l l', cs !! i = Some (Holding k l) -> cs !! j = Some (Holding k l') -> i = j) /\
     (forall x y, cs !! i = Some x -> cs !! j = Some y -> uses_nested k x -> uses_nested k y -> i = j)) /\
  (forall n (s s' : coolOffSharedLocker E) cs i j k,
     rtc client_step (s, replicate n Idle) (s', cs) ->
     (forall l l', cs !! i = Some (Holding k l) -> cs !! j = Some (Holding k l') -> i = j) /\
     (forall x y, cs !! i = Some x -> cs !! j = Some y ->
        uses_nested k (nested_client x) -> uses_nested k (nested_client y) -> i = j)).
Proof.
  split; intros n s s' cs i j k Hr; split.
  - intros l l'. by eapply (holding_unique (LC := sharedLocker_calls)).
  - intros x y. by eapply (uses_nested_unique (LC1 := metricLocker_calls) (LC2 := metricLocker_calls)).
  - intros l l'. by eapply (holding_unique (LC := coolOffSharedLocker_calls)).
  - intros x y Hi Hj Hx Hy. apply nested_simulated in Hr.
    eapply (uses_nested_unique (LC1 := metricLocker_calls) (LC2 := metricLocker_calls) _ _ _ _ i j k
              (nested_client x) (nested_client y)); [exact Hr | | | exact Hx | exact Hy].
    + exact (list_lookup_fmap_Some_2 nested_client cs i x Hi).
    + exact (list_lookup_fmap_Some_2 nested_client cs j y Hj).
Qed.
End engine_lockers.
