(* ===== verification/Session.v ===== *)
(** * The session manager (concurrency/session_manager.go) *)
(** A singleton etcd session that is replaced when it dies.  [GetSession] runs
    under a mutex; each session it creates gets a goroutine that waits for the
    session to end and then clears the singleton under the same mutex.  The
    goroutines and the death of sessions are steps of the environment. *)
From S2P Require Import Prelude.

Section session_manager.
Context {session : Type} `{EqDecision session}.

Record SessionManager := mkSessionManager {
  sm_session : option session;
  (* the goroutines started and not yet finished, by the session they wait for *)
  waiting : list session
}.

Definition NewSessionManager : SessionManager := mkSessionManager None [].

(** [r] is what [newSession] would return during the call. *)
Definition GetSession (sm : SessionManager) (r : result session) : SessionManager * result session :=
  match sm_session sm with
  | Some s => (sm, inr s)
  | None =>
    match r with
    | inl err => (mkSessionManager None (waiting sm), inl err)
    | inr s => (mkSessionManager (Some s) (waiting sm ++ [s]), inr s)
    end
  end.

(** The end of the goroutine that waits for [s]. *)
Definition session_done (sm : SessionManager) (s : session) : SessionManager :=
  mkSessionManager None (filter (fun s' => s' <> s) (waiting sm)).

(** The manager, the sessions created so far and those that have ended. *)
Record world := mkWorld {
  w_sm : SessionManager;
  w_created : list session;
  w_ended : list session
}.

Inductive sm_step : world -> world -> Prop :=
| step_get w r sm' out :
    (* newSession returns sessions that did not exist before *)
    (forall s, r = inr s -> s ∉ w_created w) ->
    GetSession (w_sm w) r = (sm', out) ->
    sm_step w (mkWorld sm'
                 (match sm_session (w_sm w), r with None, inr s => s :: w_created w | _, _ => w_created w end)
                 (w_ended w))
| step_end w s :
    s ∈ w_created w -> sm_step w (mkWorld (w_sm w) (w_created w) (s :: w_ended w))
| step_clear w s :
    s ∈ waiting (w_sm w) -> s ∈ w_ended w ->
    sm_step w (mkWorld (session_done (w_sm w) s) (w_created w) (w_ended w)).

Record sm_inv (w : world) : Prop := {
  (* one goroutine, for the current session *)
  inv_waiting : waiting (w_sm w) = match sm_session (w_sm w) with Some s => [s] | None => [] end;
  (* the current session was created here, and the others have ended *)
  inv_created : forall s, sm_session (w_sm w) = Some s -> s ∈ w_created w;
  inv_others : forall s, s ∈ w_created w -> s ∈ w_ended w \/ sm_session (w_sm w) = Some s
}.

Lemma sm_inv_step w w' : sm_step w w' -> sm_inv w -> sm_inv w'.
Proof.
  intros Hs [Hw Hc Ho]. destruct Hs as [w r sm' out Hfresh Hget|w s Hin|w s Hin Hend].
  - unfold GetSession in Hget. destruct (w_sm w) as [[s|] ws] eqn:Ew; simpl in *.
    + injection Hget as <- <-. by split.
    + subst ws. destruct r as [e|s]; injection Hget as <- <-; split; simpl; try done.
      * by intros s' [= <-]; left.
      * intros s' [->|Hs']%elem_of_cons; [by right|]. destruct (Ho s' Hs') as [?|[=]]. by left.
  - split; simpl; [done|done|]. intros s' Hs'. destruct (Ho s' Hs'); [left; by right|by right].
  - rewrite Hw in Hin. destruct (sm_session (w_sm w)) as [s'|] eqn:Es; [|by apply elem_of_nil in Hin].
    apply list_elem_of_singleton in Hin as ->. split; simpl; [|done|].
    + rewrite Hw. by rewrite filter_cons, decide_False by tauto.
    + intros s Hs. destruct (Ho s Hs) as [?|[= ->]]; by left.
Qed.

(** C40: The session manager keeps a single session: in every reachable state
    exactly the current session has a goroutine waiting for its end, so no
    goroutine ever drops a session other than its own, and every session that
    was created and has not ended is the current one. *)
Theorem session_singleton (w : world)
    (Hsteps : rtc sm_step (mkWorld NewSessionManager [] []) w) :
  waiting (w_sm w) = match sm_session (w_sm w) with Some s => [s] | None => [] end /\
  forall s, s ∈ w_created w -> s ∉ w_ended w -> sm_session (w_sm w) = Some s.
Proof.
  assert (sm_inv w) as [Hw _ Ho].
  { assert (sm_inv (mkWorld NewSessionManager [] [])) as H0.
    { split; simpl; [done|done|]. intros s Hs. by apply elem_of_nil in Hs. }
    revert H0 Hsteps. generalize (mkWorld NewSessionManager [] []). intros w0 H0 Hs.
    induction Hs; eauto using sm_inv_step. }
  split; [done|]. intros s Hc Hne. by destruct (Ho s Hc).
Qed.
End session_manager.
