(* ===== verification/Etcd.v ===== *)
(** * Reading and watching etcd (rules/etcd.go, rules/int_crawler.go, rules/watcher.go) *)
(** [getCachedAPI] fetches all keys of a rule in one transaction, so that a
    rule is evaluated on one snapshot of the store; the key watcher turns the
    responses of a watch channel into single key changes.  The client's
    transaction and the watch channel are arguments. *)
From S2P Require Import Prelude GoString StaticRule.

(** ** The client *)
(** A transaction of gets returns, per operation, the key-value pairs found;
    a get returns the count and the pairs. *)
Class KV := {
  Txn_Then : list string -> result (list (list (string * string)));
  KV_Get : string -> result (nat * list (string * string))
}.

(** The transaction and the get answer from the store. *)
Record answers_from (kv : KV) (store : string -> option string) : Prop := {
  answers_txn : forall ops resps, Txn_Then ops = inr resps ->
    resps = (fun k => match store k with Some v => [(k, v)] | None => [] end) <$> ops;
  answers_get : forall k n kvs, KV_Get k = inr (n, kvs) ->
    n = length kvs /\ kvs = match store k with Some v => [(k, v)] | None => [] end
}.

(** ** The read APIs *)
Definition cacheReadAPI_get (values : gmap string string) : readAPI := fun key =>
  match values !! key with
  | None => inr None
  | Some value => inr (Some value)
  end.

Section read_api.
Context `{GoRange}.

(** [None] is the index panic of [resp.Kvs[0]]. *)
Definition etcdV3ReadAPI_get (kv : KV) (key : string) : option (result (option string)) :=
  match KV_Get key with
  | inl err => Some (inl err)
  | inr (count, kvs) =>
    if decide (count = 0) then Some (inr None)
    else match kvs with
         | (_, v) :: _ => Some (inr (Some v))
         | [] => None
         end
  end.

Definition etcdV3ReadAPI_getCachedAPI (kv : KV) (keys : list string) : result readAPI :=
  let uniqueKeys := fold_left (fun (m : gmap string bool) key => <[key := true]> m) keys ∅ in
  let ops := range_keys uniqueKeys in
  match Txn_Then ops with
  | inl err => inl err
  | inr responses =>
    let values :=
      fold_left (fun m r => fold_left (fun (m : gmap string string) '(k, v) => <[k := v]> m) r m)
        responses ∅ in
    inr (cacheReadAPI_get values)
  end.

(** [cacheReadAPI.getCachedAPI] returns the receiver. *)
Definition cacheReadAPI_getCachedAPI (values : gmap string string) (keys : list string) :
    result readAPI := inr (cacheReadAPI_get values).

Lemma uniqueKeys_lookup (keys : list string) (m : gmap string bool) k :
  is_Some (fold_left (fun m key => <[key := true]> m) keys m !! k) <-> k ∈ keys \/ is_Some (m !! k).
Proof.
  revert m. induction keys as [|k' keys IH]; intros m; simpl; [set_solver|].
  rewrite IH, lookup_insert_is_Some', elem_of_cons. naive_solver.
Qed.

Lemma responses_lookup (store : string -> option string) (ops : list string) (m : gmap string string) k :
  fold_left (fun m r => fold_left (fun (m : gmap string string) '(k, v) => <[k := v]> m) r m)
    ((fun k => match store k with Some v => [(k, v)] | None => [] end) <$> ops) m !! k =
  if decide (k ∈ ops) then match store k with Some v => Some v | None => m !! k end else m !! k.
Proof.
  revert m. induction ops as [|k' ops IH]; intros m; [by rewrite decide_False by set_solver|].
  rewrite fmap_cons. cbn [fold_left]. rewrite IH. clear IH.
  destruct (decide (k = k')) as [->|Hne].
  - rewrite (decide_True (P := k' ∈ k' :: ops)) by set_solver.
    destruct (store k') as [v|] eqn:Ev; simpl; rewrite ?lookup_insert_eq; by case_decide.
  - rewrite (decide_ext (k ∈ k' :: ops) (k ∈ ops)) by set_solver.
    destruct (store k') as [v|]; simpl; [|done]. by rewrite lookup_insert_ne by done.
Qed.

Lemma getCachedAPI_reads kv store keys api k :
  answers_from kv store -> etcdV3ReadAPI_getCachedAPI kv keys = inr api -> k ∈ keys ->
  api k = inr (store k).
Proof.
  intros Hkv Hg Hk. unfold etcdV3ReadAPI_getCachedAPI in Hg.
  destruct (Txn_Then _) as [err|resps] eqn:Et; [done|]. injection Hg as <-.
  apply (answers_txn _ _ Hkv) in Et as ->. unfold cacheReadAPI_get. rewrite responses_lookup.
  rewrite decide_True by (apply elem_of_range_keys, uniqueKeys_lookup; by left).
  rewrite lookup_empty. by destruct (store k).
Qed.

Lemma cached_satisfied kv store keys api r :
  answers_from kv store -> etcdV3ReadAPI_getCachedAPI kv keys = inr api ->
  (forall k, k ∈ getKeys r -> k ∈ keys) -> satisfied r api = inr (holds store r).
Proof.
  intros Hkv Hg Hsub. rewrite <- satisfied_store. apply satisfied_agree.
  intros k Hk. eapply getCachedAPI_reads; eauto.
Qed.

(** The transaction always succeeds. *)
Definition commits (kv : KV) : Prop := forall ops, exists resps, Txn_Then ops = inr resps.

Lemma getCachedAPI_fails kv keys err :
  etcdV3ReadAPI_getCachedAPI kv keys = inl err -> ~ commits kv.
Proof.
  unfold etcdV3ReadAPI_getCachedAPI. cbv zeta. intros Hg Hc.
  destruct (Hc (range_keys (fold_left (fun (m : gmap string bool) key => <[key := true]> m) keys ∅)))
    as [resps Hr]. by rewrite Hr in Hg.
Qed.

(** A rule evaluated on the cache that [getCachedAPI] fetched for (at least)
    its keys has the truth value the rule has in the snapshot of the store the
    transaction read, and evaluation cannot fail. *)
Theorem cached_evaluation (kv : KV) (store : string -> option string) (keys : list string)
    (api : readAPI) (r : staticRule) (Hkv : answers_from kv store)
    (Hget : etcdV3ReadAPI_getCachedAPI kv keys = inr api)
    (Hkeys : forall k, k ∈ getKeys r -> k ∈ keys) :
  satisfied r api = inr (holds store r).
Proof. by eapply cached_satisfied. Qed.

(** The single-key [get] agrees with the cache: it never panics and
    returns the value of the key in the store, or the error of the client. *)
Lemma get_reads_store (kv : KV) (store : string -> option string) (key : string)
    (Hkv : answers_from kv store) :
  etcdV3ReadAPI_get kv key =
  Some (match KV_Get key with inl err => inl err | inr _ => inr (store key) end).
Proof.
  unfold etcdV3ReadAPI_get. destruct (KV_Get key) as [err|[n kvs]] eqn:Eg; [done|].
  destruct (answers_get _ _ Hkv _ _ _ Eg) as [-> ->]. by destruct (store key).
Qed.
End read_api.

(** ** The key watcher *)
Record event := mkEvent {
  ev_delete : bool;
  ev_key : string;
  ev_value : string
}.

(** A watch context is numbered; the channel is the one opened with that
    context. *)
Record etcdV3KeyWatcher := mkEtcdV3KeyWatcher {
  kw_ch : option nat;
  kw_ctx : nat;
  kw_events : list event
}.

Definition newEtcdV3KeyWatcher : etcdV3KeyWatcher := mkEtcdV3KeyWatcher None 0 [].

(** What the select statement of [next] receives: the stop signal (with the
    error of closing the watcher), the end of the channel, or a response with
    its error or its events. *)
Inductive selection :=
| SelStop (closeErr : option string)
| SelClosed
| SelErr (err : string)
| SelEvents (evs : list event).

Definition ErrWatcherClosing : string := "Watcher closing".
Definition errChannelClosed : string := "Channel closed".
Definition errNoEvents : string :=
  "No events received from watcher channel; instantiating new channel".

Definition reset (kw : etcdV3KeyWatcher) : etcdV3KeyWatcher :=
  mkEtcdV3KeyWatcher None (S (kw_ctx kw)) (kw_events kw).

(** The part of [next] after the select. *)
Definition next_event (kw : etcdV3KeyWatcher) : etcdV3KeyWatcher * result (string * option string) :=
  match kw_events kw with
  | [] => (reset kw, inl errNoEvents)
  | ev :: evs =>
    let kw' := mkEtcdV3KeyWatcher (kw_ch kw) (kw_ctx kw) evs in
    if ev_delete ev then (kw', inr (ev_key ev, None))
    else (kw', inr (ev_key ev, Some (ev_value ev)))
  end.

(** [sel] is only looked at when no events are left. *)
Definition next (kw : etcdV3KeyWatcher) (sel : selection) :
    etcdV3KeyWatcher * result (string * option string) :=
  let kw1 := match kw_ch kw with
             | None => mkEtcdV3KeyWatcher (Some (kw_ctx kw)) (kw_ctx kw) (kw_events kw)
             | Some _ => kw
             end in
  match kw_events kw1 with
  | [] =>
    match sel with
    | SelStop closeErr => (reset kw1, inl (default ErrWatcherClosing closeErr))
    | SelClosed => (reset kw1, inl errChannelClosed)
    | SelErr err => (reset kw1, inl err)
    | SelEvents evs => next_event (mkEtcdV3KeyWatcher (kw_ch kw1) (kw_ctx kw1) evs)
    end
  | _ :: _ => next_event kw1
  end.

(** ** watcher.singleRun *)
Inductive watcher_action :=
| ActSleepMinute
| ActSleepSecond (logged : bool)
| ActProcess (delay : Z) (key : string) (value : option string).

(** [delay] is what [processDelay.Generate()] returns.  A negative or zero
    delay is not slept. *)
Definition watcher_singleRun (kw : etcdV3KeyWatcher) (sel : selection) (delay : Z) :
    etcdV3KeyWatcher * watcher_action :=
  let '(kw', r) := next kw sel in
  match r with
  | inl err =>
    if Contains err "connection refused" then (kw', ActSleepMinute)
    else (kw', ActSleepSecond (negb (bool_decide (err = ErrWatcherClosing))))
  | inr (key, value) => (kw', ActProcess (Z.max delay 0) key value)
  end.

(** Iterations of the loop of [watcher.run], from the [i]-th on: the loop ends
    when it sees the stop flag, which the [i]-th look finds to be [stopping i],
    and the [i]-th call of [Generate] returns [delay i].  A response is received
    only when the previous events are used up; when none is left [next] blocks. *)
Fixpoint watcher_loop (n : nat) (stopping : nat -> bool) (delay : nat -> Z) (i : nat)
    (kw : etcdV3KeyWatcher) (sels : list selection) : list watcher_action :=
  match n with
  | 0 => []
  | S n' =>
    if stopping i then []
    else match kw_events kw, sels with
         | [], [] => []
         | [], sel :: sels' =>
           let '(kw', act) := watcher_singleRun kw sel (delay i) in
           act :: watcher_loop n' stopping delay (S i) kw' sels'
         | _ :: _, _ =>
           let '(kw', act) := watcher_singleRun kw SelClosed (delay i) in
           act :: watcher_loop n' stopping delay (S i) kw' sels
         end
  end.

Definition processed (acts : list watcher_action) : list (string * option string) :=
  omap (fun a => match a with ActProcess _ k v => Some (k, v) | _ => None end) acts.

Definition event_change (ev : event) : string * option string :=
  (ev_key ev, if ev_delete ev then None else Some (ev_value ev)).

Definition sel_events (sel : selection) : list event :=
  match sel with SelEvents evs => evs | _ => [] end.

(** The number of iterations that use up the events and the responses. *)
Definition loop_bound (kw : etcdV3KeyWatcher) (sels : list selection) : nat :=
  length (kw_events kw) + sum_list_with (fun sel => S (length (sel_events sel))) sels.

Lemma next_queued kw sel ev evs :
  kw_events kw = ev :: evs ->
  exists kw', next kw sel = (kw', inr (event_change ev)) /\ kw_events kw' = evs.
Proof.
  intros He. unfold next. destruct (kw_ch kw); simpl; rewrite He; unfold next_event; simpl;
    rewrite ?He; unfold event_change; destruct (ev_delete ev); by eexists.
Qed.

Lemma next_received kw ev evs :
  kw_events kw = [] ->
  exists kw', next kw (SelEvents (ev :: evs)) = (kw', inr (event_change ev)) /\ kw_events kw' = evs.
Proof.
  intros He. unfold next. destruct (kw_ch kw); simpl; rewrite He; unfold next_event; simpl;
    unfold event_change; destruct (ev_delete ev); by eexists.
Qed.

(** A failed [next] leaves no channel behind: the next call opens a new one,
    with a new context. *)
Lemma next_failed kw sel kw' e :
  next kw sel = (kw', inl e) ->
  kw_events kw' = [] /\ kw_ch kw' = None /\ kw_ctx kw' = S (kw_ctx kw) /\ sel_events sel = [].
Proof.
  unfold next. destruct (kw_ch kw) as [c|]; simpl; destruct (kw_events kw) as [|ev evs] eqn:He.
  - destruct sel as [ce| |er|[|ev evs]]; simpl; try (by intros [= <- <-]; simpl; rewrite ?He).
    unfold next_event; simpl. by destruct (ev_delete ev).
  - unfold next_event; rewrite He; simpl. by destruct (ev_delete ev).
  - destruct sel as [ce| |er|[|ev evs]]; simpl; try (by intros [= <- <-]; simpl; rewrite ?He).
    unfold next_event; simpl. by destruct (ev_delete ev).
  - unfold next_event; simpl. by destruct (ev_delete ev).
Qed.

(** What one iteration does with the events that are queued or received. *)
Lemma singleRun_events kw sel delay :
  let evs := match kw_events kw with [] => sel_events sel | evs => evs end in
  let '(kw', act) := watcher_singleRun kw sel delay in
  kw_events kw' = tail evs /\ processed [act] = event_change <$> take 1 evs.
Proof.
  unfold watcher_singleRun. destruct (kw_events kw) as [|ev evs] eqn:He.
  - destruct (next kw sel) as [kw' [e|[k v]]] eqn:En.
    + destruct (next_failed _ _ _ _ En) as (He' & _ & _ & Hs). rewrite Hs.
      by destruct (Contains e "connection refused").
    + destruct (sel_events sel) as [|ev evs] eqn:Hs.
      { exfalso. unfold next in En. destruct (kw_ch kw); simpl in En; rewrite He in En;
          destruct sel as [| | |[|]]; simplify_eq. }
      destruct sel as [| | |evs']; simplify_eq/=.
      destruct (next_received kw ev evs He) as (kw2 & En2 & He2). rewrite En in En2.
      destruct (event_change ev) as [k' v'] eqn:Hc. by injection En2 as -> -> ->.
  - destruct (next_queued kw sel ev evs He) as (kw' & -> & He').
    destruct (event_change ev) as [k v] eqn:Hc. simpl. by rewrite Hc.
Qed.

Lemma processed_cons act acts : processed (act :: acts) = processed [act] ++ processed acts.
Proof. unfold processed. simpl. by destruct (match act with ActProcess _ k v => _ | _ => _ end). Qed.

Lemma take_tail_1 {A} (l : list A) : take 1 l ++ tail l = l.
Proof. by destruct l. Qed.

(** Nothing is made up, repeated or reordered, whenever the loop ends. *)
Lemma watcher_loop_prefix n stopping delay i kw sels :
  processed (watcher_loop n stopping delay i kw sels) `prefix_of`
  (event_change <$> (kw_events kw ++ flat_map sel_events sels)).
Proof.
  revert i kw sels. induction n as [|n IH]; intros i kw sels; simpl; [apply prefix_nil|].
  destruct (stopping i); [apply prefix_nil|].
  destruct (kw_events kw) as [|ev evs] eqn:He.
  - destruct sels as [|sel sels]; [apply prefix_nil|]. pose proof (singleRun_events kw sel (delay i)) as Hrun.
    rewrite He in Hrun. destruct (watcher_singleRun kw sel (delay i)) as [kw' act]. destruct Hrun as [He' Hp].
    rewrite processed_cons, Hp. simpl. rewrite <- (take_tail_1 (sel_events sel)) at 2.
    rewrite <- app_assoc, fmap_app, <- He'. apply prefix_app, IH.
  - pose proof (singleRun_events kw SelClosed (delay i)) as Hrun. rewrite He in Hrun.
    destruct (watcher_singleRun kw SelClosed (delay i)) as [kw' act]. destruct Hrun as [He' Hp].
    rewrite processed_cons, Hp. rewrite <- (take_tail_1 (ev :: evs)) at 2.
    rewrite <- app_assoc, fmap_app, <- He'. apply prefix_app, IH.
Qed.

(** Enough iterations without the flag process everything. *)
Lemma watcher_loop_processed n stopping delay i kw sels :
  loop_bound kw sels <= n -> (forall j, i <= j < i + n -> stopping j = false) ->
  processed (watcher_loop n stopping delay i kw sels) = event_change <$> (kw_events kw ++ flat_map sel_events sels).
Proof.
  revert i kw sels. induction n as [|n IH]; intros i kw sels Hn Hst; unfold loop_bound in *.
  { destruct (kw_events kw); [|simpl in Hn; lia]. destruct sels; simpl in Hn; [done | lia]. }
  cbn [watcher_loop]. rewrite Hst by lia. destruct (kw_events kw) as [|ev evs] eqn:He.
  - destruct sels as [|sel sels]; [done|]. simpl in Hn. pose proof (singleRun_events kw sel (delay i)) as Hrun.
    rewrite He in Hrun. destruct (watcher_singleRun kw sel (delay i)) as [kw' act]. destruct Hrun as [He' Hp].
    rewrite processed_cons, Hp, IH; [|rewrite He'; destruct (sel_events sel); simpl in *; lia | intros; apply Hst; lia].
    simpl. by rewrite He', <- fmap_app, app_assoc, take_tail_1.
  - pose proof (singleRun_events kw SelClosed (delay i)) as Hrun. rewrite He in Hrun.
    destruct (watcher_singleRun kw SelClosed (delay i)) as [kw' act]. destruct Hrun as [He' Hp].
    rewrite processed_cons, Hp, IH; [|rewrite He'; simpl in *; lia | intros; apply Hst; lia].
    by rewrite He', <- fmap_app, app_assoc, take_tail_1.
Qed.

(** Nothing is done after the flag was seen. *)
Lemma watcher_loop_stops n stopping delay i kw sels m :
  stopping (i + m) = true -> length (watcher_loop n stopping delay i kw sels) <= m.
Proof.
  revert i kw sels m. induction n as [|n IH]; intros i kw sels m Hm; simpl; [lia|].
  destruct (stopping i) eqn:Hi; [simpl; lia|]. destruct m as [|m]; [rewrite Nat.add_0_r in Hm; congruence|].
  rewrite Nat.add_succ_r in Hm.
  destruct (kw_events kw); [destruct sels as [|sel sels]; [simpl; lia|]|];
    destruct (watcher_singleRun _ _ _) as [kw' act]; simpl; apply le_n_S, IH; exact Hm.
Qed.

(** C23: The watcher hands the events of the watch channel to the key processor
    once each and in order, a deletion as a nil value, whatever errors and empty
    responses come in between: what it has processed is always a prefix of the
    events received, it does nothing more once it has seen its stop flag, and as
    long as it does not see the flag a bounded number of iterations uses up all
    events. *)
Theorem watcher_delivers_events (n : nat) (stopping : nat -> bool) (delay : nat -> Z) (sels : list selection) :
  let acts := watcher_loop n stopping delay 0 newEtcdV3KeyWatcher sels in
  let changes := event_change <$> flat_map sel_events sels in
  processed acts `prefix_of` changes /\
  (forall i, stopping i = true -> length acts <= i) /\
  (loop_bound newEtcdV3KeyWatcher sels <= n -> (forall i, i < n -> stopping i = false) ->
   processed acts = changes).
Proof.
  intros acts changes. split_and!.
  - apply (watcher_loop_prefix n stopping delay 0 newEtcdV3KeyWatcher).
  - intros i. apply (watcher_loop_stops n stopping delay 0).
  - intros Hn Hst. unfold acts. rewrite watcher_loop_processed; [done | done |]. intros j Hj. apply Hst. lia.
Qed.
