(* ===== verification/Collector.v ===== *)
(** * Metrics collectors (rules/metrics_collector.go, rules/mock_metrics_collector.go) *)
(** Besides its Prometheus metrics the engine reports to a collector that the
    application supplies.  The interfaces are classes over the state of a
    collector; the no-op collector, the adaptor that upgrades a basic collector
    and the recording mock are their instances.  The calls of the key watcher
    and of the crawler are modelled against the interface. *)
From S2P Require Import Prelude GoString Etcd.

(** ** The interfaces *)
Class MetricsCollector (M : Type) := {
  mc_IncLockMetric : string -> string -> bool -> M -> M;
  mc_IncSatisfiedThenNot : string -> string -> string -> M -> M;
  mc_TimesEvaluated : string -> string -> Z -> M -> M;
  mc_WorkerQueueWaitTime : string -> Z -> M -> M
}.

Class AdvancedMetricsCollector (M : Type) := {
  amc_base :: MetricsCollector M;
  mc_ObserveWatchEvents : string -> Z -> Z -> M -> M
}.

(** ** The no-op collector *)
Definition noOpMetricsCollector : Type := unit.

#[export] Instance newMetricsCollector : AdvancedMetricsCollector noOpMetricsCollector := {|
  amc_base := {|
    mc_IncLockMetric := fun _ _ _ m => m;
    mc_IncSatisfiedThenNot := fun _ _ _ m => m;
    mc_TimesEvaluated := fun _ _ _ m => m;
    mc_WorkerQueueWaitTime := fun _ _ m => m
  |};
  mc_ObserveWatchEvents := fun _ _ _ m => m
|}.

(** ** Upgrading a collector *)
(** The adaptor embeds a collector and ignores watch events. *)
Definition advancedMetricsCollectorAdaptor {M} (B : MetricsCollector M) : AdvancedMetricsCollector M := {|
  amc_base := B;
  mc_ObserveWatchEvents := fun _ _ _ m => m
|}.

(** What the options may hold: a collector that only has the basic methods, or
    one that also passes the type assertion to the advanced interface. *)
Inductive suppliedCollector (M : Type) :=
| basicCollector (B : MetricsCollector M)
| advancedCollector (A : AdvancedMetricsCollector M).
Arguments basicCollector {M}.
Arguments advancedCollector {M}.

Definition engine_metrics {M} (baseMetrics : suppliedCollector M) : AdvancedMetricsCollector M :=
  match baseMetrics with
  | advancedCollector A => A
  | basicCollector B => advancedMetricsCollectorAdaptor B
  end.

(** ** The recording mock *)
Record MockMetricsCollector := mkMockMetricsCollector {
  IncLockMetricPattern : list string;
  IncLockMetricLockSuccess : list bool;
  IncLockMetricMethod : list string;
  IncSatisfiedThenNotPattern : list string;
  IncIncSatisfiedThenNotPhase : list string;
  IncIncSatisfiedThenNotMethod : list string;
  TimesEvaluatedRuleID : list string;
  TimesEvaluatedCount : list Z;
  TimesEvaluatedMethod : list string;
  WorkerQueueWaitTimeTimes : list Z;
  WorkerQueueWaitTimeMethod : list string;
  ObserveWatchEventsPrefixes : list string;
  ObserveWatchEventsEvents : list Z;
  ObserveWatchEventsTotalBytes : list Z
}.

Definition NewMockMetricsCollector : MockMetricsCollector :=
  mkMockMetricsCollector [] [] [] [] [] [] [] [] [] [] [] [] [] [].

Definition mock_IncLockMetric (methodName pattern : string) (lockSucceeded : bool)
    (m : MockMetricsCollector) : MockMetricsCollector :=
  let '(mkMockMetricsCollector lp ls lm sp sh sm er ec em qt qm op oe ob) := m in
  mkMockMetricsCollector (lp ++ [pattern]) (ls ++ [lockSucceeded]) (lm ++ [methodName])
    sp sh sm er ec em qt qm op oe ob.

Definition mock_IncSatisfiedThenNot (methodName pattern phaseName : string)
    (m : MockMetricsCollector) : MockMetricsCollector :=
  let '(mkMockMetricsCollector lp ls lm sp sh sm er ec em qt qm op oe ob) := m in
  mkMockMetricsCollector lp ls lm (sp ++ [pattern]) (sh ++ [phaseName]) (sm ++ [methodName])
    er ec em qt qm op oe ob.

Definition mock_TimesEvaluated (methodName ruleID : string) (count : Z)
    (m : MockMetricsCollector) : MockMetricsCollector :=
  let '(mkMockMetricsCollector lp ls lm sp sh sm er ec em qt qm op oe ob) := m in
  mkMockMetricsCollector lp ls lm sp sh sm (er ++ [ruleID]) (ec ++ [count]) (em ++ [methodName])
    qt qm op oe ob.

Definition mock_WorkerQueueWaitTime (methodName : string) (startTime : Z)
    (m : MockMetricsCollector) : MockMetricsCollector :=
  let '(mkMockMetricsCollector lp ls lm sp sh sm er ec em qt qm op oe ob) := m in
  mkMockMetricsCollector lp ls lm sp sh sm er ec em (qt ++ [startTime]) (qm ++ [methodName]) op oe ob.

Definition mock_ObserveWatchEvents (prefix : string) (events totalBytes : Z)
    (m : MockMetricsCollector) : MockMetricsCollector :=
  let '(mkMockMetricsCollector lp ls lm sp sh sm er ec em qt qm op oe ob) := m in
  mkMockMetricsCollector lp ls lm sp sh sm er ec em qt qm (op ++ [prefix]) (oe ++ [events]) (ob ++ [totalBytes]).

#[export] Instance mock_collector : AdvancedMetricsCollector MockMetricsCollector := {|
  amc_base := {|
    mc_IncLockMetric := mock_IncLockMetric;
    mc_IncSatisfiedThenNot := mock_IncSatisfiedThenNot;
    mc_TimesEvaluated := mock_TimesEvaluated;
    mc_WorkerQueueWaitTime := mock_WorkerQueueWaitTime
  |};
  mc_ObserveWatchEvents := mock_ObserveWatchEvents
|}.

(** The calls of a collector, and its state after a sequence of them. *)
Inductive collector_call :=
| CallLock (methodName pattern : string) (lockSucceeded : bool)
| CallSatisfiedThenNot (methodName pattern phaseName : string)
| CallTimesEvaluated (methodName ruleID : string) (count : Z)
| CallQueueWait (methodName : string) (startTime : Z)
| CallWatchEvents (prefix : string) (events totalBytes : Z).

Definition call {M} `{AdvancedMetricsCollector M} (m : M) (c : collector_call) : M :=
  match c with
  | CallLock n p b => mc_IncLockMetric n p b m
  | CallSatisfiedThenNot n p ph => mc_IncSatisfiedThenNot n p ph m
  | CallTimesEvaluated n r k => mc_TimesEvaluated n r k m
  | CallQueueWait n t => mc_WorkerQueueWaitTime n t m
  | CallWatchEvents p k b => mc_ObserveWatchEvents p k b m
  end.

Definition calls {M} `{AdvancedMetricsCollector M} (m : M) (cs : list collector_call) : M :=
  fold_left call cs m.

(** What the lists of the mock should hold after some calls. *)
Definition recorded (cs : list collector_call) : MockMetricsCollector :=
  let locks := omap (fun c => match c with CallLock n p b => Some (n, p, b) | _ => None end) cs in
  let nots := omap (fun c => match c with CallSatisfiedThenNot n p h => Some (n, p, h) | _ => None end) cs in
  let times := omap (fun c => match c with CallTimesEvaluated n r k => Some (n, r, k) | _ => None end) cs in
  let waits := omap (fun c => match c with CallQueueWait n t => Some (n, t) | _ => None end) cs in
  let events := omap (fun c => match c with CallWatchEvents p k b => Some (p, k, b) | _ => None end) cs in
  mkMockMetricsCollector (snd <$> (fst <$> locks)) (snd <$> locks) (fst <$> (fst <$> locks))
    (snd <$> (fst <$> nots)) (snd <$> nots) (fst <$> (fst <$> nots))
    (snd <$> (fst <$> times)) (snd <$> times) (fst <$> (fst <$> times))
    (snd <$> waits) (fst <$> waits)
    (fst <$> (fst <$> events)) (snd <$> (fst <$> events)) (snd <$> events).

(** The mock holds, in parallel lists, the arguments of its calls in order. *)
Lemma mock_records cs : calls NewMockMetricsCollector cs = recorded cs.
Proof.
  induction cs as [|c cs IH] using rev_ind; [done|].
  unfold calls in *. rewrite fold_left_app, IH. unfold recorded. simpl.
  destruct c; simpl; rewrite ?omap_app, ?fmap_app; simpl; by rewrite ?app_nil_r.
Qed.

(** ** What the key watcher reports *)
Section watch_events.
Context (prefix : string) (size : event -> Z).

Definition total_size (evs : list event) : Z := foldr (fun ev z => size ev + z)%Z 0%Z evs.

Definition observe (evs : list event) : collector_call :=
  CallWatchEvents prefix (Z.of_nat (length evs)) (total_size evs).

(** The calls one [next] makes: the events that are queued, or that the
    response has just brought, are counted before the first of them is taken. *)
Definition next_calls (kw : etcdV3KeyWatcher) (sel : selection) : list collector_call :=
  match kw_events kw, sel with
  | [], SelEvents [] | [], SelStop _ | [], SelClosed | [], SelErr _ => []
  | [], SelEvents evs => [observe evs]
  | evs, _ => [observe evs]
  end.

(** The calls of the iterations of [watcher_loop]; the first one is that of
    [newEtcdV3KeyWatcher]. *)
Fixpoint loop_calls (n : nat) (stopping : nat -> bool) (delay : nat -> Z) (i : nat) (kw : etcdV3KeyWatcher)
    (sels : list selection) : list collector_call :=
  match n with
  | 0 => []
  | S n' =>
    if stopping i then []
    else match kw_events kw, sels with
         | [], [] => []
         | [], sel :: sels' =>
           next_calls kw sel ++
           loop_calls n' stopping delay (S i) (watcher_singleRun kw sel (delay i)).1 sels'
         | _ :: _, _ =>
           next_calls kw SelClosed ++
           loop_calls n' stopping delay (S i) (watcher_singleRun kw SelClosed (delay i)).1 sels
         end
  end.

Definition watcher_calls (n : nat) (stopping : nat -> bool) (delay : nat -> Z) (sels : list selection) :
    list collector_call :=
  CallWatchEvents prefix 0 0 :: loop_calls n stopping delay 0 newEtcdV3KeyWatcher sels.

(** The remaining events of a batch are reported again each time one is taken. *)
Fixpoint batch_calls (evs : list event) : list collector_call :=
  match evs with
  | [] => []
  | _ :: evs' => observe evs :: batch_calls evs'
  end.

Lemma loop_calls_batches n stopping delay i kw sels :
  loop_bound kw sels <= n -> (forall j, i <= j < i + n -> stopping j = false) ->
  loop_calls n stopping delay i kw sels =
  batch_calls (kw_events kw) ++ flat_map (fun sel => batch_calls (sel_events sel)) sels.
Proof.
  revert i kw sels. induction n as [|n IH]; intros i kw sels Hn Hst; unfold loop_bound in *.
  { destruct (kw_events kw); [|simpl in Hn; lia]. destruct sels; simpl in Hn; [done | lia]. }
  pose proof (fun sel => singleRun_events kw sel (delay i)) as Hev. cbn [loop_calls]. rewrite Hst by lia.
  unfold next_calls. destruct (kw_events kw) as [|ev evs] eqn:He.
  - destruct sels as [|sel sels]; [done|]. simpl in Hn. specialize (Hev sel).
    destruct (watcher_singleRun kw sel (delay i)) as [kw' act]. destruct Hev as [He' _].
    rewrite IH; [|simpl; rewrite He'; destruct (sel_events sel); simpl in *; lia | intros; apply Hst; lia].
    simpl. rewrite He'. by destruct sel as [| | |[|ev evs]].
  - specialize (Hev SelClosed). destruct (watcher_singleRun kw SelClosed (delay i)) as [kw' act].
    destruct Hev as [He' _]. rewrite IH; [|simpl; rewrite He'; simpl in *; lia | intros; apply Hst; lia].
    simpl. by rewrite He'.
Qed.

Definition reported_events (cs : list collector_call) : Z :=
  foldr (fun c z => match c with CallWatchEvents _ k _ => k + z | _ => z end)%Z 0%Z cs.

Lemma reported_app cs cs' : reported_events (cs ++ cs') = (reported_events cs + reported_events cs')%Z.
Proof. unfold reported_events. induction cs as [|[] cs IH]; simpl; lia. Qed.

Lemma batch_reported evs :
  (2 * reported_events (batch_calls evs) = Z.of_nat (length evs) * (Z.of_nat (length evs) + 1))%Z.
Proof. induction evs as [|ev evs IH]; [done|]. cbn [batch_calls]. simpl in *. lia. Qed.

Lemma watcher_reported n stopping delay sels :
  loop_bound newEtcdV3KeyWatcher sels <= n -> (forall i, i < n -> stopping i = false) ->
  (2 * reported_events (watcher_calls n stopping delay sels) =
   foldr (fun k z => k * (k + 1) + z) 0 ((fun sel => Z.of_nat (length (sel_events sel))) <$> sels))%Z.
Proof.
  intros Hn Hst. unfold watcher_calls. simpl. rewrite loop_calls_batches; [|done | intros; apply Hst; lia].
  simpl. clear Hn Hst.
  induction sels as [|sel sels IH]; [done|]. rewrite fmap_cons. simpl. rewrite reported_app.
  pose proof (batch_reported (sel_events sel)). lia.
Qed.

(** k (k+1) / 2 is at least k, and k only when k is 0 or 1. *)
Lemma triangular_sum (l : list Z) :
  Forall (fun k => 0 <= k)%Z l ->
  (2 * foldr Z.add 0 l <= foldr (fun k z => k * (k + 1) + z) 0 l)%Z /\
  (2 * foldr Z.add 0 l = foldr (fun k z => k * (k + 1) + z) 0 l <-> Forall (fun k => k <= 1) l)%Z.
Proof.
  induction 1 as [|k l Hk _ [IH1 IH2]]; [by split|]. rewrite Forall_cons, <- IH2. simpl.
  split; [nia|]. split; [intros Heq; split; nia | nia].
Qed.

(** The watcher reports more events than it receives.  [next] reports the
    whole queue each time it takes an event from it, so a response with k
    events adds k + (k-1) + ... + 1 to the count of the collector; the total is
    the number of events received exactly when no response has more than one. *)
Theorem watch_events_overcounted (n : nat) (stopping : nat -> bool) (delay : nat -> Z) (sels : list selection)
    (Hn : loop_bound newEtcdV3KeyWatcher sels <= n) (Hrunning : forall i, i < n -> stopping i = false) :
  let m := calls NewMockMetricsCollector (watcher_calls n stopping delay sels) in
  let batches := (fun sel => Z.of_nat (length (sel_events sel))) <$> sels in
  (2 * foldr Z.add 0 (ObserveWatchEventsEvents m) = foldr (fun k z => k * (k + 1) + z) 0 batches)%Z /\
  (foldr Z.add 0 (ObserveWatchEventsEvents m) = Z.of_nat (length (flat_map sel_events sels)) <->
   Forall (fun k => k <= 1) batches)%Z.
Proof.
  intros m batches.
  assert (foldr Z.add 0%Z (ObserveWatchEventsEvents m) = reported_events (watcher_calls n stopping delay sels)) as ->.
  { unfold m. rewrite mock_records. simpl. induction (loop_calls n _ _ _ _ sels) as [|[] cs IH]; simpl in *; lia. }
  pose proof (watcher_reported n stopping delay sels Hn Hrunning) as Htot. fold batches in Htot. split; [done|].
  assert (Z.of_nat (length (flat_map sel_events sels)) = foldr Z.add 0 batches)%Z as ->.
  { unfold batches. clear. induction sels as [|sel sels IH]; [done|].
    rewrite fmap_cons. simpl. rewrite length_app. lia. }
  destruct (triangular_sum batches) as [_ <-]; [|lia].
  apply Forall_fmap, Forall_true. intros sel. simpl. lia.
Qed.
End watch_events.

(** ** What the crawler reports *)
(** The counts of a run, one call per rule. *)
Definition crawler_calls `{GoRange} (rulesProcessedCount : gmap string nat) : list collector_call :=
  (fun '(ruleID, count) => CallTimesEvaluated "crawler" ruleID (Z.of_nat count)) <$> range rulesProcessedCount.

(** Each rule is reported once, with its count. *)
Lemma crawler_calls_elem `{GoRange} counts methodName ruleID k :
  CallTimesEvaluated methodName ruleID k ∈ crawler_calls counts <->
  methodName = "crawler" /\ exists n, counts !! ruleID = Some n /\ k = Z.of_nat n.
Proof.
  unfold crawler_calls. rewrite list_elem_of_fmap. split.
  - intros ([id n] & [= -> -> ->] & Hin). split; [done|]. exists n. by rewrite <- elem_of_range.
  - intros (-> & n & Hn & ->). exists (ruleID, n). by rewrite elem_of_range.
Qed.
