(* ===== verification/Mocks.v ===== *)
(** * Mocks and the test store (rules/lock/mock.go, rules/mock_wrap_watcher.go, rules/teststore/etcd.go) *)
(** The mocks the package exports for tests.  The mock lockers are instances of
    the locker interface; the watcher wrapper is a goroutine that forwards the
    responses of a watch channel and records them, modelled as a step
    relation. *)
From S2P Require Import Prelude GoString Lock Etcd.

(** ** The mock locker *)
(** [Channel] are the values the locks have sent on the channel. *)
Record MockLocker := mkMockLocker {
  ml_Channel : list bool;
  ErrorMsg : option string
}.

(** A [mockLock] only holds the channel of its locker. *)
Definition mockLock : Type := unit.

Definition MockLocker_Lock (tlkr : MockLocker) (key : string) : MockLocker * result mockLock :=
  match ErrorMsg tlkr with
  | Some msg => (tlkr, inl msg)
  | None => (tlkr, inr tt)
  end.

Definition mockLock_Unlock (tlkr : MockLocker) (tl : mockLock) : MockLocker * option string :=
  (mkMockLocker (ml_Channel tlkr ++ [true]) (ErrorMsg tlkr), None).

#[export] Instance mock_locker : RuleLocker MockLocker mockLock := {|
  Lock := fun _ s key _ => MockLocker_Lock s key;
  Unlock := fun _ s l _ => mockLock_Unlock s l
|}.

(** The mock does not exclude anybody: it cannot keep the promise of the
    lockers of the engine. *)
Lemma mock_locker_not_exclusive : ExclusiveLocker MockLocker mockLock -> False.
Proof.
  intros E. set (s := mkMockLocker [] None).
  assert (Lock 0%Z s "k" [] = (s, inr tt)) as Hlock by reflexivity.
  apply Lock_ok in Hlock as (_ & Hfree & Hbusy & _). congruence.
Qed.

(** *** Lockers made from functions *)
Section func_mocks.
Context {S L : Type}.
Variable LockF : Z -> S -> string -> list Option -> S * result L.
Variable UnlockF : Z -> S -> L -> list Option -> S * option string.

Definition FuncMockLocker : RuleLocker S L := {| Lock := LockF; Unlock := UnlockF |}.
End func_mocks.

(** ** The watcher wrapper *)
(** A response of a watch channel; its zero value is what a receive from a
    closed channel yields. *)
Record WatchResponse := mkWatchResponse {
  wr_Err : option string;
  wr_Events : list event
}.

Definition zero_response : WatchResponse := mkWatchResponse None [].

(** What the select of the key watcher gets when it receives the response from
    an open channel. *)
Definition response_selection (wr : WatchResponse) : selection :=
  match wr_Err wr with
  | Some err => SelErr err
  | None => SelEvents (wr_Events wr)
  end.

(** The client's watchers; [Watch] yields the responses its channel delivers
    before it is closed. *)
Class Watcher (W : Type) := {
  Watch : W -> string -> list WatchResponse;
  RequestProgress : W -> option string;
  Close : W -> option string
}.

Section wrapper.
Context {W : Type} `{Watcher W}.

Record MockWatcherWrapper := mkMockWatcherWrapper {
  Responses : list WatchResponse;
  KvWatcher : W
}.

(** [WrapWatcher] replaces the watcher of the one wrapper there is. *)
Definition WrapWatcher (mww : MockWatcherWrapper) (kvw : W) : MockWatcherWrapper :=
  mkMockWatcherWrapper (Responses mww) kvw.

Definition Mock_RequestProgress (ww : MockWatcherWrapper) : option string := RequestProgress (KvWatcher ww).

Definition Mock_Close (ww : MockWatcherWrapper) : option string := Close (KvWatcher ww).

(** The goroutine that [Watch] starts: what its source still delivers, the
    response it is sending, and what has been received from the channel it
    returned. *)
Record forwarder := mkForwarder {
  fw_in : list WatchResponse;
  fw_sending : option WatchResponse;
  fw_out : list WatchResponse
}.

Definition Mock_Watch (ww : MockWatcherWrapper) (key : string) : forwarder :=
  mkForwarder (Watch (KvWatcher ww) key) None [].

(** The result of [<-watcherChan]: the next response, or the zero value once the
    channel is closed. *)
Definition receive (inp : list WatchResponse) : WatchResponse * list WatchResponse :=
  match inp with
  | [] => (zero_response, [])
  | r :: inp' => (r, inp')
  end.

Inductive forward_step : MockWatcherWrapper * forwarder -> MockWatcherWrapper * forwarder -> Prop :=
| forward_receive ww inp out r inp' :
    receive inp = (r, inp') ->
    forward_step (ww, mkForwarder inp None out)
      (mkMockWatcherWrapper (Responses ww ++ [r]) (KvWatcher ww), mkForwarder inp' (Some r) out)
| forward_send ww inp r out :
    forward_step (ww, mkForwarder inp (Some r) out) (ww, mkForwarder inp None (out ++ [r])).

(** The goroutine never ends: it always waits for a receive or for a send. *)
Lemma forwarder_runs_on ww fw : exists st', forward_step (ww, fw) st'.
Proof.
  destruct fw as [inp [r|] out]; [eexists; apply forward_send|].
  destruct (receive inp) as [r inp'] eqn:Hr. eexists. by apply forward_receive.
Qed.

(** The responses forwarded so far: those of the source in order and, once it
    is closed, empty responses. *)
Record forwarded (before source : list WatchResponse) (st : MockWatcherWrapper * forwarder) : Prop := {
  fwd_recorded : Responses st.1 = before ++ fw_out st.2 ++ option_list (fw_sending st.2);
  fwd_order : exists zeros,
    fw_out st.2 ++ option_list (fw_sending st.2) ++ fw_in st.2 = source ++ replicate zeros zero_response
}.

Lemma forwarded_step before source st st' :
  forward_step st st' -> forwarded before source st -> forwarded before source st'.
Proof.
  intros [ww inp out r inp' Hr|ww inp r out] [Hrec [zeros Hord]]; simpl in *.
  - unfold receive in Hr. destruct inp as [|r0 inp]; injection Hr as <- <-; split; simpl.
    + by rewrite Hrec, app_nil_r, <- app_assoc.
    + exists (S zeros). rewrite app_nil_r in Hord. rewrite Hord, replicate_S_end. by rewrite app_assoc.
    + by rewrite Hrec, app_nil_r, <- app_assoc.
    + by exists zeros.
  - split; simpl.
    + rewrite Hrec. by rewrite app_nil_r.
    + exists zeros. rewrite <- Hord. by rewrite <- app_assoc.
Qed.

(** Whatever the interleaving with the receiver, every response is recorded
    before it is delivered, nothing is lost, reordered or repeated, and the only
    responses the source did not send are empty ones, after its end. *)
Lemma Mock_Watch_forwards ww key st :
  rtc forward_step (ww, Mock_Watch ww key) st ->
  Responses st.1 = Responses ww ++ fw_out st.2 ++ option_list (fw_sending st.2) /\
  exists zeros, fw_out st.2 ++ option_list (fw_sending st.2) ++ fw_in st.2 =
    Watch (KvWatcher ww) key ++ replicate zeros zero_response.
Proof.
  intros Hr. assert (forwarded (Responses ww) (Watch (KvWatcher ww) key) st) as [? ?]; [|done].
  eapply (rtc_invariant _ _ _ _ (forwarded_step _ _) Hr).
  split; simpl; [by rewrite !app_nil_r | by exists 0; rewrite app_nil_r].
Qed.

Lemma zero_response_events n : flat_map sel_events (response_selection <$> replicate n zero_response) = [].
Proof. induction n as [|n IH]; [done|]. simpl. exact IH. Qed.

(** The changes the engine processes are those it would process without the
    wrapper, as far as the responses have been delivered. *)
Lemma wrapper_same_changes ww key st n stopping delay :
  rtc forward_step (ww, Mock_Watch ww key) st ->
  let delivered := response_selection <$> fw_out st.2 in
  let direct := response_selection <$> Watch (KvWatcher ww) key in
  processed (watcher_loop n stopping delay 0 newEtcdV3KeyWatcher delivered) `prefix_of`
  (event_change <$> flat_map sel_events direct).
Proof.
  intros Hr delivered direct. etrans; [apply watcher_loop_prefix|]. simpl.
  destruct (Mock_Watch_forwards ww key st Hr) as (_ & zeros & Hord).
  apply (f_equal (fun l => flat_map sel_events (response_selection <$> l))) in Hord.
  rewrite !fmap_app, !flat_map_app, zero_response_events, app_nil_r in Hord.
  unfold direct. rewrite <- Hord, fmap_app. by eexists.
Qed.

(** After the source has been closed the wrapper records an empty response. *)
Lemma wrapper_after_close ww out :
  exists st', forward_step (ww, mkForwarder [] None out) st' /\ zero_response ∈ Responses st'.1.
Proof. eexists. split; [by apply forward_receive|]. simpl. set_solver. Qed.
End wrapper.

(** ** The store of the tests *)
(** [Delete] with [WithPrefix]. *)
Definition delete_prefix (prefix : string) (store : gmap string string) : gmap string string :=
  filter (fun kv => HasPrefix kv.1 prefix = false) store.

(** [None] is the failure of the test on an error of the client. *)
Definition InitV3Etcd (newErr deleteErr : option string) (store : gmap string string) :
    option (gmap string string) :=
  match newErr, deleteErr with
  | None, None => Some (delete_prefix slash_str store)
  | _, _ => None
  end.

Lemma lookup_delete_prefix prefix store k :
  delete_prefix prefix store !! k = if HasPrefix k prefix then None else store !! k.
Proof.
  unfold delete_prefix. destruct (HasPrefix k prefix) eqn:Hp.
  - apply map_lookup_filter_None. right. intros v _. simpl. by rewrite Hp.
  - destruct (store !! k) as [v|] eqn:Hk.
    + by apply map_lookup_filter_Some.
    + apply map_lookup_filter_None. by left.
Qed.

(** The keys of the engine start with a slash: a test starts without any. *)
Lemma InitV3Etcd_clean store store' k :
  InitV3Etcd None None store = Some store' -> HasPrefix k slash_str = true -> store' !! k = None.
Proof. intros [= <-] Hk. by rewrite lookup_delete_prefix, Hk. Qed.
