(* ===== verification/KeyProcessor.v ===== *)
(** * The key processor (rules/key_processor.go, rules/task.go) *)
(** For a changed key it instantiates the rules the key triggers, evaluates
    them on one snapshot and sends the work of the satisfied ones to the
    workers.  Callbacks and context providers are values of the abstract types
    [CB] and [CP]; a missing map entry is nil. *)
From S2P Require Import Prelude GoString Attributes Matcher StaticRule DynamicRule Instantiation RuleManager Etcd.

Section data.
Context `{Regexp} {CB CP : Type}.

Record baseKeyProcessor := mkBaseKeyProcessor {
  contextProviders : gmap nat CP;
  lockKeyPatterns : gmap nat string;
  ruleIDs : gmap nat string;
  kp_rm : ruleManager
}.

Record v3KeyProcessor := mkV3KeyProcessor {
  kp_base : baseKeyProcessor;
  callbacks : gmap nat CB
}.

(** The processor [newV3KeyProcessor] returns; the goroutines it starts share its
    maps and the rule manager it points to. *)
Definition newV3KeyProcessor (rm : ruleManager) : v3KeyProcessor :=
  mkV3KeyProcessor (mkBaseKeyProcessor ∅ ∅ ∅ rm) ∅.

(** [work_attr] and [work_metadata] are the fields of the task inside. *)
Record v3RuleWork := mkV3RuleWork {
  work_ruleID : string;
  work_rule : staticRule;
  work_ruleIndex : nat;
  work_attr : extendedAttributes;
  work_metadata : gmap string string;
  ruleTaskCallback : option CB;
  work_lockKey : string;
  work_keyPattern : string;
  work_contextProvider : option CP
}.
End data.
Arguments baseKeyProcessor {_} CP.
Arguments v3KeyProcessor {_} CB CP.
Arguments v3RuleWork CB CP : clear implicits.

Section operations.
Context `{Regexp} {CB CP : Type}.

Definition setLockKeyPattern (bkp : baseKeyProcessor CP) (index : nat) (pattern : string) :
    baseKeyProcessor CP :=
  mkBaseKeyProcessor (contextProviders bkp) (<[index := pattern]> (lockKeyPatterns bkp)) (ruleIDs bkp)
    (kp_rm bkp).

Definition setRuleID (bkp : baseKeyProcessor CP) (index : nat) (ruleID : string) : baseKeyProcessor CP :=
  mkBaseKeyProcessor (contextProviders bkp) (lockKeyPatterns bkp) (<[index := ruleID]> (ruleIDs bkp))
    (kp_rm bkp).

Definition setContextProvider (bkp : baseKeyProcessor CP) (index : nat) (cp : CP) : baseKeyProcessor CP :=
  mkBaseKeyProcessor (<[index := cp]> (contextProviders bkp)) (lockKeyPatterns bkp) (ruleIDs bkp)
    (kp_rm bkp).

Definition setCallback (v3kp : v3KeyProcessor CB CP) (index : nat) (callback : CB) : v3KeyProcessor CB CP :=
  mkV3KeyProcessor (kp_base v3kp) (<[index := callback]> (callbacks v3kp)).

(** The work that is sent to the channel. *)
Definition dispatchWork (v3kp : v3KeyProcessor CB CP) (index : nat) (rule : staticRule)
    (keyPattern : string) (metadata : gmap string string) (ruleID : string) : option (v3RuleWork CB CP) :=
  attr ← getAttributes rule;
  lockKey ← FormatWithAttributes keyPattern (finderAttributes attr);
  Some (mkV3RuleWork ruleID rule index attr metadata (callbacks v3kp !! index) lockKey keyPattern
          (contextProviders (kp_base v3kp) !! index)).

(** The order of a range over [map[staticRule]int]: its keys are pointers to
    the static rules, each allocated by this call. *)
Definition rule_order `{GoRange} (rules : list (staticRule * nat)) : list (staticRule * nat) :=
  snd <$> range (map_seq 0 rules : gmap nat (staticRule * nat)).

(** [satisfied, _ := rule.satisfied(api)]: with an error the result is false. *)
Definition satisfied_ (rule : staticRule) (api : readAPI) : bool :=
  match satisfied rule api with inr b => b | inl _ => false end.

(** The second loop of [processKey]: the work sent, and the rule IDs reported
    to [timesEvaluated]. *)
Fixpoint process_loop (v3kp : v3KeyProcessor CB CP) (api : readAPI) (metadata : gmap string string)
    (rules : list (staticRule * nat)) : option (list (v3RuleWork CB CP) * list string) :=
  match rules with
  | [] => Some ([], [])
  | (rule, index) :: rules' =>
    let ruleID := default EmptyString (ruleIDs (kp_base v3kp) !! index) in
    here ← (if satisfied_ rule api then
              match lockKeyPatterns (kp_base v3kp) !! index with
              | None => Some []
              | Some keyPattern =>
                work ← dispatchWork v3kp index rule keyPattern metadata ruleID; Some [work]
              end
            else Some []);
    '(works, ids) ← process_loop v3kp api metadata rules';
    Some (here ++ works, ruleID :: ids)
  end.

Definition processKey `{GoRange} (v3kp : v3KeyProcessor CB CP) (key : string) (value : option string)
    (getCachedAPI : list string -> result readAPI) (metadata : gmap string string) :
    option (list (v3RuleWork CB CP) * list string) :=
  rules ← getStaticRules (kp_rm (kp_base v3kp)) key value;
  let keys := flat_map (fun '(rule, _) => getKeys rule) (rule_order rules) in
  match getCachedAPI keys with
  | inl _ => Some ([], [])
  | inr api => process_loop v3kp api metadata (rule_order rules)
  end.

Definition isWork `{GoRange} (bkp : baseKeyProcessor CP) (key : string) (value : option string)
    (api : readAPI) : option bool :=
  rules ← getStaticRules (kp_rm bkp) key value;
  Some (existsb (fun '(rule, _) => satisfied_ rule api) (rule_order rules)).
End operations.

(** ** Lemmas *)
Lemma rule_order_perm `{GoRange} (rules : list (staticRule * nat)) : rule_order rules ≡ₚ rules.
Proof.
  unfold rule_order. rewrite range_perm. generalize 0 at 1. induction rules as [|r rules IH]; intros n; [done|].
  simpl. rewrite map_to_list_insert.
  - rewrite fmap_cons, IH. done.
  - apply lookup_map_seq_None. lia.
Qed.

Section lemmas.
Context {R : Regexp} {CB CP : Type}.

Lemma process_loop_elem (v3kp : v3KeyProcessor CB CP) api metadata rules works ids w :
  process_loop v3kp api metadata rules = Some (works, ids) ->
  w ∈ works <->
  exists rule index keyPattern, (rule, index) ∈ rules /\ satisfied_ rule api = true /\
    lockKeyPatterns (kp_base v3kp) !! index = Some keyPattern /\
    dispatchWork v3kp index rule keyPattern metadata
      (default EmptyString (ruleIDs (kp_base v3kp) !! index)) = Some w.
Proof.
  revert works ids. induction rules as [|[rule index] rules IH]; intros works ids; cbn [process_loop].
  { intros [= <- <-]. split; [intros Hw; by apply elem_of_nil in Hw|].
    intros (r & i & kp & Hin & _). by apply elem_of_nil in Hin. }
  rewrite bind_Some. intros (here & Hh & Hrest). apply bind_Some in Hrest as ([works' ids'] & Hl & [= <- <-]).
  rewrite elem_of_app, (IH _ _ Hl).
  transitivity ((satisfied_ rule api = true /\ exists keyPattern,
      lockKeyPatterns (kp_base v3kp) !! index = Some keyPattern /\
      dispatchWork v3kp index rule keyPattern metadata
        (default EmptyString (ruleIDs (kp_base v3kp) !! index)) = Some w) \/
    exists rule index keyPattern, (rule, index) ∈ rules /\ satisfied_ rule api = true /\
      lockKeyPatterns (kp_base v3kp) !! index = Some keyPattern /\
      dispatchWork v3kp index rule keyPattern metadata
        (default EmptyString (ruleIDs (kp_base v3kp) !! index)) = Some w).
  - apply or_iff_compat_r. destruct (satisfied_ rule api).
    + destruct (lockKeyPatterns (kp_base v3kp) !! index) as [kp|].
      * apply bind_Some in Hh as (w' & Hw & [= <-]). rewrite list_elem_of_singleton. naive_solver.
      * injection Hh as <-. rewrite elem_of_nil. naive_solver.
    + injection Hh as <-. rewrite elem_of_nil. naive_solver.
  - split.
    + intros [(Hs & kp & Hk & Hd)|(r & i & kp & Hin & Hs & Hk & Hd)].
      * exists rule, index, kp. split_and!; [by left|done..].
      * exists r, i, kp. split_and!; [by right|done..].
    + intros (r & i & kp & [[= -> ->]|Hin]%elem_of_cons & Hs & Hk & Hd); [left; eauto|right; eauto 10].
Qed.

(** Work is sent when some rule is satisfied. *)
Lemma process_loop_nonempty (v3kp : v3KeyProcessor CB CP) api metadata rules works ids :
  process_loop v3kp api metadata rules = Some (works, ids) ->
  (forall rule i, (rule, i) ∈ rules -> is_Some (lockKeyPatterns (kp_base v3kp) !! i)) ->
  works <> [] <-> exists rule i, (rule, i) ∈ rules /\ satisfied_ rule api = true.
Proof.
  intros Hp Hlocks. split.
  - intros Hne. destruct works as [|w works]; [done|].
    destruct (proj1 (process_loop_elem _ _ _ _ _ _ w Hp) ltac:(by left)) as (rule & i & kp & Hin & Hs & _).
    eauto.
  - intros (rule & i & Hin & Hs) ->. destruct (Hlocks rule i Hin) as [kp Hk]. clear Hlocks.
    revert ids Hp Hin. induction rules as [|[r j] rules IH];
      intros ids Hp Hin; [by apply elem_of_nil in Hin|]. cbn [process_loop] in Hp.
    apply bind_Some in Hp as (here & Hh & Hp). apply bind_Some in Hp as ([works' ids'] & Hl & [= Hnil <-]).
    apply app_eq_nil in Hnil as [-> ->]. apply elem_of_cons in Hin as [[= -> ->]|Hin]; [|by eapply IH].
    rewrite Hs, Hk in Hh. by apply bind_Some in Hh as (w & _ & [=]).
Qed.

Lemma process_loop_total (v3kp : v3KeyProcessor CB CP) api metadata rules :
  (forall rule index, (rule, index) ∈ rules -> exists attr, getAttributes rule = Some attr /\ attr_total attr) ->
  is_Some (process_loop v3kp api metadata rules).
Proof.
  induction rules as [|[rule index] rules IH]; intros Ht; cbn [process_loop]; [done|].
  destruct IH as [[works ids] ->]; [intros; apply (Ht rule0 index0); by right|].
  destruct (Ht rule index) as (attr & Ha & Htot); [by left|].
  destruct (satisfied_ rule api); [|done].
  destruct (lockKeyPatterns (kp_base v3kp) !! index) as [kp|]; [|done].
  unfold dispatchWork. rewrite Ha. simpl.
  pose proof (attr_total_Format attr kp Htot) as Hf. unfold Format in Hf. by rewrite Hf.
Qed.

(** *** The attributes of an instance *)
(** The first leaf of a rule exists: no compound rule on the leftmost path is
    empty. *)
Fixpoint headed (r : DynamicRule) : Prop :=
  match r with
  | leafRule _ => True
  | andDynamicRule rs _ _ | orDynamicRule rs _ _ => match rs with [] => False | r' :: _ => headed r' end
  | notDynamicRule r' _ _ => headed r'
  end.

Lemma newRule_attributes f keys attr sr : newRule f keys attr = Some sr -> getAttributes sr = Some attr.
Proof. destruct f, keys; simpl; intros; by simplify_eq. Qed.

Lemma from_attributes r attr sr :
  headed r -> staticRuleFromAttributes r attr = Some (Some sr) -> getAttributes sr = Some attr.
Proof.
  revert sr. induction r as [krp|rs ps qs IH|rs ps qs IH|r ps qs IH] using DynamicRule_nested_ind;
    intros sr Hh; from_methods.
  - unfold leaf_staticRuleFromAttributes. rewrite bind_Some.
    intros ([keys|] & _ & Hn); [|done]. apply fmap_Some in Hn as (sr' & Hn & [= <-]).
    by apply newRule_attributes in Hn.
  - destruct rs as [|r rs]; [done|]. simpl in Hh. apply Forall_cons in IH as [IH _].
    cbn [from_loop]. destruct (staticRuleFromAttributes r attr) as [[sr'|]|]; simpl; try done.
    destruct (from_loop _ rs) as [[srs|]|]; simpl; try done. intros [= <-]. simpl. by apply IH.
  - destruct rs as [|r rs]; [done|]. simpl in Hh. apply Forall_cons in IH as [IH _].
    cbn [from_loop]. destruct (staticRuleFromAttributes r attr) as [[sr'|]|]; simpl; try done.
    destruct (from_loop _ rs) as [[srs|]|]; simpl; try done. intros [= <-]. simpl. by apply IH.
  - destruct (staticRuleFromAttributes r attr) as [[sr'|]|]; simpl; try done.
    intros [= <-]. simpl. by apply IH.
Qed.

Lemma makeStaticRule_attributes r key value sr attr :
  headed r -> makeStaticRule r key value = Some (Some (sr, attr)) -> getAttributes sr = Some attr.
Proof.
  revert sr attr. induction r as [krp|rs ps qs IH|rs ps qs IH|r ps qs IH] using DynamicRule_nested_ind;
    intros sr attr Hh; make_methods.
  - unfold leaf_makeStaticRule. destruct (first_match (matchers krp) key) as [m|]; [|done].
    rewrite bind_Some. intros (keys & _ & Hn). apply bind_Some in Hn as (sr' & Hn & [= -> <-]).
    by apply newRule_attributes in Hn.
  - intros Hm%compound_make_from. by apply from_attributes in Hm.
  - intros Hm%compound_make_from. by apply from_attributes in Hm.
  - destruct (makeStaticRule r key value) as [[[ns a]|]|]; simpl; try done.
    intros [= <- <-]. simpl. by apply IH.
Qed.
End lemmas.

(** ** What is dispatched *)
Section properties.
Context {R : Regexp} {RL : RegexpLaws R} {CB CP : Type} `{GoRange}.

Lemma processKey_inv (v3kp : v3KeyProcessor CB CP) key value get metadata works ids :
  processKey v3kp key value get metadata = Some (works, ids) ->
  exists rules, getStaticRules (kp_rm (kp_base v3kp)) key value = Some rules /\
    match get (flat_map (fun '(rule, _) => getKeys rule) (rule_order rules)) with
    | inl _ => works = []
    | inr api => process_loop v3kp api metadata (rule_order rules) = Some (works, ids)
    end.
Proof.
  unfold processKey. rewrite bind_Some. intros (rules & Hr & Hp). exists rules. split; [done|].
  destruct (get _) as [err|api]; [by injection Hp as <- _ | done].
Qed.

Lemma cached_satisfied_ kv store (rules : list (staticRule * nat)) api rule i :
  answers_from kv store ->
  etcdV3ReadAPI_getCachedAPI kv (flat_map (fun '(rule, _) => getKeys rule) (rule_order rules)) = inr api ->
  (rule, i) ∈ rules -> satisfied_ rule api = holds store rule.
Proof.
  intros Hkv Hg Hin. unfold satisfied_. rewrite (cached_satisfied kv store _ api rule Hkv Hg); [done|].
  intros k Hk. apply elem_of_flat_map. exists (rule, i). by rewrite rule_order_perm.
Qed.

(** When the transaction succeeds on a snapshot [store], the work sent is that
    of the instances that hold in it. *)
Lemma processKey_elem (v3kp : v3KeyProcessor CB CP) constraints enhanced refs key value kv store metadata
    works ids w :
  managed constraints enhanced refs (kp_rm (kp_base v3kp)) -> NoDup (ref_ptr <$> refs) ->
  answers_from kv store -> commits kv ->
  processKey v3kp key value (etcdV3ReadAPI_getCachedAPI kv) metadata = Some (works, ids) ->
  w ∈ works <->
  exists i ref sr attr keyPattern, refs !! i = Some ref /\
    Exists (fun p => Count key slash = Count p slash) (getPatterns (ref_rule ref)) /\
    makeStaticRule (ref_rule ref) key value = Some (Some (sr, attr)) /\
    rule_filter enhanced sr key value = true /\ holds store sr = true /\
    lockKeyPatterns (kp_base v3kp) !! i = Some keyPattern /\
    dispatchWork v3kp i sr keyPattern metadata
      (default EmptyString (ruleIDs (kp_base v3kp) !! i)) = Some w.
Proof.
  intros Hm Hdistinct Hkv Hcommit Hkey.
  apply processKey_inv in Hkey as (rules & Hr & Hp).
  destruct (etcdV3ReadAPI_getCachedAPI kv _) as [err|api] eqn:Eg.
  { by apply getCachedAPI_fails in Eg. }
  rewrite (process_loop_elem _ _ _ _ _ _ _ Hp). setoid_rewrite rule_order_perm. split.
  - intros (sr & i & kp & Hin & Hs & Hk & Hd).
    rewrite (cached_satisfied_ kv store rules api sr i Hkv Eg Hin) in Hs.
    apply (getStaticRules_spec _ _ _ _ _ _ _ _ _ Hm Hdistinct Hr) in Hin as (ref & attr & ? & ? & ? & ?).
    by exists i, ref, sr, attr, kp.
  - intros (i & ref & sr & attr & kp & Hi & Hex & Hmk & Hf & Hh & Hk & Hd).
    assert ((sr, i) ∈ rules) as Hin
      by (apply (getStaticRules_spec _ _ _ _ _ _ _ _ _ Hm Hdistinct Hr); by exists ref, attr).
    exists sr, i, kp. by rewrite (cached_satisfied_ kv store rules api sr i Hkv Eg Hin).
Qed.

(** Rules as the constructors make them, whose patterns contain no regular
    expression metacharacters and whose compound rules are not empty. *)
Definition usable (r : DynamicRule) : Prop := wf_rule r /\ plain_rule r /\ headed r.

Lemma getStaticRules_attributes constraints enhanced refs rm key value rules sr i :
  managed constraints enhanced refs rm -> Forall (fun ref => usable (ref_rule ref)) refs ->
  getStaticRules rm key value = Some rules -> (sr, i) ∈ rules ->
  exists attr, getAttributes sr = Some attr /\ attr_total attr.
Proof.
  intros Hm Hu Hr Hin. apply (getStaticRules_elem _ _ _ _ _ _ Hr) in Hin as (ptr & rule & attr & Hb & Hmk & _).
  apply (inv_bucket _ _ _ _ (managed_inv _ _ _ _ Hm)) in Hb as (ref & Hi%list_elem_of_lookup_2 & _ & <- & _).
  rewrite Forall_forall in Hu. destruct (Hu ref Hi) as (Hwf & Hp & Hh). exists attr.
  split; [by eapply makeStaticRule_attributes|].
  destruct (makeStaticRule_total _ key value Hwf Hp) as (o & Ho & Hat). rewrite Hmk in Ho.
  injection Ho as <-. eauto.
Qed.

(** Processing a key does not panic. *)
Lemma processKey_total (v3kp : v3KeyProcessor CB CP) constraints enhanced refs key value get metadata :
  managed constraints enhanced refs (kp_rm (kp_base v3kp)) ->
  Forall (fun ref => usable (ref_rule ref)) refs ->
  is_Some (processKey v3kp key value get metadata).
Proof.
  intros Hm Hu.
  destruct (getStaticRules_total constraints enhanced refs (kp_rm (kp_base v3kp)) key value Hm) as [rules Hr].
  { eapply Forall_impl; [exact Hu|]. intros r (? & ? & _). done. }
  unfold processKey. rewrite Hr. simpl. destruct (get _) as [err|api]; [done|].
  apply process_loop_total. intros rule index. rewrite rule_order_perm.
  by eapply getStaticRules_attributes.
Qed.

Lemma processKey_triggered (v3kp : v3KeyProcessor CB CP) constraints refs N i ref key p value a kv store
    metadata lockPattern :
  managed constraints false refs (kp_rm (kp_base v3kp)) -> NoDup (ref_ptr <$> refs) ->
  Forall (fun ref => usable (ref_rule ref)) refs ->
  refs !! i = Some ref -> uniform N (ref_rule ref) -> valid_attrs N a ->
  canonical p = true -> Format a p = Some key -> triggers key p (ref_rule ref) ->
  lockKeyPatterns (kp_base v3kp) !! i = Some lockPattern ->
  answers_from kv store -> commits kv ->
  (forall env, key ∈ (pattern_key env <$> pattern_list (ref_rule ref)) ->
     rule_holds store env (ref_rule ref) = true) ->
  exists works ids w,
    processKey v3kp key value (etcdV3ReadAPI_getCachedAPI kv) metadata = Some (works, ids) /\
    w ∈ works /\ work_ruleIndex w = i /\ ruleTaskCallback w = callbacks v3kp !! i /\
    FormatWithAttributes lockPattern (finderAttributes (work_attr w)) = Some (work_lockKey w) /\
    key ∈ getKeys (work_rule w) /\ holds store (work_rule w) = true /\
    work_contextProvider w = contextProviders (kp_base v3kp) !! i /\
    exists attr, getAttributes (work_rule w) = Some attr /\ attr_total attr.
Proof.
  intros Hm Hdistinct Husable Hi Huniform Hvalid Hcan Hfmt Htr Hlock Hkv Hcommit Hholds.
  assert (Forall (fun ref => wf_rule (ref_rule ref) /\ plain_rule (ref_rule ref)) refs) as Hrules.
  { eapply Forall_impl; [exact Husable|]. intros r (? & ? & _). done. }
  destruct (getStaticRules_triggered constraints refs _ N i ref key p value a Hm Hdistinct Hrules Hi
              Huniform Hvalid Hcan Hfmt Htr) as (rules & sr & Hr & Hin & Hk).
  pose proof (proj1 (getStaticRules_spec _ _ _ _ _ _ _ _ _ Hm Hdistinct Hr) Hin)
    as (ref' & attr & Hi' & _ & Hmk & _). rewrite Hi in Hi'. injection Hi' as <-.
  assert (wf_rule (ref_rule ref)) as Hwf.
  { rewrite Forall_forall in Hrules. apply Hrules. by eapply list_elem_of_lookup_2. }
  assert (holds store sr = true) as Hh.
  { destruct (makeStaticRule_spec _ _ _ _ _ Hwf Hmk) as (a' & _ & Hf & ->). apply Hholds.
    rewrite <- (Forall2_keys_fmap (attr_env a') (pattern_list (ref_rule ref)) (getKeys sr)); [done|].
    eapply Forall2_impl; [exact Hf|]. simpl. intros p' k'. apply Format_pattern_key. }
  destruct (etcdV3ReadAPI_getCachedAPI kv
              (flat_map (fun '(rule, _) => getKeys rule) (rule_order rules))) as [err|api] eqn:Eg.
  { by apply getCachedAPI_fails in Eg. }
  destruct (process_loop_total v3kp api metadata (rule_order rules)) as [[works ids] Hp].
  { intros rule index. rewrite rule_order_perm. by eapply getStaticRules_attributes. }
  destruct (getStaticRules_attributes _ _ _ _ _ _ _ _ _ Hm Husable Hr Hin) as (attr' & Hattr & Htot).
  pose proof (attr_total_Format attr' lockPattern Htot) as Hfl. unfold Format in Hfl.
  set (w := mkV3RuleWork (default EmptyString (ruleIDs (kp_base v3kp) !! i)) sr i attr' metadata
              (callbacks v3kp !! i) (pattern_key (attr_env attr') lockPattern) lockPattern
              (contextProviders (kp_base v3kp) !! i)).
  exists works, ids, w. split_and!; try done.
  - unfold processKey. rewrite Hr. simpl. by rewrite Eg.
  - apply (process_loop_elem _ _ _ _ _ _ _ Hp). exists sr, i, lockPattern.
    rewrite rule_order_perm, (cached_satisfied_ kv store rules api sr i Hkv Eg Hin).
    split_and!; [done..|]. unfold dispatchWork. rewrite Hattr. simpl. by rewrite Hfl.
  - by exists attr'.
Qed.

(** The crawler's check is exact: when every rule has a lock key pattern,
    [isWork] on some read API says whether [processKey] on the same values
    would send any work, so a key it rejects can be skipped. *)
Theorem isWork_exact (v3kp : v3KeyProcessor CB CP) (key : string) (value : option string)
    (values metadata : gmap string string) (b : bool) (works : list (v3RuleWork CB CP)) (ids : list string)
    (Hlocks : forall rules rule i, getStaticRules (kp_rm (kp_base v3kp)) key value = Some rules ->
                (rule, i) ∈ rules -> is_Some (lockKeyPatterns (kp_base v3kp) !! i))
    (Hwork : isWork (kp_base v3kp) key value (cacheReadAPI_get values) = Some b)
    (Hkey : processKey v3kp key value (cacheReadAPI_getCachedAPI values) metadata = Some (works, ids)) :
  b = true <-> works <> [].
Proof.
  apply processKey_inv in Hkey as (rules & Hr & Hp). simpl in Hp. unfold isWork in Hwork.
  rewrite Hr in Hwork. injection Hwork as <-. rewrite (process_loop_nonempty _ _ _ _ _ _ Hp).
  - rewrite existsb_exists. setoid_rewrite <- list_elem_of_In. split.
    + intros ([rule i] & Hin & Hs). eauto.
    + intros (rule & i & Hin & Hs). by exists (rule, i).
  - intros rule i Hin. rewrite rule_order_perm in Hin. eauto.
Qed.
End properties.
