(* ===== verification/KeyChannel.v ===== *)
(** * The key channel and the work channel (rules/key_processor.go, rules/watcher.go) *)
(** [v3KeyProcessor.processKey] only puts a task into the buffered channel
    [kpChannel]; the goroutines [keyWorker] take the tasks out, process the
    key and send the work of satisfied rules to the channel of the workers.
    The step relation interleaves the producers (watchers and crawler), the
    key workers and the rule workers that receive from the second channel.  A
    send blocks while the buffer is full; a send to a channel with a waiting
    receiver and an empty buffer hands the value over, which is the only way
    through a channel of capacity 0. *)
From S2P Require Import Prelude GoString Attributes Matcher StaticRule DynamicRule Instantiation RuleManager Etcd KeyProcessor.

(** ** Tasks *)
Record keyTask := mkKeyTask {
  task_key : string;
  task_value : option string;
  task_api : list string -> result readAPI;
  task_metadata : gmap string string
}.

(** ** The channels *)
Section channels.
Context {work : Type}.

(** [keyWorkers] holds, per goroutine, the work it has still to send for the
    task it took; [delivered] is what the rule workers received. *)
Record channels := mkChannels {
  producers : list (list keyTask);
  kpChannel : list keyTask;
  keyWorkers : list (list work);
  channel : list work;
  delivered : list work
}.

(** [newV3KeyProcessor] starts [concurrency] key workers. *)
Definition start (tasks : list (list keyTask)) (concurrency : nat) : channels :=
  mkChannels tasks [] (replicate concurrency []) [] [].

Section steps.
Variable process : keyTask -> option (list work).
Variables keyProcBuffer ruleWorkBuffer : nat.

Inductive channel_step : channels -> channels -> Prop :=
| submit_buffered ps kc kws wc d i t ts :
    ps !! i = Some (t :: ts) -> length kc < keyProcBuffer ->
    channel_step (mkChannels ps kc kws wc d) (mkChannels (<[i := ts]> ps) (kc ++ [t]) kws wc d)
| submit_direct ps kws wc d i t ts j ws :
    ps !! i = Some (t :: ts) -> kws !! j = Some [] -> process t = Some ws ->
    channel_step (mkChannels ps [] kws wc d) (mkChannels (<[i := ts]> ps) [] (<[j := ws]> kws) wc d)
| take_task ps t kc kws wc d j ws :
    kws !! j = Some [] -> process t = Some ws ->
    channel_step (mkChannels ps (t :: kc) kws wc d) (mkChannels ps kc (<[j := ws]> kws) wc d)
| send_buffered ps kc kws wc d j w ws :
    kws !! j = Some (w :: ws) -> length wc < ruleWorkBuffer ->
    channel_step (mkChannels ps kc kws wc d) (mkChannels ps kc (<[j := ws]> kws) (wc ++ [w]) d)
| send_direct ps kc kws d j w ws :
    kws !! j = Some (w :: ws) ->
    channel_step (mkChannels ps kc kws [] d) (mkChannels ps kc (<[j := ws]> kws) [] (d ++ [w]))
| receive_work ps kc kws w wc d :
    channel_step (mkChannels ps kc kws (w :: wc) d) (mkChannels ps kc kws wc (d ++ [w])).

Definition works_of (t : keyTask) : list work := default [] (process t).

(** *** Nothing is lost or duplicated *)
Lemma concat_insert {A} (l : list (list A)) i (old new : list A) :
  l !! i = Some old -> old ++ concat (<[i := new]> l) ≡ₚ new ++ concat l.
Proof.
  revert i. induction l as [|x l IH]; intros [|i]; simpl; [done..| |].
  - intros [= ->]. by rewrite app_assoc, (Permutation_app_comm old new), <- app_assoc.
  - intros Hi%IH. rewrite (Permutation_app_swap_app old), Hi. by rewrite Permutation_app_swap_app.
Qed.

Definition outstanding (c : channels) : list work :=
  delivered c ++ channel c ++ concat (keyWorkers c) ++
  flat_map works_of (kpChannel c) ++ flat_map works_of (concat (producers c)).

#[local] Instance works_of_Proper : Proper ((≡ₚ) ==> (≡ₚ)) (flat_map works_of).
Proof. intros l k Hl. by apply Permutation_flat_map. Qed.

(** Taking the first element of one of the lists. *)
Lemma concat_pop {A} (l : list (list A)) i x xs :
  l !! i = Some (x :: xs) -> concat l ≡ₚ x :: concat (<[i := xs]> l).
Proof.
  intros Hi. apply (Permutation_app_inv_l xs). rewrite <- (concat_insert _ _ _ xs Hi). simpl.
  by rewrite Permutation_middle.
Qed.

Lemma concat_fill {A} (l : list (list A)) i xs :
  l !! i = Some [] -> concat (<[i := xs]> l) ≡ₚ xs ++ concat l.
Proof. intros Hi. by rewrite <- (concat_insert _ _ _ xs Hi). Qed.

Lemma outstanding_step c c' : channel_step c c' -> outstanding c' ≡ₚ outstanding c.
Proof.
  unfold outstanding.
  destruct 1 as [ps kc kws wc d i t ts Hp _|ps kws wc d i t ts j ws Hp Hj Hw|ps t kc kws wc d j ws Hj Hw
    |ps kc kws wc d j w ws Hj _|ps kc kws d j w ws Hj|ps kc kws w wc d]; simpl.
  - rewrite (concat_pop _ _ _ _ Hp), flat_map_app. simpl. by rewrite app_nil_r, <- !app_assoc.
  - rewrite (concat_pop _ _ _ _ Hp), (concat_fill _ _ ws Hj). simpl.
    unfold works_of at 2. rewrite Hw. simpl. f_equiv. f_equiv. rewrite <- app_assoc.
    by rewrite Permutation_app_swap_app.
  - rewrite (concat_fill _ _ ws Hj). unfold works_of at 3. rewrite Hw. simpl. f_equiv. f_equiv.
    rewrite <- !app_assoc. by rewrite Permutation_app_swap_app.
  - rewrite (concat_pop _ _ _ _ Hj). simpl. by rewrite <- !app_assoc.
  - rewrite (concat_pop _ _ _ _ Hj). simpl. by rewrite <- !app_assoc.
  - by rewrite <- app_assoc.
Qed.
(** *** Bounds *)
Definition within (c : channels) : Prop :=
  length (kpChannel c) <= keyProcBuffer /\ length (channel c) <= ruleWorkBuffer.

Lemma within_step c c' : channel_step c c' -> within c -> within c'.
Proof. unfold within. destruct 1; simpl; rewrite ?length_app; simpl; lia. Qed.

(** *** Progress *)
(** Every step brings a task or a work item closer to delivery. *)
Definition distance (c : channels) : nat :=
  sum_list_with (fun t => 2 + 2 * length (works_of t)) (concat (producers c)) +
  sum_list_with (fun t => 1 + 2 * length (works_of t)) (kpChannel c) +
  2 * length (concat (keyWorkers c)) + length (channel c).

Lemma length_works_of t ws : process t = Some ws -> length (works_of t) = length ws.
Proof. unfold works_of. by intros ->. Qed.

Lemma sum_list_with_perm {A} (f : A -> nat) l k : l ≡ₚ k -> sum_list_with f l = sum_list_with f k.
Proof. induction 1; simpl; lia. Qed.

Lemma distance_step c c' : channel_step c c' -> distance c' < distance c.
Proof.
  unfold distance.
  destruct 1 as [ps kc kws wc d i t ts Hp _|ps kws wc d i t ts j ws Hp Hj Hw|ps t kc kws wc d j ws Hj Hw
    |ps kc kws wc d j w ws Hj _|ps kc kws d j w ws Hj|ps kc kws w wc d]; cbn [producers kpChannel keyWorkers channel];
    rewrite ?(sum_list_with_perm _ _ _ (concat_pop _ _ _ _ Hp)), ?sum_list_with_app, ?length_app;
    try rewrite (concat_pop _ _ _ _ Hj); try rewrite (concat_fill _ _ ws Hj);
    rewrite ?length_app; try pose proof (length_works_of t ws Hw); simpl; lia.
Qed.

Lemma channel_sn c : sn channel_step c.
Proof.
  remember (distance c) as n eqn:Hn. revert c Hn. induction n as [n IH] using lt_wf_ind.
  intros c ->. constructor. intros c' Hc. eapply IH; [by apply distance_step | done].
Qed.

(** Nothing is left to do. *)
Definition drained (c : channels) : Prop :=
  concat (producers c) = [] /\ kpChannel c = [] /\ concat (keyWorkers c) = [] /\ channel c = [].

Lemma concat_head {A} (l : list (list A)) : concat l = [] \/ exists i x xs, l !! i = Some (x :: xs).
Proof.
  induction l as [|[|x xs] l [IH|(i & y & ys & Hi)]]; [by left | by left | | |].
  - right. by exists (S i), y, ys.
  - right. by exists 0, x, xs.
  - right. by exists 0, x, xs.
Qed.

Lemma channel_progress c :
  (forall t, is_Some (process t)) -> keyWorkers c <> [] -> drained c \/ exists c', channel_step c c'.
Proof.
  intros Hp Hne. destruct c as [ps kc kws wc d]. simpl in Hne.
  destruct wc as [|w wc]; [|right; eexists; apply receive_work].
  destruct (concat_head kws) as [Hk|(j & w & ws & Hj)]; [|right; eexists; by eapply send_direct].
  assert (exists j, kws !! j = Some []) as [j Hj].
  { destruct kws as [|ws kws]; [done|]. exists 0. simpl in Hk. by apply app_eq_nil in Hk as [-> _]. }
  destruct kc as [|t kc].
  - destruct (concat_head ps) as [Hps|(i & t & ts & Hi)]; [by left|]. right.
    destruct (Hp t) as [ws Hw]. eexists. by eapply submit_direct.
  - right. destruct (Hp t) as [ws Hw]. eexists. by eapply take_task.
Qed.

Lemma keyWorkers_step c c' : channel_step c c' -> length (keyWorkers c') = length (keyWorkers c).
Proof. destruct 1; simpl; by rewrite ?length_insert. Qed.

(** The two channels never hold more than their capacities, [keyProcBuffer]
    key tasks and [ruleWorkBuffer] work items, however producers, key workers
    and rule workers interleave. *)
Theorem channels_bounded (tasks : list (list keyTask)) (concurrency : nat) (c : channels)
    (Hrun : rtc channel_step (start tasks concurrency) c) :
  length (kpChannel c) <= keyProcBuffer /\ length (channel c) <= ruleWorkBuffer.
Proof. eapply (rtc_invariant _ within); [exact within_step | done |]. split; simpl; lia. Qed.

Lemma outstanding_start tasks concurrency :
  outstanding (start tasks concurrency) = flat_map works_of (concat tasks).
Proof.
  unfold outstanding. simpl. replace (concat (replicate concurrency [])) with (@nil work); [done|].
  by induction concurrency.
Qed.

(** All interleavings end, none gets stuck before everything is delivered, and
    what is delivered at the end is the work of all submitted tasks. *)
Lemma channels_deliver (tasks : list (list keyTask)) (concurrency : nat)
    (Hprocess : forall t, is_Some (process t)) (Hworkers : 0 < concurrency) :
  sn channel_step (start tasks concurrency) /\
  forall c, rtc channel_step (start tasks concurrency) c ->
    (exists c', channel_step c c') \/ delivered c ≡ₚ flat_map works_of (concat tasks).
Proof.
  split; [apply channel_sn|]. intros c Hrun.
  assert (length (keyWorkers c) = concurrency) as Hlen.
  { eapply (rtc_invariant channel_step (fun c' => length (keyWorkers c') = concurrency)); [|done|].
    - intros a b Hs Ha. by rewrite (keyWorkers_step a b Hs).
    - simpl. apply length_replicate. }
  destruct (channel_progress c Hprocess) as [(Hp & Hk & Hw & Hc)|?]; [|right|by left].
  { intros Hnil. rewrite Hnil in Hlen. simpl in Hlen. lia. }
  rewrite <- (outstanding_start tasks concurrency).
  assert (outstanding c ≡ₚ outstanding (start tasks concurrency)) as <-.
  { eapply (rtc_invariant channel_step (fun c' => outstanding c' ≡ₚ _)); [|done|done].
    intros a b Hs Ha. etrans; [by apply outstanding_step | exact Ha]. }
  unfold outstanding. rewrite Hp, Hk, Hw, Hc. simpl. by rewrite app_nil_r.
Qed.

(** Without key workers nothing is ever delivered. *)
Lemma no_key_workers tasks c : rtc channel_step (start tasks 0) c -> delivered c = [].
Proof.
  intros Hrun. enough (keyWorkers c = [] /\ channel c = [] /\ delivered c = []) by tauto.
  eapply (rtc_invariant channel_step (fun c' =>
    keyWorkers c' = [] /\ channel c' = [] /\ delivered c' = [])); [|done|done].
  intros a b Hs. destruct Hs; simpl; intros (? & ? & ?); by simplify_eq.
Qed.
End steps.
End channels.
Arguments channels : clear implicits.

(** ** The key workers of a key processor *)
Section key_workers.
Context {R : Regexp} {CB CP : Type} `{GoRange}.

(** One iteration of [keyWorker]: the work it sends for the task. *)
Definition keyWorker (v3kp : v3KeyProcessor CB CP) (task : keyTask) : option (list (v3RuleWork CB CP)) :=
  fst <$> processKey v3kp (task_key task) (task_value task) (task_api task) (task_metadata task).

Lemma key_workers_deliver (v3kp : v3KeyProcessor CB CP) keyProcBuffer ruleWorkBuffer tasks concurrency :
  (forall key value get metadata, is_Some (processKey v3kp key value get metadata)) -> 0 < concurrency ->
  let step := channel_step (keyWorker v3kp) keyProcBuffer ruleWorkBuffer in
  sn step (start tasks concurrency) /\
  forall c, rtc step (start tasks concurrency) c ->
    (exists c', step c c') \/
    delivered c ≡ₚ flat_map (fun t => default [] (keyWorker v3kp t)) (concat tasks).
Proof.
  intros Ht Hc. apply channels_deliver; [|done]. intros t. unfold keyWorker. by apply fmap_is_Some.
Qed.
End key_workers.
