(* ===== verification/Sampler.v ===== *)
(** * The buffer sampler of the key processor (rules/key_processor.go) *)
(** Every minute [bufferCapacitySampler] reports how much room the key channel
    has, and warns when it is nearly full, but not twice in a row with the same
    hour of the day.  The comparison is in float32, IEEE binary32, which the
    standard library's [SpecFloat] computes with 24 bits of precision. *)
From S2P Require Import Prelude Metrics.
From Stdlib Require Import SpecFloat.

(** ** float32 *)
Definition float32_prec : Z := 24.
Definition float32_emax : Z := 128.

(** [float32(n)] of an integer. *)
Definition float32_of (n : Z) : spec_float := binary_normalize float32_prec float32_emax n 0 false.

(** The constant 0.05 as a float32: 13421773 * 2^-28. *)
Definition five_percent : spec_float := binary_normalize float32_prec float32_emax 13421773 (-28) false.

(** ** The loop *)
(** The field [lastNotified], -1 at first, what the loop has recorded, and the
    warnings with the capacity and the room they report. *)
Record sampler := mkSampler {
  lastNotified : Z;
  reported : record;
  warnings : list (Z * Z)
}.

Definition new_sampler : sampler := mkSampler (-1) [] [].

Definition near_capacity (capacity remainingBuffer : Z) : bool :=
  SFltb (SFdiv float32_prec float32_emax (float32_of remainingBuffer) (float32_of capacity)) five_percent.

(** One iteration; [len] is the number of tasks in the channel and
    [currentHour] the hour of the day. *)
Definition bufferCapacitySampler (capacity : Z) (st : sampler) (len currentHour : Z) : sampler :=
  let remainingBuffer := (capacity - len)%Z in
  let rec := KeyProcessBufferCap remainingBuffer (reported st) in
  if near_capacity capacity remainingBuffer && negb (lastNotified st =? currentHour)%Z
  then mkSampler currentHour rec (warnings st ++ [(capacity, remainingBuffer)])
  else mkSampler (lastNotified st) rec (warnings st).

(** The samples of a run, each with the hour it was taken in. *)
Definition sample_all (capacity : Z) (samples : list (Z * Z)) : sampler :=
  fold_left (fun st '(len, hour) => bufferCapacitySampler capacity st len hour) samples new_sampler.

(** ** Properties *)
(** With the default buffer of 1000 tasks the warning threshold is exact in
    spite of the rounding: fewer than 50 free places, one twentieth. *)
Lemma near_capacity_default (remaining : Z) :
  (0 <= remaining <= 1000)%Z -> near_capacity 1000 remaining = (remaining <? 50)%Z.
Proof.
  intros Hr.
  assert (forallb (fun n => Bool.eqb (near_capacity 1000 (Z.of_nat n)) (Z.of_nat n <? 50)%Z) (seq 0 1001) = true)
    as Hall by (vm_compute; reflexivity).
  rewrite forallb_forall in Hall. apply Bool.eqb_prop.
  rewrite <- (Z2Nat.id remaining) by lia. apply Hall, in_seq. lia.
Qed.

(** A channel without a buffer has a ratio that is not a number: no warning. *)
Lemma near_capacity_unbuffered : near_capacity 0 0 = false.
Proof. reflexivity. Qed.

(** Every sample is reported, and a second sample in the hour of the last
    warning adds no warning. *)
Lemma sampler_reports capacity samples len hour :
  let st := sample_all capacity samples in
  let st' := bufferCapacitySampler capacity st len hour in
  reported st' = KeyProcessBufferCap (capacity - len) (reported st) /\
  (lastNotified st = hour -> warnings st' = warnings st) /\
  (warnings st' <> warnings st -> lastNotified st' = hour /\ lastNotified st <> hour).
Proof.
  intros st st'. unfold st', bufferCapacitySampler. clearbody st. clear st'.
  destruct (near_capacity _ _); simpl; [|done].
  destruct (lastNotified st =? hour)%Z eqn:E; simpl; split_and!; try done.
  - intros Hh. by rewrite Hh, Z.eqb_refl in E.
  - intros _. split; [done|]. by apply Z.eqb_neq.
Qed.
