(* ===== verification/Crawler.v ===== *)
(** * The crawler (rules/int_crawler.go) *)
(** At intervals the crawler reads all keys under the watched prefixes and
    submits those for which some rule is satisfied, which catches changes the
    watchers missed.  The answers of etcd, of the stop flag and of the locker
    are arguments; sleeping and metrics have no effect on the result. *)
From S2P Require Import Prelude GoString Seconds Attributes Matcher StaticRule DynamicRule Instantiation RuleManager Lock Etcd KeyProcessor KeyChannel.

Section crawler.
Context `{Regexp} {CB CP : Type} `{GoRange}.

(** The fields that do not change; the others are arguments below. *)
Record intCrawler := mkIntCrawler {
  ic_name : string;
  ic_mutex : option string;
  ic_mutexTimeout : Z;
  ic_prefixes : list string
}.

(** [newIntCrawler] fills the fields and never fails. *)
Definition newIntCrawler (mutex : option string) (mutexTimeout : Z) (prefixes : list string)
    (name : string) : result intCrawler :=
  inr (mkIntCrawler name mutex mutexTimeout prefixes).

(** ** One run *)
(** The queries: a get with prefix per prefix, into one map.  The first error
    ends the run. *)
Fixpoint query_prefixes (get : string -> result (list (string * string))) (prefixes : list string)
    (values : gmap string string) : option (gmap string string) :=
  match prefixes with
  | [] => Some values
  | prefix :: prefixes' =>
    match get prefix with
    | inl _ => None
    | inr kvs =>
      query_prefixes get prefixes' (fold_left (fun m '(k, v) => <[k := v]> m) kvs values)
    end
  end.

Definition crawler_metadata : gmap string string := {["source" := "crawler"]}.

(** The loop of [processData]: [stopping n] is what the [n]-th look at the
    stop flag sees; [None] is a panic while a rule is instantiated. *)
Fixpoint process_data_loop (bkp : baseKeyProcessor CP) (api : list string -> result readAPI)
    (stopping : nat -> bool) (cache : readAPI) (n : nat) (kvs : list (string * string)) :
    option (list keyTask) :=
  match kvs with
  | [] => Some []
  | (k, v) :: kvs' =>
    if stopping n then Some []
    else
      work ← isWork bkp k (Some v) cache;
      tasks ← process_data_loop bkp api stopping cache (S n) kvs';
      Some (if work : bool then mkKeyTask k (Some v) api crawler_metadata :: tasks else tasks)
  end.

Definition processData (bkp : baseKeyProcessor CP) (api : list string -> result readAPI)
    (stopping : nat -> bool) (n : nat) (values : gmap string string) : option (list keyTask) :=
  process_data_loop bkp api stopping (cacheReadAPI_get values) n (range values).

(** The tasks [singleRun] submits. *)
Definition crawler_singleRun (ic : intCrawler) (bkp : baseKeyProcessor CP)
    (get : string -> result (list (string * string))) (api : list string -> result readAPI)
    (stopping : nat -> bool) : option (list keyTask) :=
  if stopping 0 then Some []
  else
    match query_prefixes get (ic_prefixes ic) ∅ with
    | None => Some []
    | Some values => processData bkp api stopping 1 values
    end.

(** ** The loop *)
(** One iteration of [run]: the state of the locker afterwards and the tasks
    submitted, [None] when the run was skipped because the mutex is taken. *)
Definition crawler_iteration {S L} `{RuleLocker S L} (ic : intCrawler) (run : option (list keyTask))
    (now later : Z) (s : S) : S * option (option (list keyTask)) :=
  match ic_mutex ic with
  | None => (s, Some run)
  | Some m =>
    let mutex := "/crawler/" +:+ m in
    let '(s1, r) := Lock now s mutex [MethodForLock "crawler"; PatternForLock mutex] in
    match r with
    | inl _ => (s1, None)
    | inr lock => let '(s2, _) := Unlock later s1 lock [] in (s2, Some run)
    end
  end.
End crawler.

(** The pause between two runs: the seconds slept, given the interval generated
    and whether the crawler is found to be stopping after each second. *)
Fixpoint pause_loop (n : nat) (isStopping : nat -> bool) (i : nat) : nat :=
  match n with
  | 0 => 0
  | S n' => if isStopping i then 1 else S (pause_loop n' isStopping (S i))
  end.

Definition crawler_pause (interval : Z) (isStopping : nat -> bool) : nat :=
  pause_loop (Z.to_nat (whole_seconds interval)) isStopping 0.

Lemma pause_loop_bounds n isStopping i :
  pause_loop n isStopping i <= n /\
  forall k, isStopping (i + k) = true -> pause_loop n isStopping i <= S k.
Proof.
  revert i. induction n as [|n IH]; intros i; simpl; [split; intros; lia|].
  destruct (isStopping i) eqn:Hi; [split; intros; lia|]. destruct (IH (S i)) as [Hn Hk]. split; [lia|].
  intros [|k] Hs; [rewrite Nat.add_0_r in Hs; congruence|].
  specialize (Hk k). rewrite <- Nat.add_succ_comm in Hs. specialize (Hk Hs). lia.
Qed.

(** The crawler pauses at most for the whole seconds of the interval, and a stop
    ends the pause within a second. *)
Lemma crawler_pause_bounds interval isStopping :
  (Z.of_nat (crawler_pause interval isStopping) <= Z.max 0 (whole_seconds interval))%Z /\
  forall k, isStopping k = true -> crawler_pause interval isStopping <= S k.
Proof.
  unfold crawler_pause. destruct (pause_loop_bounds (Z.to_nat (whole_seconds interval)) isStopping 0) as [Hn Hk].
  split; [lia | exact Hk].
Qed.

(** ** What a run submits *)
Section properties.
Context {R : Regexp} {CB CP : Type} `{GoRange}.

(** A get with prefix answers from the store. *)
Definition prefix_answers (get : string -> result (list (string * string)))
    (store : string -> option string) : Prop :=
  forall p, exists kvs, get p = inr kvs /\
    forall k v, (k, v) ∈ kvs <-> store k = Some v /\ HasPrefix k p = true.

Definition under (prefixes : list string) (k : string) : Prop :=
  exists p, p ∈ prefixes /\ HasPrefix k p = true.

(** Some rule instance that the key triggers is true in the store. *)
Definition due (bkp : baseKeyProcessor CP) (store : string -> option string) (key : string)
    (value : option string) : Prop :=
  exists rules sr i, getStaticRules (kp_rm bkp) key value = Some rules /\ (sr, i) ∈ rules /\
    holds store sr = true.

(** The store's pairs, put into a map one after the other. *)
Lemma fold_insert_store (store : string -> option string) kvs (m : gmap string string) k :
  (forall k' v, (k', v) ∈ kvs -> store k' = Some v) ->
  fold_left (fun m '(k, v) => <[k := v]> m) kvs m !! k =
  if decide (k ∈ kvs.*1) then store k else m !! k.
Proof.
  revert m. induction kvs as [|[k' v] kvs IH]; intros m Hkvs; cbn [fold_left].
  { rewrite decide_False; [done|]. set_solver. }
  rewrite IH by set_solver. destruct (decide (k = k')) as [->|Hne].
  - rewrite (decide_True (P := k' ∈ ((k', v) :: kvs).*1)) by set_solver.
    case_decide; [done|]. rewrite lookup_insert_eq. symmetry. apply Hkvs. by left.
  - rewrite lookup_insert_ne by done. rewrite fmap_cons, (decide_ext (k ∈ _ :: _) (k ∈ kvs.*1)); [done|].
    simpl. rewrite elem_of_cons. naive_solver.
Qed.

Lemma query_prefixes_spec get store prefixes values :
  prefix_answers get store -> (forall k v, values !! k = Some v -> store k = Some v) ->
  exists out, query_prefixes get prefixes values = Some out /\
    forall k v, out !! k = Some v <-> store k = Some v /\ (under prefixes k \/ values !! k = Some v).
Proof.
  intros Hget. revert values. induction prefixes as [|p prefixes IH]; intros values Hv.
  { exists values. split; [done|]. intros k v. unfold under. split; [auto|].
    intros [Hs [(? & Hn & _)|?]]; [by apply elem_of_nil in Hn | done]. }
  destruct (Hget p) as (kvs & Hp & Hkvs). cbn [query_prefixes]. rewrite Hp.
  assert (forall k, fold_left (fun m '(k, v) => <[k := v]> m) kvs values !! k =
            if decide (k ∈ kvs.*1) then store k else values !! k) as Hl.
  { intros k. apply fold_insert_store. intros k' v Hin. by apply Hkvs. }
  destruct (IH (fold_left (fun m '(k, v) => <[k := v]> m) kvs values)) as (out & -> & Hout).
  { intros k v. rewrite Hl. case_decide; auto. }
  exists out. split; [done|]. intros k v. rewrite Hout, Hl. apply and_iff_compat_l_of. intros Hs.
  unfold under. case_decide as Hd.
  - apply list_elem_of_fmap in Hd as ([? v'] & -> & Hin). apply Hkvs in Hin as [_ Hpre]. split; [|by right].
    intros _. left. exists p. split; [by left | done].
  - assert (HasPrefix k p <> true) as Hnp 
      by (intros Hpre; apply Hd, list_elem_of_fmap; exists (k, v); by rewrite Hkvs).
    split.
    + intros [(q & Hq & Hpre)|?]; [left; exists q; split; [by right | done] | by right].
    + intros [(q & [->|Hq]%elem_of_cons & Hpre)|?]; [done | left; eauto | by right].
Qed.

(** The check on the cache agrees with the store. *)
Lemma isWork_due (bkp : baseKeyProcessor CP) store cache key value :
  (exists rules, getStaticRules (kp_rm bkp) key value = Some rules) ->
  (forall rules sr i k, getStaticRules (kp_rm bkp) key value = Some rules -> (sr, i) ∈ rules ->
     k ∈ getKeys sr -> cache k = inr (store k)) ->
  exists b, isWork bkp key value cache = Some b /\ (b = true <-> due bkp store key value).
Proof.
  intros [rules Hr] Hcache. unfold isWork. rewrite Hr. eexists. split; [done|].
  assert (forall sr i, (sr, i) ∈ rules -> satisfied_ sr cache = holds store sr) as Hs.
  { intros sr i Hin. unfold satisfied_. replace (satisfied sr cache) with (@inr string _ (holds store sr)); [done|].
    rewrite <- satisfied_store. apply satisfied_agree. intros k Hk. symmetry. eauto. }
  rewrite existsb_exists. unfold due. split.
  - intros ([sr i] & Hin & Hsat). rewrite <- list_elem_of_In, rule_order_perm in Hin.
    exists rules, sr, i. by rewrite <- (Hs sr i).
  - intros (rules' & sr & i & Hr' & Hin & Hh). rewrite Hr in Hr'. injection Hr' as <-.
    exists (sr, i). by rewrite <- list_elem_of_In, rule_order_perm, (Hs sr i).
Qed.

Lemma process_data_loop_spec (bkp : baseKeyProcessor CP) api store cache n kvs :
  (forall k v, (k, v) ∈ kvs -> exists b, isWork bkp k (Some v) cache = Some b /\
     (b = true <-> due bkp store k (Some v))) ->
  exists tasks, process_data_loop bkp api (fun _ => false) cache n kvs = Some tasks /\
    forall t, t ∈ tasks <-> exists k v, (k, v) ∈ kvs /\ due bkp store k (Some v) /\
      t = mkKeyTask k (Some v) api crawler_metadata.
Proof.
  revert n. induction kvs as [|[k v] kvs IH]; intros n Hw; cbn [process_data_loop].
  { exists []. split; [done|]. set_solver. }
  destruct (Hw k v) as (b & -> & Hb); [by left|].
  destruct (IH (S n)) as (tasks & Ht & Hin); [intros; apply Hw; by right|].
  simpl. rewrite Ht. eexists. split; [done|]. intros t. destruct b; rewrite ?elem_of_cons, Hin.
  - split.
    + intros [->|(k' & v' & Hkv & Hd & ->)]; [exists k, v | exists k', v']; split_and!; auto; set_solver.
    + intros (k' & v' & [[= -> ->]|Hkv]%elem_of_cons & Hd & ->); [by left | right; eauto 10].
  - split.
    + intros (k' & v' & Hkv & Hd & ->). exists k', v'. split_and!; auto. by right.
    + intros (k' & v' & [[= -> ->]|Hkv]%elem_of_cons & Hd & ->); [|eauto 10].
      by apply Hb in Hd.
Qed.

(** A run that is not stopped submits exactly the keys under the prefixes for
    which a rule is satisfied in the store. *)
Lemma crawler_singleRun_exact ic (bkp : baseKeyProcessor CP) get api store :
  prefix_answers get store ->
  (forall key value, exists rules, getStaticRules (kp_rm bkp) key value = Some rules) ->
  (forall key value rules sr i k, getStaticRules (kp_rm bkp) key value = Some rules ->
     (sr, i) ∈ rules -> k ∈ getKeys sr -> under (ic_prefixes ic) k) ->
  exists tasks, crawler_singleRun ic bkp get api (fun _ => false) = Some tasks /\
    forall t, t ∈ tasks <-> exists k v, store k = Some v /\ under (ic_prefixes ic) k /\
      due bkp store k (Some v) /\ t = mkKeyTask k (Some v) api crawler_metadata.
Proof.
  intros Hget Htotal Hcover. unfold crawler_singleRun.
  destruct (query_prefixes_spec get store (ic_prefixes ic) ∅ Hget) as (values & -> & Hvalues); [done|].
  assert (forall k v, values !! k = Some v <-> store k = Some v /\ under (ic_prefixes ic) k) as Hv.
  { intros k v. rewrite Hvalues, lookup_empty. naive_solver. }
  unfold processData. destruct (process_data_loop_spec bkp api store (cacheReadAPI_get values) 1 (range values))
    as (tasks & -> & Hin).
  { intros k v _. apply isWork_due; [done|]. intros rules sr i k' Hr Hi Hk.
    specialize (Hcover _ _ _ _ _ _ Hr Hi Hk). unfold cacheReadAPI_get.
    destruct (store k') as [v'|] eqn:E; [by rewrite (proj2 (Hv k' v'))|].
    destruct (values !! k') as [v'|] eqn:E'; [|done]. apply Hv in E' as [? _]. congruence. }
  exists tasks. split; [done|]. intros t. rewrite Hin.
  setoid_rewrite elem_of_range. setoid_rewrite Hv. naive_solver.
Qed.
End properties.

(** ** The mutex of the crawlers *)
Section mutex.
Context {S L : Type} {RLk : RuleLocker S L} {EL : ExclusiveLocker S L}.

(** While the mutex is held a run is skipped, and no held key is released. *)
Lemma crawler_iteration_busy ic m run now later (s : S) :
  ic_mutex ic = Some m -> busy s ("/crawler/" +:+ m) = true ->
  exists s', crawler_iteration ic run now later s = (s', None) /\
    forall k, busy s k = true -> busy s' k = true.
Proof.
  intros Hm Hb. unfold crawler_iteration. rewrite Hm.
  destruct (Lock now s _ _) as [s1 [e|l]] eqn:E.
  - exists s1. split; [done|]. by eapply Lock_err.
  - apply Lock_ok in E as (_ & Hf & _). congruence.
Qed.

(** An iteration leaves the keys of others as they were. *)
Lemma crawler_iteration_others ic run now later (s s' : S) r :
  crawler_iteration ic run now later s = (s', r) -> forall k, busy s k = true -> busy s' k = true.
Proof.
  unfold crawler_iteration. destruct (ic_mutex ic) as [m|]; [|by intros [= <- <-]].
  destruct (Lock now s _ _) as [s1 [e|l]] eqn:E; [intros [= <- <-]; by eapply Lock_err|].
  destruct (Unlock later s1 l []) as [s2 err] eqn:Eu. intros [= <- <-] k Hk.
  destruct (Lock_ok _ _ _ _ _ _ E) as (Hl & Hfree & _ & Hkeep).
  eapply Unlock_other; [exact Eu | | by apply Hkeep]. intros ->. congruence.
Qed.
End mutex.

(** ** Counting evaluations *)
Definition incRuleProcessedCount (counts : gmap string nat) (ruleID : string) : gmap string nat :=
  <[ruleID := default 0 (counts !! ruleID) + 1]> counts.

(** From the reset at the start of a run on, the map counts the evaluations. *)
Lemma processed_counts (ids : list string) (id : string) :
  default 0 (fold_left incRuleProcessedCount ids ∅ !! id) = length (filter (fun i => i = id) ids).
Proof.
  induction ids as [|i ids IH] using rev_ind; [done|].
  rewrite fold_left_app, filter_app, length_app, <- IH. simpl. unfold incRuleProcessedCount at 1.
  rewrite filter_cons, filter_nil. destruct (decide (i = id)) as [->|Hne].
  - by rewrite lookup_insert_eq.
  - rewrite lookup_insert_ne by done. simpl. lia.
Qed.
