(* ===== verification/Worker.v ===== *)
(** * The workers (rules/worker.go) *)
(** A worker takes work from the channel, evaluates the rule, takes the lock,
    evaluates the rule again and runs the callback.  [doWork] is a program over
    its interactions with the rest of the system (reading etcd, the stop flag,
    the locker, the callback); [sys_step] interleaves the programs of all workers
    and the steps of their lock calls over one shared locker. *)
From S2P Require Import Prelude GoString Attributes Matcher StaticRule DynamicRule Instantiation KeyProcessor Lock LockCalls.

(** ** Programs *)
Section programs.
Context {CB CP L : Type}.

Inductive prog :=
| Ret
| DoGetCached (keys : list string) (k : result readAPI -> prog)
| DoReadStopping (k : bool -> prog)
| DoLock (key : string) (options : list Option) (k : result L -> prog)
| DoUnlock (l : L) (k : option string -> prog)
| DoIncSatisfiedThenNot (pattern phase : string) (k : prog)
(* the callback is running; it may end with a panic *)
| DoCallback (work : v3RuleWork CB CP) (attrMap : gmap string string) (k : bool -> prog)
| DoCallbackDone (ruleID : string) (attributes : extendedAttributes) (k : prog).

(** [getCachedAPI], then [satisfied], with their error returns. *)
Definition evaluate (rule : staticRule) (onError : prog) (k : bool -> prog) : prog :=
  DoGetCached (getKeys rule) (fun r =>
    match r with
    | inl _ => onError
    | inr capi =>
      match satisfied rule capi with
      | inl _ => onError
      | inr sat => k sat
      end
    end).

(** The map of the attributes for the log; the dereference of a nil value
    panics. *)
Definition attr_map `{GoRange} (attributes : extendedAttributes) : option (gmap string string) :=
  fold_left (fun m attrName =>
               m' ← m; ptr ← GetAttribute attributes attrName; v ← ptr;
               Some (<[attrName := v]> m')) (names attributes) (Some (∅ : gmap string string)).

(** [listening] tells whether there is a callback listener.  The deferred
    unlock runs on every path after the lock was obtained, and a panic ends in
    the recover of [singleRun]. *)
Definition doWork `{GoRange} (listening : bool) (work : v3RuleWork CB CP) : prog :=
  let rule := work_rule work in
  evaluate rule Ret (fun sat =>
    if negb sat then DoIncSatisfiedThenNot (work_keyPattern work) "worker.doWorkBeforeLock" Ret
    else DoReadStopping (fun stopping =>
      if stopping then Ret
      else DoLock (work_lockKey work)
             [PatternForLock (work_keyPattern work); MethodForLock "worker_lock"] (fun r =>
        match r with
        | inl _ => Ret
        | inr l =>
          let deferred := DoUnlock l (fun _ => Ret) in
          evaluate rule deferred (fun sat =>
            if negb sat then DoIncSatisfiedThenNot (work_keyPattern work) "worker.doWorkAfterLock" deferred
            else DoReadStopping (fun stopping =>
              if stopping then deferred
              else match getAttributes rule with
                   | None => deferred
                   | Some attributes =>
                     match attr_map attributes with
                     | None => deferred
                     | Some attrMap =>
                       DoCallback work attrMap (fun panicked : bool =>
                         if panicked then deferred
                         else if listening then DoCallbackDone (work_ruleID work) attributes deferred
                              else deferred)
                     end
                   end))
        end))).

Definition addWorkerID (workerID : string) (ruleContext : gmap string string) : gmap string string :=
  <["rule_worker" := workerID]> ruleContext.

(** [sel] is what the select statement received: [None] for the done channel.
    Calling a nil context provider panics and is recovered. *)
Definition singleRun `{GoRange} (workerID : string) (listening : bool)
    (sel : option (v3RuleWork CB CP)) : prog :=
  match sel with
  | None => Ret
  | Some work =>
    DoReadStopping (fun stopping =>
      if stopping then Ret
      else
        let newMetadata := addWorkerID workerID (work_metadata work) in
        let work' := mkV3RuleWork (work_ruleID work) (work_rule work) (work_ruleIndex work)
                       (work_attr work) newMetadata (ruleTaskCallback work) (work_lockKey work)
                       (work_keyPattern work) (work_contextProvider work) in
        match work_contextProvider work with
        | None => Ret
        | Some _ => doWork listening work'
        end)
  end.
End programs.
Arguments prog CB CP L : clear implicits.

(** ** The protocol *)
(** What a worker has done since it took the lock: the lock it holds, the
    snapshot it read and the stop flag it saw, each since the lock was taken. *)
Section protocol.
Context {CB CP L : Type}.

Record ghost := mkGhost {
  g_lock : option (string * L);
  g_api : option readAPI;
  g_stopping : option bool
}.

Definition idle : ghost := mkGhost None None None.

(** A program that, started in [g], takes at most one lock at a time, releases
    it before it ends, and runs a callback only while it holds the lock of the
    work, after it evaluated the rule to true on a snapshot read under the
    lock and saw that the engine is not stopping. *)
Fixpoint follows (g : ghost) (p : prog CB CP L) : Prop :=
  match p with
  | Ret => g_lock g = None
  | DoGetCached _ k =>
    forall r, follows (mkGhost (g_lock g) (match r with inr api => Some api | inl _ => None end)
                         (g_stopping g)) (k r)
  | DoReadStopping k => forall b, follows (mkGhost (g_lock g) (g_api g) (Some b)) (k b)
  | DoLock key _ k =>
    g_lock g = None /\ (forall e, follows idle (k (inl e))) /\
    (forall l, follows (mkGhost (Some (key, l)) None None) (k (inr l)))
  | DoUnlock l k => (exists key, g_lock g = Some (key, l)) /\ forall e, follows idle (k e)
  | DoIncSatisfiedThenNot _ _ k => follows g k
  | DoCallback work _ k =>
    (exists l, g_lock g = Some (work_lockKey work, l)) /\
    (exists api, g_api g = Some api /\ satisfied (work_rule work) api = inr true) /\
    g_stopping g = Some false /\ forall b, follows g (k b)
  | DoCallbackDone _ _ k => follows g k
  end.

Lemma evaluate_follows g rule onError k :
  (forall api, follows (mkGhost (g_lock g) api (g_stopping g)) onError) ->
  (forall api sat, satisfied rule api = inr sat ->
     follows (mkGhost (g_lock g) (Some api) (g_stopping g)) (k sat)) ->
  follows g (evaluate rule onError k).
Proof.
  intros He Hk [err|api]; simpl; [apply He|].
  destruct (satisfied rule api) as [err|sat] eqn:Hs; [apply He | by apply Hk].
Qed.

Ltac unlocks := simpl; split; [by eexists | done].

Lemma doWork_follows `{GoRange} g listening (work : v3RuleWork CB CP) :
  g_lock g = None -> follows g (doWork listening work).
Proof.
  intros Hg.
  apply evaluate_follows; [done|]. intros api0 [|] _; simpl; [|done].
  intros [|]; [done|]. split_and!; [done | done |]. intros l.
  apply evaluate_follows; [intros; unlocks|]. intros api [|] Hs; simpl; [|unlocks].
  intros [|]; [unlocks|]. destruct (getAttributes (work_rule work)) as [attr|]; [|unlocks].
  destruct (attr_map attr) as [m|]; [|unlocks]. simpl.
  split_and!; [by eexists | by exists api | done |]. intros [|]; [unlocks|].
  destruct listening; unlocks.
Qed.

Lemma singleRun_follows `{GoRange} workerID listening (sel : option (v3RuleWork CB CP)) :
  follows idle (singleRun workerID listening sel).
Proof.
  destruct sel as [work|]; [|done]. intros [|]; [done|]. cbv zeta.
  destruct (work_contextProvider work); [|done].
  by apply doWork_follows.
Qed.
End protocol.

(** ** One worker in a constant environment *)
Inductive action {CB CP L : Type} :=
| ActLock (key : string) (l : L)
| ActRefused (key : string)
| ActUnlock (l : L)
| ActIncSatisfiedThenNot (phase : string)
| ActCallback (work : v3RuleWork CB CP) (attrMap : gmap string string)
| ActCallbackDone (ruleID : string).
Arguments action CB CP L : clear implicits.

(** What the environment answers while the work is done. *)
Record answers (L : Type) := mkAnswers {
  ans_api : result readAPI;
  ans_stopping : bool;
  ans_lock : result L;
  ans_panics : bool
}.
Arguments mkAnswers {L}.
Arguments ans_api {L}.
Arguments ans_stopping {L}.
Arguments ans_lock {L}.
Arguments ans_panics {L}.

Fixpoint perform {CB CP L} (env : answers L) (p : prog CB CP L) : list (action CB CP L) :=
  match p with
  | Ret => []
  | DoGetCached _ k => perform env (k (ans_api env))
  | DoReadStopping k => perform env (k (ans_stopping env))
  | DoLock key _ k =>
    match ans_lock env with inl _ => ActRefused key | inr l => ActLock key l end ::
    perform env (k (ans_lock env))
  | DoUnlock l k => ActUnlock l :: perform env (k None)
  | DoIncSatisfiedThenNot _ phase k => ActIncSatisfiedThenNot phase :: perform env k
  | DoCallback work m k => ActCallback work m :: perform env (k (ans_panics env))
  | DoCallbackDone ruleID _ k => ActCallbackDone ruleID :: perform env k
  end.

Section attributes.
Context `{GoRange}.

Lemma find_instance_None attrs n : find_instance attrs n = None -> n ∉ (ai_key <$> attrs).
Proof.
  induction attrs as [|a attrs IH]; simpl; [intros _; apply not_elem_of_nil|].
  case_decide; [done|]. rewrite not_elem_of_cons. auto.
Qed.

Lemma names_GetAttribute a n :
  is_Some (FindAttribute a n) -> n ∈ names a -> exists v, GetAttribute a n = Some (Some v).
Proof.
  induction a as [m|values|nested IH attrs]; simpl.
  - unfold km_lookup. rewrite elem_of_range_keys. intros Hs [i Hi]. rewrite Hi in *.
    destruct (matchStrings m !! i) as [v|]; [by eexists | by destruct Hs].
  - rewrite elem_of_range_keys. intros _ [v ->]. by eexists.
  - rewrite elem_of_app. destruct (find_instance attrs n) as [ai|] eqn:E.
    + intros [x Hx] _. destruct (ai_value ai) as [v|]; [by eexists | done].
    + intros Hs [Hn|Hn]; [by apply find_instance_None in E | auto].
Qed.

Lemma attr_map_total a : attr_total a -> is_Some (attr_map a).
Proof.
  intros Ht. unfold attr_map.
  assert (forall l (m : gmap string string), (forall n, n ∈ l -> exists v, GetAttribute a n = Some (Some v)) ->
            is_Some (fold_left (fun m attrName =>
               m' ← m; ptr ← GetAttribute a attrName; v ← ptr;
               Some (<[attrName := v]> m')) l (Some m))) as Hfold.
  { induction l as [|n l IH]; intros m Hl; [done|]. cbn [fold_left].
    destruct (Hl n) as [v Hv]; [by left|]. simpl. rewrite Hv. simpl.
    apply IH. intros n' Hn'. apply Hl. by right. }
  apply Hfold. intros n Hn. apply names_GetAttribute; [apply Ht | done].
Qed.

Lemma doWork_performs {CB CP L} (work : v3RuleWork CB CP) (listening panics : bool) (api : readAPI) (l : L) attr :
  getAttributes (work_rule work) = Some attr -> attr_total attr -> satisfied (work_rule work) api = inr true ->
  exists attrMap,
    perform (mkAnswers (inr api) false (inr l) panics) (doWork listening work) =
    [ActLock (work_lockKey work) l; ActCallback work attrMap] ++
    (if listening && negb panics then [ActCallbackDone (work_ruleID work)] else []) ++ [ActUnlock l].
Proof.
  intros Hattr Htotal Hsat. destruct (attr_map_total attr Htotal) as [m Hm]. exists m.
  unfold doWork, evaluate. simpl. rewrite Hsat. simpl. rewrite Hsat. simpl. rewrite Hattr, Hm. simpl.
  by destruct panics, listening.
Qed.

(** C24: A worker that finds the rule satisfied, gets the lock and is not
    stopped does the work: it takes the lock of the work, runs the callback
    (and reports it to the listener unless it panics) and releases the lock,
    in this order and nothing else. *)
Theorem doWork_runs_callback {CB CP L} (work : v3RuleWork CB CP) (listening panics : bool)
    (api : readAPI) (l : L) (attr : extendedAttributes)
    (Hattr : getAttributes (work_rule work) = Some attr) (Htotal : attr_total attr)
    (Hsat : satisfied (work_rule work) api = inr true) :
  exists attrMap,
    perform (mkAnswers (inr api) false (inr l) panics) (doWork listening work) =
    [ActLock (work_lockKey work) l; ActCallback work attrMap] ++
    (if listening && negb panics then [ActCallbackDone (work_ruleID work)] else []) ++ [ActUnlock l].
Proof. by eapply doWork_performs. Qed.

(** The work as [singleRun] hands it to [doWork], with a worker's ID. *)
Definition taken_by {CB CP} (workerID : string) (work : v3RuleWork CB CP) : v3RuleWork CB CP :=
  mkV3RuleWork (work_ruleID work) (work_rule work) (work_ruleIndex work) (work_attr work)
    (addWorkerID workerID (work_metadata work)) (ruleTaskCallback work) (work_lockKey work)
    (work_keyPattern work) (work_contextProvider work).

Lemma singleRun_performs {CB CP L} (work : v3RuleWork CB CP) workerID listening panics api (l : L) attr :
  getAttributes (work_rule work) = Some attr -> attr_total attr -> satisfied (work_rule work) api = inr true ->
  is_Some (work_contextProvider work) ->
  exists attrMap,
    perform (mkAnswers (inr api) false (inr l) panics) (singleRun workerID listening (Some work)) =
    [ActLock (work_lockKey work) l; ActCallback (taken_by workerID work) attrMap] ++
    (if listening && negb panics then [ActCallbackDone (work_ruleID work)] else []) ++ [ActUnlock l].
Proof.
  intros Hattr Htotal Hsat [cp Hcp]. unfold singleRun. simpl. rewrite Hcp.
  destruct (doWork_performs (taken_by workerID work) listening panics api l attr) as [m Hm]; [done..|].
  exists m. unfold taken_by in *. by rewrite Hcp in *.
Qed.
End attributes.

(** ** The system of workers *)
Section system.
Context {CB CP S L : Type} {LC : LockerCalls S L} `{GoRange}.

(** The call of the locker a worker is in. *)
Inductive in_call :=
| NoCall
| InLock (c : lock_call (S := S) (L := L))
| InUnlock (c : unlock_call (S := S) (L := L)).

Definition worker : Type := prog CB CP L * ghost (L := L) * in_call.

(** Any worker performs its next interaction, or the next step of the lock call
    it is in; an idle worker takes new work.  What etcd, the stop flag and the
    callbacks answer is arbitrary, and others may interfere with the locker. *)
Inductive sys_step : S * list worker -> S * list worker -> Prop :=
| sys_start s ws i g workerID listening sel :
    ws !! i = Some (Ret, g, NoCall) ->
    sys_step (s, ws) (s, <[i := (singleRun workerID listening sel, idle, NoCall)]> ws)
| sys_cached s ws i keys k g r :
    ws !! i = Some (DoGetCached keys k, g, NoCall) ->
    sys_step (s, ws)
      (s, <[i := (k r, mkGhost (g_lock g) (match r with inr api => Some api | inl _ => None end)
                         (g_stopping g), NoCall)]> ws)
| sys_stopping s ws i k g b :
    ws !! i = Some (DoReadStopping k, g, NoCall) ->
    sys_step (s, ws) (s, <[i := (k b, mkGhost (g_lock g) (g_api g) (Some b), NoCall)]> ws)
| sys_lock_begin s ws i key o k g :
    ws !! i = Some (DoLock key o k, g, NoCall) ->
    sys_step (s, ws) (s, <[i := (DoLock key o k, g, InLock (lock_begin key o))]> ws)
| sys_lock_next s ws i key o k g c now s' c' :
    ws !! i = Some (DoLock key o k, g, InLock c) -> lock_next now s c = (s', Goes c') ->
    sys_step (s, ws) (s', <[i := (DoLock key o k, g, InLock c')]> ws)
| sys_lock s ws i key o k g c now s' l :
    ws !! i = Some (DoLock key o k, g, InLock c) -> lock_next now s c = (s', Returns (inr l)) ->
    sys_step (s, ws) (s', <[i := (k (inr l), mkGhost (Some (key, l)) None None, NoCall)]> ws)
| sys_refused s ws i key o k g c now s' e :
    ws !! i = Some (DoLock key o k, g, InLock c) -> lock_next now s c = (s', Returns (inl e)) ->
    sys_step (s, ws) (s', <[i := (k (inl e), idle, NoCall)]> ws)
| sys_unlock_begin s ws i l k g :
    ws !! i = Some (DoUnlock l k, g, NoCall) ->
    sys_step (s, ws) (s, <[i := (DoUnlock l k, g, InUnlock (unlock_begin l []))]> ws)
| sys_unlock_next s ws i l k g c now s' c' :
    ws !! i = Some (DoUnlock l k, g, InUnlock c) -> unlock_next now s c = (s', Goes c') ->
    sys_step (s, ws) (s', <[i := (DoUnlock l k, g, InUnlock c')]> ws)
| sys_unlock s ws i l k g c now s' e :
    ws !! i = Some (DoUnlock l k, g, InUnlock c) -> unlock_next now s c = (s', Returns e) ->
    sys_step (s, ws) (s', <[i := (k e, idle, NoCall)]> ws)
| sys_metric s ws i pattern phase k g :
    ws !! i = Some (DoIncSatisfiedThenNot pattern phase k, g, NoCall) ->
    sys_step (s, ws) (s, <[i := (k, g, NoCall)]> ws)
| sys_callback s ws i work m k g panicked :
    ws !! i = Some (DoCallback work m k, g, NoCall) ->
    sys_step (s, ws) (s, <[i := (k panicked, g, NoCall)]> ws)
| sys_callback_done s ws i ruleID attr k g :
    ws !! i = Some (DoCallbackDone ruleID attr k, g, NoCall) -> sys_step (s, ws) (s, <[i := (k, g, NoCall)]> ws)
| sys_others s ws s' : interference s s' -> sys_step (s, ws) (s', ws).

(** A worker as a client of the locker. *)
Definition client_of (w : worker) : client S L :=
  match w with
  | (DoLock key _ _, _, InLock c) => Locking key c
  | (_, g, InUnlock c) => match g_lock g with Some (k, l) => Unlocking k l c | None => Idle end
  | (_, g, _) => match g_lock g with Some (k, l) => Holding k l | None => Idle end
  end.

Lemma client_of_NoCall p g : client_of (p, g, NoCall) = match g_lock g with Some (k, l) => Holding k l | None => Idle end.
Proof. by destruct p. Qed.

(** A worker follows the protocol, and is in a call only where its program
    calls the locker. *)
Definition worker_ok (w : worker) : Prop :=
  follows w.1.2 w.1.1 /\
  match w.2, w.1.1 with
  | NoCall, _ | InLock _, DoLock _ _ _ | InUnlock _, DoUnlock _ _ => True
  | _, _ => False
  end.

Record sys_inv (s0 : S) (n : nat) (c : S * list worker) : Prop := {
  sys_follows : Forall worker_ok c.2;
  sys_clients : rtc client_step (s0, replicate n Idle) (c.1, client_of <$> c.2)
}.

(** A step that does not concern the locker. *)
Lemma sys_same s0 n s ws i p g p' g' :
  sys_inv s0 n (s, ws) -> ws !! i = Some (p, g, NoCall) -> g_lock g' = g_lock g -> follows g' p' ->
  sys_inv s0 n (s, <[i := (p', g', NoCall)]> ws).
Proof.
  intros [Hf Hc] Hi Hg Hw. split; simpl in *; [by apply Forall_insert|].
  erewrite (fmap_same client_of); [done | done |]. by rewrite !client_of_NoCall, Hg.
Qed.

(** A step of the locker. *)
Lemma sys_call s0 n s s' ws i w w' :
  sys_inv s0 n (s, ws) -> ws !! i = Some w -> worker_ok w' ->
  (forall cs, cs !! i = Some (client_of w) -> client_step (s, cs) (s', <[i := client_of w']> cs)) ->
  sys_inv s0 n (s', <[i := w']> ws).
Proof.
  intros [Hf Hc] Hi Hw Hs. split; simpl in *; [by apply Forall_insert|].
  rewrite list_fmap_insert. eapply rtc_r; [exact Hc|]. apply Hs. by rewrite list_lookup_fmap, Hi.
Qed.

Lemma sys_inv_step s0 n c c' : sys_step c c' -> sys_inv s0 n c -> sys_inv s0 n c'.
Proof.
  intros Hs I. destruct Hs as [s ws i g wid ls sel Hi|s ws i keys k g r Hi|s ws i k g b Hi|s ws i key o k g Hi
    |s ws i key o k g c now s' c' Hi E|s ws i key o k g c now s' l Hi E|s ws i key o k g c now s' e Hi E
    |s ws i l k g Hi|s ws i l k g c now s' c' Hi E|s ws i l k g c now s' e Hi E|s ws i pt ph k g Hi
    |s ws i wk m k g b Hi|s ws i rid attr k g Hi|s ws s' Hx].
  14: destruct I as [Hf Hc]; split; [done | eapply rtc_r; [exact Hc | by apply others_act]].
  all: destruct (Forall_lookup_1 _ _ _ _ (sys_follows _ _ _ I) Hi) as [Hw _]; simpl in Hw.
  1-3, 11-13: eapply sys_same; [exact I | exact Hi | |]; simpl; try done; try apply Hw; try apply singleRun_follows.
  - eapply sys_call; [exact I | exact Hi | done |]. simpl. destruct Hw as [-> _]. intros cs Hcs. by apply begin_lock.
  - eapply sys_call; [exact I | exact Hi | done |]. intros cs Hcs. by eapply next_lock.
  - eapply sys_call; [exact I | exact Hi | split; [apply Hw | done] |]. rewrite client_of_NoCall. simpl.
    intros cs Hcs. by eapply lock_granted.
  - eapply sys_call; [exact I | exact Hi | split; [apply Hw | done] |]. rewrite client_of_NoCall. simpl.
    intros cs Hcs. by eapply lock_refused.
  - eapply sys_call; [exact I | exact Hi | done |]. simpl. destruct Hw as [[key ->] _]. intros cs Hcs.
    by apply begin_unlock.
  - eapply sys_call; [exact I | exact Hi | done |]. simpl. destruct Hw as [[key ->] _]. intros cs Hcs.
    by eapply next_unlock.
  - eapply sys_call; [exact I | exact Hi | split; [apply Hw | done] |]. rewrite client_of_NoCall. simpl.
    destruct Hw as [[key ->] _]. intros cs Hcs. by eapply unlock_returned.
Qed.

Lemma sys_inv_reachable s0 n c : rtc sys_step (s0, replicate n (Ret, idle, NoCall)) c -> sys_inv s0 n c.
Proof.
  intros Hs. eapply (rtc_invariant _ _ _ _ (sys_inv_step s0 n) Hs). split; simpl.
  - by apply Forall_replicate.
  - by rewrite fmap_replicate.
Qed.

(** C6: A callback only runs under its lock and on fresh data: in every
    reachable state of a system of any number of workers, a worker that runs
    the callback of some work holds a lock for the lock key of that work, has
    evaluated its rule to true on a snapshot read after it got the lock, and
    has seen after that that the engine is not stopping. *)
Theorem callback_guarded (s0 s : S) (n i : nat) (ws : list worker) (work : v3RuleWork CB CP)
    (m : gmap string string) (k : bool -> prog CB CP L) (g : ghost) (b : in_call)
    (Hsteps : rtc sys_step (s0, replicate n (Ret, idle, NoCall)) (s, ws))
    (Hi : ws !! i = Some (DoCallback work m k, g, b)) :
  (exists l, g_lock g = Some (work_lockKey work, l)) /\
  (exists api, g_api g = Some api /\ satisfied (work_rule work) api = inr true) /\
  g_stopping g = Some false.
Proof.
  destruct (Forall_lookup_1 _ _ _ _ (sys_follows _ _ _ (sys_inv_reachable _ _ _ Hsteps)) Hi)
    as [(Hl & Ha & Hs & _) _]. done.
Qed.

(** C5: Callbacks exclude each other: with a locker that excludes, no two
    workers ever run callbacks with the same lock key at the same time, however
    the steps of the workers and the steps of their lock calls interleave. *)
Theorem callbacks_exclusive `{!CallsExclusive S L} (s0 s : S) (n i j : nat) (ws : list worker)
    (work work' : v3RuleWork CB CP) (m m' : gmap string string) (k k' : bool -> prog CB CP L) (g g' : ghost)
    (b b' : in_call)
    (Hsteps : rtc sys_step (s0, replicate n (Ret, idle, NoCall)) (s, ws))
    (Hi : ws !! i = Some (DoCallback work m k, g, b)) (Hj : ws !! j = Some (DoCallback work' m' k', g', b'))
    (Hkey : work_lockKey work = work_lockKey work') :
  i = j.
Proof.
  destruct (sys_inv_reachable _ _ _ Hsteps) as [Hf Hc]. simpl in *.
  assert (forall i work m k g b, ws !! i = Some (DoCallback work m k, g, b) ->
    exists l, (client_of <$> ws) !! i = Some (Holding (work_lockKey work) l)) as Hholds.
  { intros x wk mx kx gx bx Hx. destruct (Forall_lookup_1 _ _ _ _ Hf Hx) as [([l Hl] & _) Hb].
    exists l. rewrite (list_lookup_fmap_Some_2 client_of ws x _ Hx). simpl in *. destruct bx; [|done..]. by rewrite Hl. }
  destruct (Hholds _ _ _ _ _ _ Hi) as [l Hl]. destruct (Hholds _ _ _ _ _ _ Hj) as [l' Hl'].
  rewrite Hkey in Hl. exact (holding_unique n s0 s _ i j _ l l' Hc Hl Hl').
Qed.
End system.
