(* ===== verification/Json.v ===== *)
(** * JSON texts (package encoding/json) *)
(** What the callback listener and its handler use of encoding/json: strings
    are quoted as [Marshal] does, and a decoder reads any JSON value.  Texts are
    lists of bytes.  A Go string may hold bytes that are not UTF-8; [Marshal]
    replaces each of them by U+FFFD. *)
From S2P Require Import Prelude GoString.
From Stdlib Require Import NArith.

Abbreviation text := (list ascii).

Definition byte (c : ascii) : N := Ascii.N_of_ascii c.
Definition between (lo hi : N) (c : ascii) : bool := (lo <=? byte c)%N && (byte c <=? hi)%N.
Definition is_cont (c : ascii) : bool := between 128 191 c.

Definition quote : ascii := "034"%char.
Definition backslash : ascii := "092"%char.

(** The text of U+FFFD. *)
Definition replacement : text := chars (rune_to_string 65533).

(** ** UTF-8 *)
(** The encoded rune of more than one byte at the start of a text, and the rest;
    [None] where [utf8.DecodeRune] finds an error. *)
Definition read_rune (s : text) : option (text * text) :=
  match s with
  | b0 :: b1 :: s2 =>
    if between 194 223 b0 && is_cont b1 then Some ([b0; b1], s2)
    else match s2 with
    | b2 :: s3 =>
      if ((between 224 224 b0 && between 160 191 b1) || (between 225 236 b0 && is_cont b1) ||
          (between 237 237 b0 && between 128 159 b1) || (between 238 239 b0 && is_cont b1)) && is_cont b2
      then Some ([b0; b1; b2], s3)
      else match s3 with
      | b3 :: s4 =>
        if ((between 240 240 b0 && between 144 191 b1) || (between 241 243 b0 && is_cont b1) ||
            (between 244 244 b0 && between 128 143 b1)) && is_cont b2 && is_cont b3
        then Some ([b0; b1; b2; b3], s4)
        else None
      | [] => None
      end
    | [] => None
    end
  | _ => None
  end.

(** A string in pieces: ASCII characters, encoded runes and bytes that belong to
    no rune. *)
Inductive piece :=
| Plain (c : ascii)
| Encoded (bytes : text)
| Stray (c : ascii).

(** Each round takes at least a byte, so that the length is enough fuel. *)
Fixpoint pieces_loop (fuel : nat) (s : text) : list piece :=
  match fuel, s with
  | 0, _ | _, [] => []
  | S fuel', c :: s' =>
    if (byte c <? 128)%N then Plain c :: pieces_loop fuel' s'
    else match read_rune s with
         | Some (bytes, rest) => Encoded bytes :: pieces_loop fuel' rest
         | None => Stray c :: pieces_loop fuel' s'
         end
  end.

Definition pieces (s : text) : list piece := pieces_loop (length s) s.

Definition is_stray (p : piece) : bool := match p with Stray _ => true | _ => false end.

(** [utf8.ValidString]. *)
Definition valid_utf8 (s : string) : bool := negb (existsb is_stray (pieces (chars s))).

(** ** Quoting a string *)
Definition hex_digit (n : N) : ascii :=
  if (n <? 10)%N then Ascii.ascii_of_N (48 + n) else Ascii.ascii_of_N (87 + n).

Definition hex4 (n : N) : text :=
  [hex_digit (n / 4096); hex_digit ((n / 256) mod 16); hex_digit ((n / 16) mod 16); hex_digit (n mod 16)].

Definition unicode_escape (n : N) : text := backslash :: "u"%char :: hex4 n.

(** The ASCII characters that are written as they are: those from the space on
    but the quote, the backslash and the three that matter in HTML. *)
Definition html_safe (c : ascii) : bool :=
  (32 <=? byte c)%N &&
  negb (bool_decide (c ∈ [quote; backslash; "<"%char; ">"%char; "&"%char])).

Definition escape_plain (c : ascii) : text :=
  if html_safe c then [c]
  else if bool_decide (c ∈ [quote; backslash]) then [backslash; c]
  else if (byte c =? 8)%N then [backslash; "b"%char]
  else if (byte c =? 12)%N then [backslash; "f"%char]
  else if (byte c =? 10)%N then [backslash; "n"%char]
  else if (byte c =? 13)%N then [backslash; "r"%char]
  else if (byte c =? 9)%N then [backslash; "t"%char]
  else unicode_escape (byte c).

(** U+2028 and U+2029 are escaped, since JavaScript takes them for newlines. *)
Definition escape_piece (p : piece) : text :=
  match p with
  | Plain c => escape_plain c
  | Encoded bytes =>
    if decide (bytes = chars (rune_to_string 8232)) then unicode_escape 8232
    else if decide (bytes = chars (rune_to_string 8233)) then unicode_escape 8233
    else bytes
  | Stray _ => unicode_escape 65533
  end.

Definition marshal_string (s : string) : text :=
  quote :: concat (escape_piece <$> pieces (chars s)) ++ [quote].

(** ** Reading a string *)
Definition hex_value (c : ascii) : option N :=
  if between 48 57 c then Some (byte c - 48)%N
  else if between 97 102 c then Some (byte c - 87)%N
  else if between 65 70 c then Some (byte c - 55)%N
  else None.

Definition getu4 (s : text) : option (N * text) :=
  match s with
  | a :: b :: c :: d :: s' =>
    a ← hex_value a; b ← hex_value b; c ← hex_value c; d ← hex_value d;
    Some (4096 * a + 256 * b + 16 * c + d, s')%N
  | _ => None
  end.

(** The escapes of one letter. *)
Definition unescape (c : ascii) : option ascii :=
  if bool_decide (c ∈ [quote; backslash; "/"%char]) then Some c
  else if bool_decide (c = "b"%char) then Some "008"%char
  else if bool_decide (c = "f"%char) then Some "012"%char
  else if bool_decide (c = "n"%char) then Some "010"%char
  else if bool_decide (c = "r"%char) then Some "013"%char
  else if bool_decide (c = "t"%char) then Some "009"%char
  else None.

(** The rune of an escape [\u], together with a second escape when the two are a
    surrogate pair; a lone surrogate is replaced. *)
Definition surrogate_pair (r : N) (s : text) : text * text :=
  if (55296 <=? r)%N && (r <? 57344)%N then
    match s with
    | b :: u :: s' =>
      match getu4 s' with
      | Some (r', rest) =>
        if bool_decide (b = backslash) && bool_decide (u = "u"%char) &&
           (r <? 56320)%N && (56320 <=? r')%N && (r' <? 57344)%N
        then (chars (rune_to_string (Z.of_N (65536 + 1024 * (r - 55296) + (r' - 56320)))), rest)
        else (replacement, s)
      | None => (replacement, s)
      end
    | _ => (replacement, s)
    end
  else (chars (rune_to_string (Z.of_N r)), s).

Definition prepend (p : text) (r : option (text * text)) : option (text * text) :=
  (fun '(s, rest) => (p ++ s, rest)) <$> r.

(** The string after an opening quote, and what follows the closing one; each
    round takes at least a byte. *)
Fixpoint unquote (fuel : nat) (s : text) : option (text * text) :=
  match fuel, s with
  | 0, _ | _, [] => None
  | S fuel', c :: s' =>
    if decide (c = quote) then Some ([], s')
    else if decide (c = backslash) then
      match s' with
      | [] => None
      | e :: s'' =>
        match unescape e with
        | Some d => prepend [d] (unquote fuel' s'')
        | None =>
          if decide (e = "u"%char) then
            '(r, s3) ← getu4 s'';
            let '(p, rest) := surrogate_pair r s3 in prepend p (unquote fuel' rest)
          else None
        end
      end
    else if (byte c <? 32)%N then None
    else if (byte c <? 128)%N then prepend [c] (unquote fuel' s')
    else match read_rune s with
         | Some (bytes, rest) => prepend bytes (unquote fuel' rest)
         | None => prepend replacement (unquote fuel' s')
         end
  end.

(** *** The round trip *)
(** What a piece is read back as. *)
Definition piece_text (p : piece) : text :=
  match p with
  | Plain c => [c]
  | Encoded bytes => bytes
  | Stray _ => replacement
  end.

(** What holds of the pieces of a string. *)
Definition piece_ok (p : piece) : Prop :=
  match p with
  | Plain c => (byte c <? 128)%N = true
  | Encoded bytes => (exists c bytes', bytes = c :: bytes' /\ (byte c <? 128)%N = false) /\
      forall t, read_rune (bytes ++ t) = Some (bytes, t)
  | Stray _ => True
  end.

Lemma read_rune_spec s bytes rest :
  read_rune s = Some (bytes, rest) ->
  s = bytes ++ rest /\ 2 <= length bytes /\ forall t, read_rune (bytes ++ t) = Some (bytes, t).
Proof.
  unfold read_rune. destruct s as [|b0 [|b1 s2]]; [done..|].
  destruct (between 194 223 b0 && is_cont b1) eqn:E2.
  { intros [= <- <-]. split_and!; [done | simpl; lia |]. intros t. simpl. by rewrite E2. }
  destruct s2 as [|b2 s3]; [done|].
  destruct (_ && is_cont b2) eqn:E3.
  { intros [= <- <-]. split_and!; [done | simpl; lia |]. intros t. simpl. by rewrite E2, E3. }
  destruct s3 as [|b3 s4]; [done|]. destruct (_ && is_cont b3) eqn:E4; [|done].
  intros [= <- <-]. split_and!; [done | simpl; lia |]. intros t. simpl. by rewrite E2, E3, E4.
Qed.

#[local] Arguments read_rune : simpl never.

Lemma pieces_loop_ok fuel s : Forall piece_ok (pieces_loop fuel s).
Proof.
  revert s. induction fuel as [|fuel IH]; intros [|c s]; simpl; [constructor..|].
  destruct (byte c <? 128)%N eqn:Ec; [by constructor|].
  destruct (read_rune (c :: s)) as [[bytes rest]|] eqn:Er; [|by constructor].
  apply read_rune_spec in Er as (Hs & Hlen & Hr). constructor; [|done]. split; [|done].
  destruct bytes as [|c' bytes]; simpl in *; [lia|]. injection Hs as <- _. eauto.
Qed.

(** The pieces make up the string, unless some byte is stray. *)
Lemma pieces_loop_text fuel s :
  length s <= fuel -> existsb is_stray (pieces_loop fuel s) = false ->
  concat (piece_text <$> pieces_loop fuel s) = s.
Proof.
  revert s. induction fuel as [|fuel IH]; intros [|c s]; simpl; [done | lia | done |]. intros Hl.
  destruct (byte c <? 128)%N; [simpl; intros Hs; rewrite IH; [done | lia | done]|].
  destruct (read_rune (c :: s)) as [[bytes rest]|] eqn:Er; [|done]. simpl. intros Hs.
  apply read_rune_spec in Er as (Heq & Hlen & _). rewrite IH; [done | | done].
  apply (f_equal length) in Heq. rewrite length_app in Heq. simpl in Heq. lia.
Qed.

Lemma pieces_loop_length fuel s : length (pieces_loop fuel s) <= fuel.
Proof.
  revert s. induction fuel as [|fuel IH]; intros [|c s]; simpl; [lia.. |].
  destruct (byte c <? 128)%N; simpl; [by apply le_n_S|].
  destruct (read_rune (c :: s)) as [[bytes rest]|]; simpl; by apply le_n_S.
Qed.

Lemma unquote_plain fuel c t :
  (byte c <? 128)%N = true -> unquote (S fuel) (escape_plain c ++ t) = prepend [c] (unquote fuel t).
Proof.
  intros Hc. destruct c as [[] [] [] [] [] [] [] []]; try discriminate Hc; reflexivity.
Qed.

(** A quoted piece is read in one round. *)
Lemma unquote_piece fuel p t :
  piece_ok p -> unquote (S fuel) (escape_piece p ++ t) = prepend (piece_text p) (unquote fuel t).
Proof.
  destruct p as [c|bytes|c]; simpl escape_piece; [apply unquote_plain | | done].
  intros [(c & bytes' & Heq & Hc) Hr].
  case_decide as H1; [rewrite H1; reflexivity | case_decide as H2; [rewrite H2; reflexivity|]].
  rewrite Heq in *. specialize (Hr t). simpl app in *. cbn [unquote].
  rewrite decide_False by (intros ->; discriminate Hc). rewrite decide_False by (intros ->; discriminate Hc).
  assert ((byte c <? 32)%N = false) as -> by (apply N.ltb_ge in Hc; apply N.ltb_ge; lia). by rewrite Hc, Hr.
Qed.

Lemma unquote_pieces fuel ps t :
  length ps < fuel -> Forall piece_ok ps ->
  unquote fuel (concat (escape_piece <$> ps) ++ quote :: t) = Some (concat (piece_text <$> ps), t).
Proof.
  revert fuel. induction ps as [|p ps IH]; intros [|fuel] Hf Hok; simpl in Hf; try lia; [done|].
  apply Forall_cons in Hok as [Hp Hok]. rewrite fmap_cons. cbn [concat]. rewrite <- app_assoc.
  rewrite unquote_piece, IH by (done || lia). done.
Qed.

Lemma escape_piece_length p : piece_ok p -> 1 <= length (escape_piece p).
Proof.
  destruct p as [c|bytes|c]; simpl; [|intros [(c & bytes' & -> & _) _]; repeat case_decide; simpl; lia | lia].
  intros _. unfold escape_plain, unicode_escape. repeat case_match; simpl; lia.
Qed.

Lemma escape_pieces_length ps : Forall piece_ok ps -> length ps <= length (concat (escape_piece <$> ps)).
Proof.
  induction 1 as [|p ps Hp _ IH]; [done|]. rewrite fmap_cons. cbn [concat length]. rewrite length_app.
  apply escape_piece_length in Hp. lia.
Qed.

(** *** Stray bytes *)
(** What a string is read back as: each stray byte is replaced. *)
Definition sanitize (s : string) : string :=
  String.string_of_list_ascii (concat (piece_text <$> pieces (chars s))).

Lemma pieces_ok s : Forall piece_ok (pieces s).
Proof. apply pieces_loop_ok. Qed.

Definition sanitize_piece (p : piece) : piece :=
  match p with Stray _ => Encoded replacement | _ => p end.

Lemma pieces_loop_piece fuel p t :
  piece_ok p -> pieces_loop (S fuel) (piece_text p ++ t) = sanitize_piece p :: pieces_loop fuel t.
Proof.
  destruct p as [c|bytes|c]; simpl piece_text; [|intros [(c & bytes' & Heq & Hc) Hr] | done].
  - intros Hc. cbn [app pieces_loop]. by rewrite Hc.
  - specialize (Hr t). rewrite Heq in *. cbn [app pieces_loop] in *. by rewrite Hc, Hr.
Qed.

Lemma pieces_loop_concat fuel ps :
  length ps <= fuel -> Forall piece_ok ps ->
  pieces_loop fuel (concat (piece_text <$> ps)) = sanitize_piece <$> ps.
Proof.
  revert fuel. induction ps as [|p ps IH]; intros [|fuel] Hf Hok; simpl in Hf; try lia; [done..|].
  apply Forall_cons in Hok as [Hp Hok]. rewrite fmap_cons. cbn [concat].
  rewrite pieces_loop_piece by done. rewrite fmap_cons, IH by (done || lia). done.
Qed.

Lemma piece_text_length ps : Forall piece_ok ps -> length ps <= length (concat (piece_text <$> ps)).
Proof.
  induction 1 as [|p ps Hp _ IH]; [done|]. rewrite fmap_cons. cbn [concat length]. rewrite length_app.
  assert (1 <= length (piece_text p)); [|lia].
  destruct p as [c|bytes|c]; simpl; [lia | destruct Hp as [(c & bytes' & -> & _) _]; simpl; lia |].
  vm_compute. lia.
Qed.

Lemma chars_of_text (t : text) : chars (String.string_of_list_ascii t) = t.
Proof. apply String.list_ascii_of_string_of_list_ascii. Qed.

Lemma sanitize_valid s : valid_utf8 (sanitize s) = true.
Proof.
  unfold valid_utf8, sanitize. rewrite chars_of_text. unfold pieces at 1.
  rewrite pieces_loop_concat by (apply pieces_ok || apply piece_text_length, pieces_ok).
  apply negb_true_iff. induction (pieces (chars s)) as [|[] ps IH]; [done | exact IH..].
Qed.

(** Exactly the strings in valid UTF-8 are read back as they were. *)
Lemma sanitize_id s : sanitize s = s <-> valid_utf8 s = true.
Proof.
  split; [intros <-; apply sanitize_valid|]. unfold valid_utf8, sanitize. intros Hv%negb_true_iff.
  unfold pieces in *. rewrite pieces_loop_text by done. apply String.string_of_list_ascii_of_string.
Qed.

Lemma unquote_marshal s t :
  unquote (length (tail (marshal_string s) ++ t)) (tail (marshal_string s) ++ t) =
  Some (chars (sanitize s), t).
Proof.
  unfold marshal_string, sanitize. simpl tail. rewrite <- app_assoc, chars_of_text. simpl.
  pose proof (pieces_ok (chars s)) as Hok.
  rewrite unquote_pieces; [done | | done]. rewrite length_app. apply escape_pieces_length in Hok. simpl. lia.
Qed.

(** ** Reading a value *)
(** The numbers' values do not matter here. *)
Inductive json :=
| JNull
| JBool (b : bool)
| JNum
| JStr (s : string)
| JArr (elements : list json)
| JObj (members : list (string * json)).

Definition text_string (s : text) : string := String.string_of_list_ascii s.

Fixpoint skip_space (s : text) : text :=
  match s with
  | c :: s' => if bool_decide (c ∈ [" "%char; "009"%char; "010"%char; "013"%char]) then skip_space s' else s
  | [] => []
  end.

(** What follows a literal. *)
Fixpoint expect (literal s : text) : option text :=
  match literal, s with
  | [], _ => Some s
  | c :: literal', c' :: s' => if decide (c = c') then expect literal' s' else None
  | _ :: _, [] => None
  end.

Definition is_digit (c : ascii) : bool := between 48 57 c.

Fixpoint skip_digits (s : text) : text :=
  match s with
  | c :: s' => if is_digit c then skip_digits s' else s
  | [] => []
  end.

(** At least one digit. *)
Definition some_digits (s : text) : option text :=
  match s with
  | c :: s' => if is_digit c then Some (skip_digits s') else None
  | [] => None
  end.

(** What follows a number: a sign, an integer without leading zeros, a fraction
    and an exponent. *)
Definition parse_number (s : text) : option text :=
  let unsigned := match s with c :: s' => if decide (c = "-"%char) then s' else s | [] => s end in
  integer ← match unsigned with
            | c :: s' => if decide (c = "0"%char) then Some s' else some_digits unsigned
            | [] => None
            end;
  fraction ← match integer with
             | c :: s' => if decide (c = "."%char) then some_digits s' else Some integer
             | [] => Some integer
             end;
  match fraction with
  | c :: s' =>
    if bool_decide (c ∈ ["e"%char; "E"%char]) then
      some_digits match s' with
                  | sign :: s'' => if bool_decide (sign ∈ ["+"%char; "-"%char]) then s'' else s'
                  | [] => s'
                  end
    else Some fraction
  | [] => Some fraction
  end.

(** Objects and arrays nest at most this deep. *)
Definition maxNestingDepth : N := 10000.

(** A value and what follows it; [None] is a syntax error.  Of any two nested
    calls at least one has taken a byte, so that twice the length of the text is
    enough fuel ([parse_fuel]). *)
Fixpoint parse_value (fuel : nat) (depth : N) (s : text) : option (json * text) :=
  match fuel, skip_space s with
  | 0, _ | _, [] => None
  | S fuel', c :: s' =>
    if decide (c = quote) then
      '(str, rest) ← unquote (length s') s'; Some (JStr (text_string str), rest)
    else if decide (c = "{"%char) then
      if (maxNestingDepth <=? depth)%N then None
      else match skip_space s' with
           | c' :: rest =>
             if decide (c' = "}"%char) then Some (JObj [], rest)
             else '(members, rest) ← parse_members fuel' (depth + 1) s'; Some (JObj members, rest)
           | [] => None
           end
    else if decide (c = "["%char) then
      if (maxNestingDepth <=? depth)%N then None
      else match skip_space s' with
           | c' :: rest =>
             if decide (c' = "]"%char) then Some (JArr [], rest)
             else '(elements, rest) ← parse_elements fuel' (depth + 1) s'; Some (JArr elements, rest)
           | [] => None
           end
    else if decide (c = "t"%char) then rest ← expect (chars "rue") s'; Some (JBool true, rest)
    else if decide (c = "f"%char) then rest ← expect (chars "alse") s'; Some (JBool false, rest)
    else if decide (c = "n"%char) then rest ← expect (chars "ull") s'; Some (JNull, rest)
    else rest ← parse_number (c :: s'); Some (JNum, rest)
  end

(** The members of an object up to its closing brace. *)
with parse_members (fuel : nat) (depth : N) (s : text) : option (list (string * json) * text) :=
  match fuel, skip_space s with
  | 0, _ | _, [] => None
  | S fuel', c :: s' =>
    if decide (c = quote) then
      '(key, s1) ← unquote (length s') s';
      s2 ← expect [":"%char] (skip_space s1);
      '(v, s3) ← parse_value fuel' depth s2;
      match skip_space s3 with
      | c' :: rest =>
        if decide (c' = "}"%char) then Some ([(text_string key, v)], rest)
        else if decide (c' = ","%char) then
          '(members, rest) ← parse_members fuel' depth rest; Some ((text_string key, v) :: members, rest)
        else None
      | [] => None
      end
    else None
  end

(** The elements of an array up to its closing bracket. *)
with parse_elements (fuel : nat) (depth : N) (s : text) : option (list json * text) :=
  match fuel with
  | 0 => None
  | S fuel' =>
    '(v, s1) ← parse_value fuel' depth s;
    match skip_space s1 with
    | c :: rest =>
      if decide (c = "]"%char) then Some ([v], rest)
      else if decide (c = ","%char) then
        '(elements, rest) ← parse_elements fuel' depth rest; Some (v :: elements, rest)
      else None
    | [] => None
    end
  end.

(** [Decoder.Decode] reads one value and ignores what follows. *)
Definition decode_json (body : text) : option json :=
  fst <$> parse_value (S (2 * length body)) 0 body.

(** ** Objects of strings *)
Definition member_le (x y : string * string) : Prop := String.leb x.1 y.1 = true.

#[export] Instance member_le_dec x y : Decision (member_le x y).
Proof. unfold member_le. apply _. Defined.

(** The members in the order of their keys. *)
Definition sorted_members (m : gmap string string) : list (string * string) :=
  merge_sort member_le (map_to_list m).

Fixpoint marshal_members (kvs : list (string * string)) : text :=
  match kvs with
  | [] => []
  | [(k, v)] => marshal_string k ++ ":"%char :: marshal_string v
  | (k, v) :: kvs' => marshal_string k ++ ":"%char :: marshal_string v ++ ","%char :: marshal_members kvs'
  end.

Definition marshal_map (m : gmap string string) : text :=
  "{"%char :: marshal_members (sorted_members m) ++ ["}"%char].

(** *** The round trip *)
Lemma text_string_chars s : text_string (chars s) = s.
Proof. apply String.string_of_list_ascii_of_string. Qed.

Lemma skip_space_quote s : skip_space (quote :: s) = quote :: s.
Proof. reflexivity. Qed.

Lemma parse_string fuel depth s t :
  parse_value (S fuel) depth (marshal_string s ++ t) = Some (JStr (sanitize s), t).
Proof.
  pose proof (unquote_marshal s t) as Hu.
  change (marshal_string s ++ t) with (quote :: tail (marshal_string s) ++ t). cbn [parse_value].
  rewrite skip_space_quote, decide_True, Hu by done. simpl. by rewrite text_string_chars.
Qed.

(** One member of an object, given how its value is read. *)
Lemma parse_members_step fuel depth k v vt rest :
  parse_value fuel depth (vt ++ rest) = Some (v, rest) ->
  parse_members (S fuel) depth (marshal_string k ++ ":"%char :: vt ++ rest) =
  match skip_space rest with
  | c' :: rest =>
    if decide (c' = "}"%char) then Some ([(sanitize k, v)], rest)
    else if decide (c' = ","%char) then
      '(members, rest) ← parse_members fuel depth rest; Some ((sanitize k, v) :: members, rest)
    else None
  | [] => None
  end.
Proof.
  intros Hv. pose proof (unquote_marshal k (":"%char :: vt ++ rest)) as Hu.
  change (marshal_string k ++ ?t) with (quote :: tail (marshal_string k) ++ t). cbn [parse_members].
  rewrite skip_space_quote, decide_True, Hu by done. cbn [mbind option_bind].
  change (expect [":"%char] (skip_space (":"%char :: ?s))) with (Some s). cbn [mbind option_bind].
  by rewrite Hv, text_string_chars.
Qed.

Lemma parse_members_strings fuel depth kvs t :
  kvs <> [] -> length kvs < fuel ->
  parse_members fuel depth (marshal_members kvs ++ "}"%char :: t) =
  Some ((fun '(k, v) => (sanitize k, JStr (sanitize v))) <$> kvs, t).
Proof.
  revert fuel. induction kvs as [|[k v] kvs IH]; intros [|[|fuel]] Hne Hf; simpl in Hf; try lia; [done..|].
  destruct kvs as [|kv kvs].
  - cbn [marshal_members]. rewrite <- app_assoc, <- app_comm_cons.
    by rewrite (parse_members_step _ _ _ _ _ _ (parse_string fuel depth v _)).
  - change (marshal_members ((k, v) :: kv :: kvs))
      with (marshal_string k ++ ":"%char :: marshal_string v ++ ","%char :: marshal_members (kv :: kvs)).
    rewrite <- app_assoc, <- app_comm_cons, <- app_assoc, <- app_comm_cons.
    rewrite (parse_members_step _ _ _ _ _ _ (parse_string fuel depth v _)).
    change (skip_space (","%char :: ?s)) with (","%char :: s). cbv iota.
    rewrite decide_False, decide_True by done. rewrite IH; [done | done | simpl in *; lia].
Qed.

Lemma marshal_members_length kvs : length kvs <= length (marshal_members kvs).
Proof.
  induction kvs as [|[k v] [|kv kvs] IH]; [done | unfold marshal_string; simpl; lia |].
  change (marshal_members ((k, v) :: kv :: kvs))
    with (marshal_string k ++ ":"%char :: marshal_string v ++ ","%char :: marshal_members (kv :: kvs)).
  rewrite length_app. cbn [length] in *. rewrite length_app. cbn [length]. lia.
Qed.

(** The object of a map is read back with its members in order. *)
Lemma parse_map fuel depth m t :
  (depth < maxNestingDepth)%N -> size m < fuel ->
  parse_value (S fuel) depth (marshal_map m ++ t) =
  Some (JObj ((fun '(k, v) => (sanitize k, JStr (sanitize v))) <$> sorted_members m), t).
Proof.
  intros Hd Hf. unfold marshal_map. cbn [app parse_value]. rewrite <- app_assoc.
  change (skip_space ("{"%char :: ?s)) with ("{"%char :: s). cbv iota.
  rewrite decide_False, decide_True by done. rewrite (proj2 (N.leb_gt _ _) Hd).
  assert (length (sorted_members m) < fuel) as Hlen.
  { unfold sorted_members. by rewrite merge_sort_Permutation, length_map_to_list. }
  destruct (sorted_members m) as [|[k v] kvs] eqn:Em; [done|].
  assert (exists s, marshal_members ((k, v) :: kvs) = quote :: s) as [s Hs]
    by (destruct kvs; unfold marshal_string; simpl; eauto).
  pose proof (parse_members_strings fuel (depth + 1) ((k, v) :: kvs) t) as Hp.
  rewrite Hs in *. cbn [app] in *. rewrite skip_space_quote. rewrite decide_False by done.
  by rewrite Hp.
Qed.

(** *** Enough fuel *)
Lemma skip_space_length s : length (skip_space s) <= length s.
Proof. induction s as [|c s IH]; simpl; [done|]. case_bool_decide; simpl; lia. Qed.

Lemma expect_length literal s rest : expect literal s = Some rest -> length rest <= length s.
Proof.
  revert s. induction literal as [|c literal IH]; intros s; [by intros [= ->]|].
  destruct s as [|c' s]; simpl; [done|]. case_decide; [|done]. intros ?%IH. lia.
Qed.

Lemma skip_digits_length s : length (skip_digits s) <= length s.
Proof. induction s as [|c s IH]; simpl; [done|]. destruct (is_digit c); simpl; lia. Qed.

Lemma some_digits_length s rest : some_digits s = Some rest -> length rest < length s.
Proof.
  destruct s as [|c s]; simpl; [done|]. destruct (is_digit c); [|done]. intros [= <-].
  pose proof (skip_digits_length s). lia.
Qed.

Lemma parse_number_length s rest : parse_number s = Some rest -> length rest < length s.
Proof.
  unfold parse_number. set (unsigned := match s with [] => s | _ => _ end).
  assert (length unsigned <= length s) as Hu by (subst unsigned; repeat case_match; simpl; lia).
  intros (integer & Hi & Hf)%bind_Some. apply bind_Some in Hf as (fraction & Hfr & He).
  assert (length integer < length unsigned) as Hi'.
  { destruct unsigned as [|c u]; [done|]. case_decide; [injection Hi as <-; simpl; lia|].
    by apply some_digits_length in Hi. }
  assert (length fraction <= length integer) as Hf'.
  { destruct integer as [|c i]; [by injection Hfr as <-|]. case_decide; [|by injection Hfr as <-].
    apply some_digits_length in Hfr. simpl. lia. }
  assert (length rest <= length fraction); [|lia].
  destruct fraction as [|c f]; [by injection He as <-|]. case_bool_decide; [|by injection He as <-].
  apply some_digits_length in He. revert He. repeat case_match; simpl; lia.
Qed.

Lemma getu4_length s r rest : getu4 s = Some (r, rest) -> length rest < length s.
Proof.
  destruct s as [|a [|b [|c [|d s]]]]; simpl; try done.
  destruct (hex_value a), (hex_value b), (hex_value c), (hex_value d); simpl; try done. intros [= _ <-]. lia.
Qed.

Lemma surrogate_pair_length r s : length (surrogate_pair r s).2 <= length s.
Proof.
  unfold surrogate_pair. repeat case_match; simpl; try lia.
  match goal with H : getu4 _ = _ |- _ => apply getu4_length in H end. lia.
Qed.

Lemma prepend_Some p r s rest : prepend p r = Some (s, rest) -> exists s', r = Some (s', rest).
Proof. destruct r as [[s' rest']|]; simpl; [|done]. intros [= _ <-]. eauto. Qed.

Lemma unquote_length fuel s str rest : unquote fuel s = Some (str, rest) -> length rest < length s.
Proof.
  revert s str. induction fuel as [|fuel IH]; intros [|c s] str; simpl; try done.
  case_decide; [intros [= _ <-]; lia|]. case_decide.
  - destruct s as [|e s]; [done|]. destruct (unescape e).
    + intros [? ?%IH]%prepend_Some. simpl. lia.
    + case_decide; [|done]. intros ([r s3] & Hg & Hp)%bind_Some. apply getu4_length in Hg.
      pose proof (surrogate_pair_length r s3) as Hsp. destruct (surrogate_pair r s3) as [p rest'].
      apply prepend_Some in Hp as [? ?%IH]. simpl in *. lia.
  - destruct (byte c <? 32)%N; [done|]. destruct (byte c <? 128)%N; [intros [? ?%IH]%prepend_Some; lia|].
    destruct (read_rune (c :: s)) as [[bytes rest']|] eqn:Er; intros [? ?%IH]%prepend_Some; [|lia].
    apply read_rune_spec in Er as (Heq & Hlen & _). apply (f_equal length) in Heq.
    rewrite length_app in Heq. simpl in Heq. lia.
Qed.

(** What is left is shorter: collects the lengths of the texts in the context. *)
Ltac text_lengths :=
  repeat match goal with
  | H : unquote _ _ = Some (_, _) |- _ => apply unquote_length in H
  | H : expect _ _ = Some _ |- _ => apply expect_length in H
  | H : parse_number _ = Some _ |- _ => apply parse_number_length in H
  | H : skip_space ?s = _ |- _ => let E := fresh in pose proof (skip_space_length s) as E; rewrite H in E; clear H
  | H : context [length (skip_space ?s)] |- _ =>
    lazymatch goal with E : length (skip_space s) <= length s |- _ => fail
    | _ => pose proof (skip_space_length s) end
  end; simpl in *; try lia.

Lemma parse_length fuel :
  (forall depth s v rest, parse_value fuel depth s = Some (v, rest) -> length rest < length s) /\
  (forall depth s ms rest, parse_members fuel depth s = Some (ms, rest) -> length rest < length s) /\
  (forall depth s es rest, parse_elements fuel depth s = Some (es, rest) -> length rest < length s).
Proof.
  induction fuel as [|fuel (IHv & IHm & IHe)]; [done|]. split_and!; intros depth s r rest.
  - cbn [parse_value]. destruct (skip_space s) as [|c s'] eqn:Es; [done|].
    repeat case_decide; [| | |intros (? & ? & [= _ <-])%bind_Some; text_lengths..].
    + intros ([str rest'] & ? & [= _ <-])%bind_Some. text_lengths.
    + case_match; [done|]. destruct (skip_space s') as [|c' s1] eqn:Es'; [done|].
      case_decide; [intros [= _ <-]; text_lengths|].
      intros ([ms rest'] & Hm%IHm & [= _ <-])%bind_Some. text_lengths.
    + case_match; [done|]. destruct (skip_space s') as [|c' s1] eqn:Es'; [done|].
      case_decide; [intros [= _ <-]; text_lengths|].
      intros ([es rest'] & He%IHe & [= _ <-])%bind_Some. text_lengths.
  - cbn [parse_members]. destruct (skip_space s) as [|c s'] eqn:Es; [done|]. case_decide; [|done].
    intros ([key s1] & ? & (s2 & ? & ([v s3] & Hv%IHv & Hr)%bind_Some)%bind_Some)%bind_Some.
    destruct (skip_space s3) as [|c' s4] eqn:Es3; [done|].
    case_decide; [injection Hr as _ <-; text_lengths|]. case_decide; [|done].
    apply bind_Some in Hr as ([ms rest'] & Hm%IHm & [= _ <-]). text_lengths.
  - cbn [parse_elements]. intros ([v s1] & Hv%IHv & Hr)%bind_Some.
    destruct (skip_space s1) as [|c s2] eqn:Es1; [done|].
    case_decide; [injection Hr as _ <-; text_lengths|]. case_decide; [|done].
    apply bind_Some in Hr as ([es rest'] & He%IHe & [= _ <-]). text_lengths.
Qed.

Lemma bind_ext_Some {A B} (m : option A) (f g : A -> option B) :
  (forall x, m = Some x -> f x = g x) -> m ≫= f = m ≫= g.
Proof. intros Hfg. destruct m as [x|]; [by apply Hfg | done]. Qed.

(** With more fuel than twice the length of the text the result does not depend
    on the fuel. *)
Lemma parse_fuel_agrees fuel :
  (forall fuel' depth s, 2 * length s < fuel -> 2 * length s < fuel' ->
     parse_value fuel depth s = parse_value fuel' depth s) /\
  (forall fuel' depth s, 2 * length s < fuel -> 2 * length s < fuel' ->
     parse_members fuel depth s = parse_members fuel' depth s) /\
  (forall fuel' depth s, 2 * length s + 1 < fuel -> 2 * length s + 1 < fuel' ->
     parse_elements fuel depth s = parse_elements fuel' depth s).
Proof.
  induction fuel as [|fuel (IHv & IHm & IHe)]; [split_and!; intros; lia|].
  split_and!; intros [|fuel'] depth s Hf Hf'; try lia.
  - cbn [parse_value]. destruct (skip_space s) as [|c s'] eqn:Es; [done|].
    repeat (case_decide; [try done|]); [..|done].
    + case_match; [done|]. destruct (skip_space s') as [|c' s1]; [done|]. case_decide; [done|].
      rewrite (IHm fuel'); [done | text_lengths..].
    + case_match; [done|]. destruct (skip_space s') as [|c' s1]; [done|]. case_decide; [done|].
      rewrite (IHe fuel'); [done | text_lengths..].
  - cbn [parse_members]. destruct (skip_space s) as [|c s'] eqn:Es; [done|]. case_decide; [|done].
    apply bind_ext_Some. intros [key s1] Hk. apply bind_ext_Some. intros s2 Hc.
    rewrite (IHv fuel') by text_lengths. apply bind_ext_Some. intros [v s3] Hv%parse_length.
    destruct (skip_space s3) as [|c' s4] eqn:Es3; [done|]. case_decide; [done|]. case_decide; [|done].
    rewrite (IHm fuel'); [done | text_lengths..].
  - cbn [parse_elements]. rewrite (IHv fuel') by lia. apply bind_ext_Some. intros [v s1] Hv%parse_length.
    destruct (skip_space s1) as [|c s2] eqn:Es1; [done|]. case_decide; [done|]. case_decide; [|done].
    rewrite (IHe fuel'); [done | text_lengths..].
Qed.

Lemma parse_fuel fuel depth s :
  2 * length s < fuel -> parse_value fuel depth s = parse_value (S (2 * length s)) depth s.
Proof. intros Hf. apply parse_fuel_agrees; lia. Qed.
