(* ===== verification/Listener.v ===== *)
(** * The callback listener (rules/callback_listener.go) *)
(** Integration tests learn through a webhook that a callback has run: a
    worker reports the rule and its attributes as JSON, the handler decodes them
    and puts the event into a buffered channel, and a test waits for the event
    it expects. *)
From S2P Require Import Prelude GoString Attributes Json.

(** A nil map of attributes is [None]: [reflect.DeepEqual] tells it from an
    empty one. *)
Record callbackEvent := mkCallbackEvent {
  ev_RuleID : string;
  ev_attributes : option (gmap string string)
}.

#[export] Instance callbackEvent_eq_dec : EqDecision callbackEvent.
Proof. solve_decision. Defined.

(** ** Reporting *)
(** The event [httpCallbackListener.callbackDone] posts: a name that is not
    found gets the empty string; [None] is the panic of [FindAttribute]. *)
Definition callbackDone `{GoRange} (ruleID : string) (attributes : extendedAttributes) :
    option callbackEvent :=
  attributeMap ← fold_left (fun (m : option (gmap string string)) k =>
    m' ← m; v ← FindAttribute attributes k; Some (<[k := default EmptyString v]> m'))
    (names attributes) (Some ∅);
  Some (mkCallbackEvent ruleID (Some attributeMap)).

(** The body of the request, [json.Marshal] of the event. *)
Definition marshal_event (ev : callbackEvent) : text :=
  "{"%char :: marshal_string "ruleID" ++ ":"%char :: marshal_string (ev_RuleID ev) ++
  ","%char :: marshal_string "attributes" ++ ":"%char ::
  match ev_attributes ev with
  | None => chars "null"
  | Some m => marshal_map m
  end ++ ["}"%char].

(** ** Decoding an event *)
(** The names of the fields, compared first as they are and then without case:
    besides the letters themselves U+017F folds to S and U+212A to K. *)
Fixpoint fold_name (s : text) : text :=
  match s with
  | [] => []
  | c :: s1 =>
    match s1 with
    | c1 :: s2 =>
      if (byte c =? 197)%N && (byte c1 =? 191)%N then "S"%char :: fold_name s2
      else match s2 with
           | c2 :: s3 =>
             if (byte c =? 226)%N && (byte c1 =? 132)%N && (byte c2 =? 170)%N then "K"%char :: fold_name s3
             else (if between 97 122 c then Ascii.ascii_of_N (byte c - 32) else c) :: fold_name s1
           | [] => (if between 97 122 c then Ascii.ascii_of_N (byte c - 32) else c) :: fold_name s1
           end
    | [] => [if between 97 122 c then Ascii.ascii_of_N (byte c - 32) else c]
    end
  end.

Inductive event_field := RuleIDField | AttributesField.

Definition event_field_of (key : string) : option event_field :=
  if decide (key = "ruleID") then Some RuleIDField
  else if decide (key = "attributes") then Some AttributesField
  else if decide (fold_name (chars key) = chars "RULEID") then Some RuleIDField
  else if decide (fold_name (chars key) = chars "ATTRIBUTES") then Some AttributesField
  else None.

(** Storing a value in a string and in a map of strings; null leaves a string
    as it is and makes a map nil, and [None] is a type error. *)
Definition decode_string (current : string) (v : json) : option string :=
  match v with
  | JStr s => Some s
  | JNull => Some current
  | _ => None
  end.

Definition decode_map (current : option (gmap string string)) (v : json) : option (option (gmap string string)) :=
  match v with
  | JObj members =>
    Some <$> fold_left (fun (m : option (gmap string string)) '(k, e) =>
      m' ← m; s ← decode_string EmptyString e; Some (<[k := s]> m'))
      members (Some (default ∅ current))
  | JNull => Some None
  | _ => None
  end.

(** A member of the object; the decoder ignores unknown names. *)
Definition decode_member (ev : callbackEvent) (member : string * json) : option callbackEvent :=
  match event_field_of member.1 with
  | Some RuleIDField => s ← decode_string (ev_RuleID ev) member.2; Some (mkCallbackEvent s (ev_attributes ev))
  | Some AttributesField => m ← decode_map (ev_attributes ev) member.2; Some (mkCallbackEvent (ev_RuleID ev) m)
  | None => Some ev
  end.

Definition decode_event (body : text) : option callbackEvent :=
  v ← decode_json body;
  match v with
  | JObj members =>
    fold_left (fun ev member => ev' ← ev; decode_member ev' member) members
      (Some (mkCallbackEvent EmptyString None))
  | JNull => Some (mkCallbackEvent EmptyString None)
  | _ => None
  end.

(** ** The handler *)
(** The buffer of the channel; [HandleRequest] blocks when it is full. *)
Definition eventBuffer : nat := 1000.

Definition HandleRequest (events : list callbackEvent) (body : text) : option (list callbackEvent) :=
  match decode_event body with
  | None => Some events
  | Some event => if decide (length events < eventBuffer) then Some (events ++ [event]) else None
  end.

(** [WaitForCallback] when the context ends once no event is left ([done]): the
    result (nil or the error of the context) and the events that remain; with
    [done] false it keeps waiting on the empty channel ([None]). *)
Fixpoint WaitForCallback (ctxErr : string) (done : bool) (events : list callbackEvent) (ruleID : string)
    (attributes : option (gmap string string)) : option (option string * list callbackEvent) :=
  match events with
  | [] => if done then Some (Some ctxErr, []) else None
  | event :: events' =>
    if decide (ev_RuleID event <> ruleID \/ ev_attributes event <> attributes)
    then WaitForCallback ctxErr done events' ruleID attributes
    else Some (None, events')
  end.

Fixpoint ClearCallbacks (events : list callbackEvent) : list callbackEvent :=
  match events with
  | [] => []
  | _ :: events' => ClearCallbacks events'
  end.

Lemma ClearCallbacks_nil events : ClearCallbacks events = [].
Proof. by induction events. Qed.

(** ** Properties *)
(** The channel is searched for the event. *)
Lemma WaitForCallback_find (ctxErr ruleID : string) (done : bool) (events : list callbackEvent)
    (attributes : option (gmap string string)) :
  WaitForCallback ctxErr done events ruleID attributes =
  match list_find (fun ev => ev = mkCallbackEvent ruleID attributes) events with
  | Some (i, _) => Some (None, drop (S i) events)
  | None => if done then Some (Some ctxErr, []) else None
  end.
Proof.
  set (expected := mkCallbackEvent ruleID attributes).
  induction events as [|ev events IH]; [done|]. cbn [WaitForCallback list_find].
  destruct (decide (ev = expected)) as [->|Hne].
  - by rewrite decide_False by (simpl; tauto).
  - rewrite decide_True.
    + rewrite IH. by destruct (list_find _ events) as [[]|].
    + destruct ev as [r a]. simpl. destruct (decide (r = ruleID)) as [->|]; [right | by left].
      intros ->. by apply Hne.
Qed.

Lemma WaitForCallback_found ctxErr done events ruleID attributes :
  mkCallbackEvent ruleID attributes ∈ events ->
  exists events', WaitForCallback ctxErr done events ruleID attributes = Some (None, events').
Proof.
  intros Hin. rewrite WaitForCallback_find.
  destruct (list_find_elem_of (fun ev => ev = mkCallbackEvent ruleID attributes) events _ Hin eq_refl)
    as [[i ev] ->]. eauto.
Qed.

(** Waiting for a callback succeeds exactly when its event is in the
    channel: the call returns nil after consuming the events up to and
    including the first that has the rule ID and the attributes, and otherwise
    consumes all events and reports the end of the context.  Events of other
    callbacks that were received before are lost. *)
Theorem WaitForCallback_spec (ctxErr ruleID : string) (events : list callbackEvent)
    (attributes : option (gmap string string)) :
  let expected := mkCallbackEvent ruleID attributes in
  WaitForCallback ctxErr true events ruleID attributes =
  Some match list_find (fun ev => ev = expected) events with
       | Some (i, _) => (None, drop (S i) events)
       | None => (Some ctxErr, [])
       end.
Proof.
  intros expected. rewrite WaitForCallback_find. fold expected.
  by destruct (list_find _ events) as [[]|].
Qed.

Section reporting.
Context `{GoRange}.

(** The posted attributes are those of the rule. *)
Lemma callbackDone_attributes ruleID a ev :
  callbackDone ruleID a = Some ev ->
  ev_RuleID ev = ruleID /\ exists m, ev_attributes ev = Some m /\
  forall n, m !! n =
    if decide (n ∈ names a) then Some (default EmptyString (default None (FindAttribute a n))) else None.
Proof.
  unfold callbackDone. rewrite bind_Some. intros (m & Hm & [= <-]). split; [done|]. exists m. split; [done|].
  intros n.
  assert (forall l (m0 m1 : gmap string string),
    fold_left (fun (m : option (gmap string string)) k =>
      m' ← m; v ← FindAttribute a k; Some (<[k := default EmptyString v]> m')) l (Some m0) = Some m1 ->
    m1 !! n = if decide (n ∈ l) then Some (default EmptyString (default None (FindAttribute a n)))
              else m0 !! n) as Hf.
  { induction l as [|k l IH]; intros m0 m1; cbn [fold_left].
    - intros [= ->]. by rewrite decide_False by set_solver.
    - destruct (FindAttribute a k) as [v|] eqn:Hv; simpl.
      + intros Hl%IH. rewrite Hl. destruct (decide (n = k)) as [->|Hne].
        * rewrite (decide_True (P := k ∈ k :: l)) by set_solver. rewrite Hv, lookup_insert_eq. by case_decide.
        * rewrite lookup_insert_ne by done. by rewrite (decide_ext (n ∈ k :: l) (n ∈ l)) by set_solver.
      + intros Hl. exfalso. clear -Hl. induction l; [done | auto]. }
  rewrite (Hf _ _ _ Hm). by rewrite lookup_empty.
Qed.
End reporting.

(** ** From the report to the handler *)
(** The event a handler gets for a reported one: stray bytes are replaced, and
    keys that become equal are merged. *)
Definition sanitize_event (ev : callbackEvent) : callbackEvent :=
  mkCallbackEvent (sanitize (ev_RuleID ev))
    ((fun m => fold_left (fun (m' : gmap string string) '(k, v) => <[sanitize k := sanitize v]> m')
                 (sorted_members m) ∅) <$> ev_attributes ev).

Definition valid_event (ev : callbackEvent) : Prop :=
  valid_utf8 (ev_RuleID ev) = true /\
  match ev_attributes ev with
  | Some m => map_Forall (fun k v => valid_utf8 k = true /\ valid_utf8 v = true) m
  | None => True
  end.

Lemma decode_strings (kvs : list (string * string)) (m : gmap string string) :
  fold_left (fun (m : option (gmap string string)) '(k, e) =>
    m' ← m; s ← decode_string EmptyString e; Some (<[k := s]> m'))
    ((fun '(k, v) => (sanitize k, JStr (sanitize v))) <$> kvs) (Some m) =
  Some (fold_left (fun (m' : gmap string string) '(k, v) => <[sanitize k := sanitize v]> m') kvs m).
Proof. revert m. induction kvs as [|[k v] kvs IH]; intros m; [done|]. apply IH. Qed.

(** The members of the posted object. *)
Lemma decode_json_event ev :
  decode_json (marshal_event ev) =
  Some (JObj [("ruleID", JStr (sanitize (ev_RuleID ev)));
    ("attributes", match ev_attributes ev with
                   | None => JNull
                   | Some m => JObj ((fun '(k, v) => (sanitize k, JStr (sanitize v))) <$> sorted_members m)
                   end)]).
Proof.
  set (va := match ev_attributes ev with None => chars "null" | Some m => marshal_map m end).
  set (v := match ev_attributes ev with None => JNull | Some m => _ end).
  set (second := marshal_string "attributes" ++ ":"%char :: va ++ ["}"%char]).
  assert (forall fuel, length va <= fuel -> parse_value (S fuel) 1 (va ++ ["}"%char]) = Some (v, ["}"%char])) as Hva.
  { intros fuel Hf. subst va v. destruct (ev_attributes ev) as [m|]; [|done].
    apply parse_map; [done|]. unfold marshal_map in Hf. cbn [length] in Hf. rewrite length_app in Hf.
    pose proof (marshal_members_length (sorted_members m)) as Hm. unfold sorted_members in Hm at 1.
    rewrite merge_sort_Permutation, length_map_to_list in Hm. simpl in Hf. lia. }
  unfold decode_json. remember (2 * length (marshal_event ev)) as fuel eqn:Hfuel.
  assert (length va + 4 <= fuel) as Hf.
  { subst fuel. unfold marshal_event. fold va. cbn [length]. rewrite !length_app. cbn [length].
    rewrite !length_app. cbn [length]. rewrite !length_app. cbn [length]. rewrite length_app. lia. }
  destruct fuel as [|[|[|fuel]]]; [lia..|].
  change (marshal_event ev) with ("{"%char :: marshal_string "ruleID" ++ ":"%char ::
    marshal_string (ev_RuleID ev) ++ ","%char :: second).
  assert (parse_members (S (S (S fuel))) 1 (marshal_string "ruleID" ++ ":"%char ::
    marshal_string (ev_RuleID ev) ++ ","%char :: second) =
    Some ([("ruleID", JStr (sanitize (ev_RuleID ev))); ("attributes", v)], [])) as Hm.
  { rewrite (parse_members_step _ _ _ _ _ _ (parse_string (S fuel) 1 (ev_RuleID ev) _)).
    change (skip_space (","%char :: ?s)) with (","%char :: s). cbv iota.
    rewrite decide_False, decide_True by done. subst second.
    rewrite (parse_members_step _ _ _ _ _ _ (Hva fuel ltac:(lia))). done. }
  cbn [parse_value]. change (skip_space ("{"%char :: ?s)) with ("{"%char :: s). cbv iota.
  rewrite decide_False, decide_True by done. change (0 + 1)%N with 1%N. by rewrite Hm.
Qed.

Lemma decode_marshal ev : decode_event (marshal_event ev) = Some (sanitize_event ev).
Proof.
  unfold decode_event. rewrite decode_json_event. unfold sanitize_event.
  destruct ev as [id [m|]]; simpl; [|done]. unfold decode_member. simpl. by rewrite decode_strings.
Qed.

Lemma sanitized_valid (kvs : list (string * string)) (m : gmap string string) :
  map_Forall (fun k v => valid_utf8 k = true /\ valid_utf8 v = true) m ->
  map_Forall (fun k v => valid_utf8 k = true /\ valid_utf8 v = true)
    (fold_left (fun (m' : gmap string string) '(k, v) => <[sanitize k := sanitize v]> m') kvs m).
Proof.
  revert m. induction kvs as [|[k v] kvs IH]; intros m Hm; [done|]. apply IH.
  apply map_Forall_insert_2; [split; apply sanitize_valid | done].
Qed.

Lemma fold_insert_union (kvs : list (string * string)) (m : gmap string string) :
  NoDup kvs.*1 -> fold_left (fun m '(k, v) => <[k := v]> m) kvs m = list_to_map kvs ∪ m.
Proof.
  revert m. induction kvs as [|[k v] kvs IH]; intros m Hnd; [symmetry; apply map_empty_union|].
  apply NoDup_cons in Hnd as [Hk Hnd]. cbn [fold_left]. rewrite IH by done.
  rewrite <- insert_union_r by (by apply not_elem_of_list_to_map_1). by rewrite insert_union_l.
Qed.

Lemma sanitized_members m :
  map_Forall (fun k v => valid_utf8 k = true /\ valid_utf8 v = true) m ->
  fold_left (fun (m' : gmap string string) '(k, v) => <[sanitize k := sanitize v]> m') (sorted_members m) ∅ = m.
Proof.
  intros Hm. assert (sorted_members m ≡ₚ map_to_list m) as Hp by apply merge_sort_Permutation.
  assert (forall kvs m0, (forall k v, (k, v) ∈ kvs -> (k, v) ∈ map_to_list m) ->
    fold_left (fun (m' : gmap string string) '(k, v) => <[sanitize k := sanitize v]> m') kvs m0 =
    fold_left (fun m' '(k, v) => <[k := v]> m') kvs m0) as Hsame.
  { induction kvs as [|[k v] kvs IH]; intros m0 Hin; [done|]. cbn [fold_left].
    destruct (Hm k v) as [Hk Hv]; [apply elem_of_map_to_list, Hin; by left|].
    rewrite (proj2 (sanitize_id k) Hk), (proj2 (sanitize_id v) Hv). apply IH. intros k' v' Hk'.
    apply Hin. by right. }
  rewrite Hsame by (intros k v; by rewrite Hp). rewrite fold_insert_union, map_union_empty.
  - rewrite <- (list_to_map_to_list m) at 2. apply list_to_map_proper; [|done].
    rewrite Hp. apply NoDup_fst_map_to_list.
  - rewrite Hp. apply NoDup_fst_map_to_list.
Qed.

Lemma sanitize_event_id ev : sanitize_event ev = ev <-> valid_event ev.
Proof.
  destruct ev as [id attrs]. unfold sanitize_event, valid_event. simpl. split.
  - intros [= Hid Hm]. split; [by apply sanitize_id|]. destruct attrs as [m|]; [|done]. injection Hm as <-.
    apply sanitized_valid, map_Forall_empty.
  - intros [Hid Hm]. rewrite (proj2 (sanitize_id id) Hid). f_equal. destruct attrs as [m|]; [|done].
    simpl. by rewrite sanitized_members.
Qed.

(** C10: What a worker reports reaches the test that waits for it.  The handler
    decodes the JSON body of every report and adds one event to its channel, if
    there is room; the event is the reported one exactly when the rule ID and
    all names and values of the attributes are valid UTF-8, and then a test that
    waits for this rule ID and these attributes finds it, whatever other events
    are in the channel. *)
Theorem reports_received (ctxErr : string) (events : list callbackEvent) (ev : callbackEvent)
    (Hroom : length events < eventBuffer) :
  exists ev', HandleRequest events (marshal_event ev) = Some (events ++ [ev']) /\
    (ev' = ev <-> valid_event ev) /\
    (valid_event ev -> exists rest,
       WaitForCallback ctxErr false (events ++ [ev']) (ev_RuleID ev) (ev_attributes ev) = Some (None, rest)).
Proof.
  exists (sanitize_event ev). unfold HandleRequest. rewrite decode_marshal, decide_True by done.
  split_and!; [done | apply sanitize_event_id |]. intros Hv%sanitize_event_id. rewrite Hv.
  apply WaitForCallback_found. destruct ev as [id attrs]. set_solver.
Qed.

(** A test that expects nil attributes never finds a report, which always has a
    map of attributes. *)
Lemma nil_attributes_never_found `{GoRange} ctxErr reports events :
  Forall (fun ev => exists ruleID a, callbackDone ruleID a = Some ev) reports ->
  events = sanitize_event <$> reports ->
  forall ruleID, WaitForCallback ctxErr false events ruleID None = None.
Proof.
  intros Hr -> ruleID. rewrite WaitForCallback_find.
  destruct (list_find _ (sanitize_event <$> reports)) as [[i ev]|] eqn:Hf; [|done]. exfalso.
  apply list_find_Some in Hf as (Hi & -> & _). apply list_lookup_fmap_Some in Hi as (ev & Hev & Hi).
  apply list_elem_of_lookup_2 in Hi. rewrite Forall_forall in Hr. destruct (Hr _ Hi) as (id & a & Hd).
  apply callbackDone_attributes in Hd as (_ & m & Hm & _). unfold sanitize_event in Hev. rewrite Hm in Hev. done.
Qed.
