(* ===== verification/Shutdown.v ===== *)
(** * Stopping the engine (rules/engine.go, rules/worker.go, rules/watcher.go, rules/int_crawler.go) *)
(** [baseEngine.stop] sets the stop flags of the crawlers, watchers and workers
    and wakes them up over channels, while each of them runs its loop.  A
    state holds the components and, for every call of [stop], the instructions
    it has left; the possible next states are computed, so that runs can be
    evaluated. *)
From S2P Require Import Prelude.

(** ** Components *)
Inductive kind := crawlerK | watcherK | workerK.

(** Where the goroutine is: at the loop condition, in the select statement
    (for a watcher in [next], for a worker in [singleRun]), elsewhere in the
    body of the loop, or after the loop. *)
Inductive location := AtLoop | Selecting | InBody | Exited.

#[export] Instance kind_eq_dec : EqDecision kind.
Proof. solve_decision. Defined.
#[export] Instance location_eq_dec : EqDecision location.
Proof. solve_decision. Defined.

(** [pending] counts the values in the channel [done] of a worker. *)
Record component := mkComponent {
  c_kind : kind;
  c_stopping : bool;
  c_stopped : bool;
  c_pending : nat;
  c_at : location
}.

(** A component whose [run] was started. *)
Definition running (k : kind) (at_ : location) : component := mkComponent k false false 0 at_.

Definition move (c : component) (at_ : location) : component :=
  mkComponent (c_kind c) (c_stopping c) (c_stopped c) (c_pending c) at_.

(** The steps of a goroutine on its own.  Events for a watcher and work for a
    worker may come at any time. *)
Definition component_next (c : component) : list component :=
  match c_at c with
  | AtLoop =>
    if c_stopping c then [mkComponent (c_kind c) true true (c_pending c) Exited]
    else match c_kind c with
         | crawlerK => [move c InBody]
         (* a watcher with events left does not wait *)
         | watcherK => [move c Selecting; move c InBody]
         | workerK => [move c Selecting]
         end
  | Selecting =>
    match c_kind c with
    | workerK =>
      (if c_stopping c then [move c AtLoop] else [move c InBody]) ++
      match c_pending c with
      | 0 => []
      | S n => [mkComponent (c_kind c) (c_stopping c) (c_stopped c) n AtLoop]
      end
    | _ => [move c InBody]
    end
  | InBody => [move c AtLoop]
  | Exited => []
  end.

(** ** engine.stop *)
Inductive instruction :=
| SetStopping (id : nat)
| Signal (id : nat)
| WaitStopped (ids : list nat)
| SetEngineStopped.

(** The methods [stop] of the components: a crawler only sets its flag (and
    cancels a context); a watcher sends on [stopCh], a worker on [done]. *)
Definition crawler_stop (id : nat) : list instruction := [SetStopping id].

Definition watcher_cancel (id : nat) : instruction := Signal id.

Definition watcher_stop (id : nat) : list instruction := [SetStopping id; watcher_cancel id].

Definition worker_stop (id : nat) : list instruction := [SetStopping id; Signal id].

Definition stop_component (k : kind) (id : nat) : list instruction :=
  match k with
  | crawlerK => crawler_stop id
  | watcherK => watcher_stop id
  | workerK => worker_stop id
  end.

Definition stopstoppables (k : kind) (ids : list nat) : list instruction :=
  flat_map (stop_component k) ids ++ [WaitStopped ids].

Definition engine_stop (crawlers watchers workers : list nat) : list instruction :=
  stopstoppables crawlerK crawlers ++ stopstoppables watcherK watchers ++
  flat_map (stop_component workerK) workers ++ stopstoppables workerK workers ++ [SetEngineStopped].

(** [isStopped]; an unknown component cannot occur. *)
Definition isStopped (cs : list component) (id : nat) : bool :=
  match cs !! id with Some c => c_stopped c | None => true end.

(** [scripts] are what the goroutines running [stop] have left to do. *)
Record state := mkState {
  components : list component;
  scripts : list (list instruction);
  engine_stopped : bool
}.

(** One instruction on the components and the flag of the engine; [None] when it
    blocks.  A worker's channel has room for one value, a watcher's has none: its
    send succeeds when the watcher is in the select statement. *)
Definition instruction_next (cs : list component) (stopped : bool) (script : list instruction) :
    option (list component * bool * list instruction) :=
  match script with
  | [] => None
  | instr :: rest =>
    match instr with
    | SetStopping id =>
      c ← cs !! id;
      Some (<[id := mkComponent (c_kind c) true (c_stopped c) (c_pending c) (c_at c)]> cs, stopped, rest)
    | Signal id =>
      c ← cs !! id;
      match c_kind c with
      | crawlerK => Some (cs, stopped, rest)
      | watcherK =>
        if decide (c_at c = Selecting) then Some (<[id := move c InBody]> cs, stopped, rest) else None
      | workerK =>
        match c_pending c with
        | 0 => Some (<[id := mkComponent (c_kind c) (c_stopping c) (c_stopped c) 1 (c_at c)]> cs, stopped, rest)
        | S _ => None
        end
      end
    | WaitStopped ids => if forallb (isStopped cs) ids then Some (cs, stopped, rest) else None
    | SetEngineStopped => Some (cs, true, rest)
    end
  end.

Definition component_steps (st : state) : list state :=
  flat_map (fun '(i, c) =>
    (fun c' => mkState (<[i := c']> (components st)) (scripts st) (engine_stopped st)) <$> component_next c)
    (imap pair (components st)).

Definition script_steps (st : state) : list state :=
  flat_map (fun '(j, script) =>
    (fun '(cs, stopped, rest) => mkState cs (<[j := rest]> (scripts st)) stopped) <$>
    option_list (instruction_next (components st) (engine_stopped st) script))
    (imap pair (scripts st)).

Definition next_states (st : state) : list state := component_steps st ++ script_steps st.

Definition stop_step (st st' : state) : Prop := st' ∈ next_states st.

Definition blocked (st : state) : Prop := next_states st = [].

(** The engine before the first call. *)
Definition engine_running (cs : list component) : state := mkState cs [] false.

(** [Stop] starts a goroutine for [stop]; so does [Shutdown]. *)
Definition Stop (crawlers watchers workers : list nat) (st : state) : state :=
  mkState (components st) (scripts st ++ [engine_stop crawlers watchers workers]) (engine_stopped st).

Definition IsStopped (st : state) : bool := engine_stopped st.

(** The application may call [Stop] or [Shutdown] at any time, also again. *)
Definition engine_step (crawlers watchers workers : list nat) (st st' : state) : Prop :=
  stop_step st st' \/ st' = Stop crawlers watchers workers st.

(** ** Shutting down is sound *)
Definition has_exited (cs : list component) (id : nat) : Prop :=
  forall c, cs !! id = Some c -> c_at c = Exited.

Lemma imap_pair_lookup {A} (l : list A) i x : (i, x) ∈ imap pair l -> l !! i = Some x.
Proof.
  intros [j Hj]%list_elem_of_lookup. rewrite list_lookup_imap in Hj.
  destruct (l !! j) as [y|] eqn:E; [|done]. by injection Hj as -> ->.
Qed.

(** A goroutine sets its flag [stopped] exactly when it leaves the loop, which
    it does only when it was told to stop. *)
Record component_inv (c : component) : Prop := {
  inv_stopped : c_stopped c = true <-> c_at c = Exited;
  inv_told : c_at c = Exited -> c_stopping c = true
}.

Lemma component_next_inv c c' : c' ∈ component_next c -> component_inv c -> component_inv c'.
Proof.
  destruct c as [k sg sd p at_]. intros Hin [[H1 H2] H3]. simpl in *.
  assert (at_ <> Exited -> sd = false) as Hsd.
  { intros Hne. destruct sd; [by destruct Hne; auto | done]. }
  destruct at_, k, sg, p; simpl in *; set_unfold; destruct_or?; subst; try done;
    (rewrite Hsd by done; by split).
Qed.

Lemma has_exited_insert cs i c c' id :
  cs !! i = Some c -> (c_at c = Exited -> c_at c' = Exited) ->
  has_exited cs id -> has_exited (<[i := c']> cs) id.
Proof.
  intros Hi Hc He c0. destruct (decide (i = id)) as [->|Hne].
  - rewrite list_lookup_insert_eq by (by eapply lookup_lt_Some). intros [= <-]. auto.
  - rewrite list_lookup_insert_ne by done. auto.
Qed.

(** What a step may do to the components. *)
Definition progressed (cs cs' : list component) : Prop :=
  Forall component_inv cs' /\ forall id, has_exited cs id -> has_exited cs' id.

Lemma progressed_insert cs i c c' :
  Forall component_inv cs -> cs !! i = Some c -> component_inv c' ->
  (c_at c = Exited -> c_at c' = Exited) -> progressed cs (<[i := c']> cs).
Proof. intros Hcs Hi Hc' Hex. split; [by apply Forall_insert|]. intros id. by eapply has_exited_insert. Qed.

Lemma progressed_component cs i c c' :
  Forall component_inv cs -> cs !! i = Some c -> c' ∈ component_next c -> progressed cs (<[i := c']> cs).
Proof.
  intros Hcs Hi Hc'. eapply progressed_insert; [done | done | |].
  - eapply component_next_inv; [done|]. rewrite Forall_forall in Hcs. by eapply Hcs, list_elem_of_lookup_2.
  - intros He. unfold component_next in Hc'. rewrite He in Hc'. by apply elem_of_nil in Hc'.
Qed.

(** An instruction sets the flag of the engine only if it is the last one, and
    gets past a wait only if the components have left their loops. *)
Lemma instruction_next_spec cs b script cs' b' rest :
  Forall component_inv cs -> instruction_next cs b script = Some (cs', b', rest) ->
  exists instr, script = instr :: rest /\ progressed cs cs' /\
    (forall ids id, instr = WaitStopped ids -> id ∈ ids -> has_exited cs id) /\
    (b' = b \/ instr = SetEngineStopped).
Proof.
  intros Hcs En. destruct script as [|instr script]; [done|]. simpl in En.
  assert (forall i c, cs !! i = Some c -> component_inv c) as Hinv.
  { intros i c Hi. rewrite Forall_forall in Hcs. by eapply Hcs, list_elem_of_lookup_2. }
  exists instr. destruct instr as [i|i|ids|].
  - apply bind_Some in En as (c & Hc & [= <- <- <-]). destruct (Hinv _ _ Hc) as [Hst Htold].
    split_and!; [done | | done | by left]. by eapply progressed_insert.
  - apply bind_Some in En as (c & Hc & En). destruct (Hinv _ _ Hc) as [Hst Htold]. destruct (c_kind c).
    + injection En as <- <- <-. split_and!; [done | by split | done | by left].
    + case_decide as Hsel; [|done]. injection En as <- <- <-. split_and!; [done | | done | by left].
      eapply progressed_insert; [done | done | | by rewrite Hsel].
      split; simpl; [|done]. by rewrite Hst, Hsel.
    + destruct (c_pending c); [|done]. injection En as <- <- <-.
      split_and!; [done | | done | by left]. by eapply progressed_insert.
  - destruct (forallb _ ids) eqn:Hall; [|done]. injection En as <- <- <-.
    split_and!; [done | by split | | by left]. intros ids' id [= <-] Hid c Hc.
    rewrite forallb_forall in Hall. rewrite list_elem_of_In in Hid. specialize (Hall id Hid).
    unfold isStopped in Hall. rewrite Hc in Hall. by apply (inv_stopped _ (Hinv _ _ Hc)).
  - injection En as <- <- <-. split_and!; [done | by split | done | by right].
Qed.

(** The engine's own flag is set last. *)
Lemma app_last_unique {A} (pre l1 l2 : list A) x : pre ++ [x] = l1 ++ x :: l2 -> x ∉ pre -> l2 = [].
Proof.
  revert l1. induction pre as [|y pre IH]; intros [|z l1]; simpl; rewrite ?not_elem_of_cons.
  - by intros [= ->].
  - intros [= _ Hl]. by destruct l1.
  - intros [= -> _] [[] _]. done.
  - intros [= _ Hl] [_ Hn]. by eapply IH.
Qed.

Lemma stop_not_set k ids : SetEngineStopped ∈ flat_map (stop_component k) ids -> False.
Proof. intros (id & _ & Hin)%elem_of_flat_map. destruct k; simpl in Hin; set_solver. Qed.

Lemma stopstoppables_not_set k ids : SetEngineStopped ∈ stopstoppables k ids -> False.
Proof.
  intros [Hin|Hin]%elem_of_app; [by apply stop_not_set in Hin|]. by apply list_elem_of_singleton in Hin.
Qed.

Section calls.
Context (crawlers watchers workers : list nat).

Abbreviation full := (engine_stop crawlers watchers workers).
Abbreviation step := (engine_step crawlers watchers workers).

(** What a goroutine that runs [stop] has waited for. *)
Definition script_inv (cs : list component) (script : list instruction) : Prop :=
  exists executed, full = executed ++ script /\
    forall ids id, WaitStopped ids ∈ executed -> id ∈ ids -> has_exited cs id.

Record stop_inv (st : state) : Prop := {
  stop_components : Forall component_inv (components st);
  stop_scripts : Forall (script_inv (components st)) (scripts st);
  stop_all : engine_stopped st = true ->
    forall id, id ∈ crawlers ++ watchers ++ workers -> has_exited (components st) id
}.

(** Where the flag is set the waits for all components are over. *)
Lemma script_inv_last cs rest id :
  script_inv cs (SetEngineStopped :: rest) -> id ∈ crawlers ++ watchers ++ workers -> has_exited cs id.
Proof.
  intros (ex & Hfull & Hw) Hid.
  assert (rest = []) as ->.
  { unfold engine_stop in Hfull. rewrite !app_assoc in Hfull. apply app_last_unique in Hfull; [done|].
    rewrite !elem_of_app. intros [[[?|?]|?]|?]; eauto using stop_not_set, stopstoppables_not_set. }
  unfold engine_stop in Hfull. rewrite !app_assoc in Hfull. apply app_inj_tail in Hfull as [<- _].
  rewrite !elem_of_app in Hid. unfold stopstoppables in Hw.
  destruct Hid as [Hid|[Hid|Hid]]; eapply Hw; try exact Hid;
    rewrite !elem_of_app, !list_elem_of_singleton; tauto.
Qed.

Lemma script_inv_progressed cs cs' script : progressed cs cs' -> script_inv cs script -> script_inv cs' script.
Proof. intros [_ Hp] (ex & Hfull & Hw). exists ex. split; [done|]. eauto. Qed.

Lemma stop_inv_step st st' : step st st' -> stop_inv st -> stop_inv st' /\ progressed (components st) (components st').
Proof.
  intros Hs [Hc Hsc Hall].
  assert (Forall (script_inv (components st)) (scripts st)) as Hold by done.
  destruct Hs as [[Hs|Hs]%elem_of_app | ->].
  - apply elem_of_flat_map in Hs as ([i c] & Hi%imap_pair_lookup & (c' & -> & Hc')%list_elem_of_fmap). simpl.
    pose proof (progressed_component _ _ _ _ Hc Hi Hc') as Hp. split; [|done]. split; simpl; [apply Hp | |].
    + eapply Forall_impl; [exact Hsc|]. intros script. by apply script_inv_progressed.
    + intros Hb id Hid. by apply Hp, Hall.
  - apply elem_of_flat_map in Hs as ([j script] & Hj%imap_pair_lookup & ([[cs' b'] rest] & -> & Hn)%list_elem_of_fmap).
    simpl. destruct (instruction_next _ _ script) as [r|] eqn:En; [|by apply elem_of_nil in Hn].
    apply list_elem_of_singleton in Hn as <-.
    apply instruction_next_spec in En as (instr & -> & Hp & Hwait & Hb); [|done].
    pose proof (Forall_lookup_1 _ _ _ _ Hsc Hj) as Hscript. split; [|done]. split; simpl; [apply Hp | |].
    + apply Forall_insert.
      * eapply Forall_impl; [exact Hold|]. intros script. by apply script_inv_progressed.
      * destruct Hscript as (ex & Hfull & Hw). exists (ex ++ [instr]). rewrite <- app_assoc. split; [done|].
        intros ids id [Hin|Hin%list_elem_of_singleton]%elem_of_app Hid; apply Hp; eauto.
    + intros Hb' id Hid. apply Hp. destruct Hb as [->| ->]; [by apply Hall | by eapply script_inv_last].
  - split; [|by split]. split; simpl; [done | | done]. apply Forall_app. split; [done|].
    apply Forall_singleton. exists []. split; [done|]. intros ids id Hin. by apply elem_of_nil in Hin.
Qed.

Lemma stop_inv_steps st st' :
  rtc step st st' -> stop_inv st ->
  stop_inv st' /\ forall id, has_exited (components st) id -> has_exited (components st') id.
Proof.
  intros Hr I. induction Hr as [|st st1 st2 Hs _ IH]; [done|].
  destruct (stop_inv_step _ _ Hs I) as [I1 [_ He]]. destruct (IH I1) as [I2 He']. split; [done|]. eauto.
Qed.

Lemma engine_running_inv cs :
  Forall (fun c => c_stopped c = false /\ c_at c <> Exited) cs -> stop_inv (engine_running cs).
Proof.
  intros Hstart. split; simpl; [|constructor | done]. eapply Forall_impl; [exact Hstart|].
  intros c [H1 H2]. split; [|done]. rewrite H1. split; [done|]. by intros ?%H2.
Qed.
End calls.

(** ** Shutting down can hang *)
(** The run in which the [n]-th possible step is taken for each number. *)
Fixpoint follow (choices : list nat) (st : state) : option state :=
  match choices with
  | [] => Some st
  | n :: choices' => st' ← next_states st !! n; follow choices' st'
  end.

Lemma follow_steps choices st st' : follow choices st = Some st' -> rtc stop_step st st'.
Proof.
  revert st. induction choices as [|n choices IH]; intros st; simpl; [by intros [= ->]|].
  rewrite bind_Some. intros (st1 & Hn & Hf). eapply rtc_l; [|by apply IH].
  by eapply list_elem_of_lookup_2.
Qed.

(** A worker that has left its loop with a value left in its channel blocks a
    second [stop] for ever. *)
Definition hung_worker : state :=
  mkState [mkComponent workerK true true 1 Exited]
    [[Signal 0; WaitStopped [0]; SetEngineStopped]] false.

(** A watcher that has left its loop does not receive the stop signal. *)
Definition hung_watcher : state :=
  mkState [mkComponent watcherK true true 0 Exited]
    [[Signal 0; WaitStopped [0]] ++ stopstoppables workerK [] ++ [SetEngineStopped]] false.

(** One run to such a state: the worker is doing work when [stop] is called. *)
Lemma worker_stop_hangs_run :
  rtc stop_step (Stop [] [] [0] (engine_running [running workerK InBody])) hung_worker /\
  blocked hung_worker /\ engine_stopped hung_worker = false.
Proof. split; [|done]. by apply (follow_steps [1; 1; 1; 1; 0; 0; 0]). Qed.

(** Stopping a watcher hangs when the watcher is not waiting for events: it
    sees its flag, leaves its loop and never receives from the unbuffered stop
    channel, so the send blocks for ever. *)
Theorem watcher_stop_hangs :
  rtc stop_step (Stop [] [0] [] (engine_running [running watcherK InBody])) hung_watcher /\
  blocked hung_watcher /\ engine_stopped hung_watcher = false.
Proof.
  split; [|done]. by apply (follow_steps [1; 1; 0; 0]).
Qed.

(** An engine with one component of each kind that was stopped in order. *)
Definition all_stopped : state :=
  mkState [mkComponent crawlerK true true 0 Exited; mkComponent watcherK true true 0 Exited;
           mkComponent workerK true true 1 Exited] [[]] true.

(** Stopping can complete: when the watcher waits for events and the worker
    for work, there is a run of [stop] that ends with the engine stopped. *)
Theorem stop_completes :
  rtc stop_step
    (Stop [0] [1] [2]
       (engine_running [running crawlerK InBody; running watcherK Selecting; running workerK Selecting])) all_stopped.
Proof. by apply (follow_steps [3; 0; 0; 2; 2; 2; 0; 0; 1; 1; 1; 2; 1; 1; 0; 0; 0]). Qed.

(** *** The second signal to a worker *)
Fixpoint signals (id : nat) (script : list instruction) : nat :=
  match script with
  | [] => 0
  | Signal i :: script' => (if decide (i = id) then 1 else 0) + signals id script'
  | _ :: script' => signals id script'
  end.

Lemma signals_app id l1 l2 : signals id (l1 ++ l2) = signals id l1 + signals id l2.
Proof. induction l1 as [|[] l1 IH]; simpl; rewrite ?IH; lia. Qed.

Lemma signals_workers id ids : id ∈ ids -> 1 <= signals id (flat_map (stop_component workerK) ids).
Proof.
  induction ids as [|i ids IH]; [by intros ?%elem_of_nil|]. simpl.
  intros [->|Hin]%elem_of_cons; [rewrite decide_True by done; lia | specialize (IH Hin); lia].
Qed.

Section hanging.
Context (crawlers watchers workers : list nat) (id : nat) (Hid : id ∈ workers).

Abbreviation full := (engine_stop crawlers watchers workers).

Lemma signals_full : 2 <= signals id full.
Proof.
  unfold engine_stop, stopstoppables. rewrite !signals_app. pose proof (signals_workers id workers Hid). simpl. lia.
Qed.

(** The worker was told to stop and will not look at its channel again, and
    every call of [stop] has more signals for it left than the channel has room
    for. *)
Record hang_inv (st : state) : Prop := {
  hang_worker : exists c, components st !! id = Some c /\ c_kind c = workerK /\ c_stopping c = true /\
    c_at c <> Selecting /\ c_pending c <= 1 /\
    Forall (fun script => (exists executed, full = executed ++ script) /\ 2 <= c_pending c + signals id script)
      (scripts st);
  hang_flag : engine_stopped st = false
}.

Lemma hang_component cs scr b i c c' :
  hang_inv (mkState cs scr b) -> cs !! i = Some c -> c' ∈ component_next c ->
  hang_inv (mkState (<[i := c']> cs) scr b).
Proof.
  intros [(w & Hw & Hk & Hs & Ha & Hp & Hscr) Hb] Hi Hc'. simpl in *. split; [|done]. simpl.
  destruct (decide (i = id)) as [->|Hne].
  - rewrite Hw in Hi. injection Hi as <-. exists c'.
    rewrite list_lookup_insert_eq by (by eapply lookup_lt_Some).
    destruct w as [k sg sd p at_]. simpl in *. subst k sg.
    destruct at_; simpl in Hc'; [..|by apply elem_of_nil in Hc'];
      [|done|]; apply list_elem_of_singleton in Hc' as ->; by split_and!.
  - exists w. by rewrite list_lookup_insert_ne.
Qed.

Lemma hang_script cs scr b j instr rest cs' b' rest' :
  hang_inv (mkState cs scr b) -> scr !! j = Some (instr :: rest) ->
  instruction_next cs b (instr :: rest) = Some (cs', b', rest') ->
  hang_inv (mkState cs' (<[j := rest']> scr) b').
Proof.
  intros [(w & Hw & Hk & Hs & Ha & Hp & Hscr) Hb] Hj En. cbn [components scripts engine_stopped] in *. subst b.
  destruct (Forall_lookup_1 _ _ _ _ Hscr Hj) as [[ex Hex] H2].
  assert (exists executed, full = executed ++ rest) as Hrest
    by (exists (ex ++ [instr]); by rewrite <- app_assoc).
  assert (forall w', c_pending w' = c_pending w + signals id [instr] ->
    Forall (fun script => (exists executed, full = executed ++ script) /\ 2 <= c_pending w' + signals id script)
      (<[j := rest]> scr)) as Hscr'.
  { intros w' Hw'. apply Forall_insert.
    - eapply Forall_impl; [exact Hscr|]. intros script [? ?]. split; [done | lia].
    - split; [done|]. pose proof (signals_app id [instr] rest) as Happ. simpl app in Happ. lia. }
  destruct instr as [i|i|ids|].
  - apply bind_Some in En as (c & Hc & [= <- <- <-]). split; [|done]. simpl.
    destruct (decide (i = id)) as [->|Hne].
    + rewrite Hw in Hc. injection Hc as <-. eexists.
      rewrite list_lookup_insert_eq by (by eapply lookup_lt_Some). split_and!; try done.
      apply Hscr'. simpl. lia.
    + exists w. rewrite list_lookup_insert_ne by done. split_and!; try done. apply Hscr'. simpl. lia.
  - apply bind_Some in En as (c & Hc & En). destruct (decide (i = id)) as [->|Hne].
    + rewrite Hw in Hc. injection Hc as <-. rewrite Hk in En. destruct (c_pending w) eqn:Ep; [|done].
      injection En as <- <- <-. split; [|done]. simpl. eexists.
      rewrite list_lookup_insert_eq by (by eapply lookup_lt_Some). simpl. split_and!; try done; try lia.
      apply Hscr'. simpl. rewrite decide_True by done. lia.
    + assert (c_pending w = c_pending w + signals id [Signal i]) as Hpw
        by (simpl; rewrite decide_False by done; lia).
      destruct (c_kind c);
        [|case_decide; [|done] | destruct (c_pending c); [|done]]; injection En as <- <- <-; (split; [|done]);
        simpl; exists w; rewrite ?list_lookup_insert_ne by done; split_and!; try done; by apply Hscr'.
  - simpl in En. destruct (forallb _ ids); [|done]. injection En as <- <- <-. split; [|done]. exists w.
    split_and!; try done. apply Hscr'. simpl. lia.
  - exfalso. pose proof Hex as Hlast. unfold engine_stop in Hlast. rewrite !app_assoc in Hlast.
    apply app_last_unique in Hlast as ->; [cbn [signals] in H2; lia|].
    rewrite !elem_of_app. intros [[[?|?]|?]|?]; eauto using stop_not_set, stopstoppables_not_set.
Qed.

Lemma hang_inv_step st st' : engine_step crawlers watchers workers st st' -> hang_inv st -> hang_inv st'.
Proof.
  destruct st as [cs scr b]. intros [[Hs|Hs]%elem_of_app | ->] I.
  - apply elem_of_flat_map in Hs as ([i c] & Hi%imap_pair_lookup & (c' & -> & Hc')%list_elem_of_fmap).
    by eapply hang_component.
  - apply elem_of_flat_map in Hs as ([j script] & Hj%imap_pair_lookup & ([[cs' b'] rest] & -> & Hn)%list_elem_of_fmap).
    simpl in *. destruct (instruction_next cs b script) as [r|] eqn:En; [|by apply elem_of_nil in Hn].
    apply list_elem_of_singleton in Hn as <-. destruct script as [|instr script]; [done|].
    by eapply hang_script.
  - destruct I as [(w & Hw & Hk & Hs & Ha & Hp & Hscr) Hb]. split; [|done]. exists w. simpl in *.
    split_and!; try done. apply Forall_app. split; [done|]. apply Forall_singleton.
    split; [by exists [] | pose proof signals_full; lia].
Qed.
End hanging.

(** ** Flags (atomic.go) *)
(** The stop flags are uint32 values; the states above keep them as booleans. *)
Definition is_set (val : Z) : bool := (val =? 1)%Z.
Definition atomicSet (b : bool) : Z := if b then 1%Z else 0%Z.

Lemma is_set_atomicSet b : is_set (atomicSet b) = b.
Proof. by destruct b. Qed.

(** ** Shutdown *)
(** What an iteration of the loop of [Shutdown] sees: the flag of the engine
    and, when that is not set, whether the context is done (else the ticker
    fires). *)
Record poll := mkPoll {
  poll_stopped : bool;
  poll_done : bool
}.

(** The result of [Shutdown], nil or the error of the context, once the loop
    has ended; [None] while it polls. *)
Fixpoint shutdown_loop (ctxErr : string) (polls : list poll) : option (option string) :=
  match polls with
  | [] => None
  | p :: polls' =>
    if poll_stopped p then Some None
    else if poll_done p then Some (Some ctxErr)
    else shutdown_loop ctxErr polls'
  end.

(** [Shutdown] returns as soon as the engine has stopped or the context has
    ended, whichever it sees first, and returns nil only if it saw the engine
    stopped. *)
Lemma shutdown_loop_spec ctxErr polls :
  shutdown_loop ctxErr polls =
  match list_find (fun p => poll_stopped p || poll_done p = true) polls with
  | Some (_, p) => Some (if poll_stopped p then None else Some ctxErr)
  | None => None
  end.
Proof.
  induction polls as [|[[] []] polls IH]; [done..|]. cbn [shutdown_loop list_find poll_stopped poll_done].
  rewrite decide_False by done. rewrite IH. by destruct (list_find _ polls) as [[]|].
Qed.

(** The polls of a call of [Shutdown]: the flag that the [n]-th poll sees is that
    of the engine at that time. *)
Inductive polled (crawlers watchers workers : list nat) : state -> list poll -> state -> Prop :=
| polled_nil st : polled crawlers watchers workers st [] st
| polled_cons st st1 st2 p ps :
    rtc (engine_step crawlers watchers workers) st st1 -> poll_stopped p = IsStopped st1 ->
    polled crawlers watchers workers st1 ps st2 -> polled crawlers watchers workers st (p :: ps) st2.

Lemma polled_steps crawlers watchers workers st ps st' :
  polled crawlers watchers workers st ps st' -> rtc (engine_step crawlers watchers workers) st st'.
Proof. intros Hp. induction Hp; [done | by etrans]. Qed.

(** C30: [Shutdown] returns nil only after every crawler, watcher and worker has
    left its loop, for good, however the goroutines interleave with [stop] and
    with the polls, whatever each component was doing when the call was made,
    and however often [Stop] and [Shutdown] are called before and meanwhile;
    and it returns the error of its context only when the context has ended. *)
Theorem Shutdown_sound (cs : list component) (crawlers watchers workers : list nat) (ctxErr : string)
    (called st : state) (polls : list poll) (result : option string)
    (Hstart : Forall (fun c => c_stopped c = false /\ c_at c <> Exited) cs)
    (Hcalled : rtc (engine_step crawlers watchers workers) (engine_running cs) called)
    (Hpolls : polled crawlers watchers workers (Stop crawlers watchers workers called) polls st)
    (Hreturn : shutdown_loop ctxErr polls = Some result) :
  match result with
  | None => forall id, id ∈ crawlers ++ watchers ++ workers -> has_exited (components st) id
  | Some err => err = ctxErr /\ Exists (fun p => poll_done p = true) polls
  end.
Proof.
  assert (stop_inv crawlers watchers workers (Stop crawlers watchers workers called)) as I.
  { eapply stop_inv_step; [by right|]. eapply stop_inv_steps; [done|]. by apply engine_running_inv. }
  revert I Hpolls. generalize (Stop crawlers watchers workers called).
  induction polls as [|p polls' IH]; [done|]. intros st0 I Hp.
  inversion Hp as [|? stp ? ? ? Hrun Hflag Hrest]; subst. simpl in Hreturn.
  destruct (stop_inv_steps _ _ _ _ _ Hrun I) as [I' _]. destruct (poll_stopped p).
  - injection Hreturn as <-. intros id Hid.
    eapply (stop_inv_steps _ _ _ stp); [by eapply polled_steps | done|].
    by eapply stop_all.
  - destruct (poll_done p) eqn:Ed; [injection Hreturn as <-; split; [done | by left]|].
    specialize (IH Hreturn _ I' Hrest). destruct result; [|done]. split; [|right]; apply IH.
Qed.

(** C31: Stopping is not idempotent for workers, against the comment in
    [baseEngine.stop].  Let the first call of [stop] have just set the flag of
    a worker that is doing work and whose channel is empty, whatever the other
    crawlers, watchers and workers do: the worker
    finishes its work and leaves its loop without taking a value from its
    channel, which has room for one of the two that [stop] sends.  So in no
    continuation, also if [Stop] and [Shutdown] are called again, is the engine
    ever reported as stopped, and a call of [Shutdown] can only return the error
    of its context. *)
Theorem worker_stop_hangs (crawlers watchers before after : list nat) (id : nat) (cs : list component)
    (Hworker : cs !! id = Some (mkComponent workerK true false 0 InBody)) :
  let workers := before ++ id :: after in
  let st := mkState cs [Signal id :: flat_map (stop_component workerK) after ++
                        stopstoppables workerK workers ++ [SetEngineStopped]] false in
  (exists executed, engine_stop crawlers watchers workers = executed ++ SetStopping id :: concat (scripts st)) /\
  (forall st', rtc (engine_step crawlers watchers workers) st st' -> IsStopped st' = false) /\
  (forall ctxErr polls st' result, polled crawlers watchers workers st polls st' ->
     shutdown_loop ctxErr polls = Some result -> result = Some ctxErr).
Proof.
  intros workers st. assert (id ∈ workers) as Hid by set_solver.
  assert (exists executed, engine_stop crawlers watchers workers = executed ++ SetStopping id :: concat (scripts st))
    as [ex Hex].
  { exists (stopstoppables crawlerK crawlers ++ stopstoppables watcherK watchers ++ flat_map (stop_component workerK) before).
    simpl. rewrite app_nil_r. unfold engine_stop. rewrite <- !app_assoc. do 2 f_equal.
    unfold workers at 1. rewrite flat_map_app. by rewrite <- app_assoc. }
  assert (hang_inv crawlers watchers workers id st) as I.
  { split; [|done]. eexists. split_and!; [exact Hworker | done.. | simpl; lia |]. apply Forall_singleton. split.
    - exists (ex ++ [SetStopping id]). rewrite <- app_assoc. simpl. rewrite Hex. simpl. by rewrite app_nil_r.
    - simpl. rewrite decide_True by done. unfold stopstoppables. rewrite !signals_app.
      pose proof (signals_workers id workers Hid). lia. }
  assert (forall st1 st2, rtc (engine_step crawlers watchers workers) st1 st2 ->
    hang_inv crawlers watchers workers id st1 -> hang_inv crawlers watchers workers id st2) as Hrun.
  { intros st1 st2 Hr. induction Hr; eauto using hang_inv_step. }
  split_and!; [by exists ex | intros st' Hr; by apply (Hrun _ _ Hr I) |].
  intros ctxErr polls st' result Hp. clear Hex. clearbody st. revert I. induction Hp as [|st0 st1 st2 p ps Hr Hflag _ IH]; [done|].
  intros I. simpl. pose proof (Hrun _ _ Hr I) as I1. rewrite Hflag. unfold IsStopped. rewrite (hang_flag _ _ _ _ _ I1).
  destruct (poll_done p); [by intros [= <-] | exact (IH I1)].
Qed.
