(* ===== verification/Options.v ===== *)
(** * Options (rules/options.go) *)
(** An engine option is a function on the options record.  The maps of
    [KeyExpansion] are references into a store of maps, because the first such
    map becomes the engine's own and later ones are written into it.  Context
    providers and metrics collectors are values of abstract types. *)
From S2P Require Import Prelude GoString Jitter Matcher.
From coqutil Require Import Datatypes.RecordSetters.
Import DoubleBraceUpdate.

(** ** Rule options (options.go) *)
Section rule_options.
Context {CP : Type}.

Record ruleOptions := mkRuleOptions {
  ro_lockTimeout : Z;
  ro_contextProvider : option CP;
  ro_ruleID : string
}.

Definition RuleOption : Type := ruleOptions -> ruleOptions.

Definition defaultRuleID : string := "NO_ID_SET".

Definition makeRuleOptions (options : list RuleOption) : ruleOptions :=
  fold_left (fun o opt => opt o) options (mkRuleOptions 0 None defaultRuleID).

Definition RuleLockTimeout (lockTimeout : Z) : RuleOption := fun o =>
  mkRuleOptions lockTimeout (ro_contextProvider o) (ro_ruleID o).

Definition RuleContextProvider (cp : CP) : RuleOption := fun o =>
  mkRuleOptions (ro_lockTimeout o) (Some cp) (ro_ruleID o).

Definition RuleID (ruleID : string) : RuleOption := fun o =>
  mkRuleOptions (ro_lockTimeout o) (ro_contextProvider o) ruleID.
End rule_options.
Arguments ruleOptions CP : clear implicits.
Arguments RuleOption CP : clear implicits.

(** ** Engine options *)
(** [time.Duration] arithmetic wraps around at 64 bits. *)
Definition wrap64 (z : Z) : Z := (Z.modulo (z + 2 ^ 63) (2 ^ 64) - 2 ^ 63)%Z.

Definition Millisecond : Z := 1000000.
Definition Second : Z := 1000000000.
Definition Minute : Z := 60000000000.

(** The float64 constant 0.1. *)
Definition syncJitterPercent : float64 := Finite (7205759403792794 * 2 ^ (1074 - 56))%Z.

(** The maps the application and the engines hold references to. *)
Abbreviation map_store := (gmap nat (gmap string (list string))).

Section engine_options.
Context {CP MC : Type}.

Record engineOptions := mkEngineOptions {
  eo_concurrency : Z;
  eo_crawlerTTL : Z;
  eo_syncGetTimeout : Z;
  eo_watchTimeout : Z;
  eo_keyProcConcurrency : Z;
  eo_keyProcBuffer : Z;
  eo_syncInterval : DurationGenerator;
  eo_syncDelay : DurationGenerator;
  eo_constraints : gmap string constraint;
  eo_contextProvider : CP;
  eo_keyExpansion : option nat;
  eo_lockTimeout : Z;
  eo_lockAcquisitionTimeout : Z;
  eo_crawlMutex : option string;
  eo_ruleWorkBuffer : Z;
  eo_enhancedRuleFilter : bool;
  eo_metrics : MC;
  eo_lockCoolOff : Z;
  eo_dontUseSharedLockSession : bool;
  eo_useTryLock : bool;
  eo_watchDelay : DurationGenerator
}.

Definition zeroGenerator : DurationGenerator := mkDurationGenerator 0 (Finite 0).

Definition defaultEngineOptions (defaultContextProvider : CP) (defaultMetricsCollector : MC) :
    engineOptions := {|
  eo_concurrency := 5;
  eo_crawlerTTL := 0;
  eo_syncGetTimeout := 0;
  eo_watchTimeout := 0;
  eo_keyProcConcurrency := 5;
  eo_keyProcBuffer := 1000;
  eo_syncInterval := NewDurationGenerator (5 * Minute) syncJitterPercent;
  eo_syncDelay := NewDurationGenerator (2 * Millisecond) syncJitterPercent;
  eo_constraints := ∅;
  eo_contextProvider := defaultContextProvider;
  eo_keyExpansion := None;
  eo_lockTimeout := 30;
  eo_lockAcquisitionTimeout := 5;
  eo_crawlMutex := None;
  eo_ruleWorkBuffer := 0;
  eo_enhancedRuleFilter := false;
  eo_metrics := defaultMetricsCollector;
  eo_lockCoolOff := 0;
  eo_dontUseSharedLockSession := false;
  eo_useTryLock := false;
  eo_watchDelay := zeroGenerator
|}.

Definition EngineOption : Type := engineOptions * map_store -> engineOptions * map_store.

Definition makeEngineOptions (dcp : CP) (dmc : MC) (options : list EngineOption) (h : map_store) :
    engineOptions * map_store :=
  fold_left (fun st opt => opt st) options (defaultEngineOptions dcp dmc, h).

(** An option that only changes the record. *)
Definition on_options (f : engineOptions -> engineOptions) : EngineOption := fun '(o, h) => (f o, h).

Definition KeyProcessorConcurrency (threads : Z) : EngineOption := on_options (fun o =>
  o{{eo_keyProcConcurrency := threads}}).

Definition KeyProcessorBuffer (size : Z) : EngineOption := on_options (fun o =>
  o{{eo_keyProcBuffer := size}}).

Definition EngineLockTimeout (lockTimeout : Z) : EngineOption := on_options (fun o =>
  o{{eo_lockTimeout := lockTimeout}}).

Definition EngineLockAcquisitionTimeout (lockAcquisitionTimeout : Z) : EngineOption := on_options (fun o =>
  o{{eo_lockAcquisitionTimeout := lockAcquisitionTimeout}}).

Definition EngineConcurrency (workers : Z) : EngineOption := on_options (fun o =>
  o{{eo_concurrency := workers}}).

Definition EngineWatchTimeout (watchTimeout : Z) : EngineOption := on_options (fun o =>
  o{{eo_watchTimeout := watchTimeout}}).

(** When the engine has a map already, the pairs are assigned to that map. *)
Definition KeyExpansion `{GoRange} (keyExpansion : option nat) : EngineOption := fun '(o, h) =>
  match eo_keyExpansion o with
  | Some own =>
    let pairs := range (default ∅ (keyExpansion ≫= (fun r => h !! r))) in
    (o, <[own := fold_left (fun m '(k, v) => <[k := v]> m) pairs (default ∅ (h !! own))]> h)
  | None =>
    (o{{eo_keyExpansion := keyExpansion}}, h)
  end.

Definition KeyConstraint (attribute prefix : string) (chars : list (list Z)) : EngineOption := on_options (fun o =>
  o{{eo_constraints := <[attribute := mkConstraint prefix chars]> (eo_constraints o)}}).

Definition EngineUseTryLock : EngineOption := on_options (fun o =>
  o{{eo_useTryLock := true}}).

(** Deprecated, has no effect. *)
Definition EngineUseSharedLockSession : EngineOption := on_options (fun o => o).

Definition EngineDontShareLockSession : EngineOption := on_options (fun o =>
  o{{eo_dontUseSharedLockSession := true}}).

Definition EngineLockCoolOff (timeout : Z) : EngineOption := on_options (fun o =>
  o{{eo_lockCoolOff := timeout}}).

Definition EngineSyncInterval (interval : Z) : EngineOption := on_options (fun o =>
  o{{eo_syncInterval := NewDurationGenerator (wrap64 (interval * Second)) syncJitterPercent}}).

(** A delay of zero panics. *)
Definition EngineSyncDelay (delay : Z) : option EngineOption :=
  if decide (delay = 0%Z) then None
  else Some (on_options (fun o =>
  o{{eo_syncDelay := NewDurationGenerator (wrap64 (delay * Millisecond)) syncJitterPercent}})).

Definition EngineContextProvider (cp : CP) : EngineOption := on_options (fun o =>
  o{{eo_contextProvider := cp}}).

Definition EngineMetricsCollector (m : MC) : EngineOption := on_options (fun o =>
  o{{eo_metrics := m}}).

Definition EngineCrawlMutex (mutex : string) (mutexTTL : Z) : EngineOption := on_options (fun o =>
  o{{eo_crawlerTTL := mutexTTL; eo_crawlMutex := Some mutex}}).

Definition EngineRuleWorkBuffer (buffer : Z) : EngineOption := on_options (fun o =>
  o{{eo_ruleWorkBuffer := buffer}}).

Definition EngineEnhancedRuleFilter (enhancedRuleFilter : bool) : EngineOption := on_options (fun o =>
  o{{eo_enhancedRuleFilter := enhancedRuleFilter}}).

Definition EngineWatchProcessDelay (base : Z) (jitterPercent : float64) : EngineOption := on_options (fun o =>
  o{{eo_watchDelay := NewDurationGenerator base jitterPercent}}).

(** Options from a configuration file; a nil pointer leaves the default. *)
Record EngineOptions := mkConfigOptions {
  Concurrency : option Z;
  EnhancedRuleFilter : option bool
}.

Definition GetEngineOptions (options : EngineOptions) : list EngineOption :=
  match Concurrency options with Some c => [EngineConcurrency c] | None => [] end ++
  match EnhancedRuleFilter options with Some b => [EngineEnhancedRuleFilter b] | None => [] end.
End engine_options.
Arguments engineOptions CP MC : clear implicits.
Arguments EngineOption CP MC : clear implicits.

(** ** Combining key expansions *)
Section key_expansion.
Context {CP MC : Type} `{GoRange}.

Lemma fold_insert_list_to_map {A} (l : list (string * A)) (m : gmap string A) :
  NoDup l.*1 -> fold_left (fun m '(k, v) => <[k := v]> m) l m = list_to_map l ∪ m.
Proof.
  revert m. induction l as [|[k v] l IH]; intros m Hnd; cbn [fold_left].
  { symmetry. apply (left_id_L ∅ (∪)). }
  rewrite fmap_cons in Hnd. apply NoDup_cons in Hnd as [Hk Hnd]. rewrite IH by done. simpl.
  rewrite <- insert_union_r by (by apply not_elem_of_list_to_map_1). by rewrite insert_union_l.
Qed.

(** Assigning all pairs of a map to another one. *)
Lemma fold_insert_range {A} (m m' : gmap string A) :
  fold_left (fun m '(k, v) => <[k := v]> m) (range m) m' = m ∪ m'.
Proof.
  rewrite fold_insert_list_to_map by apply NoDup_range_keys.
  rewrite (list_to_map_proper (range m) (map_to_list m)), list_to_map_to_list;
    [done | apply NoDup_range_keys | apply range_perm].
Qed.

(** The maps with other references are not affected. *)
Lemma expansions_other (h : map_store) own g acc rs :
  own ∉ rs ->
  fold_left (fun m r => default ∅ (<[own := g]> h !! r) ∪ m) rs acc =
  fold_left (fun m r => default ∅ (h !! r) ∪ m) rs acc.
Proof.
  revert acc. induction rs as [|r rs IH]; intros acc Hr; simpl; [done|].
  apply not_elem_of_cons in Hr as [Hne Hr]. rewrite lookup_insert_ne by done. by apply IH.
Qed.

Lemma KeyExpansion_more (o : engineOptions CP MC) h own m rs :
  eo_keyExpansion o = Some own -> h !! own = Some m -> own ∉ rs ->
  fold_left (fun st (opt : EngineOption CP MC) => opt st) ((fun r => KeyExpansion (Some r)) <$> rs) (o, h) =
  (o, <[own := fold_left (fun m r => default ∅ (h !! r) ∪ m) rs m]> h).
Proof.
  revert h m. induction rs as [|r rs IH]; intros h m Ho Hm Hr; simpl; [by rewrite insert_id|].
  apply not_elem_of_cons in Hr as [Hne Hr]. rewrite Ho, Hm. simpl. rewrite fold_insert_range.
  erewrite IH; [|done | by rewrite lookup_insert_eq | done]. rewrite insert_insert_eq.
  by rewrite expansions_other.
Qed.

End key_expansion.
