(* ===== verification/LogObject.v ===== *)
(** * Logging the options (rules/options.go, internal/jitter/duration.go) *)
(** The options and the duration generators describe themselves to an object
    encoder of package zapcore, whose operations are a class here.  Adding an
    object or a reflected value can fail; the first failure ends the
    description. *)
From S2P Require Import Prelude GoString Jitter Seconds Matcher Options.

(** ** Encoders *)
(** What the encoder reflects on: the two maps of the options. *)
Inductive reflected :=
| reflConstraints (m : gmap string constraint)
| reflExpansion (m : option (gmap string (list string))).

(** A marshaler changes the encoder and may return an error. *)
Definition marshaler (E : Type) : Type := E -> E * option string.

Class ObjectEncoder (E : Type) := {
  AddInt : string -> Z -> E -> E;
  AddBool : string -> bool -> E -> E;
  AddString : string -> string -> E -> E;
  AddDuration : string -> Z -> E -> E;
  AddFloat64 : string -> float64 -> E -> E;
  AddObject : string -> marshaler E -> marshaler E;
  AddReflected : string -> reflected -> marshaler E
}.

(** Sequencing of marshalers: [return] on an error. *)
Definition adds {E} (f : E -> E) : marshaler E := fun enc => (f enc, None).

Definition and_then {E} (f g : marshaler E) : marshaler E := fun enc =>
  let '(enc', err) := f enc in
  match err with
  | Some e => (enc', Some e)
  | None => g enc'
  end.

Declare Scope marshal_scope.
Notation "f ;; g" := (and_then f g) (at level 100, g at level 200, right associativity) : marshal_scope.
Local Open Scope marshal_scope.

Section marshal.
Context {E : Type} `{ObjectEncoder E}.

Definition DurationGenerator_MarshalLogObject (g : DurationGenerator) : marshaler E :=
  adds (AddDuration "base" (base g)) ;; adds (AddFloat64 "jitterPercent" (jitterPercent g)).

(** [is_nil] tells whether a context provider is nil, and [h] holds the maps of
    the application. *)
Definition MarshalLogObject {CP MC} (is_nil : CP -> bool) (h : map_store) (eo : engineOptions CP MC) : marshaler E :=
  adds (AddInt "concurrency" (eo_concurrency eo)) ;;
  adds (AddInt "ruleWorkBuffer" (eo_ruleWorkBuffer eo)) ;;
  adds (AddBool "contextProvider" (negb (is_nil (eo_contextProvider eo)))) ;;
  AddObject "syncInterval" (DurationGenerator_MarshalLogObject (eo_syncInterval eo)) ;;
  AddObject "syncDelay" (DurationGenerator_MarshalLogObject (eo_syncDelay eo)) ;;
  adds (AddInt "syncGetTimeout" (eo_syncGetTimeout eo)) ;;
  adds (AddInt "watchTimeout" (eo_watchTimeout eo)) ;;
  AddObject "watchDelay" (DurationGenerator_MarshalLogObject (eo_watchDelay eo)) ;;
  adds (AddInt "lockTimeout" (eo_lockTimeout eo)) ;;
  adds (AddInt "lockAcquisitionTimeout" (eo_lockAcquisitionTimeout eo)) ;;
  adds (AddInt "lockCoolOff" (whole_seconds (eo_lockCoolOff eo))) ;;
  match eo_crawlMutex eo with
  | Some mutex => adds (AddString "crawlMutex" mutex) ;; adds (AddInt "crawlerTTL" (eo_crawlerTTL eo))
  | None => adds id
  end ;;
  AddReflected "constraints" (reflConstraints (eo_constraints eo)) ;;
  AddReflected "keyExpansion" (reflExpansion (ref ← eo_keyExpansion eo; h !! ref)) ;;
  adds (AddInt "keyProcConcurrency" (eo_keyProcConcurrency eo)) ;;
  adds (AddInt "keyProcBuffer" (eo_keyProcBuffer eo)) ;;
  adds (AddBool "enhancedRuleFilter" (eo_enhancedRuleFilter eo)) ;;
  adds (AddBool "dontUseSharedLockSession" (eo_dontUseSharedLockSession eo)) ;;
  adds (AddBool "useTryLock" (eo_useTryLock eo)).
End marshal.

(** ** A list of fields as an encoder *)
Inductive field_value :=
| IntField (z : Z)
| BoolField (b : bool)
| StringField (s : string)
| DurationField (d : Z)
| FloatField (f : float64)
| ObjectField (fields : list (string * field_value))
| ReflectedField (r : reflected).

Abbreviation fields := (list (string * field_value)).

(** [reflects] tells which values can be reflected. *)
Section fields_encoder.
Variable reflects : reflected -> bool.

Definition add_field (name : string) (v : field_value) (enc : fields) : fields := enc ++ [(name, v)].

Instance fields_encoder : ObjectEncoder fields := {|
  AddInt := fun n z => add_field n (IntField z);
  AddBool := fun n b => add_field n (BoolField b);
  AddString := fun n s => add_field n (StringField s);
  AddDuration := fun n d => add_field n (DurationField d);
  AddFloat64 := fun n f => add_field n (FloatField f);
  AddObject := fun n m enc =>
    let '(fs, err) := m [] in
    match err with
    | Some e => (enc, Some e)
    | None => (add_field n (ObjectField fs) enc, None)
    end;
  AddReflected := fun n r enc =>
    if reflects r then (add_field n (ReflectedField r) enc, None) else (enc, Some "unsupported type")
|}.

(** When the two maps can be reflected, every field is logged once. *)
Lemma MarshalLogObject_fields {CP MC} is_nil h (eo : engineOptions CP MC) :
  (forall r, reflects r = true) ->
  (MarshalLogObject is_nil h eo []).2 = None /\
  ((MarshalLogObject is_nil h eo []).1).*1 =
    ["concurrency"; "ruleWorkBuffer"; "contextProvider"; "syncInterval"; "syncDelay"; "syncGetTimeout";
     "watchTimeout"; "watchDelay"; "lockTimeout"; "lockAcquisitionTimeout"; "lockCoolOff"] ++
    (if eo_crawlMutex eo then ["crawlMutex"; "crawlerTTL"] else []) ++
    ["constraints"; "keyExpansion"; "keyProcConcurrency"; "keyProcBuffer"; "enhancedRuleFilter";
     "dontUseSharedLockSession"; "useTryLock"].
Proof.
  intros Hr. unfold MarshalLogObject, and_then, adds. simpl. destruct (eo_crawlMutex eo); simpl; by rewrite !Hr.
Qed.

(** When the constraints cannot be reflected the description ends there. *)
Lemma MarshalLogObject_fails {CP MC} is_nil h (eo : engineOptions CP MC) :
  reflects (reflConstraints (eo_constraints eo)) = false ->
  (MarshalLogObject is_nil h eo []).2 = Some "unsupported type" /\
  ("useTryLock" ∉ ((MarshalLogObject is_nil h eo []).1).*1).
Proof.
  intros Hr. unfold MarshalLogObject, and_then, adds. simpl.
  destruct (eo_crawlMutex eo); simpl; rewrite Hr; simpl; (split; [done|]); set_solver.
Qed.
End fields_encoder.
