(* ===== verification/Engine.v ===== *)
(** * Adding rules to an engine (rules/engine.go) *)
(** [newV3Engine] gives the key processor a pointer to a local rule manager and
    the engine a copy of it, so the two managers share the maps they were
    created with but not their other fields; the engine adds rules to its own
    copy.  The model keeps both managers and the sharing. *)
From S2P Require Import Prelude GoString Attributes Matcher StaticRule DynamicRule Instantiation RuleManager Etcd KeyProcessor Options.

(** ** The engine *)
Section engine.
Context `{Regexp} {CB CP : Type}.

(** [e_keyProc] holds the manager the key processor points to, [e_ruleMgr] is
    the engine's copy.  [prefixes_shared] tells whether both still refer to
    the map of prefixes they were created with. *)
Record baseEngine := mkBaseEngine {
  e_lockTimeout : Z;
  e_contextProvider : CP;
  e_keyProc : v3KeyProcessor CB CP;
  e_ruleMgr : ruleManager;
  prefixes_shared : bool;
  ruleLockTTLs : gmap nat Z
}.

(** The part of [newV3Engine] that creates the managers. *)
Definition newEngine (constraints : gmap string constraint) (enhanced : bool) (lockTimeout : Z)
    (contextProvider : CP) : baseEngine :=
  let ruleMgr := newRuleManager constraints enhanced in
  mkBaseEngine lockTimeout contextProvider (newV3KeyProcessor ruleMgr) ruleMgr true ∅.

(** The manager of the key processor after the engine's copy changed to
    [own]: it sees the changes of the shared map of buckets, and those of the
    map of prefixes while that is shared. *)
Definition shared_manager (kp own : ruleManager) (shared : bool) (newPrefixes : list string) : ruleManager :=
  mkRuleManager _ (rm_constraints kp) (currentIndex kp) (rulesBySlashCount own)
    (if shared then
       fold_left (fun (m : gmap string string) prefix => <[prefix := EmptyString]> m) newPrefixes
         (rm_prefixes kp)
     else rm_prefixes kp)
    (rm_rules kp) (enhancedRuleFilter kp).

Definition set_kp_manager (v3kp : v3KeyProcessor CB CP) (rm : ruleManager) : v3KeyProcessor CB CP :=
  let b := kp_base v3kp in
  mkV3KeyProcessor (mkBaseKeyProcessor (contextProviders b) (lockKeyPatterns b) (ruleIDs b) rm)
    (callbacks v3kp).

(** The result is the engine and whether the call panicked because the rule
    has no ID, which is noticed after the rule manager has the rule; [None] is
    the panic of the rule manager. *)
Definition engine_addRule `{GoRange} (e : baseEngine) (rule : ruleRef) (lockPattern : string)
    (callback : CB) (options : list (RuleOption CP)) : option (baseEngine * bool) :=
  newPrefixes ← rule_prefixesWithConstraints (rm_constraints (e_ruleMgr e)) (ref_rule rule);
  '(ruleMgr, ruleIndex) ← addRule (e_ruleMgr e) rule;
  let keyProc := set_kp_manager (e_keyProc e)
    (shared_manager (kp_rm (kp_base (e_keyProc e))) ruleMgr (prefixes_shared e) newPrefixes) in
  let opts := makeRuleOptions options in
  let ttl := if (0 <? ro_lockTimeout opts)%Z then ro_lockTimeout opts else e_lockTimeout e in
  let contextProvider := default (e_contextProvider e) (ro_contextProvider opts) in
  if decide (ro_ruleID opts = defaultRuleID) then
    Some (mkBaseEngine (e_lockTimeout e) (e_contextProvider e) keyProc ruleMgr false (ruleLockTTLs e), true)
  else
    let keyProc := setCallback keyProc ruleIndex callback in
    let b := setLockKeyPattern (kp_base keyProc) ruleIndex lockPattern in
    let b := setContextProvider b ruleIndex contextProvider in
    let b := setRuleID b ruleIndex (ro_ruleID opts) in
    Some (mkBaseEngine (e_lockTimeout e) (e_contextProvider e)
            (mkV3KeyProcessor b (callbacks keyProc)) ruleMgr false
            (<[ruleIndex := ttl]> (ruleLockTTLs e)), false).

Definition getLockTTLForRule (e : baseEngine) (index : nat) : Z := default 0%Z (ruleLockTTLs e !! index).
End engine.
Arguments baseEngine {_} CB CP.

(** ** Engines with rules *)
(** What a call of [AddRule] passes. *)
Record registration `{Regexp} (CB CP : Type) := mkRegistration {
  reg_rule : ruleRef;
  reg_lockPattern : string;
  reg_callback : CB;
  reg_options : list (RuleOption CP)
}.
Arguments mkRegistration {_ CB CP}.
Arguments reg_rule {_ CB CP}.
Arguments reg_lockPattern {_ CB CP}.
Arguments reg_callback {_ CB CP}.
Arguments reg_options {_ CB CP}.

Section configured.
Context {R : Regexp} {CB CP : Type}.

(** The engines that result from adding rules, each call without a panic. *)
Inductive engine_with (constraints : gmap string constraint) (enhanced : bool) (lockTimeout : Z)
    (contextProvider : CP) : list (registration CB CP) -> baseEngine CB CP -> Prop :=
| engine_new :
    engine_with constraints enhanced lockTimeout contextProvider []
      (newEngine constraints enhanced lockTimeout contextProvider)
| engine_add (G : GoRange) regs e reg e' :
    engine_with constraints enhanced lockTimeout contextProvider regs e ->
    engine_addRule e (reg_rule reg) (reg_lockPattern reg) (reg_callback reg) (reg_options reg) =
      Some (e', false) ->
    engine_with constraints enhanced lockTimeout contextProvider (regs ++ [reg]) e'.

(** The key processor finds for each index what was registered with it. *)
Record configured (lockTimeout : Z) (contextProvider : CP) (regs : list (registration CB CP))
    (e : baseEngine CB CP) : Prop := {
  conf_callback : forall i, callbacks (e_keyProc e) !! i = reg_callback <$> regs !! i;
  conf_lock : forall i, lockKeyPatterns (kp_base (e_keyProc e)) !! i = reg_lockPattern <$> regs !! i;
  conf_id : forall i, ruleIDs (kp_base (e_keyProc e)) !! i =
    (fun r => ro_ruleID (makeRuleOptions (reg_options r))) <$> regs !! i;
  conf_context : forall i, contextProviders (kp_base (e_keyProc e)) !! i =
    (fun r => default contextProvider (ro_contextProvider (makeRuleOptions (reg_options r)))) <$> regs !! i;
  conf_ttl : forall i, ruleLockTTLs e !! i =
    (fun r => let t := ro_lockTimeout (makeRuleOptions (reg_options r)) in
              if (0 <? t)%Z then t else lockTimeout) <$> regs !! i
}.

Record engine_inv (constraints : gmap string constraint) (enhanced : bool) (lockTimeout : Z)
    (contextProvider : CP) (regs : list (registration CB CP)) (e : baseEngine CB CP) : Prop := {
  einv_managed : managed constraints enhanced (reg_rule <$> regs) (e_ruleMgr e);
  einv_buckets : rulesBySlashCount (kp_rm (kp_base (e_keyProc e))) = rulesBySlashCount (e_ruleMgr e);
  einv_filter : enhancedRuleFilter (kp_rm (kp_base (e_keyProc e))) = enhancedRuleFilter (e_ruleMgr e);
  einv_defaults : e_lockTimeout e = lockTimeout /\ e_contextProvider e = contextProvider;
  einv_configured : configured lockTimeout contextProvider regs e
}.

Lemma lookup_snoc_insert {A B} (f : A -> B) (m : gmap nat B) (l : list A) x :
  (forall i, m !! i = f <$> l !! i) -> forall i, <[length l := f x]> m !! i = f <$> (l ++ [x]) !! i.
Proof.
  intros Hm i. destruct (decide (i = length l)) as [->|Hne].
  - by rewrite lookup_insert_eq, list_lookup_middle.
  - rewrite lookup_insert_ne, Hm by done. destruct (decide (i < length l)).
    + by rewrite lookup_app_l.
    + rewrite lookup_ge_None_2 by lia. rewrite lookup_ge_None_2; [done|]. rewrite length_app. simpl. lia.
Qed.

Lemma engine_add_inv `{GoRange} constraints enhanced lockTimeout contextProvider regs e reg e' :
  engine_inv constraints enhanced lockTimeout contextProvider regs e ->
  engine_addRule e (reg_rule reg) (reg_lockPattern reg) (reg_callback reg) (reg_options reg) =
    Some (e', false) ->
  engine_inv constraints enhanced lockTimeout contextProvider (regs ++ [reg]) e'.
Proof.
  intros [Hm Hb Hf [Ht Hc] [Ccb Cl Cid Cctx Cttl]]. unfold engine_addRule. rewrite bind_Some.
  intros (new & Hnew & Hadd). apply bind_Some in Hadd as ([rm index] & Ha & He).
  pose proof (add_manager_inv _ _ _ _ _ _ _ (managed_inv _ _ _ _ Hm) Ha) as [I Hindex].
  rewrite length_fmap in Hindex. case_decide as Hid; [done|]. injection He as <-. split; simpl.
  - rewrite fmap_app. by eapply managed_add.
  - done.
  - rewrite Hf, (inv_enhanced _ _ _ _ (managed_inv _ _ _ _ Hm)). symmetry. apply I.
  - done.
  - subst index. split; simpl; intros i.
    + by apply lookup_snoc_insert.
    + by apply lookup_snoc_insert.
    + by apply (lookup_snoc_insert (fun r => ro_ruleID (makeRuleOptions (reg_options r)))).
    + rewrite Hc. by apply (lookup_snoc_insert (fun r =>
        default contextProvider (ro_contextProvider (makeRuleOptions (reg_options r))))).
    + rewrite Ht. by apply (lookup_snoc_insert (fun r =>
        let t := ro_lockTimeout (makeRuleOptions (reg_options r)) in
        if (0 <? t)%Z then t else lockTimeout)).
Qed.

Lemma engine_with_inv constraints enhanced lockTimeout contextProvider regs e :
  engine_with constraints enhanced lockTimeout contextProvider regs e ->
  engine_inv constraints enhanced lockTimeout contextProvider regs e.
Proof.
  induction 1 as [|G regs e reg e' _ IH Hadd].
  - split; simpl; [apply managed_new | done | done | done |].
    split; simpl; intros i; by rewrite lookup_empty.
  - by eapply engine_add_inv.
Qed.

Lemma getStaticRules_same `{GoRange} rm rm' key value :
  rulesBySlashCount rm = rulesBySlashCount rm' -> enhancedRuleFilter rm = enhancedRuleFilter rm' ->
  getStaticRules rm key value = getStaticRules rm' key value.
Proof. intros Hb He. unfold getStaticRules. by rewrite Hb, He. Qed.

Lemma engine_same `{GoRange} constraints enhanced lockTimeout contextProvider regs e key value get metadata :
  engine_inv constraints enhanced lockTimeout contextProvider regs e ->
  processKey (e_keyProc e) key value get metadata =
  processKey (set_kp_manager (e_keyProc e) (e_ruleMgr e)) key value get metadata.
Proof.
  intros [_ Hb Hf _ _]. unfold processKey. rewrite (getStaticRules_same _ (e_ruleMgr e)) by done. simpl.
  apply option_bind_ext_fun. intros rules. destruct (get _) as [|api]; [done|].
  induction (rule_order rules) as [|[r i] l IH]; [done|]. cbn [process_loop]. rewrite IH. done.
Qed.

(** C13: The two rule managers of an engine do not drift apart: after any
    successful [AddRule] calls the key processor, which holds another copy of
    the rule manager than the one the rules are added to, instantiates exactly
    the rules the engine's manager would, processes every key as it would with
    that manager, and finds under each index the callback, lock pattern, ID,
    context provider and lock TTL of the call that got the index. *)
Theorem engine_consistent `{GoRange} (constraints : gmap string constraint) (enhanced : bool) (lockTimeout : Z)
    (contextProvider : CP) (regs : list (registration CB CP)) (e : baseEngine CB CP)
    (Hengine : engine_with constraints enhanced lockTimeout contextProvider regs e) :
  managed constraints enhanced (reg_rule <$> regs) (e_ruleMgr e) /\
  (forall key value, getStaticRules (kp_rm (kp_base (e_keyProc e))) key value =
                     getStaticRules (e_ruleMgr e) key value) /\
  (forall key value get metadata,
     processKey (e_keyProc e) key value get metadata =
     processKey (set_kp_manager (e_keyProc e) (e_ruleMgr e)) key value get metadata) /\
  configured lockTimeout contextProvider regs e.
Proof.
  apply engine_with_inv in Hengine as I. pose proof I as [Hm Hb Hf _ Hc].
  split_and!; [done | intros; by apply getStaticRules_same | intros; by eapply engine_same | done].
Qed.

End configured.

(** ** From a change to the callback *)
Section dispatching.
Context {R : Regexp} {RL : RegexpLaws R} {CB CP : Type} `{GoRange}.

(** C4: The work an engine sends for a changed key is exactly that of the rules
    that hold: when the registered rules are distinct objects, the read
    transaction commits on a snapshot [store] and the call does not panic, a work
    item is sent if and only if it is [dispatchWork] of an instance that some
    registered rule yields for the key, that passes the rule filter and is true
    in [store], with the registered lock pattern and ID. *)
Theorem engine_dispatches (e : baseEngine CB CP) (constraints : gmap string constraint) (enhanced : bool)
    (lockTimeout : Z) (contextProvider : CP) (regs : list (registration CB CP))
    (key : string) (value : option string) (kv : KV) (store : string -> option string)
    (metadata : gmap string string) (works : list (v3RuleWork CB CP)) (ids : list string)
    (w : v3RuleWork CB CP)
    (Hengine : engine_with constraints enhanced lockTimeout contextProvider regs e)
    (Hdistinct : NoDup (ref_ptr <$> (reg_rule <$> regs)))
    (Hkv : answers_from kv store) (Hcommit : commits kv)
    (Hkey : processKey (e_keyProc e) key value (etcdV3ReadAPI_getCachedAPI kv) metadata =
              Some (works, ids)) :
  w ∈ works <->
  exists i reg sr attr, regs !! i = Some reg /\
    Exists (fun p => Count key slash = Count p slash) (getPatterns (ref_rule (reg_rule reg))) /\
    makeStaticRule (ref_rule (reg_rule reg)) key value = Some (Some (sr, attr)) /\
    rule_filter enhanced sr key value = true /\ holds store sr = true /\
    dispatchWork (e_keyProc e) i sr (reg_lockPattern reg) metadata
      (ro_ruleID (makeRuleOptions (reg_options reg))) = Some w.
Proof.
  apply engine_with_inv in Hengine as I. pose proof I as [Hm _ _ _ [_ Clock Cid _ _]].
  rewrite (engine_same _ _ _ _ _ _ _ _ _ _ I) in Hkey.
  rewrite (processKey_elem (set_kp_manager (e_keyProc e) (e_ruleMgr e)) _ _ _ _ _ _ _ _ _ _ w
             Hm Hdistinct Hkv Hcommit Hkey). simpl.
  setoid_rewrite Clock. setoid_rewrite Cid. setoid_rewrite list_lookup_fmap. split.
  - intros (i & ref & sr & attr & kp & Hi & Hex & Hmk & Hf & Hh & Hkp & Hd).
    destruct (regs !! i) as [reg|] eqn:Hreg; [|done]. simpl in *. simplify_eq. by exists i, reg, sr, attr.
  - intros (i & reg & sr & attr & Hi & Hex & Hmk & Hf & Hh & Hd).
    exists i, (reg_rule reg), sr, attr, (reg_lockPattern reg). by rewrite Hi.
Qed.

(** C3: A change that makes a rule true reaches its callback.  Let an engine with
    the plain rule filter have rules that are distinct objects and usable
    (well-formed, with patterns free of regular expression metacharacters and no
    empty compound rule).  Let all patterns of the [i]-th rule have the same
    parameters, let a key be a canonical pattern of it formatted with valid
    values, such that no earlier pattern of the same leaf matches it, and let
    the transactions commit and answer from a store in which the rule holds for
    every assignment of its parameters that makes the key one of its keys.  Then
    processing the key does not panic and sends a work item of that rule, with
    its callback, a lock key formatted from its lock pattern, and an instance
    that mentions the key and is true in the store. *)
Theorem change_is_dispatched (e : baseEngine CB CP) (constraints : gmap string constraint)
    (lockTimeout : Z) (contextProvider : CP) (regs : list (registration CB CP))
    (N : list string) (i : nat) (reg : registration CB CP) (key p : string)
    (value : option string) (a : extendedAttributes) (kv : KV) (store : string -> option string)
    (metadata : gmap string string)
    (Hengine : engine_with constraints false lockTimeout contextProvider regs e)
    (Hdistinct : NoDup (ref_ptr <$> (reg_rule <$> regs)))
    (Husable : Forall (fun ref => usable (ref_rule ref)) (reg_rule <$> regs))
    (Hi : regs !! i = Some reg) (Huniform : uniform N (ref_rule (reg_rule reg)))
    (Hvalid : valid_attrs N a) (Hcan : canonical p = true) (Hfmt : Format a p = Some key)
    (Htr : triggers key p (ref_rule (reg_rule reg)))
    (Hkv : answers_from kv store) (Hcommit : commits kv)
    (Hholds : forall env, key ∈ (pattern_key env <$> pattern_list (ref_rule (reg_rule reg))) ->
                rule_holds store env (ref_rule (reg_rule reg)) = true) :
  exists works ids w,
    processKey (e_keyProc e) key value (etcdV3ReadAPI_getCachedAPI kv) metadata = Some (works, ids) /\
    w ∈ works /\ work_ruleIndex w = i /\ ruleTaskCallback w = Some (reg_callback reg) /\
    FormatWithAttributes (reg_lockPattern reg) (finderAttributes (work_attr w)) = Some (work_lockKey w) /\
    key ∈ getKeys (work_rule w) /\ holds store (work_rule w) = true.
Proof.
  apply engine_with_inv in Hengine as I. pose proof I as [Hm _ _ _ [Ccb Clock _ _ _]].
  assert ((reg_rule <$> regs) !! i = Some (reg_rule reg)) as Hi' by (by rewrite list_lookup_fmap, Hi).
  rewrite (engine_same _ _ _ _ _ _ _ _ _ _ I).
  replace (Some (reg_callback reg)) with (callbacks (set_kp_manager (e_keyProc e) (e_ruleMgr e)) !! i)
    by (simpl; by rewrite Ccb, Hi).
  destruct (processKey_triggered (set_kp_manager (e_keyProc e) (e_ruleMgr e)) constraints (reg_rule <$> regs)
    N i (reg_rule reg) key p value a kv store metadata (reg_lockPattern reg)) as (works & ids & w & Hw); try done.
  { simpl. by rewrite Clock, Hi. }
  exists works, ids, w. tauto.
Qed.
End dispatching.
