(* ===== verification/Running.v ===== *)
(** * A running engine (rules/engine.go) *)
(** Creating an engine from options, adding rules with key expansion, polling
    rules, and what [Run] starts: a watcher per prefix, a crawler over all
    prefixes and the workers. *)
From S2P Require Import Prelude GoString Attributes Jitter Matcher StaticRule DynamicRule Instantiation Expand RuleManager Lock Etcd KeyProcessor KeyChannel Crawler Options Engine.
From stdpp Require Import pretty.

(** ** The lockers of an engine *)
Section lockers.
Context {CP MC E : Type} `{EtcdConcurrency E}.

(** [v3cNewSession] is [concurrency.NewSession] of the etcd client. *)
Definition NewV3Locker (v3cNewSession : E -> E * result session) (lockTimeout : Z) (useTryLock : bool)
    (e : E) : v3Locker E :=
  NewSessionLocker v3cNewSession lockTimeout true useTryLock e.

(** What [newV3Engine] can build. *)
Inductive engineLocker :=
| etcdLocker (l : metricLocker (v3Locker E))
| mapEtcdLocker (l : sharedLocker E)
| coolOffEtcdLocker (l : nestedLocker (metricLocker coolOffLocker) (metricLocker (v3Locker E)))
| coolOffMapEtcdLocker (l : coolOffSharedLocker E).

Definition withMetrics {S} (s : S) (name : string) : metricLocker S := mkMetricLocker s name [] [].

(** [getSession] is the method of the shared session manager. *)
Definition newLocker (opts : engineOptions CP MC) (v3cNewSession getSession : E -> E * result session)
    (e : E) : engineLocker :=
  let coolOff := withMetrics (NewCoolOffLocker (eo_lockCoolOff opts)) "cooloff" in
  if eo_dontUseSharedLockSession opts then
    let metricsEtcdLocker := withMetrics
      (NewV3Locker v3cNewSession (eo_lockAcquisitionTimeout opts) (eo_useTryLock opts) e) "etcd" in
    if decide (eo_lockCoolOff opts = 0%Z) then etcdLocker metricsEtcdLocker
    else coolOffEtcdLocker (mkNestedLocker coolOff metricsEtcdLocker)
  else
    let metricsEtcdLocker := withMetrics
      (NewSessionLocker getSession (eo_lockAcquisitionTimeout opts) false (eo_useTryLock opts) e) "etcd" in
    let baseLocker := mkNestedLocker (withMetrics newMapLocker "map") metricsEtcdLocker in
    if decide (eo_lockCoolOff opts = 0%Z) then mapEtcdLocker baseLocker
    else coolOffMapEtcdLocker (mkNestedLocker coolOff baseLocker).

(** The etcd locker inside, and whether a map locker is around it. *)
Definition inner_etcd (l : engineLocker) : v3Locker E :=
  match l with
  | etcdLocker m => mt_locker m
  | mapEtcdLocker n => mt_locker (nl_nested n)
  | coolOffEtcdLocker n => mt_locker (nl_nested n)
  | coolOffMapEtcdLocker n => mt_locker (nl_nested (nl_nested n))
  end.

Definition map_guarded (l : engineLocker) : bool :=
  match l with mapEtcdLocker _ | coolOffMapEtcdLocker _ => true | _ => false end.

(** A locker that reuses a session, in which locks are reentrant, is always
    protected by the map locker. *)
Lemma newLocker_protected opts ns gs e :
  let l := newLocker opts ns gs e in
  closeSession (inner_etcd l) = negb (map_guarded l).
Proof.
  unfold newLocker. destruct (eo_dontUseSharedLockSession opts); case_decide; done.
Qed.
End lockers.
Arguments engineLocker E {_}.

(** ** Adding rules *)
Section add_rules.
Context `{Regexp} `{Fmt} `{GoRange} {CB CP : Type}.

(** A loop of [addRule] calls; a panic ends it. *)
Fixpoint add_refs (e : baseEngine CB CP) (refs : list ruleRef) (lockPattern : string) (callback : CB)
    (options : list (RuleOption CP)) : outcome (baseEngine CB CP) :=
  match refs with
  | [] => Done e
  | ref :: refs' =>
    '(e', panicked) ← of_option (engine_addRule e ref lockPattern callback options);
    if panicked : bool then Panicked else add_refs e' refs' lockPattern callback options
  end.

(** The pointers of the rules [Expand] returned: the rule itself when nothing
    was expanded, rules allocated by the call otherwise. *)
Definition expanded_refs (alloc : nat) (ref : ruleRef) (rules : list DynamicRule) (expanded : bool) :
    list ruleRef :=
  if expanded then imap (fun i r => mkRuleRef _ (alloc + i) r) rules else [ref].

Definition addRuleWithIface (fuel alloc : nat) (keyExpansion : gmap string (list string))
    (e : baseEngine CB CP) (rule : ruleRef) (lockPattern : string) (callback : CB)
    (options : list (RuleOption CP)) : outcome (baseEngine CB CP) :=
  if decide (0 < size keyExpansion) then
    '(rules, expanded) ← Expand fuel (ref_rule rule) keyExpansion;
    add_refs e (expanded_refs alloc rule rules expanded) lockPattern callback options
  else add_refs e [rule] lockPattern callback options.
End add_rules.

(** ** Polling *)
(** A callback is one of the application's, or the method value [cbw.doRule]
    of a wrapper. *)
Inductive taskCallback (U : Type) :=
| userCallback (u : U)
| doRuleCallback (callback : U) (ttl : Z) (ttlPathPattern : string).
Arguments userCallback {U}.
Arguments doRuleCallback {U}.

Section polling.
Context `{Regexp} `{Fmt} `{GoRange} {U CP : Type}.

Definition polling_namespace (namespacePattern : string) : string :=
  if HasSuffix namespacePattern "/" then namespacePattern else namespacePattern +:+ "/".

Definition AddPolling (fuel alloc : nat) (keyExpansion : gmap string (list string))
    (e : baseEngine (taskCallback U) CP) (namespacePattern : string) (preconditions : ruleRef)
    (ttl : Z) (callback : U) : outcome (result (baseEngine (taskCallback U) CP)) :=
  let namespacePattern := polling_namespace namespacePattern in
  let ttlPathPattern := namespacePattern +:+ "ttl" in
  match NewEqualsLiteralRule ttlPathPattern None with
  | inl err => Done (inl err)
  | inr ttlRule =>
    let rule := NewAndRule [ref_rule preconditions; ttlRule] in
    e' ← addRuleWithIface fuel (S alloc) keyExpansion e (mkRuleRef _ alloc rule)
           ("/rule_locks" +:+ namespacePattern +:+ "lock") (doRuleCallback callback ttl ttlPathPattern)
           [RuleID namespacePattern];
    Done (inr e')
  end.

(** *** Running a polling callback *)
Inductive polling_effect :=
| RunCallback (u : U)
| GrantLease (ttl : Z)
| PutKey (path value : string) (lease : Z).

(** [doRule]: the effects in order, given what [Grant] answers (the lease or
    an error), and whether it panics, which happens while the path is formatted
    and thus after the callback.  An error of [Put] is only logged. *)
Definition doRule (callback : U) (ttl : Z) (ttlPathPattern : string) (attr : extendedAttributes)
    (grant : result Z) : list polling_effect * bool :=
  match Format attr ttlPathPattern with
  | None => ([RunCallback callback], true)
  | Some path =>
    match grant with
    | inl _ => ([RunCallback callback; GrantLease ttl], false)
    | inr lease => ([RunCallback callback; GrantLease ttl; PutKey path EmptyString lease], false)
    end
  end.
End polling.

(** ** Run *)
Section run.
Context `{Regexp} `{GoRange} {CB CP MC : Type}.

Record started := mkStarted {
  st_watchers : list string;
  st_crawler : intCrawler;
  st_workers : list string
}.

(** A watcher per prefix, one crawler with all prefixes, and [concurrency]
    workers. *)
Definition Run (opts : engineOptions CP MC) (e : baseEngine CB CP) : result started :=
  let prefixSlice := range_keys (rm_prefixes (e_ruleMgr e)) in
  match newIntCrawler (eo_crawlMutex opts) (eo_lockAcquisitionTimeout opts) prefixSlice "default" with
  | inl err => inl err
  | inr c =>
    let workers := (fun i : nat => "worker" +:+ pretty i) <$> seq 0 (Z.to_nat (eo_concurrency opts)) in
    inr (mkStarted prefixSlice c workers)
  end.

(** The part of [newV3Engine] that makes the engine from the options. *)
Definition newV3Engine (opts : engineOptions CP MC) : baseEngine CB CP :=
  newEngine (eo_constraints opts) (eo_enhancedRuleFilter opts) (eo_lockTimeout opts)
    (eo_contextProvider opts).
End run.

(** ** Adding an expanded rule *)
Section adding.
Context {R : Regexp} {RL : RegexpLaws R} {F : Fmt} {G : GoRange} {CB CP : Type}.

(** Every constraint has at least one character set. *)
Definition proper_constraints (constraints : gmap string constraint) : Prop :=
  forall n constr, constraints !! n = Some constr -> constr_chars constr <> [].

Lemma getPrefixesWithConstraints_total rkm constraints :
  proper_constraints constraints -> is_Some (getPrefixesWithConstraints rkm constraints).
Proof.
  intros Hc. unfold getPrefixesWithConstraints. destruct (Index (rkm_pattern rkm) colon); [|done].
  destruct (constraints !! _) as [constr|] eqn:E; [|done].
  destruct (constr_chars constr) as [|cs css] eqn:Hcs; [by apply Hc in E|].
  rewrite build_words; [done | rewrite Hcs; simpl; lia | rewrite Hcs; simpl; lia].
Qed.

Lemma concat_mapM_is_Some {A B} (f : A -> option (list B)) l :
  Forall (fun x => is_Some (f x)) l -> is_Some (concat_mapM f l).
Proof. intros Hf. unfold concat_mapM. apply fmap_is_Some. by apply mapM_is_Some. Qed.

Lemma rule_prefixes_total constraints r :
  proper_constraints constraints -> is_Some (rule_prefixesWithConstraints constraints r).
Proof.
  intros Hc. induction r as [krp|rs ps qs IH|rs ps qs IH|r ps qs IH] using DynamicRule_nested_ind;
    simpl; apply concat_mapM_is_Some; [|done..|by apply Forall_singleton].
  apply Forall_forall. intros m _. by apply getPrefixesWithConstraints_total.
Qed.

Lemma engine_addRule_total constraints enhanced lockTimeout contextProvider regs
    (e : baseEngine CB CP) ref lockPattern callback options :
  engine_with constraints enhanced lockTimeout contextProvider regs e ->
  proper_constraints constraints -> ro_ruleID (makeRuleOptions options) <> defaultRuleID ->
  exists e', engine_addRule e ref lockPattern callback options = Some (e', false).
Proof.
  intros He Hc Hid. apply engine_with_inv in He as [Hm _ _ _ _].
  pose proof (inv_constraints _ _ _ _ (managed_inv _ _ _ _ Hm)) as Hcon.
  unfold engine_addRule, addRule. rewrite Hcon.
  destruct (rule_prefixes_total constraints (ref_rule ref) Hc) as [ps ->]. simpl.
  rewrite decide_False by done. eauto.
Qed.

Lemma add_refs_spec constraints enhanced lockTimeout contextProvider regs (e : baseEngine CB CP) refs
    lockPattern callback options :
  engine_with constraints enhanced lockTimeout contextProvider regs e ->
  proper_constraints constraints -> ro_ruleID (makeRuleOptions options) <> defaultRuleID ->
  exists e', add_refs e refs lockPattern callback options = Done e' /\
    engine_with constraints enhanced lockTimeout contextProvider
      (regs ++ ((fun ref => mkRegistration ref lockPattern callback options) <$> refs)) e'.
Proof.
  intros He Hc Hid. revert regs e He. induction refs as [|ref refs IH]; intros regs e He.
  { exists e. split; [done|]. by rewrite app_nil_r. }
  destruct (engine_addRule_total _ _ _ _ _ _ ref lockPattern callback options He Hc Hid) as [e1 H1].
  destruct (IH (regs ++ [mkRegistration ref lockPattern callback options]) e1) as (e' & H2 & He').
  { by eapply (engine_add _ _ _ _ G _ _ (mkRegistration ref lockPattern callback options)). }
  exists e'. simpl. rewrite H1. split; [done|]. by rewrite <- app_assoc in He'.
Qed.

Lemma expanded_refs_rules alloc ref rules expanded :
  (expanded = false -> rules = [ref_rule ref]) ->
  ref_rule <$> expanded_refs alloc ref rules expanded = rules.
Proof.
  intros Hf. unfold expanded_refs. destruct expanded; [|by rewrite (Hf eq_refl)].
  clear Hf. rewrite fmap_imap, (imap_ext _ (const id)) by done. by rewrite imap_const, list_fmap_id.
Qed.

(** What [addRuleWithIface] makes of a rule. *)
Lemma addRuleWithIface_spec constraints enhanced lockTimeout contextProvider regs (e : baseEngine CB CP)
    fuel alloc keyExpansion rule lockPattern callback options :
  engine_with constraints enhanced lockTimeout contextProvider regs e ->
  proper_constraints constraints -> ro_ruleID (makeRuleOptions options) <> defaultRuleID ->
  plain_rule (ref_rule rule) -> good_values keyExpansion ->
  depth (ref_rule rule) + live keyExpansion (ref_rule rule) < fuel ->
  exists refs e',
    addRuleWithIface fuel alloc keyExpansion e rule lockPattern callback options = Done e' /\
    engine_with constraints enhanced lockTimeout contextProvider
      (regs ++ ((fun ref => mkRegistration ref lockPattern callback options) <$> refs)) e' /\
    all_instances keyExpansion (ref_rule rule) (ref_rule <$> refs).
Proof.
  intros Hengine Hconstraints Hid Hplain Hvalues Hfuel.
  unfold addRuleWithIface. case_decide as Hsize.
  - destruct (Expand_expands fuel (ref_rule rule) keyExpansion Hplain Hvalues Hfuel)
      as ([rules expanded] & HE & [Hall _]). rewrite HE. simpl.
    destruct (add_refs_spec _ _ _ _ _ _ (expanded_refs alloc rule rules expanded) lockPattern callback
                options Hengine Hconstraints Hid) as (e' & Hadd & He').
    exists (expanded_refs alloc rule rules expanded), e'. split_and!; [done | done |].
    rewrite expanded_refs_rules; [done|]. intros ->. by eapply Expand_unexpanded.
  - destruct (add_refs_spec _ _ _ _ _ _ [rule] lockPattern callback options Hengine Hconstraints Hid)
      as (e' & Hadd & He'). exists [rule], e'. split_and!; [done | done |].
    apply all_instances_none. intros n _.
    assert (keyExpansion = ∅) as -> by (apply map_size_empty_inv; lia). apply lookup_empty.
Qed.

(** C16: [AddRule] registers what the key expansion makes of a rule.  For a rule
    with plain patterns, values that can be substituted, constraints with
    character sets, an ID among the options and enough fuel, the call neither
    panics nor diverges, and the engine has, after its earlier rules, one rule
    for every choice of values of the parameters in the map (the rule itself
    when the map is empty), each with the given lock pattern, callback and
    options. *)
Theorem AddRule_expands (constraints : gmap string constraint) (enhanced : bool) (lockTimeout : Z)
    (contextProvider : CP) (regs : list (registration CB CP)) (e : baseEngine CB CP)
    (fuel alloc : nat) (keyExpansion : gmap string (list string)) (rule : ruleRef)
    (lockPattern : string) (callback : CB) (options : list (RuleOption CP))
    (Hengine : engine_with constraints enhanced lockTimeout contextProvider regs e)
    (Hconstraints : proper_constraints constraints)
    (Hid : ro_ruleID (makeRuleOptions options) <> defaultRuleID)
    (Hplain : plain_rule (ref_rule rule)) (Hvalues : good_values keyExpansion)
    (Hfuel : depth (ref_rule rule) + live keyExpansion (ref_rule rule) < fuel) :
  exists refs e',
    addRuleWithIface fuel alloc keyExpansion e rule lockPattern callback options = Done e' /\
    engine_with constraints enhanced lockTimeout contextProvider
      (regs ++ ((fun ref => mkRegistration ref lockPattern callback options) <$> refs)) e' /\
    all_instances keyExpansion (ref_rule rule) (ref_rule <$> refs).
Proof. by apply addRuleWithIface_spec. Qed.
End adding.

(** ** Polling *)
Section polling_properties.
Context {R : Regexp} {F : Fmt} {G : GoRange} {U CP : Type}.

Lemma literal_rule_holds p value rule store env :
  NewEqualsLiteralRule p value = inr rule ->
  rule_holds store env rule = bool_decide (store (pattern_key env p) = value).
Proof.
  unfold NewEqualsLiteralRule, NewCompareLiteralRule, newDynamicRule.
  destruct (newMatchers [p]) as [|[ms qs]]; [done|]. intros [= <-].
  change (newEqualsComparator value (store (pattern_key env p)) =
          bool_decide (store (pattern_key env p) = value)).
  unfold newEqualsComparator. destruct (store (pattern_key env p)) as [v|], value as [v'|]; simpl; try done.
  apply bool_decide_ext. naive_solver.
Qed.

Lemma NewAndRule_holds store env rs : rule_holds store env (NewAndRule rs) = forallb (rule_holds store env) rs.
Proof. unfold NewAndRule. by destruct (newCompoundDynamicRule rs). Qed.

Lemma NewNotRule_holds store env r : rule_holds store env (NewNotRule r) = negb (rule_holds store env r).
Proof. unfold NewNotRule. by destruct (newCompoundDynamicRule [r]). Qed.

(** C25: A polling rule waits for its TTL.  [AddPolling] adds a rule that is true
    exactly when its preconditions are true and the ttl key of the namespace
    does not exist.  After running the callback [doRule] obtains a lease of the
    given TTL and puts that very key with it, so that the rule is false for the
    same attributes until the lease expires; when no lease is granted nothing
    is put. *)
Theorem polling_waits (preconditions ttlRule : DynamicRule) (namespacePattern : string) (callback : U)
    (ttl lease : Z) (attr : extendedAttributes) (store : string -> option string)
    (Hrule : NewEqualsLiteralRule (polling_namespace namespacePattern +:+ "ttl") None = inr ttlRule)
    (Hattr : attr_total attr) :
  let ttlPathPattern := polling_namespace namespacePattern +:+ "ttl" in
  let rule := NewAndRule [preconditions; ttlRule] in
  let path := pattern_key (attr_env attr) ttlPathPattern in
  (forall fuel alloc ptr keyExpansion (e : baseEngine (taskCallback U) CP),
     AddPolling fuel alloc keyExpansion e namespacePattern (mkRuleRef _ ptr preconditions) ttl callback =
     (e' ← addRuleWithIface fuel (S alloc) keyExpansion e (mkRuleRef _ alloc rule)
             ("/rule_locks" +:+ polling_namespace namespacePattern +:+ "lock")
             (doRuleCallback callback ttl ttlPathPattern) [RuleID (polling_namespace namespacePattern)];
      Done (inr e'))) /\
  (forall env, rule_holds store env rule =
     rule_holds store env preconditions && bool_decide (store (pattern_key env ttlPathPattern) = None)) /\
  doRule callback ttl ttlPathPattern attr (inr lease) =
    ([RunCallback callback; GrantLease ttl; PutKey path EmptyString lease], false) /\
  rule_holds (fun k => if decide (k = path) then Some EmptyString else store k) (attr_env attr) rule = false /\
  (forall err, doRule callback ttl ttlPathPattern attr (inl err) =
     ([RunCallback callback; GrantLease ttl], false)).
Proof.
  intros ttlPathPattern rule path.
  assert (forall st env, rule_holds st env rule =
    rule_holds st env preconditions && bool_decide (st (pattern_key env ttlPathPattern) = None)) as Hr.
  { intros st env. unfold rule. rewrite NewAndRule_holds. cbn [forallb].
    rewrite (literal_rule_holds _ _ _ st env Hrule), andb_true_r. f_equal. by apply bool_decide_ext. }
  pose proof (attr_total_Format attr ttlPathPattern Hattr) as Hf.
  split_and!.
  - intros fuel alloc ptr keyExpansion e. unfold AddPolling. by rewrite Hrule.
  - intros env. apply Hr.
  - unfold doRule. by rewrite Hf.
  - rewrite Hr. unfold path. rewrite decide_True by done. by rewrite andb_false_r.
  - intros err. unfold doRule. by rewrite Hf.
Qed.
End polling_properties.

(** ** What a running engine does *)
Section running.
Context {R : Regexp} {RL : RegexpLaws R} {G : GoRange} {CB CP MC : Type}.

(** Work is sent for a key exactly when some instance it triggers is true. *)
Lemma processKey_due (v3kp : v3KeyProcessor CB CP) key value kv store metadata works ids :
  answers_from kv store -> commits kv ->
  processKey v3kp key value (etcdV3ReadAPI_getCachedAPI kv) metadata = Some (works, ids) ->
  (forall rules rule i, getStaticRules (kp_rm (kp_base v3kp)) key value = Some rules ->
     (rule, i) ∈ rules -> is_Some (lockKeyPatterns (kp_base v3kp) !! i)) ->
  works <> [] <-> due (kp_base v3kp) store key value.
Proof.
  intros Hkv Hcommit Hkey Hlocks. apply processKey_inv in Hkey as (rules & Hr & Hp).
  destruct (etcdV3ReadAPI_getCachedAPI kv _) as [err|api] eqn:Eg; [by apply getCachedAPI_fails in Eg|].
  rewrite (process_loop_nonempty _ _ _ _ _ _ Hp).
  - unfold due. setoid_rewrite rule_order_perm. split.
    + intros (sr & i & Hin & Hs). rewrite (cached_satisfied_ kv store rules api sr i Hkv Eg Hin) in Hs.
      by exists rules, sr, i.
    + intros (rules' & sr & i & Hr' & Hin & Hs). rewrite Hr in Hr'. injection Hr' as <-.
      exists sr, i. by rewrite (cached_satisfied_ kv store rules api sr i Hkv Eg Hin).
  - intros rule i Hin. rewrite rule_order_perm in Hin. eauto.
Qed.

Section engine.
Context (constraints : gmap string constraint) (enhanced : bool) (lockTimeout : Z) (contextProvider : CP).
Context (regs : list (registration CB CP)) (e : baseEngine CB CP).
Hypothesis (Hengine : engine_with constraints enhanced lockTimeout contextProvider regs e).
Hypothesis (Husable : Forall (fun ref => usable (ref_rule ref)) (reg_rule <$> regs)).

Lemma engine_rules key value :
  getStaticRules (kp_rm (kp_base (e_keyProc e))) key value = getStaticRules (e_ruleMgr e) key value.
Proof. destruct (engine_with_inv _ _ _ _ _ _ Hengine). by apply getStaticRules_same. Qed.

Lemma engine_rules_total key value :
  exists rules, getStaticRules (kp_rm (kp_base (e_keyProc e))) key value = Some rules.
Proof.
  rewrite engine_rules. eapply getStaticRules_total; [by eapply einv_managed, engine_with_inv|].
  eapply Forall_impl; [exact Husable|]. intros r (? & ? & _). done.
Qed.

Lemma engine_processKey_total key value get metadata :
  is_Some (processKey (e_keyProc e) key value get metadata).
Proof.
  pose proof (engine_with_inv _ _ _ _ _ _ Hengine) as I.
  rewrite (engine_same _ _ _ _ _ _ _ _ _ _ I). eapply processKey_total; [|exact Husable].
  by eapply einv_managed.
Qed.

(** The rule of an instance, and its lock pattern. *)
Lemma engine_instance key value rules sr i :
  getStaticRules (kp_rm (kp_base (e_keyProc e))) key value = Some rules -> (sr, i) ∈ rules ->
  exists reg attr, regs !! i = Some reg /\
    makeStaticRule (ref_rule (reg_rule reg)) key value = Some (Some (sr, attr)) /\
    is_Some (lockKeyPatterns (kp_base (e_keyProc e)) !! i).
Proof.
  rewrite engine_rules. intros Hr Hin. pose proof (engine_with_inv _ _ _ _ _ _ Hengine) as [Hm _ _ _ Hconf].
  apply (getStaticRules_elem _ _ _ _ _ _ Hr) in Hin as (ptr & rule & attr & Hb & Hmk & _).
  apply (inv_bucket _ _ _ _ (managed_inv _ _ _ _ Hm)) in Hb as (ref & Hi & _ & <- & _).
  rewrite list_lookup_fmap in Hi. destruct (regs !! i) as [reg|] eqn:Hreg; [|done]. injection Hi as <-.
  exists reg, attr. split_and!; [done | done |]. rewrite (conf_lock _ _ _ _ Hconf), Hreg. by eexists.
Qed.

(** C8: Every key an engine's producers submit is processed once and every work
    item reaches a worker once.  With rules as the constructors make them and
    at least one key worker, all interleavings of watchers, crawler, key
    workers and receiving workers end, none gets stuck before everything is
    delivered, and what is delivered is the work [processKey] yields for all
    submitted keys, whatever the capacities of the two channels. *)
Theorem engine_keys_delivered (keyProcBuffer ruleWorkBuffer : nat) (tasks : list (list keyTask))
    (concurrency : nat) (Hworkers : 0 < concurrency) :
  let step := channel_step (keyWorker (e_keyProc e)) keyProcBuffer ruleWorkBuffer in
  sn step (start tasks concurrency) /\
  forall c, rtc step (start tasks concurrency) c ->
    (exists c', step c c') \/
    delivered c ≡ₚ flat_map (fun t =>
      match processKey (e_keyProc e) (task_key t) (task_value t) (task_api t) (task_metadata t) with
      | Some (works, _) => works
      | None => []
      end) (concat tasks).
Proof.
  intros step. destruct (key_workers_deliver (e_keyProc e) keyProcBuffer ruleWorkBuffer tasks concurrency)
    as [Hsn Hd]; [intros; apply engine_processKey_total | done |]. split; [exact Hsn|].
  intros c [?|Hc]%Hd; [by left|]. right. rewrite Hc.
  erewrite flat_map_ext; [reflexivity|]. intros t. unfold keyWorker.
  by destruct (processKey _ _ _ _ _) as [[]|].
Qed.

(** Every key of an instance of a rule lies under a prefix of the manager. *)
Lemma engine_instance_covered key value rules sr i k :
  constraints = ∅ ->
  Forall (fun reg => forall p, p ∈ pattern_list (ref_rule (reg_rule reg)) ->
    canonical p = true /\ colon_free (pattern_segments p) = true) regs ->
  getStaticRules (kp_rm (kp_base (e_keyProc e))) key value = Some rules -> (sr, i) ∈ rules ->
  k ∈ getKeys sr -> under (range_keys (rm_prefixes (e_ruleMgr e))) k.
Proof.
  intros Hc Hcan Hr Hin Hk. destruct (engine_instance _ _ _ _ _ Hr Hin) as (reg & attr & Hi & Hmk & _).
  apply list_elem_of_lookup_2 in Hi as Hreg.
  assert (reg_rule reg ∈ reg_rule <$> regs) as Href by (by apply list_elem_of_fmap_2).
  rewrite Forall_forall in Husable. destruct (Husable _ Href) as (Hwf & _ & _).
  destruct (makeStaticRule_spec _ _ _ _ _ Hwf Hmk) as (a & _ & Hf & _).
  apply list_elem_of_lookup in Hk as [j Hj].
  destruct (Forall2_lookup_r _ _ _ _ _ Hf Hj) as (p & Hp%list_elem_of_lookup_2 & Hfmt).
  rewrite Forall_forall in Hcan. destruct (Hcan reg Hreg p Hp) as [Hcp Hcf].
  pose proof (engine_with_inv _ _ _ _ _ _ Hengine) as [Hm _ _ _ _].
  destruct (managed_covers _ _ _ _ (reg_rule reg) p k a Hm Href Hwf Hp Hcp Hcf) as (q & Hq & Hkq);
    [|done | exists q; by rewrite elem_of_range_keys].
  intros n constr _. by rewrite Hc, lookup_empty.
Qed.

(** What an undisturbed run of the crawler submits. *)
Lemma crawl_tasks (opts : engineOptions CP MC) (st : started) (kv : KV)
    (get : string -> result (list (string * string))) (store : string -> option string)
    (metadata : gmap string string) :
  constraints = ∅ ->
  Forall (fun reg => forall p, p ∈ pattern_list (ref_rule (reg_rule reg)) ->
    canonical p = true /\ colon_free (pattern_segments p) = true) regs ->
  Run opts e = inr st -> prefix_answers get store -> answers_from kv store -> commits kv ->
  exists tasks,
    crawler_singleRun (st_crawler st) (kp_base (e_keyProc e)) get (etcdV3ReadAPI_getCachedAPI kv)
      (fun _ => false) = Some tasks /\
    forall t, t ∈ tasks <-> exists k v,
      t = mkKeyTask k (Some v) (etcdV3ReadAPI_getCachedAPI kv) crawler_metadata /\
      store k = Some v /\ under (st_watchers st) k /\
      exists works ids,
        processKey (e_keyProc e) k (Some v) (etcdV3ReadAPI_getCachedAPI kv) metadata = Some (works, ids) /\
        works <> [].
Proof.
  intros Hconstraints Hcanonical Hrun Hget Hkv Hcommit.
  unfold Run in Hrun. simpl in Hrun. injection Hrun as <-. simpl.
  destruct (crawler_singleRun_exact
    (mkIntCrawler "default" (eo_crawlMutex opts) (eo_lockAcquisitionTimeout opts)
       (range_keys (rm_prefixes (e_ruleMgr e)))) (kp_base (e_keyProc e)) get
    (etcdV3ReadAPI_getCachedAPI kv) store Hget) as (tasks & Ht & Hin).
  { apply engine_rules_total. }
  { intros. by eapply engine_instance_covered. }
  exists tasks. split; [done|]. intros t. rewrite Hin. simpl.
  do 2 (apply exist_proper; intros ?).
  match goal with k : string, v : string |- _ =>
    destruct (engine_processKey_total k (Some v) (etcdV3ReadAPI_getCachedAPI kv) metadata) as [[works ids] Hp] end.
  rewrite <- (processKey_due _ _ _ _ _ _ _ _ Hkv Hcommit Hp) by
    (intros rules rule i Hr Hi; by destruct (engine_instance _ _ _ _ _ Hr Hi) as (? & ? & _ & _ & ?)).
  rewrite Hp. naive_solver.
Qed.

(** C7: A crawler run finds all the work there is.  Let an engine without
    constraints have rules with canonical plain patterns, and let the queries
    of an undisturbed run answer from one state of the store.  Then the run
    submits a key exactly when the key exists under a watched prefix and
    processing it in that state sends work; the submitted value is the one in
    the store. *)
Theorem crawl_finds_work (opts : engineOptions CP MC) (st : started) (kv : KV)
    (get : string -> result (list (string * string))) (store : string -> option string)
    (metadata : gmap string string)
    (Hconstraints : constraints = ∅)
    (Hcanonical : Forall (fun reg => forall p, p ∈ pattern_list (ref_rule (reg_rule reg)) ->
       canonical p = true /\ colon_free (pattern_segments p) = true) regs)
    (Hrun : Run opts e = inr st)
    (Hget : prefix_answers get store) (Hkv : answers_from kv store) (Hcommit : commits kv) :
  exists tasks,
    crawler_singleRun (st_crawler st) (kp_base (e_keyProc e)) get (etcdV3ReadAPI_getCachedAPI kv)
      (fun _ => false) = Some tasks /\
    forall k v, (exists t, t ∈ tasks /\ task_key t = k /\ task_value t = Some v) <->
      store k = Some v /\ under (st_watchers st) k /\
      exists works ids,
        processKey (e_keyProc e) k (Some v) (etcdV3ReadAPI_getCachedAPI kv) metadata = Some (works, ids) /\
        works <> [].
Proof.
  destruct (crawl_tasks opts st kv get store metadata) as (tasks & Ht & Hin); try done.
  exists tasks. split; [done|]. intros k v. setoid_rewrite Hin. split.
  - intros (t & (k' & v' & -> & Hs) & <- & [= <-]). exact Hs.
  - intros Hs. eexists. split; [by exists k, v | done].
Qed.
End engine.

(** What [Run] starts: watchers and crawler share the prefixes, each prefix has
    one watcher, and the workers have distinct names. *)
Lemma Run_starts (opts : engineOptions CP MC) (e : baseEngine CB CP) :
  exists st, Run opts e = inr st /\
    (forall p, p ∈ st_watchers st <-> is_Some (rm_prefixes (e_ruleMgr e) !! p)) /\
    ic_prefixes (st_crawler st) = st_watchers st /\ NoDup (st_watchers st) /\
    length (st_workers st) = Z.to_nat (eo_concurrency opts) /\ NoDup (st_workers st).
Proof.
  eexists. split; [done|]. simpl. split_and!; [intros; apply elem_of_range_keys | done | apply NoDup_range_keys | |].
  - by rewrite length_fmap, length_seq.
  - apply NoDup_fmap; [|apply NoDup_seq]. intros i j Hij. by simplify_eq.
Qed.
End running.
