(* ===== verification/Wiring.v ===== *)
(** * Wiring (rules/engine.go, rules/worker.go, rules/watcher.go, rules/metrics.go) *)
(** How [NewV3EngineWithClient] puts an engine together from its options, the
    environment and a client, and what [Run] hands to each watcher and worker.
    The client is a [KV] and a source of watchers; the channels are given by
    their capacities. *)
From S2P Require Import Prelude GoString Matcher StaticRule DynamicRule Instantiation Expand RuleManager Lock Etcd Collector KeyProcessor Worker Crawler Options Engine Running.

(** The environment variable with the callback webhook. *)
Definition WebhookURLEnv : string := "RULES_ENGINE_CALLBACK_WEBHOOK".

(** ** Wrappers *)
Definition WrapKV : Type := KV -> KV.
Definition defaultWrapKV : WrapKV := fun kv => kv.

Section wiring.
Context `{Regexp} `{GoRange} {CB CP M E W : Type} `{EtcdConcurrency E}.

Definition WrapWatcherF : Type := W -> W.
Definition defaultWrapWatcher : WrapWatcherF := fun w => w.

(** [make(chan T, n)] panics when [n] is negative. *)
Definition make_chan (n : Z) : option nat := if (n <? 0)%Z then None else Some (Z.to_nat n).

Record v3Engine := mkV3Engine {
  ve_base : baseEngine CB CP;
  ve_options : engineOptions CP (suppliedCollector M);
  ve_metrics : AdvancedMetricsCollector M;
  ve_locker : engineLocker E;
  ve_callbackListener : option string;
  ve_workChannel : nat;
  ve_kpChannel : nat;
  ve_kvWrapper : WrapKV;
  ve_watcherWrapper : WrapWatcherF;
  ve_cl : KV
}.

(** [LookupEnv] is that of package os; the last arguments are the client and
    the state of its locks.  [None] is the panic of [make]. *)
Definition NewV3EngineWithClient (LookupEnv : string -> option string)
    (v3cNewSession getSession : E -> E * result session)
    (dcp : CP) (options : list (EngineOption CP (suppliedCollector M))) (dmc : suppliedCollector M)
    (h : map_store) (cl : KV) (locks : E) : option (v3Engine * map_store) :=
  let '(opts, h') := makeEngineOptions dcp dmc options h in
  channel ← make_chan (eo_ruleWorkBuffer opts);
  kpChannel ← make_chan (eo_keyProcBuffer opts);
  Some (mkV3Engine (newV3Engine opts) opts (engine_metrics (eo_metrics opts))
          (newLocker opts v3cNewSession getSession locks) (LookupEnv WebhookURLEnv)
          channel kpChannel defaultWrapKV defaultWrapWatcher cl, h').

(** [NewV3Engine] connects first; [inl] is the exit of the program with the
    error. *)
Definition NewV3Engine (LookupEnv : string -> option string)
    (v3cNewSession getSession : E -> E * result session)
    (dcp : CP) (options : list (EngineOption CP (suppliedCollector M))) (dmc : suppliedCollector M)
    (h : map_store) (v3New : result KV) (locks : E) : result (option (v3Engine * map_store)) :=
  match v3New with
  | inl err => inl err
  | inr cl => inr (NewV3EngineWithClient LookupEnv v3cNewSession getSession dcp options dmc h cl locks)
  end.

Definition SetKVWrapper (e : v3Engine) (kvWrapper : WrapKV) : v3Engine :=
  mkV3Engine (ve_base e) (ve_options e) (ve_metrics e) (ve_locker e) (ve_callbackListener e)
    (ve_workChannel e) (ve_kpChannel e) kvWrapper (ve_watcherWrapper e) (ve_cl e).

Definition SetWatcherWrapper (e : v3Engine) (watcherWrapper : WrapWatcherF) : v3Engine :=
  mkV3Engine (ve_base e) (ve_options e) (ve_metrics e) (ve_locker e) (ve_callbackListener e)
    (ve_workChannel e) (ve_kpChannel e) (ve_kvWrapper e) watcherWrapper (ve_cl e).

Definition set_ve_base (e : v3Engine) (base : baseEngine CB CP) : v3Engine :=
  mkV3Engine base (ve_options e) (ve_metrics e) (ve_locker e) (ve_callbackListener e)
    (ve_workChannel e) (ve_kpChannel e) (ve_kvWrapper e) (ve_watcherWrapper e) (ve_cl e).

(** The map of the options, as it is in the store of maps when it is read. *)
Definition options_expansion (h : map_store) (e : v3Engine) : gmap string (list string) :=
  default ∅ (eo_keyExpansion (ve_options e) ≫= (fun r => h !! r)).

Definition AddRule `{Fmt} (fuel alloc : nat) (h : map_store) (e : v3Engine) (rule : ruleRef) (lockPattern : string)
    (callback : CB) (options : list (RuleOption CP)) : outcome v3Engine :=
  base ← addRuleWithIface fuel alloc (options_expansion h e) (ve_base e) rule lockPattern callback options;
  Done (set_ve_base e base).

(** ** The parts of a running engine *)
Record v3Watcher := mkV3Watcher {
  w_prefix : string;
  w_api : list string -> result readAPI;
  w_kw : etcdV3KeyWatcher;
  w_watcher : W;
  w_timeout : Z
}.

Definition newV3Watcher (e : v3Engine) (v3NewWatcher : W) (prefix : string) : result v3Watcher :=
  inr (mkV3Watcher prefix (etcdV3ReadAPI_getCachedAPI (ve_kvWrapper e (ve_cl e))) newEtcdV3KeyWatcher
         (ve_watcherWrapper e v3NewWatcher) (wrap64 (eo_watchTimeout (ve_options e) * Second))).

Record v3Worker := mkV3Worker {
  worker_id : string;
  worker_api : list string -> result readAPI;
  worker_locker : engineLocker E;
  worker_metrics : AdvancedMetricsCollector M;
  worker_listener : option string;
  worker_done_capacity : nat
}.

Definition newV3Worker (workerID : string) (e : v3Engine) : result v3Worker :=
  inr (mkV3Worker workerID (etcdV3ReadAPI_getCachedAPI (ve_kvWrapper e (ve_cl e))) (ve_locker e)
         (ve_metrics e) (ve_callbackListener e) 1).

(** The goroutines [Run] starts; an error of a constructor would be fatal. *)
Definition run_parts (e : v3Engine) (v3NewWatcher : W) : result (list v3Watcher * list v3Worker) :=
  match Run (ve_options e) (ve_base e) with
  | inl err => inl err
  | inr st =>
    ws ← mapM (newV3Watcher e v3NewWatcher) (st_watchers st);
    wks ← mapM (fun id => newV3Worker id e) (st_workers st);
    inr (ws, wks)
  end.

(** ** Properties *)
(** Creating an engine panics exactly when the capacity of a channel is
    negative. *)
Lemma NewV3EngineWithClient_panics LookupEnv ns gs dcp options dmc h cl locks :
  let opts := (makeEngineOptions dcp dmc options h).1 in
  NewV3EngineWithClient LookupEnv ns gs dcp options dmc h cl locks = None <->
  (eo_ruleWorkBuffer opts < 0 \/ eo_keyProcBuffer opts < 0)%Z.
Proof.
  unfold NewV3EngineWithClient. destruct (makeEngineOptions dcp dmc options h) as [opts h']. simpl.
  unfold make_chan. destruct (eo_ruleWorkBuffer opts <? 0)%Z eqn:E1; simpl; [split; [lia | done]|].
  destruct (eo_keyProcBuffer opts <? 0)%Z eqn:E2; simpl; [split; [lia | done]|]. split; [done | lia].
Qed.

(** The api of every part is that of the wrapped client, so that the parts
    evaluate rules alike. *)
Definition engine_api (e : v3Engine) : list string -> result readAPI :=
  etcdV3ReadAPI_getCachedAPI (ve_kvWrapper e (ve_cl e)).

(** [Run] starts a watcher per prefix and the workers; all of them read through
    the wrapper that was set last, and the workers share the locker and the
    listener of the engine. *)
Lemma run_parts_wired (e : v3Engine) (v3NewWatcher : W) :
  exists st ws wks, Run (ve_options e) (ve_base e) = inr st /\ run_parts e v3NewWatcher = inr (ws, wks) /\
    w_prefix <$> ws = st_watchers st /\ worker_id <$> wks = st_workers st /\
    Forall (fun w => w_api w = engine_api e /\ w_watcher w = ve_watcherWrapper e v3NewWatcher) ws /\
    Forall (fun w => worker_api w = engine_api e /\ worker_locker w = ve_locker e /\
                     worker_listener w = ve_callbackListener e) wks.
Proof.
  unfold run_parts. destruct (Run (ve_options e) (ve_base e)) as [|st] eqn:Hrun; [done|].
  erewrite (mapM_result (newV3Watcher e v3NewWatcher)), (mapM_result (fun id => newV3Worker id e))
    by (intros x; reflexivity).
  eexists st, _, _. split_and!; [done | done | | | |].
  1-2: rewrite <- list_fmap_compose; apply list_fmap_id.
  all: by apply Forall_fmap, Forall_true.
Qed.

(** A wrapper that answers from the store, such as one that only records the
    calls, does not change how a worker evaluates a rule. *)
Lemma wrapped_evaluation (e : v3Engine) store keys api r :
  answers_from (ve_kvWrapper e (ve_cl e)) store -> engine_api e keys = inr api ->
  (forall k, k ∈ getKeys r -> k ∈ keys) -> satisfied r api = inr (holds store r).
Proof. apply cached_satisfied. Qed.

(** [AddRule] expands a rule with the map of the engine's options as it is at
    the time of the call, and leaves everything else of the engine alone. *)
Lemma AddRule_registers {RL : RegexpLaws _} `{Fmt} constraints enhanced lockTimeout contextProvider regs
    (e : v3Engine) fuel alloc h rule lockPattern callback options :
  engine_with constraints enhanced lockTimeout contextProvider regs (ve_base e) ->
  proper_constraints constraints -> ro_ruleID (makeRuleOptions options) <> defaultRuleID ->
  plain_rule (ref_rule rule) -> good_values (options_expansion h e) ->
  depth (ref_rule rule) + live (options_expansion h e) (ref_rule rule) < fuel ->
  exists refs base,
    AddRule fuel alloc h e rule lockPattern callback options = Done (set_ve_base e base) /\
    engine_with constraints enhanced lockTimeout contextProvider
      (regs ++ ((fun ref => mkRegistration ref lockPattern callback options) <$> refs)) base /\
    all_instances (options_expansion h e) (ref_rule rule) (ref_rule <$> refs).
Proof.
  intros He Hc Hid Hp Hv Hf. unfold AddRule.
  destruct (addRuleWithIface_spec _ _ _ _ _ _ fuel alloc _ rule lockPattern callback options He Hc Hid Hp Hv Hf)
    as (refs & base & -> & ?). by exists refs, base.
Qed.
End wiring.
