(* ===== verification/EndToEnd.v ===== *)
(** * From a watch event to the callback *)
(** The components composed: a watcher turns the events of its channel into
    key tasks, the key workers process them, and a worker that receives the
    work runs the callback of the rule. *)
From S2P Require Import Prelude GoString Attributes Matcher StaticRule DynamicRule Instantiation RuleManager Etcd KeyProcessor KeyChannel Worker Crawler Options Engine Running.

(** ** What a watcher submits *)
Definition watcher_metadata : gmap string string := {["source" := "watcher"]}.

(** The task [watcher.singleRun] submits for a key. *)
Definition watcher_task `{GoRange} (kv : KV) (change : string * option string) : keyTask :=
  mkKeyTask change.1 change.2 (etcdV3ReadAPI_getCachedAPI kv) watcher_metadata.

(** The tasks of the iterations of a watcher over the responses it receives. *)
Definition watcher_tasks `{GoRange} (kv : KV) (n : nat) (stopping : nat -> bool) (delay : nat -> Z)
    (sels : list selection) : list keyTask :=
  watcher_task kv <$> processed (watcher_loop n stopping delay 0 newEtcdV3KeyWatcher sels).

Section end_to_end.
Context {R : Regexp} {RL : RegexpLaws R} {G : GoRange} {CB CP MC : Type}.

(** An event in a response becomes a task. *)
Lemma watcher_tasks_elem kv n stopping delay sels ev :
  loop_bound newEtcdV3KeyWatcher sels <= n -> (forall i, i < n -> stopping i = false) ->
  ev ∈ flat_map sel_events sels ->
  watcher_task kv (event_change ev) ∈ watcher_tasks kv n stopping delay sels.
Proof.
  intros Hn Hst Hev. unfold watcher_tasks.
  rewrite watcher_loop_processed; [|done | intros j Hj; apply Hst; lia].
  by apply list_elem_of_fmap_2, list_elem_of_fmap_2.
Qed.

Section change.
Context (e : baseEngine CB CP) (lockTimeout : Z) (contextProvider : CP) (regs : list (registration CB CP)).
Hypothesis (Hengine : engine_with ∅ false lockTimeout contextProvider regs e).
Hypothesis (Hdistinct : NoDup (ref_ptr <$> (reg_rule <$> regs))).
Hypothesis (Husable : Forall (fun ref => usable (ref_rule ref)) (reg_rule <$> regs)).

(** The key is a pattern of the [i]-th rule formatted with valid values. *)
Context (N : list string) (i : nat) (reg : registration CB CP) (key p : string) (a : extendedAttributes).
Hypothesis (Hi : regs !! i = Some reg) (Huniform : uniform N (ref_rule (reg_rule reg))).
Hypothesis (Hvalid : valid_attrs N a) (Hcan : canonical p = true).
Hypothesis (Hfmt : Format a p = Some key) (Htr : triggers key p (ref_rule (reg_rule reg))).

(** The rule is true in the state of the store that etcd answers from. *)
Context (kv : KV) (store : string -> option string).
Hypothesis (Hkv : answers_from kv store) (Hcommit : commits kv).
Hypothesis (Hholds : forall env, key ∈ (pattern_key env <$> pattern_list (ref_rule (reg_rule reg))) ->
  rule_holds store env (ref_rule (reg_rule reg)) = true).

Lemma watcher_under (opts : engineOptions CP MC) st :
  colon_free (pattern_segments p) = true -> Run opts e = inr st -> under (st_watchers st) key.
Proof.
  intros Hcf [= <-]. simpl. apply list_elem_of_lookup_2 in Hi as Hreg.
  assert (reg_rule reg ∈ reg_rule <$> regs) as Href by (by apply list_elem_of_fmap_2).
  rewrite Forall_forall in Husable. destruct (Husable _ Href) as (Hwf & _ & _).
  destruct (managed_covers ∅ false _ _ (reg_rule reg) p key a
    (einv_managed _ _ _ _ _ _ (engine_with_inv _ _ _ _ _ _ Hengine)) Href Hwf) as (q & Hq & Hk); try done.
  - by eapply triggers_pattern.
  - exists q. by rewrite elem_of_range_keys.
Qed.

(** The work sent for the key, ready for a worker. *)
Lemma change_work value metadata :
  exists works ids w,
    processKey (e_keyProc e) key value (etcdV3ReadAPI_getCachedAPI kv) metadata = Some (works, ids) /\
    w ∈ works /\ work_ruleIndex w = i /\ ruleTaskCallback w = Some (reg_callback reg) /\
    FormatWithAttributes (reg_lockPattern reg) (finderAttributes (work_attr w)) = Some (work_lockKey w) /\
    key ∈ getKeys (work_rule w) /\ holds store (work_rule w) = true /\
    is_Some (work_contextProvider w) /\
    exists attr, getAttributes (work_rule w) = Some attr /\ attr_total attr.
Proof.
  pose proof (engine_with_inv _ _ _ _ _ _ Hengine) as I. pose proof I as [Hm _ _ _ [Ccb Clock _ Ccp _]].
  assert ((reg_rule <$> regs) !! i = Some (reg_rule reg)) as Hi' by (by rewrite list_lookup_fmap, Hi).
  rewrite (engine_same _ _ _ _ _ _ _ _ _ _ I).
  destruct (processKey_triggered (set_kp_manager (e_keyProc e) (e_ruleMgr e)) ∅ (reg_rule <$> regs)
    N i (reg_rule reg) key p value a kv store metadata (reg_lockPattern reg))
    as (works & ids & w & Hp & Hw & Hidx & Hcb & Hlk & Hk & Hh & Hcp & Hat); try done.
  { simpl. by rewrite Clock, Hi. }
  exists works, ids, w. simpl in Hcb, Hcp. rewrite Ccb, Hi in Hcb. rewrite Ccp, Hi in Hcp.
  split_and!; try done.
Qed.

(** A worker that receives the work runs the callback. *)
Lemma work_runs {L} (w : v3RuleWork CB CP) (l : L) workerID listening panics attr :
  holds store (work_rule w) = true -> is_Some (work_contextProvider w) ->
  getAttributes (work_rule w) = Some attr -> attr_total attr ->
  exists attrMap,
    perform (mkAnswers (etcdV3ReadAPI_getCachedAPI kv (getKeys (work_rule w))) false (inr l) panics)
      (singleRun workerID listening (Some w)) =
    [ActLock (work_lockKey w) l; ActCallback (taken_by workerID w) attrMap] ++
    (if listening && negb panics then [ActCallbackDone (work_ruleID w)] else []) ++ [ActUnlock l].
Proof.
  intros Hh Hcp Hattr Htot.
  destruct (etcdV3ReadAPI_getCachedAPI kv (getKeys (work_rule w))) as [err|api] eqn:Eg;
    [by apply getCachedAPI_fails in Eg|].
  eapply singleRun_performs; [done | done | | done].
  rewrite (cached_satisfied kv store (getKeys (work_rule w)) api) by done. by rewrite Hh.
Qed.

(** What is to come of the key: a work item for the callback of the rule is
    delivered, and a worker that takes it, gets the lock and is not stopped,
    while the store stays as it is, locks, runs the callback (and reports it
    to the listener unless the callback panics) and unlocks. *)
Definition callback_comes (c : channels (v3RuleWork CB CP)) : Prop :=
  exists w, w ∈ delivered c /\ ruleTaskCallback w = Some (reg_callback reg) /\
    FormatWithAttributes (reg_lockPattern reg) (finderAttributes (work_attr w)) = Some (work_lockKey w) /\
    key ∈ getKeys (work_rule w) /\
    forall L (l : L) workerID listening panics, exists attrMap,
      perform (mkAnswers (etcdV3ReadAPI_getCachedAPI kv (getKeys (work_rule w))) false (inr l) panics)
        (singleRun workerID listening (Some w)) =
      [ActLock (work_lockKey w) l; ActCallback (taken_by workerID w) attrMap] ++
      (if listening && negb panics then [ActCallbackDone (work_ruleID w)] else []) ++ [ActUnlock l].

(** A task for the key among those submitted is enough. *)
Lemma task_delivered tasks value metadata keyProcBuffer ruleWorkBuffer concurrency :
  mkKeyTask key value (etcdV3ReadAPI_getCachedAPI kv) metadata ∈ concat tasks -> 0 < concurrency ->
  let step := channel_step (keyWorker (e_keyProc e)) keyProcBuffer ruleWorkBuffer in
  sn step (start tasks concurrency) /\
  forall c, rtc step (start tasks concurrency) c -> (exists c', step c c') \/ callback_comes c.
Proof.
  intros Ht Hworkers step.
  destruct (key_workers_deliver (e_keyProc e) keyProcBuffer ruleWorkBuffer tasks concurrency)
    as [Hsn Hd]; [intros; by eapply engine_processKey_total | done |]. split; [exact Hsn|].
  intros c [?|Hc]%Hd; [by left|]. right.
  destruct (change_work value metadata)
    as (works & ids & w & Hp & Hw & _ & Hcb & Hlk & Hk & Hh & Hcp & attr & Hattr & Htot).
  exists w. split_and!; try done; [|intros; by eapply work_runs].
  rewrite Hc. apply elem_of_flat_map. eexists. split; [exact Ht|].
  unfold keyWorker. simpl. by rewrite Hp.
Qed.

(** C1: An event that makes a rule true gets its callback run.  Let a running
    engine have no constraints, the plain rule filter and rules that are distinct
    objects and usable (well-formed, with patterns free of regular expression
    metacharacters and no empty compound rule).  Let all patterns of the [i]-th
    rule have the same parameters, and let a key be a canonical pattern of it,
    without ':' in its literal parts, formatted with valid values, such that no
    earlier pattern of the same leaf matches the key.  Let the transactions
    commit and answer from one store, in which the rule is true for every
    assignment that makes the key one of its keys.  Let an event for the key come
    on the watch channel of a watcher that does not see its stop flag set and
    makes enough iterations, and let there be a key worker.  Then some watcher of
    the engine watches a prefix of the key; whatever else the watch channel
    delivers and the other watchers and the crawler submit, every interleaving of
    them with the key workers and the receiving workers ends, and when it has
    ended a work item with the callback of that rule and its formatted lock key
    has been delivered; and a worker that takes it, gets the lock and is not
    stopped, while the store stays as it is, locks that key, runs the callback
    (and reports it to the listener unless the callback panics) and unlocks. *)
Theorem event_runs_callback (opts : engineOptions CP MC) (st : started) (value : option string)
    (sels : list selection) (stopping : nat -> bool) (delay : nat -> Z)
    (others : list (list keyTask)) (n keyProcBuffer ruleWorkBuffer concurrency : nat) (ev : event)
    (Hcolon : colon_free (pattern_segments p) = true) (Hrun : Run opts e = inr st)
    (Hevent : ev ∈ flat_map sel_events sels) (Hchange : event_change ev = (key, value))
    (Hn : loop_bound newEtcdV3KeyWatcher sels <= n) (Hrunning : forall i, i < n -> stopping i = false)
    (Hworkers : 0 < concurrency) :
  let step := channel_step (keyWorker (e_keyProc e)) keyProcBuffer ruleWorkBuffer in
  let init := start (watcher_tasks kv n stopping delay sels :: others) concurrency in
  under (st_watchers st) key /\ sn step init /\
  forall c, rtc step init c -> (exists c', step c c') \/ callback_comes c.
Proof.
  intros step init. split; [by eapply watcher_under|].
  apply (task_delivered _ value watcher_metadata); [|done].
  simpl. rewrite elem_of_app. left. change (mkKeyTask _ _ _ _) with (watcher_task kv (key, value)).
  rewrite <- Hchange. by apply watcher_tasks_elem.
Qed.

(** C2: A change the watchers missed is found by the crawler.  Let a running
    engine have no constraints, the plain rule filter and rules that are distinct
    objects and usable, all of whose patterns are canonical and without ':' in
    their literal parts.  Let all patterns of the [i]-th rule have the same
    parameters, and let a key that is a pattern of it formatted with valid
    values, such that no earlier pattern of the same leaf matches it, exist in
    the store, the rule being true there for every assignment that makes the key
    one of its keys; let transactions commit, and they and the prefix queries
    answer from that store, and let there be a key worker.  Then a run of the
    engine's crawler that does not see its stop flag set does not panic, and
    whatever the watchers submit beside what it submits, every interleaving of
    them with the key workers and the receiving workers ends, and when it has
    ended a work item with the callback of that rule and its formatted lock key
    has been delivered, which a worker that takes it, gets the lock and is not
    stopped, while the store stays as it is, runs between locking and unlocking
    that key. *)
Theorem crawl_runs_callback (opts : engineOptions CP MC) (st : started) (v : string)
    (get : string -> result (list (string * string)))
    (others : list (list keyTask)) (keyProcBuffer ruleWorkBuffer concurrency : nat)
    (Hcanonical : Forall (fun reg => forall p, p ∈ pattern_list (ref_rule (reg_rule reg)) ->
       canonical p = true /\ colon_free (pattern_segments p) = true) regs)
    (Hrun : Run opts e = inr st) (Hget : prefix_answers get store) (Hexists : store key = Some v)
    (Hworkers : 0 < concurrency) :
  exists tasks,
    crawler_singleRun (st_crawler st) (kp_base (e_keyProc e)) get (etcdV3ReadAPI_getCachedAPI kv)
      (fun _ => false) = Some tasks /\
    let step := channel_step (keyWorker (e_keyProc e)) keyProcBuffer ruleWorkBuffer in
    let init := start (tasks :: others) concurrency in
    sn step init /\ forall c, rtc step init c -> (exists c', step c c') \/ callback_comes c.
Proof.
  destruct (crawl_tasks _ _ _ _ _ _ Hengine Husable opts st kv get store crawler_metadata)
    as (tasks & Hts & Hin); try done.
  exists tasks. split; [done|]. apply (task_delivered _ (Some v) crawler_metadata); [|done].
  simpl. rewrite elem_of_app, Hin. left. exists key, v. split_and!; try done.
  - eapply watcher_under; [|done]. rewrite Forall_forall in Hcanonical.
    eapply (Hcanonical reg); [by eapply list_elem_of_lookup_2 | by eapply triggers_pattern].
  - destruct (change_work (Some v) crawler_metadata) as (works & ids & w & Hp & Hw & _).
    exists works, ids. split; [done|]. intros ->. by apply not_elem_of_nil in Hw.
Qed.
End change.
End end_to_end.
