(* ===== verification/IntegrationTest.v ===== *)
(** * The integration test program (v3enginetest/main.go) *)
(** The program builds an engine with a polling rule and a plain rule, writes
    the data that triggers polling for four IDs, waits until the callback has
    polled each of them to the end, triggers the plain rule, waits for the
    report of its callback, for ten seconds, and shuts the engine down.  The
    model builds the engine with the operations of the library; a step relation
    then interleaves the main goroutine, the steps of the callbacks that the
    workers run, their reports and the expiry of the polling keys' leases.  A
    worker holds the lock of the ID while it runs a callback, so that at most one
    callback of a rule runs for an ID (see [callbacks_exclusive] in Worker.v). *)
From S2P Require Import Prelude GoString Attributes Metrics Matcher StaticRule DynamicRule Instantiation Expand RuleManager Etcd Collector Mocks KeyProcessor KeyChannel Crawler Json Listener Shutdown Options Engine Running Wiring.
From stdpp Require Import pretty.

(** ** The program *)
Definition idCount : nat := 4.
Definition pollCount : Z := 5.

Definition dataPath : string := "/rulesEngine/data/:id".
Definition blockPath : string := "/rulesEngine/block/:id".
Definition donePath : string := "/rulesEngine/done/:id".
Definition doneRuleID : string := "done".
Definition doneID : string := "4567".
Definition pollingNamespace : string := "/rulesEnginePolling/:id".

(** The IDs, [fmt.Sprint(i)] for i below [idCount]. *)
Definition ids : list string := (fun i : nat => pretty i) <$> seq 0 idCount.

(** [check] panics on an error. *)
Definition check {A} (r : result A) : outcome A :=
  match r with inl _ => Panicked | inr a => Done a end.

(** *** The webhook *)
(** The optional argument is the port of the server that runs the handler. *)
Definition test_port (args : list string) : string := default "6969" (args !! 1).

Definition Setenv (env : string -> option string) (name value : string) : string -> option string :=
  fun n => if decide (n = name) then Some value else env n.

(** The address the server listens on and the path of the handler. *)
Definition test_server (args : list string) : string * string := (":" +:+ test_port args, "/callback").

Definition test_hookURL (args : list string) : string :=
  "http://localhost:" +:+ test_port args +:+ "/callback".

Definition test_env (args : list string) (env : string -> option string) : string -> option string :=
  Setenv env WebhookURLEnv (test_hookURL args).

(** The number of watch responses is not known, but at least three, and each
    has one event; otherwise the program panics. *)
Definition checkWatchResp (resp : list WatchResponse) : option unit :=
  if decide (length resp < 3) then None
  else if decide (Forall (fun r => length (wr_Events r) = 1) resp) then Some tt else None.

(** The check fails once the wrapped watcher has recorded the end of a watch
    channel. *)
Lemma checkWatchResp_zero resp : zero_response ∈ resp -> checkWatchResp resp = None.
Proof.
  intros Hz. unfold checkWatchResp. case_decide; [done|]. rewrite decide_False; [done|].
  rewrite Forall_forall. intros Hall. by specialize (Hall _ Hz).
Qed.

Inductive test_callback := pollCallback | doneCallback.

Section program.
Context `{Regexp} `{Fmt} `{GoRange}.

Inductive anyCollector := collector (M : Type) (s : suppliedCollector M).

Definition test_context : context := SetMethod [] "intTest".

Definition test_options : list (EngineOption context anyCollector) :=
  [EngineContextProvider test_context;
   EngineMetricsCollector (collector MockMetricsCollector (advancedCollector mock_collector));
   EngineSyncInterval 5;
   EngineCrawlMutex "inttest" 5;
   EngineLockAcquisitionTimeout 5].

(** The options of the engine; nobody sets a key expansion. *)
Definition test_engine_options : engineOptions context anyCollector :=
  fst (makeEngineOptions [] (collector noOpMetricsCollector (advancedCollector newMetricsCollector))
         test_options ∅).

(** There is data and nothing blocks the polling. *)
Definition test_preReq : result DynamicRule :=
  match NewEqualsLiteralRule dataPath None with
  | inl err => inl err
  | inr preReq =>
    match NewEqualsLiteralRule blockPath None with
    | inl err => inl err
    | inr block => inr (NewAndRule [NewNotRule preReq; block])
    end
  end.

(** The engine with its two rules. *)
Definition test_engine (fuel : nat) : outcome (baseEngine (taskCallback test_callback) context) :=
  preReq ← check test_preReq;
  r ← AddPolling fuel 1 ∅ (newV3Engine test_engine_options) pollingNamespace (mkRuleRef _ 0 preReq) 2
        pollCallback;
  engine ← check r;
  doneRule ← check (NewEqualsLiteralRule donePath (Some "false"));
  addRuleWithIface fuel 3 ∅ engine (mkRuleRef _ 2 doneRule) "/rulesEngineDone/:id"
    (userCallback doneCallback) [RuleID doneRuleID].

(** *** The callbacks *)
Abbreviation store_map := (gmap string string).

Definition wrap32 (z : Z) : Z := (Z.modulo (z + 2 ^ 31) (2 ^ 32) - 2 ^ 31)%Z.

(** Where the polling callback is: called, with the count loaded, with the value
    from the store, with the count incremented. *)
Inductive callback_pc :=
| CbCalled
| CbLoaded (pPollCount : Z)
| CbGot (pPollCount : Z) (value : string)
| CbAdded.

(** The callback goes on, sends on the channel [done] and then returns, returns,
    or panics. *)
Inductive callback_result :=
| CbGoes (pc : callback_pc)
| CbSends
| CbReturns
| CbPanics.

(** The next step of the polling callback, with the store and the counts after
    it.  Each step has one effect on them; the client's operations succeed. *)
Definition poll_callback (attr : extendedAttributes) (pc : callback_pc) (kv : store_map) (ps : gmap string Z) :
    store_map * gmap string Z * callback_result :=
  let panics := (kv, ps, CbPanics) in
  match pc with
  | CbCalled =>
    match (ptr ← GetAttribute attr "id"; id ← ptr; ps !! id) with
    | Some pPollCount => (kv, ps, CbGoes (CbLoaded pPollCount))
    | None => panics
    end
  | CbLoaded pPollCount =>
    match (path ← Format attr dataPath; kv !! path) with
    | Some value => (kv, ps, CbGoes (CbGot pPollCount value))
    | None => panics
    end
  | CbGot pPollCount value =>
    if decide (value <> pretty pPollCount) then panics
    else if decide (pPollCount = pollCount) then
      match Format attr blockPath with
      | Some block => (<[block := "done"]> kv, ps, CbSends)
      | None => panics
      end
    else if decide (pollCount < pPollCount)%Z then panics
    else match (ptr ← GetAttribute attr "id"; id ← ptr; count ← ps !! id; Some (id, count)) with
         | Some (id, count) => (kv, <[id := wrap32 (count + 1)]> ps, CbGoes CbAdded)
         | None => panics
         end
  | CbAdded =>
    match (ptr ← GetAttribute attr "id"; id ← ptr; count ← ps !! id; path ← Format attr dataPath; Some (path, count)) with
    | Some (path, count) => (<[path := pretty count]> kv, ps, CbReturns)
    | None => panics
    end
  end.

(** The callback of the plain rule. *)
Definition done_callback (attr : extendedAttributes) (kv : store_map) : option store_map :=
  path ← Format attr donePath; Some (<[path := "true"]> kv).

(** What [doRule] puts after the polling callback has returned, unless no lease
    is granted or the put fails. *)
Definition put_ttl (attr : extendedAttributes) (grant : result Z) (putFails : bool) (kv : store_map) :
    store_map :=
  if putFails then kv
  else fold_left (fun m eff => match eff with PutKey path v _ => <[path := v]> m | _ => m end)
         (fst (doRule pollCallback 2 (polling_namespace pollingNamespace +:+ "ttl") attr grant)) kv.
End program.

(** *** The system *)
(** Why [main] panics: its check of the watch responses fails, or the report of
    the plain rule's callback does not come within ten seconds. *)
Inductive failure :=
| BadResponses (resp : list WatchResponse)
| NoReport.

(** Where the main goroutine is: writing the data, having received [k] of the
    finished IDs, waiting for the report of the plain rule's callback, shutting
    the engine down, at its end or panicked. *)
Inductive main_phase :=
| Putting (i : nat)
| Waiting (k : nat)
| AwaitDone
| ShuttingDown
| Finished
| Failed (f : failure).

(** Where a worker is with the polling rule of an ID, under its lock: in the
    callback, blocked on the unbuffered channel [done], back in [doRule] before
    the TTL key is put, before the report. *)
Inductive poll_pc :=
| PollRuns (pc : callback_pc)
| PollSending
| PollReturned
| PollReporting.

(** The same with the plain rule. *)
Inductive done_pc := DoneRuns | DoneReporting.

(** [t_polls] and [t_dones] are the workers that run a callback, by the ID whose
    lock they hold, with the key that triggered the rule; [t_events] are the
    reports in the buffer of the handler; [t_panicked] tells whether a polling
    callback has panicked, which the worker recovers. *)
Record test_state := mkTest {
  t_phase : main_phase;
  t_kv : gmap string string;
  t_ps : gmap string Z;
  t_polls : gmap string (string * poll_pc);
  t_dones : gmap string (string * done_pc);
  t_received : list string;
  t_events : list callbackEvent;
  t_panicked : bool
}.

Definition set_phase (ph : main_phase) (st : test_state) : test_state :=
  mkTest ph (t_kv st) (t_ps st) (t_polls st) (t_dones st) (t_received st) (t_events st) (t_panicked st).
Definition set_kv (kv : gmap string string) (st : test_state) : test_state :=
  mkTest (t_phase st) kv (t_ps st) (t_polls st) (t_dones st) (t_received st) (t_events st) (t_panicked st).
Definition set_ps (ps : gmap string Z) (st : test_state) : test_state :=
  mkTest (t_phase st) (t_kv st) ps (t_polls st) (t_dones st) (t_received st) (t_events st) (t_panicked st).
Definition set_polls (polls : gmap string (string * poll_pc)) (st : test_state) : test_state :=
  mkTest (t_phase st) (t_kv st) (t_ps st) polls (t_dones st) (t_received st) (t_events st) (t_panicked st).
Definition set_dones (dones : gmap string (string * done_pc)) (st : test_state) : test_state :=
  mkTest (t_phase st) (t_kv st) (t_ps st) (t_polls st) dones (t_received st) (t_events st) (t_panicked st).
Definition set_received (rc : list string) (st : test_state) : test_state :=
  mkTest (t_phase st) (t_kv st) (t_ps st) (t_polls st) (t_dones st) rc (t_events st) (t_panicked st).
Definition set_events (evs : list callbackEvent) (st : test_state) : test_state :=
  mkTest (t_phase st) (t_kv st) (t_ps st) (t_polls st) (t_dones st) (t_received st) evs (t_panicked st).
Definition set_panicked (st : test_state) : test_state :=
  mkTest (t_phase st) (t_kv st) (t_ps st) (t_polls st) (t_dones st) (t_received st) (t_events st) true.

Definition set_poll (id key : string) (pc : poll_pc) (st : test_state) : test_state :=
  set_polls (<[id := (key, pc)]> (t_polls st)) st.
Definition set_done (id key : string) (pc : done_pc) (st : test_state) : test_state :=
  set_dones (<[id := (key, pc)]> (t_dones st)) st.

(** The state when [engine.Run] is called: the data of previous runs has been
    deleted from the store. *)
Definition test_init (store : gmap string string) : test_state :=
  mkTest (Putting 0) (delete_prefix "/rulesEngine" store) (list_to_map ((fun id => (id, 0%Z)) <$> ids)) ∅ ∅ [] [] false.

(** The attributes of a match of [key] with a pattern that has the one
    parameter ":id". *)
Definition id_attributes (key id : string) : extendedAttributes :=
  nestingAttributes (regexKeyMatchAttrs (mkRegexKeyMatch [key; id] {["id" := 1]})) [].

Section system.
Context `{Regexp} `{Fmt} `{GoRange}.
Context (args : list string) (env : string -> option string).
Context (pollRule doneRule : DynamicRule).

Definition pollRuleID : string := polling_namespace pollingNamespace.

(** What a worker does after a callback: when the engine has found a webhook in
    its environment it reports to it.  The request reaches the handler when the
    URL is that of the program's server; otherwise it goes elsewhere or fails,
    which is only logged. *)
Definition report (ruleID : string) (attr : extendedAttributes) (events : list callbackEvent) :
    option (list callbackEvent) :=
  match test_env args env WebhookURLEnv with
  | None => Some events
  | Some hookURL =>
    ev ← callbackDone ruleID attr;
    if decide (hookURL = "http://localhost" +:+ fst (test_server args) +:+ snd (test_server args))
    then HandleRequest events (marshal_event ev) else Some events
  end.

(** A rule is true for an ID in the store. *)
Definition due_for (rule : DynamicRule) (attr : extendedAttributes) (kv : gmap string string) : Prop :=
  rule_holds (fun k => kv !! k) (attr_env attr) rule = true.

Abbreviation ttlPath := (polling_namespace pollingNamespace +:+ "ttl").

(** A callback starts when a worker that has the lock of the ID finds the rule
    true.  The watch responses that [main] checks are whatever the wrapped
    watcher has recorded by then.  [WaitForCallback] takes the reports one by
    one, and the ten seconds may be over at any time. *)
Inductive test_step : test_state -> test_state -> Prop :=
| main_put st i :
    t_phase st = Putting i -> i < idCount ->
    test_step st (set_phase (Putting (S i)) (set_kv (<[ReplaceAll dataPath ":id" (pretty i) := "0"]> (t_kv st)) st))
| main_wait st : t_phase st = Putting idCount -> test_step st (set_phase (Waiting 0) st)
| poll_start st key id :
    t_polls st !! id = None -> due_for pollRule (id_attributes key id) (t_kv st) ->
    test_step st (set_poll id key (PollRuns CbCalled) st)
| poll_runs st key id pc kv ps pc' :
    t_polls st !! id = Some (key, PollRuns pc) ->
    poll_callback (id_attributes key id) pc (t_kv st) (t_ps st) = (kv, ps, CbGoes pc') ->
    test_step st (set_poll id key (PollRuns pc') (set_kv kv (set_ps ps st)))
| poll_sends st key id pc kv ps :
    t_polls st !! id = Some (key, PollRuns pc) ->
    poll_callback (id_attributes key id) pc (t_kv st) (t_ps st) = (kv, ps, CbSends) ->
    test_step st (set_poll id key PollSending (set_kv kv (set_ps ps st)))
| poll_returns st key id pc kv ps :
    t_polls st !! id = Some (key, PollRuns pc) ->
    poll_callback (id_attributes key id) pc (t_kv st) (t_ps st) = (kv, ps, CbReturns) ->
    test_step st (set_poll id key PollReturned (set_kv kv (set_ps ps st)))
| poll_panics st key id pc kv ps :
    t_polls st !! id = Some (key, PollRuns pc) ->
    poll_callback (id_attributes key id) pc (t_kv st) (t_ps st) = (kv, ps, CbPanics) ->
    test_step st (set_panicked (set_polls (delete id (t_polls st)) (set_kv kv (set_ps ps st))))
| main_receive st k key id :
    t_phase st = Waiting k -> k < idCount -> t_polls st !! id = Some (key, PollSending) ->
    test_step st (set_phase (Waiting (S k)) (set_received (t_received st ++ [id]) (set_poll id key PollReturned st)))
| poll_ttl st key id grant putFails :
    t_polls st !! id = Some (key, PollReturned) ->
    test_step st (set_poll id key PollReporting (set_kv (put_ttl (id_attributes key id) grant putFails (t_kv st)) st))
| poll_report st key id evs :
    t_polls st !! id = Some (key, PollReporting) ->
    report pollRuleID (id_attributes key id) (t_events st) = Some evs ->
    test_step st (set_polls (delete id (t_polls st)) (set_events evs st))
| main_trigger st resp :
    t_phase st = Waiting idCount -> checkWatchResp resp = Some tt ->
    test_step st (set_phase AwaitDone (set_kv (<[ReplaceAll donePath ":id" doneID := "false"]> (t_kv st)) st))
| main_check_fails st resp :
    t_phase st = Waiting idCount -> checkWatchResp resp = None ->
    test_step st (set_phase (Failed (BadResponses resp)) st)
| done_start st key id :
    t_dones st !! id = None -> due_for doneRule (id_attributes key id) (t_kv st) ->
    test_step st (set_done id key DoneRuns st)
| done_puts st key id kv :
    t_dones st !! id = Some (key, DoneRuns) -> done_callback (id_attributes key id) (t_kv st) = Some kv ->
    test_step st (set_done id key DoneReporting (set_kv kv st))
| done_report st key id evs :
    t_dones st !! id = Some (key, DoneReporting) ->
    report doneRuleID (id_attributes key id) (t_events st) = Some evs ->
    test_step st (set_dones (delete id (t_dones st)) (set_events evs st))
| main_skips st ctxErr ev evs :
    t_phase st = AwaitDone -> t_events st = ev :: evs ->
    WaitForCallback ctxErr false [ev] doneRuleID (Some {["id" := doneID]}) = None ->
    test_step st (set_events evs st)
| main_finish st ctxErr ev evs :
    t_phase st = AwaitDone -> t_events st = ev :: evs ->
    WaitForCallback ctxErr false [ev] doneRuleID (Some {["id" := doneID]}) = Some (None, []) ->
    test_step st (set_phase ShuttingDown (set_events evs st))
| main_timeout st : t_phase st = AwaitDone -> test_step st (set_phase (Failed NoReport) st)
| main_shutdown st ctxErr polls err :
    t_phase st = ShuttingDown -> shutdown_loop ctxErr polls = Some err -> test_step st (set_phase Finished st)
| ttl_expires st key id v :
    t_kv st !! pattern_key (attr_env (id_attributes key id)) ttlPath = Some v ->
    test_step st (set_kv (delete (pattern_key (attr_env (id_attributes key id)) ttlPath) (t_kv st)) st).
End system.

(** ** Keys *)
Definition data_key (id : string) : string := "/rulesEngine/data/" +:+ id.
Definition block_key (id : string) : string := "/rulesEngine/block/" +:+ id.
Definition done_key (id : string) : string := "/rulesEngine/done/" +:+ id.
Definition ttl_key (id : string) : string := "/rulesEnginePolling/" +:+ id +:+ "/ttl".

Lemma app_str_inv_r (s t u : string) : s +:+ u = t +:+ u -> s = t.
Proof.
  intros Heq. apply (f_equal chars) in Heq. rewrite !chars_app in Heq. apply app_inv_tail in Heq.
  apply (f_equal String.string_of_list_ascii) in Heq. by rewrite !String.string_of_list_ascii_of_string in Heq.
Qed.

#[export] Instance data_key_inj : Inj (=) (=) data_key.
Proof. intros x y. apply app_str_inv_l. Qed.
#[export] Instance block_key_inj : Inj (=) (=) block_key.
Proof. intros x y. apply app_str_inv_l. Qed.
#[export] Instance done_key_inj : Inj (=) (=) done_key.
Proof. intros x y. apply app_str_inv_l. Qed.
#[export] Instance ttl_key_inj : Inj (=) (=) ttl_key.
Proof. intros x y Heq%app_str_inv_l. by apply app_str_inv_r in Heq. Qed.

(** Keys of different kinds differ at a fixed position. *)
Lemma key_kinds x y :
  data_key x <> block_key y /\ data_key x <> done_key y /\ data_key x <> ttl_key y /\
  block_key x <> done_key y /\ block_key x <> ttl_key y /\ done_key x <> ttl_key y.
Proof. unfold data_key, block_key, done_key, ttl_key. simpl. split_and!; discriminate. Qed.

(** Decides lookups in a store after a put or a deletion under another key. *)
Ltac other_key :=
  match goal with
  | |- context [(<[?k := _]> _) !! ?k'] => rewrite (lookup_insert_ne _ k k') by other_key
  | |- context [(delete ?k _) !! ?k'] => rewrite (lookup_delete_ne _ k k') by other_key
  | |- data_key ?x <> data_key ?y => let H := fresh in intros H%(inj data_key); congruence
  | |- block_key ?x <> block_key ?y => let H := fresh in intros H%(inj block_key); congruence
  | |- done_key ?x <> done_key ?y => let H := fresh in intros H%(inj done_key); congruence
  | |- ttl_key ?x <> ttl_key ?y => let H := fresh in intros H%(inj ttl_key); congruence
  | |- ?k ?x <> ?k' ?y =>
    let H := fresh in intros H; destruct (key_kinds x y) as (? & ? & ? & ? & ? & ?);
    destruct (key_kinds y x) as (? & ? & ? & ? & ? & ?); congruence
  end.

Section attributes.
Context (args : list string) (env : string -> option string) (key id : string).

Lemma id_env : attr_env (id_attributes key id) "id" = Some id.
Proof. reflexivity. Qed.

Lemma id_total : attr_total (id_attributes key id).
Proof.
  intros n. unfold id_attributes. simpl. unfold km_lookup. simpl.
  destruct (decide (n = "id")) as [->|Hn]; [by eexists|]. rewrite lookup_singleton_ne by done. by eexists.
Qed.

Lemma data_pattern_key : pattern_key (attr_env (id_attributes key id)) dataPath = data_key id.
Proof. unfold pattern_key. change (pattern_segments dataPath) with [Lit "rulesEngine"; Lit "data"; Param "id"].
  simpl. rewrite id_env. simpl. by rewrite app_str_nil_r. Qed.

Lemma block_pattern_key : pattern_key (attr_env (id_attributes key id)) blockPath = block_key id.
Proof. unfold pattern_key. change (pattern_segments blockPath) with [Lit "rulesEngine"; Lit "block"; Param "id"].
  simpl. rewrite id_env. simpl. by rewrite app_str_nil_r. Qed.

Lemma done_pattern_key : pattern_key (attr_env (id_attributes key id)) donePath = done_key id.
Proof. unfold pattern_key. change (pattern_segments donePath) with [Lit "rulesEngine"; Lit "done"; Param "id"].
  simpl. rewrite id_env. simpl. by rewrite app_str_nil_r. Qed.

Lemma ttl_pattern_key :
  pattern_key (attr_env (id_attributes key id)) (polling_namespace pollingNamespace +:+ "ttl") = ttl_key id.
Proof. unfold pattern_key.
  change (pattern_segments (polling_namespace pollingNamespace +:+ "ttl"))
    with [Lit "rulesEnginePolling"; Param "id"; Lit "ttl"].
  simpl. by rewrite id_env. Qed.

Lemma id_event `{GoRange} ruleID :
  callbackDone ruleID (id_attributes key id) = Some (mkCallbackEvent ruleID (Some {["id" := id]})).
Proof.
  unfold callbackDone, id_attributes. simpl. unfold range_keys. rewrite range_singleton. reflexivity.
Qed.

Lemma report_spec `{GoRange} ruleID evs :
  report args env ruleID (id_attributes key id) evs =
  if decide (length evs < eventBuffer) then Some (evs ++ [sanitize_event (mkCallbackEvent ruleID (Some {["id" := id]}))])
  else None.
Proof.
  unfold report, test_env, Setenv. rewrite id_event, decide_True by done. cbn [mbind option_bind].
  rewrite decide_True by done.
  unfold HandleRequest. by rewrite decode_marshal.
Qed.

Lemma report_appends `{GoRange} ruleID evs evs' :
  report args env ruleID (id_attributes key id) evs = Some evs' ->
  evs' = evs ++ [sanitize_event (mkCallbackEvent ruleID (Some {["id" := id]}))].
Proof. rewrite report_spec. case_decide; [by intros [= <-] | done]. Qed.

Lemma report_received `{GoRange} ruleID evs :
  length evs < eventBuffer -> exists evs', report args env ruleID (id_attributes key id) evs = Some evs'.
Proof. intros Hr. rewrite report_spec, decide_True by done. eauto. Qed.
End attributes.

(** ** The callbacks *)
Section callbacks.
Context `{Regexp} `{Fmt}.

Lemma wrap32_small z : (0 <= z <= 5)%Z -> wrap32 (z + 1) = (z + 1)%Z.
Proof. intros Hz. unfold wrap32. rewrite Z.mod_small; lia. Qed.

(** The steps of the callback on a store that agrees with the count. *)
Lemma poll_called key id kv ps c :
  ps !! id = Some c -> poll_callback (id_attributes key id) CbCalled kv ps = (kv, ps, CbGoes (CbLoaded c)).
Proof.
  intros Hc. unfold poll_callback. change (GetAttribute (id_attributes key id) "id") with (Some (Some id)).
  simpl. by rewrite Hc.
Qed.

Lemma poll_loaded key id kv ps n v :
  kv !! data_key id = Some v ->
  poll_callback (id_attributes key id) (CbLoaded n) kv ps = (kv, ps, CbGoes (CbGot n v)).
Proof.
  intros Hd. unfold poll_callback. rewrite attr_total_Format by apply id_total. simpl.
  by rewrite data_pattern_key, Hd.
Qed.

Lemma poll_got key id kv ps c :
  ps !! id = Some c -> (0 <= c <= 5)%Z ->
  poll_callback (id_attributes key id) (CbGot c (pretty c)) kv ps =
  if decide (c = 5)%Z then (<[block_key id := "done"]> kv, ps, CbSends)
  else (kv, <[id := (c + 1)%Z]> ps, CbGoes CbAdded).
Proof.
  intros Hc Hr. unfold poll_callback. change (GetAttribute (id_attributes key id) "id") with (Some (Some id)).
  rewrite attr_total_Format by apply id_total. rewrite block_pattern_key.
  rewrite decide_False by (intros Hn; by apply Hn). unfold pollCount.
  destruct (decide (c = 5)%Z); [done|]. rewrite decide_False by lia. simpl. rewrite Hc. simpl.
  by rewrite wrap32_small.
Qed.

Lemma poll_added key id kv ps c :
  ps !! id = Some c ->
  poll_callback (id_attributes key id) CbAdded kv ps = (<[data_key id := pretty c]> kv, ps, CbReturns).
Proof.
  intros Hc. unfold poll_callback. change (GetAttribute (id_attributes key id) "id") with (Some (Some id)).
  simpl. rewrite Hc. simpl. rewrite attr_total_Format by apply id_total. simpl. by rewrite data_pattern_key.
Qed.

Lemma done_callback_ok key id kv :
  done_callback (id_attributes key id) kv = Some (<[done_key id := "true"]> kv).
Proof. unfold done_callback. rewrite attr_total_Format by apply id_total. simpl. by rewrite done_pattern_key. Qed.

Lemma put_ttl_cases key id grant putFails kv :
  put_ttl (id_attributes key id) grant putFails kv = kv \/
  put_ttl (id_attributes key id) grant putFails kv = <[ttl_key id := EmptyString]> kv.
Proof.
  unfold put_ttl, doRule. destruct putFails; [by left|]. rewrite attr_total_Format by apply id_total.
  rewrite ttl_pattern_key. destruct grant; simpl; auto.
Qed.
End callbacks.
