(* ===== verification/IntegrationRun.v ===== *)
(** * The runs of the integration test (v3enginetest/main.go) *)
(** What the program does for one ID is seen through a view of the state; the
    views that occur are enumerated ([id_ok]).  Every step changes the view of
    one ID or the rest of the state, keeps the invariants and decreases a
    measure; with progress this gives the runs of the program. *)
From S2P Require Import Prelude GoString Attributes Metrics Matcher StaticRule DynamicRule Instantiation Expand RuleManager Etcd KeyChannel Json Listener Mocks Shutdown Options Engine Running IntegrationTest.
From stdpp Require Import pretty.

(** ** The view of one ID *)
(** The number of IDs whose data has been written. *)
Definition puts (ph : main_phase) : nat := match ph with Putting i => i | _ => idCount end.
Definition written (st : test_state) : list string := take (puts (t_phase st)) ids.

Record id_view := mkView {
  v_written : bool;
  v_received : bool;
  v_count : option Z;
  v_data : option string;
  v_block : option string;
  v_ttl : option string;
  v_poll : option poll_pc
}.

Definition view (st : test_state) (id : string) : id_view :=
  mkView (bool_decide (id ∈ written st)) (bool_decide (id ∈ t_received st)) (t_ps st !! id)
    (t_kv st !! data_key id) (t_kv st !! block_key id) (t_kv st !! ttl_key id) (snd <$> t_polls st !! id).

(** A worker that is not in the callback. *)
Definition outside (pc : option poll_pc) : Prop :=
  match pc with None | Some PollReturned | Some PollReporting => True | _ => False end.

(** A callback whose local variables agree with the count. *)
Definition agrees (c : Z) (pc : callback_pc) : Prop :=
  match pc with
  | CbCalled => True
  | CbLoaded n => n = c
  | CbGot n v => n = c /\ v = pretty c
  | CbAdded => False
  end.

(** The views of the program's IDs: nothing written; between two polls; in the
    callback; between the increment of the count and that of the data; blocked
    and sending on the channel; received. *)
Inductive id_ok : id_view -> Prop :=
| ok_unwritten t : id_ok (mkView false false (Some 0%Z) None None t None)
| ok_between c t pc : (0 <= c <= 5)%Z -> outside pc ->
    id_ok (mkView true false (Some c) (Some (pretty c)) None t pc)
| ok_runs c t pc : (0 <= c <= 5)%Z -> agrees c pc ->
    id_ok (mkView true false (Some c) (Some (pretty c)) None t (Some (PollRuns pc)))
| ok_added c t : (0 <= c < 5)%Z ->
    id_ok (mkView true false (Some (c + 1)%Z) (Some (pretty c)) None t (Some (PollRuns CbAdded)))
| ok_sending t : id_ok (mkView true false (Some 5%Z) (Some (pretty 5%Z)) (Some "done") t (Some PollSending))
| ok_received t pc : outside pc -> id_ok (mkView true true (Some 5%Z) (Some (pretty 5%Z)) (Some "done") t pc).

(** Nothing is there for any other ID. *)
Definition views_ok (st : test_state) : Prop :=
  forall id, (id ∈ ids -> id_ok (view st id)) /\
             (id ∉ ids -> view st id = mkView false false None None None None None).

(** What is left to do for an ID: nine steps for each poll, the steps of the
    current one and the expiry of its lease. *)
Definition pc_left (pc : option poll_pc) : nat :=
  match pc with
  | None => 3
  | Some (PollRuns CbCalled) => 2
  | Some (PollRuns (CbLoaded _)) => 1
  | Some (PollRuns (CbGot _ _)) => 0
  | Some (PollRuns CbAdded) => 8
  | Some PollSending => 8
  | Some PollReturned => 7
  | Some PollReporting => 5
  end.

Definition flag (o : option string) : nat := match o with Some _ => 1 | None => 0 end.

Definition view_left (v : id_view) : nat :=
  9 * (if v_block v then 0 else 6 - Z.to_nat (default 0%Z (v_count v))) + pc_left (v_poll v) + flag (v_ttl v).

(** ** The rest of the state *)
Definition done_event : callbackEvent := mkCallbackEvent doneRuleID (Some {["id" := doneID]}).

(** It is valid UTF-8, so that the handler gets it as it was reported. *)
Lemma done_event_reported : sanitize_event done_event = done_event.
Proof. apply sanitize_event_id. split; [done|]. by apply map_Forall_singleton. Qed.

(** The main goroutine has received as many IDs as it counts; no polling
    callback has panicked. *)
Record main_inv (st : test_state) : Prop := {
  mi_phase :
    match t_phase st with
    | Putting i => i <= idCount /\ t_received st = []
    | Waiting k => k <= idCount /\ length (t_received st) = k
    | _ => length (t_received st) = idCount
    end;
  mi_nodup : NoDup (t_received st);
  mi_failed : forall resp, t_phase st = Failed (BadResponses resp) -> checkWatchResp resp = None;
  mi_ok : t_panicked st = false
}.

(** The plain rule only runs for the ID it is triggered for, and its report is
    still to come or in the buffer while the main goroutine waits for it. *)
Record done_inv (st : test_state) : Prop := {
  di_only : forall id v, t_kv st !! done_key id = Some v -> id = doneID;
  di_runs : forall id p, t_dones st !! id = Some p ->
    id = doneID /\ (snd p = DoneRuns -> t_kv st !! done_key doneID = Some "false");
  di_wait : t_phase st = AwaitDone ->
    t_kv st !! done_key doneID = Some "false" \/
    (exists key, t_dones st !! doneID = Some (key, DoneReporting)) \/ done_event ∈ t_events st
}.

Record test_inv (st : test_state) : Prop := {
  ti_views : views_ok st;
  ti_main : main_inv st;
  ti_done : done_inv st
}.

Definition main_left (ph : main_phase) : nat :=
  match ph with
  | Putting i => idCount - i + 20
  | Waiting k => idCount - k + 10
  | AwaitDone => 5
  | ShuttingDown => 2
  | Finished => 1
  | Failed _ => 0
  end.

Definition done_left (st : test_state) : nat :=
  (if decide (t_kv st !! done_key doneID = Some "false") then 4 else 0) +
  match snd <$> t_dones st !! doneID with None => 1 | Some DoneRuns => 0 | Some DoneReporting => 3 end.

Definition rest_left (st : test_state) : nat :=
  main_left (t_phase st) + done_left st + length (t_events st).

(** What is left to do, the reports in the buffer included; every step makes it
    smaller. *)
Definition test_left (st : test_state) : nat :=
  sum_list_with (fun id => view_left (view st id)) ids + rest_left st.

Lemma NoDup_ids : NoDup ids.
Proof. apply (bool_decide_unpack _). vm_compute. exact I. Qed.

Lemma sum_list_with_change {A} (f g : A -> nat) l x :
  NoDup l -> x ∈ l -> (forall y, y <> x -> f y = g y) ->
  sum_list_with f l + g x = sum_list_with g l + f x.
Proof.
  intros Hnd Hx Hfg. induction Hnd as [|y l Hy _ IH]; [by apply elem_of_nil in Hx|]. simpl.
  apply elem_of_cons in Hx as [->|Hx].
  - enough (sum_list_with f l = sum_list_with g l) by lia. clear IH. induction l as [|z l IH]; [done|].
    apply not_elem_of_cons in Hy as [Hz Hy]. simpl. rewrite IH, (Hfg z) by done. lia.
  - specialize (IH Hx). rewrite (Hfg y); [lia|]. by intros ->.
Qed.

Lemma sum_list_with_elems {A} (f g : A -> nat) l :
  (forall y, y ∈ l -> f y = g y) -> sum_list_with f l = sum_list_with g l.
Proof. intros Hfg. induction l as [|y l IH]; simpl; [done|]. rewrite IH, Hfg by set_solver. done. Qed.

(** A step that changes the view of one ID. *)
Definition good (st st' : test_state) : Prop := views_ok st' /\ test_left st' < test_left st.

Lemma good_id st st' id :
  views_ok st -> id ∈ ids -> (forall x, x <> id -> view st' x = view st x) -> id_ok (view st' id) ->
  view_left (view st' id) + rest_left st' < view_left (view st id) + rest_left st -> good st st'.
Proof.
  intros V Hid Hx Hok Hl. split.
  - intros x. destruct (decide (x = id)) as [->|Hne]; [done|]. rewrite (Hx _ Hne). apply V.
  - unfold test_left. pose proof (sum_list_with_change (fun x => view_left (view st' x))
      (fun x => view_left (view st x)) ids id NoDup_ids Hid) as Hs. cbv beta in *.
    specialize (Hs (fun x Hne => f_equal view_left (Hx x Hne))). lia.
Qed.

(** A step that changes none. *)
Lemma good_rest st st' :
  views_ok st -> (forall x, view st' x = view st x) -> rest_left st' < rest_left st -> good st st'.
Proof.
  intros V Hx Hl. split; [intros x; rewrite Hx; apply V|]. unfold test_left.
  rewrite (sum_list_with_elems (fun x => view_left (view st' x)) (fun x => view_left (view st x))); [lia|].
  intros x _. by rewrite Hx.
Qed.

(** An ID that shows anything is one of the program's. *)
Lemma views_known st id :
  views_ok st -> t_kv st !! data_key id <> None \/ t_kv st !! ttl_key id <> None \/ t_polls st !! id <> None ->
  id ∈ ids /\ id_ok (view st id).
Proof.
  intros V Hany. destruct (V id) as [Hin Hout].
  assert (id ∈ ids) as Hid; [|by split; [|apply Hin]].
  destruct (decide (id ∈ ids)) as [|Hn]; [done|]. specialize (Hout Hn). unfold view in Hout.
  injection Hout as _ _ _ Hd _ Ht Hp. apply fmap_None in Hp. tauto.
Qed.

Lemma views_poll st id key pc :
  views_ok st -> t_polls st !! id = Some (key, pc) -> id ∈ ids /\ id_ok (view st id).
Proof. intros V Hp. apply (views_known st id V). rewrite Hp. auto. Qed.

(** Looks up an ID in the maps after a step: the ID of the step, or another. *)
Ltac look :=
  repeat first
    [ rewrite lookup_insert_eq | rewrite lookup_delete_eq
    | rewrite lookup_insert_ne by (done || other_key) | rewrite lookup_delete_ne by (done || other_key) ].

(** ** The start *)
(** The keys of the program are under the prefix it deletes. *)
Lemma test_init_clean store id :
  t_kv (test_init store) !! data_key id = None /\ t_kv (test_init store) !! block_key id = None /\
  t_kv (test_init store) !! done_key id = None /\ t_kv (test_init store) !! ttl_key id = None.
Proof. simpl. by rewrite !lookup_delete_prefix. Qed.

Lemma test_init_view store id :
  view (test_init store) id =
  mkView false false (if decide (id ∈ ids) then Some 0%Z else None) None None None None.
Proof.
  destruct (test_init_clean store id) as (Hd & Hb & _ & Ht). unfold view. rewrite Hd, Hb, Ht. f_equal. unfold test_init. cbn [t_ps].
  case_decide as Hid.
  - apply elem_of_list_to_map; [apply (bool_decide_unpack _); vm_compute; exact I|]. apply list_elem_of_fmap. eauto.
  - apply not_elem_of_list_to_map. rewrite <- list_fmap_compose.
    intros (x & -> & Hx)%list_elem_of_fmap. by destruct Hid.
Qed.

Lemma test_init_inv store : test_inv (test_init store).
Proof.
  split.
  - intros id. rewrite test_init_view. case_decide; split; [constructor | done | done | done].
  - split; simpl; [split; [lia | done] | constructor | done | done].
  - split; simpl; [|by intros id p; rewrite lookup_empty | done].
    intros id v Hv. destruct (test_init_clean store id) as (_ & _ & Hd & _). simpl in Hd. congruence.
Qed.

Lemma test_init_left store : test_left (test_init store) = 253.
Proof.
  unfold test_left, rest_left, done_left. destruct (test_init_clean store doneID) as (_ & _ & -> & _).
  rewrite (sum_list_with_elems _ (fun _ => 57)); [reflexivity|].
  intros id Hid. by rewrite test_init_view, decide_True.
Qed.

(** ** The steps of the workers *)
(** Stores that only differ in the polling keys of one ID. *)
Definition elsewhere (id : string) (kv kv' : gmap string string) : Prop :=
  (forall x, x <> id -> kv' !! data_key x = kv !! data_key x /\ kv' !! block_key x = kv !! block_key x /\
    kv' !! ttl_key x = kv !! ttl_key x) /\
  (forall x, kv' !! done_key x = kv !! done_key x).

Lemma elsewhere_refl id kv : elsewhere id kv kv.
Proof. by split. Qed.
Lemma elsewhere_data id v kv : elsewhere id kv (<[data_key id := v]> kv).
Proof. split; [intros x Hx; split_and! | intros x]; by other_key. Qed.
Lemma elsewhere_block id v kv : elsewhere id kv (<[block_key id := v]> kv).
Proof. split; [intros x Hx; split_and! | intros x]; by other_key. Qed.
Lemma elsewhere_ttl id v kv : elsewhere id kv (<[ttl_key id := v]> kv).
Proof. split; [intros x Hx; split_and! | intros x]; by other_key. Qed.
Lemma elsewhere_expired id kv : elsewhere id kv (delete (ttl_key id) kv).
Proof. split; [intros x Hx; split_and! | intros x]; by other_key. Qed.
#[local] Hint Resolve elsewhere_refl elsewhere_data elsewhere_block elsewhere_ttl elsewhere_expired : core.

(** The view of the ID after a step of its worker. *)
Definition worked (v : id_view) (id : string) (pc : option poll_pc) (kv : gmap string string) (ps : gmap string Z) : id_view :=
  mkView (v_written v) (v_received v) (ps !! id) (kv !! data_key id) (kv !! block_key id) (kv !! ttl_key id) pc.

Lemma good_worker st st' id :
  views_ok st -> id ∈ ids -> t_phase st' = t_phase st -> t_received st' = t_received st -> t_dones st' = t_dones st ->
  elsewhere id (t_kv st) (t_kv st') -> (forall x, x <> id -> t_ps st' !! x = t_ps st !! x) ->
  (forall x, x <> id -> t_polls st' !! x = t_polls st !! x) ->
  let v' := worked (view st id) id (snd <$> t_polls st' !! id) (t_kv st') (t_ps st') in
  id_ok v' -> view_left v' + length (t_events st') < view_left (view st id) + length (t_events st) -> good st st'.
Proof.
  intros V Hid Hph Hrc Hdn [Hkv Hdone] Hps Hpolls v' Hok Hl.
  assert (view st' id = v') as Hv by (unfold v', worked, view, written; simpl; by rewrite Hph, Hrc).
  apply (good_id st st' id); rewrite ?Hv; try done.
  - intros x Hx. destruct (Hkv x Hx) as (Hd & Hb & Ht). unfold view, written.
    by rewrite Hph, Hrc, Hd, Hb, Ht, Hps, Hpolls.
  - unfold rest_left, done_left. rewrite Hph, Hdone, Hdn. lia.
Qed.

(** A step of the worker of [id], whose view [Hv] gives. *)
Ltac worker_step st id Hv :=
  apply (good_worker st _ id); simpl; try done; try (by intros; look); try (by eauto);
  rewrite ?Hv; unfold worked, view_left; simpl; look;
  repeat match goal with H : _ !! _ = _ |- _ => rewrite H; clear H end; simpl.

Section workers.
Context `{Regexp} `{Fmt} `{GoRange}.
Context (args : list string) (env : string -> option string).

(** Where the view of an ID in its callback can be. *)
Lemma views_running st key id pc :
  views_ok st -> t_polls st !! id = Some (key, PollRuns pc) ->
  id ∈ ids /\
  exists c t, (view st id = mkView true false (Some c) (Some (pretty c)) None t (Some (PollRuns pc)) /\
               (0 <= c <= 5)%Z /\ agrees c pc) \/
              (view st id = mkView true false (Some (c + 1)%Z) (Some (pretty c)) None t (Some (PollRuns pc)) /\
               (0 <= c < 5)%Z /\ pc = CbAdded).
Proof.
  intros V Hp. destruct (views_poll _ _ _ _ V Hp) as [Hid Hok]. split; [done|].
  assert (v_poll (view st id) = Some (PollRuns pc)) as Hv by (unfold view; simpl; by rewrite Hp).
  destruct Hok as [t|c t p Hr Ho|c t p Hr Ha|c t Hr|t|t p Ho]; simpl in Hv; try done.
  - by subst p.
  - exists c, t. left. by injection Hv as ->.
  - exists c, t. right. by injection Hv as <-.
  - by subst p.
Qed.

(** The callback never panics: its local variables agree with the count and the
    data. *)
Lemma good_callback st key id pc kv ps r :
  views_ok st -> t_polls st !! id = Some (key, PollRuns pc) ->
  poll_callback (id_attributes key id) pc (t_kv st) (t_ps st) = (kv, ps, r) ->
  let st' pc' := set_poll id key pc' (set_kv kv (set_ps ps st)) in
  elsewhere id (t_kv st) kv /\
  match r with
  | CbGoes pc' => good st (st' (PollRuns pc'))
  | CbSends => good st (st' PollSending)
  | CbReturns => good st (st' PollReturned)
  | CbPanics => False
  end.
Proof.
  intros V Hp Hcb st'. destruct (views_running _ _ _ _ V Hp) as (Hid & c & t & [(Hv & Hr & Ha)|(Hv & Hr & ->)]).
  all: pose proof Hv as Hvi; unfold view in Hvi; injection Hvi as _ _ Hc Hd Hb Ht _.
  - destruct pc as [|n|n v|]; simpl in Ha; [|subst n|destruct Ha as [-> ->]|done].
    + rewrite (poll_called _ _ _ _ _ Hc) in Hcb. injection Hcb as <- <- <-. split; [done|].
      worker_step st id Hv; [by constructor | lia].
    + rewrite (poll_loaded _ _ _ _ _ _ Hd) in Hcb. injection Hcb as <- <- <-. split; [done|].
      worker_step st id Hv; [by constructor | lia].
    + rewrite (poll_got _ _ _ _ _ Hc Hr) in Hcb. case_decide as H5; injection Hcb as <- <- <-; (split; [done|]).
      * subst c. worker_step st id Hv; [by constructor | lia].
      * worker_step st id Hv; [constructor; lia | lia].
  - rewrite (poll_added _ _ _ _ _ Hc) in Hcb. injection Hcb as <- <- <-. split; [done|].
    worker_step st id Hv; [constructor; [lia | done] | lia].
Qed.

(** Where it can be outside the callback, once the data is written. *)
Lemma views_outside st id pc :
  views_ok st -> (snd <$> t_polls st !! id) = pc -> outside pc -> t_kv st !! data_key id <> None \/ pc <> None ->
  id ∈ ids /\
  exists c t, (view st id = mkView true false (Some c) (Some (pretty c)) None t pc /\ (0 <= c <= 5)%Z) \/
              (view st id = mkView true true (Some c) (Some (pretty c)) (Some "done") t pc /\ c = 5%Z).
Proof.
  intros V Hp Ho Hd. destruct (views_known st id V) as [Hid Hok].
  { destruct Hd as [Hd|Hd]; [by left|]. right. right. rewrite <- Hp in Hd. by intros Hn; rewrite Hn in Hd. }
  split; [done|]. assert (v_poll (view st id) = pc) as Hv by done.
  assert (v_data (view st id) <> None \/ pc <> None) as Hvd by done. clear Hp Hd.
  destruct Hok as [t|c t p Hr _|c t p Hr Ha|c t Hr|t|t p _]; simpl in Hv, Hvd; subst pc; try done.
  - naive_solver.
  - exists c, t. by left.
  - exists 5%Z, t. by right.
Qed.

(** A callback starts for an ID that is between two polls. *)
Lemma good_start st key id :
  views_ok st -> t_polls st !! id = None ->
  is_Some (t_kv st !! data_key id) /\ t_kv st !! block_key id = None /\ t_kv st !! ttl_key id = None ->
  good st (set_poll id key (PollRuns CbCalled) st).
Proof.
  intros V Hp ([d Hd] & Hb & Ht). destruct (views_outside st id None V) as (Hid & c & t & [[Hv Hr]|[Hv Hr]]);
    [by rewrite Hp | done | left; congruence | | unfold view in Hv; congruence].
  pose proof Hv as Hvi. unfold view in Hvi. injection Hvi as _ _ Hc Hd' _ <- _. clear Hd. rewrite Ht in Hv.
  worker_step st id Hv; [by constructor | lia].
Qed.

(** After the callback. *)
Lemma put_ttl_elsewhere key id grant putFails kv :
  elsewhere id kv (put_ttl (id_attributes key id) grant putFails kv).
Proof. destruct (put_ttl_cases key id grant putFails kv) as [->| ->]; auto. Qed.

Lemma good_ttl st key id grant putFails :
  views_ok st -> t_polls st !! id = Some (key, PollReturned) ->
  good st (set_poll id key PollReporting (set_kv (put_ttl (id_attributes key id) grant putFails (t_kv st)) st)).
Proof.
  intros V Hp. destruct (views_outside st id (Some PollReturned) V) as (Hid & c & t & [[Hv Hr]|[Hv Hr]]);
    [by rewrite Hp | done | by right | |].
  all: pose proof Hv as Hvi; unfold view in Hvi; injection Hvi as _ _ Hc Hd Hb Ht _.
  all: destruct (put_ttl_cases key id grant putFails (t_kv st)) as [->| ->]; worker_step st id Hv.
  all: first [by constructor | subst c; by constructor | destruct t; simpl; lia].
Qed.

Lemma good_report st key id evs :
  views_ok st -> t_polls st !! id = Some (key, PollReporting) ->
  report args env pollRuleID (id_attributes key id) (t_events st) = Some evs ->
  good st (set_polls (delete id (t_polls st)) (set_events evs st)).
Proof.
  intros V Hp Hev. apply report_appends in Hev as ->.
  destruct (views_outside st id (Some PollReporting) V) as (Hid & c & t & [[Hv Hr]|[Hv Hr]]);
    [by rewrite Hp | done | by right | |].
  all: pose proof Hv as Hvi; unfold view in Hvi; injection Hvi as _ _ Hc Hd Hb Ht _.
  all: worker_step st id Hv; first [by constructor | subst c; by constructor | rewrite length_app; simpl; lia].
Qed.

Lemma id_ok_ttl v t :
  id_ok v -> id_ok (mkView (v_written v) (v_received v) (v_count v) (v_data v) (v_block v) t (v_poll v)).
Proof. intros []; by constructor. Qed.

Lemma good_expires st id v :
  views_ok st -> t_kv st !! ttl_key id = Some v -> good st (set_kv (delete (ttl_key id) (t_kv st)) st).
Proof.
  intros V Hv. destruct (views_known st id V) as [Hid Hok]; [right; left; congruence|].
  apply (good_worker st _ id); simpl; try done; [auto|..]; unfold worked; look.
  - apply (id_ok_ttl _ None Hok).
  - unfold view_left. simpl. rewrite Hv. simpl. lia.
Qed.
End workers.

(** ** The steps of the main goroutine and of the plain rule *)
Lemma ids_lookup i : i < idCount -> ids !! i = Some (pretty i).
Proof. intros Hi. unfold ids. by rewrite list_lookup_fmap, lookup_seq_lt. Qed.

Lemma data_path_of i : i < idCount -> ReplaceAll dataPath ":id" (pretty i) = data_key (pretty i).
Proof. unfold idCount. intros Hi. do 4 (destruct i as [|i]; [vm_compute; reflexivity|]). lia. Qed.

Lemma good_put st i :
  views_ok st -> t_phase st = Putting i -> i < idCount ->
  good st (set_phase (Putting (S i)) (set_kv (<[data_key (pretty i) := "0"]> (t_kv st)) st)).
Proof.
  intros V Hph Hi. set (st' := set_phase _ _). pose proof (ids_lookup i Hi) as Hids.
  assert (forall x, x ∈ written st' <-> x ∈ written st \/ x = pretty i) as Htake.
  { intros x. change (written st') with (take (S i) ids). unfold written. rewrite Hph.
    rewrite (take_S_r _ _ _ Hids), elem_of_app, list_elem_of_singleton. done. }
  assert (pretty i ∉ written st) as Hnew.
  { unfold written. rewrite Hph. intros (j & Hj & Hlt)%elem_of_take.
    apply (NoDup_lookup ids i j) in Hj; [simpl in Hlt; lia | apply NoDup_ids | done]. }
  assert (pretty i ∈ ids) as Hid by (by eapply list_elem_of_lookup_2).
  assert (exists t, view st (pretty i) = mkView false false (Some 0%Z) None None t None) as [t Hv].
  { pose proof (proj1 (V (pretty i)) Hid) as Hok.
    assert (v_written (view st (pretty i)) = false) as Hw by (by apply bool_decide_eq_false).
    destruct Hok; simpl in Hw; try done. by eexists. }
  pose proof Hv as Hvi. unfold view in Hvi. injection Hvi as _ Hrc Hc _ Hb Ht Hp.
  assert (view st' (pretty i) = mkView true false (Some 0%Z) (Some "0") None t None) as Hv'.
  { unfold view, st'. simpl. look. rewrite Hrc, Hc, Hb, Ht, Hp, bool_decide_eq_true_2 by (apply Htake; auto). done. }
  apply (good_id st _ (pretty i)); rewrite ?Hv, ?Hv'; try done.
  - intros x Hx. unfold view. rewrite (bool_decide_ext (x ∈ written st') (x ∈ written st)) by (rewrite Htake; naive_solver).
    unfold st'. simpl. by look.
  - apply (ok_between 0 t None); [lia | done].
  - assert (done_left st' = done_left st) as Hd by (unfold done_left, st'; cbn [t_kv t_dones set_kv set_phase]; by other_key).
    unfold rest_left. rewrite Hd, Hph. change (t_events st') with (t_events st). change (t_phase st') with (Putting (S i)).
    apply (Nat.add_le_lt_mono _ _ _ _ (Nat.le_refl (57 + flag t))). unfold main_left, idCount in *. lia.
Qed.

(** The main goroutine receives the ID that a blocked callback sends. *)
Lemma good_receive st k key id :
  views_ok st -> t_phase st = Waiting k -> k < idCount -> t_polls st !! id = Some (key, PollSending) ->
  id ∉ t_received st /\
  good st (set_phase (Waiting (S k)) (set_received (t_received st ++ [id]) (set_poll id key PollReturned st))).
Proof.
  intros V Hph Hk Hp. set (st' := set_phase _ _). destruct (views_poll _ _ _ _ V Hp) as [Hid Hok].
  assert (exists t, view st id = mkView true false (Some 5%Z) (Some (pretty 5%Z)) (Some "done") t (Some PollSending)) as [t Hv].
  { assert (v_poll (view st id) = Some PollSending) as Hv by (unfold view; simpl; by rewrite Hp).
    destruct Hok; simpl in Hv; subst; try done. by eexists. }
  pose proof Hv as Hvi. unfold view in Hvi. injection Hvi as Hw Hrc Hc Hd Hb Ht _.
  apply bool_decide_eq_false in Hrc. split; [done|].
  assert (written st' = written st) as Hws by (unfold written; by rewrite Hph).
  assert (view st' id = mkView true true (Some 5%Z) (Some (pretty 5%Z)) (Some "done") t (Some PollReturned)) as Hv'.
  { unfold view. rewrite Hws, Hw. unfold st'. simpl. look.
    by rewrite Hc, Hd, Hb, Ht, bool_decide_eq_true_2 by set_solver. }
  apply (good_id st _ id); rewrite ?Hv, ?Hv'; try done.
  - intros x Hx. unfold view. rewrite Hws.
    rewrite (bool_decide_ext (x ∈ t_received st') (x ∈ t_received st)) by (unfold st'; simpl; set_solver).
    unfold st'. simpl. by look.
  - by constructor.
  - assert (done_left st' = done_left st) as Hdl by done.
    unfold rest_left. rewrite Hdl, Hph. change (t_events st') with (t_events st). change (t_phase st') with (Waiting (S k)).
    unfold view_left, main_left, idCount in *. cbn [v_block v_poll v_ttl pc_left]. lia.
Qed.

(** The other steps leave the views as they are. *)
Lemma good_main st st' :
  views_ok st -> puts (t_phase st') = puts (t_phase st) -> t_received st' = t_received st -> t_ps st' = t_ps st ->
  t_polls st' = t_polls st ->
  (forall x, t_kv st' !! data_key x = t_kv st !! data_key x /\ t_kv st' !! block_key x = t_kv st !! block_key x /\
    t_kv st' !! ttl_key x = t_kv st !! ttl_key x) ->
  rest_left st' < rest_left st -> good st st'.
Proof.
  intros V Hp Hr Hc Hpo Hkv Hl. apply good_rest; [done | | done]. intros x. destruct (Hkv x) as (Hd & Hb & Ht).
  unfold view, written. by rewrite Hp, Hr, Hc, Hpo, Hd, Hb, Ht.
Qed.

Lemma elsewhere_done v (kv : gmap string string) x :
  <[done_key doneID := v]> kv !! data_key x = kv !! data_key x /\
  <[done_key doneID := v]> kv !! block_key x = kv !! block_key x /\
  <[done_key doneID := v]> kv !! ttl_key x = kv !! ttl_key x.
Proof. split_and!; by other_key. Qed.

Lemma done_left_put st : 
  done_left (set_kv (<[done_key doneID := "false"]> (t_kv st)) st) <= done_left st + 4.
Proof. unfold done_left. simpl. do 2 case_decide; lia. Qed.

Section done.
Context `{Regexp} `{Fmt} `{GoRange}.
Context (args : list string) (env : string -> option string).

Lemma good_done_start st key :
  views_ok st -> t_dones st !! doneID = None -> good st (set_done doneID key DoneRuns st).
Proof.
  intros V Hd. apply good_main; try done. unfold rest_left, done_left, set_done. cbn [t_phase t_kv t_dones t_events set_dones].
  rewrite lookup_insert_eq, Hd. simpl. case_decide; lia.
Qed.

Lemma good_done_puts st key :
  views_ok st -> t_dones st !! doneID = Some (key, DoneRuns) -> t_kv st !! done_key doneID = Some "false" ->
  good st (set_done doneID key DoneReporting (set_kv (<[done_key doneID := "true"]> (t_kv st)) st)).
Proof.
  intros V Hd Hf. apply good_main; try done; [intros x; apply elsewhere_done|].
  unfold rest_left, done_left, set_done. cbn [t_phase t_kv t_dones t_events set_dones set_kv].
  rewrite !lookup_insert_eq, Hd, Hf. simpl. lia.
Qed.

Lemma good_done_report st key evs :
  views_ok st -> t_dones st !! doneID = Some (key, DoneReporting) ->
  report args env doneRuleID (id_attributes key doneID) (t_events st) = Some evs ->
  good st (set_dones (delete doneID (t_dones st)) (set_events evs st)) /\ evs = t_events st ++ [done_event].
Proof.
  intros V Hd ->%report_appends. change (sanitize_event _) with (sanitize_event done_event). rewrite done_event_reported.
  split; [|done]. apply good_main; try done. unfold rest_left, done_left. cbn [t_phase t_kv t_dones t_events set_dones set_events].
  rewrite lookup_delete_eq, Hd, length_app. simpl. lia.
Qed.
End done.

(** ** Every step keeps the invariants and every run ends *)
Lemma main_inv_same st st' :
  main_inv st -> t_phase st' = t_phase st -> t_received st' = t_received st -> t_panicked st' = t_panicked st ->
  main_inv st'.
Proof. intros [Hp Hn Hf Ho] Ep Er Eo. split; by rewrite ?Ep, ?Er, ?Eo. Qed.

Lemma done_inv_same st st' :
  done_inv st -> (t_phase st' = AwaitDone -> t_phase st = AwaitDone) ->
  (forall x, t_kv st' !! done_key x = t_kv st !! done_key x) -> t_dones st' = t_dones st ->
  (t_phase st' = AwaitDone -> done_event ∈ t_events st -> done_event ∈ t_events st') -> done_inv st'.
Proof.
  intros [Ho Hr Hw] Hph Hkv Hd He. split.
  - intros id v. rewrite Hkv. apply Ho.
  - intros id p. rewrite Hd, Hkv. apply Hr.
  - intros Hp. rewrite Hkv, Hd. destruct (Hw (Hph Hp)) as [|[|]]; auto.
Qed.

Lemma done_runs_id st id p : done_inv st -> t_dones st !! id = Some p -> id = doneID.
Proof. intros I Hp. by destruct (di_runs _ I _ _ Hp). Qed.

Lemma done_inv_trigger st :
  done_inv st -> done_inv (set_phase AwaitDone (set_kv (<[done_key doneID := "false"]> (t_kv st)) st)).
Proof.
  intros [Ho Hr Hw]. split; cbn [t_phase t_kv t_dones t_events set_phase set_kv].
  - intros x v. destruct (decide (x = doneID)) as [->|Hne]; [done|]. other_key. eauto.
  - intros id p Hp. rewrite lookup_insert_eq. split; [by eapply Hr | done].
  - intros _. left. by rewrite lookup_insert_eq.
Qed.

Lemma done_inv_start st key :
  done_inv st -> t_kv st !! done_key doneID = Some "false" -> done_inv (set_done doneID key DoneRuns st).
Proof.
  intros [Ho Hr Hw] Hf. split; cbn [t_phase t_kv t_dones t_events set_done set_dones]; [done | | by left].
  intros id p. destruct (decide (id = doneID)) as [->|Hne]; [done|]. rewrite lookup_insert_ne by done. apply Hr.
Qed.

Lemma done_inv_puts st key :
  done_inv st -> done_inv (set_done doneID key DoneReporting (set_kv (<[done_key doneID := "true"]> (t_kv st)) st)).
Proof.
  intros [Ho Hr Hw]. split; cbn [t_phase t_kv t_dones t_events set_done set_dones set_kv].
  - intros x v. destruct (decide (x = doneID)) as [->|Hne]; [done|]. other_key. eauto.
  - intros id p. destruct (decide (id = doneID)) as [->|Hne].
    + rewrite lookup_insert_eq. by intros [= <-].
    + rewrite lookup_insert_ne by done. intros Hp. by destruct (Hr _ _ Hp).
  - intros _. right. left. exists key. by rewrite lookup_insert_eq.
Qed.

Lemma done_inv_report st :
  done_inv st -> done_inv (set_dones (delete doneID (t_dones st)) (set_events (t_events st ++ [done_event]) st)).
Proof.
  intros [Ho Hr Hw]. split; cbn [t_phase t_kv t_dones t_events set_dones set_events]; [done | |].
  - intros id p [_ Hp]%lookup_delete_Some. by apply Hr.
  - intros _. right. right. set_solver.
Qed.

(** [WaitForCallback] passes over the reports of other callbacks. *)
Lemma WaitForCallback_single ctxErr ev :
  WaitForCallback ctxErr false [ev] doneRuleID (Some {["id" := doneID]}) =
  if decide (ev = done_event) then Some (None, []) else None.
Proof.
  rewrite WaitForCallback_find. unfold done_event. cbn [list_find].
  by destruct (decide (ev = _)).
Qed.

Section runs.
Context `{Regexp} `{Fmt} `{GoRange}.
Context (args : list string) (env : string -> option string) (pollRule doneRule : DynamicRule).

(** When the rules are true; [test_poll_due] and [test_done_due] show it of the
    program's rules. *)
Hypothesis (poll_due : forall key id kv, due_for pollRule (id_attributes key id) kv <->
  is_Some (kv !! data_key id) /\ kv !! block_key id = None /\ kv !! ttl_key id = None).
Hypothesis (done_due : forall key id kv, due_for doneRule (id_attributes key id) kv <->
  kv !! done_key id = Some "false").

Abbreviation step := (test_step args env pollRule doneRule).

(** A step of a worker with the polling rule. *)
Lemma worker_inv st st' id :
  test_inv st -> t_phase st' = t_phase st -> t_received st' = t_received st -> t_panicked st' = t_panicked st ->
  t_dones st' = t_dones st -> elsewhere id (t_kv st) (t_kv st') ->
  (done_event ∈ t_events st -> done_event ∈ t_events st') -> good st st' ->
  test_inv st' /\ test_left st' < test_left st.
Proof.
  intros [V M D] Hp Hr Ho Hd [_ Hkv] He [V' Hl]. split; [split | done]; [done | by eapply main_inv_same |].
  apply (done_inv_same st); [done | by rewrite Hp | done | done | by intros _].
Qed.

(** A step of the main goroutine that does not start to wait for the report. *)
Lemma main_steps st st' :
  test_inv st -> good st st' -> main_inv st' -> t_phase st' <> AwaitDone -> t_dones st' = t_dones st ->
  (forall x, t_kv st' !! done_key x = t_kv st !! done_key x) -> test_inv st' /\ test_left st' < test_left st.
Proof.
  intros [V M D] [V' Hl] M' Hph Hd Hkv. split; [split | done]; [done | done |].
  by apply (done_inv_same st).
Qed.

Lemma main_inv_put st i kv :
  main_inv st -> t_phase st = Putting i -> i < idCount -> main_inv (set_phase (Putting (S i)) (set_kv kv st)).
Proof. intros [M1 M2 M3 M4] Hph Hi. rewrite Hph in M1. split; simpl; try done. split; [lia | by destruct M1]. Qed.

Lemma main_inv_wait st : main_inv st -> t_phase st = Putting idCount -> main_inv (set_phase (Waiting 0) st).
Proof.
  intros [M1 M2 M3 M4] Hph. rewrite Hph in M1. destruct M1 as [_ M1].
  split; simpl; rewrite ?M1; [split; [lia | done] | constructor | done | done].
Qed.

Lemma main_inv_receive st k id polls :
  main_inv st -> t_phase st = Waiting k -> k < idCount -> id ∉ t_received st ->
  main_inv (set_phase (Waiting (S k)) (set_received (t_received st ++ [id]) (set_polls polls st))).
Proof.
  intros [M1 M2 M3 M4] Hph Hk Hnew. rewrite Hph in M1. split; simpl; try done.
  - rewrite length_app. simpl. lia.
  - apply NoDup_app. split_and!; [done | set_solver | apply NoDup_singleton].
Qed.

(** The phases after the last ID. *)
Definition polled_phase (ph : main_phase) : bool :=
  match ph with Putting _ | Waiting _ => false | _ => true end.

Lemma main_inv_after st ph :
  main_inv st -> t_phase st = Waiting idCount \/ polled_phase (t_phase st) = true -> polled_phase ph = true ->
  (forall resp, ph = Failed (BadResponses resp) -> checkWatchResp resp = None) -> main_inv (set_phase ph st).
Proof.
  intros [M1 M2 M3 M4] Hph Hph' Hf. split; simpl; try done.
  assert (length (t_received st) = idCount) as Hl by (destruct Hph, (t_phase st); naive_solver). by destruct ph.
Qed.

(** A step that only moves the main goroutine on. *)
Lemma main_moves st ph evs :
  test_inv st -> puts ph = puts (t_phase st) -> ph <> AwaitDone -> length evs <= length (t_events st) ->
  main_left ph < main_left (t_phase st) -> main_inv (set_phase ph st) ->
  test_inv (set_phase ph (set_events evs st)) /\ test_left (set_phase ph (set_events evs st)) < test_left st.
Proof.
  intros I Hp Hph He Hl M. apply main_steps; try done.
  - apply good_main; [by apply ti_views | done..|]. unfold rest_left, done_left.
    cbn [t_phase t_kv t_dones t_events set_phase set_events]. lia.
  - destruct M as [M1 M2 M3 M4]. by split.
Qed.

(** The plain rule is triggered. *)
Lemma trigger_inv st :
  test_inv st -> t_phase st = Waiting idCount ->
  let st' := set_phase AwaitDone (set_kv (<[done_key doneID := "false"]> (t_kv st)) st) in
  test_inv st' /\ test_left st' < test_left st.
Proof.
  intros [V M D] Hph st'. assert (good st st') as [V' Hl].
  { apply good_main; try done; [by rewrite Hph | intros x; apply elsewhere_done|].
    pose proof (done_left_put st) as Hd. change (done_left (set_kv _ _)) with (done_left st') in Hd.
    unfold rest_left. rewrite Hph. change (t_events st') with (t_events st). simpl. lia. }
  split; [split | done]; [done | | by apply done_inv_trigger].
  apply (main_inv_same (set_phase AwaitDone st)); try done. apply main_inv_after; try done. by left.
Qed.

(** A step of a worker with the plain rule. *)
Lemma plain_inv st st' :
  test_inv st -> t_phase st' = t_phase st -> t_received st' = t_received st -> t_panicked st' = t_panicked st ->
  good st st' -> done_inv st' -> test_inv st' /\ test_left st' < test_left st.
Proof. intros [V M D] Hp Hr Ho [V' Hl] D'. split; [split | done]; [done | by eapply main_inv_same | done]. Qed.

(** The main goroutine passes over the report of another callback. *)
Lemma skip_inv st ctxErr ev evs :
  test_inv st -> t_phase st = AwaitDone -> t_events st = ev :: evs ->
  WaitForCallback ctxErr false [ev] doneRuleID (Some {["id" := doneID]}) = None ->
  test_inv (set_events evs st) /\ test_left (set_events evs st) < test_left st.
Proof.
  intros [V M D] Hph He Hw. rewrite WaitForCallback_single in Hw. case_decide as Hev; [done|].
  assert (good st (set_events evs st)) as G.
  { apply good_main; try done. unfold rest_left, done_left. cbn [t_phase t_kv t_dones t_events set_events].
    rewrite He. simpl. lia. }
  apply plain_inv; try done. apply (done_inv_same st); try done. simpl. rewrite He. set_solver.
Qed.

Lemma test_step_inv st st' : step st st' -> test_inv st -> test_inv st' /\ test_left st' < test_left st.
Proof.
  intros Hs I. pose proof (ti_views _ I) as V. pose proof (ti_main _ I) as M. pose proof (ti_done _ I) as D.
  destruct Hs as [st i Hph Hi|st Hph|st key id Hp Hdue|st key id pc kv ps pc' Hp Hcb|st key id pc kv ps Hp Hcb
    |st key id pc kv ps Hp Hcb|st key id pc kv ps Hp Hcb|st k key id Hph Hk Hp|st key id grant pf Hp|st key id evs Hp Hev
    |st resp Hph Hresp|st resp Hph Hresp|st key id Hd Hdue|st key id kv Hd Hcb|st key id evs Hd Hev
    |st ctxErr ev evs Hph Hev Hw|st ctxErr ev evs Hph Hev Hw|st Hph|st ctxErr polls err Hph Hsh|st key id v Hv].
  - rewrite data_path_of by done. apply main_steps; try done; [by apply good_put | by apply main_inv_put |].
    intros x. cbn [t_kv set_phase set_kv]. by other_key.
  - apply (main_moves st (Waiting 0) (t_events st)); rewrite ?Hph; try done; [unfold main_left, idCount; lia|].
    by apply main_inv_wait.
  - apply (worker_inv _ _ id); try done. by apply good_start, (poll_due key).
  - destruct (good_callback st key id pc kv ps _ V Hp Hcb). by apply (worker_inv _ _ id).
  - destruct (good_callback st key id pc kv ps _ V Hp Hcb). by apply (worker_inv _ _ id).
  - destruct (good_callback st key id pc kv ps _ V Hp Hcb). by apply (worker_inv _ _ id).
  - by destruct (good_callback st key id pc kv ps _ V Hp Hcb).
  - destruct (good_receive st k key id V Hph Hk Hp) as [Hnew G]. apply main_steps; try done. by apply main_inv_receive.
  - apply (worker_inv _ _ id); try done; [apply put_ttl_elsewhere | by apply good_ttl].
  - apply (worker_inv _ _ id); try done; [|by eapply good_report].
    apply report_appends in Hev as ->. simpl. set_solver.
  - change (ReplaceAll donePath ":id" doneID) with (done_key doneID). by apply trigger_inv.
  - apply (main_moves st (Failed (BadResponses resp)) (t_events st)); rewrite ?Hph; try done; [simpl; lia|].
    apply main_inv_after; try done; [by left | naive_solver].
  - apply done_due in Hdue. pose proof (di_only _ D _ _ Hdue) as ->.
    apply plain_inv; [done.. | by apply good_done_start | by apply done_inv_start].
  - rewrite done_callback_ok in Hcb. injection Hcb as <-. destruct (di_runs _ D _ _ Hd) as [-> Hf].
    apply plain_inv; [done.. | by apply good_done_puts, Hf | by apply done_inv_puts].
  - destruct (di_runs _ D _ _ Hd) as [-> _]. destruct (good_done_report args env st key evs V Hd Hev) as [G ->].
    apply plain_inv; [done.. | done | by apply done_inv_report].
  - by apply (skip_inv st ctxErr ev evs).
  - apply main_moves; rewrite ?Hph; try done; [rewrite Hev; simpl; lia | simpl; lia |].
    apply main_inv_after; try done. right. by rewrite Hph.
  - apply (main_moves st (Failed NoReport) (t_events st)); rewrite ?Hph; try done; [simpl; lia|].
    apply main_inv_after; try done. right. by rewrite Hph.
  - apply (main_moves st Finished (t_events st)); rewrite ?Hph; try done; [simpl; lia|].
    apply main_inv_after; try done. right. by rewrite Hph.
  - rewrite ttl_pattern_key in *. apply (worker_inv _ _ id); try done. by eapply good_expires.
Qed.

Lemma test_reachable store st : rtc step (test_init store) st -> test_inv st /\ test_left st <= 253.
Proof.
  intros Hr. eapply (rtc_invariant step (fun st => test_inv st /\ test_left st <= 253)); [|exact Hr|].
  - intros a b Hs [I Hl]. destruct (test_step_inv _ _ Hs I). split; [done | lia].
  - rewrite test_init_left. split; [apply test_init_inv | done].
Qed.

Lemma test_sn st : test_inv st -> sn step st.
Proof.
  remember (test_left st) as n eqn:Hn. revert st Hn. induction n as [n IH] using lt_wf_ind.
  intros st -> I. constructor. intros st' Hs. destruct (test_step_inv _ _ Hs I). by eapply IH.
Qed.

(** ** No run gets stuck *)
(** Every ID has been received once, five polls are counted for it and its
    polling is blocked. *)
Definition all_polled (st : test_state) : Prop :=
  t_received st ≡ₚ ids /\
  forall id, id ∈ ids -> t_ps st !! id = Some 5%Z /\ t_kv st !! data_key id = Some "5" /\
    t_kv st !! block_key id = Some "done".

Definition failed (ph : main_phase) : Prop := exists f, ph = Failed f.

Lemma received_view st id :
  test_inv st -> id ∈ t_received st ->
  id ∈ ids /\ exists t pc, view st id = mkView true true (Some 5%Z) (Some (pretty 5%Z)) (Some "done") t pc.
Proof.
  intros I Hrc. assert (v_received (view st id) = true) as Hv by (by apply bool_decide_eq_true).
  destruct (ti_views _ I id) as [Hin Hout]. destruct (decide (id ∈ ids)) as [Hid|Hid].
  - split; [done|]. destruct (Hin Hid); simpl in Hv; try done. eauto.
  - rewrite (Hout Hid) in Hv. done.
Qed.

(** An ID is still missing, or all have been received. *)
Lemma received_cases st :
  test_inv st -> (length (t_received st) < idCount /\ exists id, id ∈ ids /\ id ∉ t_received st) \/
                 (length (t_received st) = idCount /\ t_received st ≡ₚ ids).
Proof.
  intros I. pose proof (mi_nodup _ (ti_main _ I)) as Hnd.
  assert (forall id, id ∈ t_received st -> id ∈ ids) as Hsub by (intros id Hid; by destruct (received_view st id I Hid)).
  destruct (decide (Forall (fun id => id ∈ t_received st) ids)) as [Hall|Hnot].
  - right. rewrite Forall_forall in Hall. assert (t_received st ≡ₚ ids) as Hp.
    { apply NoDup_Permutation; [done | apply NoDup_ids |]. intros id. split; [apply Hsub | apply Hall]. }
    split; [by rewrite Hp | done].
  - left. apply not_Forall_Exists in Hnot as (id & Hid & Hnf)%Exists_exists; [|apply _]. split; [|eauto].
    assert (id :: t_received st ⊆+ ids) as Hle%submseteq_length.
    { apply NoDup_submseteq; [by constructor|]. intros x [->|Hx]%elem_of_cons; auto. }
    change (length ids) with idCount in Hle. simpl in Hle. lia.
Qed.

Lemma polled_all st : test_inv st -> polled_phase (t_phase st) = true -> all_polled st.
Proof.
  intros I Hph. pose proof (mi_phase _ (ti_main _ I)) as M.
  destruct (received_cases st I) as [[Hl _]|[_ Hp]]; [by destruct (t_phase st); try done; lia|].
  split; [done|]. intros id Hid. rewrite <- Hp in Hid. destruct (received_view st id I Hid) as (_ & t & pc & Hv).
  unfold view in Hv. by injection Hv as _ _ -> -> -> _ _.
Qed.

(** The step that a worker or a lease can do next for an ID that has not been
    received; when the callback is sending, the main goroutine receives it. *)
Lemma unfinished_step st id :
  test_inv st -> length (t_events st) < eventBuffer -> id ∈ ids -> id ∉ t_received st ->
  (forall i, t_phase st <> Putting i) ->
  (exists st', step st st' /\ t_phase st' = t_phase st) \/ exists key, t_polls st !! id = Some (key, PollSending).
Proof.
  intros I Hroom Hid Hrc Hph. pose proof (ti_views _ I) as V. pose proof (proj1 (V id) Hid) as Hok.
  assert (v_received (view st id) = false) as Hr by (by apply bool_decide_eq_false).
  assert (v_written (view st id) = true) as Hw.
  { apply bool_decide_eq_true. unfold written. destruct (t_phase st) as [i| | | | |]; [by destruct (Hph i)|done..]. }
  destruct (t_polls st !! id) as [[key [pc| | |]]|] eqn:Hp; [left| right; eauto | left..].
  - destruct (poll_callback (id_attributes key id) pc (t_kv st) (t_ps st)) as [[kv ps] r] eqn:Hcb.
    destruct (good_callback st key id pc kv ps r V Hp Hcb) as [_ Hg]. destruct r;
      [eexists; split; [by eapply poll_runs | done] | eexists; split; [by eapply poll_sends | done]
      | eexists; split; [by eapply poll_returns | done] | done].
  - eexists. split; [by eapply (poll_ttl _ _ _ _ st key id (inl EmptyString) false) | done].
  - destruct (report_received args env key id pollRuleID (t_events st) Hroom) as [evs Hev].
    eexists. split; [by eapply poll_report | done].
  - destruct (t_kv st !! ttl_key id) as [t|] eqn:Ht.
    { eexists. split; [by apply (ttl_expires _ _ _ _ st EmptyString id t); rewrite ttl_pattern_key | done]. }
    eexists. split; [eapply (poll_start _ _ _ _ st EmptyString id Hp) | done]. apply poll_due.
    assert (v_poll (view st id) = None) as Hpo by (unfold view; simpl; by rewrite Hp).
    assert (v_data (view st id) <> None /\ v_block (view st id) = None) as [Hd Hb].
    { destruct Hok; simpl in Hpo, Hr, Hw; done. }
    split_and!; [by apply not_eq_None_Some | done | done].
Qed.

Lemma await_step st :
  test_inv st -> length (t_events st) < eventBuffer -> t_phase st = AwaitDone ->
  exists st', step st st' /\ (t_phase st' = AwaitDone \/ t_phase st' = ShuttingDown).
Proof.
  intros I Hroom Hph. pose proof (ti_done _ I) as D.
  destruct (t_dones st !! doneID) as [[key []]|] eqn:Hd.
  - eexists. split; [eapply done_puts; [done | apply done_callback_ok] | by left].
  - destruct (report_received args env key doneID doneRuleID (t_events st) Hroom) as [evs Hev].
    eexists. split; [by eapply done_report | by left].
  - destruct (di_wait _ D Hph) as [Hf|[[key Hk]|He]]; [| congruence |].
    + eexists. split; [by apply (done_start _ _ _ _ st EmptyString doneID); [|apply done_due] | by left].
    + destruct (t_events st) as [|ev evs] eqn:Hev; [by apply elem_of_nil in He|].
      destruct (decide (ev = done_event)) as [Heq|Hne].
      * eexists. split; [eapply (main_finish _ _ _ _ st EmptyString); [done | done |] | by right].
        rewrite WaitForCallback_single. by rewrite decide_True.
      * eexists. split; [eapply (main_skips _ _ _ _ st EmptyString); [done | done |] | by left].
        rewrite WaitForCallback_single. by rewrite decide_False.
Qed.

(** As long as the program has neither failed nor finished it can go on without
    failing. *)
Lemma test_progress st :
  test_inv st -> length (t_events st) < eventBuffer ->
  failed (t_phase st) \/ t_phase st = Finished \/ exists st', step st st' /\ ~ failed (t_phase st').
Proof.
  intros I Hroom. pose proof (mi_phase _ (ti_main _ I)) as M.
  destruct (t_phase st) as [i|k| | | |f] eqn:Hph; [| | | | by right; left | by left; exists f].
  all: right; right.
  - destruct (decide (i = idCount)) as [->|Hne].
    + eexists. split; [by apply main_wait | by intros [f Hf]].
    + eexists. split; [apply (main_put _ _ _ _ st i Hph); lia | by intros [f Hf]].
  - destruct M as [Hk Hl]. destruct (received_cases st I) as [(Hlt & id & Hid & Hnew)|[Hall _]].
    + destruct (unfinished_step st id I Hroom Hid Hnew) as [(st' & Hs & Hp)|[key Hp]]; [by rewrite Hph| |].
      * exists st'. split; [done|]. rewrite Hp, Hph. by intros [f Hf].
      * eexists. split; [eapply (main_receive _ _ _ _ st k key id Hph); [lia | done] | by intros [f Hf]].
    + rewrite Hall in Hl. subst k. eexists.
      split; [by apply (main_trigger _ _ _ _ st (replicate 3 (mkWatchResponse None [mkEvent false EmptyString EmptyString]))) | by intros [f Hf]].
  - destruct (await_step st I Hroom Hph) as (st' & Hs & Hp). exists st'. split; [done|].
    intros [f Hf]. destruct Hp; congruence.
  - eexists. split; [by apply (main_shutdown _ _ _ _ st EmptyString [mkPoll true false] None) | by intros [f Hf]].
Qed.

(** So some continuation finishes. *)
Lemma test_finishes st :
  test_inv st -> test_left st <= 253 -> failed (t_phase st) \/ exists st', rtc step st st' /\ t_phase st' = Finished.
Proof.
  remember (test_left st) as n eqn:Hn. revert st Hn. induction n as [n IH] using lt_wf_ind.
  intros st -> I Hl. destruct (test_progress st I) as [Hf|[Hf|(st' & Hs & Hnf)]]; [| by left | |].
  - (* the buffer of the handler never fills up *)
    unfold test_left, rest_left in Hl. unfold eventBuffer. lia.
  - right. by exists st.
  - right. destruct (test_step_inv _ _ Hs I) as [I' Hlt]. destruct (IH _ Hlt st' eq_refl I') as [|(st'' & Hr & Hf)]; [lia | done |].
    exists st''. split; [by eapply rtc_l | done].
Qed.
End runs.

(** ** The program's engine *)
Section engine.
Context {R : Regexp} {RL : RegexpLaws R} {F : Fmt} {G : GoRange}.

Lemma literal_rule_exists p value : plain_pattern p = true -> exists r, NewEqualsLiteralRule p value = inr r.
Proof.
  intros Hp. unfold NewEqualsLiteralRule, NewCompareLiteralRule.
  match goal with |- exists _, newDynamicRule ?f ?ps ?rp ?attrs = _ =>
    destruct (newDynamicRule_plain f ps rp attrs) as (ms & qs & ->) end; [by apply Forall_singleton | by eexists].
Qed.

(** When the program's rules are true for an ID. *)
Lemma test_poll_due dataRule blockRule ttlRule :
  NewEqualsLiteralRule dataPath None = inr dataRule -> NewEqualsLiteralRule blockPath None = inr blockRule ->
  NewEqualsLiteralRule (polling_namespace pollingNamespace +:+ "ttl") None = inr ttlRule ->
  forall key id kv,
    due_for (NewAndRule [NewAndRule [NewNotRule dataRule; blockRule]; ttlRule]) (id_attributes key id) kv <->
    is_Some (kv !! data_key id) /\ kv !! block_key id = None /\ kv !! ttl_key id = None.
Proof.
  intros Hd Hb Ht key id kv. unfold due_for. rewrite NewAndRule_holds. cbn [forallb].
  rewrite NewAndRule_holds. cbn [forallb].
  rewrite NewNotRule_holds, (literal_rule_holds _ _ _ _ _ Hd), (literal_rule_holds _ _ _ _ _ Hb),
    (literal_rule_holds _ _ _ _ _ Ht), data_pattern_key, block_pattern_key, ttl_pattern_key.
  rewrite !andb_true_iff, negb_true_iff, bool_decide_eq_false, !bool_decide_eq_true, <- not_eq_None_Some. tauto.
Qed.

Lemma test_done_due doneRule :
  NewEqualsLiteralRule donePath (Some "false") = inr doneRule ->
  forall key id kv, due_for doneRule (id_attributes key id) kv <-> kv !! done_key id = Some "false".
Proof.
  intros Hr key id kv. unfold due_for.
  by rewrite (literal_rule_holds _ _ _ _ _ Hr), done_pattern_key, bool_decide_eq_true.
Qed.

(** The registrations of the program. *)
Definition poll_registration (pollRule : DynamicRule) : registration (taskCallback test_callback) context :=
  mkRegistration (mkRuleRef _ 1 pollRule) "/rule_locks/rulesEnginePolling/:id/lock"
    (doRuleCallback pollCallback 2 "/rulesEnginePolling/:id/ttl") [RuleID "/rulesEnginePolling/:id/"].

Definition done_registration (doneRule : DynamicRule) : registration (taskCallback test_callback) context :=
  mkRegistration (mkRuleRef _ 2 doneRule) "/rulesEngineDone/:id" (userCallback doneCallback) [RuleID doneRuleID].

Lemma addRuleWithIface_plain fuel alloc (e : baseEngine (taskCallback test_callback) context) regs lockTimeout cp reg :
  engine_with ∅ false lockTimeout cp regs e ->
  ro_ruleID (makeRuleOptions (reg_options reg)) <> defaultRuleID ->
  exists e', addRuleWithIface fuel alloc ∅ e (reg_rule reg) (reg_lockPattern reg) (reg_callback reg) (reg_options reg) =
      Done e' /\ engine_with ∅ false lockTimeout cp (regs ++ [reg]) e'.
Proof.
  intros He Hid. unfold addRuleWithIface. rewrite decide_False by (rewrite map_size_empty; lia).
  destruct (add_refs_spec ∅ false lockTimeout cp regs e [reg_rule reg] (reg_lockPattern reg) (reg_callback reg)
              (reg_options reg) He) as (e' & Ha & He'); [intros n c Hc; by rewrite lookup_empty in Hc | done |].
  exists e'. split; [done|]. by destruct reg.
Qed.

(** Building the engine succeeds and registers the two rules. *)
Lemma test_engine_built fuel dataRule blockRule ttlRule doneRule :
  NewEqualsLiteralRule dataPath None = inr dataRule -> NewEqualsLiteralRule blockPath None = inr blockRule ->
  NewEqualsLiteralRule (polling_namespace pollingNamespace +:+ "ttl") None = inr ttlRule ->
  NewEqualsLiteralRule donePath (Some "false") = inr doneRule ->
  exists e, test_engine fuel = Done e /\
    engine_with ∅ false 30 test_context
      [poll_registration (NewAndRule [NewAndRule [NewNotRule dataRule; blockRule]; ttlRule]);
       done_registration doneRule] e.
Proof.
  intros Hd Hb Ht Hdone. unfold test_engine, test_preReq. rewrite Hd, Hb. cbn [check mbind outcome_bind].
  unfold AddPolling. rewrite Ht.
  destruct (addRuleWithIface_plain fuel 2 (newV3Engine test_engine_options) [] 30 test_context
    (poll_registration (NewAndRule [NewAndRule [NewNotRule dataRule; blockRule]; ttlRule]))) as (e1 & H1 & He1);
    [apply engine_new | done |].
  simpl in H1. cbn [ref_rule].
  change ("/rule_locks" +:+ polling_namespace pollingNamespace +:+ "lock")
    with "/rule_locks/rulesEnginePolling/:id/lock".
  change (polling_namespace pollingNamespace +:+ "ttl") with "/rulesEnginePolling/:id/ttl".
  change (polling_namespace pollingNamespace) with "/rulesEnginePolling/:id/".
  rewrite H1. simpl. rewrite Hdone.
  destruct (addRuleWithIface_plain fuel 3 e1 _ 30 test_context (done_registration doneRule) He1)
    as (e2 & H2 & He2); [done|]. simpl in H2. exists e2. split; [exact H2 | exact He2].
Qed.

(** C9: What every run of the integration test does, whatever the store held
    before, whichever port it is given and whatever its environment was, as long
    as the operations of the etcd client and the requests to the webhook
    succeed.  Its engine is built without a panic and has the polling rule and
    the plain rule.  From the start of the engine on, however the steps of the
    main goroutine, of the callbacks, their reports over the webhook and the
    expiring leases interleave, and whichever leases are not granted or TTL keys
    not put: every run ends; the polling callback never panics (the data in the
    store is the count it loaded, which never exceeds its maximum); the main
    goroutine fails only on watch responses that do not pass its check or when
    the ten seconds are over before it has found the report; once the polling is
    over each ID has been received once, with five polls counted for it and its
    polling blocked; and from every state in which the program has not failed a
    run leads to its end, with the engine shut down, so that a run that cannot
    go on has finished or failed in one of the two ways. *)
Theorem integration_test_passes (args : list string) (env : string -> option string) (fuel : nat) (store : gmap string string) :
  exists pollRule doneRule e,
    test_engine fuel = Done e /\
    engine_with ∅ false 30 test_context [poll_registration pollRule; done_registration doneRule] e /\
    sn (test_step args env pollRule doneRule) (test_init store) /\
    forall st, rtc (test_step args env pollRule doneRule) (test_init store) st ->
      t_panicked st = false /\
      (forall resp, t_phase st = Failed (BadResponses resp) -> checkWatchResp resp = None) /\
      (polled_phase (t_phase st) = true -> all_polled st) /\
      (failed (t_phase st) \/
       exists st', rtc (test_step args env pollRule doneRule) st st' /\ t_phase st' = Finished).
Proof.
  destruct (literal_rule_exists dataPath None) as [dataRule Hd]; [done|].
  destruct (literal_rule_exists blockPath None) as [blockRule Hb]; [done|].
  destruct (literal_rule_exists (polling_namespace pollingNamespace +:+ "ttl") None) as [ttlRule Ht]; [done|].
  destruct (literal_rule_exists donePath (Some "false")) as [doneRule Hdone]; [done|].
  destruct (test_engine_built fuel _ _ _ _ Hd Hb Ht Hdone) as (e & He & Hreg).
  pose proof (test_poll_due _ _ _ Hd Hb Ht) as Hpoll. pose proof (test_done_due _ Hdone) as Hdue.
  eexists _, doneRule, e. split_and!; [done | done | by eapply test_sn, test_init_inv |].
  intros st Hr. destruct (test_reachable _ _ _ _ Hpoll Hdue store st Hr) as [I Hl].
  split_and!; [apply I | apply I | by apply polled_all | by apply test_finishes].
Qed.
End engine.
