(* ===== verification/Examples.v ===== *)
(** * The theorems at work on concrete inputs *)
(** Each lemma applies one of the theorems about the engine to concrete
    patterns, rules, stores and lockers, with every hypothesis discharged by
    evaluation. *)
From S2P Require Import Prelude GoString Jitter Metrics Attributes Matcher StaticRule DynamicRule Instantiation Expand RuleManager Lock LockCalls Session Etcd Collector Mocks KeyProcessor KeyChannel Crawler Worker Json Listener Shutdown Options Engine Running EndToEnd IntegrationTest IntegrationRun.

#[local] Existing Instance segment_regexp.
#[local] Existing Instance canonical_range.

(** ** Patterns and matchers *)
Definition matcher_for (pattern : string) : regexKeyMatcher :=
  match newRegexKeyMatcher pattern with
  | inr m => m
  | inl _ => mkRegexKeyMatcher segment_regexp [] ∅ pattern
  end.

Definition user_pattern : string := "/user/:name/state".
Definition bob : extendedAttributes := mapAttributes {[ "name" := "bob" ]}.

Ltac by_params := intros n Hn; vm_compute in Hn; apply elem_of_cons in Hn as [->|Hn];
  [eexists; split; vm_compute; reflexivity | by apply elem_of_nil in Hn].

Lemma match_of_format_witness :
  exists m, match_ (matcher_for user_pattern) "/user/bob/state" = Some m /\
    forall n, n ∈ params (pattern_segments user_pattern) -> FindAttribute m n = FindAttribute bob n.
Proof.
  apply (match_of_format user_pattern "/user/bob/state" (matcher_for user_pattern) bob);
    [vm_compute; reflexivity.. | by_params].
Defined.

Definition bob_match : extendedAttributes :=
  regexKeyMatchAttrs (mkRegexKeyMatch ["/user/bob/state"; "bob"] {[ "name" := 1 ]}).

Lemma format_of_match_witness :
  exists before t rest,
    formatPath user_pattern (finderAttributes bob_match) = Some (t, true) /\
    "/x/user/bob/state" = before +:+ t +:+ rest /\
    forall n, n ∈ params (pattern_segments user_pattern) ->
      exists v, FindAttribute bob_match n = Some (Some v) /\ valid_value v = true.
Proof.
  apply (format_of_match user_pattern "/x/user/bob/state" (matcher_for user_pattern) bob_match);
    [vm_compute; reflexivity | vm_compute; reflexivity | | vm_compute; reflexivity].
  change (NoDup ["name"]). apply NoDup_singleton.
Defined.

(** ** Static rules *)
Definition lit_store (k : string) : option string := if decide (k = "/k") then Some "1" else None.

Lemma satisfied_denotes_witness :
  satisfied (lit_rule "/k" "1") (fun k => inr (lit_store k)) = inr (holds lit_store (lit_rule "/k" "1")) /\
  holds lit_store (lit_rule "/k" "1") = true.
Proof.
  split; [|reflexivity].
  apply (satisfied_denotes (lit_rule "/k" "1") (fun k => inr (lit_store k)) lit_store). done.
Defined.

Lemma satisfied_error_witness :
  exists k, k ∈ getKeys (lit_rule "/k" "1") /\ (fun _ : string => inl "down") k = (inl "down" : result (option string)).
Proof. apply (satisfied_error (lit_rule "/k" "1") (fun _ => inl "down") "down"). reflexivity. Defined.

Lemma enhanced_filter_complete_witness :
  exists key, key ∈ getKeys (lit_rule "/k" "1") /\
    q_pass (qSatisfiable (lit_rule "/k" "1") key (lit_store key)) = true.
Proof. apply (enhanced_filter_complete (lit_rule "/k" "1") lit_store); vm_compute; reflexivity. Defined.

(** Both keys have the values of one crossed pair: the rule is true, and passed
    over for both. *)
Lemma enhanced_filter_incomplete_witness :
  let store := fun k => if decide (k = "/k") then Some "1" else if decide (k = "/j") then Some "2" else None in
  let r := crossed_rule "/k" "/j" "1" "0" "2" "0" in
  holds store r = true /\ forall key, q_pass (qSatisfiable r key (store key)) = false.
Proof.
  intros store r. destruct (enhanced_filter_incomplete "/k" "/j" "1" "0" "2" "0" store) as (Hr & Hq & _);
    [discriminate.. | reflexivity | reflexivity |]. split; [exact Hr | exact Hq].
Defined.

(** ** Dynamic rules *)
(** The rules "/a/:x = /b/:x" and "/c/:x = /d/:x", and their conjunction. *)
Definition ab_rule : DynamicRule := rule_or_default (NewEqualsRule ["/a/:x"; "/b/:x"]).
Definition cd_rule : DynamicRule := rule_or_default (NewEqualsRule ["/c/:x"; "/d/:x"]).
Definition both_rule : DynamicRule := NewAndRule [ab_rule; cd_rule].

Lemma ab_wf : wf_rule ab_rule.
Proof. apply (NewEqualsRule_wf ["/a/:x"; "/b/:x"]); [done | vm_compute; reflexivity]. Qed.

Lemma cd_wf : wf_rule cd_rule.
Proof. apply (NewEqualsRule_wf ["/c/:x"; "/d/:x"]); [done | vm_compute; reflexivity]. Qed.

Lemma both_wf : wf_rule both_rule.
Proof. apply NewAndRule_wf, Forall_cons_2; [apply ab_wf | apply Forall_singleton, cd_wf]. Qed.

Definition x1 : extendedAttributes :=
  nestingAttributes (regexKeyMatchAttrs (mkRegexKeyMatch ["/a/1"; "1"] {[ "x" := 1 ]})) [].

Definition both_static : staticRule :=
  andStaticRule [equalsRule x1 ["/a/1"; "/b/1"]; equalsRule x1 ["/c/1"; "/d/1"]].

Lemma makeStaticRule_correct_witness :
  exists a, trigger_attrs x1 a /\
    Forall2 (fun p k => Format a p = Some k) (pattern_list both_rule) (getKeys both_static) /\
    forall store, holds store both_static = rule_holds store (attr_env a) both_rule.
Proof.
  apply (makeStaticRule_correct both_rule "/a/1" (Some "v") both_static x1); [apply both_wf | vm_compute; reflexivity].
Defined.

Lemma compound_fully_resolved_witness :
  is_Some (attr_env x1 "x").
Proof.
  apply (compound_fully_resolved [ab_rule; cd_rule] (getPatterns both_rule) (getPrefixes both_rule) "/a/1"
           (Some "v") both_static x1 both_wf ltac:(vm_compute; reflexivity) "/a/:x" "x").
  - change ("/a/:x" ∈ ["/a/:x"; "/b/:x"; "/c/:x"; "/d/:x"]). by left.
  - change ("x" ∈ ["x"]). by left.
Defined.

Lemma plain_all (r : DynamicRule) : forallb plain_pattern (pattern_list r) = true -> plain_rule r.
Proof. intros Hf p Hp. rewrite forallb_forall in Hf. apply Hf. by apply list_elem_of_In. Qed.

Lemma ab_plain : plain_rule ab_rule.
Proof. apply plain_all. vm_compute. reflexivity. Qed.

Lemma cd_plain : plain_rule cd_rule.
Proof. apply plain_all. vm_compute. reflexivity. Qed.

Definition equal_kvs : gmap string string := {[ "/a/1" := "v"; "/b/1" := "v" ]}.

Lemma equal_kvs_no_errors : no_errors equal_kvs.
Proof. apply map_Forall_to_list. vm_compute. repeat constructor; discriminate. Qed.


Lemma ab_uniform : uniform ["x"] ab_rule.
Proof.
  split; [|vm_compute; constructor]. intros p Hp. change (p ∈ ["/a/:x"; "/b/:x"]) in Hp.
  apply elem_of_cons in Hp as [->|Hp]; [|apply list_elem_of_singleton in Hp as ->];
    (split; [vm_compute; reflexivity|]; by change (same_elems ["x"] ["x"])).
Qed.

Definition x_is_1 : extendedAttributes := mapAttributes {[ "x" := "1" ]}.

Lemma x_valid : valid_attrs ["x"] x_is_1.
Proof.
  intros n ->%list_elem_of_singleton. exists "1". split; vm_compute; reflexivity.
Qed.

Lemma ab_triggers : triggers "/a/1" "/a/:x" ab_rule.
Proof. exists 0. split; [vm_compute; reflexivity|]. intros j m Hj. lia. Qed.

Lemma trigger_complete_witness :
  exists sr attr, makeStaticRule ab_rule "/a/1" (Some "v") = Some (Some (sr, attr)) /\ "/a/1" ∈ getKeys sr.
Proof.
  apply (trigger_complete ["x"] ab_rule "/a/1" "/a/:x" (Some "v") x_is_1);
    [apply ab_wf | apply ab_uniform | apply x_valid | vm_compute; reflexivity | apply ab_triggers].
Defined.

(** ** The rule manager *)
Definition two_rules : list ruleRef := [mkRuleRef _ 0 ab_rule; mkRuleRef _ 1 cd_rule].

Definition two_manager : ruleManager :=
  default (newRuleManager ∅ false) (add_all (newRuleManager ∅ false) two_rules).

(** Only whether there is a value is evaluated, not the value. *)
Lemma default_of_some {A} (d : A) (o : option A) : (if o then true else false) = true -> o = Some (default d o).
Proof. by destruct o. Qed.

Lemma managed_add_all constraints enhanced refs rm refs' rm' :
  managed constraints enhanced refs rm -> add_all rm refs' = Some rm' ->
  managed constraints enhanced (refs ++ refs') rm'.
Proof.
  revert refs rm. induction refs' as [|ref refs' IH]; intros refs rm Hm; cbn [add_all].
  { intros [= <-]. by rewrite app_nil_r. }
  destruct (addRule rm ref) as [[rm1 index]|] eqn:Ha; [|done]. simpl. intros Hadd.
  replace (refs ++ ref :: refs') with ((refs ++ [ref]) ++ refs') by (by rewrite <- app_assoc).
  eapply IH; [|done]. by eapply managed_add.
Qed.

Lemma two_managed : managed ∅ false two_rules two_manager.
Proof.
  apply (managed_add_all ∅ false [] (newRuleManager ∅ false) two_rules); [apply managed_new|].
  apply default_of_some. vm_compute. reflexivity.
Qed.

Lemma two_distinct : NoDup (ref_ptr <$> two_rules).
Proof. change (NoDup [0; 1]). apply (bool_decide_unpack _). done. Qed.

Lemma two_usable : Forall (fun ref => usable (ref_rule ref)) two_rules.
Proof.
  apply Forall_cons_2; [|apply Forall_singleton]; split_and!;
    [apply ab_wf | apply ab_plain | exact I | apply cd_wf | apply cd_plain | exact I].
Qed.

Lemma manager_invariant_witness : manager_inv ∅ false two_rules two_manager.
Proof. apply manager_invariant. apply two_managed. Defined.

Lemma watch_covers_keys_witness :
  exists q, is_Some (rm_prefixes two_manager !! q) /\ HasPrefix "/a/1" q = true.
Proof.
  apply (watch_covers_keys ∅ false two_rules two_manager (mkRuleRef _ 0 ab_rule) "/a/:x" "/a/1" x_is_1);
    [apply two_managed | by left | apply ab_wf | change ("/a/:x" ∈ ["/a/:x"; "/b/:x"]); by left
    | vm_compute; reflexivity | vm_compute; reflexivity | intros n c _ Hc; by rewrite lookup_empty in Hc
    | vm_compute; reflexivity].
Defined.

Definition ab_static : staticRule := equalsRule x1 ["/a/1"; "/b/1"].

Lemma getStaticRules_exact_witness :
  (ab_static, 0) ∈ [(ab_static, 0)] <->
  exists ref attr, two_rules !! 0 = Some ref /\
    Exists (fun p => Count "/a/1" slash = Count p slash) (getPatterns (ref_rule ref)) /\
    makeStaticRule (ref_rule ref) "/a/1" (Some "v") = Some (Some (ab_static, attr)) /\
    rule_filter false ab_static "/a/1" (Some "v") = true.
Proof.
  apply (getStaticRules_exact ∅ false two_rules two_manager "/a/1" (Some "v") [(ab_static, 0)] ab_static 0);
    [apply two_managed | apply two_distinct | vm_compute; reflexivity].
Defined.

(** ** Locks *)
Definition metered : metricLocker mapLocker := mkMetricLocker newMapLocker "map" [] [].

Lemma unlock_errors_not_counted_witness :
  unlockErrors (fst (Lock 0%Z metered "/k" [])) = unlockErrors metered.
Proof.
  apply (unlock_errors_not_counted (S := mapLocker) (L := toggleLock) metered
           (fst (Lock 0%Z metered "/k" [])) [("/k", mkToggleLock "/k")]).
  eapply rtc_l; [|apply rtc_refl]. apply (step_lock 0%Z metered "/k" []). vm_compute. reflexivity.
Defined.

#[local] Instance plain_durations : DurationFmt := {| duration_string := fun _ => "1s" |}.

Lemma cooloff_window_witness :
  (exists l, snd (col_Lock 20 (fold_left attempt [(0%Z, "/k"); (5%Z, "/j")] (NewCoolOffLocker 10)) "/k") = inr l) <->
  forall t, (t, "/k") ∈ [(0%Z, "/k"); (5%Z, "/j")] -> (t + 10 < 20)%Z.
Proof.
  apply (cooloff_window 10 20 "/k" [(0%Z, "/k"); (5%Z, "/j")]).
  unfold in_order. repeat (apply SSorted_cons || apply SSorted_nil || constructor); simpl; lia.
Defined.

(** Another session holds the key, so the lock is refused. *)
Definition contended : smallEtcd := mkSmallEtcd 1 [0] {[ "/k" := 0 ]}.
Definition own_session_locker : v3Locker smallEtcd := NewSessionLocker small_new 5 true true contended.

Lemma refused_lock_leaks_session_witness :
  live_sessions (v3_etcd (fst (Lock 0%Z own_session_locker "/k" []))) =
  S (live_sessions (v3_etcd own_session_locker)).
Proof.
  apply (refused_lock_leaks_session own_session_locker (fst (Lock 0%Z own_session_locker "/k" []))
           live_sessions 0 "/k" [] "mutex: Locked by another session" (fst (small_new contended)) 1);
    [apply small_session_count | reflexivity | reflexivity].
Defined.

Lemma session_singleton_witness :
  waiting (mkSessionManager (Some 0) [0]) = [0] /\
  forall s, s ∈ [0] -> s ∉ ([] : list nat) -> sm_session (mkSessionManager (Some 0) [0]) = Some s.
Proof.
  apply (session_singleton (mkWorld (mkSessionManager (Some 0) [0]) [0] [])).
  eapply rtc_l; [|apply rtc_refl].
  apply (step_get (mkWorld NewSessionManager [] []) (inr 0) (mkSessionManager (Some 0) [0]) (inr 0));
    [intros s _; apply not_elem_of_nil | reflexivity].
Defined.

(** ** Reading and watching *)
Definition ab_store (k : string) : option string :=
  if decide (k = "/a/1") then Some "v" else if decide (k = "/b/1") then Some "v" else None.

Definition kv_of (store : string -> option string) : KV := {|
  Txn_Then := fun ops => inr ((fun k => match store k with Some v => [(k, v)] | None => [] end) <$> ops);
  KV_Get := fun k =>
    let kvs := match store k with Some v => [(k, v)] | None => [] end in inr (length kvs, kvs)
|}.

Lemma kv_of_answers store : answers_from (kv_of store) store.
Proof. split; [by intros ops resps [= <-] | by intros k n kvs [= <- <-]]. Qed.

Lemma kv_of_commits store : commits (kv_of store).
Proof. intros ops. by eexists. Qed.

Definition ab_api : readAPI :=
  match etcdV3ReadAPI_getCachedAPI (kv_of ab_store) ["/a/1"; "/b/1"] with
  | inr api => api
  | inl _ => fun _ => inr None
  end.

Lemma cached_evaluation_witness : satisfied ab_static ab_api = inr (holds ab_store ab_static).
Proof.
  apply (cached_evaluation (kv_of ab_store) ab_store ["/a/1"; "/b/1"] ab_api ab_static);
    [apply kv_of_answers | reflexivity | intros k Hk; exact Hk].
Defined.

Lemma watcher_delivers_events_witness :
  processed (watcher_loop 5 (fun _ => false) (fun _ => 0%Z) 0 newEtcdV3KeyWatcher
    [SelEvents [mkEvent false "/a" "1"; mkEvent true "/b" EmptyString]; SelClosed]) =
  [("/a", Some "1"); ("/b", None)].
Proof.
  apply (watcher_delivers_events 5 (fun _ => false) (fun _ => 0%Z)
    [SelEvents [mkEvent false "/a" "1"; mkEvent true "/b" EmptyString]; SelClosed]); [vm_compute; lia | done].
Defined.

(** The stop flag is set before the second iteration: the rest is dropped. *)
Example watcher_stopped :
  processed (watcher_loop 5 (fun i => bool_decide (1 <= i)) (fun _ => 0%Z) 0 newEtcdV3KeyWatcher
    [SelEvents [mkEvent false "/a" "1"; mkEvent true "/b" EmptyString]]) = [("/a", Some "1")].
Proof. reflexivity. Qed.

(** ** The key processor *)
Definition ab_processor : v3KeyProcessor nat nat :=
  mkV3KeyProcessor
    (mkBaseKeyProcessor {[ 0 := 30; 1 := 30 ]} {[ 0 := "/lock/:x"; 1 := "/lock2/:x" ]}
       {[ 0 := "ab"; 1 := "cd" ]} two_manager)
    {[ 0 := 10; 1 := 11 ]}.

Definition ab_work : v3RuleWork nat nat :=
  mkV3RuleWork "ab" ab_static 0 x1 ∅ (Some 10) "/lock/1" "/lock/:x" (Some 30).

Lemma ab_holds env :
  "/a/1" ∈ (pattern_key env <$> pattern_list ab_rule) -> rule_holds ab_store env ab_rule = true.
Proof.
  change (pattern_key env <$> pattern_list ab_rule)
    with ["/a/" +:+ (default ":x" (env "x") +:+ EmptyString); "/b/" +:+ (default ":x" (env "x") +:+ EmptyString)].
  rewrite !app_str_nil_r. intros [Heq|Heq%list_elem_of_singleton]%elem_of_cons; [|done].
  change (rule_holds ab_store env ab_rule)
    with (rule_holds ab_store (fun n => env n) (rule_or_default (NewEqualsRule ["/a/:x"; "/b/:x"]))).
  destruct (env "x") as [v|] eqn:Hx; [|done]. simpl in Heq. injection Heq as <-.
  vm_compute. by rewrite Hx.
Qed.

Lemma isWork_exact_witness : true = true <-> [ab_work] <> [].
Proof.
  apply (isWork_exact ab_processor "/a/1" (Some "v") equal_kvs ∅ true [ab_work] ["ab"]);
    [|vm_compute; reflexivity|vm_compute; reflexivity].
  intros rules rule i Hr Hin.
  assert (Some rules = Some [(ab_static, 0)]) as Heq by (rewrite <- Hr; vm_compute; reflexivity).
  injection Heq as ->. apply list_elem_of_singleton in Hin as [= -> ->]. by eexists.
Defined.

(** ** The workers *)
Lemma x1_total : attr_total x1.
Proof.
  intros n. unfold FindAttribute, x1. simpl. unfold km_lookup. simpl.
  destruct (decide (n = "x")) as [->|Hn]; [by eexists|].
  rewrite lookup_singleton_ne by done. by eexists.
Qed.

Lemma doWork_runs_callback_witness :
  exists attrMap,
    perform (mkAnswers (inr (fun k => inr (ab_store k))) false (inr (mkToggleLock "/lock/1")) false)
      (doWork true ab_work) =
    [ActLock "/lock/1" (mkToggleLock "/lock/1"); ActCallback ab_work attrMap;
     ActCallbackDone "ab"; ActUnlock (mkToggleLock "/lock/1")].
Proof.
  apply (doWork_runs_callback ab_work true false (fun k => inr (ab_store k)) (mkToggleLock "/lock/1") x1);
    [reflexivity | apply x1_total | vm_compute; reflexivity].
Defined.

(** The work as the worker "w" hands it to the callback. *)
Definition ab_work_w : v3RuleWork nat nat :=
  mkV3RuleWork "ab" ab_static 0 x1 {[ "rule_worker" := "w" ]} (Some 10) "/lock/1" "/lock/:x" (Some 30).

Definition ab_ghost : ghost :=
  mkGhost (Some ("/lock/1", mkToggleLock "/lock/1")) (Some (fun k => inr (ab_store k))) (Some false).

(** One worker that has come to the callback. *)
Definition in_callback : mapLocker * list (worker (CB := nat) (CP := nat) (S := mapLocker) (L := toggleLock)) :=
  (mkMapLocker {[ "/lock/1" := true ]},
   [(DoCallback ab_work_w {[ "x" := "1" ]} (fun panicked : bool =>
       if panicked then DoUnlock (mkToggleLock "/lock/1") (fun _ => Ret)
       else DoUnlock (mkToggleLock "/lock/1") (fun _ => Ret)), ab_ghost, NoCall)]).

Lemma in_callback_reachable : rtc sys_step (newMapLocker, replicate 1 (Ret, idle, NoCall)) in_callback.
Proof.
  eapply rtc_l; [apply (sys_start _ _ 0 idle "w" false (Some ab_work)); reflexivity|].
  eapply rtc_l; [eapply (sys_stopping _ _ 0 _ _ false); reflexivity|].
  eapply rtc_l; [eapply (sys_cached _ _ 0 _ _ _ (inr (fun k => inr (ab_store k)))); reflexivity|].
  eapply rtc_l; [eapply (sys_stopping _ _ 0 _ _ false); reflexivity|].
  eapply rtc_l; [eapply (sys_lock_begin _ _ 0); reflexivity|].
  eapply rtc_l; [eapply (sys_lock _ _ 0 _ _ _ _ _ 0%Z); reflexivity|].
  eapply rtc_l; [eapply (sys_cached _ _ 0 _ _ _ (inr (fun k => inr (ab_store k)))); reflexivity|].
  eapply rtc_l; [eapply (sys_stopping _ _ 0 _ _ false); reflexivity|].
  apply rtc_refl.
Qed.

Lemma callback_guarded_witness :
  (exists l, g_lock ab_ghost = Some ("/lock/1", l)) /\
  (exists api, g_api ab_ghost = Some api /\ satisfied ab_static api = inr true) /\
  g_stopping ab_ghost = Some false.
Proof.
  eapply (callback_guarded newMapLocker (fst in_callback) 1 0 (snd in_callback) ab_work_w {[ "x" := "1" ]}
           _ ab_ghost NoCall in_callback_reachable). reflexivity.
Defined.

Lemma callbacks_exclusive_witness : 0 = 0.
Proof.
  eapply (callbacks_exclusive newMapLocker (fst in_callback) 1 0 0 (snd in_callback) ab_work_w ab_work_w
           {[ "x" := "1" ]} {[ "x" := "1" ]} _ _ ab_ghost ab_ghost NoCall NoCall in_callback_reachable);
    reflexivity.
Defined.

(** ** Shutdown *)
(** [Shutdown] polls once at the start and once after the engine has stopped. *)
Lemma Shutdown_sound_witness : has_exited (components all_stopped) 2.
Proof.
  apply (Shutdown_sound [running crawlerK InBody; running watcherK Selecting; running workerK Selecting]
           [0] [1] [2] "deadline"
           (engine_running [running crawlerK InBody; running watcherK Selecting; running workerK Selecting])
           all_stopped [mkPoll false false; mkPoll true false] None).
  - repeat constructor; discriminate.
  - apply rtc_refl.
  - eapply polled_cons; [apply rtc_refl | reflexivity |].
    eapply (polled_cons _ _ _ _ all_stopped); [|reflexivity | apply polled_nil].
    eapply rtc_subrel; [|apply (follow_steps [3; 0; 0; 2; 2; 2; 0; 0; 1; 1; 1; 2; 1; 1; 0; 0; 0]); vm_compute; reflexivity].
    intros st st' Hs. by left.
  - reflexivity.
  - by right; right; left.
Defined.

(** The only worker is signalled while it works. *)
Lemma worker_stop_hangs_witness :
  let st := mkState [mkComponent workerK true false 0 InBody]
              [Signal 0 :: stopstoppables workerK [0] ++ [SetEngineStopped]] false in
  engine_stop [] [] [0] = [WaitStopped []; WaitStopped []; SetStopping 0] ++ concat (scripts st) /\
  forall st', rtc (engine_step [] [] [0]) st st' -> IsStopped st' = false.
Proof.
  split; [reflexivity|].
  apply (worker_stop_hangs [] [] [] [] 0 [mkComponent workerK true false 0 InBody]). reflexivity.
Defined.

(** ** The engine *)
Definition ab_reg : registration nat nat :=
  mkRegistration (mkRuleRef _ 0 ab_rule) "/lock/:x" 10 [RuleID "ab"].
Definition cd_reg : registration nat nat :=
  mkRegistration (mkRuleRef _ 1 cd_rule) "/lock2/:x" 11 [RuleID "cd"; RuleLockTimeout 5].

Definition add_registration (e : baseEngine nat nat) (reg : registration nat nat) : baseEngine nat nat :=
  match engine_addRule e (reg_rule reg) (reg_lockPattern reg) (reg_callback reg) (reg_options reg) with
  | Some (e', _) => e'
  | None => e
  end.

Definition ab_engine : baseEngine nat nat :=
  add_registration (add_registration (newEngine ∅ false 30 30) ab_reg) cd_reg.

Lemma add_registration_ok constraints enhanced lockTimeout contextProvider regs e reg :
  engine_with constraints enhanced lockTimeout contextProvider regs e ->
  proper_constraints constraints -> ro_ruleID (makeRuleOptions (reg_options reg)) <> defaultRuleID ->
  engine_with constraints enhanced lockTimeout contextProvider (regs ++ [reg]) (add_registration e reg).
Proof.
  intros He Hc Hid.
  destruct (engine_addRule_total _ _ _ _ _ _ (reg_rule reg) (reg_lockPattern reg) (reg_callback reg)
              (reg_options reg) He Hc Hid) as [e' Ha].
  eapply engine_add; [exact He|]. unfold add_registration. by rewrite Ha.
Qed.

Lemma no_constraints : proper_constraints ∅.
Proof. intros n c Hc. by rewrite lookup_empty in Hc. Qed.

Lemma ab_engine_with : engine_with ∅ false 30 30 [ab_reg; cd_reg] ab_engine.
Proof.
  apply (add_registration_ok ∅ false 30 30 [ab_reg]); [|apply no_constraints | discriminate].
  apply (add_registration_ok ∅ false 30 30 []); [apply engine_new | apply no_constraints | discriminate].
Qed.

Lemma engine_consistent_witness :
  managed ∅ false [mkRuleRef _ 0 ab_rule; mkRuleRef _ 1 cd_rule] (e_ruleMgr ab_engine) /\
  (forall key value, getStaticRules (kp_rm (kp_base (e_keyProc ab_engine))) key value =
                     getStaticRules (e_ruleMgr ab_engine) key value) /\
  (forall key value get metadata,
     processKey (e_keyProc ab_engine) key value get metadata =
     processKey (set_kp_manager (e_keyProc ab_engine) (e_ruleMgr ab_engine)) key value get metadata) /\
  configured 30 30 [ab_reg; cd_reg] ab_engine.
Proof. apply (engine_consistent ∅ false 30 30 [ab_reg; cd_reg] ab_engine). apply ab_engine_with. Defined.

Lemma engine_dispatches_witness :
  ab_work ∈ [ab_work] <->
  exists i reg sr attr, [ab_reg; cd_reg] !! i = Some reg /\
    Exists (fun p => Count "/a/1" slash = Count p slash) (getPatterns (ref_rule (reg_rule reg))) /\
    makeStaticRule (ref_rule (reg_rule reg)) "/a/1" (Some "v") = Some (Some (sr, attr)) /\
    rule_filter false sr "/a/1" (Some "v") = true /\ holds ab_store sr = true /\
    dispatchWork (e_keyProc ab_engine) i sr (reg_lockPattern reg) ∅
      (ro_ruleID (makeRuleOptions (reg_options reg))) = Some ab_work.
Proof.
  apply (engine_dispatches ab_engine ∅ false 30 30 [ab_reg; cd_reg] "/a/1" (Some "v") (kv_of ab_store)
           ab_store ∅ [ab_work] ["ab"] ab_work);
    [apply ab_engine_with | apply two_distinct | apply kv_of_answers | apply kv_of_commits
    | vm_compute; reflexivity].
Defined.

Lemma change_is_dispatched_witness :
  exists works ids w,
    processKey (e_keyProc ab_engine) "/a/1" (Some "v") (etcdV3ReadAPI_getCachedAPI (kv_of ab_store)) ∅ =
      Some (works, ids) /\
    w ∈ works /\ work_ruleIndex w = 0 /\ ruleTaskCallback w = Some 10 /\
    FormatWithAttributes "/lock/:x" (finderAttributes (work_attr w)) = Some (work_lockKey w) /\
    "/a/1" ∈ getKeys (work_rule w) /\ holds ab_store (work_rule w) = true.
Proof.
  apply (change_is_dispatched ab_engine ∅ 30 30 [ab_reg; cd_reg] ["x"] 0 ab_reg "/a/1" "/a/:x"
           (Some "v") x_is_1 (kv_of ab_store) ab_store ∅);
    [apply ab_engine_with | apply two_distinct | apply two_usable | reflexivity | apply ab_uniform
    | apply x_valid | vm_compute; reflexivity | vm_compute; reflexivity | apply ab_triggers
    | apply kv_of_answers | apply kv_of_commits | apply ab_holds].
Defined.

(** ** Key expansion *)
Definition x_values : gmap string (list string) := {[ "x" := ["1"; "2"] ]}.

Lemma x_values_good : good_values x_values.
Proof.
  unfold x_values. intros key values [<- <-]%lookup_singleton_Some. split; [done|].
  repeat constructor; vm_compute; reflexivity.
Qed.

Definition ab_expansion : list DynamicRule :=
  match Expand 5 both_rule x_values with Done (out, _) => out | _ => [] end.

Lemma ab_expands : Expand 5 both_rule x_values = Done (ab_expansion, true).
Proof.
  unfold ab_expansion.
  assert (match Expand 5 both_rule x_values with Done (_, b) => b | _ => false end = true) as Hb
    by (vm_compute; reflexivity).
  by destruct (Expand 5 both_rule x_values) as [[? []]| |].
Qed.

Lemma both_plain : plain_rule both_rule.
Proof. apply plain_all. vm_compute. reflexivity. Qed.

(** The conjunction has one parameter with two values. *)
Lemma Expand_exact_witness :
  exists out expanded, Expand 5 both_rule x_values = Done (out, expanded) /\
    (expanded = true <-> exists n, n ∈ rule_params both_rule /\ is_Some (x_values !! n)) /\
    (forall r', r' ∈ out -> exists s, chosen x_values both_rule s /\ instance_of s both_rule r') /\
    (forall s, chosen x_values both_rule s -> exists r', r' ∈ out /\ instance_of s both_rule r').
Proof.
  apply (Expand_exact 5 both_rule x_values);
    [apply both_plain | apply x_values_good | vm_compute; lia].
Defined.

Lemma Expand_meaning_witness :
  length ab_expansion = 2 /\
  (forall store env,
     (forall n values, n ∈ rule_params both_rule -> x_values !! n = Some values ->
        exists v, v ∈ values /\ env n = Some v) ->
     rule_holds store env both_rule = true -> exists r', r' ∈ ab_expansion /\ rule_holds store env r' = true) /\
  (forall r', r' ∈ ab_expansion -> exists s, chosen x_values both_rule s /\
     forall store env, rule_holds store env r' = rule_holds store (override s env) both_rule).
Proof.
  split; [vm_compute; reflexivity|].
  apply (Expand_meaning 5 both_rule x_values ab_expansion true);
    [apply both_plain | apply x_values_good | vm_compute; lia | apply ab_expands].
Defined.

Lemma Expand_wf_witness : Forall wf_rule ab_expansion.
Proof. apply (Expand_wf 5 both_rule x_values ab_expansion true); [apply both_wf | apply ab_expands]. Defined.

Definition leaf_of (r : DynamicRule) : dynamicRule :=
  match r with
  | leafRule krp => krp
  | _ => mkDynamicRule equalsRuleFactory [] [] [] [] EmptyString
  end.

Lemma Expand_diverges_witness : Expand 1000 (leafRule (leaf_of ab_rule)) {[ "x" := [":x"] ]} = NoFuel.
Proof.
  apply (Expand_diverges 1000 (leaf_of ab_rule) "x"); [apply plain_all; vm_compute; reflexivity |].
  apply (bool_decide_unpack ("x" ∈ rule_params (leafRule (leaf_of ab_rule)))). vm_compute. exact I.
Defined.

(** ** Options *)
Definition two_maps : map_store := {[ 0 := {[ "x" := ["1"] ]}; 1 := {[ "x" := ["2"]; "y" := ["3"] ]} ]}.



Definition some_metrics : record :=
  IncUnlockErrorMetric "etcd" "worker" "/a/:x" (IncLockMetric "map" "worker" "/a/:x" true []).

Lemma unlock_errors_not_exposed_witness :
  Forall labelled some_metrics /\
  (forall s, s ∈ exposed some_metrics <-> s ∈ some_metrics /\ smp_metric s <> rulesEngineUnlockErrorCount) /\
  forall locker methodName pattern,
    exposed (IncUnlockErrorMetric locker methodName pattern some_metrics) = exposed some_metrics.
Proof.
  apply (unlock_errors_not_exposed some_metrics). apply records_unlock, records_lock, records_nil.
Defined.

(** ** A running engine *)
Definition ab_task : keyTask := mkKeyTask "/a/1" (Some "v") (etcdV3ReadAPI_getCachedAPI (kv_of ab_store)) ∅.

Lemma channels_bounded_witness : length [ab_task] <= 1 /\ length ([] : list (v3RuleWork nat nat)) <= 0.
Proof.
  apply (channels_bounded (keyWorker (e_keyProc ab_engine)) 1 0 [[ab_task]] 1
           (mkChannels [[]] [ab_task] [[]] [] [])).
  eapply rtc_l; [|apply rtc_refl]. apply (submit_buffered _ _ _ [[ab_task]] [] [[]] [] [] 0 ab_task []);
    [reflexivity | simpl; lia].
Defined.

Lemma engine_keys_delivered_witness :
  let step := channel_step (keyWorker (e_keyProc ab_engine)) 0 0 in
  sn step (start [[ab_task]; [ab_task]] 1) /\
  forall c, rtc step (start [[ab_task]; [ab_task]] 1) c ->
    (exists c', step c c') \/ delivered c ≡ₚ [ab_work; ab_work].
Proof.
  destruct (engine_keys_delivered ∅ false 30 30 [ab_reg; cd_reg] ab_engine ab_engine_with two_usable
    0 0 [[ab_task]; [ab_task]] 1) as [Hsn Hd]; [lia|]. split; [exact Hsn|].
  intros c [?|Hc]%Hd; [by left|]. right. rewrite Hc.
  set (l := flat_map _ _). assert (l = [ab_work; ab_work]) as -> by (vm_compute; reflexivity). reflexivity.
Defined.

Definition ab_prefix_get (p : string) : result (list (string * string)) :=
  inr (filter (fun kv => HasPrefix kv.1 p = true) [("/a/1", "v"); ("/b/1", "v")]).

Lemma ab_prefix_answers : prefix_answers ab_prefix_get ab_store.
Proof.
  intros p. eexists. split; [done|]. intros k v. rewrite list_elem_of_filter. simpl.
  rewrite !elem_of_cons, elem_of_nil. unfold ab_store. repeat case_decide; naive_solver.
Qed.

Lemma ab_canonical : Forall (fun reg : registration nat nat =>
  forall p, p ∈ pattern_list (ref_rule (reg_rule reg)) ->
    canonical p = true /\ colon_free (pattern_segments p) = true) [ab_reg; cd_reg].
Proof.
  assert (forall r, forallb (fun p => canonical p && colon_free (pattern_segments p)) (pattern_list r) = true ->
    forall p, p ∈ pattern_list r -> canonical p = true /\ colon_free (pattern_segments p) = true) as Hall.
  { intros r Hf p Hp. rewrite forallb_forall in Hf. apply andb_true_iff, Hf. by apply list_elem_of_In. }
  apply Forall_cons_2; [|apply Forall_singleton]; apply Hall; vm_compute; reflexivity.
Qed.

Definition default_options : engineOptions nat nat := defaultEngineOptions 0 0.

Definition ab_started : started :=
  match Run default_options ab_engine with inr st => st | inl _ => mkStarted [] (mkIntCrawler EmptyString None 0 []) [] end.

Lemma crawl_finds_work_witness :
  exists tasks,
    crawler_singleRun (st_crawler ab_started) (kp_base (e_keyProc ab_engine)) ab_prefix_get
      (etcdV3ReadAPI_getCachedAPI (kv_of ab_store)) (fun _ => false) = Some tasks /\
    forall k v, (exists t, t ∈ tasks /\ task_key t = k /\ task_value t = Some v) <->
      ab_store k = Some v /\ under (st_watchers ab_started) k /\
      exists works ids,
        processKey (e_keyProc ab_engine) k (Some v) (etcdV3ReadAPI_getCachedAPI (kv_of ab_store)) ∅ =
          Some (works, ids) /\
        works <> [].
Proof.
  apply (crawl_finds_work ∅ false 30 30 [ab_reg; cd_reg] ab_engine ab_engine_with two_usable default_options
           ab_started (kv_of ab_store) ab_prefix_get ab_store ∅);
    [reflexivity | apply ab_canonical | reflexivity | apply ab_prefix_answers | apply kv_of_answers
    | apply kv_of_commits].
Defined.

(** The third rule of the engine is "/e/:x = /f/:x" with two values for x. *)
Definition ef_ref : ruleRef := mkRuleRef _ 2 (rule_or_default (NewEqualsRule ["/e/:x"; "/f/:x"])).

Lemma AddRule_expands_witness :
  exists refs e',
    addRuleWithIface 5 3 x_values ab_engine ef_ref "/lock3/:x" 12 [RuleID "ef"] = Done e' /\
    engine_with ∅ false 30 30
      ([ab_reg; cd_reg] ++ ((fun ref => mkRegistration ref "/lock3/:x" 12 [RuleID "ef"]) <$> refs)) e' /\
    all_instances x_values (ref_rule ef_ref) (ref_rule <$> refs).
Proof.
  apply (AddRule_expands ∅ false 30 30 [ab_reg; cd_reg] ab_engine 5 3 x_values ef_ref "/lock3/:x" 12 [RuleID "ef"]);
    [apply ab_engine_with | apply no_constraints | discriminate
    | apply plain_all; vm_compute; reflexivity | apply x_values_good | vm_compute; lia].
Defined.

(** Sprintf on formats with "%s" only. *)
Fixpoint sprintf_string (format : string) (args : list string) : string :=
  match format with
  | String "%" (String "s" rest) => default EmptyString (head args) +:+ sprintf_string rest (tail args)
  | String c rest => String c (sprintf_string rest args)
  | EmptyString => EmptyString
  end.

#[local] Instance string_fmt : Fmt := {| Sprintf := sprintf_string |}.

Definition ttl_rule : DynamicRule := rule_or_default (NewEqualsLiteralRule "/poll/:x/ttl" None).

Lemma polling_waits_witness :
  doRule 7 30 "/poll/:x/ttl" x1 (inr 99%Z) =
    ([RunCallback 7; GrantLease 30; PutKey "/poll/1/ttl" EmptyString 99], false) /\
  forall store, rule_holds store (attr_env x1) ab_rule = true -> store "/poll/1/ttl" = None ->
    rule_holds store (attr_env x1) (NewAndRule [ab_rule; ttl_rule]) = true.
Proof.
  split.
  - destruct (polling_waits (CP := nat) ab_rule ttl_rule "/poll/:x" 7 30 99 x1 ab_store)
      as (_ & _ & Hd & _); [vm_compute; reflexivity | apply x1_total | exact Hd].
  - intros store Hab Hnone.
    destruct (polling_waits (CP := nat) ab_rule ttl_rule "/poll/:x" 7 30 99 x1 store) as (_ & Hr & _);
      [vm_compute; reflexivity | apply x1_total |].
    rewrite Hr, Hab. apply bool_decide_eq_true. exact Hnone.
Defined.

(** ** From an event to the callback *)
Definition ab_event : event := mkEvent false "/a/1" "v".
Definition ab_sels : list selection := [SelErr "connection refused"; SelEvents [mkEvent true "/z" EmptyString; ab_event]].

Lemma event_runs_callback_witness :
  let step := channel_step (keyWorker (e_keyProc ab_engine)) 1 0 in
  let init := start [watcher_tasks (kv_of ab_store) 4 (fun _ => false) (fun _ => 0%Z) ab_sels; [ab_task]] 2 in
  under (st_watchers ab_started) "/a/1" /\ sn step init /\
  forall c, rtc step init c -> (exists c', step c c') \/
    exists w, w ∈ delivered c /\ ruleTaskCallback w = Some 10.
Proof.
  destruct (event_runs_callback ab_engine 30 30 [ab_reg; cd_reg] ab_engine_with two_distinct two_usable
    ["x"] 0 ab_reg "/a/1" "/a/:x" x_is_1 eq_refl ab_uniform x_valid ltac:(vm_compute; reflexivity)
    ltac:(vm_compute; reflexivity) ab_triggers (kv_of ab_store) ab_store (kv_of_answers _) (kv_of_commits _) ab_holds
    default_options ab_started (Some "v") ab_sels (fun _ => false) (fun _ => 0%Z) [[ab_task]] 4 1 0 2 ab_event) as (Hu & Hsn & Hd);
    [vm_compute; reflexivity | reflexivity | simpl; set_solver | reflexivity | vm_compute; lia | done | lia |].
  split_and!; [exact Hu | exact Hsn |]. intros c [Hs|(w & Hw & Hcb & _)]%Hd; [by left | right; eauto].
Defined.

(** The key exists, and the crawler finds it. *)
Lemma crawl_runs_callback_witness :
  exists tasks,
    crawler_singleRun (st_crawler ab_started) (kp_base (e_keyProc ab_engine)) ab_prefix_get
      (etcdV3ReadAPI_getCachedAPI (kv_of ab_store)) (fun _ => false) = Some tasks /\
    let step := channel_step (keyWorker (e_keyProc ab_engine)) 1 0 in
    let init := start (tasks :: [[ab_task]]) 2 in
    sn step init /\
    forall c, rtc step init c -> (exists c', step c c') \/
      exists w, w ∈ delivered c /\ ruleTaskCallback w = Some 10.
Proof.
  destruct (crawl_runs_callback ab_engine 30 30 [ab_reg; cd_reg] ab_engine_with two_distinct two_usable
    ["x"] 0 ab_reg "/a/1" "/a/:x" x_is_1 eq_refl ab_uniform x_valid ltac:(vm_compute; reflexivity)
    ltac:(vm_compute; reflexivity) ab_triggers (kv_of ab_store) ab_store (kv_of_answers _) (kv_of_commits _) ab_holds
    default_options ab_started "v" ab_prefix_get [[ab_task]] 1 0 2) as (tasks & Ht & Hsn & Hd);
    [apply ab_canonical | reflexivity | apply ab_prefix_answers | reflexivity | lia |].
  exists tasks. split; [exact Ht|]. split; [exact Hsn|].
  intros c [Hs|(w & Hw & Hcb & _)]%Hd; [by left | right; eauto].
Defined.

(** ** Reports *)
(** A report with a quote and a two-byte character in a value, and its body. *)
Definition quoted_event : callbackEvent :=
  mkCallbackEvent "rule/1" (Some {["id" := String (ascii_of_nat 34) "é<"; "a" := EmptyString]}).

(** In the literal, ' stands for a quote. *)
Example quoted_event_body :
  marshal_event quoted_event =
  (fun c => if decide (c = "'"%char) then ascii_of_nat 34 else c) <$>
  chars "{'ruleID':'rule/1','attributes':{'a':'','id':'\'é\u003c'}}".
Proof. reflexivity. Qed.

Lemma reports_received_witness :
  HandleRequest [] (marshal_event quoted_event) = Some [quoted_event] /\
  exists rest, WaitForCallback "deadline" false [quoted_event] "rule/1" (ev_attributes quoted_event) = Some (None, rest).
Proof.
  destruct (reports_received "deadline" [] quoted_event) as (ev' & Hh & Hv & Hw); [vm_compute; lia|].
  assert (valid_event quoted_event) as Hok by (apply sanitize_event_id; vm_compute; reflexivity).
  rewrite (proj2 Hv Hok) in Hh, Hw. split; [exact Hh | exact (Hw Hok)].
Defined.

(** ** What the collectors see *)
(** A response with three events counts as six. *)
Definition three_events : list selection :=
  [SelEvents [mkEvent true "/a" EmptyString; mkEvent true "/b" EmptyString; mkEvent true "/c" EmptyString]].

Lemma watch_events_overcounted_witness :
  (2 * foldr Z.add 0 (ObserveWatchEventsEvents
     (calls NewMockMetricsCollector (watcher_calls "/" (fun _ => 1%Z) 4 (fun _ => false) (fun _ => 0%Z) three_events))) = 12)%Z.
Proof.
  destruct (watch_events_overcounted "/" (fun _ => 1%Z) 4 (fun _ => false) (fun _ => 0%Z) three_events) as [Htotal _];
    [vm_compute; lia | done |].
  rewrite Htotal. vm_compute. reflexivity.
Defined.

(** ** The integration test *)
Definition no_env (name : string) : option string := None.

(** On an empty store, with the default port. *)
Lemma integration_test_passes_witness :
  exists pollRule doneRule e,
    test_engine 10 = Done e /\ sn (test_step [] no_env pollRule doneRule) (test_init ∅) /\
    exists st, rtc (test_step [] no_env pollRule doneRule) (test_init ∅) st /\ t_phase st = Finished.
Proof.
  destruct (integration_test_passes [] no_env 10 ∅) as (pollRule & doneRule & e & He & _ & Hsn & Hst).
  exists pollRule, doneRule, e. split_and!; [exact He | exact Hsn |].
  destruct (Hst (test_init ∅) (rtc_refl _ _)) as (_ & _ & _ & [[f Hf]|Hrun]); [discriminate Hf | exact Hrun].
Defined.
